(* ===== verification/_CoqProject ===== *)
-Q . S2P
Prelude.v
GoStrings.v
GoTime.v
Logger.v
WebTest.v
LoggerThms.v
K8sApi.v
K8sInstances.v
Constants.v
Resource.v
PodUtils.v
SiHelper.v
TaskGroups.v
Conf.v
ConfigMaps.v
ConfThms.v
KubeClient.v
AdmissionConf.v
Admission.v
AdmissionThms.v
ConfAccess.v
Pki.v
Webhook.v
WebhookThms.v
AdmissionMain.v
SchedulerCache.v
SchedulerCacheInv.v
SchedulerCacheOps.v
SchedulerCacheNodes.v
SchedulerCacheThms.v
CacheDao.v
World.v
Logic.v
Locks.v
Dispatcher.v
DispatcherThms.v
Fsm.v
ContextPods.v
Task.v
Application.v
PlaceholderManager.v
PlaceholderLife.v
ShimContext.v
Predicates.v
PredicateThms.v
FrameworkHandle.v
SchedulerCallback.v
Examples.v
TaskThms.v
BindThms.v
ApplicationThms.v
PlaceholderThms.v
DeferThms.v
GangThms.v
ScheduleThms.v
LifecycleThms.v
Safety.v
SafetyTasks.v
SafetyCache.v
SafetyContext.v
SafetyThms.v
ShimSafety.v
PodIdentity.v
NodeRegistration.v
ApiFactory.v
MockProvider.v
Sends.v
System.v
SystemThms.v
ShimRun.v
ShimLocks.v
CacheLock.v
