(* ===== verification/Prelude.v ===== *)
(** * A verification development for yunikorn-k8shim

    yunikorn-k8shim schedules Kubernetes pods with the YuniKorn core.  Two
    processes are modelled: the scheduler shim, which keeps a cache of nodes and
    pods, runs a state machine per application and per task (pod), and exchanges
    requests and callbacks with the core; and the admission controller, a webhook
    that labels and checks new pods before the API server stores them.

    ** How the parts interact

    Informers deliver pods, nodes, priority classes and config maps to the context
    (pkg/cache/context.go).  The context updates the scheduler cache and creates
    applications and tasks.  Events for their state machines travel through the
    dispatcher.  A scheduling round moves tasks on and asks the core for
    allocations; the callbacks of the core assume pods on nodes, and a goroutine
    per allocation binds volumes and pods with retries.  Applications with task
    groups reserve resources with placeholder pods first.  The core asks the shim
    whether a pod fits a node; the predicate manager runs the plugins of the
    Kubernetes scheduler for that.  The process starts the services in order
    (informers, registration with the core, dispatcher, placeholder manager, state
    of the cluster, scheduling loop) and stops them on a signal.

    [System] puts these parts together: a state with the world, the dispatcher and
    the goroutines, and a step relation in which calls, goroutines, the event loop
    and the dispatch of single events interleave.

    ** Files and sources

    - Go and Kubernetes: this file (machine integers, lists and maps, tactics),
      [GoStrings] (strings, strconv and fmt), [GoTime] (time.ParseDuration),
      [K8sApi] and [K8sInstances] (objects and third-party code as classes with
      laws, and instances of them), [Constants] (pkg/common/constants).
    - Resources and metadata: [Resource] (pkg/common/resource.go), [PodUtils]
      (pkg/common/utils/utils.go), [SiHelper] (pkg/common/si_helper.go),
      [TaskGroups] (utils.go, gang_utils.go, amprotocol.go, metadata.go and
      placeholder.go of pkg/cache).
    - Scheduler cache (pkg/cache/external/scheduler_cache.go): [SchedulerCache] has
      its state, a record of maps, and its operations; [SchedulerCacheInv],
      [SchedulerCacheOps], [SchedulerCacheNodes] and [SchedulerCacheThms] have the
      invariant [wf], an abstract specification and the theorems; [CacheDao] has the
      state dump (scheduler_cache_dao.go).
    - Stateful parts of the shim: [World] (the heap of applications and tasks, the
      cache and the trace of calls to the outside, and the monad [M] over them),
      [Logic] (running and relating computations), [Fsm] (looplab/fsm),
      [Task] (task.go, task_state.go), [Application] (application.go,
      application_state.go), [PlaceholderManager] (placeholder_manager.go),
      [ContextPods] and [ShimContext] (context.go), [SchedulerCallback]
      (scheduler_callback.go and the loop of pkg/shim/scheduler.go), all in
      pkg/cache but the last; [NodeRegistration] (updateNodeInternal and
      registerNodesInternal of context.go as two halves around the wait for the
      core), [PlaceholderLife] (start and stop of the placeholder manager).
    - Start, stop and composition: [ApiFactory] (apifactory.go and clients.go of
      pkg/client), [KubeClient] (kubeclient.go and bootstrap.go), [ShimRun]
      (pkg/shim/scheduler.go and pkg/cmd/shim/main.go), [System] (how the parts of
      the running shim call each other).
    - Dispatcher (pkg/dispatcher): [Dispatcher], a step relation in which callers,
      the event loop and the waiting goroutines interleave.
    - Predicates (pkg/plugin/predicates): [Predicates]; the handle and the listers of
      the plugins (pkg/plugin/support): [FrameworkHandle].
    - Locks: [Locks] (readers-writer locks, threads, programs that take locks on every
      path of a function) and [ShimLocks] (the locks and shared accesses of the entry
      points: context.go, application.go, task.go, scheduler_cache.go,
      placeholder_manager.go, scheduler_callback.go and pkg/shim/scheduler.go);
      [CacheLock] (steps of the cache's operations under its lock).
    - Tests: [MockProvider] (apifactory_mock.go and kubeclient_mock.go of pkg/client,
      the recorder of pkg/common/events and its mock), [WebTest] (pkg/webtest and
      pkg/cmd/webtest).
    - Configuration and logging: [Conf] (pkg/conf/schedulerconf.go), [ConfigMaps]
      (config map handlers of context.go, registration with the core), [Logger]
      (pkg/log), [ConfAccess] (the getters of both configurations, and reading them
      during a reload).
    - Admission controller (pkg/admission): [AdmissionConf] (conf/am_conf.go),
      [Admission] (the reviews, user information, namespace and priority class
      caches), [Pki] (pki/certs.go), [Webhook] (webhook_manager.go and the
      registration in pkg/cmd/admissioncontroller/main.go), [AdmissionMain] (the
      web server, signals and informers of that process).

    Definitions have the names of the source.  A Go object that is shared by
    pointer is an entry of a heap of [World]; a nil pointer, an index out of range
    and a fatal error are [None] in [M].  Errors are values.

    ** What the theorems show

    - [ShimSafety], on top of [Safety], [SafetyTasks], [SafetyCache],
      [SafetyContext] and [SafetyThms]: whatever sequence of informer events, core
      callbacks, dispatched events, rounds and bindings happens from the start, no
      handler panics, and the heaps, the task tables and the cache stay consistent.
    - [SystemThms], on top of [Sends] (what the shim sends meets the preconditions of
      who handles it): the running shim never panics under any interleaving, every
      event it ever sent is delivered, refused, dropped with a reason or still on
      its way, and the work that a request causes comes to an end.
    - [NodeRegistration], on top of [PodIdentity] (UIDs name one pod for ever): the
      lock that is free while a node is registered harms neither safety nor
      progress; without interference the two halves are the handler.
    - [ShimLocks], on top of [Locks]: the entry points take their locks in one order, so
      their goroutines never deadlock and can always be completed, whatever paths they
      run and however they interleave; those that access all shared state under its
      lock never race, and every other entry point does, with an example for each.  A
      state machine that holds a lock of its own around hooks makes a deadlock
      possible.
    - [CacheLock]: however the operations of the scheduler cache are split into steps,
      what is read under its lock is a cache between whole operations; [removePod],
      statement by statement, is the example.
    - [ShimRun], [ApiFactory], [PlaceholderLife]: the shim starts as a whole or stops
      what it had started, stopping twice is stopping once, informer notifications
      reach the handlers of the context, start and stop of the placeholder manager
      complete when they do not overlap.
    - [KubeClient]: updates of pods lose no write of another client and change only
      what they mean to; [CacheDao]: the state dump agrees with the cache.
    - [SchedulerCacheThms]: the cache refines a map from pods to places, each pod is
      in one place, forgetting undoes assuming, nodes can come and go.
    - [TaskThms], [BindThms], [LifecycleThms], [ApplicationThms], [DeferThms]: state
      machines follow their tables, ended tasks and applications stay ended,
      bindings succeed or are rolled back, allocations are used or released,
      releases that come early are replayed.
    - [GangThms], [PlaceholderThms], [ScheduleThms]: a gang starts exactly when it
      is complete, gets the placeholders it lacks, its clean-up forgets no pod; what
      a scheduling round submits, and in which order.
    - [DispatcherThms]: events are neither lost nor duplicated, keep their order as
      long as the channel is not full, and are delivered.
    - [PredicateThms]: a pod fits exactly when the plugins say so, preemption reports
      the first victim that makes room, the events to watch are the union of those
      of the plugins; [FrameworkHandle]: what plugins ask is answered from the cache as
      it was at the start of the predicate, and what is not supported ends the process.
    - [MockProvider]: the provider of the tests makes the handlers do what the informers
      make them do, with the exceptions that are shown; [WebTest]: how the program of
      the web server ends.
    - [ConfThms], [LoggerThms]: a configuration is taken over as a whole or not at
      all and is fixed while the shim runs; loggers have the level of their nearest
      ancestor; [ConfAccess]: a request during a reload gives rights only to users that
      one of the configurations names, but it can mix them.
    - [AdmissionThms], [WebhookThms]: admitted pods are ready for the scheduler,
      nobody submits pods in another user's name, settings always load; the
      registration is complete when it succeeds, succeeds when the API server
      works, and renews its certificates in time; [AdmissionMain]: reloads that come
      in time keep the web server up, and what early ones do.
    - [Resource], [PodUtils], [TaskGroups]: the request of a pod, the validation of
      task groups within int64 and int32, application IDs and names.

    Third-party code (quantities, NodeInfo, fsm, retry, clientsets, informer
    handlers, volume binder, scheduler plugins, JSON, gzip, regular expressions,
    x509, zap levels) is a class whose laws state its documented behaviour; closed
    examples instantiate each class.  The lock that fsm may hold around hooks is a
    parameter of [ShimLocks].

    ** Bounds and fuel

    Recursion is structural but for these: the components of a duration take at
    most its length ([GoTime], lemma [components_fuel]); the walk to the parent of a
    logger at most the length of its name ([Logger]); trimming white space at most
    the length of the string ([AdmissionConf]); decoding a certificate chain at
    most one more than its certificates ([Pki]); waiting for a condition as many
    rounds as fit in the timeout ([PodUtils]); waiting for informers as many seconds
    as they take to synchronise ([ApiFactory], theorem [wait_for_sync_returns]).  The
    examples of interleavings walk along paths of at most fifty nested steps
    ([Locks.walk]), which the theorems about all paths do not use.  The
    loops over attempts of the webhook manager, the retries of a binding and the
    retries on conflict have the bounds of the source.

    ** Not modelled

    Outside [ShimLocks], a handler that holds the lock of its object is one step, and
    so is a goroutine that binds a pod or creates placeholders; [ShimLocks] in turn
    keeps the locks and the shared accesses of the code and not its values, so that
    the steps are atomic is derived for the scheduler cache only ([CacheLock], with
    sequentially consistent memory).  Locks inside libraries and the
    deadlock detection of go-deadlock are left out.  The handler of a node
    is one step in [System] and two in [NodeRegistration]; the registration of all
    nodes at start-up, before informers are connected, is one step in both.  Texts of
    logs and recorded events and the resource manager ID of requests are left out.
    HTTP and TLS, the encoders of zap, the constructors of informers and clients and
    the dump of the configuration to the log are calls of libraries; the test doubles
    of pkg/common/test return what they are given, and the end-to-end tests drive a
    cluster. *)

From stdpp Require Export gmap strings list fin_maps sorting pretty.
From Stdlib Require Export ZArith Lia.

(** ** Machine integers

    Go's [int64] and [int32] arithmetic wraps around.  A value of such a type
    is a [Z]; every operation of the source that can overflow is followed by
    [wrap64] or [wrap32]. *)

Declare Scope go_scope.
Delimit Scope go_scope with go.

Definition MaxInt64 : Z := 9223372036854775807.
Definition MinInt64 : Z := -9223372036854775808.
Definition MaxInt32 : Z := 2147483647.
Definition MinInt32 : Z := -2147483648.

Definition wrap64 (z : Z) : Z := ((z + 2 ^ 63) mod 2 ^ 64 - 2 ^ 63)%Z.
Definition wrap32 (z : Z) : Z := ((z + 2 ^ 31) mod 2 ^ 32 - 2 ^ 31)%Z.

(** Saturating conversion to [int64]. *)
Definition clamp64 (z : Z) : Z := Z.max MinInt64 (Z.min z MaxInt64).

Definition in_int64 (z : Z) : Prop := (MinInt64 <= z <= MaxInt64)%Z.
Definition in_int32 (z : Z) : Prop := (MinInt32 <= z <= MaxInt32)%Z.

Notation "x +i64 y" := (wrap64 (x + y)) (at level 50, left associativity) : go_scope.
Notation "x -i64 y" := (wrap64 (x - y)) (at level 50, left associativity) : go_scope.
Notation "x *i64 y" := (wrap64 (x * y)) (at level 40, left associativity) : go_scope.
Open Scope go_scope.

Lemma wrap64_id z : in_int64 z → wrap64 z = z.
Proof.
  unfold in_int64, wrap64, MinInt64, MaxInt64. intros H.
  rewrite Z.mod_small; lia.
Qed.

Lemma wrap64_range z : in_int64 (wrap64 z).
Proof.
  unfold in_int64, wrap64, MinInt64, MaxInt64.
  pose proof (Z.mod_pos_bound (z + 2 ^ 63) (2 ^ 64) ltac:(lia)). lia.
Qed.

Lemma wrap32_id z : in_int32 z → wrap32 z = z.
Proof.
  unfold in_int32, wrap32, MinInt32, MaxInt32. intros H.
  rewrite Z.mod_small; lia.
Qed.

(** Wrapping an intermediate result does not change the final wrapped one. *)
Lemma wrap64_add_l x y : wrap64 (wrap64 x + y) = wrap64 (x + y).
Proof.
  unfold wrap64. f_equal.
  replace ((x + 2 ^ 63) mod 2 ^ 64 - 2 ^ 63 + y + 2 ^ 63)%Z
    with ((x + 2 ^ 63) mod 2 ^ 64 + y)%Z by lia.
  rewrite Z.add_mod_idemp_l by lia. f_equal. lia.
Qed.

Lemma wrap64_add_r x y : wrap64 (x + wrap64 y) = wrap64 (x + y).
Proof. rewrite Z.add_comm, wrap64_add_l. f_equal. lia. Qed.

(** ** Go maps

    [m[k]] on a Go map yields the zero value for a missing key.  A map with
    string keys and string values is a [gmap string string]; [go_get] is the
    read without the [ok] result. *)

Definition go_get (m : gmap string string) (k : string) : string :=
  default "" (m !! k).

Lemma go_get_insert_eq m k v : go_get (<[k:=v]> m) k = v.
Proof. unfold go_get. by rewrite lookup_insert_eq. Qed.

Lemma go_get_insert_ne m k k' v : k ≠ k' → go_get (<[k:=v]> m) k' = go_get m k'.
Proof. intros. unfold go_get. by rewrite lookup_insert_ne. Qed.

(** A [for k, v := range m] loop whose body only touches the entry of [k] in
    its accumulator: the entry of [k] in the result depends on the entry of
    [k] in the map and in the initial accumulator only. *)
Lemma map_fold_pointwise `{Countable K} {A B} (step : K → A → gmap K B → gmap K B)
    (f : A → option B → option B) (init : gmap K B) (m : gmap K A) (k : K) :
  (∀ i a r, step i a r !! i = f a (r !! i)) →
  (∀ i j a r, i ≠ j → step i a r !! j = r !! j) →
  map_fold step init m !! k =
  match m !! k with Some a => f a (init !! k) | None => init !! k end.
Proof.
  intros Heq Hne.
  apply (map_fold_weak_ind (λ r m, r !! k =
    match m !! k with Some a => f a (init !! k) | None => init !! k end)).
  - by rewrite lookup_empty.
  - intros i a m' r Hi IH. destruct (decide (i = k)) as [->|Hik].
    + rewrite Heq, lookup_insert_eq. by rewrite Hi in IH; rewrite IH.
    + rewrite Hne, lookup_insert_ne by done. apply IH.
Qed.

(** A loop that copies every entry of a map. *)
Lemma map_fold_copy `{Countable K} {A} (init m : gmap K A) :
  map_fold (λ k v r, <[k := v]> r) init m = m ∪ init.
Proof.
  apply map_eq. intros k.
  rewrite (map_fold_pointwise _ (λ a _, Some a)); [|by intros; rewrite ?lookup_insert_eq..|].
  - rewrite lookup_union. by destruct (m !! k), (init !! k).
  - intros. by rewrite lookup_insert_ne.
Qed.

(** The order of a [range] loop over a map is any permutation of its
    entries. *)
Class MapOrder := {
  go_range : ∀ {A}, gmap string A → list (string * A);
  go_range_perm {A} (m : gmap string A) : go_range m ≡ₚ map_to_list m
}.

#[export] Instance map_order_ref : MapOrder := {
  go_range := λ A m, map_to_list m;
  go_range_perm := λ A m, reflexivity _
}.

Lemma elem_of_go_range `{MapOrder} {A} (m : gmap string A) k x :
  (k, x) ∈ go_range m ↔ m !! k = Some x.
Proof. by rewrite go_range_perm, elem_of_map_to_list. Qed.

Lemma NoDup_go_range `{MapOrder} {A} (m : gmap string A) : NoDup (go_range m).*1.
Proof. rewrite go_range_perm. apply NoDup_fst_map_to_list. Qed.

(** Filtering only looks at the elements of the list. *)
Lemma filter_ext_in {A} (P Q : A → Prop) `{∀ x, Decision (P x), ∀ x, Decision (Q x)} (l : list A) :
  (∀ x, x ∈ l → P x ↔ Q x) → filter P l = filter Q l.
Proof.
  induction l as [|x l IH]; intros HPQ; [done|].
  rewrite !filter_cons, IH by (intros; apply HPQ; by right).
  pose proof (HPQ x ltac:(left)). repeat case_decide; tauto || done.
Qed.

(** String comparison [a == b] of Go, as a boolean. *)
Notation "a =s b" := (bool_decide (a =@{string} b)) (at level 70) : go_scope.
Notation "a <>s b" := (negb (bool_decide (a =@{string} b))) (at level 70) : go_scope.

(** ** Tactics *)

(** Case analysis on the tests of the goal, with impossible cases closed. *)
Ltac go_cases :=
  repeat first
    [ progress simplify_eq/=
    | case_bool_decide
    | case_decide
    | case_match ];
  try done.

(** Splits boolean connectives in the hypotheses. *)
Ltac bool_split :=
  repeat match goal with
  | H : (_ && _) = true |- _ => apply andb_true_iff in H as [? ?]
  | H : (_ || _) = false |- _ => apply orb_false_iff in H as [? ?]
  | H : negb _ = true |- _ => apply negb_true_iff in H
  | H : negb _ = false |- _ => apply negb_false_iff in H
  | H : bool_decide _ = true |- _ => apply bool_decide_eq_true in H
  | H : bool_decide _ = false |- _ => apply bool_decide_eq_false in H
  end.

(** ** Hint databases *)

Create HintDb shim.
Create Rewrite HintDb shim.
#[export] Hint Resolve wrap64_range : shim.
#[export] Hint Rewrite go_get_insert_eq : shim.
#[export] Hint Rewrite wrap64_add_l wrap64_add_r : shim.
