(* ===== verification/GoStrings.v ===== *)
(** * The parts of Go's [strings], [strconv] and [fmt] the shim uses

    A Go string is a sequence of bytes, here a [string] of [ascii] bytes.
    [%.Ns] of [fmt] cuts after N runes, so the UTF-8 decoding of Go's [range]
    loop over a string is written out ([rune_width]). *)

From S2P Require Import Prelude.

(** ** Prefixes and suffixes *)

Definition HasPrefix (s prefix : string) : bool := String.prefix prefix s.

(** [s[:n]] and [s[n:]]. *)
Fixpoint string_take (n : nat) (s : string) : string :=
  match n, s with
  | S n', String c s' => String c (string_take n' s')
  | _, _ => EmptyString
  end.

Fixpoint string_drop (n : nat) (s : string) : string :=
  match n, s with
  | S n', String _ s' => string_drop n' s'
  | _, _ => s
  end.

Definition HasSuffix (s suffix : string) : bool :=
  (String.length suffix <=? String.length s)%nat &&
  (string_drop (String.length s - String.length suffix) s =s suffix).

Definition TrimSuffix (s suffix : string) : string :=
  if HasSuffix s suffix
  then string_take (String.length s - String.length suffix) s
  else s.

(** ** [strings.Contains] *)

Fixpoint Contains (s sub : string) : bool :=
  String.prefix sub s ||
  match s with
  | EmptyString => false
  | String _ s' => Contains s' sub
  end.

(** ** [strings.Split] with a one-byte separator, and [strings.Join] *)

Fixpoint Split (s : string) (sep : Ascii.ascii) : list string :=
  match s with
  | EmptyString => [EmptyString]
  | String c s' =>
      if decide (c = sep) then EmptyString :: Split s' sep
      else match Split s' sep with
           | [] => [String c EmptyString]
           | w :: ws => String c w :: ws
           end
  end.

Fixpoint Join (ws : list string) (sep : string) : string :=
  match ws with
  | [] => EmptyString
  | [w] => w
  | w :: ws' => w +:+ sep +:+ Join ws' sep
  end.

(** ** Runes

    The number of bytes Go's [range] loop advances over at the head of a
    string: the width of a valid UTF-8 sequence, 1 for an invalid byte. *)

Definition byte_in (lo hi : N) (c : Ascii.ascii) : bool :=
  let n := Ascii.N_of_ascii c in (lo <=? n)%N && (n <=? hi)%N.

Definition cont_byte : Ascii.ascii → bool := byte_in 0x80 0xBF.

Definition rune_width (s : string) : nat :=
  match s with
  | EmptyString => 0
  | String b0 rest =>
      match rest with
      | String b1 rest1 =>
          if byte_in 0xC2 0xDF b0 then (if cont_byte b1 then 2 else 1)
          else
            let three_ok :=
              (byte_in 0xE0 0xE0 b0 && byte_in 0xA0 0xBF b1) ||
              (byte_in 0xE1 0xEC b0 && cont_byte b1) ||
              (byte_in 0xED 0xED b0 && byte_in 0x80 0x9F b1) ||
              (byte_in 0xEE 0xEF b0 && cont_byte b1) in
            let four_ok :=
              (byte_in 0xF0 0xF0 b0 && byte_in 0x90 0xBF b1) ||
              (byte_in 0xF1 0xF3 b0 && cont_byte b1) ||
              (byte_in 0xF4 0xF4 b0 && byte_in 0x80 0x8F b1) in
            match rest1 with
            | String b2 rest2 =>
                if three_ok then (if cont_byte b2 then 3 else 1)
                else if four_ok then
                  match rest2 with
                  | String b3 _ => if cont_byte b2 && cont_byte b3 then 4 else 1
                  | EmptyString => 1
                  end
                else 1
            | EmptyString => 1
            end
      | EmptyString => 1
      end
  end.

(** The bytes of the first [n] runes of [s]; [fuel] bounds the loop by the
    length of the string, every round consumes at least one byte. *)
Fixpoint rune_bytes (fuel n : nat) (s : string) : nat :=
  match fuel, n with
  | S fuel', S n' =>
      match s with
      | EmptyString => 0
      | _ => let w := rune_width s in w + rune_bytes fuel' n' (string_drop w s)
      end
  | _, _ => 0
  end.

(** [fmt.Sprintf("%.Ns", s)] *)
Definition truncate (n : nat) (s : string) : string :=
  string_take (rune_bytes (String.length s) n s) s.

(** An ASCII string: every byte is below 128. *)
Fixpoint is_ascii (s : string) : bool :=
  match s with
  | EmptyString => true
  | String c s' => byte_in 0 0x7F c && is_ascii s'
  end.

(** ** [strconv] *)

Definition hex_digit (n : N) : Ascii.ascii :=
  Ascii.ascii_of_N (if (n <? 10)%N then 48 + n else 87 + n)%N.

(** A byte of a quoted string. *)
Definition quote_byte (c : Ascii.ascii) : string :=
  let n := Ascii.N_of_ascii c in
  match n with
  | 7 => "\a" | 8 => "\b" | 9 => "\t" | 10 => "\n" | 11 => "\v" | 12 => "\f" | 13 => "\r"
  | 34 => "\" +:+ String c ""
  | 92 => "\\"
  | _ =>
      if (n <? 32) || (n =? 127)
      then "\x" +:+ String (hex_digit (n / 16)) (String (hex_digit (n mod 16)) "")
      else String c ""
  end%N.

Fixpoint quote_bytes (s : string) : string :=
  match s with
  | EmptyString => EmptyString
  | String c s' => quote_byte c +:+ quote_bytes s'
  end.

(** [fmt.Sprintf("%q", s)] of a string of ASCII bytes and printable runes. *)
Definition Quote (s : string) : string :=
  let q := String (Ascii.ascii_of_N 34) "" in q +:+ quote_bytes s +:+ q.

Definition ParseBool (s : string) : option bool :=
  if bool_decide (s ∈ ["1"; "t"; "T"; "TRUE"; "true"; "True"]) then Some true
  else if bool_decide (s ∈ ["0"; "f"; "F"; "FALSE"; "false"; "False"]) then Some false
  else None.

Fixpoint parse_digits (s : string) (acc : N) : option N :=
  match s with
  | EmptyString => Some acc
  | String c s' =>
      if byte_in 48 57 c
      then parse_digits s' (acc * 10 + (Ascii.N_of_ascii c - 48))%N
      else None
  end.

(** The two results of [strconv.ParseInt(s, 10, bits)]: the value returned
    (0 on a syntax error, the nearest bound on a range error) and whether an
    error is returned with it. *)
Definition ParseInt (s : string) (bits : Z) : Z * bool :=
  let '(neg, digits) :=
    match s with
    | String c s' =>
        if byte_in 43 43 c then (false, s')        (* plus sign *)
        else if byte_in 45 45 c then (true, s')    (* minus sign *)
        else (false, s)
    | EmptyString => (false, s)
    end in
  match digits with
  | EmptyString => (0%Z, true)
  | _ =>
      match parse_digits digits 0 with
      | None => (0%Z, true)
      | Some n =>
          let cutoff := (2 ^ (bits - 1))%Z in
          if negb neg && (cutoff <=? Z.of_N n)%Z then ((cutoff - 1)%Z, true)
          else if neg && (cutoff <? Z.of_N n)%Z then ((- cutoff)%Z, true)
          else ((if neg then - Z.of_N n else Z.of_N n)%Z, false)
      end
  end.

(** [strconv.Atoi]: an [int] is 64 bits wide. *)
Definition Atoi (s : string) : Z * bool := ParseInt s 64.

(** [strconv.FormatInt(z, 10)] *)
Definition FormatInt (z : Z) : string := pretty z.

(** ** Lemmas *)

Lemma string_app_cons c s t : String c s +:+ t = String c (s +:+ t).
Proof. done. Qed.

Lemma string_app_nil_l s : "" +:+ s = s.
Proof. done. Qed.

#[export] Hint Rewrite string_app_cons string_app_nil_l : shim.

Lemma string_take_drop n s : string_take n s +:+ string_drop n s = s.
Proof.
  revert n. induction s as [|c s IH]; intros [|n]; simpl; try done.
  by rewrite string_app_cons, IH.
Qed.

Lemma string_take_length n s : String.length (string_take n s) = n `min` String.length s.
Proof.
  revert n. induction s as [|c s IH]; intros [|n]; simpl; try done.
  by rewrite IH.
Qed.

Lemma string_drop_length n s : String.length (string_drop n s) = String.length s - n.
Proof. revert n. induction s as [|c s IH]; intros [|n]; simpl; try done. Qed.

Lemma string_length_app s t : String.length (s +:+ t) = String.length s + String.length t.
Proof. induction s; rewrite ?string_app_cons; simpl; auto. Qed.

Lemma string_drop_app s t : string_drop (String.length s) (s +:+ t) = t.
Proof. by induction s. Qed.

Lemma string_take_app s t : string_take (String.length s) (s +:+ t) = s.
Proof. induction s as [|? ? IH]; [by destruct t|]. rewrite string_app_cons. simpl. by rewrite IH. Qed.

Lemma string_app_nonempty_r s t : t ≠ "" → s +:+ t ≠ "".
Proof. by destruct s. Qed.

Lemma HasSuffix_app s t : HasSuffix (s +:+ t) t = true.
Proof.
  unfold HasSuffix. rewrite string_length_app.
  replace (String.length s + String.length t - String.length t) with (String.length s) by lia.
  rewrite string_drop_app, bool_decide_eq_true_2 by done.
  apply andb_true_iff; split; [apply Nat.leb_le; lia | done].
Qed.

Lemma HasSuffix_true s t : HasSuffix s t = true → s = TrimSuffix s t +:+ t.
Proof.
  intros Hs. unfold TrimSuffix. rewrite Hs. unfold HasSuffix in Hs.
  apply andb_true_iff in Hs as [_ Hd]. apply bool_decide_eq_true in Hd.
  rewrite <- (string_take_drop (String.length s - String.length t) s) at 1. by rewrite Hd.
Qed.

Lemma HasPrefix_true s t : HasPrefix s t = true → s = t +:+ string_drop (String.length t) s.
Proof.
  unfold HasPrefix. revert s. induction t as [|c t IH]; intros s; [done|].
  destruct s as [|c' s]; [done|]. cbn [String.prefix]. destruct (Ascii.ascii_dec c c') as [->|]; [|done].
  intros Hp. rewrite string_app_cons. cbn [String.length string_drop]. by rewrite <- IH.
Qed.

Lemma string_app_inj_l s t1 t2 : s +:+ t1 = s +:+ t2 → t1 = t2.
Proof. induction s as [|c s IH]; [done|]. rewrite !string_app_cons. intros [= Heq]. by apply IH. Qed.

Lemma string_app_inj_r s1 s2 t : s1 +:+ t = s2 +:+ t → s1 = s2.
Proof.
  intros Heq. pose proof (f_equal String.length Heq) as Hl. rewrite !string_length_app in Hl.
  apply (f_equal (string_take (String.length s1))) in Heq.
  rewrite string_take_app in Heq. replace (String.length s1) with (String.length s2) in Heq by lia.
  by rewrite string_take_app in Heq.
Qed.

Lemma TrimSuffix_app s t : TrimSuffix (s +:+ t) t = s.
Proof.
  unfold TrimSuffix. rewrite HasSuffix_app, string_length_app.
  replace (String.length s + String.length t - String.length t) with (String.length s) by lia.
  apply string_take_app.
Qed.

(** Cutting keeps a prefix, and keeps a non-empty string non-empty. *)
Lemma rune_width_pos c s : 1 ≤ rune_width (String c s).
Proof. unfold rune_width. repeat case_match; lia. Qed.

Lemma truncate_prefix n s : ∃ t, s = truncate n s +:+ t.
Proof. unfold truncate. eexists. symmetry. apply string_take_drop. Qed.

Lemma truncate_nonempty n s : n ≠ 0 → s ≠ "" → truncate n s ≠ "".
Proof.
  intros Hn Hs Ht. destruct s as [|c s]; [done|]. destruct n as [|n]; [done|].
  apply (f_equal String.length) in Ht. unfold truncate in Ht.
  rewrite string_take_length in Ht. cbn [rune_bytes String.length] in Ht.
  pose proof (rune_width_pos c s). lia.
Qed.

(** On ASCII strings runes are bytes. *)
Lemma byte_in_ascii_disjoint lo hi c :
  byte_in 0 0x7F c = true → (0x7F < lo)%N → byte_in lo hi c = false.
Proof.
  unfold byte_in. intros H Hlo. bool_split.
  apply andb_false_iff. left. apply N.leb_gt.
  apply N.leb_le in H0. lia.
Qed.

Lemma rune_width_ascii c s : byte_in 0 0x7F c = true → rune_width (String c s) = 1.
Proof.
  intros H. unfold rune_width.
  rewrite !(byte_in_ascii_disjoint _ _ c H) by lia. simpl.
  by repeat case_match.
Qed.

Lemma is_ascii_drop n s : is_ascii s = true → is_ascii (string_drop n s) = true.
Proof.
  revert n. induction s as [|c s IH]; intros [|n] H; simpl in *; try done.
  bool_split. auto.
Qed.

Lemma is_ascii_app s t : is_ascii (s +:+ t) = is_ascii s && is_ascii t.
Proof.
  induction s as [|? ? IH]; [done|]. rewrite string_app_cons. simpl.
  by rewrite IH, andb_assoc.
Qed.

Lemma is_ascii_take n s : is_ascii s = true → is_ascii (string_take n s) = true.
Proof.
  intros H. rewrite <- (string_take_drop n s), is_ascii_app in H. by bool_split.
Qed.

Lemma rune_bytes_ascii fuel n s :
  is_ascii s = true → String.length s ≤ fuel →
  rune_bytes fuel n s = n `min` String.length s.
Proof.
  revert n s. induction fuel as [|fuel IH]; intros n s Ha Hl.
  { destruct s; simpl in *; [|lia]. destruct n; reflexivity. }
  destruct n as [|n]; [done|]. destruct s as [|c s]; [done|].
  cbn [rune_bytes]. simpl in Ha. bool_split.
  rewrite rune_width_ascii by done. cbn. rewrite IH; [lia| |].
  - by destruct s.
  - destruct s; simpl in *; lia.
Qed.

Lemma truncate_ascii n s : is_ascii s = true → truncate n s = string_take n s.
Proof.
  intros H. unfold truncate. rewrite rune_bytes_ascii by done.
  clear H. revert n. induction s as [|c s IH]; intros [|n]; simpl; try done.
  by rewrite IH.
Qed.

Lemma truncate_length_ascii n s :
  is_ascii s = true → String.length (truncate n s) ≤ n.
Proof. intros H. rewrite truncate_ascii, string_take_length by done. lia. Qed.

(** Splitting and joining. *)
Lemma Split_not_nil s c : Split s c ≠ [].
Proof. destruct s; simpl; go_cases. Qed.

Lemma Join_cons w w' ws sep :
  Join (w :: w' :: ws) sep = w +:+ sep +:+ Join (w' :: ws) sep.
Proof. done. Qed.

Lemma Join_Split s c : Join (Split s c) (String c EmptyString) = s.
Proof.
  induction s as [|a s IH]; [done|]. cbn [Split].
  pose proof (Split_not_nil s c) as Hn.
  case_decide; subst.
  - destruct (Split s c) as [|w ws] eqn:E; [done|]. cbn [Join] in *.
    by rewrite IH.
  - destruct (Split s c) as [|w ws] eqn:E; [done|].
    destruct ws as [|w' ws]; [cbn in *; congruence|].
    rewrite Join_cons in IH. by rewrite Join_cons, string_app_cons, IH.
Qed.

(** The result of [ParseInt] always fits the requested width. *)
Lemma ParseInt_range s bits :
  (0 < bits)%Z → (- 2 ^ (bits - 1) <= (ParseInt s bits).1 < 2 ^ (bits - 1))%Z.
Proof.
  intros Hb. pose proof (Z.pow_pos_nonneg 2 (bits - 1)) as Hp.
  assert (0 < 2 ^ (bits - 1))%Z as Hpos by lia.
  unfold ParseInt. repeat (case_match; simpl); simplify_eq/=; bool_split; try lia.
Qed.
