(* ===== verification/GoTime.v ===== *)
(** * Durations of the Go standard library

    [time.ParseDuration], which the configuration uses: a duration is an int64
    number of nanoseconds.  Fractions go through float64 arithmetic, which is
    that of [SpecFloat] at 53 bits of precision. *)

From Stdlib Require Import SpecFloat.
From S2P Require Import Prelude.
From S2P Require Import GoStrings.

Definition is_digit (c : Ascii.ascii) : bool := byte_in 48 57 c.
Definition is_dot (c : Ascii.ascii) : bool := byte_in 46 46 c.
Definition digit_value (c : Ascii.ascii) : Z := (Z.of_N (Ascii.N_of_ascii c) - 48)%Z.

(** ** float64 *)

Definition float_of_Z (z : Z) : spec_float := binary_normalize 53 1024 z 0 false.
Definition float_mul : spec_float → spec_float → spec_float := SFmul 53 1024.
Definition float_div : spec_float → spec_float → spec_float := SFdiv 53 1024.

(** [uint64(x)] of a finite float that is not negative: the fraction is cut. *)
Definition uint64_of_float (x : spec_float) : Z :=
  match x with
  | S754_finite _ m e => Z.shiftl (Zpos m) e
  | _ => 0%Z
  end.

(** ** The parser *)

(** [leadingInt]: the value of the leading digits and the rest; [None] when it
    exceeds 1<<63. *)
Fixpoint leadingInt (s : string) (x : Z) : option (Z * string) :=
  match s with
  | String c s' =>
      if is_digit c then
        if (x >? 2 ^ 63 / 10)%Z then None
        else
          let x := (x * 10 + digit_value c)%Z in
          if (x >? 2 ^ 63)%Z then None else leadingInt s' x
      else Some (x, s)
  | EmptyString => Some (x, s)
  end.

(** [leadingFraction]: the digits after the point that fit, the power of ten
    they are to be divided by, and the rest. *)
Fixpoint leadingFraction (s : string) (x : Z) (scale : spec_float) (overflow : bool) :
    Z * spec_float * string :=
  match s with
  | String c s' =>
      if is_digit c then
        if overflow then leadingFraction s' x scale overflow
        else if (x >? (2 ^ 63 - 1) / 10)%Z then leadingFraction s' x scale true
        else
          let y := (x * 10 + digit_value c)%Z in
          if (y >? 2 ^ 63)%Z then leadingFraction s' x scale true
          else leadingFraction s' y (float_mul scale (float_of_Z 10)) overflow
      else (x, scale, s)
  | EmptyString => (x, scale, s)
  end.

(** The unit: everything up to the next digit or point. *)
Fixpoint leadingUnit (s : string) : string * string :=
  match s with
  | String c s' =>
      if is_dot c || is_digit c then (EmptyString, s)
      else let '(u, rest) := leadingUnit s' in (String c u, rest)
  | EmptyString => (EmptyString, EmptyString)
  end.

(** Two encodings of the micro sign are accepted. *)
Definition micro_sign : string := String (Ascii.ascii_of_N 194) (String (Ascii.ascii_of_N 181) "").
Definition greek_mu : string := String (Ascii.ascii_of_N 206) (String (Ascii.ascii_of_N 188) "").

Definition unitMap (u : string) : option Z :=
  if u =s "ns" then Some 1%Z
  else if (u =s "us") || (u =s micro_sign +:+ "s") || (u =s greek_mu +:+ "s") then Some 1000%Z
  else if u =s "ms" then Some 1000000%Z
  else if u =s "s" then Some 1000000000%Z
  else if u =s "m" then Some 60000000000%Z
  else if u =s "h" then Some 3600000000000%Z
  else None.

(** [v*unit + f/scale*unit], unless it exceeds 1<<63. *)
Definition component (v f : Z) (scale : spec_float) (unit : Z) : option Z :=
  if (v >? 2 ^ 63 / unit)%Z then None
  else
    let v := (v * unit)%Z in
    if (f >? 0)%Z then
      let v := ((v + uint64_of_float (float_mul (float_of_Z f) (float_div (float_of_Z unit) scale)))
                mod 2 ^ 64)%Z in
      if (v >? 2 ^ 63)%Z then None else Some v
    else Some v.

(** The loop over the components; every round consumes the number and the unit,
    so the length of the string bounds the rounds. *)
Fixpoint components (fuel : nat) (s : string) (d : Z) : option Z :=
  match fuel, s with
  | _, EmptyString => Some d
  | 0, _ => None
  | S fuel', String c _ =>
      if negb (is_dot c || is_digit c) then None
      else
        '(v, s1) ← leadingInt s 0;
        let pre := negb (Nat.eqb (String.length s) (String.length s1)) in
        let '(f, scale, s2, post) :=
          match s1 with
          | String c1 s1' =>
              if is_dot c1 then
                let '(f, scale, s2) := leadingFraction s1' 0 (float_of_Z 1) false in
                (f, scale, s2, negb (Nat.eqb (String.length s1') (String.length s2)))
              else (0%Z, float_of_Z 1, s1, false)
          | EmptyString => (0%Z, float_of_Z 1, s1, false)
          end in
        if negb pre && negb post then None
        else
          let '(u, s3) := leadingUnit s2 in
          if u =s "" then None
          else
            unit ← unitMap u;
            v ← component v f scale unit;
            let d := ((d + v) mod 2 ^ 64)%Z in
            if (d >? 2 ^ 63)%Z then None else components fuel' s3 d
  end.

(** [time.ParseDuration]; [None] is an error. *)
Definition ParseDuration (s : string) : option Z :=
  let '(neg, s) :=
    match s with
    | String c s' =>
        if byte_in 45 45 c then (true, s') else if byte_in 43 43 c then (false, s') else (false, s)
    | EmptyString => (false, s)
    end in
  if s =s "0" then Some 0%Z
  else if s =s "" then None
  else
    d ← components (String.length s) s 0;
    if (neg : bool) then Some (wrap64 (- wrap64 d))
    else if (d >? 2 ^ 63 - 1)%Z then None
    else Some d.

(** ** Examples and bounds *)

Example ParseDuration_examples :
  ParseDuration "1h15m30.918s" = Some 4530918000000%Z ∧
  ParseDuration "-1.5h" = Some (-5400000000000)%Z ∧
  ParseDuration "300ms" = Some 300000000%Z ∧
  ParseDuration "0.1s" = Some 100000000%Z ∧
  ParseDuration ".5m" = Some 30000000000%Z ∧
  ParseDuration "9223372036854775807ns" = Some 9223372036854775807%Z ∧
  ParseDuration "9223372036854775808ns" = None ∧
  ParseDuration "-9223372036854775808ns" = Some (-9223372036854775808)%Z ∧
  ParseDuration "10" = None ∧ ParseDuration "s" = None ∧ ParseDuration "" = None ∧
  ParseDuration "0" = Some 0%Z.
Proof. vm_compute. done. Qed.

Lemma leadingInt_length s x v rest :
  leadingInt s x = Some (v, rest) → String.length rest ≤ String.length s.
Proof.
  revert x. induction s as [|c s IH]; intros x; cbn [leadingInt]; [by intros [= _ <-]|].
  destruct (is_digit c); [|by intros [= _ <-]].
  destruct (x >? _)%Z; [done|]. destruct (_ >? 2 ^ 63)%Z; [done|]. intros Hr%IH. cbn. lia.
Qed.

Lemma leadingFraction_length s x scale o :
  String.length (leadingFraction s x scale o).2 ≤ String.length s.
Proof.
  revert x scale o. induction s as [|c s IH]; intros x scale o; cbn [leadingFraction]; [done|].
  destruct (is_digit c); [|done]. cbn [String.length].
  destruct o; [etrans; [apply IH|lia]|].
  destruct (x >? _)%Z; [etrans; [apply IH|lia]|].
  destruct (_ >? 2 ^ 63)%Z; (etrans; [apply IH|lia]).
Qed.

Lemma leadingUnit_length s u rest :
  leadingUnit s = (u, rest) → u ≠ "" → String.length rest < String.length s.
Proof.
  revert u rest. induction s as [|c s IH]; intros u rest; cbn [leadingUnit]; [by intros [= <- <-]|].
  destruct (is_dot c || is_digit c); [by intros [= <- <-]|].
  destruct (leadingUnit s) as [u' r'] eqn:E. intros [= <- <-] _. cbn [String.length].
  destruct u' as [|c' u']; [|specialize (IH _ _ eq_refl); assert (String.length r' < String.length s) by (by apply IH); lia].
  destruct s as [|c' s]; cbn [leadingUnit] in E; [by injection E as <-; cbn; lia|].
  destruct (is_dot c' || is_digit c'); [injection E as <-; cbn; lia|].
  by destruct (leadingUnit s).
Qed.

(** One round of [components]: the number, the unit and the rest. *)
Definition next_component (s : string) : option (Z * string) :=
  '(v, s1) ← leadingInt s 0;
  let pre := negb (Nat.eqb (String.length s) (String.length s1)) in
  let '(f, scale, s2, post) :=
    match s1 with
    | String c1 s1' =>
        if is_dot c1 then
          let '(f, scale, s2) := leadingFraction s1' 0 (float_of_Z 1) false in
          (f, scale, s2, negb (Nat.eqb (String.length s1') (String.length s2)))
        else (0%Z, float_of_Z 1, s1, false)
    | EmptyString => (0%Z, float_of_Z 1, s1, false)
    end in
  if negb pre && negb post then None
  else
    let '(u, s3) := leadingUnit s2 in
    if u =s "" then None
    else unit ← unitMap u; v ← component v f scale unit; Some (v, s3).

Lemma components_S fuel s d :
  components (S fuel) s d =
  match s with
  | EmptyString => Some d
  | String c _ =>
      if negb (is_dot c || is_digit c) then None
      else
        '(v, s3) ← next_component s;
        let d := ((d + v) mod 2 ^ 64)%Z in
        if (d >? 2 ^ 63)%Z then None else components fuel s3 d
  end.
Proof.
  destruct s as [|c s]; [done|]. cbn [components]. destruct (negb _); [done|]. unfold next_component.
  destruct (leadingInt _ _) as [[v s1]|]; [|done]. cbn [mbind option_bind].
  destruct (match s1 with EmptyString => _ | String c1 s1' => _ end) as [[[f scale] s2] post].
  destruct (_ && _); [done|]. destruct (leadingUnit s2) as [u s3]. case_bool_decide; [done|].
  destruct (unitMap u) as [unit|]; [|done]. cbn [mbind option_bind].
  by destruct (component v f scale unit).
Qed.

Lemma next_component_length s v rest :
  next_component s = Some (v, rest) → String.length rest < String.length s.
Proof.
  unfold next_component. destruct (leadingInt s 0) as [[v0 s1]|] eqn:E; [|done].
  apply leadingInt_length in E. cbn [mbind option_bind].
  destruct (match s1 with EmptyString => _ | String c1 s1' => _ end) as [[[f scale] s2] post] eqn:E2.
  assert (Hs2 : String.length s2 ≤ String.length s1).
  { destruct s1 as [|c1 s1']; [by injection E2 as <- <- <- <-|].
    destruct (is_dot c1); [|by injection E2 as <- <- <- <-].
    pose proof (leadingFraction_length s1' 0 (float_of_Z 1) false) as Hf.
    destruct (leadingFraction s1' 0 (float_of_Z 1) false) as [[f' sc'] s2'].
    injection E2 as <- <- <- <-. cbn in *. lia. }
  destruct (_ && _); [done|]. destruct (leadingUnit s2) as [u s3] eqn:E3.
  case_bool_decide as Hu; [done|]. pose proof (leadingUnit_length _ _ _ E3 Hu).
  destruct (unitMap u); [|done]. cbn [mbind option_bind]. destruct (component _ _ _ _); [|done].
  intros [= _ <-]. lia.
Qed.

(** The length of the string is enough fuel. *)
Lemma components_fuel fuel s d :
  String.length s ≤ fuel → components fuel s d = components (String.length s) s d.
Proof.
  cut (∀ n m s d, String.length s ≤ n → String.length s ≤ m → components n s d = components m s d).
  { intros Hc Hs. by apply Hc. }
  clear. induction n as [|n IH]; intros m s d Hn Hm.
  { destruct s; [by destruct m|cbn in Hn; lia]. }
  destruct m as [|m]; [destruct s; [done|cbn in Hm; lia]|].
  rewrite !components_S. destruct s as [|c s]; [done|]. destruct (negb _); [done|].
  destruct (next_component (String c s)) as [[v s3]|] eqn:E; [|done].
  apply next_component_length in E. cbn [mbind option_bind]. destruct (_ >? _)%Z; [done|].
  apply IH; lia.
Qed.

Lemma components_range fuel s d r :
  (0 <= d <= 2 ^ 63)%Z → components fuel s d = Some r → (0 <= r <= 2 ^ 63)%Z.
Proof.
  revert s d. induction fuel as [|fuel IH]; intros s d Hd; [by destruct s; intros [= <-]|].
  rewrite components_S. destruct s as [|c s]; [by intros [= <-]|]. destruct (negb _); [done|].
  destruct (next_component (String c s)) as [[v s3]|]; [|done]. cbn [mbind option_bind].
  destruct (_ >? _)%Z eqn:Hgt; [done|]. apply IH. split; [by apply Z.mod_pos_bound|].
  rewrite Z.gtb_ltb, Z.ltb_ge in Hgt. done.
Qed.

(** A parsed duration fits an int64. *)
Lemma ParseDuration_range s d : ParseDuration s = Some d → in_int64 d.
Proof.
  unfold ParseDuration.
  destruct (match s with EmptyString => _ | String c s' => _ end) as [neg s0].
  case_bool_decide; [by intros [= <-]|]. case_bool_decide; [done|].
  destruct (components _ _ _) as [r|] eqn:E; [|done]. cbn [mbind option_bind].
  apply components_range in E; [|done]. destruct neg; [intros [= <-]; apply wrap64_range|].
  destruct (_ >? _)%Z eqn:Hgt; [done|]. intros [= <-]. rewrite Z.gtb_ltb, Z.ltb_ge in Hgt.
  unfold in_int64, MinInt64, MaxInt64. lia.
Qed.
