(* ===== verification/Logger.v ===== *)
(** * Logging

    Source: pkg/log/logger.go and pkg/log/filtered_core.go.

    Every part of the shim logs through a named logger.  The configuration sets
    levels by name, and a logger without a level of its own has that of the
    nearest configured ancestor ("shim.cache" for "shim.cache.task").  The levels
    are applied by a filter in front of one shared zap core, whose own level is
    the finest level of all.  zap itself is not code of the shim: its parser of
    level names is the class [ZapLevels], and a zap core is a pair of functions. *)

From S2P Require Import Prelude.
From S2P Require Import GoStrings.

Definition dot : Ascii.ascii := Ascii.ascii_of_N 46.

(** ** zap *)

(** A [zapcore.Level] is an int8: debug is -1, fatal is 5. *)
Definition DebugLevel : Z := -1.
Definition InfoLevel : Z := 0.
Definition InvalidLevel : Z := 6.

Definition valid_level (l : Z) : Prop := (DebugLevel <= l < InvalidLevel)%Z.

Class ZapLevels := {
  zap_ParseLevel : string → option Z;
  (* a parsed level is one of the levels *)
  zap_ParseLevel_valid s l : zap_ParseLevel s = Some l → valid_level l
}.

(** What matters of a [zapcore.Core]: which levels it enables. *)
Record Core := mkCore { core_Enabled : Z → bool }.

(** The core of the root logger, at the level set with [SetLevel]. *)
Definition root_core (level : Z) : Core := mkCore (λ l, (level <=? l)%Z).

(** ** The filter in front of the core *)

Record filteredCore := mkFilteredCore {
  fc_level : Z;
  fc_inner : Core
}.

Definition filteredCore_Enabled (f : filteredCore) (level : Z) : bool :=
  if (level <? fc_level f)%Z then false else core_Enabled (fc_inner f) level.

(** [With]: the core that logs with additional fields. *)
Definition filteredCore_With (f : filteredCore) : Core := fc_inner f.

(** [Check] adds the core to the cores that write the entry, [ce]. *)
Definition filteredCore_Check {CE} (f : filteredCore) (level : Z) (ce : CE) (add : Core → CE → CE) : CE :=
  if (level <? fc_level f)%Z then ce
  else if core_Enabled (fc_inner f) level then add (fc_inner f) ce else ce.

(** ** Loggers *)

Record LoggerHandle := mkLoggerHandle {
  lh_id : nat;
  lh_name : string
}.

Module Handles.
Definition Shim := mkLoggerHandle 0 "shim".
Definition Kubernetes := mkLoggerHandle 1 "kubernetes".
Definition Test_ := mkLoggerHandle 2 "test".
Definition Deprecation := mkLoggerHandle 3 "deprecation".
Definition Admission := mkLoggerHandle 4 "admission".
Definition AdmissionClient := mkLoggerHandle 5 "admission.client".
Definition AdmissionConf := mkLoggerHandle 6 "admission.conf".
Definition AdmissionWebhook := mkLoggerHandle 7 "admission.webhook".
Definition AdmissionUtils := mkLoggerHandle 8 "admission.utils".
Definition ShimContext := mkLoggerHandle 9 "shim.context".
Definition ShimFSM := mkLoggerHandle 10 "shim.fsm".
Definition ShimCacheApplication := mkLoggerHandle 11 "shim.cache.application".
Definition ShimCacheNode := mkLoggerHandle 12 "shim.cache.node".
Definition ShimCacheTask := mkLoggerHandle 13 "shim.cache.task".
Definition ShimCacheExternal := mkLoggerHandle 14 "shim.cache.external".
Definition ShimCachePlaceholder := mkLoggerHandle 15 "shim.cache.placeholder".
Definition ShimRMCallback := mkLoggerHandle 16 "shim.rmcallback".
Definition ShimClient := mkLoggerHandle 17 "shim.client".
Definition ShimResources := mkLoggerHandle 18 "shim.resources".
Definition ShimUtils := mkLoggerHandle 19 "shim.utils".
Definition ShimConfig := mkLoggerHandle 20 "shim.config".
Definition ShimDispatcher := mkLoggerHandle 21 "shim.dispatcher".
Definition ShimScheduler := mkLoggerHandle 22 "shim.scheduler".
Definition ShimPredicates := mkLoggerHandle 23 "shim.predicates".
Definition ShimFramework := mkLoggerHandle 24 "shim.framework".
Definition ShimPlaceHolderConfig := mkLoggerHandle 25 "shim.placeholder.config".
End Handles.

Import Handles.

Definition loggers : list LoggerHandle :=
  [Shim; Kubernetes; Test_; Deprecation;
   Admission; AdmissionClient; AdmissionConf; AdmissionWebhook; AdmissionUtils; ShimContext; ShimFSM;
   ShimCacheApplication; ShimCacheNode; ShimCacheTask; ShimCacheExternal; ShimCachePlaceholder;
   ShimRMCallback; ShimClient; ShimResources; ShimUtils; ShimConfig; ShimDispatcher;
   ShimScheduler; ShimPredicates; ShimFramework; ShimPlaceHolderConfig].

Definition nullLogger : string := "".
Definition defaultLog : string := "log.level".
Definition logPrefix : string := "log.".
Definition levelSuffix : string := ".level".

(** [strings.LastIndex(name, ".")] *)
Fixpoint last_dot (name : string) : option nat :=
  match name with
  | EmptyString => None
  | String c name' =>
      match last_dot name' with
      | Some i => Some (S i)
      | None => if decide (c = dot) then Some 0 else None
      end
  end.

Definition parentLogger (name : string) : string :=
  match last_dot name with
  | None => nullLogger
  | Some i => string_take i name
  end.

(** The loop of [loggerLevel]; a parent is shorter than its child, so the length
    of the name bounds the rounds. *)
Fixpoint findLevel (fuel : nat) (levelMap : gmap string Z) (name : string) : option Z :=
  if name =s nullLogger then levelMap !! nullLogger
  else
    match fuel with
    | 0 => None
    | S fuel' =>
        match levelMap !! name with
        | Some level => Some level
        | None => findLevel fuel' levelMap (parentLogger name)
        end
    end.

Definition loggerLevel (levelMap : gmap string Z) (name : string) : Z :=
  default InfoLevel (findLevel (String.length name) levelMap name).

(** A named zap logger: its name and its core. *)
Record NamedLogger := mkNamedLogger {
  nl_name : string;
  nl_core : filteredCore
}.

Definition createLogger (root : Z) (levelMap : gmap string Z) (name : string) : NamedLogger :=
  mkNamedLogger name (mkFilteredCore (loggerLevel levelMap name) (root_core root)).

Section Levels.
Context `{ZapLevels} `{MapOrder}.

Definition parseLevel (level : string) : option Z :=
  match zap_ParseLevel level with
  | Some zapLevel => Some zapLevel
  | None =>
      let '(levelNum, err) := ParseInt level 8 in
      if (err : bool) then None
      else if (levelNum <? DebugLevel)%Z then Some DebugLevel
      else if (InvalidLevel <=? levelNum)%Z then Some (InvalidLevel - 1)%Z
      else Some levelNum
  end.

(** [strings.CutPrefix] and [strings.CutSuffix]; [None] when not found. *)
Definition CutPrefix (s prefix : string) : option string :=
  if HasPrefix s prefix then Some (string_drop (String.length prefix) s) else None.
Definition CutSuffix (s suffix : string) : option string :=
  if HasSuffix s suffix then Some (TrimSuffix s suffix) else None.

(** The name of the logger a configuration key sets the level of. *)
Definition logger_key (k : string) : option string :=
  if Contains k ".." || Contains k " " then None
  else name ← CutPrefix k logPrefix; CutSuffix name levelSuffix.

Definition addLevel (levelMap : gmap string Z) (kv : string * string) : gmap string Z :=
  match logger_key kv.1 with
  | None => levelMap
  | Some name =>
      match parseLevel kv.2 with
      | Some level => <[name := level]> levelMap
      | None => levelMap
      end
  end.

(** The levels a configuration sets; the default level is that of the null
    logger. *)
Definition levels_of (config : gmap string string) : gmap string Z :=
  let levelMap : gmap string Z := <[nullLogger := InfoLevel]> ∅ in
  let levelMap :=
    match config !! defaultLog with
    | Some defaultLevel =>
        match parseLevel defaultLevel with
        | Some level => <[nullLogger := level]> levelMap
        | None => levelMap
        end
    | None => levelMap
    end in
  foldl addLevel levelMap (go_range config).

(** The level of the root logger and the loggers, by id. *)
Record loggerConfig := mkLoggerConfig {
  lc_root : Z;
  lc_loggers : list NamedLogger
}.

Definition initLoggingConfig (config : gmap string string) : loggerConfig :=
  let levelMap := levels_of config in
  let minLevel := foldl (λ minLevel kv, Z.min kv.2 minLevel) (InvalidLevel - 1)%Z (go_range levelMap) in
  mkLoggerConfig minLevel (map (λ h, createLogger minLevel levelMap (lh_name h)) loggers).

(** The loggers before the first configuration. *)
Definition initLogger : loggerConfig := initLoggingConfig ∅.

(** [once.Do(initLogger)], then the loggers are replaced. *)
Definition UpdateLoggingConfig (conf : option loggerConfig) (config : gmap string string) :
    option loggerConfig :=
  let _ := default initLogger conf in Some (initLoggingConfig config).

(** [Log]; an id out of range panics. *)
Definition Log (conf : option loggerConfig) (handle : option LoggerHandle) : option NamedLogger :=
  let conf := default initLogger conf in
  match handle with
  | None => lc_loggers conf !! 0
  | Some handle => lc_loggers conf !! lh_id handle
  end.

End Levels.
