(* ===== verification/WebTest.v ===== *)
(** * The web server for tests

    pkg/webtest/web_server.go and pkg/cmd/webtest/main.go: a file server with a proxy
    to the scheduler under [/ws/].  The program runs two goroutines, the one that
    serves and the main one, which closes the server at a signal; its states are the
    states of Go's [http.Server] between them. *)

From S2P Require Import Prelude.
From S2P Require Import GoStrings.

(** ** Routes *)

Inductive Route := ToProxy | ToFiles | RedirectToWs.

(** [http.ServeMux] with the patterns [/] and [/ws/], for a clean path: the longest
    pattern wins, and a path that lacks the slash of a pattern is redirected. *)
Definition route (path : string) : Route :=
  if HasPrefix path "/ws/" then ToProxy
  else if path =s "/ws" then RedirectToWs
  else ToFiles.

(** ** The settings of the program *)

Section Main.
(** The environment, and whether [url.Parse] accepts a URL. *)
Context (os_LookupEnv : string → option string) (url_Parse : string → bool).

Definition envOrDefault (envVar defValue : string) : string := default defValue (os_LookupEnv envVar).

Record WebServer := mkWebServer {
  ws_documentRoot : string;
  ws_Addr : string;
  ws_proxy : string
}.

Definition NewWebServer (documentRoot listenAddress proxyUrl : string) : option WebServer :=
  if url_Parse proxyUrl then Some (mkWebServer documentRoot listenAddress proxyUrl) else None.

Definition main_server : option WebServer :=
  NewWebServer (envOrDefault "DOCUMENT_ROOT" "document") (envOrDefault "LISTEN_ADDRESS" ":9889")
    (envOrDefault "PROXY_URL" "http://127.0.0.1:9080").

(** ** The goroutines *)

(** What [ListenAndServe] of the serving goroutine has come to. *)
Inductive Serving := NotYet | Listening | Returned.

(** The server is closed; the goroutine of [Start]; the main goroutine has returned;
    [log.Fatal] has ended the process. *)
Record Program := mkProgram {
  pr_closed : bool;
  pr_serving : Serving;
  pr_returned : bool;
  pr_fatal : bool
}.

Definition web_start : Program :=
  match main_server with
  | Some _ => mkProgram false NotYet false false
  | None => mkProgram false NotYet false true
  end.

(** [Start]: [ListenAndServe] of a closed server reports [ErrServerClosed], which is
    no failure; an address that cannot be used is one. *)
Definition web_listen (ok : bool) (p : Program) : Program :=
  if pr_closed p then mkProgram true Returned (pr_returned p) (pr_fatal p)
  else if ok then mkProgram false Listening (pr_returned p) (pr_fatal p)
  else mkProgram false Returned (pr_returned p) true.

(** [Stop]: [Close] makes a [ListenAndServe] that is under way report
    [ErrServerClosed]; [Shutdown] of a closed server has nothing left to wait for. *)
Definition web_Stop (p : Program) : Program :=
  mkProgram true (match pr_serving p with Listening => Returned | s => s end) (pr_returned p) (pr_fatal p).

(** The serving goroutine gets to run, once; a signal arrives and [main] stops the
    server and returns.  Nothing runs after the process has ended. *)
Inductive WebEvent := Serve (ok : bool) | Signal.

#[export] Instance WebEvent_eq_dec : EqDecision WebEvent.
Proof. solve_decision. Defined.

Definition web_step (p : Program) (e : WebEvent) : Program :=
  if pr_fatal p || pr_returned p then p
  else
    match e with
    | Serve ok => match pr_serving p with NotYet => web_listen ok p | _ => p end
    | Signal => let p := web_Stop p in mkProgram (pr_closed p) (pr_serving p) true (pr_fatal p)
    end.

Definition web_run (es : list WebEvent) : Program := foldl web_step web_start es.

(** The program fails exactly when the URL of the proxy is no URL, or the address is
    found to be unusable before the first signal. *)
Definition fails (es : list WebEvent) : bool :=
  match main_server with
  | None => true
  | Some _ =>
      (fix go (es : list WebEvent) : bool :=
         match es with
         | [] => false
         | Serve ok :: _ => negb ok
         | Signal :: _ => false
         end) es
  end.

Lemma web_step_over p es : pr_fatal p || pr_returned p = true → foldl web_step p es = p.
Proof.
  intros Hp. induction es as [|e es IH]; [done|]. cbn [foldl]. unfold web_step at 2. by rewrite Hp.
Qed.

Lemma web_listening es :
  ∀ p, p = foldl web_step (mkProgram false Listening false false) es →
  pr_fatal p = false ∧ (pr_returned p = bool_decide (Signal ∈ es)) ∧
  (pr_returned p = true → pr_closed p = true ∧ pr_serving p ≠ Listening).
Proof.
  intros ? ->. induction es as [|[ok|] es IH]; cbn [foldl].
  - done.
  - cbn in *. destruct IH as (-> & Hr & Hc). split_and!; [done| |done]. rewrite Hr.
    apply bool_decide_ext. set_solver.
  - change (web_step _ Signal) with (mkProgram true Returned true false). rewrite web_step_over by done.
    split_and!; [done| |done]. by rewrite bool_decide_eq_true_2 by left.
Qed.

(** Whatever the order of events, the program ends with a failure exactly in the two
    cases, and otherwise returns at the first signal with the server closed. *)
Theorem web_program_outcome es :
  let p := web_run es in
  pr_fatal p = fails es ∧
  (fails es = false → pr_returned p = bool_decide (Signal ∈ es) ∧
    (pr_returned p = true → pr_closed p = true ∧ pr_serving p ≠ Listening)).
Proof.
  cbn zeta. unfold web_run, web_start, fails. destruct main_server as [s|].
  - destruct es as [|[[|]|] es]; [done|..]; cbn [foldl negb].
    + destruct (web_listening es _ eq_refl) as (Hf & Hr & Hc). cbn in *. split; [done|]. intros _. split; [|done].
      rewrite Hr. apply bool_decide_ext. set_solver.
    + rewrite web_step_over by done. done.
    + rewrite web_step_over by done. cbn. split; [done|]. intros _. split; [|done].
      by rewrite bool_decide_eq_true_2 by left.
  - by rewrite web_step_over.
Qed.
End Main.
