(* ===== verification/LoggerThms.v ===== *)
(** * Logging: correctness

    A logger has the level of its nearest configured ancestor, the shared core
    never hides what a logger enables, and every handle gets its own logger. *)

From S2P Require Import Prelude.
From S2P Require Import GoStrings.
From S2P Require Import Logger.

(** ** Ancestors *)

(** [a] is [name] or an ancestor of it; the null logger is an ancestor of all. *)
Definition ancestor (a name : string) : Prop :=
  a = name ∨ a = nullLogger ∨ ∃ s, name = a +:+ String dot s.

Lemma last_dot_None name a s : last_dot name = None → name ≠ a +:+ String dot s.
Proof.
  revert a. induction name as [|c name IH]; intros a; cbn [last_dot]; [by destruct a|].
  destruct (last_dot name) eqn:E; [done|]. case_decide; [done|]. intros _.
  destruct a as [|c' a]; cbn; [by intros [= ?]|]. intros [= _ Heq]. by eapply IH.
Qed.

Lemma last_dot_Some name i :
  last_dot name = Some i → ∃ s, name = string_take i name +:+ String dot s ∧ last_dot s = None.
Proof.
  revert i. induction name as [|c name IH]; intros i; cbn [last_dot]; [done|].
  destruct (last_dot name) as [j|] eqn:E.
  - intros [= <-]. destruct (IH j eq_refl) as (s & Hs & Hn). exists s. split; [|done].
    cbn [string_take]. by rewrite string_app_cons, <- Hs.
  - case_decide as Hc; [|done]. intros [= <-]. exists name. split; [by subst c|done].
Qed.

(** A dot in [p.t] is the one shown or one of [p], if [t] has none. *)
Lemma split_at_last p a t s :
  p +:+ String dot t = a +:+ String dot s → last_dot t = None →
  a = p ∨ ∃ s', p = a +:+ String dot s'.
Proof.
  revert a. induction p as [|c p IH]; intros [|c' a]; cbn; intros [= Heq] Ht.
  - by left.
  - subst. by exfalso; eapply last_dot_None.
  - right. exists p. by subst.
  - subst. destruct (IH a) as [->|[s' ->]]; [done|done|by left|right; by exists s'].
Qed.

Lemma ancestor_parent name : ancestor (parentLogger name) name.
Proof.
  unfold parentLogger. destruct (last_dot name) as [i|] eqn:E; [|by right; left].
  apply last_dot_Some in E as (s & Hs & _). right. right. by exists s.
Qed.

(** The parent is the nearest proper ancestor. *)
Lemma ancestor_of_parent a name : ancestor a name → a = name ∨ ancestor a (parentLogger name).
Proof.
  intros [->|[->|[s Hs]]]; [by left|by right; right; left|].
  unfold parentLogger. destruct (last_dot name) as [i|] eqn:E; [|by exfalso; eapply last_dot_None].
  apply last_dot_Some in E as (t & Ht & Hn). right.
  destruct (split_at_last (string_take i name) a t s) as [->|[s' Hs']]; [by rewrite <- Ht|done|by left|].
  right. right. by exists s'.
Qed.

Lemma parent_shorter name : name ≠ "" → String.length (parentLogger name) < String.length name.
Proof.
  intros Hne. unfold parentLogger. destruct (last_dot name) as [i|] eqn:E.
  - apply last_dot_Some in E as (s & Hs & _). rewrite Hs at 2. rewrite string_length_app. cbn. lia.
  - destruct name; [done|]. cbn. lia.
Qed.

Lemma ancestor_trans a b name : ancestor a b → ancestor b name → ancestor a name.
Proof.
  intros [->|[->|[s ->]]] Hb; [done|by right; left|].
  destruct Hb as [<-|[Heq|[t ->]]]; [by right; right; exists s|by destruct a|].
  right. right. exists (s +:+ String dot t). clear. induction a as [|c a IH]; [done|].
  rewrite !string_app_cons. by rewrite IH.
Qed.

Lemma ancestor_shorter a name : ancestor a name → String.length a ≤ String.length name.
Proof. intros [->|[->|[s ->]]]; cbn; [lia|lia|]. rewrite string_length_app. lia. Qed.

(** ** Levels *)

(** [l] is the level of the longest configured ancestor of [name], if any. *)
Definition nearest_level (m : gmap string Z) (name : string) (l : option Z) : Prop :=
  match l with
  | Some l => ∃ a, ancestor a name ∧ m !! a = Some l ∧
      ∀ b, ancestor b name → is_Some (m !! b) → String.length b ≤ String.length a
  | None => ∀ a, ancestor a name → m !! a = None
  end.

Lemma ancestor_null a : ancestor a "" → a = "".
Proof. intros [->|[->|[s Hs]]]; [done|done|]. by destruct a. Qed.

Lemma findLevel_spec fuel m name :
  String.length name ≤ fuel → nearest_level m name (findLevel fuel m name).
Proof.
  assert (Hnull : nearest_level m "" (m !! "")).
  { destruct (m !! "") as [l|] eqn:Hl.
    - exists "". split_and!; [by left|done|]. intros b Hb%ancestor_null _. by subst.
    - intros a Ha%ancestor_null. by subst. }
  revert name. induction fuel as [|fuel IH]; intros name Hlen; cbn [findLevel]; case_bool_decide as Hn;
    [by subst name| |by subst name|].
  { destruct name; [done|cbn in Hlen; lia]. }
  destruct (m !! name) as [l|] eqn:Hl.
  { exists name. split_and!; [by left|done|]. intros b Hb _. by apply ancestor_shorter. }
  pose proof (parent_shorter name Hn). specialize (IH (parentLogger name) ltac:(lia)).
  destruct (findLevel fuel m (parentLogger name)) as [l|].
  - destruct IH as (a & Ha & Hm & Hmax). exists a.
    split_and!; [eapply ancestor_trans; [done|apply ancestor_parent]|done|].
    intros b [->|Hb]%ancestor_of_parent Hs; [by rewrite Hl in Hs; destruct Hs|by apply Hmax].
  - intros a [->|Ha]%ancestor_of_parent; [done|by apply IH].
Qed.

Lemma loggerLevel_spec m name :
  ∃ l, nearest_level m name l ∧ loggerLevel m name = default InfoLevel l.
Proof. eexists. split; [by apply findLevel_spec|done]. Qed.

Section Levels.
Context `{ZL : ZapLevels} `{MO : MapOrder}.

(** ** The level map *)

Lemma parseLevel_valid s l : parseLevel s = Some l → valid_level l.
Proof.
  unfold parseLevel. destruct (zap_ParseLevel s) as [z|] eqn:E; [intros [= <-]; by eapply zap_ParseLevel_valid|].
  destruct (ParseInt s 8) as [n []]; [done|].
  destruct (n <? DebugLevel)%Z eqn:E1; [by intros [= <-]|].
  destruct (InvalidLevel <=? n)%Z eqn:E2; [by intros [= <-]|]. intros [= <-].
  unfold valid_level. apply Z.ltb_ge in E1. apply Z.leb_gt in E2. lia.
Qed.

(** A key that sets a level, and the logger it names. *)
Lemma logger_key_Some k n :
  logger_key k = Some n → k = logPrefix +:+ n +:+ levelSuffix ∧ n ≠ nullLogger.
Proof.
  unfold logger_key, CutPrefix, CutSuffix. destruct (Contains k "..") eqn:Hc; [done|].
  destruct (Contains k " "); [done|]. cbn [orb].
  destruct (HasPrefix k logPrefix) eqn:Hp; [|done]. cbn [mbind option_bind].
  apply HasPrefix_true in Hp. revert Hp. generalize (string_drop (String.length logPrefix) k) as r.
  intros r Hp. destruct (HasSuffix r levelSuffix) eqn:Hs; [|done].
  apply HasSuffix_true in Hs. revert Hs. generalize (TrimSuffix r levelSuffix) as m. intros m Hs [= <-].
  split; [by rewrite <- Hs|]. intros Hn. rewrite Hn in Hs. rewrite Hs in Hp. by rewrite Hp in Hc.
Qed.

Lemma addLevel_null m kv : addLevel m kv !! nullLogger = m !! nullLogger.
Proof.
  unfold addLevel. destruct (logger_key kv.1) as [n|] eqn:E; [|done].
  destruct (parseLevel kv.2); [|done]. apply logger_key_Some in E as [_ Hn]. by rewrite lookup_insert_ne.
Qed.

Lemma addLevel_lookup m k v n :
  n ≠ nullLogger →
  addLevel m (k, v) !! n =
  if decide (k = logPrefix +:+ n +:+ levelSuffix ∧ is_Some (logger_key k) ∧ is_Some (parseLevel v))
  then parseLevel v else m !! n.
Proof.
  intros Hn. unfold addLevel. cbn [fst snd]. destruct (logger_key k) as [n'|] eqn:E.
  2: { rewrite decide_False; [done|]. by intros (_ & [? ?] & _). }
  destruct (parseLevel v) as [l|]; [|rewrite decide_False; [done|by intros (_ & _ & [? ?])]].
  apply logger_key_Some in E as [-> _]. destruct (decide (n' = n)) as [->|Hne].
  - by rewrite lookup_insert_eq, decide_True by eauto.
  - rewrite lookup_insert_ne by done. rewrite decide_False; [done|]. intros (Heq & _).
    apply Hne. apply string_app_inj_l, string_app_inj_r in Heq. done.
Qed.

(** What a configuration sets for a name. *)
Definition configured (config : gmap string string) (n : string) : option Z :=
  if decide (n = nullLogger) then Some (default InfoLevel (config !! defaultLog ≫= parseLevel))
  else
    let k := logPrefix +:+ n +:+ levelSuffix in
    match logger_key k with
    | Some _ => config !! k ≫= parseLevel
    | None => None
    end.

Lemma foldl_addLevel_null l m : foldl addLevel m l !! nullLogger = m !! nullLogger.
Proof. revert m. induction l as [|kv l IH]; intros m; [done|]. cbn. by rewrite IH, addLevel_null. Qed.

Lemma foldl_addLevel l m n :
  n ≠ nullLogger → NoDup l.*1 → m !! n = None →
  foldl addLevel m l !! n =
  match logger_key (logPrefix +:+ n +:+ levelSuffix) with
  | Some _ => (list_to_map l : gmap string string) !! (logPrefix +:+ n +:+ levelSuffix) ≫= parseLevel
  | None => None
  end.
Proof.
  intros Hn. set (key := logPrefix +:+ n +:+ levelSuffix).
  cut (∀ l m, NoDup l.*1 → foldl addLevel m l !! n =
    match logger_key key with
    | Some _ => match (list_to_map l : gmap string string) !! key ≫= parseLevel with
                | Some x => Some x | None => m !! n end
    | None => m !! n end).
  { intros Hc Hnd Hm. rewrite Hc by done. rewrite Hm. destruct (logger_key key); [|done].
    by destruct (_ ≫= _). }
  clear l m. induction l as [|[k v] l IH]; intros m Hnd; [by destruct (logger_key key)|].
  cbn [fmap list_fmap fst] in Hnd. apply NoDup_cons in Hnd as [Hni Hnd]. cbn [foldl]. rewrite IH by done.
  rewrite addLevel_lookup by done. fold key. cbn [list_to_map foldr fst snd uncurry].
  destruct (decide (k = key)) as [->|Hne].
  - rewrite lookup_insert_eq, not_elem_of_list_to_map_1 by done. cbn [mbind option_bind].
    destruct (logger_key key) as [x|]; [|rewrite decide_False; [done|by intros (_ & [? ?] & _)]].
    destruct (parseLevel v) as [y|]; [by rewrite decide_True by eauto|].
    rewrite decide_False; [done|by intros (_ & _ & [? ?])].
  - rewrite lookup_insert_ne by done. by rewrite decide_False by (by intros [? _]).
Qed.

(** The level map of a configuration. *)
Lemma levels_of_lookup config n : levels_of config !! n = configured config n.
Proof.
  unfold levels_of, configured. case_decide as Hn.
  - subst n. rewrite foldl_addLevel_null. destruct (config !! defaultLog) as [v|]; cbn [mbind option_bind];
      [destruct (parseLevel v)|]; by rewrite lookup_insert_eq.
  - rewrite foldl_addLevel; [|done|apply NoDup_go_range|].
    2: { destruct (config !! defaultLog) as [v|]; [destruct (parseLevel v)|];
         rewrite !lookup_insert_ne by done; apply lookup_empty. }
    rewrite (list_to_map_proper (go_range config) (map_to_list config));
      [|apply NoDup_go_range|apply go_range_perm]. by rewrite list_to_map_to_list.
Qed.
(** ** The loggers *)

Lemma handles_in_order h : h ∈ loggers → loggers !! lh_id h = Some h.
Proof.
  intros Hin. cut (Forall (λ h, loggers !! lh_id h = Some h) loggers); [by rewrite Forall_forall; eauto|].
  by repeat constructor.
Qed.

Lemma foldl_min_le (l : list (string * Z)) m :
  (foldl (λ m kv, Z.min kv.2 m) m l <= m)%Z ∧
  ∀ k v, (k, v) ∈ l → (foldl (λ m kv, Z.min kv.2 m) m l <= v)%Z.
Proof.
  revert m. induction l as [|[k v] l IH]; intros m; cbn [foldl snd]; [split; [lia|by intros ? ? ?%elem_of_nil]|].
  destruct (IH (Z.min v m)) as [H1 H2]. split; [lia|]. intros k' v' [[= -> ->]|Hin]%elem_of_cons; [lia|eauto].
Qed.

(** A logger logs exactly what its nearest configured ancestor enables. After
    any configuration, the logger of a handle carries the handle's name, and it is
    enabled at a level exactly when the level is not below that of the longest
    ancestor name (itself, its parents, the default) for which the configuration
    has a valid level, with info as the default; the level of the shared core
    never hides a message. *)
Theorem logger_has_nearest_level h conf config :
  h ∈ loggers →
  ∃ nl a l, Log (UpdateLoggingConfig conf config) (Some h) = Some nl ∧ nl_name nl = lh_name h ∧
    ancestor a (lh_name h) ∧ configured config a = Some l ∧
    (∀ b, ancestor b (lh_name h) → is_Some (configured config b) → String.length b ≤ String.length a) ∧
    ∀ level, filteredCore_Enabled (nl_core nl) level = (l <=? level)%Z.
Proof.
  intros Hh. unfold Log, UpdateLoggingConfig, initLoggingConfig. cbn [default lc_loggers].
  set (min := foldl _ _ _). set (m := levels_of config) in *.
  destruct (loggerLevel_spec m (lh_name h)) as ([l|] & Hnear & Hlev).
  2: { exfalso. specialize (Hnear nullLogger ltac:(by right; left)). unfold m in Hnear.
       by rewrite levels_of_lookup in Hnear. }
  destruct Hnear as (a & Ha & Hm & Hmax). unfold m in Hm, Hmax. rewrite levels_of_lookup in Hm.
  pose proof (list_lookup_fmap (λ h, createLogger min m (lh_name h)) loggers (lh_id h)) as E.
  rewrite handles_in_order in E by done.
  eexists _, a, l. split_and!; [exact E|done|done|done| |]; clear E.
  - intros b Hb. rewrite <- levels_of_lookup. by apply Hmax.
  - intros level. unfold filteredCore_Enabled. cbn [createLogger nl_core fc_level fc_inner root_core core_Enabled].
    rewrite Hlev. unfold default, id.
    destruct (foldl_min_le (go_range m) (InvalidLevel - 1)) as [_ Hle].
    specialize (Hle a l). rewrite elem_of_go_range in Hle. unfold m in Hle at 1. rewrite levels_of_lookup in Hle.
    specialize (Hle Hm). fold min in Hle.
    destruct (Z.ltb_spec level l), (Z.leb_spec l level), (Z.leb_spec min level); lia || done.
Qed.
End Levels.

(** ** Closed instances *)

Section Witnesses.

#[local] Instance zap_ref : ZapLevels.
Proof.
  refine {| zap_ParseLevel s :=
    if s =s "DEBUG" then Some (-1)%Z else if s =s "INFO" then Some 0%Z else if s =s "WARN" then Some 1%Z else None |}.
  intros s l. repeat case_bool_decide; intros [= <-]; unfold valid_level, DebugLevel, InvalidLevel; lia.
Defined.

Definition log_config : gmap string string :=
  <["log.level" := "WARN"]> (<["log.shim.cache.level" := "-5"]> (<["log.shim.level" := "0"]> ∅)).

Lemma logger_has_nearest_level_witness :
  ∃ nl a l, Log (UpdateLoggingConfig None log_config) (Some Handles.ShimCacheTask) = Some nl ∧
    nl_name nl = "shim.cache.task" ∧ ancestor a "shim.cache.task" ∧ configured log_config a = Some l ∧
    (∀ b, ancestor b "shim.cache.task" → is_Some (configured log_config b) → String.length b ≤ String.length a) ∧
    ∀ level, filteredCore_Enabled (nl_core nl) level = (l <=? level)%Z.
Proof.
  apply (logger_has_nearest_level Handles.ShimCacheTask None log_config).
  do 13 right. left.
Defined.

Example logger_levels :
  (fc_level ∘ nl_core) <$> Log (UpdateLoggingConfig None log_config) (Some Handles.ShimCacheTask) = Some (-1)%Z ∧
  (fc_level ∘ nl_core) <$> Log (UpdateLoggingConfig None log_config) (Some Handles.ShimContext) = Some 0%Z ∧
  (fc_level ∘ nl_core) <$> Log (UpdateLoggingConfig None log_config) (Some Handles.Admission) = Some 1%Z.
Proof. vm_compute. done. Qed.

(** A logger with additional fields loses its level: it is enabled for whatever
    the finest logger of the configuration is enabled for. *)
Theorem logger_with_fields_loses_level :
  ∃ nl, Log (UpdateLoggingConfig None log_config) (Some Handles.Admission) = Some nl ∧
    filteredCore_Enabled (nl_core nl) DebugLevel = false ∧
    core_Enabled (filteredCore_With (nl_core nl)) DebugLevel = true.
Proof. eexists. split; [vm_compute; reflexivity|]. vm_compute. done. Qed.

End Witnesses.
