(* ===== verification/K8sApi.v ===== *)
(** * Kubernetes objects and third-party code

    The data the shim reads from Kubernetes objects, with the field names of
    the Kubernetes API (the fields the shim never reads are left out), and the
    interfaces of the third-party code it calls: [resource.Quantity], the
    scheduler framework's [NodeInfo] and a resource-name helper.  Third-party
    code is not defined here: it is a class of operations, with a second class
    stating its documented behaviour, and every theorem that needs that
    behaviour takes the second class as a hypothesis.  Instances that satisfy
    the laws are in [K8sInstances]. *)

From S2P Require Import Prelude.
From S2P Require Import GoStrings.

(** ** Quantities

    A [resource.Quantity] is a fixed-point number; the smallest unit it can
    hold is the nano unit, so its value is an integer number of nanos. *)
Record Quantity := mkQuantity { nanos : Z }.

#[export] Instance Quantity_eq_dec : EqDecision Quantity.
Proof. solve_decision. Defined.

(** [v1.ResourceList] and the [map[string]resource.Quantity] of task groups. *)
Abbreviation ResourceList := (gmap string Quantity).

(** ** Objects *)

Record OwnerReference := mkOwnerReference {
  or_APIVersion : string;
  or_Kind : string;
  or_Name : string;
  or_UID : string;
  or_Controller : option bool;
  or_BlockOwnerDeletion : option bool
}.

(** Data the shim copies from one object to another and never inspects. *)
Record Opaque := mkOpaque { opaque_repr : string }.

Record NodeSelectorRequirement := mkNodeSelectorRequirement {
  nsr_Key : string;
  nsr_Values : list string
}.

Record NodeSelectorTerm := mkNodeSelectorTerm {
  nst_MatchFields : list NodeSelectorRequirement
}.

Record Affinity := mkAffinity {
  aff_NodeAffinity : option (option (list NodeSelectorTerm));
    (* NodeAffinity.RequiredDuringSchedulingIgnoredDuringExecution.NodeSelectorTerms *)
  aff_PodAffinity : option Opaque;
  aff_PodAntiAffinity : option (list Opaque)
    (* PodAntiAffinity.RequiredDuringSchedulingIgnoredDuringExecution *)
}.

Record Container := mkContainer {
  c_Name : string;
  c_Image : string;
  c_Requests : ResourceList;
  c_RestartPolicy : option string
}.

Record ContainerStatus := mkContainerStatus {
  cs_Name : string;
  cs_AllocatedResources : ResourceList;
  cs_Resources : option ResourceList      (* Resources.Requests *)
}.

Record Volume := mkVolume {
  vol_PersistentVolumeClaim : option string     (* ClaimName *)
}.

(** Of the security context, the settings the shim can change. *)
Record PodSecurityContext := mkPodSecurityContext {
  psc_RunAsUser : option Z;
  psc_RunAsGroup : option Z;
  psc_FSGroup : option Z
}.

Record PodSpec := mkPodSpec {
  spec_NodeName : string;
  spec_SchedulerName : string;
  spec_Containers : list Container;
  spec_InitContainers : list Container;
  spec_Resources : option ResourceList;         (* Resources.Requests *)
  spec_Overhead : option ResourceList;
  spec_Priority : option Z;
  spec_PriorityClassName : string;
  spec_PreemptionPolicy : option string;
  spec_Affinity : option Affinity;
  spec_SchedulingGates : list string;
  spec_Volumes : list Volume;
  spec_ImagePullSecrets : list string;
  spec_NodeSelector : gmap string string;
  spec_Tolerations : list Opaque;
  spec_TopologySpreadConstraints : list Opaque;
  spec_RestartPolicy : string;
  spec_SecurityContext : PodSecurityContext
}.

Record PodCondition := mkPodCondition {
  cond_Type : string;
  cond_Status : string;
  cond_Reason : string;
  cond_Message : string
}.

Record PodStatus := mkPodStatus {
  st_Phase : string;
  st_Reason : string;
  st_Message : string;
  st_Resize : string;
  st_Conditions : list PodCondition;
  st_ContainerStatuses : list ContainerStatus;
  st_InitContainerStatuses : list ContainerStatus
}.

Record Pod := mkPod {
  pod_Name : string;
  pod_Namespace : string;
  pod_UID : string;
  pod_Labels : gmap string string;
  pod_Annotations : gmap string string;
  pod_CreationTimestamp : Z;                    (* Unix seconds *)
  pod_OwnerReferences : list OwnerReference;
  pod_Spec : PodSpec;
  pod_Status : PodStatus
}.

Record Node := mkNode {
  node_Name : string;
  node_Unschedulable : bool;
  node_Allocatable : ResourceList
}.

Record PriorityClass := mkPriorityClass {
  pc_Name : string;
  pc_Annotations : gmap string string
}.

Record ConfigMap := mkConfigMap {
  cm_Name : string;
  cm_Namespace : string;
  cm_Data : gmap string string;
  cm_BinaryData : gmap string string
}.

Record Namespace := mkNamespace {
  ns_Name : string;
  ns_Annotations : gmap string string
}.

#[export] Instance Opaque_eq_dec : EqDecision Opaque.
Proof. solve_decision. Defined.
#[export] Instance NodeSelectorRequirement_eq_dec : EqDecision NodeSelectorRequirement.
Proof. solve_decision. Defined.
#[export] Instance NodeSelectorTerm_eq_dec : EqDecision NodeSelectorTerm.
Proof. solve_decision. Defined.
#[export] Instance Affinity_eq_dec : EqDecision Affinity.
Proof. solve_decision. Defined.
#[export] Instance Volume_eq_dec : EqDecision Volume.
Proof. solve_decision. Defined.

(** A copy of a pod with another node name or another status. *)
Definition spec_with_NodeName (s : PodSpec) (n : string) : PodSpec :=
  mkPodSpec n (spec_SchedulerName s) (spec_Containers s) (spec_InitContainers s)
    (spec_Resources s) (spec_Overhead s) (spec_Priority s) (spec_PriorityClassName s)
    (spec_PreemptionPolicy s) (spec_Affinity s) (spec_SchedulingGates s) (spec_Volumes s)
    (spec_ImagePullSecrets s) (spec_NodeSelector s) (spec_Tolerations s)
    (spec_TopologySpreadConstraints s) (spec_RestartPolicy s) (spec_SecurityContext s).

Definition pod_with_NodeName (p : Pod) (n : string) : Pod :=
  mkPod (pod_Name p) (pod_Namespace p) (pod_UID p) (pod_Labels p) (pod_Annotations p)
    (pod_CreationTimestamp p) (pod_OwnerReferences p) (spec_with_NodeName (pod_Spec p) n)
    (pod_Status p).

Definition pod_with_Status (p : Pod) (st : PodStatus) : Pod :=
  mkPod (pod_Name p) (pod_Namespace p) (pod_UID p) (pod_Labels p) (pod_Annotations p)
    (pod_CreationTimestamp p) (pod_OwnerReferences p) (pod_Spec p) st.

Abbreviation pod_NodeName p := (spec_NodeName (pod_Spec p)).
Abbreviation pod_Phase p := (st_Phase (pod_Status p)).

(** The PVCs a pod mounts, as the keys [namespace/claim] of the framework. *)
Definition pod_pvc_keys (p : Pod) : list string :=
  omap (λ v, (λ c, pod_Namespace p +:+ "/" +:+ c) <$> vol_PersistentVolumeClaim v)
    (spec_Volumes (pod_Spec p)).

(** ** [resource.Quantity] *)

Class QuantityOps := {
  q_Value : Quantity → Z;
  q_MilliValue : Quantity → Z;
  q_Sign : Quantity → Z;
  q_CmpInt64 : Quantity → Z → Z;
  ParseQuantity : string → option Quantity;
  (* component-helpers [resource.IsSupportedPodLevelResource] *)
  IsSupportedPodLevelResource : string → bool
}.

(** Division rounding up. *)
Definition ceil_div (n d : Z) : Z := (- ((- n) / d))%Z.

(** Documented behaviour: [Value] is the number rounded up to an integer,
    [MilliValue] the number times 1000 rounded up, both [int64]; [Sign] and
    [CmpInt64] compare the exact number. *)
Class QuantityLaws `{QuantityOps} : Prop := {
  q_Value_range q : in_int64 (q_Value q);
  q_MilliValue_range q : in_int64 (q_MilliValue q);
  q_Value_spec q :
    (0 <= nanos q)%Z → (ceil_div (nanos q) 1000000000 <= MaxInt64)%Z →
    q_Value q = ceil_div (nanos q) 1000000000;
  q_MilliValue_spec q :
    (0 <= nanos q)%Z → (ceil_div (nanos q) 1000000 <= MaxInt64)%Z →
    q_MilliValue q = ceil_div (nanos q) 1000000;
  q_Sign_spec q : q_Sign q = Z.sgn (nanos q);
  q_CmpInt64_spec q k : q_CmpInt64 q k = Z.sgn (nanos q - k * 1000000000)
}.

(** ** The scheduler framework's [NodeInfo] *)

Record NodeInfo := mkNodeInfo {
  ni_node : option Node;
  ni_Pods : list Pod;
  ni_PodsWithAffinity : list Pod;
  ni_PodsWithRequiredAntiAffinity : list Pod;
  ni_PVCRefCounts : gmap string Z
}.

Class NodeInfoOps := {
  NewNodeInfo : NodeInfo;
  SetNode : NodeInfo → Node → NodeInfo;
  AddPod : NodeInfo → Pod → NodeInfo;
  (* the node information after the call, and whether an error is returned *)
  RemovePod : NodeInfo → Pod → NodeInfo * bool
}.

(** [podWithAffinity] and [podWithRequiredAntiAffinity] of the scheduler cache;
    the framework selects the pods of its two affinity lists the same way. *)
Definition podWithAffinity (p : Pod) : bool :=
  match spec_Affinity (pod_Spec p) with
  | None => false
  | Some affinity =>
      bool_decide (is_Some (aff_PodAffinity affinity)) ||
      bool_decide (is_Some (aff_PodAntiAffinity affinity))
  end.

Definition podWithRequiredAntiAffinity (p : Pod) : bool :=
  match spec_Affinity (pod_Spec p) with
  | None => false
  | Some affinity =>
      match aff_PodAntiAffinity affinity with
      | None => false
      | Some required => negb (Nat.eqb (length required) 0)
      end
  end.

(** The number of times the pods of a list mount the PVC [key]. *)
Definition pvc_count (key : string) (pods : list Pod) : nat :=
  length (filter (λ k, k = key) (pods ≫= pod_pvc_keys)).

(** What the fields of a [NodeInfo] are documented to hold. *)
Record ni_consistent (ni : NodeInfo) : Prop := {
  nic_affinity : ni_PodsWithAffinity ni ≡ₚ filter podWithAffinity (ni_Pods ni);
  nic_anti :
    ni_PodsWithRequiredAntiAffinity ni ≡ₚ filter podWithRequiredAntiAffinity (ni_Pods ni);
  nic_pvc key :
    ni_PVCRefCounts ni !! key =
    if decide (pvc_count key (ni_Pods ni) = 0) then None
    else Some (Z.of_nat (pvc_count key (ni_Pods ni)))
}.

(** The immutable fields of a pod the framework reads in [RemovePod]. *)
Definition same_identity (p q : Pod) : Prop :=
  pod_Namespace p = pod_Namespace q ∧
  spec_Volumes (pod_Spec p) = spec_Volumes (pod_Spec q) ∧
  spec_Affinity (pod_Spec p) = spec_Affinity (pod_Spec q).

#[export] Instance same_identity_dec p q : Decision (same_identity p q).
Proof. unfold same_identity. solve_decision. Defined.

Class NodeInfoLaws `{NodeInfoOps} : Prop := {
  NewNodeInfo_spec : NewNodeInfo = mkNodeInfo None [] [] [] ∅;
  SetNode_spec ni n :
    SetNode ni n = mkNodeInfo (Some n) (ni_Pods ni) (ni_PodsWithAffinity ni)
      (ni_PodsWithRequiredAntiAffinity ni) (ni_PVCRefCounts ni);
  AddPod_node ni p : ni_node (AddPod ni p) = ni_node ni;
  AddPod_Pods ni p : ni_Pods (AddPod ni p) = ni_Pods ni ++ [p];
  AddPod_consistent ni p : ni_consistent ni → ni_consistent (AddPod ni p);
  RemovePod_node ni p : ni_node (RemovePod ni p).1 = ni_node ni;
  (* a pod is identified by its UID, which must not be empty *)
  RemovePod_found ni p p' :
    pod_UID p ≠ "" → p' ∈ ni_Pods ni → pod_UID p' = pod_UID p →
    NoDup (pod_UID <$> ni_Pods ni) →
    (RemovePod ni p).2 = false ∧
    ni_Pods (RemovePod ni p).1 ≡ₚ filter (λ q, pod_UID q ≠ pod_UID p) (ni_Pods ni);
  RemovePod_absent ni p :
    Forall (λ q, pod_UID q ≠ pod_UID p) (ni_Pods ni) → RemovePod ni p = (ni, true);
  RemovePod_consistent ni p p' :
    ni_consistent ni → pod_UID p ≠ "" → p' ∈ ni_Pods ni → pod_UID p' = pod_UID p →
    NoDup (pod_UID <$> ni_Pods ni) → same_identity p p' →
    ni_consistent (RemovePod ni p).1
}.

(** ** Lemmas *)

Lemma pod_with_NodeName_UID p n : pod_UID (pod_with_NodeName p n) = pod_UID p.
Proof. done. Qed.

Lemma pod_with_NodeName_same_identity p n : same_identity (pod_with_NodeName p n) p.
Proof. done. Qed.

Lemma same_identity_refl p : same_identity p p.
Proof. done. Qed.

Lemma same_identity_sym p q : same_identity p q → same_identity q p.
Proof. unfold same_identity. intuition congruence. Qed.

Lemma same_identity_trans p q r :
  same_identity p q → same_identity q r → same_identity p r.
Proof. unfold same_identity. intuition congruence. Qed.

Lemma same_identity_affinity p q :
  same_identity p q → podWithAffinity p = podWithAffinity q.
Proof. intros (_ & _ & H). unfold podWithAffinity. by rewrite H. Qed.

Lemma same_identity_anti_affinity p q :
  same_identity p q → podWithRequiredAntiAffinity p = podWithRequiredAntiAffinity q.
Proof. intros (_ & _ & H). unfold podWithRequiredAntiAffinity. by rewrite H. Qed.

Lemma same_identity_pvc p q : same_identity p q → pod_pvc_keys p = pod_pvc_keys q.
Proof. intros (Hn & Hv & _). unfold pod_pvc_keys. by rewrite Hn, Hv. Qed.

Lemma pvc_count_app key l1 l2 : pvc_count key (l1 ++ l2) = pvc_count key l1 + pvc_count key l2.
Proof. unfold pvc_count. by rewrite bind_app, filter_app, length_app. Qed.

Lemma pvc_count_perm key l1 l2 : l1 ≡ₚ l2 → pvc_count key l1 = pvc_count key l2.
Proof. intros H. unfold pvc_count. by rewrite H. Qed.

Lemma pvc_count_pos key l :
  pvc_count key l ≠ 0 ↔ ∃ p, p ∈ l ∧ key ∈ pod_pvc_keys p.
Proof.
  unfold pvc_count. split.
  - intros Hc. destruct (filter _ _) as [|x xs] eqn:E; [done|].
    assert (x ∈ filter (λ k, k = key) (l ≫= pod_pvc_keys)) as Hx by (rewrite E; left).
    apply list_elem_of_filter in Hx as [-> Hx].
    apply list_elem_of_bind in Hx as (p & ? & ?). eauto.
  - intros (p & Hp & Hk) Hc. apply nil_length_inv in Hc.
    assert (key ∈ filter (λ k, k = key) (l ≫= pod_pvc_keys)) as Hx.
    { apply list_elem_of_filter. split; [done|]. apply list_elem_of_bind. eauto. }
    rewrite Hc in Hx. by apply not_elem_of_nil in Hx.
Qed.

#[export] Hint Resolve same_identity_refl same_identity_sym : shim.
