(* ===== verification/K8sInstances.v ===== *)
(** * Instances of the third-party interfaces

    Executable operations that satisfy the laws of [K8sApi].  They show that
    the laws can hold together and are what the closed examples run on; no
    theorem about the shim depends on them. *)

From S2P Require Import Prelude.
From S2P Require Import GoStrings.
From S2P Require Import K8sApi.

(** ** Quantities *)

(** Decimal integers with an optional milli suffix. *)
Definition parse_quantity_ref (s : string) : option Quantity :=
  if HasSuffix s "m" then
    (λ n, mkQuantity (Z.of_N n * 1000000)%Z) <$> parse_digits (TrimSuffix s "m") 0
  else (λ n, mkQuantity (Z.of_N n * 1000000000)%Z) <$> parse_digits s 0.

#[export] Instance quantity_ref : QuantityOps := {
  q_Value q := clamp64 (ceil_div (nanos q) 1000000000);
  q_MilliValue q := clamp64 (ceil_div (nanos q) 1000000);
  q_Sign q := Z.sgn (nanos q);
  q_CmpInt64 q k := Z.sgn (nanos q - k * 1000000000);
  ParseQuantity := parse_quantity_ref;
  IsSupportedPodLevelResource name := bool_decide (name ∈ ["cpu"; "memory"])
}.

Lemma ceil_div_nonneg n d : (0 <= n)%Z → (0 < d)%Z → (0 <= ceil_div n d)%Z.
Proof.
  intros Hn Hd. unfold ceil_div.
  pose proof (Z.div_le_upper_bound (- n) d 0 Hd). lia.
Qed.

Lemma clamp64_id z : (0 <= z <= MaxInt64)%Z → clamp64 z = z.
Proof. unfold clamp64, MinInt64. lia. Qed.

Lemma clamp64_range z : in_int64 (clamp64 z).
Proof. unfold clamp64, in_int64, MinInt64, MaxInt64. lia. Qed.

#[export] Instance quantity_ref_laws : QuantityLaws.
Proof.
  split; simpl; intros; auto using clamp64_range;
    apply clamp64_id; split; auto; apply ceil_div_nonneg; lia.
Qed.

(** ** Node information *)

Definition pvc_map (keys : list string) : gmap string Z :=
  foldr (λ k m, <[k := (default 0 (m !! k) + 1)%Z]> m) ∅ keys.

(** A node information recomputed from its pods. *)
Definition ni_of_pods (node : option Node) (pods : list Pod) : NodeInfo :=
  mkNodeInfo node pods (filter podWithAffinity pods)
    (filter podWithRequiredAntiAffinity pods) (pvc_map (pods ≫= pod_pvc_keys)).

#[export] Instance node_info_ref : NodeInfoOps := {
  NewNodeInfo := mkNodeInfo None [] [] [] ∅;
  SetNode ni n := mkNodeInfo (Some n) (ni_Pods ni) (ni_PodsWithAffinity ni)
    (ni_PodsWithRequiredAntiAffinity ni) (ni_PVCRefCounts ni);
  AddPod ni p := ni_of_pods (ni_node ni) (ni_Pods ni ++ [p]);
  RemovePod ni p :=
    if decide (Forall (λ q, pod_UID q ≠ pod_UID p) (ni_Pods ni)) then (ni, true)
    else (ni_of_pods (ni_node ni) (filter (λ q, pod_UID q ≠ pod_UID p) (ni_Pods ni)), false)
}.

Lemma pvc_map_lookup keys k :
  pvc_map keys !! k =
  let c := length (filter (λ k', k' = k) keys) in
  if decide (c = 0) then None else Some (Z.of_nat c).
Proof.
  induction keys as [|k' keys IH]; [done|]. simpl pvc_map.
  destruct (decide (k' = k)) as [->|Hne].
  - rewrite lookup_insert_eq, filter_cons_True by done. rewrite IH. simpl.
    case_decide as E; simpl; [by rewrite E|]. f_equal. lia.
  - rewrite lookup_insert_ne, filter_cons_False by done. apply IH.
Qed.

Lemma ni_of_pods_consistent node pods : ni_consistent (ni_of_pods node pods).
Proof. split; simpl; [done..|]. intros key. apply pvc_map_lookup. Qed.

#[export] Instance node_info_ref_laws : NodeInfoLaws.
Proof.
  assert (Hpresent : ∀ ni p p', p' ∈ ni_Pods ni → pod_UID p' = pod_UID p →
    ¬ Forall (λ q, pod_UID q ≠ pod_UID p) (ni_Pods ni)).
  { intros ni p p' Hin Heq Hall. rewrite Forall_forall in Hall. by apply (Hall p'). }
  split; simpl; intros; try done.
  - apply ni_of_pods_consistent.
  - by case_decide.
  - rewrite decide_False by eauto. done.
  - by rewrite decide_True.
  - rewrite decide_False by eauto. apply ni_of_pods_consistent.
Qed.

(** ** Objects for the closed examples *)

Definition spec_ref (node : string) (containers inits : list Container)
    (overhead : option ResourceList) (volumes : list Volume) : PodSpec :=
  mkPodSpec node "yunikorn" containers inits None overhead None "" None None [] volumes []
    ∅ [] [] "Always" (mkPodSecurityContext None None None).

Definition status_ref (phase : string) : PodStatus := mkPodStatus phase "" "" "" [] [] [].

Definition pod_ref (name uid node phase : string) (labels : gmap string string)
    (volumes : list Volume) : Pod :=
  mkPod name "default" uid labels ∅ 0 [] (spec_ref node [] [] None volumes) (status_ref phase).

Definition container_ref (name : string) (cpu mem : Z) (restart : option string) : Container :=
  mkContainer name "image"
    (<["cpu" := mkQuantity (cpu * 1000000)]> (<["memory" := mkQuantity (mem * 1000000000)]> ∅))
    restart.

Definition node_ref (name : string) : Node :=
  mkNode name false (<["cpu" := mkQuantity 4000000000]> ∅).
