(* ===== verification/Constants.v ===== *)
(** * Constants

    The names of [pkg/common/constants] and of the scheduler interface.  The
    constants of the scheduler interface (the Go module [siCommon]) are not in
    the repository: those whose value the repository's comments and documents
    give are defined, the others are the fields of [SiConstants]. *)

From S2P Require Import Prelude.

(** ** [siCommon] *)

(** Named in [pkg/cache/utils.go] and in the deployment examples. *)
Definition CPU : string := "vcore".
Definition Memory : string := "memory".
Definition DomainYuniKorn : string := "yunikorn.apache.org/".

Class SiConstants := {
  DomainYuniKornInternal : string;
  DomainK8s : string;
  GroupMeta : string;
  GroupLabel : string;
  KeyNamespace : string;
  KeyPodName : string;
  KeyRequiredNode : string;
  CreationTime : string;
  Foreign : string;
  AllocTypeDefault : string;
  AllocTypeStatic : string;
  AppTagCreateForce : string;
  AppTagNamespaceResourceQuota : string;
  AppTagNamespaceResourceGuaranteed : string;
  AppTagNamespaceResourceMaxApps : string
}.

(** Concrete values for the closed examples. *)
Definition si_constants_ref : SiConstants := {|
  DomainYuniKornInternal := "yunikorn.apache.org/internal-";
  DomainK8s := "kubernetes.io/";
  GroupMeta := "meta/";
  GroupLabel := "label/";
  KeyNamespace := "namespace";
  KeyPodName := "podName";
  KeyRequiredNode := "requiredNode";
  CreationTime := "creationTime";
  Foreign := "foreign";
  AllocTypeDefault := "default";
  AllocTypeStatic := "static";
  AppTagCreateForce := "application.create.force";
  AppTagNamespaceResourceQuota := "namespace.resourcequota";
  AppTagNamespaceResourceGuaranteed := "namespace.resourceguaranteed";
  AppTagNamespaceResourceMaxApps := "namespace.resourcemaxapps"
|}.

(** ** Kubernetes names *)

Definition ResourceCPU : string := "cpu".
Definition PodPending : string := "Pending".
Definition PodRunning : string := "Running".
Definition PodSucceeded : string := "Succeeded".
Definition PodFailed : string := "Failed".
Definition PodResizeStatusInfeasible : string := "Infeasible".
Definition ContainerRestartPolicyAlways : string := "Always".
Definition PreemptNever : string := "Never".
Definition PreemptLowerPriority : string := "PreemptLowerPriority".
Definition PodScheduled : string := "PodScheduled".
Definition ConditionFalse : string := "False".
Definition PodReasonUnschedulable : string := "Unschedulable".
Definition EventTypeNormal : string := "Normal".
Definition EventTypeWarning : string := "Warning".

(** ** [pkg/common/constants] *)

Definition True_ : string := "true".
Definition False_ : string := "false".
Definition PodStatusPodResizePending : string := "PodResizePending".

Definition DefaultNodeAttributeHostNameKey : string := "si.io/hostname".
Definition DefaultNodeAttributeRackNameKey : string := "si.io/rackname".
Definition DefaultRackName : string := "/rack-default".

Definition LabelApp : string := "app".
Definition LabelApplicationID : string := "applicationId".
Definition AnnotationApplicationID : string := DomainYuniKorn +:+ "app-id".
Definition CanonicalLabelApplicationID : string := DomainYuniKorn +:+ "app-id".
Definition LabelQueueName : string := "queue".
Definition AnnotationQueueName : string := DomainYuniKorn +:+ "queue".
Definition CanonicalLabelQueueName : string := DomainYuniKorn +:+ "queue".
Definition AnnotationParentQueue : string := DomainYuniKorn +:+ "parentqueue".
Definition DefaultPartition : string := "default".
Definition AppTagNamespace : string := "namespace".
Definition AppTagNamespaceParentQueue : string := "namespace.parentqueue".
Definition AppTagImagePullSecrets : string := "imagePullSecrets".
Definition DefaultAppNamespace : string := "default".
Definition DefaultUser : string := "nobody".
Definition SparkLabelAppID : string := "spark-app-selector".
Definition ConfigMapName : string := "yunikorn-configs".
Definition DefaultConfigMapName : string := "yunikorn-defaults".
Definition SchedulerName : string := "yunikorn".
Definition DefaultNodeInstanceTypeNodeLabelKey : string := "node.kubernetes.io/instance-type".
Definition GzipSuffix : string := "gz".
Definition DaemonSetType : string := "DaemonSet".
Definition NodeKind : string := "Node".

Definition PlaceholderContainerImage : string := "registry.k8s.io/pause:3.7".
Definition PlaceholderContainerName : string := "pause".
Definition PlaceholderPodRestartPolicy : string := "Never".
Definition AnnotationPlaceholderFlag `{SiConstants} : string :=
  DomainYuniKornInternal +:+ "placeholder".
Definition AnnotationTaskGroupName : string := DomainYuniKorn +:+ "task-group-name".
Definition AnnotationTaskGroups : string := DomainYuniKorn +:+ "task-groups".
Definition AnnotationSchedulingPolicyParam : string :=
  DomainYuniKorn +:+ "schedulingPolicyParameters".
Definition SchedulingPolicyParamDelimiter : Ascii.ascii := Ascii.ascii_of_nat 32.
Definition SchedulingPolicyTimeoutParam : string := "placeholderTimeoutInSeconds".
Definition SchedulingPolicyStyleParam : string := "gangSchedulingStyle".
Definition SchedulingPolicyStyleParamDefault : string := "Soft".
Definition SchedulingPolicyStyleParamValues : gmap string string :=
  <["Hard" := "Hard"]> (<["Soft" := "Soft"]> ∅).

Definition ApplicationInsufficientResourcesFailure : string := "ResourceReservationTimeout".
Definition ApplicationRejectedFailure : string := "ApplicationRejected".

Definition CPUQuota : string := DomainYuniKorn +:+ "namespace.max.cpu".
Definition MemQuota : string := DomainYuniKorn +:+ "namespace.max.memory".
Definition NamespaceQuota : string := DomainYuniKorn +:+ "namespace.quota".
Definition NamespaceGuaranteed : string := DomainYuniKorn +:+ "namespace.guaranteed".
Definition NamespaceMaxApps : string := DomainYuniKorn +:+ "namespace.maxApps".
Definition AnnotationAllowPreemption : string := DomainYuniKorn +:+ "allow-preemption".
Definition AnnotationGenerateAppID : string := DomainYuniKorn +:+ "namespace.generateAppId".
Definition AnnotationEnableYuniKorn : string := DomainYuniKorn +:+ "namespace.enableYuniKorn".
Definition AutoGenAppPrefix : string := "yunikorn".
Definition AutoGenAppSuffix : string := "autogen".

Definition AppIdLabelKeys : list string :=
  [CanonicalLabelApplicationID; SparkLabelAppID; LabelApplicationID].
Definition AppIdAnnotationKeys : list string := [AnnotationApplicationID].
Definition QueueLabelKeys : list string := [CanonicalLabelQueueName; LabelQueueName].
Definition QueueAnnotationKeys : list string := [AnnotationQueueName].
