(* ===== verification/Resource.v ===== *)
(** * Resource arithmetic: [pkg/common/resource.go]

    An [si.Resource] is its map from resource names to [int64] values; a
    pointer to one, which can be nil, is an [option].  The source shares
    [si.Quantity] pointers between resources but only ever writes through a
    pointer it has just allocated, so a quantity is a value here. *)

From S2P Require Import Prelude.
From S2P Require Import GoStrings.
From S2P Require Import K8sApi.
From S2P Require Import K8sInstances.
From S2P Require Import Constants.

Abbreviation Resource := (gmap string Z).

(** The value of a resource, zero when it is not listed. *)
Definition res_get (r : Resource) (k : string) : Z := default 0%Z (r !! k).

(** [r.GetResources()] of a possibly nil resource. *)
Definition res_of (r : option Resource) : Resource := default ∅ r.

Section Resource.
Context `{QuantityOps}.

(** ** Building resources *)

Definition AddResource (w : Resource) (name : string) (value : Z) : Resource :=
  <[name := value]> w.

(** One entry of a resource list: cpu is counted in milli units under
    the core's name for it. *)
Definition add_entry (name : string) (value : Quantity) (w : Resource) : Resource :=
  if name =s ResourceCPU then AddResource w CPU (q_MilliValue value)
  else AddResource w name (q_Value value).

Definition getResource (resourceList : ResourceList) : Resource :=
  map_fold add_entry ∅ resourceList.

Definition getPodLevelResource (resourceList : ResourceList) : Resource :=
  map_fold (λ name value w,
    if IsSupportedPodLevelResource name then add_entry name value w else w)
    ∅ resourceList.

Definition GetNodeResource (node : Node) : Resource := getResource (node_Allocatable node).

(** [None] is the nil returned when a quantity does not parse. *)
Definition ParseResource (cpuStr memStr : string) : option Resource :=
  if (cpuStr =s "") && (memStr =s "") then None
  else
    let cpu :=
      if cpuStr <>s "" then
        match ParseQuantity cpuStr with
        | Some vcore => Some (AddResource ∅ CPU (q_MilliValue vcore))
        | None => None
        end
      else Some ∅ in
    match cpu with
    | None => None
    | Some result =>
        if memStr <>s "" then
          match ParseQuantity memStr with
          | Some mem => Some (AddResource result Memory (q_Value mem))
          | None => None
          end
        else Some result
    end.

Definition GetResource (resMap : gmap string string) : option Resource :=
  map_fold (λ resName resValue acc,
    match acc with
    | None => None
    | Some result =>
        match ParseQuantity resValue with
        | None => None
        | Some actualValue => Some (add_entry resName actualValue result)
        end
    end) (Some ∅) resMap.

(** [GetTGResource], over the entries of the map in the order [range]
    visits them. *)
Definition tg_entry (members : Z) (w : Resource) (kv : string * Quantity) : Resource :=
  if kv.1 =s ResourceCPU then AddResource w CPU (members *i64 q_MilliValue kv.2)
  else AddResource w kv.1 (members *i64 q_Value kv.2).

Definition GetTGResource_entries (entries : list (string * Quantity)) (members : Z) : Resource :=
  foldl (tg_entry members) (AddResource ∅ "pods" members) entries.

Definition GetTGResource `{MapOrder} (resMap : gmap string Quantity) (members : Z) : Resource :=
  GetTGResource_entries (go_range resMap) members.

End Resource.

(** ** Combining resources *)

Definition Add (left right : option Resource) : Resource :=
  let result := map_fold (λ k v r, <[k := v]> r) ∅ (res_of right) in
  map_fold (λ k v r,
    match r !! k with
    | Some er => <[k := er +i64 v]> r
    | None => <[k := v]> r
    end) result (res_of left).

Definition Sub (left right : option Resource) : Resource :=
  match right with
  | None => res_of left
  | Some rres =>
      map_fold (λ k v r,
        match r !! k with
        | None => <[k := wrap64 (- v)]> r
        | Some rv => <[k := rv -i64 v]> r
        end) (res_of left) rres
  end.

(** [updateMax] writes the merged values into its left argument. *)
Definition updateMax (left : Resource) (right : option Resource) : Resource :=
  map_fold (λ key rValue l,
    match l !! key with
    | None => <[key := rValue]> l
    | Some lValue => if (lValue <? rValue)%Z then <[key := rValue]> l else l
    end) left (res_of right).

(** Every entry of [left] is in [right] with the same value. *)
Definition entries_in (left right : option Resource) : bool :=
  bool_decide (map_Forall (λ k v, (right ≫= λ rres, rres !! k) = Some v) (res_of left)).

Definition Equals (left right : option Resource) : bool :=
  entries_in left right && entries_in right left.

Definition IsZero (r : option Resource) : bool :=
  bool_decide (map_Forall (λ _ v, v = 0%Z) (res_of r)).

(** ** The resources of a pod *)

Section PodResource.
Context `{QuantityOps}.

Definition isSideCarContainer (c : Container) : bool :=
  match c_RestartPolicy c with
  | Some policy => policy =s ContainerRestartPolicyAlways
  | None => false
  end.

Definition isResizeInfeasible (pod : Pod) : bool :=
  (st_Resize (pod_Status pod) =s PodResizeStatusInfeasible) ||
  existsb (λ condition,
    (cond_Type condition =s PodStatusPodResizePending) &&
    (cond_Reason condition =s PodResizeStatusInfeasible))
    (st_Conditions (pod_Status pod)).

(** The map from container names to statuses; a later entry replaces an
    earlier one, and init containers come last. *)
Definition containerStatuses (pod : Pod) : gmap string ContainerStatus :=
  foldl (λ m cs, <[cs_Name cs := cs]> m) ∅
    (st_ContainerStatuses (pod_Status pod) ++ st_InitContainerStatuses (pod_Status pod)).

Definition computeContainerResource (pod : Pod) (container : Container)
    (statuses : gmap string ContainerStatus) : Resource :=
  let combined := updateMax ∅ (Some (getResource (c_Requests container))) in
  match statuses !! c_Name container with
  | None => combined
  | Some containerStatus =>
      match isResizeInfeasible pod, cs_Resources containerStatus with
      | true, Some requests => getResource requests
      | _, resources =>
          let combined :=
            updateMax combined (Some (getResource (cs_AllocatedResources containerStatus))) in
          match resources with
          | Some requests => updateMax combined (Some (getResource requests))
          | None => combined
          end
      end
  end.

(** The loop over the init containers: the largest need so far and the
    resources of the sidecars started so far (nil at first). *)
Definition initContainerLoop (pod : Pod) (statuses : gmap string ContainerStatus)
    (acc : Resource * option Resource) (c : Container) : Resource * option Resource :=
  let '(initMax, sideCarRequests) := acc in
  let ICResource := computeContainerResource pod c statuses in
  let currentIC := Add (Some ICResource) sideCarRequests in
  let sideCarRequests' :=
    if isSideCarContainer c then Some (Add sideCarRequests (Some ICResource))
    else sideCarRequests in
  (updateMax initMax (Some currentIC), sideCarRequests').

Definition checkInitContainerRequest (pod : Pod) (containersResources : Resource)
    (statuses : gmap string ContainerStatus) : Resource :=
  let '(initMax, sideCarRequests) :=
    foldl (initContainerLoop pod statuses) (∅, None) (spec_InitContainers (pod_Spec pod)) in
  let containersResources := Add (Some containersResources) sideCarRequests in
  updateMax containersResources (Some initMax).

Definition GetPodResource (pod : Pod) : Resource :=
  let statuses := containerStatuses pod in
  let podResource :=
    foldl (λ acc container,
      Add (Some acc) (Some (computeContainerResource pod container statuses)))
      (<["pods" := 1%Z]> ∅) (spec_Containers (pod_Spec pod)) in
  let podResource :=
    match spec_InitContainers (pod_Spec pod) with
    | [] => podResource
    | _ => checkInitContainerRequest pod podResource statuses
    end in
  let podResource :=
    match spec_Resources (pod_Spec pod) with
    | Some requests =>
        if bool_decide (requests = ∅) then podResource
        else map_fold (λ name value r, <[name := value]> r) podResource
               (getPodLevelResource requests)
    | None => podResource
    end in
  match spec_Overhead (pod_Spec pod) with
  | Some overhead => Add (Some podResource) (Some (getResource overhead))
  | None => podResource
  end.

End PodResource.

(** ** Lemmas on the operations *)

Definition res_ok (r : Resource) : Prop := map_Forall (λ _ v, in_int64 v) r.

Lemma res_ok_empty : res_ok ∅.
Proof. apply map_Forall_empty. Qed.

Lemma res_ok_insert r k v : res_ok r → in_int64 v → res_ok (<[k := v]> r).
Proof. intros. by apply map_Forall_insert_2. Qed.

Lemma res_get_ok r k : res_ok r → in_int64 (res_get r k).
Proof.
  intros Hr. unfold res_get. destruct (r !! k) eqn:E; simpl; [by eapply Hr|].
  unfold in_int64, MinInt64, MaxInt64. lia.
Qed.

Lemma res_get_None r k : r !! k = None → res_get r k = 0%Z.
Proof. unfold res_get. by intros ->. Qed.

Lemma res_get_Some r k v : r !! k = Some v → res_get r k = v.
Proof. unfold res_get. by intros ->. Qed.

(** Case analysis on the lookups of a goal about merged resources. *)
Ltac res_cases :=
  repeat match goal with
  | |- context [match ?x !! ?k with _ => _ end] => destruct (x !! k) eqn:?
  end; simpl; try done.

Lemma lookup_Add l r k :
  Add l r !! k =
  match res_of l !! k, res_of r !! k with
  | Some a, Some b => Some (b +i64 a)
  | Some a, None => Some a
  | None, o => o
  end.
Proof.
  unfold Add. rewrite map_fold_copy, (right_id_L ∅ (∪)).
  rewrite (map_fold_pointwise _ (λ a o, Some (match o with Some b => b +i64 a | None => a end))).
  - res_cases.
  - intros i a r'. destruct (r' !! i); by rewrite lookup_insert_eq.
  - intros i j a r' Hij. destruct (r' !! i); by rewrite lookup_insert_ne.
Qed.

Lemma lookup_updateMax l r k :
  updateMax l r !! k =
  match res_of r !! k, l !! k with
  | Some b, Some a => Some (Z.max a b)
  | Some b, None => Some b
  | None, o => o
  end.
Proof.
  unfold updateMax.
  rewrite (map_fold_pointwise _ (λ b o, Some (match o with Some a => Z.max a b | None => b end))).
  - res_cases.
  - intros i b r'. destruct (r' !! i) as [a|] eqn:E; [|by rewrite lookup_insert_eq].
    destruct (Z.ltb_spec a b); [rewrite lookup_insert_eq|rewrite E]; do 2 f_equal; lia.
  - intros i j b r' Hij. destruct (r' !! i) as [a|] eqn:E; [|by rewrite lookup_insert_ne].
    destruct (a <? b)%Z; by rewrite ?lookup_insert_ne.
Qed.

Lemma lookup_Sub l r k :
  Sub l r !! k =
  match res_of r !! k, res_of l !! k with
  | Some b, Some a => Some (a -i64 b)
  | Some b, None => Some (wrap64 (- b))
  | None, o => o
  end.
Proof.
  destruct r as [r|]; simpl; [|done].
  rewrite (map_fold_pointwise _
    (λ b o, Some (match o with Some a => a -i64 b | None => wrap64 (- b) end))).
  - res_cases.
  - intros i b r'. destruct (r' !! i); by rewrite lookup_insert_eq.
  - intros i j b r' Hij. destruct (r' !! i); by rewrite lookup_insert_ne.
Qed.

Lemma res_get_Add l r k :
  res_ok (res_of l) → res_ok (res_of r) →
  res_get (Add l r) k = wrap64 (res_get (res_of l) k + res_get (res_of r) k).
Proof.
  intros Hl Hr. unfold res_get. rewrite lookup_Add. res_cases.
  - by rewrite Z.add_comm.
  - rewrite Z.add_0_r, wrap64_id; [done|by eapply Hl].
  - rewrite wrap64_id; [done|]. apply (res_get_ok _ k Hr).
Qed.

Lemma res_get_updateMax l r k :
  (0 <= res_get l k)%Z → (0 <= res_get (res_of r) k)%Z →
  res_get (updateMax l r) k = Z.max (res_get l k) (res_get (res_of r) k).
Proof. unfold res_get. rewrite lookup_updateMax. res_cases; lia. Qed.

Lemma res_ok_Add l r : res_ok (res_of l) → res_ok (res_of r) → res_ok (Add l r).
Proof.
  intros Hl Hr k v. rewrite lookup_Add.
  destruct (res_of l !! k) eqn:El, (res_of r !! k) eqn:Er; intros ?; simplify_eq/=;
    first [apply wrap64_range | by eapply Hl | by eapply Hr].
Qed.

Lemma res_ok_updateMax l r : res_ok l → res_ok (res_of r) → res_ok (updateMax l r).
Proof.
  intros Hl Hr k v. rewrite lookup_updateMax.
  destruct (res_of r !! k) as [b|] eqn:Er, (l !! k) as [a|] eqn:El; intros ?; simplify_eq/=;
    try (by eapply Hl); try (by eapply Hr).
  pose proof (Hl _ _ El). pose proof (Hr _ _ Er). simpl in *.
  destruct (Z.max_spec a b) as [[? ->]|[? ->]]; done.
Qed.

#[export] Hint Resolve res_ok_empty res_ok_insert res_ok_Add res_ok_updateMax : shim.

(** [getResource] yields [int64] values. *)
Section PodResourceFacts.
Context `{QuantityLaws}.

Lemma res_ok_getResource rl : res_ok (getResource rl).
Proof.
  unfold getResource.
  apply (map_fold_weak_ind (λ r _, res_ok r)); [by apply res_ok_empty|].
  intros i q m r _ IH. unfold add_entry, AddResource.
  case_bool_decide; apply res_ok_insert; auto using q_Value_range, q_MilliValue_range.
Qed.

(** A resource list all of whose values are read as non-negative. *)
Definition list_nonneg (rl : ResourceList) : Prop :=
  map_Forall (λ _ q, (0 <= q_Value q)%Z ∧ (0 <= q_MilliValue q)%Z) rl.

Definition res_nonneg (r : Resource) : Prop := ∀ k, (0 <= res_get r k)%Z.

Lemma res_nonneg_insert r k v : res_nonneg r → (0 <= v)%Z → res_nonneg (<[k := v]> r).
Proof.
  intros Hr Hv k'. unfold res_get. destruct (decide (k = k')) as [->|].
  - by rewrite lookup_insert_eq.
  - rewrite lookup_insert_ne by done. apply Hr.
Qed.

Lemma res_nonneg_empty : res_nonneg ∅.
Proof. intros k. unfold res_get. by rewrite lookup_empty. Qed.

Lemma res_nonneg_getResource rl : list_nonneg rl → res_nonneg (getResource rl).
Proof.
  unfold getResource. intros Hrl.
  apply (map_fold_weak_ind (λ r m, list_nonneg m → res_nonneg r)); [| |done].
  { intros _. apply res_nonneg_empty. }
  intros i q m r Hi IH Hm. apply map_Forall_insert in Hm as [[] Hm]; [|done].
  unfold add_entry, AddResource. case_bool_decide; apply res_nonneg_insert; auto.
Qed.

Lemma res_nonneg_updateMax l r :
  res_nonneg l → res_nonneg (res_of r) → res_nonneg (updateMax l r).
Proof. intros Hl Hr k. rewrite res_get_updateMax by auto. specialize (Hl k). lia. Qed.

(** The quantities a container reports, in its requests and in its status. *)
Definition container_nonneg (c : Container) (statuses : gmap string ContainerStatus) : Prop :=
  list_nonneg (c_Requests c) ∧
  (∀ cs, statuses !! c_Name c = Some cs →
     list_nonneg (cs_AllocatedResources cs) ∧
     (∀ rl, cs_Resources cs = Some rl → list_nonneg rl)).

Lemma res_ok_computeContainerResource pod c statuses :
  res_ok (computeContainerResource pod c statuses).
Proof.
  unfold computeContainerResource.
  repeat case_match; eauto 6 using res_ok_updateMax, res_ok_getResource, res_ok_empty;
    repeat apply res_ok_updateMax; auto using res_ok_getResource, res_ok_empty.
Qed.

Lemma res_nonneg_computeContainerResource pod c statuses :
  container_nonneg c statuses → res_nonneg (computeContainerResource pod c statuses).
Proof.
  intros [Hr Hs]. unfold computeContainerResource.
  destruct (statuses !! c_Name c) as [cs|] eqn:E; [destruct (Hs cs eq_refl) as [Ha Hcs]|];
    repeat case_match; repeat apply res_nonneg_updateMax; simpl;
    eauto using res_nonneg_getResource, res_nonneg_empty.
Qed.

End PodResourceFacts.

(** ** The pod request as Kubernetes documents it

    For every resource: the containers and the sidecars run together, an
    init container runs with the sidecars started before it, the larger need
    counts; pod-level requests replace the result and the overhead is added.
    Here the numbers are unbounded. *)

Section PodRequest.
Context `{QuantityOps}.

Fixpoint sum_by {A} (f : A → Z) (l : list A) : Z :=
  match l with [] => 0 | a :: l' => f a + sum_by f l' end%Z.

(** [inits] lists, for each init container, whether it is a sidecar and what
    it requests. *)
Fixpoint init_need (running : Z) (inits : list (bool * Z)) : Z :=
  match inits with
  | [] => 0
  | (sidecar, r) :: inits' =>
      Z.max (running + r) (init_need (if sidecar then running + r else running) inits')
  end%Z.

Definition sidecar_sum (inits : list (bool * Z)) : Z :=
  sum_by (λ '(sidecar, r), if (sidecar : bool) then r else 0%Z) inits.

Definition container_request (pod : Pod) (k : string) (c : Container) : Z :=
  res_get (computeContainerResource pod c (containerStatuses pod)) k.

Definition init_requests (pod : Pod) (k : string) : list (bool * Z) :=
  map (λ c, (isSideCarContainer c, container_request pod k c)) (spec_InitContainers (pod_Spec pod)).

Definition overhead_request (pod : Pod) (k : string) : Z :=
  match spec_Overhead (pod_Spec pod) with
  | Some overhead => res_get (getResource overhead) k
  | None => 0
  end.

Definition container_level_request (pod : Pod) (k : string) : Z :=
  Z.max
    ((if k =s "pods" then 1 else 0) +
     sum_by (container_request pod k) (spec_Containers (pod_Spec pod)) +
     sidecar_sum (init_requests pod k))
    (init_need 0 (init_requests pod k)).

Definition pod_level_request (pod : Pod) (k : string) : option Z :=
  spec_Resources (pod_Spec pod) ≫= λ requests, getPodLevelResource requests !! k.

Definition pod_request (pod : Pod) (k : string) : Z :=
  (default (container_level_request pod k) (pod_level_request pod k) +
   overhead_request pod k)%Z.

(** Every request is non-negative and the sum of all of them is an [int64]. *)
Record pod_fits (pod : Pod) : Prop := {
  pf_containers : Forall (λ c, container_nonneg c (containerStatuses pod))
    (spec_Containers (pod_Spec pod) ++ spec_InitContainers (pod_Spec pod));
  pf_overhead k : (0 <= overhead_request pod k)%Z;
  pf_pod_level k : (0 <= default 0 (pod_level_request pod k))%Z;
  pf_sum k :
    (1 + sum_by (container_request pod k) (spec_Containers (pod_Spec pod)) +
     sum_by (container_request pod k) (spec_InitContainers (pod_Spec pod)) +
     default 0 (pod_level_request pod k) + overhead_request pod k <= MaxInt64)%Z
}.

End PodRequest.

Section PodRequestFacts.
Context `{QuantityLaws}.

Lemma sum_by_nonneg {A} (f : A → Z) l : Forall (λ a, 0 <= f a)%Z l → (0 <= sum_by f l)%Z.
Proof. induction 1; simpl; lia. Qed.

Lemma sidecar_sum_bounds pod k cs :
  Forall (λ c, 0 <= container_request pod k c)%Z cs →
  (0 <= sidecar_sum (map (λ c, (isSideCarContainer c, container_request pod k c)) cs)
     <= sum_by (container_request pod k) cs)%Z.
Proof.
  unfold sidecar_sum. induction 1 as [|c cs Hc _ IH]; simpl; [lia|].
  destruct (isSideCarContainer c); simpl; lia.
Qed.

Lemma init_need_bound pod k cs running :
  Forall (λ c, 0 <= container_request pod k c)%Z cs → (0 <= running)%Z →
  (0 <= init_need running (map (λ c, (isSideCarContainer c, container_request pod k c)) cs)
     <= running + sum_by (container_request pod k) cs)%Z.
Proof.
  intros Hcs. revert running. induction Hcs as [|c cs Hc Hcs IH]; intros running Hr; simpl; [lia|].
  pose proof (sum_by_nonneg (container_request pod k) _ Hcs).
  destruct (isSideCarContainer c);
    [specialize (IH (running + container_request pod k c)%Z)|specialize (IH running)]; lia.
Qed.

(** The loop over the containers. *)
Lemma foldl_containers pod k cs acc :
  res_ok acc → (0 <= res_get acc k)%Z →
  Forall (λ c, 0 <= container_request pod k c)%Z cs →
  (res_get acc k + sum_by (container_request pod k) cs <= MaxInt64)%Z →
  let r := foldl (λ acc c, Add (Some acc)
             (Some (computeContainerResource pod c (containerStatuses pod)))) acc cs in
  res_ok r ∧ res_get r k = (res_get acc k + sum_by (container_request pod k) cs)%Z.
Proof.
  revert acc. induction cs as [|c cs IH]; intros acc Hok Hpos Hcs Hmax; simpl.
  { split; [done|lia]. }
  apply Forall_cons in Hcs as [Hc Hcs]. simpl in Hmax.
  pose proof (sum_by_nonneg (container_request pod k) _ Hcs) as Hsum.
  assert (Hadd : res_get (Add (Some acc)
      (Some (computeContainerResource pod c (containerStatuses pod)))) k =
      (res_get acc k + container_request pod k c)%Z).
  { rewrite res_get_Add by (simpl; auto using res_ok_computeContainerResource). simpl.
    apply wrap64_id. fold (container_request pod k c).
    unfold in_int64, MinInt64. simpl in *. lia. }
  destruct (IH (Add (Some acc) (Some (computeContainerResource pod c (containerStatuses pod)))))
    as [Hr1 Hr2]; [|lia|done|lia|].
  - apply res_ok_Add; simpl; auto using res_ok_computeContainerResource.
  - split; [done|]. rewrite Hr2, Hadd. lia.
Qed.

(** The loop over the init containers. *)
Lemma foldl_init_containers pod k cs m s :
  res_ok m → res_ok (res_of s) → (0 <= res_get m k)%Z → (0 <= res_get (res_of s) k)%Z →
  Forall (λ c, 0 <= container_request pod k c)%Z cs →
  (res_get (res_of s) k + sum_by (container_request pod k) cs <= MaxInt64)%Z →
  let inits := map (λ c, (isSideCarContainer c, container_request pod k c)) cs in
  let '(m', s') := foldl (initContainerLoop pod (containerStatuses pod)) (m, s) cs in
  res_ok m' ∧ res_ok (res_of s') ∧
  res_get m' k = Z.max (res_get m k) (init_need (res_get (res_of s) k) inits) ∧
  res_get (res_of s') k = (res_get (res_of s) k + sidecar_sum inits)%Z.
Proof.
  revert m s. induction cs as [|c cs IH]; intros m s Hm Hs Hm0 Hs0 Hcs Hmax.
  { simpl. split_and!; try done; unfold sidecar_sum; simpl; lia. }
  apply Forall_cons in Hcs as [Hc Hcs]. simpl in Hmax.
  pose proof (sum_by_nonneg (container_request pod k) _ Hcs) as Hsum.
  set (ic := computeContainerResource pod c (containerStatuses pod)).
  assert (Hic : res_ok ic) by apply res_ok_computeContainerResource.
  assert (Hicur : container_request pod k c = res_get ic k) by done.
  assert (Hcur : res_get (Add (Some ic) s) k = (res_get (res_of s) k + res_get ic k)%Z).
  { rewrite res_get_Add by done. simpl. rewrite wrap64_id; [lia|].
    unfold in_int64, MinInt64. lia. }
  assert (Hcur' : res_get (Add s (Some ic)) k = (res_get (res_of s) k + res_get ic k)%Z).
  { rewrite res_get_Add by done. simpl. rewrite wrap64_id; [lia|].
    unfold in_int64, MinInt64. lia. }
  set (s' := if isSideCarContainer c then Some (Add s (Some ic)) else s).
  assert (Hs' : res_ok (res_of s')).
  { unfold s'. destruct (isSideCarContainer c); simpl; [apply res_ok_Add|]; done. }
  assert (Hsg : res_get (res_of s') k =
    (if isSideCarContainer c then res_get (res_of s) k + res_get ic k else res_get (res_of s) k)%Z).
  { unfold s'. destruct (isSideCarContainer c); simpl; [apply Hcur'|done]. }
  assert (Hmg : res_get (updateMax m (Some (Add (Some ic) s))) k =
    Z.max (res_get m k) (res_get (res_of s) k + res_get ic k)).
  { rewrite res_get_updateMax; simpl; lia. }
  specialize (IH (updateMax m (Some (Add (Some ic) s))) s').
  cbn [foldl initContainerLoop]. fold ic. fold s'.
  destruct (foldl _ _ cs) as [m'' s''].
  destruct IH as (IH1 & IH2 & IH3 & IH4); try done.
  - apply res_ok_updateMax; [done|]. apply res_ok_Add; done.
  - rewrite Hmg. lia.
  - rewrite Hsg. destruct (isSideCarContainer c); lia.
  - rewrite Hsg. destruct (isSideCarContainer c); lia.
  - split_and!; [done..| |].
    + rewrite IH3, Hmg, Hsg. cbn [map init_need]. rewrite Hicur. lia.
    + rewrite IH4, Hsg. unfold sidecar_sum. cbn [map sum_by]. rewrite Hicur.
      destruct (isSideCarContainer c); lia.
Qed.

End PodRequestFacts.

(** ** Theorems *)

Section ResourceTheorems.
Context `{QuantityLaws}.

Lemma container_request_nonneg pod k cs :
  Forall (λ c, container_nonneg c (containerStatuses pod)) cs →
  Forall (λ c, 0 <= container_request pod k c)%Z cs.
Proof.
  intros Hcs. eapply Forall_impl; [exact Hcs|]. intros c Hc.
  by apply res_nonneg_computeContainerResource.
Qed.

(** The facts about the sums at one resource name the proofs below need. *)
Lemma pod_fits_at pod k :
  pod_fits pod →
  Forall (λ c, 0 <= container_request pod k c)%Z (spec_Containers (pod_Spec pod)) ∧
  Forall (λ c, 0 <= container_request pod k c)%Z (spec_InitContainers (pod_Spec pod)) ∧
  (0 <= sum_by (container_request pod k) (spec_Containers (pod_Spec pod)))%Z ∧
  (0 <= sum_by (container_request pod k) (spec_InitContainers (pod_Spec pod)))%Z.
Proof.
  intros [Hcs _ _ _]. apply Forall_app in Hcs as [Hc Hi].
  apply (container_request_nonneg _ k) in Hc, Hi.
  split_and!; try done; by apply sum_by_nonneg.
Qed.

Lemma res_get_one_pod k :
  res_get (<["pods" := 1%Z]> ∅) k = if k =s "pods" then 1%Z else 0%Z.
Proof.
  unfold res_get. case_bool_decide; [subst; by rewrite lookup_insert_eq|].
  by rewrite lookup_insert_ne.
Qed.

(** The resources after the loop over the containers. *)
Lemma containers_sum pod k :
  pod_fits pod →
  let r := foldl (λ acc c,
      Add (Some acc) (Some (computeContainerResource pod c (containerStatuses pod))))
      (<["pods" := 1%Z]> ∅) (spec_Containers (pod_Spec pod)) in
  res_ok r ∧
  res_get r k = ((if k =s "pods" then 1 else 0) +
    sum_by (container_request pod k) (spec_Containers (pod_Spec pod)))%Z.
Proof.
  intros Hfits. destruct (pod_fits_at pod k Hfits) as (Hc & _ & ? & ?).
  destruct Hfits as [_ Hov Hpl Hsum].
  specialize (Hov k). specialize (Hpl k). specialize (Hsum k).
  rewrite <- res_get_one_pod.
  apply foldl_containers; rewrite ?res_get_one_pod; try done;
    [apply res_ok_insert; [apply res_ok_empty|done]|case_bool_decide; lia..].
Qed.

(** The resources after the loop over the init containers. *)
Lemma checkInitContainerRequest_get pod k r :
  pod_fits pod → res_ok r →
  res_get r k = ((if k =s "pods" then 1 else 0) +
    sum_by (container_request pod k) (spec_Containers (pod_Spec pod)))%Z →
  let r' := checkInitContainerRequest pod r (containerStatuses pod) in
  res_ok r' ∧ res_get r' k = container_level_request pod k.
Proof.
  intros Hfits Hok Hget. destruct (pod_fits_at pod k Hfits) as (_ & Hi & ? & ?).
  destruct Hfits as [_ Hov Hpl Hsum].
  specialize (Hov k). specialize (Hpl k). specialize (Hsum k).
  pose proof (sidecar_sum_bounds pod k _ Hi) as Hside.
  pose proof (init_need_bound pod k _ 0 Hi ltac:(lia)).
  pose proof (foldl_init_containers pod k (spec_InitContainers (pod_Spec pod)) ∅ None) as Hinit.
  unfold checkInitContainerRequest, container_level_request, init_requests.
  destruct (foldl (initContainerLoop _ _) _ _) as [m s].
  simpl res_of in Hinit. change (res_get ∅ k) with 0%Z in Hinit.
  destruct Hinit as (Hm & Hs & Hmg & Hsg); try done; try lia.
  assert (Ha : res_get (Add (Some r) s) k = (res_get r k + res_get (res_of s) k)%Z).
  { rewrite res_get_Add by done. simpl. apply wrap64_id.
    rewrite Hget, Hsg. unfold in_int64, MinInt64. case_bool_decide; lia. }
  split; [by apply res_ok_updateMax; [apply res_ok_Add|]|].
  rewrite res_get_updateMax; simpl res_of; rewrite ?Ha, ?Hget, ?Hsg, ?Hmg; case_bool_decide; lia.
Qed.

Lemma container_level_ok pod k :
  pod_fits pod →
  let r := foldl (λ acc c,
      Add (Some acc) (Some (computeContainerResource pod c (containerStatuses pod))))
      (<["pods" := 1%Z]> ∅) (spec_Containers (pod_Spec pod)) in
  let base := match spec_InitContainers (pod_Spec pod) with
    | [] => r
    | _ => checkInitContainerRequest pod r (containerStatuses pod)
    end in
  res_ok base ∧ res_get base k = container_level_request pod k.
Proof.
  intros Hfits r base. destruct (containers_sum pod k Hfits) as [Hok Hget].
  destruct (checkInitContainerRequest_get pod k r Hfits Hok Hget) as [Hok' Hget'].
  subst base. destruct (spec_InitContainers (pod_Spec pod)) eqn:Ei; [|done].
  split; [done|]. fold r in Hget. rewrite Hget.
  destruct (pod_fits_at pod k Hfits) as (_ & _ & ? & _).
  unfold container_level_request, init_requests, sidecar_sum. rewrite Ei. simpl.
  case_bool_decide; lia.
Qed.

Lemma container_level_bound pod k :
  pod_fits pod →
  (0 <= container_level_request pod k <= 1 +
    sum_by (container_request pod k) (spec_Containers (pod_Spec pod)) +
    sum_by (container_request pod k) (spec_InitContainers (pod_Spec pod)))%Z.
Proof.
  intros Hfits. destruct (pod_fits_at pod k Hfits) as (_ & Hi & ? & ?).
  pose proof (sidecar_sum_bounds pod k _ Hi).
  pose proof (init_need_bound pod k _ 0 Hi ltac:(lia)).
  unfold container_level_request, init_requests. case_bool_decide; lia.
Qed.

Lemma getPodLevelResource_empty : getPodLevelResource ∅ = ∅.
Proof. done. Qed.

Lemma res_ok_getPodLevelResource rl : res_ok (getPodLevelResource rl).
Proof.
  unfold getPodLevelResource.
  apply (map_fold_weak_ind (λ r _, res_ok r)); [by apply res_ok_empty|].
  intros i q m r _ IH. destruct (IsSupportedPodLevelResource i); [|done].
  unfold add_entry, AddResource.
  case_bool_decide; apply res_ok_insert; auto using q_Value_range, q_MilliValue_range.
Qed.

(** Pod-level requests replace what the containers add up to. *)
Lemma pod_level_override pod k base :
  res_ok base →
  let r := match spec_Resources (pod_Spec pod) with
    | Some requests =>
        if bool_decide (requests = ∅) then base
        else map_fold (λ name value r, <[name := value]> r) base (getPodLevelResource requests)
    | None => base
    end in
  res_ok r ∧ res_get r k = default (res_get base k) (pod_level_request pod k).
Proof.
  intros Hok r. subst r. unfold pod_level_request.
  destruct (spec_Resources (pod_Spec pod)) as [rq|]; simpl; [|done].
  case_bool_decide as Hrq.
  { subst rq. by rewrite getPodLevelResource_empty, lookup_empty. }
  rewrite map_fold_copy. pose proof (res_ok_getPodLevelResource rq) as Hpl. split.
  - intros i x. rewrite lookup_union_Some_raw. intros [?|[_ ?]]; [by eapply Hpl|by eapply Hok].
  - unfold res_get at 1. rewrite lookup_union.
    destruct (getPodLevelResource rq !! k); simpl; [by destruct (base !! k)|].
    by rewrite (left_id_L None _).
Qed.

(** C38: for a pod whose requests are non-negative and fit an [int64] in total,
    [GetPodResource] lists under every resource name exactly the documented pod
    request: containers plus sidecars or the largest init phase, whichever is
    more, replaced by the pod-level request where there is one, plus the
    overhead; one pod is counted, and no addition of the loops overflows. *)
Theorem GetPodResource_is_pod_request pod k :
  pod_fits pod → res_get (GetPodResource pod) k = pod_request pod k.
Proof.
  intros Hfits. destruct (container_level_ok pod k Hfits) as [Hok Hget].
  pose proof (container_level_bound pod k Hfits) as Hb.
  destruct (pod_fits_at pod k Hfits) as (_ & _ & ? & ?).
  destruct Hfits as [_ Hov Hpl Hsum].
  specialize (Hov k). specialize (Hpl k). specialize (Hsum k).
  unfold GetPodResource, pod_request.
  set (base := match spec_InitContainers _ with [] => _ | _ => _ end) in *.
  destruct (pod_level_override pod k base Hok) as [Hok2 Hget2].
  set (r := match spec_Resources _ with Some _ => _ | None => _ end) in *.
  rewrite Hget in Hget2. unfold overhead_request in *.
  destruct (spec_Overhead (pod_Spec pod)) as [ov|]; [|by rewrite Hget2, Z.add_0_r].
  rewrite res_get_Add by (simpl; auto using res_ok_getResource).
  simpl res_of. rewrite Hget2. apply wrap64_id.
  unfold in_int64, MinInt64. destruct (pod_level_request pod k); simpl in *; lia.
Qed.

(** The documented request of such a pod is an [int64]. *)
Lemma pod_request_bound pod k :
  pod_fits pod → (0 <= pod_request pod k <= MaxInt64)%Z.
Proof.
  intros Hfits. pose proof (container_level_bound pod k Hfits) as Hb.
  destruct (pod_fits_at pod k Hfits) as (_ & _ & ? & ?).
  destruct Hfits as [_ Hov Hpl Hsum].
  specialize (Hov k). specialize (Hpl k). specialize (Hsum k).
  unfold pod_request. destruct (pod_level_request pod k); simpl in *; lia.
Qed.

End ResourceTheorems.

(** A pod with two containers, a sidecar and an init container. *)
Definition example_pod : Pod :=
  mkPod "p" "default" "uid-1" ∅ ∅ 0 []
    (spec_ref "" [container_ref "a" 500 100 None; container_ref "b" 250 100 None]
       [container_ref "s" 100 50 (Some ContainerRestartPolicyAlways);
        container_ref "i" 2000 10 None]
       (Some (<["memory" := mkQuantity 7000000000]> ∅)) [])
    (status_ref PodPending).

(** A resource lists nothing but the given names. *)
Lemma res_get_other (r : Resource) (names : list string) k :
  bool_decide (dom r ⊆@{gset string} list_to_set names) = true → k ∉ names → res_get r k = 0%Z.
Proof.
  intros Hd%bool_decide_eq_true_1 Hk. apply res_get_None, not_elem_of_dom. set_solver.
Qed.

Definition example_names : list string := ["vcore"; "memory"; "pods"].

Lemma example_pod_other k :
  k ∉ example_names →
  (∀ c, c ∈ spec_Containers (pod_Spec example_pod) ++ spec_InitContainers (pod_Spec example_pod) →
     container_request example_pod k c = 0%Z) ∧ overhead_request example_pod k = 0%Z.
Proof.
  intros Hk. split; [|apply (res_get_other _ example_names); [reflexivity|done]].
  intros c Hc. apply (res_get_other _ example_names); [|done].
  simpl in Hc. rewrite !elem_of_cons, elem_of_nil in Hc.
  destruct Hc as [->|[->|[->|[->|[]]]]]; reflexivity.
Qed.

Lemma example_pod_fits : pod_fits example_pod.
Proof.
  split.
  - apply Forall_forall. intros c Hc.
    change (containerStatuses example_pod) with (∅ : gmap string ContainerStatus).
    split; [|by intros cs Hcs; apply lookup_empty_Some in Hcs].
    simpl in Hc. rewrite !elem_of_cons, elem_of_nil in Hc.
    destruct Hc as [->|[->|[->|[->|[]]]]];
      apply (bool_decide_eq_true_1 (map_Forall _ _)); vm_compute; reflexivity.
  - intros k. destruct (decide (k ∈ example_names)) as [Hk|Hk].
    + unfold example_names in Hk. rewrite !elem_of_cons, elem_of_nil in Hk.
      destruct Hk as [->|[->|[->|[]]]]; by vm_compute.
    + by rewrite (proj2 (example_pod_other k Hk)).
  - intros k. by vm_compute.
  - intros k. destruct (decide (k ∈ example_names)) as [Hk|Hk].
    + unfold example_names in Hk. rewrite !elem_of_cons, elem_of_nil in Hk.
      destruct Hk as [->|[->|[->|[]]]]; by vm_compute.
    + destruct (example_pod_other k Hk) as [Hc Ho]. rewrite Ho.
      cbn [spec_Containers spec_InitContainers pod_Spec example_pod spec_ref sum_by].
      rewrite !Hc by (simpl; rewrite !elem_of_cons; tauto).
      change (pod_level_request example_pod k) with (@None Z). by vm_compute.
Qed.

Lemma GetPodResource_is_pod_request_witness :
  res_get (GetPodResource example_pod) "vcore" = 2100%Z ∧
  res_get (GetPodResource example_pod) "memory" = 257%Z.
Proof.
  split; rewrite (GetPodResource_is_pod_request example_pod _ example_pod_fits); reflexivity.
Defined.

(** [Add] makes resources a commutative monoid with nil as unit, whatever
    the values: the order in which requests are accumulated does not matter,
    even where the 64-bit additions wrap around. *)
Theorem Add_commutative_monoid (a b c : option Resource) :
  Add a b = Add b a ∧
  Add (Some (Add a b)) c = Add a (Some (Add b c)) ∧
  Add a None = res_of a.
Proof.
  split_and!; apply map_eq; intros k; rewrite ?lookup_Add; simpl res_of; rewrite ?lookup_Add;
    res_cases; simplify_eq/=; rewrite ?wrap64_add_l, ?wrap64_add_r;
    try done; apply (f_equal (λ z, Some (wrap64 z))); lia.
Qed.

(** [Sub] undoes [Add]: taking [b] away from the sum of [a] and [b] leaves
    under every name the value [a] has there, also when the addition wrapped. *)
Theorem Sub_undoes_Add (a b : Resource) k :
  res_ok a → res_ok b → res_get (Sub (Some (Add (Some a) (Some b))) (Some b)) k = res_get a k.
Proof.
  intros Ha Hb. pose proof (res_get_ok a k Ha) as Hak.
  unfold res_get in *. rewrite lookup_Sub. simpl. rewrite lookup_Add. simpl.
  destruct (a !! k) as [x|], (b !! k) as [y|]; simpl in *; try done.
  - rewrite <- (wrap64_id x) at 2 by done. unfold Z.sub. rewrite wrap64_add_l. f_equal. lia.
  - by rewrite Z.sub_diag.
Qed.

Lemma Sub_undoes_Add_witness :
  res_get (Sub (Some (Add (Some {["vcore" := MaxInt64]}) (Some {["vcore" := 5%Z]})))
    (Some {["vcore" := 5%Z]})) "vcore" = MaxInt64.
Proof.
  refine (Sub_undoes_Add _ _ "vcore" _ _);
    apply map_Forall_singleton; by vm_compute.
Defined.

(** [Equals] decides equality of the listed resources: it is true exactly
    when both sides list the same names with the same values, a nil resource
    counting as an empty one. *)
Theorem Equals_decides_equality (l r : option Resource) :
  Equals l r = true ↔ res_of l = res_of r.
Proof.
  assert (Hin : ∀ l r, entries_in l r = true ↔ res_of l ⊆ res_of r).
  { intros l' r'. unfold entries_in. rewrite bool_decide_eq_true, map_subseteq_spec.
    unfold map_Forall. destruct r' as [r'|]; simpl; [done|].
    split; intros Hl i x Hx; specialize (Hl i x Hx); [done|]. by rewrite lookup_empty in Hl. }
  unfold Equals. rewrite andb_true_iff, !Hin. split.
  - intros [H1 H2]. by apply (anti_symm (⊆)).
  - by intros ->.
Qed.
