(* ===== verification/PodUtils.v ===== *)
(** * Pod helpers: [pkg/common/utils/utils.go]

    Reading the application, queue, user and gang information of a pod from
    its labels and annotations.  The settings the source reads from the global
    scheduler configuration are arguments.  [encoding/json] is the class
    [JsonOps]: what it makes of a document is not used by any theorem. *)

From S2P Require Import Prelude.
From S2P Require Import GoStrings.
From S2P Require Import K8sApi.
From S2P Require Import K8sInstances.
From S2P Require Import Constants.
From S2P Require Import Resource.

(** [json.Unmarshal] into the types the shim uses; [None] is an error. *)
Class JsonOps := {
  json_string_map : string → option (gmap string string);
  json_user_group : string → option (string * list string)
}.

(** The pod helpers of Kubernetes: finding a condition by its type, and setting
    a condition (the new status, and whether it changed). *)
Class PodHelpers := {
  GetPodCondition : PodStatus → string → option PodCondition;
  podutil_UpdatePodCondition : PodStatus → PodCondition → PodStatus * bool
}.

Definition userInfoKey : string := DomainYuniKorn +:+ "user.info".
Definition uniqueAutogenSuffix : string := "-uniqueautogen".

(** ** Informer objects

    What an informer hands to an event handler: an object of a kind, or the
    tombstone of an object whose deletion was missed. *)
Inductive InformerObject :=
  | ObjPod (p : Pod)
  | ObjNode (n : Node)
  | ObjConfigMap (cm : ConfigMap)
  | ObjPriorityClass (pc : PriorityClass)
  | ObjNamespace (ns : Namespace)
  | ObjTombstone (o : InformerObject)
  | ObjOther.

Definition Convert2Pod (obj : InformerObject) : option Pod :=
  match obj with ObjPod p => Some p | _ => None end.

Definition Convert2ConfigMap (obj : InformerObject) : option ConfigMap :=
  match obj with ObjConfigMap cm => Some cm | _ => None end.

Definition Convert2PriorityClass (obj : InformerObject) : option PriorityClass :=
  match obj with ObjPriorityClass pc => Some pc | _ => None end.

(** ** Pod state *)

Definition IsPodRunning (pod : Pod) : bool := pod_Phase pod =s PodRunning.

Definition IsPodTerminated (pod : Pod) : bool :=
  (pod_Phase pod =s PodFailed) || (pod_Phase pod =s PodSucceeded).

Definition IsAssignedPod (pod : Pod) : bool :=
  negb (Nat.eqb (String.length (pod_NodeName pod)) 0).

Definition PodUnderCondition `{PodHelpers} (pod : Pod) (condition : PodCondition) : bool :=
  match GetPodCondition (pod_Status pod) (cond_Type condition) with
  | Some current =>
      (cond_Status current =s cond_Status condition) &&
      (cond_Reason current =s cond_Reason condition)
  | None => false
  end.

(** ** Labels and annotations *)

Definition GetPodAnnotationValue (pod : Pod) (annotationKey : string) : string :=
  match pod_Annotations pod !! annotationKey with Some value => value | None => "" end.

Definition GetPodLabelValue (pod : Pod) (labelKey : string) : string :=
  match pod_Labels pod !! labelKey with Some value => value | None => "" end.

Definition GetNameSpaceAnnotationValue (namespace : Namespace) (annotationKey : string) : string :=
  match ns_Annotations namespace !! annotationKey with Some value => value | None => "" end.

Definition GetTaskGroupFromPodSpec (pod : Pod) : string :=
  GetPodAnnotationValue pod AnnotationTaskGroupName.

Definition GetPlaceholderFlagFromPodSpec `{SiConstants} (pod : Pod) : bool :=
  let value := GetPodAnnotationValue pod AnnotationPlaceholderFlag in
  if value <>s "" then
    match ParseBool value with Some v => v | None => false end
  else false.

Definition GetQueueNameFromPod (pod : Pod) : string :=
  let canonicalLabelQueueName := GetPodLabelValue pod CanonicalLabelQueueName in
  if canonicalLabelQueueName <>s "" then canonicalLabelQueueName
  else
    let annotationQueueName := GetPodAnnotationValue pod AnnotationQueueName in
    if annotationQueueName <>s "" then annotationQueueName
    else
      let labelQueueName := GetPodLabelValue pod LabelQueueName in
      if labelQueueName <>s "" then labelQueueName else "".

(** ** Application IDs *)

Definition GenerateApplicationID (namespace : string) (generateUniqueAppIds : bool)
    (podUID : string) : string :=
  let generatedID :=
    if generateUniqueAppIds then
      if podUID =s "" then truncate 26 namespace +:+ uniqueAutogenSuffix
      else truncate 26 namespace +:+ "-" +:+ podUID
    else AutoGenAppPrefix +:+ "-" +:+ namespace +:+ "-" +:+ AutoGenAppSuffix in
  truncate 63 generatedID.

(** The loop over the label keys: the value of the last key tried. *)
Fixpoint firstLabelValue (pod : Pod) (labelKeys : list string) (appID : string) : string :=
  match labelKeys with
  | [] => appID
  | label :: rest =>
      let appID := GetPodLabelValue pod label in
      if appID <>s "" then appID else firstLabelValue pod rest appID
  end.

Definition GetApplicationIDFromPod (generateUniqueAppIds : bool) (pod : Pod) : string :=
  if spec_SchedulerName (pod_Spec pod) <>s SchedulerName then ""
  else
    let appID := GetPodLabelValue pod CanonicalLabelApplicationID in
    let appID :=
      if appID =s "" then GetPodAnnotationValue pod AnnotationApplicationID else appID in
    let appID :=
      if appID =s "" then firstLabelValue pod [LabelApplicationID; SparkLabelAppID] appID
      else appID in
    let appID :=
      if HasSuffix appID uniqueAutogenSuffix
      then TrimSuffix appID uniqueAutogenSuffix +:+ "-" +:+ pod_UID pod
      else appID in
    if appID <>s "" then appID
    else GenerateApplicationID (pod_Namespace pod) generateUniqueAppIds (pod_UID pod).

Definition PodAlreadyBound (generateUniqueAppIds : bool) (pod : Pod) : bool :=
  (GetApplicationIDFromPod generateUniqueAppIds pod <>s "") &&
  IsAssignedPod pod && negb (IsPodTerminated pod).

(** The values, at the given keys, that are set and differ from [currentValue]. *)
Definition ignored_values (read : string → string) (currentValue : string)
    (keys : list string) : gmap string string :=
  foldl (λ ignored key,
    let value := read key in
    if (value =s "") || (value =s currentValue) then ignored
    else <[key := value]> ignored) ∅ keys.

Definition GetIgnoredLabelAnnotationInPod (pod : Pod) (currentValue : string)
    (labelKeys annotationKeys : list string) : gmap string string * gmap string string :=
  (ignored_values (GetPodLabelValue pod) currentValue labelKeys,
   ignored_values (GetPodAnnotationValue pod) currentValue annotationKeys).

(** ** Namespace annotations *)

Definition GetNamespaceGuaranteedFromAnnotation `{QuantityOps} `{JsonOps}
    (namespaceObj : Namespace) : option Resource :=
  let guaranteed := GetNameSpaceAnnotationValue namespaceObj NamespaceGuaranteed in
  if guaranteed <>s "" then
    match json_string_map guaranteed with
    | None => None
    | Some namespaceGuaranteedMap => GetResource namespaceGuaranteedMap
    end
  else None.

Definition GetNamespaceMaxAppsFromAnnotation (namespaceObj : Namespace) : string :=
  let maxApps := GetNameSpaceAnnotationValue namespaceObj NamespaceMaxApps in
  if maxApps <>s "" then
    let '(numMaxApp, err) := Atoi maxApps in
    if (err : bool) then ""
    else if (numMaxApp <? 0)%Z then ""
    else maxApps
  else "".

Definition GetNamespaceQuotaFromAnnotation `{QuantityOps} `{JsonOps}
    (namespaceObj : Namespace) : option Resource :=
  let cpuQuota := GetNameSpaceAnnotationValue namespaceObj CPUQuota in
  let memQuota := GetNameSpaceAnnotationValue namespaceObj MemQuota in
  let namespaceQuota := GetNameSpaceAnnotationValue namespaceObj NamespaceQuota in
  if namespaceQuota <>s "" then
    match json_string_map namespaceQuota with
    | None => None
    | Some namespaceQuotaMap => GetResource namespaceQuotaMap
    end
  else if (cpuQuota <>s "") || (memQuota <>s "") then ParseResource cpuQuota memQuota
  else None.

(** ** Maps and configuration *)

Definition MergeMaps (first second : option (gmap string string)) :
    option (gmap string string) :=
  match first, second with
  | None, None => None
  | _, _ =>
      let result := map_fold (λ k v r, <[k := v]> r) ∅ (default ∅ first) in
      Some (map_fold (λ k v r, <[k := v]> r) result (default ∅ second))
  end.

Definition GetUserFromPod `{JsonOps} (pod : Pod) : string * list string :=
  if go_get (pod_Annotations pod) userInfoKey <>s "" then
    match json_user_group (go_get (pod_Annotations pod) userInfoKey) with
    | None => (DefaultUser, [])
    | Some (user, groups) => (if user =s "" then DefaultUser else user, groups)
    end
  else (DefaultUser, []).

Definition GetCoreSchedulerConfigFromConfigMap (policyGroup : string)
    (config : gmap string string) : string :=
  if Nat.eqb (size config) 0 then ""
  else match config !! (policyGroup +:+ ".yaml") with Some data => data | None => "" end.

Definition GetExtraConfigFromConfigMap (config : gmap string string) : gmap string string :=
  map_fold (λ k v result, if HasSuffix k ".yaml" then result else <[k := v]> result) ∅ config.

(** [WaitForCondition] polls [eval]; [now i] is the clock read in the [i]-th
    round.  [None]: the loop is still running after [fuel] rounds; [Some
    true]: the condition held; [Some false]: [ErrorTimeout]. *)
Fixpoint WaitForCondition_loop (eval : nat → bool) (now : nat → Z) (deadline : Z)
    (i fuel : nat) : option bool :=
  match fuel with
  | 0 => None
  | S fuel' =>
      if eval i then Some true
      else if (deadline <? now i)%Z then Some false
      else WaitForCondition_loop eval now deadline (S i) fuel'
  end.

Definition WaitForCondition (eval : nat → bool) (start : Z) (now : nat → Z) (timeout : Z)
    (fuel : nat) : option bool :=
  WaitForCondition_loop eval now (start + timeout) 0 fuel.

(** ** Lemmas *)

Lemma IsAssignedPod_spec pod : IsAssignedPod pod = negb (pod_NodeName pod =s "").
Proof. unfold IsAssignedPod. by destruct (pod_NodeName pod). Qed.

(** [truncate] is the identity on short ASCII strings. *)
Lemma string_take_all n s : String.length s ≤ n → string_take n s = s.
Proof.
  revert n. induction s as [|c s IH]; intros [|n] Hn; simpl in *; try done; [lia|].
  rewrite IH; [done|lia].
Qed.

Lemma truncate_short n s : is_ascii s = true → String.length s ≤ n → truncate n s = s.
Proof. intros. rewrite truncate_ascii by done. by apply string_take_all. Qed.

Lemma is_ascii_truncate n s : is_ascii s = true → is_ascii (truncate n s) = true.
Proof. intros. rewrite truncate_ascii by done. by apply is_ascii_take. Qed.

Lemma GenerateApplicationID_nonempty ns unique uid : GenerateApplicationID ns unique uid ≠ "".
Proof.
  unfold GenerateApplicationID. apply truncate_nonempty; [done|].
  repeat case_match; try done; by apply string_app_nonempty_r.
Qed.

(** The first non-empty string of a list. *)
Fixpoint first_nonempty (l : list string) : string :=
  match l with
  | [] => ""
  | s :: l' => if s =s "" then first_nonempty l' else s
  end.

(** The four places an application ID is read from, in order. *)
Definition app_id_sources (pod : Pod) : list string :=
  [GetPodLabelValue pod CanonicalLabelApplicationID;
   GetPodAnnotationValue pod AnnotationApplicationID;
   GetPodLabelValue pod LabelApplicationID;
   GetPodLabelValue pod SparkLabelAppID].

Lemma MergeMaps_default first second :
  default ∅ (MergeMaps first second) = default ∅ second ∪ default ∅ first.
Proof.
  unfold MergeMaps. rewrite !map_fold_copy, (right_id_L ∅ (∪)). by destruct first, second.
Qed.

(** ** Theorems *)

(** A pod has an application ID, hence is handled by the shim as a pod of
    its own, exactly when its scheduler name is YuniKorn's: whatever the labels
    and annotations say, such a pod always gets an ID and no other pod does. *)
Lemma app_id_iff_scheduler unique pod :
  GetApplicationIDFromPod unique pod ≠ "" ↔ spec_SchedulerName (pod_Spec pod) = SchedulerName.
Proof.
  unfold GetApplicationIDFromPod. case_bool_decide as Hs; simpl; [|tauto].
  split; [done|intros _]. case_bool_decide as Ha; simpl; [|done].
  apply GenerateApplicationID_nonempty.
Qed.

(** For a pod of the shim, [GetApplicationIDFromPod] takes the first
    non-empty one of canonical label, annotation, [applicationId] label and
    Spark label, with an autogen suffix replaced by the pod's UID, and falls
    back to a generated ID only when all four are empty. *)
Theorem app_id_precedence unique pod :
  spec_SchedulerName (pod_Spec pod) = SchedulerName →
  GetApplicationIDFromPod unique pod =
  let id := first_nonempty (app_id_sources pod) in
  if id =s "" then GenerateApplicationID (pod_Namespace pod) unique (pod_UID pod)
  else if HasSuffix id uniqueAutogenSuffix
  then TrimSuffix id uniqueAutogenSuffix +:+ "-" +:+ pod_UID pod
  else id.
Proof.
  intros Hs. unfold GetApplicationIDFromPod, app_id_sources. rewrite Hs. cbn [first_nonempty].
  rewrite bool_decide_eq_true_2 by done. cbn [negb firstLabelValue].
  destruct (GetPodLabelValue pod CanonicalLabelApplicationID) as [|c1 s1] eqn:E1; cbn;
    [destruct (GetPodAnnotationValue pod AnnotationApplicationID) as [|c2 s2] eqn:E2; cbn;
      [destruct (GetPodLabelValue pod LabelApplicationID) as [|c3 s3] eqn:E3; cbn;
        [destruct (GetPodLabelValue pod SparkLabelAppID) as [|c4 s4] eqn:E4; cbn; [done|]|]|]|];
    destruct (HasSuffix _ uniqueAutogenSuffix); cbn; try done;
    by rewrite bool_decide_eq_false_2 by (by apply string_app_nonempty_r).
Qed.

Lemma app_id_precedence_witness :
  GetApplicationIDFromPod true
    (pod_ref "p" "u1" "" PodPending (<[LabelApplicationID := "a-uniqueautogen"]> ∅) []) = "a-u1".
Proof. rewrite app_id_precedence; vm_compute; reflexivity. Defined.

(** The admission controller, which does not know the pod's UID yet, labels
    a pod with an ID ending in the autogen suffix; the shim later reads from
    that label exactly the ID it would have generated itself, for an ASCII
    namespace and a UID of at most 36 characters. *)
Theorem autogen_label_agrees ns uid unique pod :
  is_ascii ns = true → is_ascii uid = true → uid ≠ "" → String.length uid ≤ 36 →
  spec_SchedulerName (pod_Spec pod) = SchedulerName → pod_UID pod = uid →
  GetPodLabelValue pod CanonicalLabelApplicationID = GenerateApplicationID ns true "" →
  GetApplicationIDFromPod unique pod = GenerateApplicationID ns true uid.
Proof.
  intros Hns Huid Hne Hlen Hsched <- Hlabel.
  pose proof (truncate_length_ascii 26 ns Hns) as Htl.
  assert (HL : GenerateApplicationID ns true "" = truncate 26 ns +:+ uniqueAutogenSuffix).
  { unfold GenerateApplicationID. simpl. apply truncate_short.
    - by rewrite is_ascii_app, is_ascii_truncate.
    - rewrite string_length_app. simpl. lia. }
  assert (HR : GenerateApplicationID ns true (pod_UID pod) =
    truncate 26 ns +:+ "-" +:+ pod_UID pod).
  { unfold GenerateApplicationID. rewrite bool_decide_eq_false_2 by done. apply truncate_short.
    - by rewrite !is_ascii_app, is_ascii_truncate, Huid by done.
    - rewrite !string_length_app. simpl. lia. }
  rewrite HL in Hlabel. rewrite HR. unfold GetApplicationIDFromPod.
  rewrite Hsched, bool_decide_eq_true_2, Hlabel by done. cbn [negb].
  rewrite (bool_decide_eq_false_2 (_ +:+ uniqueAutogenSuffix = "")) by (by apply string_app_nonempty_r).
  rewrite (bool_decide_eq_false_2 (_ +:+ uniqueAutogenSuffix = "")) by (by apply string_app_nonempty_r).
  rewrite HasSuffix_app, TrimSuffix_app.
  by rewrite bool_decide_eq_false_2 by (by apply string_app_nonempty_r).
Qed.

Lemma autogen_label_agrees_witness :
  GetApplicationIDFromPod false
    (pod_ref "p" "u1" "" PodPending
       (<[CanonicalLabelApplicationID := GenerateApplicationID "default" true ""]> ∅) []) =
  GenerateApplicationID "default" true "u1".
Proof. apply autogen_label_agrees; try reflexivity; [done|simpl; lia]. Defined.

(** A generated application ID is a valid label value as far as its length
    goes: never empty, and at most 63 characters for an ASCII namespace. *)
Theorem GenerateApplicationID_length ns unique uid :
  is_ascii ns = true → is_ascii uid = true →
  1 ≤ String.length (GenerateApplicationID ns unique uid) ≤ 63.
Proof.
  intros Hns Huid. pose proof (GenerateApplicationID_nonempty ns unique uid) as Hne. split.
  - destruct (GenerateApplicationID ns unique uid); simpl; [done|lia].
  - unfold GenerateApplicationID. apply truncate_length_ascii.
    repeat case_match; rewrite ?is_ascii_app, ?is_ascii_truncate by done;
      by rewrite ?Hns, ?Huid.
Qed.

Lemma GenerateApplicationID_length_witness :
  1 ≤ String.length (GenerateApplicationID "default" true "u1") ≤ 63.
Proof. apply GenerateApplicationID_length; reflexivity. Defined.

(** [MergeMaps] overrides the first map by the second key by key, and is
    nil only when both are. *)
Theorem MergeMaps_union first second :
  (MergeMaps first second = None ↔ first = None ∧ second = None) ∧
  default ∅ (MergeMaps first second) = default ∅ second ∪ default ∅ first.
Proof.
  split; [|apply MergeMaps_default]. unfold MergeMaps.
  destruct first, second; intuition congruence.
Qed.

(** Every entry of the configuration is either the core's (a YAML document)
    or one of the shim's extra settings, never both: a key is kept by
    [GetExtraConfigFromConfigMap] exactly when it has no [.yaml] suffix, and
    the document handed to the core is never among the kept entries. *)
Theorem extra_config_excludes_core_config (policyGroup : string) config k :
  GetExtraConfigFromConfigMap config !! k = (if HasSuffix k ".yaml" then None else config !! k) ∧
  GetExtraConfigFromConfigMap config !! (policyGroup +:+ ".yaml") = None ∧
  GetCoreSchedulerConfigFromConfigMap policyGroup config =
  go_get config (policyGroup +:+ ".yaml").
Proof.
  assert (Hl : ∀ k, GetExtraConfigFromConfigMap config !! k =
    if HasSuffix k ".yaml" then None else config !! k).
  { clear k. intros k. unfold GetExtraConfigFromConfigMap.
    apply (map_fold_weak_ind (λ r m, r !! k = if HasSuffix k ".yaml" then None else m !! k)).
    - rewrite !lookup_empty. by destruct (HasSuffix k ".yaml").
    - intros i v m r Hi IH. destruct (decide (i = k)) as [->|Hne].
      + rewrite lookup_insert_eq. destruct (HasSuffix k ".yaml"); [done|].
        by rewrite lookup_insert_eq.
      + rewrite lookup_insert_ne by done. destruct (HasSuffix i ".yaml"); [done|].
        by rewrite lookup_insert_ne. }
  split_and!; [apply Hl|by rewrite Hl, HasSuffix_app|].
  unfold GetCoreSchedulerConfigFromConfigMap, go_get.
  destruct (Nat.eqb_spec (size config) 0) as [Hs|Hs]; [|by destruct (config !! _)].
  apply map_size_empty_iff in Hs as ->. by rewrite lookup_empty.
Qed.

(** Polling ends: the clock of round [i] has advanced by [i] intervals. *)
Lemma WaitForCondition_loop_ends eval (now : nat → Z) deadline interval i fuel :
  (0 < interval)%Z → (∀ j, now (S j) >= now j + interval)%Z →
  (deadline < now (i + fuel)%nat)%Z →
  ∃ b, WaitForCondition_loop eval now deadline i (S fuel) = Some b.
Proof.
  intros Hpos Hclock. revert i. induction fuel as [|fuel IH]; intros i Hd.
  - rewrite Nat.add_0_r in Hd. simpl. destruct (eval i); [eauto|].
    rewrite (proj2 (Z.ltb_lt _ _)) by lia. eauto.
  - cbn [WaitForCondition_loop]. destruct (eval i); [eauto|].
    destruct (deadline <? now i)%Z; [eauto|]. apply IH.
    by rewrite Nat.add_succ_comm.
Qed.


