(* ===== verification/SiHelper.v ===== *)
(** * Requests to the scheduler core: [pkg/common/si_helper.go]

    The messages of the scheduler interface the shim builds, with the fields it
    sets.  The numbering of the termination types is generated code outside
    the repository, so the table from names to values is the class
    [TerminationTypes]. *)

From S2P Require Import Prelude.
From S2P Require Import GoStrings.
From S2P Require Import K8sApi.
From S2P Require Import K8sInstances.
From S2P Require Import Constants.
From S2P Require Import Resource.
From S2P Require Import PodUtils.

(** ** Messages *)

Inductive TerminationType :=
  | STOPPED_BY_RM
  | TIMEOUT
  | SCHEDULING_FAILED_ON_RM
  | OtherTermination (n : nat).

#[export] Instance TerminationType_eq_dec : EqDecision TerminationType.
Proof. solve_decision. Defined.

(** [si.TerminationType_name] and [si.TerminationType_value]: each table is the
    inverse of the other on the known types. *)
Class TerminationTypes := {
  TerminationType_name : TerminationType → string;
  TerminationType_value : string → option TerminationType;
  TerminationType_value_name t : TerminationType_name t ≠ "" →
    TerminationType_value (TerminationType_name t) = Some t
}.

Record PreemptionPolicy := mkPreemptionPolicy {
  AllowPreemptSelf : bool;
  AllowPreemptOther : bool
}.

Record Allocation := mkAllocation {
  AllocationKey : string;
  AllocationTags : gmap string string;
  ResourcePerAlloc : Resource;
  al_Priority : Z;
  al_NodeID : string;
  al_ApplicationID : string;
  al_TaskGroupName : string;
  al_Placeholder : bool;
  al_Originator : bool;
  al_PreemptionPolicy : option PreemptionPolicy
}.

Record AllocationRelease := mkAllocationRelease {
  rel_ApplicationID : string;
  rel_AllocationKey : string;
  rel_PartitionName : string;
  rel_TerminationType : TerminationType;
  rel_Message : string
}.

Record AllocationRequest := mkAllocationRequest {
  req_Allocations : list Allocation;
  req_Releases : list AllocationRelease
}.

Inductive NodeAction := CREATE_DRAIN | UPDATE | DRAIN_NODE | DRAIN_TO_SCHEDULABLE | DECOMISSION.

Record SiNodeInfo := mkSiNodeInfo {
  sn_NodeID : string;
  sn_Action : NodeAction;
  sn_Attributes : gmap string string;
  sn_SchedulableResource : option Resource
}.

Record NodeRequest := mkNodeRequest { nr_Nodes : list SiNodeInfo }.

Record AddApplicationRequest := mkAddApplicationRequest {
  add_ApplicationID : string;
  add_QueueName : string;
  add_PartitionName : string;
  add_User : string;
  add_Groups : list string;
  add_Tags : gmap string string;
  add_PlaceholderAsk : option Resource;
  add_ExecutionTimeoutMilliSeconds : Z;
  add_GangSchedulingStyle : string
}.

Record RemoveApplicationRequest := mkRemoveApplicationRequest {
  rem_ApplicationID : string;
  rem_PartitionName : string
}.

Record ApplicationRequest := mkApplicationRequest {
  ar_New : list AddApplicationRequest;
  ar_Remove : list RemoveApplicationRequest
}.

(** ** Building requests *)

Section Requests.
Context `{SiConstants}.

(** One match field of a DaemonSet pod's node affinity; [None] when the list of
    values is empty ([match.Values[0]] panics). *)
Definition requiredNodeTag (acc : option (gmap string string)) (m : NodeSelectorRequirement) :
    option (gmap string string) :=
  match acc with
  | None => None
  | Some tags =>
      if nsr_Key m =s "metadata.name" then
        match nsr_Values m with
        | v :: _ => Some (<[DomainYuniKorn +:+ KeyRequiredNode := v]> tags)
        | [] => None
        end
      else Some tags
  end.

(** One owner reference of the pod. *)
Definition ownerTag (pod : Pod) (acc : option (gmap string string)) (owner : OwnerReference) :
    option (gmap string string) :=
  if or_Kind owner =s DaemonSetType then
    match spec_Affinity (pod_Spec pod) with
    | Some affinity =>
        match aff_NodeAffinity affinity with
        | Some (Some nodeSelectorTerms) =>
            foldl (λ acc term, foldl requiredNodeTag acc (nst_MatchFields term)) acc nodeSelectorTerms
        | _ => acc
        end
    | None => acc
    end
  else acc.

Definition CreateTagsForTask (pod : Pod) : option (gmap string string) :=
  let metaPrefix := DomainK8s +:+ GroupMeta in
  let tags := <[metaPrefix +:+ KeyPodName := pod_Name pod]>
                (<[metaPrefix +:+ KeyNamespace := pod_Namespace pod]> ∅) in
  match foldl (ownerTag pod) (Some tags) (pod_OwnerReferences pod) with
  | None => None
  | Some tags =>
      let labelPrefix := DomainK8s +:+ GroupLabel in
      Some (map_fold (λ k v tags, <[labelPrefix +:+ k := v]> tags) tags (pod_Labels pod))
  end.

Definition CreatePriorityForTask (pod : Pod) : Z :=
  match spec_Priority (pod_Spec pod) with Some priority => priority | None => 0 end.

Definition CreateAllocationRequestForTask (appID taskID : string) (resource : Resource)
    (placeholder : bool) (taskGroupName : string) (pod : Pod) (originator : bool)
    (preemptionPolicy : option PreemptionPolicy) : option AllocationRequest :=
  match CreateTagsForTask pod with
  | None => None
  | Some tags =>
      Some (mkAllocationRequest
        [mkAllocation taskID tags resource (CreatePriorityForTask pod) "" appID taskGroupName
           placeholder originator preemptionPolicy] [])
  end.

Definition CreateAllocationForTask (appID taskID nodeID : string) (resource : Resource)
    (placeholder : bool) (taskGroupName : string) (pod : Pod) (originator : bool)
    (preemptionPolicy : option PreemptionPolicy) : option AllocationRequest :=
  match CreateTagsForTask pod with
  | None => None
  | Some tags =>
      let tags := <[CreationTime := FormatInt (pod_CreationTimestamp pod)]> tags in
      Some (mkAllocationRequest
        [mkAllocation taskID tags resource (CreatePriorityForTask pod) nodeID appID taskGroupName
           placeholder originator preemptionPolicy] [])
  end.

Definition CreateAllocationForForeignPod `{QuantityOps} (pod : Pod) : option AllocationRequest :=
  let podType :=
    if existsb (λ ref, or_Kind ref =s NodeKind) (pod_OwnerReferences pod)
    then AllocTypeStatic else AllocTypeDefault in
  match CreateTagsForTask pod with
  | None => None
  | Some tags =>
      let tags := <[Foreign := podType]> tags in
      let tags := <[CreationTime := FormatInt (pod_CreationTimestamp pod)]> tags in
      Some (mkAllocationRequest
        [mkAllocation (pod_UID pod) tags (GetPodResource pod) (CreatePriorityForTask pod)
           (pod_NodeName pod) "" "" false false None] [])
  end.

Definition GetTerminationTypeFromString `{TerminationTypes} (terminationTypeStr : string) :
    TerminationType :=
  match TerminationType_value terminationTypeStr with Some v => v | None => STOPPED_BY_RM end.

Definition CreateReleaseRequestForTask (appID taskID partition : string)
    (terminationType : TerminationType) : AllocationRequest :=
  mkAllocationRequest [] [mkAllocationRelease appID taskID partition terminationType "task completed"].

Definition CreateReleaseRequestForForeignPod (uid partition : string) : AllocationRequest :=
  mkAllocationRequest [] [mkAllocationRelease "" uid partition STOPPED_BY_RM "pod terminated"].

Definition CreateUpdateRequestForUpdatedNode (nodeID : string) (capacity : Resource) : NodeRequest :=
  mkNodeRequest [mkSiNodeInfo nodeID UPDATE ∅ (Some capacity)].

Definition CreateUpdateRequestForDeleteOrRestoreNode (nodeID : string) (action : NodeAction) :
    NodeRequest :=
  mkNodeRequest [mkSiNodeInfo nodeID action ∅ None].

Definition CreateUpdateRequestForRemoveApplication (appID partition : string) : ApplicationRequest :=
  mkApplicationRequest [] [mkRemoveApplicationRequest appID partition].

End Requests.
