(* ===== verification/TaskGroups.v ===== *)
(** * Task groups and gang scheduling parameters

    [pkg/cache/utils.go], [gang_utils.go], [amprotocol.go], [metadata.go] and
    [placeholder.go]: the task groups of an application, their validation, the
    metadata of applications and tasks, and the placeholder pods.  Errors are
    values of [TGError]; the messages are not modelled. *)

From S2P Require Import Prelude.
From S2P Require Import GoStrings.
From S2P Require Import K8sApi.
From S2P Require Import K8sInstances.
From S2P Require Import Constants.
From S2P Require Import Resource.
From S2P Require Import PodUtils.

(** ** Data: [amprotocol.go] *)

Record TaskGroup := mkTaskGroup {
  tg_Name : string;
  tg_MinMember : Z;                               (* int32 *)
  tg_Labels : option (gmap string string);
  tg_Annotations : option (gmap string string);
  tg_MinResource : option (gmap string Quantity);
  tg_NodeSelector : gmap string string;
  tg_Tolerations : list Opaque;
  tg_Affinity : option Affinity;
  tg_TopologySpreadConstraints : list Opaque
}.

Record SchedulingPolicyParameters := mkSchedulingPolicyParameters {
  placeholderTimeout : Z;
  gangSchedulingStyle : string
}.

Record TaskMetadata := mkTaskMetadata {
  tm_ApplicationID : string;
  tm_TaskID : string;
  tm_Pod : Pod;
  tm_Placeholder : bool;
  tm_TaskGroupName : string
}.

Record ApplicationMetadata := mkApplicationMetadata {
  am_ApplicationID : string;
  am_QueueName : string;
  am_User : string;
  am_Tags : gmap string string;
  am_Groups : list string;
  am_TaskGroups : list TaskGroup;
  am_OwnerReferences : list OwnerReference;
  am_SchedulingPolicyParameters : SchedulingPolicyParameters;
  am_CreationTime : Z
}.

(** ** Validation: [utils.go] *)

Inductive TGError :=
  | ErrUnmarshal
  | ErrName
  | ErrMinResource
  | ErrMinMember
  | ErrMinMemberNegative
  | ErrNegative (res : string)
  | ErrCollision (res canonical : string)
  | ErrOverflow (res : string)
  | ErrAggregate (canonical : string).

(** [json.Unmarshal] into a list of task groups. *)
Class TaskGroupJson := {
  json_task_groups : string → option (list TaskGroup);
  (* MinMember is an int32 *)
  json_task_groups_range s l : json_task_groups s = Some l →
    Forall (λ tg, in_int32 (tg_MinMember tg)) l
}.

Section Validation.
Context `{QuantityOps}.

(** [totals[k]] of a map of numbers. *)
Definition total (totals : gmap string Z) (k : string) : Z := default 0%Z (totals !! k).

Definition canonicalName (resName : string) : string :=
  if resName =s ResourceCPU then CPU else resName.

(** One round of the loop over the resources of a group; the state is [seen]
    and [totals]. *)
Definition validateResource (members : Z) (acc : TGError + gset string * gmap string Z)
    (entry : string * Quantity) : TGError + gset string * gmap string Z :=
  match acc with
  | inl err => inl err
  | inr (seen, totals) =>
      let '(resName, quantity) := entry in
      if (q_Sign quantity <? 0)%Z then inl (ErrNegative resName)
      else
        let cpu := resName =s ResourceCPU in
        let canonical := canonicalName resName in
        let milliConvert := if cpu then 1000%Z else 1%Z in
        if bool_decide (canonical ∈ seen) then inl (ErrCollision resName canonical)
        else
          let seen := {[canonical]} ∪ seen in
          if (0 <? q_CmpInt64 quantity (MaxInt64 `quot` (members *i64 milliConvert)))%Z
          then inl (ErrOverflow resName)
          else
            let value := if cpu then q_MilliValue quantity else q_Value quantity in
            let contribution := members *i64 value in
            if (MaxInt64 - contribution <? total totals canonical)%Z
            then inl (ErrAggregate canonical)
            else inr (seen, <[canonical := total totals canonical +i64 contribution]> totals)
  end.

Definition validateTaskGroupResources `{MapOrder} (taskGroup : TaskGroup)
    (totals : gmap string Z) : TGError + gmap string Z :=
  let members := tg_MinMember taskGroup in
  if (MaxInt64 - members <? total totals "pods")%Z then inl (ErrAggregate "pods")
  else
    let totals := <["pods" := total totals "pods" +i64 members]> totals in
    match foldl (validateResource members) (inr ({["pods"]}, totals))
            (go_range (default ∅ (tg_MinResource taskGroup))) with
    | inl err => inl err
    | inr (_, totals) => inr totals
    end.

Definition validateTaskGroup `{MapOrder} (acc : TGError + gmap string Z) (taskGroup : TaskGroup) :
    TGError + gmap string Z :=
  match acc with
  | inl err => inl err
  | inr totals =>
      if tg_Name taskGroup =s "" then inl ErrName
      else match tg_MinResource taskGroup with
           | None => inl ErrMinResource
           | Some _ =>
               if (tg_MinMember taskGroup =? 0)%Z then inl ErrMinMember
               else if (tg_MinMember taskGroup <? 0)%Z then inl ErrMinMemberNegative
               else validateTaskGroupResources taskGroup totals
           end
  end.

Definition GetTaskGroupsFromAnnotation `{MapOrder} `{TaskGroupJson} (pod : Pod) :
    TGError + list TaskGroup :=
  let taskGroupInfo := GetPodAnnotationValue pod AnnotationTaskGroups in
  if taskGroupInfo =s "" then inr []
  else match json_task_groups taskGroupInfo with
       | None => inl ErrUnmarshal
       | Some taskGroups =>
           match foldl validateTaskGroup (inr ∅) taskGroups with
           | inl err => inl err
           | inr _ => inr taskGroups
           end
       end.

End Validation.

(** ** Gang scheduling helpers: [gang_utils.go] *)

(** [inl tt] is the error; [inr None] that the task has no group. *)
Definition FindAppTaskGroup (appTaskGroups : list TaskGroup) (groupName : string) :
    unit + option TaskGroup :=
  if groupName =s "" then inr None
  else if Nat.eqb (length appTaskGroups) 0 then inr None
  else match list_find (λ tg, tg_Name tg = groupName) appTaskGroups with
       | Some (_, tg) => inr (Some tg)
       | None => inl tt
       end.

Definition letterBytes : string := "abcdefghijklmnopqrstuvwxyz0123456789".

(** [intn i] is the [i]-th result of [rand.Intn(len(letterBytes))], an index
    into [letterBytes]. *)
Fixpoint generateNonce (intn : nat → nat) (i length : nat) : string :=
  match length with
  | 0 => ""
  | S length' =>
      match String.get (intn i) letterBytes with
      | Some c => String c (generateNonce intn (S i) length')
      | None => generateNonce intn (S i) length'
      end
  end.

Definition GeneratePlaceholderName (intn : nat → nat) (taskGroupName appID : string) : string :=
  "tg-" +:+ truncate 28 appID +:+ "-" +:+ truncate 20 taskGroupName +:+ "-" +:+
  generateNonce intn 0 10.

Definition GetPlaceholderResourceRequests (resources : gmap string Quantity) : ResourceList :=
  map_fold (λ k v req, if k =s "" then req else <[k := v]> req) ∅ resources.

(** One parameter of the annotation. *)
Definition parsePolicyParam (acc : Z * string) (p : string) : Z * string :=
  let '(timeout, style) := acc in
  match Split p (Ascii.ascii_of_nat 61) with              (* equals sign *)
  | [name; value] =>
      if name =s SchedulingPolicyTimeoutParam then ((ParseInt value 64).1, style)
      else if name =s SchedulingPolicyStyleParam then
        let style := go_get SchedulingPolicyStyleParamValues value in
        (timeout, if style =s "" then SchedulingPolicyStyleParamDefault else style)
      else (timeout, style)
  | _ => (timeout, style)
  end.

Definition GetSchedulingPolicyParam (pod : Pod) : SchedulingPolicyParameters :=
  let param := GetPodAnnotationValue pod AnnotationSchedulingPolicyParam in
  if param =s "" then mkSchedulingPolicyParameters 0 SchedulingPolicyStyleParamDefault
  else
    let '(timeout, style) :=
      foldl parsePolicyParam (0%Z, SchedulingPolicyStyleParamDefault)
        (Split param SchedulingPolicyParamDelimiter) in
    mkSchedulingPolicyParameters timeout style.

(** ** Metadata: [metadata.go] *)

(** The settings of the scheduler configuration the shim reads here. *)
Record ShimConf := mkShimConf {
  GenerateUniqueAppIds : bool;
  DisableGangScheduling : bool;
  ph_Image : string;
  ph_RunAsUser : Z;
  ph_RunAsGroup : Z;
  ph_FSGroup : Z
}.

Section Metadata.
Context `{QuantityOps} `{SiConstants} `{JsonOps} `{TaskGroupJson} `{MapOrder}.

Definition getOwnerReference (pod : Pod) : list OwnerReference :=
  [mkOwnerReference "v1" "Pod" (pod_Name pod) (pod_UID pod) (Some false) (Some true)].

Definition getTaskMetadata (conf : ShimConf) (pod : Pod) : option TaskMetadata :=
  let appID := GetApplicationIDFromPod (GenerateUniqueAppIds conf) pod in
  if appID =s "" then None
  else
    let placeholder := GetPlaceholderFlagFromPodSpec pod in
    let taskGroupName :=
      if DisableGangScheduling conf then "" else GetTaskGroupFromPodSpec pod in
    Some (mkTaskMetadata appID (pod_UID pod) pod placeholder taskGroupName).

(** The metadata, and whether a [TaskGroupsError] event is recorded. *)
Definition getAppMetadata (conf : ShimConf) (pod : Pod) : option (ApplicationMetadata * bool) :=
  let appID := GetApplicationIDFromPod (GenerateUniqueAppIds conf) pod in
  if appID =s "" then None
  else
    let tags : gmap string string :=
      <[AppTagNamespace := if pod_Namespace pod =s "" then DefaultAppNamespace
                           else pod_Namespace pod]> ∅ in
    let tags := <[AppTagCreateForce := False_]> tags in
    let tags := if IsAssignedPod pod then <[AppTagCreateForce := True_]> tags else tags in
    let secrets := spec_ImagePullSecrets (pod_Spec pod) in
    let tags := if (0 <? length secrets)%nat
                then <[AppTagImagePullSecrets := Join secrets ","]> tags else tags in
    let '(user, groups) := GetUserFromPod pod in
    let '(taskGroups, event, tags) :=
      if DisableGangScheduling conf then ([], false, tags)
      else
        let tags := <[AnnotationTaskGroups := go_get (pod_Annotations pod) AnnotationTaskGroups]> tags in
        match GetTaskGroupsFromAnnotation pod with
        | inl _ => ([], true, tags)
        | inr taskGroups => (taskGroups, false, tags)
        end in
    let ownerReferences :=
      if GetPlaceholderFlagFromPodSpec pod then pod_OwnerReferences pod
      else getOwnerReference pod in
    let schedulingPolicyParams := GetSchedulingPolicyParam pod in
    let tags := <[AnnotationSchedulingPolicyParam :=
                    go_get (pod_Annotations pod) AnnotationSchedulingPolicyParam]> tags in
    Some (mkApplicationMetadata appID (GetQueueNameFromPod pod) user tags groups taskGroups
            ownerReferences schedulingPolicyParams (pod_CreationTimestamp pod), event).

End Metadata.

(** ** Placeholder pods: [placeholder.go]

    What [newPlaceholder] reads of its application. *)
Record PlaceholderApp := mkPlaceholderApp {
  pa_ApplicationID : string;
  pa_Queue : string;
  pa_Tags : gmap string string;
  pa_OwnerReferences : list OwnerReference;
  pa_TaskGroupsDefinition : string;
  pa_SchedulingParamsDefinition : string;
  pa_PriorityClassName : string      (* of the originating task's pod, or empty *)
}.

Definition nonzero (z : Z) : option Z := if (z =? 0)%Z then None else Some z.

Definition newPlaceholder `{SiConstants} (conf : ShimConf) (placeholderName : string)
    (app : PlaceholderApp) (taskGroup : TaskGroup) : Pod :=
  let annotations := MergeMaps (tg_Annotations taskGroup)
    (Some (<[AnnotationPlaceholderFlag := True_]>
      (<[AnnotationTaskGroupName := tg_Name taskGroup]> ∅))) in
  let tgDef := pa_TaskGroupsDefinition app in
  let annotations :=
    if tgDef <>s "" then MergeMaps annotations (Some (<[AnnotationTaskGroups := tgDef]> ∅))
    else annotations in
  let schedParamsDef := pa_SchedulingParamsDefinition app in
  let annotations :=
    if schedParamsDef <>s ""
    then MergeMaps annotations (Some (<[AnnotationSchedulingPolicyParam := schedParamsDef]> ∅))
    else annotations in
  let imagePullSecrets :=
    match pa_Tags app !! AppTagImagePullSecrets with
    | Some secrets => Split secrets (Ascii.ascii_of_nat 44)       (* comma *)
    | None => []
    end in
  let requests := GetPlaceholderResourceRequests (default ∅ (tg_MinResource taskGroup)) in
  let placeHolderImage :=
    if ph_Image conf <>s "" then ph_Image conf else PlaceholderContainerImage in
  mkPod placeholderName (go_get (pa_Tags app) AppTagNamespace) ""
    (default ∅ (MergeMaps (tg_Labels taskGroup)
      (Some (<[CanonicalLabelApplicationID := pa_ApplicationID app]>
        (<[CanonicalLabelQueueName := pa_Queue app]> ∅)))))
    (default ∅ annotations) 0 (pa_OwnerReferences app)
    (mkPodSpec "" SchedulerName
       [mkContainer PlaceholderContainerName placeHolderImage requests None] [] None None None
       (pa_PriorityClassName app) None (tg_Affinity taskGroup) [] [] imagePullSecrets
       (tg_NodeSelector taskGroup) (tg_Tolerations taskGroup)
       (tg_TopologySpreadConstraints taskGroup) PlaceholderPodRestartPolicy
       (mkPodSecurityContext (nonzero (ph_RunAsUser conf)) (nonzero (ph_RunAsGroup conf))
          (nonzero (ph_FSGroup conf))))
    (mkPodStatus "" "" "" "" [] [] []).

(** [setTaskGroups] of [application.go] adds the requests of all groups to the
    placeholder request of the application. *)
Definition addTaskGroupAsks `{QuantityOps} `{MapOrder} (placeholderAsk : Resource)
    (taskGroups : list TaskGroup) : Resource :=
  foldl (λ ask tg,
    Add (Some ask) (Some (GetTGResource (default ∅ (tg_MinResource tg)) (tg_MinMember tg))))
    placeholderAsk taskGroups.

(** ** The request of a task group, with unbounded numbers *)

(** The amount a quantity stands for: cpu in milli units, rounded up. *)
Definition amount (e : string * Quantity) : Z :=
  if e.1 =s ResourceCPU then ceil_div (nanos e.2) 1000000 else ceil_div (nanos e.2) 1000000000.

Definition contribution (members : Z) (k : string) (e : string * Quantity) : Z :=
  if canonicalName e.1 =s k then (members * amount e)%Z else 0%Z.

Definition tg_request (tg : TaskGroup) (k : string) : Z :=
  ((if k =s "pods" then tg_MinMember tg else 0) +
   sum_by (contribution (tg_MinMember tg) k) (map_to_list (default ∅ (tg_MinResource tg))))%Z.

(** ** Lemmas *)

Lemma sum_by_perm {A} (f : A → Z) l l' : l ≡ₚ l' → sum_by f l = sum_by f l'.
Proof. induction 1; simpl; lia. Qed.

Lemma ceil_div_le n d b : (0 < d)%Z → (n <= b * d)%Z → (ceil_div n d <= b)%Z.
Proof.
  intros Hd Hn. unfold ceil_div. pose proof (Z.div_le_lower_bound (- n) d (- b) Hd). lia.
Qed.

Section ValidationFacts.
Context `{QL : QuantityLaws}.

(** An entry whose scaled amount is exact. *)
Record entry_ok (members : Z) (e : string * Quantity) : Prop := {
  eo_nonneg : (0 <= amount e)%Z;
  eo_value : (if e.1 =s ResourceCPU then q_MilliValue e.2 else q_Value e.2) = amount e;
  eo_fits : (members * amount e <= MaxInt64)%Z
}.

Lemma entry_ok_checked members e :
  (1 <= members)%Z → in_int32 members → (0 <= nanos e.2)%Z →
  (q_CmpInt64 e.2 (MaxInt64 `quot` (members *i64 (if e.1 =s ResourceCPU then 1000 else 1))) <= 0)%Z →
  entry_ok members e.
Proof.
  intros Hm Hr Hn Hc. rewrite q_CmpInt64_spec in Hc.
  assert (Hw : (members *i64 (if e.1 =s ResourceCPU then 1000 else 1)) =
    (members * (if e.1 =s ResourceCPU then 1000 else 1))%Z).
  { apply wrap64_id. unfold in_int32, in_int64, MinInt64, MaxInt64, MinInt32, MaxInt32 in *.
    case_bool_decide; lia. }
  rewrite Hw in Hc. set (mc := (if e.1 =s ResourceCPU then 1000 else 1)%Z) in *.
  assert (Hmc : (1 <= mc)%Z) by (unfold mc; case_bool_decide; lia).
  set (K := (MaxInt64 `quot` (members * mc))%Z) in *.
  assert (HK : (0 <= K ∧ K * (members * mc) <= MaxInt64)%Z).
  { unfold K. rewrite Z.quot_div_nonneg by (unfold MaxInt64; nia).
    pose proof (Z.mul_div_le MaxInt64 (members * mc) ltac:(nia)).
    pose proof (Z.div_pos MaxInt64 (members * mc) ltac:(done) ltac:(nia)). lia. }
  assert (Hb : (nanos e.2 <= K * 1000000000)%Z) by lia.
  assert (Ha : (0 <= amount e <= K * mc)%Z).
  { unfold amount, mc. case_bool_decide; split; try (apply ceil_div_nonneg; lia);
      apply ceil_div_le; lia. }
  assert (Hle : (amount e <= MaxInt64)%Z) by nia.
  split; [lia| |nia]. unfold amount in *.
  case_bool_decide; [apply q_MilliValue_spec|apply q_Value_spec]; done.
Qed.

(** Totals that are sums of accepted contributions. *)
Definition totals_ok (totals : gmap string Z) : Prop :=
  ∀ k, (0 <= total totals k <= MaxInt64)%Z.

Lemma total_insert totals k v k' :
  total (<[k := v]> totals) k' = if k =s k' then v else total totals k'.
Proof.
  unfold total. case_bool_decide; [subst; by rewrite lookup_insert_eq|by rewrite lookup_insert_ne].
Qed.

Lemma validateResource_ok members seen totals e seen' totals' :
  (1 <= members)%Z → in_int32 members → totals_ok totals →
  validateResource members (inr (seen, totals)) e = inr (seen', totals') →
  entry_ok members e ∧ (canonicalName e.1 ∉ seen) ∧ seen' = {[canonicalName e.1]} ∪ seen ∧
  totals_ok totals' ∧ (∀ k, total totals' k = (total totals k + contribution members k e)%Z).
Proof.
  intros Hm Hr Ht. destruct e as [name q]. unfold validateResource.
  destruct (Z.ltb_spec (q_Sign q) 0) as [|Hs]; [done|].
  case_bool_decide as Hseen; [done|].
  destruct (Z.ltb_spec 0 (q_CmpInt64 q (MaxInt64 `quot`
    (members *i64 (if name =s ResourceCPU then 1000 else 1))))) as [|Hc]; [done|].
  rewrite q_Sign_spec in Hs.
  destruct (entry_ok_checked members (name, q)) as [H0 Hv Hf]; [done|done|simpl; lia|done|].
  cbn [fst snd] in Hv. rewrite Hv.
  assert (Hw : (members *i64 amount (name, q)) = (members * amount (name, q))%Z).
  { apply wrap64_id. unfold in_int64, MinInt64. nia. }
  rewrite Hw. pose proof (Ht (canonicalName name)) as Htc.
  destruct (Z.ltb_spec (MaxInt64 - members * amount (name, q)) (total totals (canonicalName name)))
    as [|Ha]; [done|].
  rewrite wrap64_id by (unfold in_int64, MinInt64; nia). intros [= <- <-].
  split; [by split|]. split; [done|]. split; [done|].
  assert (Hk : ∀ k, total (<[canonicalName name := (total totals (canonicalName name) +
      members * amount (name, q))%Z]> totals) k =
    (total totals k + contribution members k (name, q))%Z).
  { intros k. rewrite total_insert. unfold contribution. cbn [fst].
    destruct (bool_decide_reflect (canonicalName name = k)); [by subst|lia]. }
  split; [|exact Hk]. intros k. rewrite total_insert. specialize (Ht k).
  destruct (bool_decide_reflect (canonicalName name = k)); nia.
Qed.

Lemma validateResource_error members err es :
  foldl (validateResource members) (inl err) es = inl err.
Proof. by induction es. Qed.

(** The names of a group's entries are distinct after canonicalisation. *)
Lemma validate_loop members es seen totals seen' totals' :
  (1 <= members)%Z → in_int32 members → totals_ok totals →
  foldl (validateResource members) (inr (seen, totals)) es = inr (seen', totals') →
  Forall (entry_ok members) es ∧ NoDup (canonicalName <$> es.*1) ∧
  (∀ k, k ∈ canonicalName <$> es.*1 → k ∉ seen) ∧ totals_ok totals' ∧
  (∀ k, total totals' k = (total totals k + sum_by (contribution members k) es)%Z).
Proof.
  intros Hm Hr. revert seen totals. induction es as [|e es IH]; intros seen totals Ht; cbn [foldl].
  { intros [= <- <-]. split_and!; try done; [constructor|by intros k Hk%elem_of_nil|].
    intros k. simpl. lia. }
  destruct (validateResource members (inr (seen, totals)) e) as [err|[seen1 totals1]] eqn:E.
  { by rewrite validateResource_error. }
  apply validateResource_ok in E as (He & Hc & -> & Ht1 & Hk1); [|done..].
  intros (Hes & Hnd & Hseen & Ht' & Hk)%IH; [|done]. split_and!; [by constructor| | |done|].
  - constructor; [|done]. intros Hin. apply Hseen in Hin. set_solver.
  - intros k [->|Hin]%elem_of_cons; [done|]. apply Hseen in Hin. set_solver.
  - intros k. rewrite Hk, Hk1. simpl. lia.
Qed.

(** [GetTGResource] on entries that passed the validation. *)
Lemma GetTGResource_loop members es acc k :
  Forall (entry_ok members) es → (1 <= members)%Z → NoDup (canonicalName <$> es.*1) →
  (∀ k, k ∈ canonicalName <$> es.*1 → res_get acc k = 0%Z) →
  res_get (foldl (tg_entry members) acc es) k =
  (res_get acc k + sum_by (contribution members k) es)%Z.
Proof.
  intros Hes Hm. revert acc. induction Hes as [|e es [H0 Hv Hf] Hes IH]; intros acc Hnd Hacc; simpl.
  { lia. }
  apply NoDup_cons in Hnd as [Hne Hnd].
  assert (Hent : tg_entry members acc e = <[canonicalName e.1 := (members * amount e)%Z]> acc).
  { assert (Hw : (members *i64 amount e) = (members * amount e)%Z).
    { apply wrap64_id. unfold in_int64, MinInt64. nia. }
    unfold tg_entry, canonicalName, AddResource. rewrite <- Hw, <- Hv. by case_bool_decide. }
  rewrite Hent, IH; [|done|].
  - assert (Hc : res_get (<[canonicalName e.1 := (members * amount e)%Z]> acc) k =
      (res_get acc k + contribution members k e)%Z).
    { unfold contribution, res_get.
      destruct (bool_decide_reflect (canonicalName e.1 = k)) as [Hk|Hk].
      - subst k. rewrite lookup_insert_eq. fold (res_get acc (canonicalName e.1)).
        rewrite Hacc by left. done.
      - rewrite lookup_insert_ne by done. lia. }
    rewrite Hc. lia.
  - intros k' Hk'. unfold res_get. rewrite lookup_insert_ne by (intros <-; done).
    apply Hacc. by right.
Qed.

Lemma contribution_nonneg members k e :
  (1 <= members)%Z → entry_ok members e → (0 <= contribution members k e)%Z.
Proof.
  intros Hm [H0 _ _]. unfold contribution.
  destruct (bool_decide_reflect (canonicalName e.1 = k)); nia.
Qed.

(** A group that passed the validation: its request is exact, for any order of
    the map iteration. *)
Definition tg_exact (tg : TaskGroup) : Prop :=
  ∀ (MO : MapOrder) k,
    res_get (GetTGResource (default ∅ (tg_MinResource tg)) (tg_MinMember tg)) k = tg_request tg k ∧
    (0 <= tg_request tg k)%Z.

Lemma GetTGResource_exact (MO : MapOrder) tg :
  (1 <= tg_MinMember tg)%Z →
  let es := go_range (default ∅ (tg_MinResource tg)) in
  Forall (entry_ok (tg_MinMember tg)) es → NoDup (canonicalName <$> es.*1) →
  "pods" ∉ (canonicalName <$> es.*1) → tg_exact tg.
Proof.
  intros Hm es Hes Hnd Hpods MO2 k. unfold GetTGResource, GetTGResource_entries.
  assert (Hperm : go_range (default ∅ (tg_MinResource tg)) ≡ₚ es) by (subst es; by rewrite !go_range_perm).
  rewrite GetTGResource_loop; [| |done| |].
  - unfold tg_request. rewrite (sum_by_perm _ _ _ (go_range_perm _)).
    unfold AddResource, res_get.
    assert (Hs : (0 <= sum_by (contribution (tg_MinMember tg) k)
                   (map_to_list (default ∅ (tg_MinResource tg))))%Z).
    { apply sum_by_nonneg. rewrite <- (@go_range_perm MO). apply (Forall_impl _ _ _ Hes).
      intros e He. by apply contribution_nonneg. }
    split; [|case_bool_decide; lia]. case_bool_decide; [subst; by rewrite lookup_insert_eq|].
    rewrite lookup_insert_ne by done. done.
  - by rewrite Hperm.
  - by rewrite Hperm.
  - intros k' Hk'. unfold AddResource. apply res_get_None. rewrite lookup_insert_ne; [done|].
    intros <-. apply Hpods. by rewrite <- Hperm.
Qed.

Lemma validateTaskGroup_error (MO : MapOrder) err tgs :
  foldl validateTaskGroup (inl err) tgs = inl err.
Proof. by induction tgs. Qed.

Lemma validateTaskGroup_ok (MO : MapOrder) totals tg totals' :
  in_int32 (tg_MinMember tg) → totals_ok totals →
  validateTaskGroup (inr totals) tg = inr totals' →
  tg_exact tg ∧ totals_ok totals' ∧
  (∀ k, total totals' k = (total totals k + tg_request tg k)%Z).
Proof.
  intros Hr Ht. unfold validateTaskGroup. case_bool_decide as Hname; [done|].
  destruct (tg_MinResource tg) as [rm|] eqn:Erm; [|done].
  destruct (Z.eqb_spec (tg_MinMember tg) 0) as [|H0]; [done|].
  destruct (Z.ltb_spec (tg_MinMember tg) 0) as [|H1]; [done|].
  unfold validateTaskGroupResources. rewrite Erm.
  destruct (Z.ltb_spec (MaxInt64 - tg_MinMember tg) (total totals "pods")) as [|Hp]; [done|].
  pose proof (Ht "pods") as Htp.
  rewrite wrap64_id by (unfold in_int64, MinInt64; lia).
  destruct (foldl _ _ _) as [err|[seen' totals1]] eqn:E; [done|]. intros [= <-].
  apply validate_loop in E as (Hes & Hnd & Hseen & Ht1 & Hk); [|lia|done|].
  - split_and!; [|done|].
    + apply (GetTGResource_exact MO); rewrite ?Erm; try done; [lia|].
      intros Hin. apply Hseen in Hin. set_solver.
    + intros k. rewrite Hk, total_insert. unfold tg_request. rewrite Erm. simpl.
      rewrite (sum_by_perm _ _ _ (go_range_perm _)). repeat case_bool_decide; subst; try lia; done.
  - intros k. rewrite total_insert. specialize (Ht k). case_bool_decide; lia.
Qed.

Lemma validateTaskGroups_ok (MO : MapOrder) tgs totals totals' :
  Forall (λ tg, in_int32 (tg_MinMember tg)) tgs → totals_ok totals →
  foldl validateTaskGroup (inr totals) tgs = inr totals' →
  Forall tg_exact tgs ∧
  (∀ k, 0 <= total totals k + sum_by (λ tg, tg_request tg k) tgs <= MaxInt64)%Z.
Proof.
  intros Hr. revert totals. induction Hr as [|tg tgs Hr Hrs IH]; intros totals Ht; cbn [foldl].
  { intros _. split; [done|]. intros k. simpl. specialize (Ht k). lia. }
  destruct (validateTaskGroup (inr totals) tg) as [err|totals1] eqn:E.
  { by rewrite validateTaskGroup_error. }
  apply validateTaskGroup_ok in E as (Htg & Ht1 & Hk1); [|done..].
  intros (Htgs & Hsum)%IH; [|done]. split; [by constructor|].
  intros k. specialize (Hsum k). simpl. rewrite Hk1 in Hsum. lia.
Qed.

(** Adding up exact requests. *)
Lemma addTaskGroupAsks_exact (MO : MapOrder) tgs ask k :
  Forall tg_exact tgs → (∀ tg, tg ∈ tgs → res_ok (GetTGResource (default ∅ (tg_MinResource tg)) (tg_MinMember tg))) →
  res_ok ask → (0 <= res_get ask k)%Z →
  (res_get ask k + sum_by (λ tg, tg_request tg k) tgs <= MaxInt64)%Z →
  res_get (addTaskGroupAsks ask tgs) k =
  (res_get ask k + sum_by (λ tg, tg_request tg k) tgs)%Z.
Proof.
  intros Htgs. revert ask. induction Htgs as [|tg tgs Htg Htgs IH]; intros ask Hok Hask Hnn0 Hmax.
  { simpl. lia. }
  destruct (Htg MO k) as [Hget Hnn]. cbn [sum_by] in *.
  assert (Hsum : (0 <= sum_by (λ tg, tg_request tg k) tgs)%Z).
  { apply sum_by_nonneg. apply (Forall_impl _ _ _ Htgs). intros tg' Hx. apply (Hx MO k). }
  assert (Hrok := Hok tg (list_elem_of_here _ _)).
  assert (Hadd : res_get (Add (Some ask) (Some (GetTGResource (default ∅ (tg_MinResource tg))
      (tg_MinMember tg)))) k = (res_get ask k + tg_request tg k)%Z).
  { rewrite res_get_Add by done. simpl. rewrite Hget. apply wrap64_id.
    unfold in_int64, MinInt64. lia. }
  change (addTaskGroupAsks ask (tg :: tgs)) with (addTaskGroupAsks (Add (Some ask)
    (Some (GetTGResource (default ∅ (tg_MinResource tg)) (tg_MinMember tg)))) tgs).
  rewrite IH, Hadd; [lia| |by apply res_ok_Add|lia|lia].
  intros tg' Hin. apply Hok. by right.
Qed.

Lemma res_ok_GetTGResource (MO : MapOrder) rm members :
  in_int32 members → res_ok (GetTGResource rm members).
Proof.
  intros Hm. unfold GetTGResource, GetTGResource_entries.
  assert (Hok : res_ok (AddResource ∅ "pods" members)).
  { apply res_ok_insert; [apply res_ok_empty|].
    unfold in_int32, in_int64, MinInt32, MaxInt32, MinInt64, MaxInt64 in *. lia. }
  revert Hok. generalize (AddResource ∅ "pods" members). induction (go_range rm) as [|e es IH];
    intros acc Hok; simpl; [done|].
  apply IH. unfold tg_entry, AddResource. case_bool_decide; apply res_ok_insert; auto using wrap64_range.
Qed.

(** ** Theorems: validated task groups *)

(** C36: when the task groups of an annotation are accepted, the placeholder
    request of the gang is computed without overflow: for every group and
    every resource the 64-bit request equals the exact product of members and
    (rounded up) amount and is not negative, whatever the order of the map
    iteration, and the sum over all groups that the application sends to the
    core equals the exact sum and fits an [int64]. *)
Theorem accepted_task_groups_are_exact `{MO : MapOrder} `{TJ : TaskGroupJson} pod tgs k :
  GetTaskGroupsFromAnnotation pod = inr tgs →
  Forall tg_exact tgs ∧
  (0 <= sum_by (λ tg, tg_request tg k) tgs <= MaxInt64)%Z ∧
  ∀ MO2 : MapOrder, res_get (addTaskGroupAsks ∅ tgs) k = sum_by (λ tg, tg_request tg k) tgs.
Proof.
  unfold GetTaskGroupsFromAnnotation. case_bool_decide as He.
  { intros [= <-]. split_and!; done. }
  destruct (json_task_groups _) as [l|] eqn:Ej; [|done].
  destruct (foldl _ _ _) as [err|totals] eqn:E; [done|]. intros [= <-].
  pose proof (json_task_groups_range _ _ Ej) as Hr.
  apply validateTaskGroups_ok in E as [Hex Hsum]; [|done|].
  2:{ intros k'. unfold total. by rewrite lookup_empty. }
  specialize (Hsum k). change (total ∅ k) with 0%Z in Hsum. split_and!; [done|lia|lia|].
  intros MO2. rewrite addTaskGroupAsks_exact; [done|done| |apply res_ok_empty|done|].
  - intros tg Hin. apply res_ok_GetTGResource. by apply (proj1 (Forall_forall _ _) Hr).
  - change (res_get ∅ k) with 0%Z. lia.
Qed.

(** What the validation establishes of a single group. *)
Record tg_wellformed (tg : TaskGroup) : Prop := {
  tw_name : tg_Name tg ≠ "";
  tw_resources : is_Some (tg_MinResource tg);
  tw_members : (1 <= tg_MinMember tg)%Z;
  tw_entries : Forall (entry_ok (tg_MinMember tg)) (map_to_list (default ∅ (tg_MinResource tg)));
  tw_distinct : NoDup ("pods" :: (canonicalName <$> (map_to_list (default ∅ (tg_MinResource tg))).*1))
}.

Lemma validateTaskGroup_wellformed (MO : MapOrder) totals tg totals' :
  in_int32 (tg_MinMember tg) → totals_ok totals →
  validateTaskGroup (inr totals) tg = inr totals' → tg_wellformed tg.
Proof.
  intros Hr Ht. unfold validateTaskGroup. case_bool_decide as Hname; [done|].
  destruct (tg_MinResource tg) as [rm|] eqn:Erm; [|done].
  destruct (Z.eqb_spec (tg_MinMember tg) 0) as [|H0]; [done|].
  destruct (Z.ltb_spec (tg_MinMember tg) 0) as [|H1]; [done|].
  unfold validateTaskGroupResources. rewrite Erm.
  destruct (Z.ltb_spec (MaxInt64 - tg_MinMember tg) (total totals "pods")) as [|Hp]; [done|].
  pose proof (Ht "pods") as Htp.
  rewrite wrap64_id by (unfold in_int64, MinInt64; lia).
  destruct (foldl _ _ _) as [err|[seen' totals1]] eqn:E; [done|]. intros [= <-].
  apply validate_loop in E as (Hes & Hnd & Hseen & _ & _); [|lia|done|].
  - assert (Hpods : "pods" ∉ (canonicalName <$> (go_range rm).*1)).
    { intros Hin. apply Hseen in Hin. set_solver. }
    cbn [default from_option] in Hes, Hnd. rewrite go_range_perm in Hes, Hnd, Hpods.
    split; rewrite ?Erm; try done; [lia|]. by constructor.
  - intros k. rewrite total_insert. specialize (Ht k). case_bool_decide; lia.
Qed.

Lemma validateTaskGroups_wellformed (MO : MapOrder) tgs totals totals' :
  Forall (λ tg, in_int32 (tg_MinMember tg)) tgs → totals_ok totals →
  foldl validateTaskGroup (inr totals) tgs = inr totals' → Forall tg_wellformed tgs.
Proof.
  intros Hr. revert totals. induction Hr as [|tg tgs Hr Hrs IH]; intros totals Ht; cbn [foldl]; [done|].
  destruct (validateTaskGroup (inr totals) tg) as [err|totals1] eqn:E.
  { by rewrite validateTaskGroup_error. }
  pose proof (validateTaskGroup_wellformed _ _ _ _ Hr Ht E).
  apply validateTaskGroup_ok in E as (_ & Ht1 & _); [|done..].
  intros Hf. constructor; [done|]. by eapply IH.
Qed.

Lemma accepted_wellformed `{MO : MapOrder} `{TJ : TaskGroupJson} pod tgs :
  GetTaskGroupsFromAnnotation pod = inr tgs → Forall tg_wellformed tgs.
Proof.
  unfold GetTaskGroupsFromAnnotation. case_bool_decide as He; [by intros [= <-]|].
  destruct (json_task_groups _) as [l|] eqn:Ej; [|done].
  destruct (foldl _ _ _) as [err|totals] eqn:E; [done|]. intros [= <-].
  eapply validateTaskGroups_wellformed; [by eapply json_task_groups_range| |exact E].
  intros k. unfold total. by rewrite lookup_empty.
Qed.

(** ** What a placeholder requests *)

Lemma GetPlaceholderResourceRequests_eq rm :
  GetPlaceholderResourceRequests rm = delete "" rm.
Proof.
  unfold GetPlaceholderResourceRequests.
  apply (map_fold_weak_ind (λ r m, r = delete "" m)); [done|].
  intros k q m r Hk ->. case_bool_decide as He.
  - subst k. by rewrite delete_insert_eq.
  - by rewrite delete_insert_ne.
Qed.

(** [getResource] on entries whose canonical names are distinct. *)
Lemma getResource_sum members es k :
  (1 <= members)%Z → Forall (entry_ok members) es → NoDup (canonicalName <$> es.*1) →
  res_get (foldr (λ e r, add_entry e.1 e.2 r) ∅ es) k = sum_by (contribution 1 k) es ∧
  (k ∉ canonicalName <$> es.*1 → sum_by (contribution 1 k) es = 0%Z).
Proof.
  intros Hm Hes. revert k. induction Hes as [|e es [H0 Hv Hf] Hes IH]; intros k Hnd; [done|].
  rewrite !fmap_cons in Hnd. apply NoDup_cons in Hnd as [Hne Hnd].
  assert (Hent : ∀ r, add_entry e.1 e.2 r = <[canonicalName e.1 := amount e]> r).
  { intros r. unfold add_entry, canonicalName, AddResource. rewrite <- Hv. by case_bool_decide. }
  destruct (IH k Hnd) as [IH1 IH2]. simpl. rewrite Hent. unfold contribution at 1 3, res_get.
  destruct (bool_decide_reflect (canonicalName e.1 = k)) as [Hk|Hk].
  - subst k. rewrite lookup_insert_eq. rewrite IH2 by done. split; [simpl; lia|].
    rewrite not_elem_of_cons. tauto.
  - rewrite lookup_insert_ne by done. split; [exact IH1|].
    rewrite not_elem_of_cons. intros [_ Hk']. rewrite IH2 by done. lia.
Qed.

Lemma sum_contribution members k es :
  sum_by (contribution members k) es = (members * sum_by (contribution 1 k) es)%Z.
Proof.
  induction es as [|e es IH]; simpl; [lia|]. rewrite IH. unfold contribution.
  destruct (bool_decide_reflect (canonicalName e.1 = k)); lia.
Qed.

(** A pod with one container and nothing else. *)
Lemma GetPodResource_single pod c k :
  spec_Containers (pod_Spec pod) = [c] → spec_InitContainers (pod_Spec pod) = [] →
  spec_Resources (pod_Spec pod) = None → spec_Overhead (pod_Spec pod) = None →
  st_ContainerStatuses (pod_Status pod) = [] → st_InitContainerStatuses (pod_Status pod) = [] →
  res_nonneg (getResource (c_Requests c)) → res_get (getResource (c_Requests c)) "pods" = 0%Z →
  res_get (GetPodResource pod) k =
  ((if k =s "pods" then 1 else 0) + res_get (getResource (c_Requests c)) k)%Z.
Proof.
  intros Hc Hi Hr Ho Hs Hsi Hnn Hp. unfold GetPodResource.
  rewrite Hc, Hi, Hr, Ho. cbn [foldl].
  unfold computeContainerResource, containerStatuses. rewrite Hs, Hsi. cbn [app foldl].
  rewrite lookup_empty.
  assert (Hcomb : ∀ k, res_get (updateMax ∅ (Some (getResource (c_Requests c)))) k =
    res_get (getResource (c_Requests c)) k).
  { intros k'. rewrite res_get_updateMax; simpl; [|done|apply Hnn].
    change (res_get ∅ k') with 0%Z. specialize (Hnn k'). lia. }
  assert (Hrok : res_ok (updateMax ∅ (Some (getResource (c_Requests c))))).
  { apply res_ok_updateMax; [apply res_ok_empty|apply res_ok_getResource]. }
  assert (H1 : res_ok (<["pods" := 1%Z]> ∅)) by (apply res_ok_insert; [apply res_ok_empty|done]).
  rewrite res_get_Add by done. simpl res_of. rewrite Hcomb, res_get_one_pod.
  apply wrap64_id. pose proof (res_get_ok _ k (res_ok_getResource (c_Requests c))) as Hk.
  case_bool_decide; [subst; rewrite Hp; done|]. by rewrite Z.add_0_l.
Qed.


(** The request of one member of a well-formed group. *)
Lemma member_request tg k :
  tg_wellformed tg → default ∅ (tg_MinResource tg) !! "" = None →
  let r := getResource (GetPlaceholderResourceRequests (default ∅ (tg_MinResource tg))) in
  res_get r k = sum_by (contribution 1 k) (map_to_list (default ∅ (tg_MinResource tg))) ∧
  (0 <= res_get r k)%Z ∧ res_get r "pods" = 0%Z.
Proof.
  intros [_ _ Hm Hes Hnd] Hempty r. apply NoDup_cons in Hnd as [Hpods Hnd].
  subst r. rewrite GetPlaceholderResourceRequests_eq, delete_id by done.
  set (rm := default ∅ (tg_MinResource tg)) in *.
  assert (Hf : getResource rm = foldr (λ e r, add_entry e.1 e.2 r) ∅ (map_to_list rm)).
  { unfold getResource. rewrite map_fold_foldr. clear. induction (map_to_list rm) as [|[] l IH]; simpl; by rewrite ?IH. }
  rewrite Hf. destruct (getResource_sum _ _ k Hm Hes Hnd) as [Hk _].
  destruct (getResource_sum _ _ "pods" Hm Hes Hnd) as [Hp Hz].
  split_and!; [done| |by rewrite Hp, Hz].
  rewrite Hk. apply sum_by_nonneg. apply (Forall_impl _ _ _ Hes). intros e He.
  destruct He as [H0 _ _]. unfold contribution.
  destruct (bool_decide_reflect (canonicalName e.1 = k)); lia.
Qed.

(** C39: the request sent to the core for a gang is what its placeholders will
    ask for: for an accepted group (without an unnamed resource), the request
    of one placeholder pod times the number of members is the request of the
    group, for every resource. *)
Theorem placeholders_add_up_to_group_ask `{MO : MapOrder} `{TJ : TaskGroupJson} `{SiConstants}
    pod tgs tg conf name app k :
  GetTaskGroupsFromAnnotation pod = inr tgs → tg ∈ tgs →
  default ∅ (tg_MinResource tg) !! "" = None →
  (tg_MinMember tg * res_get (GetPodResource (newPlaceholder conf name app tg)) k)%Z =
  res_get (GetTGResource (default ∅ (tg_MinResource tg)) (tg_MinMember tg)) k.
Proof.
  intros Hacc Hin Hempty. pose proof (accepted_wellformed pod tgs Hacc) as Hw.
  rewrite Forall_forall in Hw. specialize (Hw tg Hin).
  assert (Hmr := λ k, member_request tg k Hw Hempty). cbn zeta in Hmr.
  rewrite (GetPodResource_single _ (mkContainer PlaceholderContainerName
      (if ph_Image conf <>s "" then ph_Image conf else PlaceholderContainerImage)
      (GetPlaceholderResourceRequests (default ∅ (tg_MinResource tg))) None)); try done.
  - cbn [c_Requests]. rewrite (proj1 (Hmr k)).
    assert (Hex : tg_exact tg).
    { destruct Hw as [_ _ Hm Hes Hnd]. apply NoDup_cons in Hnd as [Hpods Hnd].
      apply (GetTGResource_exact MO); [done| | |]; by rewrite go_range_perm. }
    rewrite (proj1 (Hex MO k)). unfold tg_request. rewrite (sum_contribution (tg_MinMember tg)).
    case_bool_decide; lia.
  - intros k'. cbn. apply Hmr.
  - cbn. apply (Hmr k).
Qed.

End ValidationFacts.

(** ** Theorems: placeholders *)

Lemma generateNonce_length intn i n :
  (∀ i, intn i < String.length letterBytes) → String.length (generateNonce intn i n) = n.
Proof.
  intros Hi. assert (Hget : ∀ j, j < String.length letterBytes → is_Some (String.get j letterBytes)).
  { intros j. do 36 (destruct j as [|j]; [intros _; eauto|]). simpl. lia. }
  revert i. induction n as [|n IH]; intros i; [done|]. cbn [generateNonce].
  destruct (Hget (intn i) (Hi i)) as [c ->]. cbn [String.length]. by rewrite IH.
Qed.

(** A placeholder name is a valid pod name as far as its length goes: at
    most 63 characters for ASCII names, with a nonce of exactly 10. *)
Theorem GeneratePlaceholderName_length intn taskGroupName appID :
  (∀ i, intn i < String.length letterBytes) → is_ascii taskGroupName = true → is_ascii appID = true →
  15 ≤ String.length (GeneratePlaceholderName intn taskGroupName appID) ≤ 63.
Proof.
  intros Hi Ht Ha. unfold GeneratePlaceholderName. rewrite !string_length_app.
  rewrite generateNonce_length by done.
  pose proof (truncate_length_ascii 28 appID Ha). pose proof (truncate_length_ascii 20 taskGroupName Ht).
  simpl. lia.
Qed.

Lemma GeneratePlaceholderName_length_witness :
  15 ≤ String.length (GeneratePlaceholderName (λ _, 7) "workers" "app-1") ≤ 63.
Proof. apply GeneratePlaceholderName_length; [intros _; simpl; lia|reflexivity..]. Defined.

(** The scheduling policy parameters of a pod always have a known gang
    style, Soft unless the last style given is Hard, and an [int64] timeout,
    whatever the annotation holds. *)
Theorem GetSchedulingPolicyParam_style pod :
  gangSchedulingStyle (GetSchedulingPolicyParam pod) ∈ ["Soft"; "Hard"] ∧
  in_int64 (placeholderTimeout (GetSchedulingPolicyParam pod)).
Proof.
  unfold GetSchedulingPolicyParam. case_bool_decide; [split; [left|done]|].
  assert (Hstep : ∀ ps acc, in_int64 acc.1 → acc.2 ∈ ["Soft"; "Hard"] →
    in_int64 (foldl parsePolicyParam acc ps).1 ∧ (foldl parsePolicyParam acc ps).2 ∈ ["Soft"; "Hard"]).
  { induction ps as [|p ps IH]; intros [timeout style] Ht Hs; [done|]. cbn [foldl]. apply IH.
    - unfold parsePolicyParam. destruct (Split p _) as [|name [|value [|]]]; try done.
      case_bool_decide; [|by case_bool_decide]. simpl.
      pose proof (ParseInt_range value 64 ltac:(lia)). unfold in_int64, MinInt64, MaxInt64. lia.
    - unfold parsePolicyParam. destruct (Split p _) as [|name [|value [|]]]; try done.
      case_bool_decide; [done|]. case_bool_decide; [|done]. cbn [snd].
      unfold go_get, SchedulingPolicyStyleParamValues, SchedulingPolicyStyleParamDefault.
      destruct (decide (value = "Hard")) as [->|]; [right; left|].
      destruct (decide (value = "Soft")) as [->|]; [left|].
      rewrite !lookup_insert_ne, lookup_empty by done. left. }
  specialize (Hstep (Split (GetPodAnnotationValue pod AnnotationSchedulingPolicyParam)
    SchedulingPolicyParamDelimiter) (0%Z, SchedulingPolicyStyleParamDefault)).
  destruct (foldl _ _ _) as [timeout style]. cbn in Hstep |- *.
  destruct Hstep; [done|left|done].
Qed.

(** The annotation keys a placeholder pod carries are different. *)
Definition placeholder_keys_distinct `{SiConstants} : Prop :=
  AnnotationPlaceholderFlag ∉
    [AnnotationTaskGroupName; AnnotationTaskGroups; AnnotationSchedulingPolicyParam].

Lemma MergeMaps_one first k v :
  default ∅ (MergeMaps first (Some (<[k := v]> ∅))) = <[k := v]> (default ∅ first).
Proof.
  rewrite MergeMaps_default. cbn. by rewrite <- insert_union_l, (left_id_L ∅ (∪)).
Qed.

Lemma MergeMaps_two first k v k' v' :
  default ∅ (MergeMaps first (Some (<[k := v]> (<[k' := v']> ∅)))) =
  <[k := v]> (<[k' := v']> (default ∅ first)).
Proof.
  rewrite MergeMaps_default. cbn. by rewrite <- !insert_union_l, (left_id_L ∅ (∪)).
Qed.

(** The annotations of a placeholder pod. *)
Lemma placeholder_annotations `{SiConstants} conf name app tg :
  placeholder_keys_distinct →
  let pod := newPlaceholder conf name app tg in
  GetPodAnnotationValue pod AnnotationPlaceholderFlag = True_ ∧
  GetPodAnnotationValue pod AnnotationTaskGroupName = tg_Name tg ∧
  (pa_TaskGroupsDefinition app ≠ "" →
     GetPodAnnotationValue pod AnnotationTaskGroups = pa_TaskGroupsDefinition app) ∧
  (pa_SchedulingParamsDefinition app ≠ "" →
     GetPodAnnotationValue pod AnnotationSchedulingPolicyParam = pa_SchedulingParamsDefinition app).
Proof.
  unfold placeholder_keys_distinct. rewrite !not_elem_of_cons. intros (Hd1 & Hd2 & Hd3 & _).
  unfold GetPodAnnotationValue. cbn [newPlaceholder pod_Annotations].
  repeat case_bool_decide; cbn [negb]; rewrite ?MergeMaps_one, ?MergeMaps_two;
    split_and!; intros; try done;
    repeat first [rewrite lookup_insert_eq | rewrite lookup_insert_ne by done]; done.
Qed.

(** What the shim reads back from a placeholder pod after a restart is what
    the application put there: the pod belongs to the same application and
    queue, is a placeholder of the same task group, and carries the task group
    and scheduling policy definitions of the application. *)
Theorem placeholder_pod_roundtrip `{SiConstants} conf name app tg :
  placeholder_keys_distinct → DisableGangScheduling conf = false →
  pa_ApplicationID app ≠ "" → HasSuffix (pa_ApplicationID app) uniqueAutogenSuffix = false →
  pa_Queue app ≠ "" →
  let pod := newPlaceholder conf name app tg in
  getTaskMetadata conf pod =
    Some (mkTaskMetadata (pa_ApplicationID app) (pod_UID pod) pod true (tg_Name tg)) ∧
  GetQueueNameFromPod pod = pa_Queue app ∧
  (pa_TaskGroupsDefinition app ≠ "" →
     GetPodAnnotationValue pod AnnotationTaskGroups = pa_TaskGroupsDefinition app) ∧
  (pa_SchedulingParamsDefinition app ≠ "" →
     GetPodAnnotationValue pod AnnotationSchedulingPolicyParam = pa_SchedulingParamsDefinition app).
Proof.
  intros Hkeys Hgang Hid Hsuf Hq pod.
  destruct (placeholder_annotations conf name app tg Hkeys) as (Hf & Hn & Ht & Hs).
  fold pod in Hf, Hn, Ht, Hs. split_and!; try done.
  - assert (Happ : GetApplicationIDFromPod (GenerateUniqueAppIds conf) pod = pa_ApplicationID app).
    { unfold GetApplicationIDFromPod. cbn [pod newPlaceholder pod_Spec spec_SchedulerName].
      rewrite bool_decide_eq_true_2 by done. cbn [negb].
      assert (Hl : GetPodLabelValue pod CanonicalLabelApplicationID = pa_ApplicationID app).
      { unfold GetPodLabelValue. cbn [pod newPlaceholder pod_Labels].
        by rewrite MergeMaps_two, lookup_insert_eq. }
      rewrite Hl, !(bool_decide_eq_false_2 (pa_ApplicationID app = "")), Hsuf by done.
      by rewrite (bool_decide_eq_false_2 (pa_ApplicationID app = "")). }
    unfold getTaskMetadata. rewrite Happ, bool_decide_eq_false_2, Hgang by done.
    unfold GetPlaceholderFlagFromPodSpec, GetTaskGroupFromPodSpec. by rewrite Hf, Hn.
  - unfold GetQueueNameFromPod.
    assert (Hl : GetPodLabelValue pod CanonicalLabelQueueName = pa_Queue app).
    { unfold GetPodLabelValue. cbn [pod newPlaceholder pod_Labels].
      by rewrite MergeMaps_two, lookup_insert_ne, lookup_insert_eq. }
    rewrite Hl. by rewrite bool_decide_eq_false_2.
Qed.

(** ** Closed examples *)

Definition example_tg : TaskGroup :=
  mkTaskGroup "workers" 3 None None
    (Some (<["cpu" := mkQuantity 1500000000]> (<["memory" := mkQuantity 2000000000]> ∅)))
    ∅ [] None [].

Definition json_ref (s : string) : option (list TaskGroup) :=
  if s =s "groups" then Some [example_tg] else None.

#[export] Instance task_group_json_ref : TaskGroupJson.
Proof.
  refine {| json_task_groups := json_ref |}. unfold json_ref. intros s l.
  case_bool_decide; [|done]. intros [= <-]. repeat constructor; by vm_compute.
Defined.

Definition gang_pod : Pod :=
  mkPod "p" "default" "uid-1" ∅ (<[AnnotationTaskGroups := "groups"]> ∅) 0 []
    (spec_ref "" [] [] None []) (status_ref PodPending).

Lemma accepted_task_groups_are_exact_witness :
  res_get (addTaskGroupAsks ∅ [example_tg]) "vcore" = 4500%Z ∧
  GetTaskGroupsFromAnnotation gang_pod = inr [example_tg].
Proof.
  assert (Hacc : GetTaskGroupsFromAnnotation gang_pod = inr [example_tg]) by (vm_compute; reflexivity).
  split; [|exact Hacc].
  rewrite (proj2 (proj2 (accepted_task_groups_are_exact gang_pod [example_tg] "vcore" Hacc)) _).
  vm_compute. reflexivity.
Defined.


Definition example_conf : ShimConf := mkShimConf false false "" 0 0 0.

Definition example_app : PlaceholderApp :=
  mkPlaceholderApp "app-1" "root.default" (<[AppTagNamespace := "default"]> ∅) [] "groups" "" "".

Lemma placeholders_add_up_to_group_ask_witness :
  (3 * res_get (GetPodResource (@newPlaceholder si_constants_ref example_conf "tg-1" example_app
     example_tg)) "vcore")%Z =
  res_get (GetTGResource (default ∅ (tg_MinResource example_tg)) 3) "vcore".
Proof.
  refine (@placeholders_add_up_to_group_ask _ _ _ _ si_constants_ref gang_pod [example_tg]
    example_tg example_conf "tg-1" example_app "vcore" _ _ _);
    [vm_compute; reflexivity|left|vm_compute; reflexivity].
Defined.

Lemma placeholder_pod_roundtrip_witness :
  let pod := @newPlaceholder si_constants_ref example_conf "tg-1" example_app example_tg in
  @getTaskMetadata si_constants_ref example_conf pod =
    Some (mkTaskMetadata "app-1" (pod_UID pod) pod true "workers").
Proof.
  apply (@placeholder_pod_roundtrip si_constants_ref example_conf "tg-1" example_app example_tg);
    try done. unfold placeholder_keys_distinct. rewrite !not_elem_of_cons. split_and!; try done.
  apply not_elem_of_nil.
Defined.
