(* ===== verification/Conf.v ===== *)
(** * The scheduler configuration

    Source: pkg/conf/schedulerconf.go.

    The configuration is read from two config maps, the second of which overrides
    the first.  It is parsed as a whole, on top of the defaults, and a running
    scheduler only takes over the settings that can be changed without a
    restart.

    The environment variables, the build version and the gzip decoder are
    arguments of the definitions (the class [ConfEnv]).  The texts of parse
    errors are not modelled: an error is the entry that could not be parsed. *)

From S2P Require Import Prelude.
From S2P Require Import GoStrings.
From S2P Require Import GoTime.
From S2P Require Import K8sApi.
From S2P Require Import Constants.
From S2P Require Import TaskGroups.

(** ** Keys *)

Definition EnvHome : string := "HOME".
Definition EnvKubeConfig : string := "KUBECONFIG".
Definition EnvNamespace : string := "NAMESPACE".

Definition PrefixService : string := "service.".
Definition PrefixKubernetes : string := "kubernetes.".
Definition PrefixAdmissionController : string := "admissionController.".

Definition CMSvcClusterID := PrefixService +:+ "clusterId".
Definition CMSvcPolicyGroup := PrefixService +:+ "policyGroup".
Definition CMSvcSchedulingInterval := PrefixService +:+ "schedulingInterval".
Definition CMSvcVolumeBindTimeout := PrefixService +:+ "volumeBindTimeout".
Definition CMSvcEventChannelCapacity := PrefixService +:+ "eventChannelCapacity".
Definition CMSvcDispatchTimeout := PrefixService +:+ "dispatchTimeout".
Definition CMSvcDisableGangScheduling := PrefixService +:+ "disableGangScheduling".
Definition CMSvcEnableConfigHotRefresh := PrefixService +:+ "enableConfigHotRefresh".
Definition CMSvcPlaceholderImage := PrefixService +:+ "placeholderImage".
Definition CMSvcPlaceholderRunAsUser := PrefixService +:+ "placeholderRunAsUser".
Definition CMSvcPlaceholderRunAsGroup := PrefixService +:+ "placeholderRunAsGroup".
Definition CMSvcPlaceholderFSGroup := PrefixService +:+ "placeholderFsGroup".
Definition CMSvcNodeInstanceTypeNodeLabelKey := PrefixService +:+ "nodeInstanceTypeNodeLabelKey".
Definition CMKubeQPS := PrefixKubernetes +:+ "qps".
Definition CMKubeBurst := PrefixKubernetes +:+ "burst".
Definition PrefixAMFiltering := PrefixAdmissionController +:+ "filtering.".
Definition AMFilteringGenerateUniqueAppIds := PrefixAMFiltering +:+ "generateUniqueAppId".

(** ** Configurations *)

(** Durations are in nanoseconds. *)
Definition Second : Z := 1000000000.
Definition Minute : Z := (60 * Second)%Z.

Record PlaceHolderConfig := mkPlaceHolderConfig {
  phc_Image : string;
  phc_RunAsUser : Z;
  phc_RunAsGroup : Z;
  phc_FSGroup : Z
}.

Record SchedulerConf := mkSchedulerConf {
  sc_SchedulerName : string;
  sc_ClusterID : string;
  sc_ClusterVersion : string;
  sc_PolicyGroup : string;
  sc_Interval : Z;
  sc_KubeConfig : string;
  sc_VolumeBindTimeout : Z;
  sc_EventChannelCapacity : Z;
  sc_DispatchTimeout : Z;
  sc_KubeQPS : Z;
  sc_KubeBurst : Z;
  sc_EnableConfigHotRefresh : bool;
  sc_DisableGangScheduling : bool;
  sc_PlaceHolderConfig : PlaceHolderConfig;
  sc_InstanceTypeNodeLabelKey : string;
  sc_Namespace : string;
  sc_GenerateUniqueAppIds : bool
}.

(** The settings the rest of the shim reads while it runs. *)
Definition shim_conf (c : SchedulerConf) : ShimConf :=
  mkShimConf (sc_GenerateUniqueAppIds c) (sc_DisableGangScheduling c)
    (phc_Image (sc_PlaceHolderConfig c)) (phc_RunAsUser (sc_PlaceHolderConfig c))
    (phc_RunAsGroup (sc_PlaceHolderConfig c)) (phc_FSGroup (sc_PlaceHolderConfig c)).

Class ConfEnv := {
  os_LookupEnv : string → option string;
  buildVersion : string;
  (* the decompressed data, or an error of the reader *)
  gunzip : string → option string
}.

(** ** Parsing *)

Record configParser := mkConfigParser {
  cp_errors : list (string * string);
  cp_config : gmap string string
}.

Definition newConfigParser (config : gmap string string) : configParser := mkConfigParser [] config.

(** A variable is set from its entry, if there is one that can be parsed; an
    entry that cannot be parsed is an error. *)
Definition parseVar {A} (parse : string → option A) (cp : configParser) (p : A) (name : string) :
    A * configParser :=
  match cp_config cp !! name with
  | None => (p, cp)
  | Some newValue =>
      match parse newValue with
      | Some value => (value, cp)
      | None => (p, mkConfigParser (cp_errors cp ++ [(name, newValue)]) (cp_config cp))
      end
  end.

(** [strconv.ParseInt(newValue, 10, bits)] *)
Definition parse_int (bits : Z) (newValue : string) : option Z :=
  let '(value, err) := ParseInt newValue bits in if (err : bool) then None else Some value.

Definition stringVar : configParser → string → string → string * configParser := parseVar Some.
Definition intVar : configParser → Z → string → Z * configParser := parseVar (parse_int 32).
Definition boolVar : configParser → bool → string → bool * configParser := parseVar ParseBool.
Definition durationVar : configParser → Z → string → Z * configParser := parseVar ParseDuration.
Definition int64Var : configParser → Z → string → Z * configParser := parseVar (parse_int 64).

(** The configuration, or the entries that could not be parsed. *)
Definition parseConfig (config : gmap string string) (prev : SchedulerConf) :
    SchedulerConf + list (string * string) :=
  let conf := prev in
  if bool_decide (config = ∅) then inl conf
  else
    let parser := newConfigParser config in
    let ph := sc_PlaceHolderConfig conf in
    let '(clusterID, parser) := stringVar parser (sc_ClusterID conf) CMSvcClusterID in
    let '(policyGroup, parser) := stringVar parser (sc_PolicyGroup conf) CMSvcPolicyGroup in
    let '(interval, parser) := durationVar parser (sc_Interval conf) CMSvcSchedulingInterval in
    let '(volumeBindTimeout, parser) := durationVar parser (sc_VolumeBindTimeout conf) CMSvcVolumeBindTimeout in
    let '(eventChannelCapacity, parser) := intVar parser (sc_EventChannelCapacity conf) CMSvcEventChannelCapacity in
    let '(dispatchTimeout, parser) := durationVar parser (sc_DispatchTimeout conf) CMSvcDispatchTimeout in
    let '(disableGang, parser) := boolVar parser (sc_DisableGangScheduling conf) CMSvcDisableGangScheduling in
    let '(hotRefresh, parser) := boolVar parser (sc_EnableConfigHotRefresh conf) CMSvcEnableConfigHotRefresh in
    let '(image, parser) := stringVar parser (phc_Image ph) CMSvcPlaceholderImage in
    let '(runAsUser, parser) := int64Var parser (phc_RunAsUser ph) CMSvcPlaceholderRunAsUser in
    let '(runAsGroup, parser) := int64Var parser (phc_RunAsGroup ph) CMSvcPlaceholderRunAsGroup in
    let '(fsGroup, parser) := int64Var parser (phc_FSGroup ph) CMSvcPlaceholderFSGroup in
    let '(labelKey, parser) := stringVar parser (sc_InstanceTypeNodeLabelKey conf) CMSvcNodeInstanceTypeNodeLabelKey in
    let '(qps, parser) := intVar parser (sc_KubeQPS conf) CMKubeQPS in
    let '(burst, parser) := intVar parser (sc_KubeBurst conf) CMKubeBurst in
    let '(uniqueAppIds, parser) := boolVar parser (sc_GenerateUniqueAppIds conf) AMFilteringGenerateUniqueAppIds in
    match cp_errors parser with
    | [] =>
        inl (mkSchedulerConf (sc_SchedulerName conf) clusterID (sc_ClusterVersion conf) policyGroup interval
               (sc_KubeConfig conf) volumeBindTimeout eventChannelCapacity dispatchTimeout qps burst
               hotRefresh disableGang (mkPlaceHolderConfig image runAsUser runAsGroup fsGroup) labelKey
               (sc_Namespace conf) uniqueAppIds)
    | errors => inr errors
    end.

(** ** Settings that need a restart *)

(** The checks differ in the type of the setting only. *)
Definition checkNonReloadable {A} `{EqDecision A} (old new : A) : A :=
  if decide (old = new) then new else old.

Definition checkNonReloadableString : string → string → string := checkNonReloadable.
Definition checkNonReloadableDuration : Z → Z → Z := checkNonReloadable.
Definition checkNonReloadableInt : Z → Z → Z := checkNonReloadable.
Definition checkNonReloadableInt64 : Z → Z → Z := checkNonReloadable.
Definition checkNonReloadableBool : bool → bool → bool := checkNonReloadable.

Definition handleNonReloadableConfig (old new : SchedulerConf) : SchedulerConf :=
  mkSchedulerConf (sc_SchedulerName new)
    (checkNonReloadableString (sc_ClusterID old) (sc_ClusterID new))
    (sc_ClusterVersion new)
    (checkNonReloadableString (sc_PolicyGroup old) (sc_PolicyGroup new))
    (checkNonReloadableDuration (sc_Interval old) (sc_Interval new))
    (sc_KubeConfig new)
    (checkNonReloadableDuration (sc_VolumeBindTimeout old) (sc_VolumeBindTimeout new))
    (checkNonReloadableInt (sc_EventChannelCapacity old) (sc_EventChannelCapacity new))
    (checkNonReloadableDuration (sc_DispatchTimeout old) (sc_DispatchTimeout new))
    (checkNonReloadableInt (sc_KubeQPS old) (sc_KubeQPS new))
    (checkNonReloadableInt (sc_KubeBurst old) (sc_KubeBurst new))
    (sc_EnableConfigHotRefresh new)
    (checkNonReloadableBool (sc_DisableGangScheduling old) (sc_DisableGangScheduling new))
    (mkPlaceHolderConfig
       (checkNonReloadableString (phc_Image (sc_PlaceHolderConfig old)) (phc_Image (sc_PlaceHolderConfig new)))
       (checkNonReloadableInt64 (phc_RunAsUser (sc_PlaceHolderConfig old))
          (phc_RunAsUser (sc_PlaceHolderConfig new)))
       (checkNonReloadableInt64 (phc_RunAsGroup (sc_PlaceHolderConfig old))
          (phc_RunAsGroup (sc_PlaceHolderConfig new)))
       (checkNonReloadableInt64 (phc_FSGroup (sc_PlaceHolderConfig old))
          (phc_FSGroup (sc_PlaceHolderConfig new))))
    (checkNonReloadableString (sc_InstanceTypeNodeLabelKey old) (sc_InstanceTypeNodeLabelKey new))
    (sc_Namespace new)
    (checkNonReloadableBool (sc_GenerateUniqueAppIds old) (sc_GenerateUniqueAppIds new)).

(** ** Flattening *)

(** The case folding of [strings.EqualFold], for ASCII. *)
Definition fold_case (c : Ascii.ascii) : Ascii.ascii :=
  if byte_in 65 90 c then Ascii.ascii_of_N (Ascii.N_of_ascii c + 32) else c.

Fixpoint EqualFold (s t : string) : bool :=
  match s, t with
  | EmptyString, EmptyString => true
  | String c s', String d t' => bool_decide (fold_case c = fold_case d) && EqualFold s' t'
  | _, _ => false
  end.

Section Conf.
Context `{ConfEnv} `{MapOrder}.

Definition Decompress (key value : string) : string * string :=
  let splitKey := Split key (Ascii.ascii_of_nat 46) in
  let compressionAlgo := default "" (last splitKey) in
  let strippedKey := TrimSuffix key ("." +:+ compressionAlgo) in
  if EqualFold compressionAlgo GzipSuffix then
    match gunzip value with
    | None => ("", "")
    | Some decompressed => (strippedKey, decompressed)
    end
  else (strippedKey, "").

Definition addBinaryData (result : gmap string string) (kv : string * string) : gmap string string :=
  let '(strippedKey, uncompressedData) := Decompress kv.1 kv.2 in
  <[strippedKey := uncompressedData]> result.

Definition flattenConfigMap (result : gmap string string) (configMap : option ConfigMap) :
    gmap string string :=
  match configMap with
  | None => result
  | Some cm =>
      let result := foldl (λ r (kv : string * string), <[kv.1 := kv.2]> r) result (go_range (cm_Data cm)) in
      foldl addBinaryData result (go_range (cm_BinaryData cm))
  end.

Definition FlattenConfigMaps (configMaps : list (option ConfigMap)) : gmap string string :=
  foldl flattenConfigMap ∅ configMaps.

(** ** The current configuration *)

Definition GetSchedulerNamespace : string := default "default" (os_LookupEnv EnvNamespace).

Definition GetDefaultKubeConfigPath : string :=
  match os_LookupEnv EnvKubeConfig with
  | Some conf => conf
  | None => default "" (os_LookupEnv EnvHome) +:+ "/.kube/config"
  end.

Definition CreateDefaultConfig : SchedulerConf :=
  mkSchedulerConf SchedulerName "mycluster" buildVersion "queues" Second GetDefaultKubeConfigPath
    (10 * Minute) (1024 * 1024) (300 * Second) 1000 1000 true false
    (mkPlaceHolderConfig PlaceholderContainerImage 0 0 0) DefaultNodeInstanceTypeNodeLabelKey
    GetSchedulerNamespace false.

(** The holder of the configuration: [None] until the default configuration has
    been stored, once. *)
Definition GetSchedulerConf (confHolder : option SchedulerConf) : SchedulerConf :=
  default CreateDefaultConfig confHolder.

Definition SetSchedulerConf (conf : SchedulerConf) (confHolder : option SchedulerConf) :
    option SchedulerConf :=
  Some conf.

(** The configuration after the call, and the error. *)
Definition UpdateConfigMaps (configMaps : list (option ConfigMap)) (initial : bool)
    (confHolder : option SchedulerConf) : option SchedulerConf * option string :=
  let prev := CreateDefaultConfig in
  let config := FlattenConfigMaps configMaps in
  match parseConfig config prev with
  | inr _ => (confHolder, Some "failed to load configmap")
  | inl newConf =>
      let newConf :=
        if negb initial then handleNonReloadableConfig (GetSchedulerConf confHolder) newConf
        else newConf in
      (SetSchedulerConf newConf confHolder, None)
  end.

End Conf.
