(* ===== verification/ConfigMaps.v ===== *)
(** * Config maps in the context

    Source: the config map handlers of pkg/cache/context.go and
    [registerShimLayer] of pkg/shim/scheduler.go.

    The context keeps the two config maps of the shim.  An event for one of them
    replaces it, reloads the configuration and tells the core about the new
    configuration, unless hot refresh is turned off.  [None] is a Go panic. *)

From S2P Require Import Prelude.
From S2P Require Import GoStrings.
From S2P Require Import K8sApi.
From S2P Require Import Constants.
From S2P Require Import PodUtils.
From S2P Require Import Logger.
From S2P Require Import TaskGroups.
From S2P Require Import Conf.

(** [UpdateConfigurationRequest]: what the core is told. *)
Record ConfigRequest := mkConfigRequest {
  cr_RmID : string;
  cr_PolicyGroup : string;
  cr_Config : string;
  cr_ExtraConfig : gmap string string
}.

(** The configuration, the loggers, the config maps of the context and the
    requests sent to the core. *)
Record ConfigState := mkConfigState {
  cs_conf : option SchedulerConf;
  cs_log : option loggerConfig;
  cs_configMaps : list (option ConfigMap);
  cs_requests : list ConfigRequest
}.

Section ConfigMaps.
Context `{ConfEnv} `{ZapLevels} `{MapOrder} (namespace : string).

(** [UpdateConfigMaps]: the configuration and the loggers, and the error. *)
Definition reload (configMaps : list (option ConfigMap)) (initial : bool) (s : ConfigState) :
    ConfigState * option string :=
  match UpdateConfigMaps configMaps initial (cs_conf s) with
  | (conf, Some err) => (mkConfigState conf (cs_log s) (cs_configMaps s) (cs_requests s), Some err)
  | (conf, None) =>
      (mkConfigState conf (UpdateLoggingConfig (cs_log s) (FlattenConfigMaps configMaps))
         (cs_configMaps s) (cs_requests s), None)
  end.

(** [setConfigMap]: the flat map of the settings, or nothing if they cannot be
    used.  The index of an assignment has to be in range. *)
Definition setConfigMap (index : nat) (configMap : option ConfigMap) (s : ConfigState) :
    option (option (gmap string string) * ConfigState) :=
  if bool_decide (index < length (cs_configMaps s)) then
    let configMaps := <[index := configMap]> (cs_configMaps s) in
    let s := mkConfigState (cs_conf s) (cs_log s) configMaps (cs_requests s) in
    match reload configMaps false s with
    | (s, Some err) => Some (None, s)
    | (s, None) => Some (Some (FlattenConfigMaps configMaps), s)
    end
  else None.

(** An error of the core is logged. *)
Definition triggerReloadConfig (index : nat) (configMap : option ConfigMap) (s : ConfigState) :
    option ConfigState :=
  if negb (sc_EnableConfigHotRefresh (GetSchedulerConf (cs_conf s))) then Some s
  else
    '(confMap, s) ← setConfigMap index configMap s;
    match confMap with
    | None => Some s
    | Some confMap =>
        let conf := GetSchedulerConf (cs_conf s) in
        let config := GetCoreSchedulerConfigFromConfigMap (sc_PolicyGroup conf) confMap in
        let extraConfig := GetExtraConfigFromConfigMap confMap in
        let request := mkConfigRequest (sc_ClusterID conf) (sc_PolicyGroup conf) config extraConfig in
        Some (mkConfigState (cs_conf s) (cs_log s) (cs_configMaps s) (cs_requests s ++ [request]))
    end.

(** The index of a config map, by name. *)
Definition configMap_index (name : string) : option nat :=
  if name =s DefaultConfigMapName then Some 0
  else if name =s ConfigMapName then Some 1
  else None.

Fixpoint filterConfigMaps (obj : InformerObject) : bool :=
  match obj with
  | ObjConfigMap cm =>
      ((cm_Name cm =s DefaultConfigMapName) || (cm_Name cm =s ConfigMapName)) && (cm_Namespace cm =s namespace)
  | ObjTombstone obj => filterConfigMaps obj
  | _ => false
  end.

Definition addConfigMaps (obj : InformerObject) (s : ConfigState) : option ConfigState :=
  configmap ← Convert2ConfigMap obj;
  match configMap_index (cm_Name configmap) with
  | Some index => triggerReloadConfig index (Some configmap) s
  | None => Some s
  end.

Definition updateConfigMaps (newObj : InformerObject) (s : ConfigState) : option ConfigState :=
  configmap ← Convert2ConfigMap newObj;
  match configMap_index (cm_Name configmap) with
  | Some index => triggerReloadConfig index (Some configmap) s
  | None => Some s
  end.

(** A deleted object may come as a tombstone, which is not a config map. *)
Definition deleteConfigMaps (obj : InformerObject) (s : ConfigState) : option ConfigState :=
  let trigger (configmap : ConfigMap) :=
    match configMap_index (cm_Name configmap) with
    | Some index => triggerReloadConfig index None s
    | None => Some s
    end in
  match obj with
  | ObjConfigMap cm => trigger cm
  | ObjTombstone _ => configmap ← Convert2ConfigMap obj; trigger configmap
  | _ => Some s
  end.

(** ** Registration *)

(** [LoadConfigMaps]; [get] reads a config map by name from the API server. *)
Definition LoadConfigMaps (get : string → option ConfigMap + string) : list (option ConfigMap) + string :=
  match get DefaultConfigMapName with
  | inr err => inr err
  | inl defaults =>
      match get ConfigMapName with
      | inr err => inr err
      | inl config => inl [defaults; config]
      end
  end.

Record RegisterRequest := mkRegisterRequest {
  rr_RmID : string;
  rr_Version : string;
  rr_PolicyGroup : string;
  rr_Config : string;
  rr_ExtraConfig : gmap string string
}.

(** The request to register with the core, or the error.  The build information
    is left out. *)
Definition registerShimLayer (get : string → option ConfigMap + string) (s : ConfigState) :
    RegisterRequest + string :=
  let configuration := GetSchedulerConf (cs_conf s) in
  match LoadConfigMaps get with
  | inr err => inr err
  | inl configMaps =>
      let confMap := FlattenConfigMaps configMaps in
      inl (mkRegisterRequest (sc_ClusterID configuration) (sc_ClusterVersion configuration)
             (sc_PolicyGroup configuration)
             (GetCoreSchedulerConfigFromConfigMap (sc_PolicyGroup configuration) confMap)
             (GetExtraConfigFromConfigMap confMap))
  end.

(** ** Runs *)

(** The shim starts with the bootstrap config maps: a configuration that cannot be
    loaded stops it. *)
Definition boot (bootstrap : list (option ConfigMap)) : option ConfigState :=
  match reload bootstrap true (mkConfigState None None bootstrap []) with
  | (s, None) => Some s
  | (_, Some _) => None
  end.

(** What the informer delivers, through the filter. *)
Inductive ConfigEvent :=
  | EvAdd (obj : InformerObject)
  | EvUpdate (newObj : InformerObject)
  | EvDelete (obj : InformerObject).

Definition handle (ev : ConfigEvent) (s : ConfigState) : option ConfigState :=
  match ev with
  | EvAdd obj => if filterConfigMaps obj then addConfigMaps obj s else Some s
  | EvUpdate newObj => if filterConfigMaps newObj then updateConfigMaps newObj s else Some s
  | EvDelete obj => if filterConfigMaps obj then deleteConfigMaps obj s else Some s
  end.

Definition config_step (s s' : ConfigState) : Prop := ∃ ev, handle ev s = Some s'.

End ConfigMaps.
