(* ===== verification/ConfThms.v ===== *)
(** * The configuration: correctness

    What a configuration is made of, that it is taken over as a whole or not at
    all, and that the settings of a running shim do not change except for the
    hot refresh switch. *)

From S2P Require Import Prelude.
From S2P Require Import GoStrings.
From S2P Require Import GoTime.
From S2P Require Import K8sApi.
From S2P Require Import Constants.
From S2P Require Import PodUtils.
From S2P Require Import TaskGroups.
From S2P Require Import Logger.
From S2P Require Import Conf.
From S2P Require Import ConfigMaps.

(** ** Parsing *)

(** The value of a setting: its entry if it can be parsed. *)
Definition setting {A} (parse : string → option A) (config : gmap string string) (name : string) (p : A) : A :=
  default p (config !! name ≫= parse).

(** The entry of a setting, if it cannot be parsed. *)
Definition bad_entry {A} (parse : string → option A) (config : gmap string string) (name : string) :
    list (string * string) :=
  match config !! name with
  | Some v => match parse v with Some _ => [] | None => [(name, v)] end
  | None => []
  end.

Lemma parseVar_spec {A} (parse : string → option A) cp p name :
  parseVar parse cp p name =
  (setting parse (cp_config cp) name p,
   mkConfigParser (cp_errors cp ++ bad_entry parse (cp_config cp) name) (cp_config cp)).
Proof.
  unfold parseVar, setting, bad_entry. destruct (cp_config cp !! name) as [v|]; cbn [mbind option_bind].
  - destruct (parse v); [|done]. rewrite app_nil_r. by destruct cp.
  - rewrite app_nil_r. by destruct cp.
Qed.

(** The configuration with the settings of [config]. *)
Definition with_settings (config : gmap string string) (prev : SchedulerConf) : SchedulerConf :=
  mkSchedulerConf (sc_SchedulerName prev)
    (setting Some config CMSvcClusterID (sc_ClusterID prev))
    (sc_ClusterVersion prev)
    (setting Some config CMSvcPolicyGroup (sc_PolicyGroup prev))
    (setting ParseDuration config CMSvcSchedulingInterval (sc_Interval prev))
    (sc_KubeConfig prev)
    (setting ParseDuration config CMSvcVolumeBindTimeout (sc_VolumeBindTimeout prev))
    (setting (parse_int 32) config CMSvcEventChannelCapacity (sc_EventChannelCapacity prev))
    (setting ParseDuration config CMSvcDispatchTimeout (sc_DispatchTimeout prev))
    (setting (parse_int 32) config CMKubeQPS (sc_KubeQPS prev))
    (setting (parse_int 32) config CMKubeBurst (sc_KubeBurst prev))
    (setting ParseBool config CMSvcEnableConfigHotRefresh (sc_EnableConfigHotRefresh prev))
    (setting ParseBool config CMSvcDisableGangScheduling (sc_DisableGangScheduling prev))
    (mkPlaceHolderConfig
       (setting Some config CMSvcPlaceholderImage (phc_Image (sc_PlaceHolderConfig prev)))
       (setting (parse_int 64) config CMSvcPlaceholderRunAsUser (phc_RunAsUser (sc_PlaceHolderConfig prev)))
       (setting (parse_int 64) config CMSvcPlaceholderRunAsGroup (phc_RunAsGroup (sc_PlaceHolderConfig prev)))
       (setting (parse_int 64) config CMSvcPlaceholderFSGroup (phc_FSGroup (sc_PlaceHolderConfig prev))))
    (setting Some config CMSvcNodeInstanceTypeNodeLabelKey (sc_InstanceTypeNodeLabelKey prev))
    (sc_Namespace prev)
    (setting ParseBool config AMFilteringGenerateUniqueAppIds (sc_GenerateUniqueAppIds prev)).

(** The entries that cannot be parsed, in the order they are looked at. *)
Definition bad_entries (config : gmap string string) : list (string * string) :=
  bad_entry ParseDuration config CMSvcSchedulingInterval ++
  bad_entry ParseDuration config CMSvcVolumeBindTimeout ++
  bad_entry (parse_int 32) config CMSvcEventChannelCapacity ++
  bad_entry ParseDuration config CMSvcDispatchTimeout ++
  bad_entry ParseBool config CMSvcDisableGangScheduling ++
  bad_entry ParseBool config CMSvcEnableConfigHotRefresh ++
  bad_entry (parse_int 64) config CMSvcPlaceholderRunAsUser ++
  bad_entry (parse_int 64) config CMSvcPlaceholderRunAsGroup ++
  bad_entry (parse_int 64) config CMSvcPlaceholderFSGroup ++
  bad_entry (parse_int 32) config CMKubeQPS ++
  bad_entry (parse_int 32) config CMKubeBurst ++
  bad_entry ParseBool config AMFilteringGenerateUniqueAppIds.

Lemma bad_entry_string config name : bad_entry Some config name = [].
Proof. unfold bad_entry. by destruct (config !! name). Qed.

Lemma with_settings_empty prev : with_settings ∅ prev = prev.
Proof. by destruct prev as [? ? ? ? ? ? ? ? ? ? ? ? ? []]. Qed.

(** A configuration is used as a whole or not at all. *)
Lemma parseConfig_spec config prev :
  parseConfig config prev =
  match bad_entries config with
  | [] => inl (with_settings config prev)
  | errors => inr errors
  end.
Proof.
  unfold parseConfig. case_bool_decide as He.
  { subst config. by rewrite with_settings_empty. }
  unfold stringVar, intVar, boolVar, durationVar, int64Var, newConfigParser.
  do 16 (rewrite parseVar_spec; cbn [cp_errors cp_config]).
  rewrite !bad_entry_string, !app_nil_r, !app_nil_l, <- !(assoc_L (++)).
  change (_ ++ _) with (bad_entries config). by destruct (bad_entries config).
Qed.

(** ** Loading *)

Section Load.
Context `{CE : ConfEnv} `{ZL : ZapLevels} `{MO : MapOrder}.

Definition with_hot_refresh (b : bool) (c : SchedulerConf) : SchedulerConf :=
  mkSchedulerConf (sc_SchedulerName c) (sc_ClusterID c) (sc_ClusterVersion c) (sc_PolicyGroup c) (sc_Interval c)
    (sc_KubeConfig c) (sc_VolumeBindTimeout c) (sc_EventChannelCapacity c) (sc_DispatchTimeout c)
    (sc_KubeQPS c) (sc_KubeBurst c) b (sc_DisableGangScheduling c) (sc_PlaceHolderConfig c)
    (sc_InstanceTypeNodeLabelKey c) (sc_Namespace c) (sc_GenerateUniqueAppIds c).

(** The fields that come from the build and the environment. *)
Definition with_env (env c : SchedulerConf) : SchedulerConf :=
  mkSchedulerConf (sc_SchedulerName env) (sc_ClusterID c) (sc_ClusterVersion env) (sc_PolicyGroup c) (sc_Interval c)
    (sc_KubeConfig env) (sc_VolumeBindTimeout c) (sc_EventChannelCapacity c) (sc_DispatchTimeout c)
    (sc_KubeQPS c) (sc_KubeBurst c) (sc_EnableConfigHotRefresh c) (sc_DisableGangScheduling c)
    (sc_PlaceHolderConfig c) (sc_InstanceTypeNodeLabelKey c) (sc_Namespace env) (sc_GenerateUniqueAppIds c).

Lemma checkNonReloadable_old {A} `{EqDecision A} (old new : A) : checkNonReloadable old new = old.
Proof. unfold checkNonReloadable. by case_decide. Qed.

Lemma handleNonReloadableConfig_spec old new :
  handleNonReloadableConfig old new =
  with_env new (with_hot_refresh (sc_EnableConfigHotRefresh new) old).
Proof.
  unfold handleNonReloadableConfig, checkNonReloadableString, checkNonReloadableDuration,
    checkNonReloadableInt, checkNonReloadableInt64, checkNonReloadableBool.
  rewrite !checkNonReloadable_old. by destruct old as [? ? ? ? ? ? ? ? ? ? ? ? ? []].
Qed.

(** Whether the config maps say that they may be reloaded. *)
Definition hot_refresh (configMaps : list (option ConfigMap)) : bool :=
  setting ParseBool (FlattenConfigMaps configMaps) CMSvcEnableConfigHotRefresh true.

Lemma UpdateConfigMaps_spec configMaps initial h :
  UpdateConfigMaps configMaps initial h =
  match bad_entries (FlattenConfigMaps configMaps) with
  | [] =>
      (Some (if initial then with_settings (FlattenConfigMaps configMaps) CreateDefaultConfig
             else with_env CreateDefaultConfig (with_hot_refresh (hot_refresh configMaps) (GetSchedulerConf h))),
       None)
  | _ => (h, Some "failed to load configmap")
  end.
Proof.
  unfold UpdateConfigMaps. rewrite parseConfig_spec. destruct (bad_entries _); [|done].
  destruct initial; cbn [negb]; [done|]. by rewrite handleNonReloadableConfig_spec.
Qed.

(** C35: a configuration is taken over as a whole or not at all. When an entry of
    the config maps cannot be parsed the update fails and the configuration stays
    as it was. Otherwise the first configuration has, for every setting, its entry
    or the default; a running shim keeps its settings and only takes over whether
    further updates are accepted. *)
Theorem configuration_is_all_or_nothing configMaps initial h :
  let config := FlattenConfigMaps configMaps in
  match UpdateConfigMaps configMaps initial h with
  | (h', Some _) => bad_entries config ≠ [] ∧ h' = h
  | (h', None) => bad_entries config = [] ∧
      h' = Some (if initial then with_settings config CreateDefaultConfig
                 else with_env CreateDefaultConfig (with_hot_refresh (hot_refresh configMaps) (GetSchedulerConf h)))
  end.
Proof. intros config. rewrite UpdateConfigMaps_spec. fold config. by destruct (bad_entries config). Qed.

(** ** Runs *)

(** The settings of a booted shim. *)
Definition boot_conf (d c : option ConfigMap) : SchedulerConf :=
  with_settings (FlattenConfigMaps [d; c]) CreateDefaultConfig.

Definition config_inv (d c : option ConfigMap) (s : ConfigState) : Prop :=
  length (cs_configMaps s) = 2 ∧ ∃ b, cs_conf s = Some (with_hot_refresh b (boot_conf d c)).

Lemma boot_inv d c s : boot [d; c] = Some s → config_inv d c s.
Proof.
  unfold boot, reload. rewrite UpdateConfigMaps_spec. destruct (bad_entries _); [|done].
  intros [= <-]. split; [done|]. by exists (sc_EnableConfigHotRefresh (boot_conf d c)).
Qed.

Lemma trigger_inv d c index cm s :
  config_inv d c s → index < 2 →
  ∃ s', triggerReloadConfig index cm s = Some s' ∧ config_inv d c s' ∧
    (sc_EnableConfigHotRefresh (GetSchedulerConf (cs_conf s)) = false → s' = s).
Proof.
  intros [Hlen [b Hc]] Hi. unfold triggerReloadConfig.
  assert (Hb : sc_EnableConfigHotRefresh (GetSchedulerConf (cs_conf s)) = b) by (by rewrite Hc).
  rewrite Hb. clear Hb. destruct b; cbn [negb].
  2: { exists s. split_and!; [done| |done]. split; [done|]. by exists false. }
  unfold setConfigMap. rewrite bool_decide_true by lia. unfold reload. rewrite UpdateConfigMaps_spec.
  cbn [cs_conf]. rewrite Hc. destruct (bad_entries _); cbn [mbind option_bind].
  - eexists. split; [done|]. split; [|done]. split; [cbn; by rewrite length_insert|].
    eexists. cbn [cs_conf]. unfold GetSchedulerConf. cbn. done.
  - eexists. split; [done|]. split; [|done]. split; [cbn; by rewrite length_insert|]. by exists true.
Qed.

Variable namespace : string.

Lemma configMap_index_lt name index : configMap_index name = Some index → index < 2.
Proof. unfold configMap_index. repeat case_bool_decide; intros [= <-]; lia. Qed.

Lemma indexed_inv d c name cm s :
  config_inv d c s →
  ∃ s', match configMap_index name with
        | Some index => triggerReloadConfig index cm s | None => Some s end = Some s' ∧ config_inv d c s' ∧
    (sc_EnableConfigHotRefresh (GetSchedulerConf (cs_conf s)) = false → s' = s).
Proof.
  intros Hinv. destruct (configMap_index name) as [index|] eqn:E; [|by exists s].
  apply trigger_inv; [done|]. by eapply configMap_index_lt.
Qed.

(** An event is handled, unless it is a tombstone. *)
Lemma handle_inv d c ev s :
  config_inv d c s →
  match handle namespace ev s with
  | Some s' => config_inv d c s' ∧
      (sc_EnableConfigHotRefresh (GetSchedulerConf (cs_conf s)) = false → s' = s)
  | None => ∃ obj, filterConfigMaps namespace obj = true ∧
      (ev = EvAdd (ObjTombstone obj) ∨ ev = EvUpdate (ObjTombstone obj) ∨ ev = EvDelete (ObjTombstone obj))
  end.
Proof.
  intros Hinv. destruct ev as [obj|obj|obj]; cbn [handle];
    (destruct (filterConfigMaps namespace obj) eqn:Hf; [|by split]);
    destruct obj as [| |cm| | |obj|]; try done; cbn in Hf |- *.
  1,3,5: destruct (indexed_inv d c (cm_Name cm) (Some cm) s Hinv) as (s1 & -> & ? & ?) ||
         destruct (indexed_inv d c (cm_Name cm) None s Hinv) as (s1 & -> & ? & ?); done.
  all: exists obj; tauto.
Qed.
Lemma steps_inv d c s s' :
  config_inv d c s → rtc (config_step namespace) s s' →
  config_inv d c s' ∧ (sc_EnableConfigHotRefresh (GetSchedulerConf (cs_conf s)) = false → s' = s).
Proof.
  intros Hinv Hsteps. induction Hsteps as [s|s s1 s2 [ev Hev] _ IH]; [by split|].
  pose proof (handle_inv d c ev s Hinv) as H1. rewrite Hev in H1. destruct H1 as [Hinv1 Hoff].
  destruct (IH Hinv1) as [Hinv2 Hoff2]. split; [done|]. intros Hb. rewrite <- (Hoff Hb). apply Hoff2.
  by rewrite (Hoff Hb).
Qed.

(** C21: the settings of a running shim are fixed. Whatever happens to the config
    maps after the shim has started, the configuration is the one it started with,
    except for the switch that allows reloading; in particular the settings that
    applications, tasks and placeholders are built with never change. Once the
    switch is off no later event has any effect. *)
Theorem running_configuration_is_fixed d c s0 s :
  boot [d; c] = Some s0 → rtc (config_step namespace) s0 s →
  ∃ b, cs_conf s = Some (with_hot_refresh b (boot_conf d c)) ∧
    shim_conf (GetSchedulerConf (cs_conf s)) = shim_conf (boot_conf d c) ∧
    ∀ s', rtc (config_step namespace) s s' → b = false → s' = s.
Proof.
  intros Hboot Hsteps. apply boot_inv in Hboot.
  destruct (steps_inv d c s0 s Hboot Hsteps) as [Hinv _]. pose proof Hinv as [_ [b Hc]].
  exists b. split_and!; [done|by rewrite Hc|]. intros s' Hs' ->.
  apply (steps_inv d c s s' Hinv Hs'). by rewrite Hc.
Qed.

(** ** Overriding *)

Lemma foldl_insert_lookup (l : list (string * string)) (m : gmap string string) k :
  NoDup l.*1 →
  foldl (λ r (kv : string * string), <[kv.1 := kv.2]> r) m l !! k =
  match (list_to_map l : gmap string string) !! k with Some v => Some v | None => m !! k end.
Proof.
  revert m. induction l as [|[k' v] l IH]; intros m Hnd; [done|].
  cbn [fmap list_fmap fst] in Hnd. apply NoDup_cons in Hnd as [Hni Hnd].
  cbn [foldl]. rewrite IH by done. cbn [list_to_map foldr fst snd uncurry].
  destruct (decide (k' = k)) as [->|Hne].
  - by rewrite not_elem_of_list_to_map_1, !lookup_insert_eq.
  - by rewrite !lookup_insert_ne.
Qed.

Lemma flattenConfigMap_lookup r cm k :
  cm_BinaryData cm = ∅ →
  flattenConfigMap r (Some cm) !! k =
  match cm_Data cm !! k with Some v => Some v | None => r !! k end.
Proof.
  intros Hb. unfold flattenConfigMap. rewrite Hb.
  replace (go_range (∅ : gmap string string)) with (@nil (string * string)).
  2: { symmetry. apply Permutation_nil. by rewrite go_range_perm, map_to_list_empty. }
  cbn [foldl]. rewrite foldl_insert_lookup by apply NoDup_go_range.
  rewrite (list_to_map_proper (go_range (cm_Data cm)) (map_to_list (cm_Data cm)));
    [|apply NoDup_go_range|apply go_range_perm]. by rewrite list_to_map_to_list.
Qed.

(** The entries of the second config map override those of the first. *)
Theorem second_config_map_overrides d c k :
  cm_BinaryData d = ∅ → cm_BinaryData c = ∅ →
  FlattenConfigMaps [Some d; Some c] !! k =
  match cm_Data c !! k with Some v => Some v | None => cm_Data d !! k end.
Proof.
  intros Hd Hc. unfold FlattenConfigMaps. cbn [foldl]. rewrite !flattenConfigMap_lookup by done.
  destruct (cm_Data c !! k); [done|]. rewrite lookup_empty. by destruct (cm_Data d !! k).
Qed.

(** A config map that cannot be used is not ignored: it stays in place, and no
    update of the other config map has any effect on the configuration, the
    loggers or the core. *)
Theorem bad_config_map_blocks_the_other d d' c s :
  cs_configMaps s = [d; Some c] → cm_BinaryData c = ∅ →
  (∃ v, cm_Data c !! CMKubeQPS = Some v ∧ parse_int 32 v = None) →
  ∃ s', triggerReloadConfig 0 d' s = Some s' ∧
    cs_conf s' = cs_conf s ∧ cs_log s' = cs_log s ∧ cs_requests s' = cs_requests s.
Proof.
  intros Hmaps Hb (v & Hv & Hp). unfold triggerReloadConfig. destruct (negb _); [by exists s|].
  unfold setConfigMap. rewrite Hmaps. cbn [length]. rewrite bool_decide_true by lia.
  unfold reload. rewrite UpdateConfigMaps_spec. cbn [insert list_insert].
  assert (Hbad : bad_entries (FlattenConfigMaps [d'; Some c]) ≠ []).
  { unfold bad_entries. assert (bad_entry (parse_int 32) (FlattenConfigMaps [d'; Some c]) CMKubeQPS ≠ []) as Hq.
    { unfold bad_entry, FlattenConfigMaps. cbn [foldl]. by rewrite flattenConfigMap_lookup, Hv, Hp. }
    intros Hnil. apply Hq. by repeat (apply app_nil in Hnil as [? Hnil]). }
  destruct (bad_entries _); [done|]. cbn. eexists. by split.
Qed.
End Load.

(** ** Closed instances *)

Section Witnesses.

#[local] Instance conf_env_ref : ConfEnv := {|
  os_LookupEnv := λ _, None; buildVersion := "1.0"; gunzip := λ _, None |}.
#[local] Instance zap_none : ZapLevels := {| zap_ParseLevel := λ _, None; zap_ParseLevel_valid := λ _ _ H, ltac:(done) |}.

Definition config_ref (data : gmap string string) : ConfigMap := mkConfigMap ConfigMapName "default" data ∅.

Definition first_config : ConfigMap :=
  config_ref (<[CMSvcSchedulingInterval := "2s"]> (<["queues.yaml" := "partitions:"]> ∅)).
Definition next_config : ConfigMap :=
  config_ref (<[CMSvcSchedulingInterval := "5s"]> (<[CMSvcEnableConfigHotRefresh := "false"]> ∅)).
Definition bad_config : ConfigMap := config_ref (<[CMKubeQPS := "many"]> ∅).

Definition booted : ConfigState :=
  Eval vm_compute in default (mkConfigState None None [] []) (boot [None; Some first_config]).
Definition updated : ConfigState :=
  Eval vm_compute in default booted (handle "default" (EvUpdate (ObjConfigMap next_config)) booted).

Lemma running_configuration_is_fixed_witness :
  ∃ b, cs_conf updated = Some (with_hot_refresh b (boot_conf None (Some first_config))) ∧
    shim_conf (GetSchedulerConf (cs_conf updated)) = shim_conf (boot_conf None (Some first_config)) ∧
    ∀ s', rtc (config_step "default") updated s' → b = false → s' = updated.
Proof.
  apply (running_configuration_is_fixed "default" None (Some first_config) booted updated).
  - vm_compute. reflexivity.
  - apply rtc_once. exists (EvUpdate (ObjConfigMap next_config)). vm_compute. reflexivity.
Defined.

Example settings_after_update :
  sc_Interval (GetSchedulerConf (cs_conf updated)) = (2 * Second)%Z ∧
  sc_EnableConfigHotRefresh (GetSchedulerConf (cs_conf updated)) = false ∧
  length (cs_requests updated) = 1.
Proof. vm_compute. done. Qed.

(** The deletion of a config map that was missed by the watch is delivered as a
    tombstone, and crashes the shim. *)
Theorem deleted_config_map_tombstone_panics :
  filterConfigMaps "default" (ObjTombstone (ObjConfigMap first_config)) = true ∧
  handle "default" (EvDelete (ObjTombstone (ObjConfigMap first_config))) booted = None.
Proof. vm_compute. done. Qed.

(** After a bad update of the second config map, which is reported as ignored, a
    good update of the first one is not taken over. *)
Theorem ignored_config_map_is_not_ignored :
  let defaults := mkConfigMap DefaultConfigMapName "default" (<[CMSvcEnableConfigHotRefresh := "false"]> ∅) ∅ in
  ∃ s1, handle "default" (EvUpdate (ObjConfigMap bad_config)) booted = Some s1 ∧
    cs_conf s1 = cs_conf booted ∧
    (cs_conf <$> handle "default" (EvUpdate (ObjConfigMap defaults)) s1) = Some (cs_conf booted) ∧
    (cs_conf <$> handle "default" (EvUpdate (ObjConfigMap defaults)) booted) ≠ Some (cs_conf booted).
Proof. eexists. split; [vm_compute; reflexivity|]. split_and!; vm_compute; done. Qed.

End Witnesses.
