(* ===== verification/KubeClient.v ===== *)
(** * The Kubernetes client: [pkg/client/kubeclient.go]

    Reading, creating, deleting, binding and updating pods, reading config maps,
    and the configuration of the connection.  The API server and the generated
    clientset are parameters with their documented behaviour: an update of an
    object is refused with a conflict unless it carries the current version of the
    object.  Other clients may write between any two calls. *)

From S2P Require Import Prelude.
From S2P Require Import GoStrings.
From S2P Require Import K8sApi.
From S2P Require Import K8sInstances.
From S2P Require Import Constants.
From S2P Require Import Conf.
From S2P Require Import ConfigMaps.

Inductive ErrorReason := Conflict | NotFound | OtherReason.

Record ApiError := mkApiError { ae_reason : ErrorReason; ae_message : string }.

Definition IsConflict (e : ApiError) : bool := match ae_reason e with Conflict => true | _ => false end.
Definition IsNotFound (e : ApiError) : bool := match ae_reason e with NotFound => true | _ => false end.

(** A pod with its resource version. *)
Record Versioned := mkVersioned { v_pod : Pod; v_version : string }.

Record Binding := mkBinding { bi_Namespace : string; bi_Name : string; bi_UID : string; bi_Node : string }.

(** The clientset on a server: a call returns an object and an error. *)
Class Clientset := {
  Server : Type;
  no_pod : Pod;
  pods_Get : Server → string → string → Versioned * option ApiError;
  pods_Update : Server → string → Versioned → Server * (Versioned * option ApiError);
  pods_UpdateStatus : Server → string → Versioned → Server * (Versioned * option ApiError);
  pods_Create : Server → string → Pod → Server * (Pod * option ApiError);
  pods_Delete : Server → string → string → Server * option ApiError;
  pods_Bind : Server → string → Binding → Server * option ApiError;
  configmaps_Get : Server → string → string → option ConfigMap * option ApiError
}.

(** A write of an object goes through only if it carries the version of the
    current one; [merge] is what of the object is written. *)
Record write_laws `{Clientset} (put : Server → string → Versioned → Server * (Versioned * option ApiError))
    (merge : Pod → Pod → Pod) : Prop := {
  put_ok s ns v s' v' : put s ns v = (s', (v', None)) →
    ∃ cur, pods_Get s ns (pod_Name (v_pod v)) = (cur, None) ∧ v_version cur = v_version v ∧
      v_pod v' = merge (v_pod cur) (v_pod v) ∧ pods_Get s' ns (pod_Name (v_pod v)) = (v', None);
  put_conflict s ns v s' v' e : put s ns v = (s', (v', Some e)) → IsConflict e = true → s' = s;
  put_unnamed s ns v s' r : pod_Name (v_pod v) = "" → put s ns v = (s', r) → r.2 ≠ None
}.

Class ClientsetLaws `{Clientset} : Prop := {
  get_name s ns name v : pods_Get s ns name = (v, None) → pod_Name (v_pod v) = name;
  (* with an error the clientset returns an empty object *)
  get_error s ns name v e : pods_Get s ns name = (v, Some e) → v_pod v = no_pod;
  no_pod_name : pod_Name no_pod = "";
  update_laws : write_laws pods_Update (λ _ new, new);
  (* the status subresource: everything but the status is kept *)
  status_laws : write_laws pods_UpdateStatus (λ cur new, pod_with_Status cur (pod_Status new));
  bind_uid s ns b s' : pods_Bind s ns b = (s', None) →
    ∃ cur, pods_Get s ns (bi_Name b) = (cur, None) ∧ (bi_UID b = "" ∨ pod_UID (v_pod cur) = bi_UID b)
}.

(** [retry.RetryOnConflict] with [retry.DefaultRetry]: five attempts. *)
Fixpoint retry_conflict {St} (steps : nat) (fn : St → St * option ApiError) (st : St) :
    St * option ApiError :=
  match fn st with
  | (st, Some e) =>
      match steps with
      | S (S _ as steps') => if IsConflict e then retry_conflict steps' fn st else (st, Some e)
      | _ => (st, Some e)
      end
  | (st, None) => (st, None)
  end.

Class ConflictRetry := {
  RetryOnConflict {St : Type} : (St → St * option ApiError) → St → St * option ApiError
}.

Class ConflictRetryLaws `{ConflictRetry} : Prop := {
  RetryOnConflict_spec {St} (fn : St → St * option ApiError) st :
    RetryOnConflict fn st = retry_conflict 5 fn st
}.

Section Client.
Context `{CS : Clientset} `{CR : ConflictRetry}.

(** What other clients do before the [n]-th call. *)
Context (others : nat → Server → Server).

(** The server and the number of calls made. *)
Definition Conn : Type := Server * nat.

Definition elapse (st : Conn) : Conn := (others st.2 st.1, S st.2).

Definition nc_Bind (pod : Pod) (hostID : string) (st : Conn) : Conn * option ApiError :=
  let st := elapse st in
  let '(s, err) := pods_Bind st.1 (pod_Namespace pod)
    (mkBinding (pod_Namespace pod) (pod_Name pod) (pod_UID pod) hostID) in
  ((s, st.2), err).

Definition nc_Create (pod : Pod) (st : Conn) : Conn * (Pod * option ApiError) :=
  let st := elapse st in
  let '(s, r) := pods_Create st.1 (pod_Namespace pod) pod in
  ((s, st.2), r).

Definition nc_Delete (pod : Pod) (st : Conn) : Conn * option ApiError :=
  let st := elapse st in
  let '(s, err) := pods_Delete st.1 (pod_Namespace pod) (pod_Name pod) in
  ((s, st.2), err).

(** A config map that does not exist is no error. *)
Definition nc_GetConfigMap (namespace name : string) (st : Conn) :
    Conn * (option ConfigMap * option ApiError) :=
  let st := elapse st in
  match configmaps_Get st.1 namespace name with
  | (configmap, Some err) =>
      if IsNotFound err then (st, (configmap, None)) else (st, (None, Some err))
  | (configmap, None) => (st, (configmap, None))
  end.

Definition nc_Get (podNamespace podName : string) (st : Conn) : Conn * (option Pod * option ApiError) :=
  let st := elapse st in
  match pods_Get st.1 podNamespace podName with
  | (_, Some err) => (st, (None, Some err))
  | (pod, None) => (st, (Some (v_pod pod), None))
  end.

(** One attempt of an update: read, change, write. An error of the read is only
    logged.  The state includes the variable [updatedPod]. *)
Definition attempt (put : Server → string → Versioned → Server * (Versioned * option ApiError))
    (change : Pod → Pod) (pod : Pod) (st : Conn * Versioned) : (Conn * Versioned) * option ApiError :=
  let st1 := elapse st.1 in
  let '(latestPod, getErr) := pods_Get st1.1 (pod_Namespace pod) (pod_Name pod) in
  let latestPod := mkVersioned (change (v_pod latestPod)) (v_version latestPod) in
  let st2 := elapse st1 in
  let '(s, (updatedPod, updateErr)) := put st2.1 (pod_Namespace pod) latestPod in
  (((s, st2.2), updatedPod), updateErr).

Definition update_with (put : Server → string → Versioned → Server * (Versioned * option ApiError))
    (change : Pod → Pod) (pod : Pod) (st : Conn) : Conn * (Pod * option ApiError) :=
  match RetryOnConflict (attempt put change pod) (st, mkVersioned no_pod "") with
  | ((st, _), Some retryErr) => (st, (pod, Some retryErr))
  | ((st, updatedPod), None) => (st, (v_pod updatedPod, None))
  end.

Definition nc_UpdatePod (pod : Pod) (podMutator : Pod → Pod) : Conn → Conn * (Pod * option ApiError) :=
  update_with pods_Update podMutator pod.

Definition nc_UpdateStatus (pod : Pod) : Conn → Conn * (Pod * option ApiError) :=
  let newPodStatus := pod_Status pod in
  update_with pods_UpdateStatus (λ latestPod, pod_with_Status latestPod newPodStatus) pod.

(** [LoadBootstrapConfigMaps] *)
Definition LoadBootstrapConfigMaps `{ConfEnv} (st : Conn) :
    Conn * (list (option ConfigMap) * option ApiError) :=
  let namespace := GetSchedulerNamespace in
  match nc_GetConfigMap namespace DefaultConfigMapName st with
  | (st, (_, Some err)) => (st, ([], Some err))
  | (st, (defaults, None)) =>
      match nc_GetConfigMap namespace ConfigMapName st with
      | (st, (_, Some err)) => (st, ([], Some err))
      | (st, (config, None)) => (st, ([defaults; config], None))
      end
  end.

End Client.

(** ** The configuration of the connection *)

Section Rest.
Context {RestConfig : Type} `{ConfEnv}.

Inductive RestError := ErrNotInCluster | RestOther (message : string).

(** [rest.InClusterConfig] and [clientcmd.BuildConfigFromFlags]. *)
Context (InClusterConfig : option RestConfig * option RestError).
Context (BuildConfigFromFlags : string → string → option RestConfig * option RestError).

Definition CreateRestConfig (kc : string) : option RestConfig * option RestError :=
  match InClusterConfig with
  | (_, Some (RestOther e)) => (None, Some (RestOther e))
  | (Some config, _) => (Some config, None)
  | (None, _) =>
      let kc := if kc =s "" then GetDefaultKubeConfigPath else kc in
      match BuildConfigFromFlags "" kc with
      | (config, Some err) => (config, Some err)
      | (config, None) => (config, None)
      end
  end.

(** A fatal error ends the process: the result is [None]. *)
Definition CreateRestConfigOrDie (kc : string) : option (option RestConfig) :=
  match CreateRestConfig kc with
  | (_, Some _) => None
  | (config, None) => Some config
  end.

Context {ClientSet : Type} (NewForConfig : option RestConfig → ClientSet + string).

(** Assigning [QPS] and [Burst] of a configuration. *)
Context (set_limits : Z → Z → option RestConfig → option RestConfig).

Definition newBootstrapSchedulerKubeClient (kc : string) : option (ClientSet * option RestConfig) :=
  config ← CreateRestConfigOrDie kc;
  match NewForConfig config with
  | inl configuredClient => Some (configuredClient, config)
  | inr _ => None
  end.

Definition newSchedulerKubeClient (conf : SchedulerConf) (kc : string) :
    option (ClientSet * option RestConfig) :=
  config ← CreateRestConfigOrDie kc;
  let config := set_limits (sc_KubeQPS conf) (sc_KubeBurst conf) config in
  match NewForConfig config with
  | inl configuredClient => Some (configuredClient, config)
  | inr _ => None
  end.

End Rest.

(** ** Updates *)

Section Updates.
Context `{CS : Clientset} `{CL : !ClientsetLaws} `{CR : ConflictRetry} `{RL : !ConflictRetryLaws}.
Context (others : nat → Server → Server).

(** A version stands for one state of an object, whatever other clients do. *)
Definition versions_identify : Prop :=
  ∀ n s ns name p q, pods_Get s ns name = (p, None) → pods_Get (others n s) ns name = (q, None) →
    v_version p = v_version q → p = q.

(** The server after other clients' writes only. *)
Abbreviation by_others := (rtc (λ s s', ∃ n, s' = others n s)).

Context (put : Server → string → Versioned → Server * (Versioned * option ApiError)).
Context (merge : Pod → Pod → Pod) (Hput : write_laws put merge).
Context (Hversions : versions_identify).
Context (change : Pod → Pod) (Hname : ∀ p, pod_Name (change p) = pod_Name p).

(** The write of [change] to the pod that is current in [s0]. *)
Definition written (pod : Pod) (s0 s1 : Server) (v : Versioned) : Prop :=
  ∃ cur, pods_Get s0 (pod_Namespace pod) (pod_Name pod) = (cur, None) ∧
    v_pod v = merge (v_pod cur) (change (v_pod cur)) ∧
    pods_Get s1 (pod_Namespace pod) (pod_Name pod) = (v, None).

Lemma attempt_writes pod st st' v :
  attempt others put change pod st = ((st', v), None) →
  ∃ s0, by_others st.1.1 s0 ∧ written pod s0 st'.1 v.
Proof.
  unfold attempt. destruct (pods_Get (elapse others st.1).1 _ _) as [latest getErr] eqn:Eg.
  destruct (put _ _ _) as [s [updated err]] eqn:Ep. intros [= <- <- ->].
  destruct getErr as [e|].
  { apply get_error in Eg. eapply (put_unnamed _ _ Hput) in Ep; [done|]. simpl. by rewrite Eg, Hname, no_pod_name. }
  pose proof (put_ok _ _ Hput _ _ _ _ _ Ep) as (cur & Hcur & Hv & Hm & Hget). simpl in *.
  rewrite Hname, (get_name _ _ _ _ Eg) in Hcur, Hget.
  pose proof (Hversions _ _ _ _ _ _ Eg Hcur (eq_sym Hv)) as <-.
  exists (others (S st.1.2) (others st.1.2 st.1.1)). split; [|by exists latest].
  eapply rtc_l; [by eexists|]. apply rtc_once. by eexists.
Qed.

Lemma attempt_conflict pod st st' v e :
  attempt others put change pod st = ((st', v), Some e) → IsConflict e = true → by_others st.1.1 st'.1.
Proof.
  unfold attempt. destruct (pods_Get (elapse others st.1).1 _ _) as [latest getErr] eqn:Eg.
  destruct (put _ _ _) as [s [updated err]] eqn:Ep. intros [= <- <- ->] He.
  apply (put_conflict _ _ Hput) in Ep as ->; [|done]. simpl.
  eapply rtc_l; [by eexists|]. apply rtc_once. by eexists.
Qed.

(** Each attempt makes two calls. *)
Lemma attempt_calls pod st st' r : attempt others put change pod st = (st', r) → st'.1.2 = st.1.2 + 2.
Proof.
  unfold attempt. destruct (pods_Get _ _ _). destruct (put _ _ _) as [s [updated err]].
  intros [= <- _]. simpl. lia.
Qed.

Lemma retry_writes steps pod st st' v :
  retry_conflict steps (attempt others put change pod) st = ((st', v), None) →
  ∃ s0, by_others st.1.1 s0 ∧ written pod s0 st'.1 v.
Proof.
  revert st. induction steps as [|steps IH]; intros st; cbn [retry_conflict];
    destruct (attempt others put change pod st) as [[st1 v1] [e|]] eqn:Ea; try done.
  2:{ destruct steps as [|steps']; [done|]. destruct (IsConflict e) eqn:He; [|done]. intros E.
      destruct (IH _ E) as (s0 & Hs & Hw). exists s0. split; [|done]. etrans; [|exact Hs].
      by eapply attempt_conflict. }
  all: intros [= <- <-]; by eapply attempt_writes.
Qed.

Lemma retry_calls steps pod st st' r :
  retry_conflict steps (attempt others put change pod) st = (st', r) →
  st'.1.2 <= st.1.2 + 2 * Nat.max 1 steps.
Proof.
  revert st. induction steps as [|steps IH]; intros st; cbn [retry_conflict];
    destruct (attempt others put change pod st) as [st1 [e|]] eqn:Ea; apply attempt_calls in Ea.
  3: destruct steps as [|steps']; [|destruct (IsConflict e); [intros E%IH|]].
  all: try intros [= <- _]; lia.
Qed.

Lemma update_with_result pod st st' p err :
  update_with others put change pod st = (st', (p, err)) →
  st'.2 <= st.2 + 10 ∧
  match err with
  | None => ∃ s0 v, by_others st.1 s0 ∧ written pod s0 st'.1 v ∧ p = v_pod v
  | Some _ => p = pod
  end.
Proof.
  unfold update_with. rewrite RetryOnConflict_spec.
  destruct (retry_conflict 5 _ _) as [[st1 v] [e|]] eqn:E; intros [= <- <- <-];
    pose proof (retry_calls _ _ _ _ _ E) as Hc; simpl in Hc; (split; [simpl; lia|]); [done|].
  destruct (retry_writes _ _ _ _ _ E) as (s0 & Hs & Hw). by exists s0, v.
Qed.

End Updates.

Section Theorems.
Context `{CS : Clientset} `{CL : !ClientsetLaws} `{CR : ConflictRetry} `{RL : !ConflictRetryLaws}.
Context (others : nat → Server → Server) (Hversions : versions_identify others).

Abbreviation by_others := (rtc (λ s s', ∃ n, s' = others n s)).


(** Updating the status of a pod changes its status only: the labels,
    annotations and the specification are those of the pod at the moment of the
    write, whatever the caller's copy of the pod says. *)
Theorem update_status_changes_only_the_status pod st st' p err :
  nc_UpdateStatus others pod st = (st', (p, err)) →
  st'.2 <= st.2 + 10 ∧
  match err with
  | None => ∃ s0 cur new, by_others st.1 s0 ∧
      pods_Get s0 (pod_Namespace pod) (pod_Name pod) = (cur, None) ∧
      p = pod_with_Status (v_pod cur) (pod_Status pod) ∧
      pods_Get st'.1 (pod_Namespace pod) (pod_Name pod) = (new, None) ∧ v_pod new = p
  | Some _ => p = pod
  end.
Proof.
  intros E. eapply (update_with_result others _ _ status_laws Hversions) in E as [Hc Hr]; [|done].
  split; [done|]. destruct err; [done|]. destruct Hr as (s0 & v & Hs & (cur & Hg & Hv & Hg') & ->).
  by exists s0, cur, v.
Qed.

(** Binding goes through only for the pod that was meant: one of the same name
    that was created since then is refused. *)
Theorem bind_binds_the_pod_meant pod hostID st st' :
  pod_UID pod ≠ "" → nc_Bind others pod hostID st = (st', None) →
  ∃ cur, pods_Get (others st.2 st.1) (pod_Namespace pod) (pod_Name pod) = (cur, None) ∧
    pod_UID (v_pod cur) = pod_UID pod.
Proof.
  intros Hu. unfold nc_Bind. destruct (pods_Bind _ _ _) as [s e] eqn:E. intros [= _ ->].
  destruct (bind_uid _ _ _ _ E) as (cur & Hg & [?|?]); [done|]. by exists cur.
Qed.

End Theorems.

(** A config map that does not exist counts as an empty one. *)
Theorem missing_config_map_is_empty `{ConfEnv} `{MapOrder} name namespace l :
  FlattenConfigMaps (l ++ [Some (mkConfigMap name namespace ∅ ∅)]) = FlattenConfigMaps (l ++ [None]).
Proof.
  unfold FlattenConfigMaps. rewrite !foldl_app. simpl.
  assert (Hnil : go_range (∅ : gmap string string) = []).
  { destruct (go_range ∅) as [|[k v] l'] eqn:E; [done|].
    assert ((k, v) ∈ go_range (∅ : gmap string string)) as Hin by (rewrite E; left).
    by apply elem_of_go_range in Hin. }
  by rewrite Hnil.
Qed.

(** ** A server with one pod *)

Section Server.

(** A new version is longer than the old one. *)
Definition next_version (v : string) : string := String (Ascii.ascii_of_nat 73) v.

Definition refused (v : Versioned) (reason : ErrorReason) : Versioned * option ApiError :=
  (v, Some (mkApiError reason "refused")).

Definition nothing : Versioned := mkVersioned (pod_ref "" "" "" "" ∅ []) "".

Abbreviation Store := (option Versioned).

Definition store_get (s : Store) (ns name : string) : Versioned * option ApiError :=
  match s with
  | Some v => if pod_Name (v_pod v) =s name then (v, None) else refused nothing NotFound
  | None => refused nothing NotFound
  end.

Definition store_put (merge : Pod → Pod → Pod) (s : Store) (ns : string) (v : Versioned) :
    Store * (Versioned * option ApiError) :=
  let name := pod_Name (v_pod v) in
  if name =s "" then (s, refused nothing OtherReason)
  else
    match store_get s ns name with
    | (cur, None) =>
        let new := mkVersioned (merge (v_pod cur) (v_pod v)) (next_version (v_version cur)) in
        if v_version cur =s v_version v then (Some new, (new, None))
        else (s, refused nothing Conflict)
    | (_, Some e) => (s, (nothing, Some e))
    end.

#[local] Instance server_ref : Clientset := {
  Server := Store;
  no_pod := v_pod nothing;
  pods_Get := store_get;
  pods_Update := store_put (λ _ new, new);
  pods_UpdateStatus := store_put (λ cur new, pod_with_Status cur (pod_Status new));
  pods_Create s ns pod := (Some (mkVersioned pod "I"), (pod, None));
  pods_Delete s ns name := (None, None);
  pods_Bind s ns b :=
    match store_get s ns (bi_Name b) with
    | (cur, None) => if pod_UID (v_pod cur) =s bi_UID b then (s, None)
                     else (s, Some (mkApiError Conflict "refused"))
    | (_, Some e) => (s, Some e)
    end;
  configmaps_Get _ _ _ := (None, None)
}.

Lemma store_get_name (s : Store) ns name v : store_get s ns name = (v, None) → pod_Name (v_pod v) = name.
Proof.
  unfold store_get. destruct s as [x|]; [|done]. case_bool_decide; [|done]. by intros [= <-].
Qed.

Lemma store_put_laws merge :
  (∀ p q, pod_Name p = pod_Name q → pod_Name (merge p q) = pod_Name q) → write_laws (store_put merge) merge.
Proof.
  intros Hm. split; unfold store_put; intros s ns v s' v'.
  - case_bool_decide as Hn; [done|]. destruct (store_get s ns _) as [cur [e|]] eqn:Eg; [done|].
    case_bool_decide as Hv; [|done]. intros [= <- <-]. exists cur. split_and!; [done..|].
    cbn. unfold store_get. rewrite Hm; [by rewrite bool_decide_eq_true_2|].
    by eapply store_get_name.
  - intros e. case_bool_decide as Hn; [intros [= <- _ _]; done|].
    destruct (store_get s ns _) as [cur [e'|]]; [by intros [= <- _ _]|].
    case_bool_decide; [done|by intros [= <- _ _]].
  - intros Hn. rewrite bool_decide_eq_true_2 by done. by intros [= _ <-].
Qed.

#[local] Instance server_laws_ref : ClientsetLaws.
Proof.
  split.
  - exact store_get_name.
  - intros s ns name v e. cbn. unfold store_get. destruct s as [x|]; [|by intros [= <- _]].
    case_bool_decide; [done|by intros [= <- _]].
  - done.
  - by apply store_put_laws.
  - by apply store_put_laws.
  - intros s ns b s'. cbn. destruct (store_get s ns _) as [cur [e|]]; [done|].
    case_bool_decide; [|done]. intros _. exists cur. auto.
Qed.

#[local] Instance conflict_retry_ref : ConflictRetry := { RetryOnConflict St := retry_conflict 5 }.
#[local] Instance conflict_retry_laws_ref : ConflictRetryLaws.
Proof. by split. Qed.

(** Another client changes every pod before the call with the given number. *)
Definition meanwhile (f : Pod → Pod) (at_call n : nat) (s : Store) : Store :=
  if bool_decide (n = at_call) then (λ v, mkVersioned (f (v_pod v)) (next_version (v_version v))) <$> s else s.

Lemma meanwhile_versions f at_call : versions_identify (meanwhile f at_call).
Proof.
  intros n s ns name p q. cbn. unfold store_get, meanwhile. case_bool_decide; [|intros E1 E2 _; congruence].
  destruct s as [v|]; [|done]. cbn [fmap option_fmap option_map].
  case_bool_decide; [|done]. intros [= <-]. case_bool_decide; [|done]. intros [= <-] Hv. exfalso.
  apply (f_equal String.length) in Hv. unfold next_version in Hv. cbn in Hv. lia.
Qed.

Definition with_label (k : string) (p : Pod) : Pod :=
  mkPod (pod_Name p) (pod_Namespace p) (pod_UID p) (<[k := "x"]> (pod_Labels p)) (pod_Annotations p)
    (pod_CreationTimestamp p) (pod_OwnerReferences p) (pod_Spec p) (pod_Status p).

Definition client_pod : Pod := pod_ref "p" "uid-1" "" "Pending" ∅ [].
Definition one_pod : Store := Some (mkVersioned client_pod "I").

(** Another client adds a label between the read and the write: the first
    attempt is refused, and the second one keeps both labels. *)
Definition raced :=
  nc_UpdatePod (meanwhile (with_label "b") 1) client_pod (with_label "a") (one_pod, 0).

Example raced_result : raced.2 = (with_label "a" (with_label "b" client_pod), None) ∧ raced.1.2 = 4.
Proof. vm_compute. split; reflexivity. Qed.


(** The pod is deleted before the update and created again with the same name:
    the status of the old pod is written to the new one. *)
Definition recreated (p : Pod) : Pod := pod_ref (pod_Name p) "uid-2" "" "Pending" ∅ [].
Definition failed_pod : Pod := pod_ref "p" "uid-1" "" "Failed" ∅ [].

Definition status_update :=
  nc_UpdateStatus (meanwhile recreated 0) failed_pod (one_pod, 0).

Lemma update_status_changes_only_the_status_witness :
  ∃ cur, status_update.2.1 = pod_with_Status (v_pod cur) (pod_Status failed_pod).
Proof.
  destruct (update_status_changes_only_the_status _ (meanwhile_versions recreated 0) failed_pod
    (one_pod, 0) status_update.1 status_update.2.1 None) as (_ & s0 & cur & new & _ & _ & Hp & _);
    [vm_compute; reflexivity|]. exists cur. exact Hp.
Defined.

Theorem status_reaches_a_recreated_pod :
  status_update.2.2 = None ∧ pod_UID status_update.2.1 = "uid-2" ∧
  st_Phase (pod_Status status_update.2.1) = "Failed".
Proof. vm_compute. split_and!; reflexivity. Qed.

End Server.
