(* ===== verification/AdmissionConf.v ===== *)
(** * The configuration of the admission controller

    Source: pkg/admission/conf/am_conf.go.

    The admission controller is a process of its own.  It reads its settings from
    the same two config maps as the shim; a setting that cannot be parsed has its
    default value.  Regular expressions are the class [Regexps]. *)

From S2P Require Import Prelude.
From S2P Require Import GoStrings.
From S2P Require Import K8sApi.
From S2P Require Import Constants.
From S2P Require Import PodUtils.
From S2P Require Import Logger.
From S2P Require Import Conf.

(** ** Regular expressions *)

Class Regexps := {
  Regexp : Type;
  regexp_Compile : string → option Regexp;
  MatchString : Regexp → string → bool
}.

(** Letters, digits, hyphens and colons stand for themselves. *)
Definition literal_byte (c : Ascii.ascii) : bool :=
  byte_in 48 58 c || byte_in 65 90 c || byte_in 97 122 c || byte_in 45 45 c.

Fixpoint literal (s : string) : bool :=
  match s with
  | EmptyString => true
  | String c s' => literal_byte c && literal s'
  end.

(** What the syntax documents about anchored literals. *)
Class RegexpsLaws `{Regexps} : Prop := {
  regexp_exact s : literal s = true →
    ∃ re, regexp_Compile ("^" +:+ s +:+ "$") = Some re ∧ ∀ t, MatchString re t = (t =s s);
  regexp_prefix s : literal s = true →
    ∃ re, regexp_Compile ("^" +:+ s) = Some re ∧ ∀ t, MatchString re t = HasPrefix t s
}.

(** ** [strings.TrimSpace] *)

Definition bytes (l : list N) : string := foldr (λ n s, String (Ascii.ascii_of_N n) s) "" l.

(** The white space of Unicode, in UTF-8. *)
Definition white_space : list string :=
  map bytes
    ([[9]; [10]; [11]; [12]; [13]; [32]; [0xC2; 0x85]; [0xC2; 0xA0]; [0xE1; 0x9A; 0x80]; [0xE2; 0x80; 0x80];
      [0xE2; 0x80; 0x81]; [0xE2; 0x80; 0x82]; [0xE2; 0x80; 0x83]; [0xE2; 0x80; 0x84]; [0xE2; 0x80; 0x85];
      [0xE2; 0x80; 0x86]; [0xE2; 0x80; 0x87]; [0xE2; 0x80; 0x88]; [0xE2; 0x80; 0x89]; [0xE2; 0x80; 0x8A];
      [0xE2; 0x80; 0xA8]; [0xE2; 0x80; 0xA9]; [0xE2; 0x80; 0xAF]; [0xE2; 0x81; 0x9F]; [0xE3; 0x80; 0x80]])%N.

(** Every round cuts at least one byte. *)
Fixpoint trim_left (fuel : nat) (s : string) : string :=
  match fuel with
  | 0 => s
  | S fuel' =>
      match filter (λ w, HasPrefix s w) white_space with
      | w :: _ => trim_left fuel' (string_drop (String.length w) s)
      | [] => s
      end
  end.

Fixpoint trim_right (fuel : nat) (s : string) : string :=
  match fuel with
  | 0 => s
  | S fuel' =>
      match filter (λ w, HasSuffix s w) white_space with
      | w :: _ => trim_right fuel' (TrimSuffix s w)
      | [] => s
      end
  end.

Definition TrimSpace (s : string) : string :=
  let s := trim_left (String.length s) s in trim_right (String.length s) s.

(** ** Settings *)

Definition WebHookPrefix := PrefixAdmissionController +:+ "webHook.".
Definition FilteringPrefix := PrefixAdmissionController +:+ "filtering.".
Definition AccessControlPrefix := PrefixAdmissionController +:+ "accessControl.".

Definition AMWebHookAMServiceName := WebHookPrefix +:+ "amServiceName".
Definition AMWebHookSchedulerServiceAddress := WebHookPrefix +:+ "schedulerServiceAddress".
Definition AMFilteringProcessNamespaces := FilteringPrefix +:+ "processNamespaces".
Definition AMFilteringBypassNamespaces := FilteringPrefix +:+ "bypassNamespaces".
Definition AMFilteringLabelNamespaces := FilteringPrefix +:+ "labelNamespaces".
Definition AMFilteringNoLabelNamespaces := FilteringPrefix +:+ "noLabelNamespaces".
Definition AMAccessControlBypassAuth := AccessControlPrefix +:+ "bypassAuth".
Definition AMAccessControlTrustControllers := AccessControlPrefix +:+ "trustControllers".
Definition AMAccessControlSystemUsers := AccessControlPrefix +:+ "systemUsers".
Definition AMAccessControlExternalUsers := AccessControlPrefix +:+ "externalUsers".
Definition AMAccessControlExternalGroups := AccessControlPrefix +:+ "externalGroups".

Definition DefaultWebHookAmServiceName : string := "yunikorn-admission-controller-service".
Definition DefaultWebHookSchedulerServiceAddress : string := "yunikorn-service:9080".
Definition DefaultFilteringBypassNamespaces : string := "^kube-system$".
Definition DefaultAccessControlSystemUsers : string := "^system:serviceaccount:kube-system:".

Definition parseConfigString (config : gmap string string) (key defaultValue : string) : string :=
  match config !! key with Some value => value | None => defaultValue end.

(** [fmt.Sprintf("%t", b)] *)
Definition format_bool (b : bool) : string := if b then "true" else "false".

Definition parseConfigBool (config : gmap string string) (key : string) (defaultValue : bool) : bool :=
  let value := parseConfigString config key (format_bool defaultValue) in
  match ParseBool value with Some result => result | None => defaultValue end.

Section AdmissionConf.
Context `{Regexps} `{ConfEnv} `{ZapLevels} `{MapOrder}.

Fixpoint compileAll (patterns : list string) : option (list Regexp) :=
  match patterns with
  | [] => Some []
  | pattern :: patterns' =>
      let pattern := TrimSpace pattern in
      if pattern =s "" then compileAll patterns'
      else
        re ← regexp_Compile pattern;
        rest ← compileAll patterns';
        Some (re :: rest)
  end.

(** [None] is an error. *)
Definition parseRegexes (patterns : string) : option (list Regexp) :=
  compileAll (Split patterns (Ascii.ascii_of_nat 44)).

(** [None] is the fatal error of a default that does not compile. *)
Definition parseConfigRegexps (config : gmap string string) (key defaultValue : string) :
    option (list Regexp) :=
  let value := parseConfigString config key defaultValue in
  match parseRegexes value with
  | Some result => Some result
  | None => parseRegexes defaultValue
  end.

(** The loggers of the process are configured with the controller. *)
Record AdmissionControllerConf := mkAdmissionConf {
  ac_namespace : string;
  ac_kubeConfig : string;
  ac_enableConfigHotRefresh : bool;
  ac_policyGroup : string;
  ac_amServiceName : string;
  ac_schedulerServiceAddress : string;
  ac_processNamespaces : list Regexp;
  ac_bypassNamespaces : list Regexp;
  ac_labelNamespaces : list Regexp;
  ac_noLabelNamespaces : list Regexp;
  ac_generateUniqueAppIds : bool;
  ac_bypassAuth : bool;
  ac_trustControllers : bool;
  ac_systemUsers : list Regexp;
  ac_externalUsers : list Regexp;
  ac_externalGroups : list Regexp;
  ac_configMaps : list (option ConfigMap);
  ac_log : option loggerConfig
}.

(** The zero value, with the namespace and the path of the client
    configuration. *)
Definition zero_conf (namespace kubeConfig : string) : AdmissionControllerConf :=
  mkAdmissionConf namespace kubeConfig false "" "" "" [] [] [] [] false false false [] [] [] [] None.

Definition GetPendingPolicyGroup (configs : gmap string string) : string :=
  parseConfigString configs CMSvcPolicyGroup "queues".

Definition am_updateConfigMaps (configMaps : list (option ConfigMap)) (initial : bool)
    (acc : AdmissionControllerConf) : option AdmissionControllerConf :=
  if negb initial && negb (ac_enableConfigHotRefresh acc) then Some acc
  else
    let configs := FlattenConfigMaps configMaps in
    processNamespaces ← parseConfigRegexps configs AMFilteringProcessNamespaces "";
    bypassNamespaces ← parseConfigRegexps configs AMFilteringBypassNamespaces DefaultFilteringBypassNamespaces;
    labelNamespaces ← parseConfigRegexps configs AMFilteringLabelNamespaces "";
    noLabelNamespaces ← parseConfigRegexps configs AMFilteringNoLabelNamespaces "";
    systemUsers ← parseConfigRegexps configs AMAccessControlSystemUsers DefaultAccessControlSystemUsers;
    externalUsers ← parseConfigRegexps configs AMAccessControlExternalUsers "";
    externalGroups ← parseConfigRegexps configs AMAccessControlExternalGroups "";
    Some (mkAdmissionConf (ac_namespace acc) (ac_kubeConfig acc)
            (parseConfigBool configs CMSvcEnableConfigHotRefresh true)
            (parseConfigString configs CMSvcPolicyGroup "queues")
            (parseConfigString configs AMWebHookAMServiceName DefaultWebHookAmServiceName)
            (parseConfigString configs AMWebHookSchedulerServiceAddress DefaultWebHookSchedulerServiceAddress)
            processNamespaces bypassNamespaces labelNamespaces noLabelNamespaces
            (parseConfigBool configs AMFilteringGenerateUniqueAppIds false)
            (parseConfigBool configs AMAccessControlBypassAuth false)
            (parseConfigBool configs AMAccessControlTrustControllers true)
            systemUsers externalUsers externalGroups configMaps
            (UpdateLoggingConfig (ac_log acc) configs)).

Definition NewAdmissionControllerConf (configMaps : list (option ConfigMap)) :
    option AdmissionControllerConf :=
  am_updateConfigMaps configMaps true (zero_conf GetSchedulerNamespace GetDefaultKubeConfigPath).

(** ** Config map events *)

(** The index of a config map of the shim. *)
Definition am_configMapIndex (acc : AdmissionControllerConf) (configMap : option ConfigMap) : option nat :=
  match configMap with
  | None => None
  | Some configMap =>
      if cm_Namespace configMap <>s ac_namespace acc then None
      else if cm_Name configMap =s DefaultConfigMapName then Some 0
      else if cm_Name configMap =s ConfigMapName then Some 1
      else None
  end.

(** The index of an assignment has to be in range. *)
Definition configUpdated (index : nat) (configMap : option ConfigMap) (acc : AdmissionControllerConf) :
    option AdmissionControllerConf :=
  if bool_decide (index < length (ac_configMaps acc))
  then am_updateConfigMaps (<[index := configMap]> (ac_configMaps acc)) false acc
  else None.

Definition configMap_OnAdd (obj : InformerObject) (acc : AdmissionControllerConf) :
    option AdmissionControllerConf :=
  let cm := Convert2ConfigMap obj in
  match am_configMapIndex acc cm with
  | Some idx => configUpdated idx cm acc
  | None => Some acc
  end.

Definition configMap_OnUpdate (newObj : InformerObject) (acc : AdmissionControllerConf) :
    option AdmissionControllerConf :=
  let cm := Convert2ConfigMap newObj in
  match am_configMapIndex acc cm with
  | Some idx => configUpdated idx cm acc
  | None => Some acc
  end.

Definition configMap_OnDelete (obj : InformerObject) (acc : AdmissionControllerConf) :
    option AdmissionControllerConf :=
  let delete (cm : option ConfigMap) :=
    match am_configMapIndex acc cm with
    | Some idx => configUpdated idx None acc
    | None => Some acc
    end in
  match obj with
  | ObjConfigMap cm => delete (Some cm)
  | ObjTombstone _ => delete (Convert2ConfigMap obj)
  | _ => Some acc
  end.

End AdmissionConf.
