(* ===== verification/Admission.v ===== *)
(** * The admission controller

    Source: pkg/admission/admission_controller.go, util.go, namespace_cache.go,
    priority_class_cache.go, pkg/admission/metadata and pkg/admission/common.

    The API server sends every new or changed pod and workload to the admission
    controller before it is stored.  The controller redirects pods to the
    scheduler, labels them with an application, records the user who submitted
    them, and protects that record.  Requests and responses are values, a
    response carries the JSON patch as a list of operations.  The JSON codec and
    the HTTP call to the scheduler are the class [AdmissionEnv]. *)

From S2P Require Import Prelude.
From S2P Require Import GoStrings.
From S2P Require Import K8sApi.
From S2P Require Import Constants.
From S2P Require Import PodUtils.
From S2P Require Import Logger.
From S2P Require Import Conf.
From S2P Require Import AdmissionConf.

(** ** Namespaces *)

Inductive triState := UNSET | FALSE | TRUE.

#[export] Instance triState_eq_dec : EqDecision triState.
Proof. solve_decision. Defined.

Record nsFlags := mkNsFlags {
  nf_enableYuniKorn : triState;
  nf_generateAppID : triState
}.

Definition NamespaceCache : Type := gmap string nsFlags.

Definition enableYuniKorn (nsc : NamespaceCache) (name : string) : triState :=
  match nsc !! name with Some flag => nf_enableYuniKorn flag | None => UNSET end.

Definition generateAppID (nsc : NamespaceCache) (name : string) : triState :=
  match nsc !! name with Some flag => nf_generateAppID flag | None => UNSET end.

Definition getAnnotationValue (m : gmap string string) (name : string) : triState :=
  match m !! name with
  | None => UNSET
  | Some strVal => if strVal =s True_ then TRUE else FALSE
  end.

Definition getAnnotationValues (ns : Namespace) : nsFlags :=
  mkNsFlags (getAnnotationValue (ns_Annotations ns) AnnotationEnableYuniKorn)
    (getAnnotationValue (ns_Annotations ns) AnnotationGenerateAppID).

Definition convert2Namespace (obj : InformerObject) : option Namespace :=
  match obj with ObjNamespace ns => Some ns | _ => None end.

Definition namespace_OnAdd (obj : InformerObject) (nsc : NamespaceCache) : NamespaceCache :=
  match convert2Namespace obj with
  | None => nsc
  | Some ns => <[ns_Name ns := getAnnotationValues ns]> nsc
  end.

Definition namespace_OnUpdate (newObj : InformerObject) (nsc : NamespaceCache) : NamespaceCache :=
  namespace_OnAdd newObj nsc.

Definition namespace_OnDelete (obj : InformerObject) (nsc : NamespaceCache) : NamespaceCache :=
  let delete_ns (ns : option Namespace) :=
    match ns with None => nsc | Some ns => delete (ns_Name ns) nsc end in
  match obj with
  | ObjNamespace ns => delete_ns (Some ns)
  | ObjTombstone _ => delete_ns (convert2Namespace obj)
  | _ => nsc
  end.

(** ** Priority classes *)

Definition PriorityClassCache : Type := gmap string bool.

Definition isPreemptSelfAllowed (pcc : PriorityClassCache) (priorityClassName : string) : bool :=
  match pcc !! priorityClassName with Some value => value | None => true end.

Definition getAnnotationBoolean (m : gmap string string) (name : string) : bool :=
  match m !! name with
  | None => true
  | Some strVal => if strVal =s False_ then false else true
  end.

Definition priorityClass_OnAdd (obj : InformerObject) (pcc : PriorityClassCache) : PriorityClassCache :=
  match Convert2PriorityClass obj with
  | None => pcc
  | Some pc => <[pc_Name pc := getAnnotationBoolean (pc_Annotations pc) AnnotationAllowPreemption]> pcc
  end.

Definition priorityClass_OnUpdate (newObj : InformerObject) (pcc : PriorityClassCache) :
    PriorityClassCache :=
  priorityClass_OnAdd newObj pcc.

Definition priorityClass_OnDelete (obj : InformerObject) (pcc : PriorityClassCache) : PriorityClassCache :=
  let delete_pc (pc : option PriorityClass) :=
    match pc with None => pcc | Some pc => delete (pc_Name pc) pcc end in
  match obj with
  | ObjPriorityClass pc => delete_pc (Some pc)
  | ObjTombstone _ => delete_pc (Convert2PriorityClass obj)
  | _ => pcc
  end.

(** ** Requests and responses *)

Definition UserInfoAnnotation : string := DomainYuniKorn +:+ "user.info".

Inductive PatchValue :=
  | PString (s : string)
  | PMap (m : gmap string string).

Record PatchOperation := mkPatchOperation {
  op_Op : string;
  op_Path : string;
  op_Value : PatchValue
}.

(** The objects of a request are JSON texts. *)
Record AdmissionRequest := mkAdmissionRequest {
  req_UID : string;
  req_Namespace : string;
  req_Operation : string;
  req_Kind : string;
  req_Username : string;
  req_Groups : list string;
  req_Object : string;
  req_OldObject : string
}.

Definition OperationUpdate : string := "UPDATE".

(** The kinds of the metadata package: the names of the Go types. *)
Definition KindPod : string := "Pod".
Definition KindReplicaSet : string := "ReplicaSet".
Definition KindCronJob : string := "CronJob".
Definition workload_kinds : list string :=
  ["Deployment"; "DaemonSet"; "StatefulSet"; "ReplicaSet"; "Job"; "CronJob"].

Record AdmissionResponse := mkAdmissionResponse {
  resp_UID : string;
  resp_Allowed : bool;
  resp_Result : option string;
  resp_Patch : option (list PatchOperation)
}.

Definition admissionResponseBuilder (uid : string) (allowed : bool) (resultMessage : string)
    (patch : option (list PatchOperation)) : AdmissionResponse :=
  mkAdmissionResponse uid allowed (if resultMessage =s "" then None else Some resultMessage) patch.

(** What the scheduler answers to a configuration. *)
Inductive ValidateReply :=
  | PostError
  | PostReply (status : Z) (body : option string).

Class AdmissionEnv := {
  json_pod : string → Pod + string;
  (* annotations and labels of the pod template of a workload of a kind *)
  json_template : string → string → (gmap string string * gmap string string) + string;
  json_configmap : string → ConfigMap + string;
  json_user_info : string → list string → string + string;
  json_user_info_error : string → option string;
  json_patch_error : list PatchOperation → option string;
  http_validate : string → string → ValidateReply;
  json_validate_response : string → option (bool * string)
}.

(** ** Pod metadata *)

Definition updatePodLabel (pod : Pod) (namespace : string) (generateUniqueAppIds : bool) :
    gmap string string :=
  let result := pod_Labels pod in
  let canonicalAppID := GetPodLabelValue pod CanonicalLabelApplicationID in
  let sparkAppID := GetPodLabelValue pod SparkLabelAppID in
  let labelAppID := GetPodLabelValue pod LabelApplicationID in
  let annotationAppID := GetPodAnnotationValue pod AnnotationApplicationID in
  let result :=
    if (canonicalAppID =s "") && (sparkAppID =s "") && (labelAppID =s "") && (annotationAppID =s "") then
      let generatedID := GenerateApplicationID namespace generateUniqueAppIds (pod_UID pod) in
      <[LabelApplicationID := generatedID]> (<[CanonicalLabelApplicationID := generatedID]> result)
    else if canonicalAppID <>s "" then <[LabelApplicationID := canonicalAppID]> result
    else result in
  let canonicalQueueName := GetPodLabelValue pod CanonicalLabelQueueName in
  if canonicalQueueName <>s "" then <[LabelQueueName := canonicalQueueName]> result else result.

Definition updatePodAnnotation (pod : Pod) (key value : string) : gmap string string :=
  <[key := value]> (pod_Annotations pod).

Definition updateSchedulerName (patch : list PatchOperation) : list PatchOperation :=
  patch ++ [mkPatchOperation "add" "/spec/schedulerName" (PString SchedulerName)].

(** Sets an annotation in the first patch of the annotations, if there is one. *)
Fixpoint patch_annotation (key value : string) (patch : list PatchOperation) :
    option (list PatchOperation) :=
  match patch with
  | [] => None
  | p :: patch' =>
      match op_Value p with
      | PMap annotations =>
          if (op_Op p =s "add") && (op_Path p =s "/metadata/annotations")
          then Some (mkPatchOperation (op_Op p) (op_Path p) (PMap (<[key := value]> annotations)) :: patch')
          else cons p <$> patch_annotation key value patch'
      | PString _ => cons p <$> patch_annotation key value patch'
      end
  end.

Definition updatePreemptionInfo (pcCache : PriorityClassCache) (pod : Pod) (patch : list PatchOperation) :
    list PatchOperation :=
  let value := GetPodAnnotationValue pod AnnotationAllowPreemption in
  if (value =s True_) || (value =s False_) then patch
  else
    let value :=
      if isPreemptSelfAllowed pcCache (spec_PriorityClassName (pod_Spec pod)) then True_ else False_ in
    match patch_annotation AnnotationAllowPreemption value patch with
    | Some patch => patch
    | None =>
        patch ++ [mkPatchOperation "add" "/metadata/annotations"
                    (PMap (updatePodAnnotation pod AnnotationAllowPreemption value))]
    end.

Definition updateLabels (generateUniqueAppIds : bool) (namespace : string) (pod : Pod)
    (patch : list PatchOperation) : list PatchOperation :=
  patch ++ [mkPatchOperation "add" "/metadata/labels"
              (PMap (updatePodLabel pod namespace generateUniqueAppIds))].

Section Admission.
Context `{Regexps} `{AdmissionEnv} `{ConfEnv} `{ZapLevels} `{MapOrder}.

(** ** User information *)

Definition matches_any (res : list Regexp) (s : string) : bool := existsb (λ re, MatchString re s) res.

Definition IsAnnotationAllowed (conf : AdmissionControllerConf) (userName : string) (groups : list string) :
    bool :=
  (ac_trustControllers conf && matches_any (ac_systemUsers conf) userName) ||
  matches_any (ac_externalUsers conf) userName ||
  existsb (λ allowedGroup, existsb (MatchString allowedGroup) groups) (ac_externalGroups conf).

Definition IsAnnotationValid (userInfoAnnotation : string) : option string :=
  json_user_info_error userInfoAnnotation.

Definition getPatchOperation (annotations : gmap string string) (path user : string) (groups : list string) :
    PatchOperation + string :=
  match json_user_info user groups with
  | inr err => inr err
  | inl jsonBytes => inl (mkPatchOperation "add" path (PMap (<[UserInfoAnnotation := jsonBytes]> annotations)))
  end.

Definition GetPatchForPod (annotations : gmap string string) (user : string) (groups : list string) :
    PatchOperation + string :=
  getPatchOperation annotations "/metadata/annotations" user groups.

Definition defaultPodAnnotationsPath : string := "/spec/template/metadata/annotations".
Definition cronJobPodAnnotationsPath : string := "/spec/jobTemplate/spec/template/metadata/annotations".

Record extractResult := mkExtractResult {
  ex_annotations : gmap string string;
  ex_labels : gmap string string;
  ex_path : string
}.

(** The extractors of the kinds; [None] for a kind that has none. *)
Definition extract (req : AdmissionRequest) : option (extractResult + string) :=
  if bool_decide (req_Kind req ∈ workload_kinds) then
    Some (match json_template (req_Kind req) (req_Object req) with
          | inr err => inr err
          | inl (annotations, labels) =>
              inl (mkExtractResult annotations labels
                     (if req_Kind req =s KindCronJob then cronJobPodAnnotationsPath
                      else defaultPodAnnotationsPath))
          end)
  else None.

Definition GetLabelsFromWorkload (req : AdmissionRequest) : option (gmap string string + string) :=
  match extract req with
  | None => None
  | Some (inr err) => Some (inr err)
  | Some (inl result) => Some (inl (ex_labels result))
  end.

Definition GetAnnotationsFromRequestKind (req : AdmissionRequest) : option (gmap string string + string) :=
  match extract req with
  | None => None
  | Some (inr err) => Some (inr err)
  | Some (inl result) => Some (inl (ex_annotations result))
  end.

Definition GetPatchForWorkload (req : AdmissionRequest) (user : string) (groups : list string) :
    list PatchOperation + string :=
  match extract req with
  | None => inl []
  | Some (inr err) => inr err
  | Some (inl result) =>
      match getPatchOperation (ex_annotations result) (ex_path result) user groups with
      | inr err => inr err
      | inl patchOp => inl [patchOp]
      end
  end.

(** A response that refuses the annotation, and whether there is one. *)
Definition checkUserInfoAnnotation (conf : AdmissionControllerConf) (annotation : option string)
    (userName : string) (groups : list string) (uid : string) : option AdmissionResponse * bool :=
  match annotation with
  | None => (None, false)
  | Some annotation =>
      if negb (ac_bypassAuth conf) then
        if negb (IsAnnotationAllowed conf userName groups) then
          (Some (admissionResponseBuilder uid false
                   ("user " +:+ userName +:+ " with groups [" +:+ Join groups "," +:+
                    "] is not allowed to set user annotation") None), true)
        else
          match IsAnnotationValid annotation with
          | Some err => (Some (admissionResponseBuilder uid false err None), true)
          | None => (None, true)
          end
      else (None, true)
  end.

(** ** Namespaces of a request *)

Record AdmissionController := mkAdmissionController {
  c_conf : AdmissionControllerConf;
  c_pcCache : PriorityClassCache;
  c_nsCache : NamespaceCache
}.

Definition namespaceMatchesProcessList (c : AdmissionController) (namespace : string) : bool :=
  match ac_processNamespaces (c_conf c) with
  | [] => true
  | res => matches_any res namespace
  end.

Definition namespaceMatchesBypassList (c : AdmissionController) (namespace : string) : bool :=
  matches_any (ac_bypassNamespaces (c_conf c)) namespace.

Definition namespaceMatchesLabelList (c : AdmissionController) (namespace : string) : bool :=
  match ac_labelNamespaces (c_conf c) with
  | [] => true
  | res => matches_any res namespace
  end.

Definition namespaceMatchesNoLabelList (c : AdmissionController) (namespace : string) : bool :=
  matches_any (ac_noLabelNamespaces (c_conf c)) namespace.

Definition shouldProcessNamespace (c : AdmissionController) (namespace : string) : bool :=
  match enableYuniKorn (c_nsCache c) namespace with
  | UNSET => namespaceMatchesProcessList c namespace && negb (namespaceMatchesBypassList c namespace)
  | process => bool_decide (process = TRUE)
  end.

Definition shouldLabelNamespace (c : AdmissionController) (namespace : string) : bool :=
  match generateAppID (c_nsCache c) namespace with
  | UNSET => namespaceMatchesLabelList c namespace && negb (namespaceMatchesNoLabelList c namespace)
  | label => bool_decide (label = TRUE)
  end.

Definition shouldProcessAdmissionReview (c : AdmissionController) (namespace : string)
    (labels : gmap string string) : bool :=
  shouldProcessNamespace c namespace &&
  ((go_get labels CanonicalLabelApplicationID <>s "") || (go_get labels LabelApplicationID <>s "") ||
   (go_get labels SparkLabelAppID <>s "") || shouldLabelNamespace c namespace).

Definition shouldProcessWorkload (c : AdmissionController) (req : AdmissionRequest) : bool :=
  negb ((req_Kind req =s KindReplicaSet) && matches_any (ac_systemUsers (c_conf c)) (req_Username req)).

(** ** The handlers *)

Definition yunikornPod : string := "yunikorn".

(** The response with a patch. *)
Definition respond_patch (uid : string) (patch : list PatchOperation) : AdmissionResponse :=
  match json_patch_error patch with
  | Some err => admissionResponseBuilder uid false err None
  | None => admissionResponseBuilder uid true "" (Some patch)
  end.

(** [processPod] after the patch of the user information. *)
Definition processPod_patch (c : AdmissionController) (uid namespace : string) (pod : Pod)
    (patch : list PatchOperation) : AdmissionResponse :=
  if GetPodLabelValue pod LabelApp =s yunikornPod then admissionResponseBuilder uid true "" None
  else if negb (shouldProcessNamespace c namespace) then admissionResponseBuilder uid true "" None
  else
    let patch := updateSchedulerName patch in
    let patch :=
      if shouldLabelNamespace c namespace then
        let patch := updateLabels (ac_generateUniqueAppIds (c_conf c)) namespace pod patch in
        updatePreemptionInfo (c_pcCache c) pod patch
      else patch in
    respond_patch uid patch.

Definition processPod (c : AdmissionController) (req : AdmissionRequest) (namespace : string) :
    AdmissionResponse :=
  let uid := req_UID req in
  match json_pod (req_Object req) with
  | inr err => admissionResponseBuilder uid false err None
  | inl pod =>
      let userName := req_Username req in
      let groups := req_Groups req in
      match checkUserInfoAnnotation (c_conf c) (pod_Annotations pod !! UserInfoAnnotation) userName groups uid with
      | (Some failureResponse, _) => failureResponse
      | (None, userInfoSet) =>
          if negb userInfoSet && negb (ac_bypassAuth (c_conf c)) then
            match GetPatchForPod (pod_Annotations pod) userName groups with
            | inr err => admissionResponseBuilder uid false err None
            | inl patchOp => processPod_patch c uid namespace pod [patchOp]
            end
          else processPod_patch c uid namespace pod []
      end
  end.

Definition processWorkload (c : AdmissionController) (req : AdmissionRequest) (namespace : string) :
    AdmissionResponse :=
  let uid := req_UID req in
  let pass := admissionResponseBuilder uid true "" None in
  let fail err := admissionResponseBuilder uid false err None in
  if negb (shouldProcessWorkload c req) then pass
  else
    match GetLabelsFromWorkload req with
    | None => pass
    | Some (inr err) => fail err
    | Some (inl labels) =>
        if negb (shouldProcessAdmissionReview c namespace labels) then pass
        else
          match GetAnnotationsFromRequestKind req with
          | None => pass
          | Some (inr err) => fail err
          | Some (inl annotations) =>
              let userName := req_Username req in
              let groups := req_Groups req in
              match checkUserInfoAnnotation (c_conf c) (annotations !! UserInfoAnnotation) userName groups uid with
              | (Some failureResponse, _) => failureResponse
              | (None, userInfoSet) =>
                  if negb userInfoSet && negb (ac_bypassAuth (c_conf c)) then
                    match GetPatchForWorkload req userName groups with
                    | inr err => fail err
                    | inl patch => respond_patch uid patch
                    end
                  else pass
              end
          end
    end.

Definition processPodUpdate (c : AdmissionController) (req : AdmissionRequest) (namespace : string) :
    AdmissionResponse :=
  let uid := req_UID req in
  match json_pod (req_Object req) with
  | inr err => admissionResponseBuilder uid false err None
  | inl newPod =>
      match json_pod (req_OldObject req) with
      | inr err => admissionResponseBuilder uid false err None
      | inl oldPod =>
          if bool_decide (pod_Labels newPod !! LabelApp = Some yunikornPod)
          then admissionResponseBuilder uid true "" None
          else if negb (shouldProcessAdmissionReview c namespace (pod_Labels newPod))
          then admissionResponseBuilder uid true "" None
          else
            let originalUserInfo := go_get (pod_Annotations oldPod) UserInfoAnnotation in
            let newUserInfo := go_get (pod_Annotations newPod) UserInfoAnnotation in
            if originalUserInfo <>s newUserInfo
            then admissionResponseBuilder uid false "user info annotation change is not allowed" None
            else admissionResponseBuilder uid true "" None
      end
  end.

Definition mutate (c : AdmissionController) (req : option AdmissionRequest) : AdmissionResponse :=
  match req with
  | None => admissionResponseBuilder "" false "" None
  | Some req =>
      let namespace := if req_Namespace req =s "" then "default" else req_Namespace req in
      if req_Operation req =s OperationUpdate then
        if req_Kind req =s KindPod then processPodUpdate c req namespace
        else admissionResponseBuilder (req_UID req) true "" None
      else if req_Kind req =s KindPod then processPod c req namespace
      else processWorkload c req namespace
  end.

(** ** Validation of configurations *)

(** The error of a configuration.  [None] is a panic: an index out of range. *)
Definition validateConfigMap (c : AdmissionController) (namespace : string) (cm : ConfigMap) :
    option (option string) :=
  if namespace <>s ac_namespace (c_conf c) then Some None
  else
    let validate (index : nat) :=
      if bool_decide (index < length (ac_configMaps (c_conf c))) then
        let configs := FlattenConfigMaps (<[index := Some cm]> (ac_configMaps (c_conf c))) in
        let policyGroup := GetPendingPolicyGroup configs in
        let content := default "" (configs !! (policyGroup +:+ ".yaml")) in
        match http_validate (ac_schedulerServiceAddress (c_conf c)) content with
        | PostError => Some None
        | PostReply status body =>
            if (status <? 200)%Z || (299 <? status)%Z then Some None
            else
              match body with
              | None => Some None
              | Some body =>
                  match json_validate_response body with
                  | None => Some None
                  | Some (allowed, reason) => Some (if (allowed : bool) then None else Some reason)
                  end
              end
        end
      else None in
    if cm_Name cm =s DefaultConfigMapName then validate 0
    else if cm_Name cm =s ConfigMapName then validate 1
    else Some None.

Definition validateConf (c : AdmissionController) (req : option AdmissionRequest) :
    option AdmissionResponse :=
  match req with
  | None => Some (admissionResponseBuilder "" false "" None)
  | Some req =>
      let uid := req_UID req in
      if req_Kind req <>s "ConfigMap" then Some (admissionResponseBuilder uid true "" None)
      else
        let namespace := if req_Namespace req =s "" then "default" else req_Namespace req in
        match json_configmap (req_Object req) with
        | inr err => Some (admissionResponseBuilder uid false err None)
        | inl configmap =>
            err ← validateConfigMap c namespace configmap;
            Some (match err with
                  | Some err => admissionResponseBuilder uid false err None
                  | None => admissionResponseBuilder uid true "" None
                  end)
        end
  end.

(** ** The HTTP handler *)

Record HttpRequest := mkHttpRequest {
  http_body : option (option string);        (* the body and whether it can be read *)
  http_contentType : string;
  http_path : string
}.

Inductive HttpReply :=
  | HttpError (code : Z) (message : string)
  | HttpReview (response : AdmissionResponse).

(** [decode] decodes an admission review: [None] is an error, the request of a
    review may be missing. *)
Definition Serve (decode : string → option (option AdmissionRequest)) (c : AdmissionController)
    (r : HttpRequest) : option HttpReply :=
  let respond (body : string) :=
    if http_contentType r <>s "application/json"
    then Some (HttpError 415 "invalid Content-Type, expect `application/json`")
    else if (http_path r <>s "/mutate") && (http_path r <>s "/validate-conf")
    then Some (HttpError 404 "request is neither mutation nor validation")
    else
      match decode body with
      | Some (Some req) =>
          if http_path r =s "/mutate" then Some (HttpReview (mutate c (Some req)))
          else response ← validateConf c (Some req); Some (HttpReview response)
      | _ => Some (HttpReview (admissionResponseBuilder "yunikorn-invalid-body" false "body decode failed" None))
      end in
  match http_body r with
  | None => respond ""
  | Some None => Some (HttpError 400 "empty or invalid body")
  | Some (Some body) => if body =s "" then Some (HttpError 400 "empty or invalid body") else respond body
  end.

End Admission.
