(* ===== verification/AdmissionThms.v ===== *)
(** * The admission controller: correctness

    What the API server stores after it has applied the patch of a response: the
    pod is redirected to the scheduler, belongs to an application and carries the
    user who submitted it; nobody can set the user information of somebody else. *)

From S2P Require Import Prelude.
From S2P Require Import GoStrings.
From S2P Require Import K8sApi.
From S2P Require Import K8sInstances.
From S2P Require Import Constants.
From S2P Require Import PodUtils.
From S2P Require Import Logger.
From S2P Require Import Conf.
From S2P Require Import AdmissionConf.
From S2P Require Import Admission.

(** ** Applying a patch

    JSON patch, RFC 6902, for the paths the controller uses on pods: adding a
    member that exists replaces it. *)

Definition spec_with_SchedulerName (s : PodSpec) (n : string) : PodSpec :=
  mkPodSpec (spec_NodeName s) n (spec_Containers s) (spec_InitContainers s)
    (spec_Resources s) (spec_Overhead s) (spec_Priority s) (spec_PriorityClassName s)
    (spec_PreemptionPolicy s) (spec_Affinity s) (spec_SchedulingGates s) (spec_Volumes s)
    (spec_ImagePullSecrets s) (spec_NodeSelector s) (spec_Tolerations s)
    (spec_TopologySpreadConstraints s) (spec_RestartPolicy s) (spec_SecurityContext s).

Definition pod_with (p : Pod) (labels annotations : gmap string string) (spec : PodSpec) : Pod :=
  mkPod (pod_Name p) (pod_Namespace p) (pod_UID p) labels annotations (pod_CreationTimestamp p)
    (pod_OwnerReferences p) spec (pod_Status p).

Definition apply_op (pod : Pod) (op : PatchOperation) : Pod :=
  match op_Value op with
  | PString s =>
      if op_Path op =s "/spec/schedulerName"
      then pod_with pod (pod_Labels pod) (pod_Annotations pod) (spec_with_SchedulerName (pod_Spec pod) s)
      else pod
  | PMap m =>
      if op_Path op =s "/metadata/annotations" then pod_with pod (pod_Labels pod) m (pod_Spec pod)
      else if op_Path op =s "/metadata/labels" then pod_with pod m (pod_Annotations pod) (pod_Spec pod)
      else pod
  end.

Definition apply_patch (pod : Pod) (patch : list PatchOperation) : Pod := foldl apply_op pod patch.

(** What the API server stores for a request that is allowed. *)
Definition admitted (pod : Pod) (r : AdmissionResponse) : Pod := apply_patch pod (default [] (resp_Patch r)).

(** The JSON codec of the user information: ASCII texts come back, and a text is
    an error for the controller exactly when it is one for the shim. *)
Class UserInfoLaws `{AdmissionEnv} `{JsonOps} : Prop := {
  user_info_roundtrip u gs : is_ascii u = true → Forall (λ g, is_ascii g = true) gs →
    ∃ j, json_user_info u gs = inl j ∧ j ≠ "" ∧ json_user_group j = Some (u, gs);
  user_info_error s : json_user_info_error s = None ↔ is_Some (json_user_group s)
}.

Section Admission.
Context `{RX : Regexps} `{AE : AdmissionEnv} `{JO : JsonOps} `{UL : !UserInfoLaws} `{CE : ConfEnv}
  `{ZL : ZapLevels} `{MO : MapOrder}.

(** ** The patches *)

Definition annotations_op (m : gmap string string) : PatchOperation :=
  mkPatchOperation "add" "/metadata/annotations" (PMap m).
Definition scheduler_op : PatchOperation :=
  mkPatchOperation "add" "/spec/schedulerName" (PString SchedulerName).
Definition labels_op (m : gmap string string) : PatchOperation :=
  mkPatchOperation "add" "/metadata/labels" (PMap m).

(** The annotations after [updatePreemptionInfo]. *)
Definition preemption_annotations (pcc : PriorityClassCache) (pod : Pod) (m : gmap string string) :
    gmap string string :=
  let value := GetPodAnnotationValue pod AnnotationAllowPreemption in
  if (value =s True_) || (value =s False_) then m
  else <[AnnotationAllowPreemption :=
           if isPreemptSelfAllowed pcc (spec_PriorityClassName (pod_Spec pod)) then True_ else False_]> m.

(** What is stored for a pod of a namespace that is processed and labelled. *)
Lemma apply_user_patch pcc pod m labels :
  apply_patch pod (updatePreemptionInfo pcc pod [annotations_op m; scheduler_op; labels_op labels]) =
  pod_with pod labels (preemption_annotations pcc pod m) (spec_with_SchedulerName (pod_Spec pod) SchedulerName).
Proof.
  unfold updatePreemptionInfo, preemption_annotations.
  destruct (_ || _); [reflexivity|]. reflexivity.
Qed.

Lemma apply_plain_patch pcc pod labels :
  apply_patch pod (updatePreemptionInfo pcc pod [scheduler_op; labels_op labels]) =
  pod_with pod labels (preemption_annotations pcc pod (pod_Annotations pod))
    (spec_with_SchedulerName (pod_Spec pod) SchedulerName).
Proof.
  unfold updatePreemptionInfo, preemption_annotations.
  destruct (_ || _); reflexivity.
Qed.

Lemma preemption_annotations_lookup pcc pod m k :
  k ≠ AnnotationAllowPreemption → preemption_annotations pcc pod m !! k = m !! k.
Proof. intros Hk. unfold preemption_annotations. destruct (_ || _); [done|]. by rewrite lookup_insert_ne. Qed.

Lemma updatePodLabel_lookup pod ns g k :
  k ∉ [CanonicalLabelApplicationID; LabelApplicationID; LabelQueueName] →
  updatePodLabel pod ns g !! k = pod_Labels pod !! k.
Proof.
  intros Hk. rewrite !not_elem_of_cons in Hk. destruct Hk as (H1 & H2 & H3 & _).
  unfold updatePodLabel. repeat case_match; by rewrite ?lookup_insert_ne.
Qed.
(** ** Applications *)

(** The pod with the scheduler name set. *)
Definition redirected (pod : Pod) : Pod :=
  pod_with pod (pod_Labels pod) (pod_Annotations pod) (spec_with_SchedulerName (pod_Spec pod) SchedulerName).

(** The pod names its application. *)
Definition declares_app (pod : Pod) : bool := existsb (λ id, id <>s "") (app_id_sources pod).

Lemma label_canonical pod ns g labels ann spec :
  labels = updatePodLabel pod ns g →
  GetPodLabelValue (pod_with pod labels ann spec) CanonicalLabelApplicationID =
  if declares_app pod then GetPodLabelValue pod CanonicalLabelApplicationID
  else GenerateApplicationID ns g (pod_UID pod).
Proof.
  intros ->. unfold GetPodLabelValue at 1. cbn [pod_Labels pod_with].
  unfold declares_app, app_id_sources. cbn [existsb].
  unfold updatePodLabel.
  assert (H1 : LabelQueueName ≠ CanonicalLabelApplicationID) by done.
  assert (H2 : LabelApplicationID ≠ CanonicalLabelApplicationID) by done.
  destruct (GetPodLabelValue pod CanonicalLabelQueueName =s "");
    destruct (GetPodLabelValue pod CanonicalLabelApplicationID =s "") eqn:E1;
    destruct (GetPodLabelValue pod SparkLabelAppID =s "");
    destruct (GetPodLabelValue pod LabelApplicationID =s "");
    destruct (GetPodAnnotationValue pod AnnotationApplicationID =s ""); cbn [negb andb orb];
    rewrite ?lookup_insert_ne by done; rewrite ?lookup_insert_eq; done.
Qed.

Lemma label_application pod ns g :
  declares_app pod = true → GetPodLabelValue pod CanonicalLabelApplicationID = "" →
  updatePodLabel pod ns g !! LabelApplicationID = pod_Labels pod !! LabelApplicationID.
Proof.
  unfold declares_app, app_id_sources, updatePodLabel. cbn [existsb].
  intros Hd Hc. rewrite Hc in Hd |- *. change (bool_decide ("" =@{string} "")) with true in *.
  cbn [negb andb orb] in *.
  assert (H1 : LabelQueueName ≠ LabelApplicationID) by done.
  destruct (GetPodLabelValue pod CanonicalLabelQueueName =s "");
    destruct (GetPodLabelValue pod SparkLabelAppID =s "");
    destruct (GetPodLabelValue pod LabelApplicationID =s "");
    destruct (GetPodAnnotationValue pod AnnotationApplicationID =s ""); cbn [negb andb orb] in *; try done;
    by rewrite lookup_insert_ne.
Qed.

(** An application a pod names is kept. *)
Lemma declared_app_kept u pod ns g ann :
  declares_app pod = true →
  ann !! AnnotationApplicationID = pod_Annotations pod !! AnnotationApplicationID →
  GetApplicationIDFromPod u (pod_with pod (updatePodLabel pod ns g) ann
    (spec_with_SchedulerName (pod_Spec pod) SchedulerName)) =
  GetApplicationIDFromPod u (redirected pod).
Proof.
  intros Hd Hann. unfold GetApplicationIDFromPod.
  set (pod' := pod_with pod (updatePodLabel pod ns g) ann _).
  assert (H1 : GetPodLabelValue pod' CanonicalLabelApplicationID =
    GetPodLabelValue pod CanonicalLabelApplicationID)
    by (unfold pod'; rewrite (label_canonical pod ns g) by done; by rewrite Hd).
  assert (H2 : GetPodAnnotationValue pod' AnnotationApplicationID =
    GetPodAnnotationValue pod AnnotationApplicationID)
    by (unfold pod', GetPodAnnotationValue; cbn [pod_Annotations pod_with]; by rewrite Hann).
  assert (H3 : GetPodLabelValue pod CanonicalLabelApplicationID = "" → ∀ l,
    firstLabelValue pod' [LabelApplicationID; SparkLabelAppID] l =
    firstLabelValue (redirected pod) [LabelApplicationID; SparkLabelAppID] l).
  { intros Hc l. cbn [firstLabelValue]. unfold GetPodLabelValue, pod', redirected. cbn [pod_Labels pod_with].
    rewrite (label_application pod ns g Hd Hc), (updatePodLabel_lookup pod ns g SparkLabelAppID); [done|].
    by apply (bool_decide_unpack _). }
  change (GetPodLabelValue (redirected pod) CanonicalLabelApplicationID)
    with (GetPodLabelValue pod CanonicalLabelApplicationID).
  change (GetPodAnnotationValue (redirected pod) AnnotationApplicationID)
    with (GetPodAnnotationValue pod AnnotationApplicationID).
  rewrite H1, H2. change (spec_SchedulerName (pod_Spec pod')) with SchedulerName.
  change (spec_SchedulerName (pod_Spec (redirected pod))) with SchedulerName.
  destruct (decide (GetPodLabelValue pod CanonicalLabelApplicationID = "")) as [Hc|Hc].
  - rewrite (H3 Hc). done.
  - rewrite (bool_decide_false (GetPodLabelValue pod CanonicalLabelApplicationID = "")) by done.
    rewrite (bool_decide_false (GetPodLabelValue pod CanonicalLabelApplicationID = "")) by done. done.
Qed.

(** ** The user *)

Lemma user_of_annotation u gs j ann pod labels spec :
  json_user_group j = Some (u, gs) → j ≠ "" → ann !! UserInfoAnnotation = Some j →
  GetUserFromPod (pod_with pod labels ann spec) = (if u =s "" then DefaultUser else u, gs).
Proof.
  intros Hj Hne Ha. unfold GetUserFromPod, go_get. cbn [pod_Annotations pod_with].
  change userInfoKey with UserInfoAnnotation. rewrite Ha. cbn [default].
  unfold default, id. by rewrite bool_decide_false, Hj by done.
Qed.

(** ** New pods *)

Definition request_namespace (req : AdmissionRequest) : string :=
  if req_Namespace req =s "" then "default" else req_Namespace req.

(** A request to create the pod [pod]. *)
Definition creates (req : AdmissionRequest) (pod : Pod) : Prop :=
  req_Operation req ≠ OperationUpdate ∧ req_Kind req = KindPod ∧ json_pod (req_Object req) = inl pod.

Lemma mutate_creates c req pod :
  creates req pod → mutate c (Some req) = processPod c req (request_namespace req).
Proof.
  intros (Hop & Hk & _). unfold mutate. fold (request_namespace req).
  rewrite bool_decide_false by done. by rewrite bool_decide_true.
Qed.

(** The stored pod when the user information is added. *)
Lemma processPod_new c req pod ns j :
  json_pod (req_Object req) = inl pod → pod_Annotations pod !! UserInfoAnnotation = None →
  ac_bypassAuth (c_conf c) = false → json_user_info (req_Username req) (req_Groups req) = inl j →
  processPod c req ns =
  processPod_patch c (req_UID req) ns pod [annotations_op (<[UserInfoAnnotation := j]> (pod_Annotations pod))].
Proof.
  intros Hp Ha Hb Hj. unfold processPod. rewrite Hp, Ha. cbn [checkUserInfoAnnotation negb]. rewrite Hb.
  cbn [negb andb]. unfold GetPatchForPod, getPatchOperation. by rewrite Hj.
Qed.

Lemma processPod_patch_ready c uid ns pod patch :
  GetPodLabelValue pod LabelApp ≠ yunikornPod → shouldProcessNamespace c ns = true →
  shouldLabelNamespace c ns = true → (∀ patch, json_patch_error patch = None) →
  processPod_patch c uid ns pod patch =
  admissionResponseBuilder uid true "" (Some (updatePreemptionInfo (c_pcCache c) pod
    (patch ++ [scheduler_op] ++
     [labels_op (updatePodLabel pod ns (ac_generateUniqueAppIds (c_conf c)))]))).
Proof.
  intros Hy Hproc Hlab Hpatch. unfold processPod_patch. rewrite bool_decide_false by done.
  rewrite Hproc, Hlab. cbn [negb]. unfold respond_patch. rewrite Hpatch.
  unfold updateSchedulerName, updateLabels. by rewrite <- (assoc_L (++)).
Qed.


(** ** User information *)

(** The annotations a patch sets. *)
Definition patched_annotations (pod : Pod) (patch : option (gmap string string)) : gmap string string :=
  default (pod_Annotations pod) patch.

Lemma processPod_patch_annotation c uid ns pod patch k :
  k ≠ AnnotationAllowPreemption →
  let pod' := admitted pod (processPod_patch c uid ns pod (annotations_op <$> option_list patch)) in
  pod_Annotations pod' !! k = pod_Annotations pod !! k ∨
  pod_Annotations pod' !! k = patched_annotations pod patch !! k.
Proof.
  intros Hk. unfold processPod_patch. case_bool_decide; [by left|].
  destruct (shouldProcessNamespace c ns); cbn [negb]; [|by left].
  unfold respond_patch. destruct (json_patch_error _); [by left|]. right.
  unfold admitted. cbn [resp_Patch admissionResponseBuilder default].
  unfold default, id. unfold updateSchedulerName. fold scheduler_op.
  destruct (shouldLabelNamespace c ns); [|by destruct patch].
  unfold updateLabels. rewrite <- (assoc_L (++)).
  fold (labels_op (updatePodLabel pod ns (ac_generateUniqueAppIds (c_conf c)))).
  destruct patch as [m|].
  - change (annotations_op <$> option_list (Some m)) with [annotations_op m]. cbn [app]. rewrite apply_user_patch. cbn [pod_Annotations pod_with]. by rewrite preemption_annotations_lookup.
  - change (annotations_op <$> option_list None) with (@nil PatchOperation). cbn [app].
    rewrite apply_plain_patch. cbn [pod_Annotations pod_with]. by rewrite preemption_annotations_lookup.
Qed.

(** C11: nobody submits pods in the name of somebody else. Unless authorization is
    turned off, user information that a new pod is stored with is that of the
    submitting user and groups, or it is valid information that came with the pod
    and the submitter is a trusted controller or a user or a member of a group
    that may set it. *)
Theorem no_impersonation c req pod v :
  creates req pod → ac_bypassAuth (c_conf c) = false →
  resp_Allowed (mutate c (Some req)) = true →
  pod_Annotations (admitted pod (mutate c (Some req))) !! UserInfoAnnotation = Some v →
  json_user_info (req_Username req) (req_Groups req) = inl v ∨
  IsAnnotationAllowed (c_conf c) (req_Username req) (req_Groups req) = true ∧
  pod_Annotations pod !! UserInfoAnnotation = Some v ∧ is_Some (json_user_group v).
Proof.
  intros Hc Hb. rewrite (mutate_creates c req pod Hc). destruct Hc as (_ & _ & Hp).
  destruct (pod_Annotations pod !! UserInfoAnnotation) as [a|] eqn:Ha.
  - unfold processPod. rewrite Hp, Ha. cbn [checkUserInfoAnnotation]. rewrite Hb. cbn [negb andb].
    destruct (IsAnnotationAllowed _ _ _) eqn:Hallow; cbn [negb]; [|done].
    destruct (IsAnnotationValid a) eqn:Hv; [done|]. cbn [negb andb]. intros _ Hst. right.
    apply user_info_error in Hv.
    pose proof (processPod_patch_annotation c (req_UID req) (request_namespace req) pod None
      UserInfoAnnotation ltac:(done)) as Hcase.
    change (annotations_op <$> option_list None) with (@nil PatchOperation) in Hcase.
    change (patched_annotations pod None) with (pod_Annotations pod) in Hcase.
    cbv zeta in Hcase. rewrite Hst, Ha in Hcase. by destruct Hcase as [[= ->]|[= ->]].
  - destruct (json_user_info (req_Username req) (req_Groups req)) as [j|e] eqn:Hj.
    + rewrite (processPod_new c req pod _ j) by done. intros _ Hst. left.
      pose proof (processPod_patch_annotation c (req_UID req) (request_namespace req) pod
        (Some (<[UserInfoAnnotation := j]> (pod_Annotations pod))) UserInfoAnnotation ltac:(done)) as Hcase.
      change (annotations_op <$> option_list (Some ?m)) with [annotations_op m] in Hcase.
      cbv zeta in Hcase. rewrite Hst, Ha in Hcase. destruct Hcase as [?|Heq]; [done|]. cbn in Heq. rewrite lookup_insert_eq in Heq. by injection Heq as ->.
    + unfold processPod. rewrite Hp, Ha. cbn [checkUserInfoAnnotation]. rewrite Hb. cbn [negb andb].
      unfold GetPatchForPod, getPatchOperation. by rewrite Hj.
Qed.

(** The user information of a pod cannot be changed. An update of a pod is
    allowed exactly when it leaves the user information as it is, or the updated
    pod is labelled as YuniKorn's own, or the namespace is not processed. *)
Theorem pod_update_keeps_user_info c req newPod oldPod :
  req_Operation req = OperationUpdate → req_Kind req = KindPod →
  json_pod (req_Object req) = inl newPod → json_pod (req_OldObject req) = inl oldPod →
  resp_Patch (mutate c (Some req)) = None ∧
  (resp_Allowed (mutate c (Some req)) = true ↔
   go_get (pod_Annotations newPod) UserInfoAnnotation = go_get (pod_Annotations oldPod) UserInfoAnnotation ∨
   pod_Labels newPod !! LabelApp = Some yunikornPod ∨
   shouldProcessAdmissionReview c (request_namespace req) (pod_Labels newPod) = false).
Proof.
  intros Hop Hk Hn Ho. unfold mutate. fold (request_namespace req). rewrite bool_decide_true by done.
  rewrite bool_decide_true by done. unfold processPodUpdate. rewrite Hn, Ho.
  case_bool_decide; [split; [done|tauto]|].
  destruct (shouldProcessAdmissionReview c (request_namespace req) (pod_Labels newPod)); cbn [negb];
    [|split; [done|tauto]].
  case_bool_decide as Heq; cbn; split; try done; split; intros; try done; [by left|naive_solver].
Qed.

(** A workload whose pod template brings user information is refused unless the
    submitter may set it, when its namespace is processed. *)
Theorem workload_user_info_is_checked c req labels annotations v :
  req_Operation req ≠ OperationUpdate → req_Kind req ∈ workload_kinds →
  json_template (req_Kind req) (req_Object req) = inl (annotations, labels) →
  annotations !! UserInfoAnnotation = Some v → ac_bypassAuth (c_conf c) = false →
  shouldProcessWorkload c req = true →
  shouldProcessAdmissionReview c (request_namespace req) labels = true →
  resp_Allowed (mutate c (Some req)) = true ↔
  IsAnnotationAllowed (c_conf c) (req_Username req) (req_Groups req) = true ∧ is_Some (json_user_group v).
Proof.
  intros Hop Hk Ht Ha Hb Hw Hs. unfold mutate. fold (request_namespace req).
  rewrite bool_decide_false by done.
  rewrite bool_decide_false by (intros Heq; rewrite Heq in Hk; by apply (bool_decide_pack _) in Hk).
  unfold processWorkload, GetLabelsFromWorkload, GetAnnotationsFromRequestKind, extract.
  rewrite Hw, (bool_decide_true (_ ∈ _)), Ht by done. cbn [negb ex_labels ex_annotations].
  rewrite Hs. cbn [negb]. rewrite Ha. cbn [checkUserInfoAnnotation]. rewrite Hb. cbn [negb andb].
  rewrite <- user_info_error. unfold IsAnnotationValid.
  destruct (IsAnnotationAllowed _ _ _); cbn [negb]; [|by split; [|intros [? _]]].
  destruct (json_user_info_error v); cbn; split; try done; by intros [_ ?].
Qed.
End Admission.

(** ** Settings *)

Section Settings.
Context `{RX : Regexps} `{RL : !RegexpsLaws} `{AE : AdmissionEnv} `{CE : ConfEnv} `{ZL : ZapLevels}
  `{MO : MapOrder}.

Lemma parseRegexes_empty : parseRegexes "" = Some [].
Proof. reflexivity. Qed.

Lemma parseRegexes_one p re :
  Split p (Ascii.ascii_of_nat 44) = [p] → TrimSpace p = p → p ≠ "" → regexp_Compile p = Some re →
  parseRegexes p = Some [re].
Proof.
  intros Hs Ht Hne Hc. unfold parseRegexes. rewrite Hs. cbn [compileAll]. rewrite Ht.
  rewrite bool_decide_false by done. by rewrite Hc.
Qed.

Lemma default_bypass_compiles :
  ∃ re, parseRegexes DefaultFilteringBypassNamespaces = Some [re] ∧
    ∀ ns, MatchString re ns = (ns =s "kube-system").
Proof.
  destruct (regexp_exact "kube-system") as (re & Hc & Hm); [done|]. exists re. split; [|done].
  by apply parseRegexes_one.
Qed.

Lemma default_system_users_compile :
  ∃ re, parseRegexes DefaultAccessControlSystemUsers = Some [re] ∧
    ∀ u, MatchString re u = HasPrefix u "system:serviceaccount:kube-system:".
Proof.
  destruct (regexp_prefix "system:serviceaccount:kube-system:") as (re & Hc & Hm); [done|].
  exists re. split; [|done]. by apply parseRegexes_one.
Qed.

(** A setting that is a list of patterns and cannot be compiled. *)
Definition bad_patterns (config : gmap string string) (key : string) : Prop :=
  ∃ v, config !! key = Some v ∧ parseRegexes v = None.

Lemma parseConfigRegexps_bad config key d :
  bad_patterns config key → parseConfigRegexps config key d = parseRegexes d.
Proof. intros (v & Hv & Hp). unfold parseConfigRegexps, parseConfigString. by rewrite Hv, Hp. Qed.

Lemma parseConfigRegexps_total config key d :
  is_Some (parseRegexes d) → is_Some (parseConfigRegexps config key d).
Proof. intros Hd. unfold parseConfigRegexps. by destruct (parseRegexes (parseConfigString _ _ _)). Qed.

(** The settings of the admission controller are always usable. No content of
    the config maps stops the controller; a list of patterns that does not compile
    is replaced by its default, which is the safe one: every namespace but
    kube-system is processed, only controllers of kube-system count as system
    users, and no external user or group may set user information. *)
Theorem admission_settings_always_load configMaps acc :
  let config := FlattenConfigMaps configMaps in
  ∃ acc', am_updateConfigMaps configMaps true acc = Some acc' ∧
    (bad_patterns config AMFilteringProcessNamespaces → ac_processNamespaces acc' = []) ∧
    (bad_patterns config AMFilteringBypassNamespaces →
       ∀ ns, matches_any (ac_bypassNamespaces acc') ns = (ns =s "kube-system")) ∧
    (bad_patterns config AMAccessControlSystemUsers →
       ∀ u, matches_any (ac_systemUsers acc') u = HasPrefix u "system:serviceaccount:kube-system:") ∧
    (bad_patterns config AMAccessControlExternalUsers → ac_externalUsers acc' = []) ∧
    (bad_patterns config AMAccessControlExternalGroups → ac_externalGroups acc' = []).
Proof.
  intros config. unfold am_updateConfigMaps. cbn [negb andb]. fold config.
  destruct default_bypass_compiles as (re1 & H1 & Hm1), default_system_users_compile as (re2 & H2 & Hm2).
  assert (Hempty : is_Some (parseRegexes "")) by (by rewrite parseRegexes_empty).
  destruct (parseConfigRegexps_total config AMFilteringProcessNamespaces "" Hempty) as [l1 E1].
  destruct (parseConfigRegexps_total config AMFilteringBypassNamespaces DefaultFilteringBypassNamespaces
    ltac:(by rewrite H1)) as [l2 E2].
  destruct (parseConfigRegexps_total config AMFilteringLabelNamespaces "" Hempty) as [l3 E3].
  destruct (parseConfigRegexps_total config AMFilteringNoLabelNamespaces "" Hempty) as [l4 E4].
  destruct (parseConfigRegexps_total config AMAccessControlSystemUsers DefaultAccessControlSystemUsers
    ltac:(by rewrite H2)) as [l5 E5].
  destruct (parseConfigRegexps_total config AMAccessControlExternalUsers "" Hempty) as [l6 E6].
  destruct (parseConfigRegexps_total config AMAccessControlExternalGroups "" Hempty) as [l7 E7].
  rewrite E1, E2, E3, E4, E5, E6, E7. cbn [mbind option_bind]. eexists. split; [done|].
  split_and!; intros Hbad;
    cbn [ac_processNamespaces ac_bypassNamespaces ac_systemUsers ac_externalUsers ac_externalGroups].
  - rewrite (parseConfigRegexps_bad _ _ _ Hbad), parseRegexes_empty in E1. by injection E1.
  - rewrite (parseConfigRegexps_bad _ _ _ Hbad), H1 in E2. injection E2 as <-. intros ns.
    unfold matches_any. cbn. by rewrite Hm1, orb_false_r.
  - rewrite (parseConfigRegexps_bad _ _ _ Hbad), H2 in E5. injection E5 as <-. intros u.
    unfold matches_any. cbn. by rewrite Hm2, orb_false_r.
  - rewrite (parseConfigRegexps_bad _ _ _ Hbad), parseRegexes_empty in E6. by injection E6.
  - rewrite (parseConfigRegexps_bad _ _ _ Hbad), parseRegexes_empty in E7. by injection E7.
Qed.
End Settings.

(** ** The namespace cache *)

Inductive NamespaceEvent :=
  | NsAdded (ns : Namespace)
  | NsUpdated (ns : Namespace)
  | NsDeleted (ns : Namespace).

Definition ns_event_name (ev : NamespaceEvent) : string :=
  match ev with NsAdded ns | NsUpdated ns | NsDeleted ns => ns_Name ns end.

Definition ns_handle (nsc : NamespaceCache) (ev : NamespaceEvent) : NamespaceCache :=
  match ev with
  | NsAdded ns => namespace_OnAdd (ObjNamespace ns) nsc
  | NsUpdated ns => namespace_OnUpdate (ObjNamespace ns) nsc
  | NsDeleted ns => namespace_OnDelete (ObjNamespace ns) nsc
  end.

(** The flags of a namespace after some events: those of the last object seen. *)
Definition last_flags (evs : list NamespaceEvent) (name : string) : option nsFlags :=
  match last (filter (λ ev, ns_event_name ev = name) evs) with
  | Some (NsAdded ns) | Some (NsUpdated ns) => Some (getAnnotationValues ns)
  | Some (NsDeleted _) | None => None
  end.

(** The cache has, for every namespace, the flags of its last version. *)
Theorem namespace_cache_tracks evs name :
  foldl ns_handle ∅ evs !! name = last_flags evs name.
Proof.
  induction evs as [|ev evs IH] using rev_ind; [done|]. rewrite foldl_app. cbn [foldl].
  unfold last_flags. rewrite filter_app, filter_cons. cbn [filter list_filter].
  case_decide as Hn.
  - rewrite last_snoc. destruct ev as [ns|ns|ns]; cbn in Hn |- *; subst name.
    + apply lookup_insert_eq.
    + apply lookup_insert_eq.
    + apply lookup_delete_eq.
  - rewrite app_nil_r. fold (last_flags evs name).
    destruct ev as [ns|ns|ns]; cbn in Hn.
    + exact (eq_trans (lookup_insert_ne _ _ _ _ Hn) IH).
    + exact (eq_trans (lookup_insert_ne _ _ _ _ Hn) IH).
    + exact (eq_trans (lookup_delete_ne _ _ _ Hn) IH).
Qed.

(** ** Closed instances *)

(** Anchored literals. *)
Inductive RegexpRef := ReExact (s : string) | RePrefix (s : string).

Definition regexp_ref : Regexps := {|
  Regexp := RegexpRef;
  regexp_Compile p :=
    match p with
    | String c rest =>
        if negb (byte_in 94 94 c) then None
        else if HasSuffix rest "$" then
          if literal (TrimSuffix rest "$") then Some (ReExact (TrimSuffix rest "$")) else None
        else if literal rest then Some (RePrefix rest) else None
    | EmptyString => None
    end;
  MatchString re s := match re with ReExact t => s =s t | RePrefix t => HasPrefix s t end
|}.

Lemma literal_app s t : literal (s +:+ t) = literal s && literal t.
Proof. induction s as [|c s IH]; [done|]. rewrite string_app_cons. cbn. by rewrite IH, andb_assoc. Qed.

(** Texts separated by a byte that is not ASCII. *)
Definition separator : Ascii.ascii := Ascii.ascii_of_N 255.

Fixpoint encode_texts (l : list string) : string :=
  match l with
  | [] => ""
  | s :: l' => String separator (s +:+ encode_texts l')
  end.

Lemma Split_ascii s t :
  is_ascii s = true →
  Split (s +:+ t) separator =
  match Split t separator with [] => [s] | w :: ws => (s +:+ w) :: ws end.
Proof.
  induction s as [|c s IH]; intros Hs.
  { rewrite string_app_nil_l. destruct (Split t separator) as [|w ws] eqn:E; [|by rewrite string_app_nil_l].
    by apply Split_not_nil in E. }
  cbn [is_ascii] in Hs.
  apply andb_true_iff in Hs as [Hc Hs]. rewrite string_app_cons. cbn [Split].
  rewrite decide_False by (intros ->; vm_compute in Hc; done). rewrite IH by done. by destruct (Split t separator).
Qed.

Lemma Split_encode l : Forall (λ s, is_ascii s = true) l → Split (encode_texts l) separator = "" :: l.
Proof.
  induction l as [|s l IH]; intros Hl; [done|]. apply Forall_cons in Hl as [Hs Hl].
  cbn [encode_texts Split]. rewrite decide_True by done. rewrite Split_ascii, IH by done.
  f_equal. f_equal. clear. induction s as [|c s IH]; [done|]. rewrite string_app_cons. by rewrite IH.
Qed.

Definition decode_texts (s : string) : option (string * list string) :=
  match Split s separator with
  | _ :: u :: gs => Some (u, gs)
  | _ => None
  end.

(** A pod, and the same pod with the user information of somebody else. *)
Definition submitted_pod : Pod := pod_ref "web-1" "" "" PodPending (<["tier" := "web"]> ∅) [].
Definition with_user (labels : gmap string string) (user : string) (pod : Pod) : Pod :=
  pod_with pod labels (<[UserInfoAnnotation := encode_texts [user]]> (pod_Annotations pod)) (pod_Spec pod).

Definition admission_env_ref : AdmissionEnv := {|
  json_pod s :=
    if s =s "pod" then inl submitted_pod
    else if s =s "alice" then inl (with_user ∅ "alice" submitted_pod)
    else if s =s "bob" then inl (with_user ∅ "bob" submitted_pod)
    else if s =s "yunikorn" then inl (with_user (<["app" := "yunikorn"]> ∅) "bob" submitted_pod)
    else inr "unexpected end of JSON input";
  json_template _ _ := inr "not a workload";
  json_configmap _ := inr "not a config map";
  json_user_info u gs := inl (encode_texts (u :: gs));
  json_user_info_error s := match decode_texts s with Some _ => None | None => Some "invalid character" end;
  json_patch_error _ := None;
  http_validate _ _ := PostError;
  json_validate_response _ := None
|}.

Definition admission_json_ref : JsonOps := {|
  json_string_map := λ _, None;
  json_user_group := decode_texts
|}.

Definition admission_conf_env : ConfEnv := {|
  os_LookupEnv := λ _, None; buildVersion := "1.0"; gunzip := λ _, None |}.
Definition admission_zap : ZapLevels := {|
  zap_ParseLevel := λ _, None; zap_ParseLevel_valid := λ _ _ H, ltac:(done) |}.

Section Witnesses.
#[local] Existing Instance regexp_ref.
#[local] Existing Instance admission_env_ref.
#[local] Existing Instance admission_json_ref.
#[local] Existing Instance admission_conf_env.
#[local] Existing Instance admission_zap.

#[local] Instance regexp_ref_laws : RegexpsLaws.
Proof.
  split; intros s Hs.
  - exists (ReExact s). split; [|done]. cbn [regexp_Compile regexp_ref].
    change ("^" +:+ s +:+ "$") with (String (Ascii.ascii_of_nat 94) (s +:+ "$")). cbn [negb byte_in].
    change (negb (byte_in 94 94 (Ascii.ascii_of_nat 94))) with false. cbv iota.
    by rewrite HasSuffix_app, TrimSuffix_app, Hs.
  - exists (RePrefix s). split; [|done]. cbn [regexp_Compile regexp_ref].
    change ("^" +:+ s) with (String (Ascii.ascii_of_nat 94) s).
    change (negb (byte_in 94 94 (Ascii.ascii_of_nat 94))) with false. cbv iota.
    destruct (HasSuffix s "$") eqn:E; [|by rewrite Hs].
    apply HasSuffix_true in E. rewrite E, literal_app, andb_false_r in Hs. done.
Qed.

#[local] Instance user_info_ref_laws : UserInfoLaws.
Proof.
  split.
  - intros u gs Hu Hg. exists (encode_texts (u :: gs)). split_and!; [done|done|].
    cbn [json_user_group admission_json_ref]. unfold decode_texts. by rewrite Split_encode by (by constructor).
  - intros s. cbn [json_user_info_error admission_env_ref json_user_group admission_json_ref].
    destruct (decode_texts s); split; try done; by intros [? ?].
Qed.

(** A controller with the default settings. *)
Definition controller_ref : AdmissionController :=
  Eval vm_compute in
  match NewAdmissionControllerConf [None; None] with
  | Some conf => mkAdmissionController conf ∅ ∅
  | None => mkAdmissionController (zero_conf "" "") ∅ ∅
  end.

Definition request_ref (op user object oldObject : string) : AdmissionRequest :=
  mkAdmissionRequest "req-1" "dev" op KindPod user ["staff"] object oldObject.


Lemma no_impersonation_witness :
  json_user_info "alice" ["staff"] = inl (encode_texts ["alice"; "staff"]) ∨
  IsAnnotationAllowed (c_conf controller_ref) "alice" ["staff"] = true ∧
  pod_Annotations submitted_pod !! UserInfoAnnotation = Some (encode_texts ["alice"; "staff"]) ∧
  is_Some (json_user_group (encode_texts ["alice"; "staff"])).
Proof.
  apply (no_impersonation controller_ref (request_ref "CREATE" "alice" "pod" "") submitted_pod);
    [by repeat split|vm_compute; reflexivity|vm_compute; reflexivity|vm_compute; reflexivity].
Defined.

(** Somebody else's user information is refused. *)
Example impersonation_is_refused :
  resp_Allowed (mutate controller_ref (Some (request_ref "CREATE" "alice" "bob" ""))) = false.
Proof. vm_compute. reflexivity. Qed.

Lemma pod_update_keeps_user_info_witness :
  resp_Patch (mutate controller_ref (Some (request_ref "UPDATE" "alice" "bob" "alice"))) = None ∧
  (resp_Allowed (mutate controller_ref (Some (request_ref "UPDATE" "alice" "bob" "alice"))) = true ↔
   go_get (pod_Annotations (with_user ∅ "bob" submitted_pod)) UserInfoAnnotation =
   go_get (pod_Annotations (with_user ∅ "alice" submitted_pod)) UserInfoAnnotation ∨
   pod_Labels (with_user ∅ "bob" submitted_pod) !! LabelApp = Some yunikornPod ∨
   shouldProcessAdmissionReview controller_ref "dev" (pod_Labels (with_user ∅ "bob" submitted_pod)) = false).
Proof.
  apply (pod_update_keeps_user_info controller_ref (request_ref "UPDATE" "alice" "bob" "alice")); reflexivity.
Defined.

(** The label of YuniKorn's own pods switches the protection off: an update that
    sets it may set the user information of anybody. *)
Theorem label_switches_user_check_off :
  resp_Allowed (mutate controller_ref (Some (request_ref "UPDATE" "alice" "bob" "alice"))) = false ∧
  resp_Allowed (mutate controller_ref (Some (request_ref "UPDATE" "alice" "yunikorn" "alice"))) = true.
Proof. vm_compute. done. Qed.

Lemma admission_settings_always_load_witness :
  ∃ acc', am_updateConfigMaps
      [None; Some (mkConfigMap ConfigMapName "default" (<[AMFilteringBypassNamespaces := "("]> ∅) ∅)] true
      (zero_conf "default" "") = Some acc' ∧
    ∀ ns, matches_any (ac_bypassNamespaces acc') ns = (ns =s "kube-system").
Proof.
  destruct (admission_settings_always_load
    [None; Some (mkConfigMap ConfigMapName "default" (<[AMFilteringBypassNamespaces := "("]> ∅) ∅)]
    (zero_conf "default" "")) as (acc' & Hacc & _ & Hb & _).
  exists acc'. split; [exact Hacc|]. apply Hb. exists "(". split; vm_compute; reflexivity.
Defined.

(** The deletion of a namespace that is delivered as a tombstone is not seen: its
    flags stay in the cache. *)
Theorem namespace_tombstone_is_ignored :
  let ns := mkNamespace "dev" (<[AnnotationEnableYuniKorn := "false"]> ∅) in
  let nsc := namespace_OnAdd (ObjNamespace ns) ∅ in
  enableYuniKorn (namespace_OnDelete (ObjNamespace ns) nsc) "dev" = UNSET ∧
  enableYuniKorn (namespace_OnDelete (ObjTombstone (ObjNamespace ns)) nsc) "dev" = FALSE.
Proof. vm_compute. done. Qed.

End Witnesses.
