(* ===== verification/ConfAccess.v ===== *)
(** * Reading the configuration

    The getters of pkg/conf/schedulerconf.go and of pkg/admission/conf/am_conf.go.
    Every getter of the admission controller takes the lock of the configuration by
    itself, so a request that arrives during a reload can read some settings from the
    old configuration and some from the new one. *)

From S2P Require Import Prelude.
From S2P Require Import GoStrings.
From S2P Require Import K8sApi.
From S2P Require Import K8sInstances.
From S2P Require Import Constants.
From S2P Require Import PodUtils.
From S2P Require Import Logger.
From S2P Require Import Conf.
From S2P Require Import AdmissionConf.
From S2P Require Import Admission.
From S2P Require Import AdmissionThms.

(** ** The scheduler *)

(** [Clone] copies field by field; the placeholder settings are shared with the
    original, which [parseConfig] has to itself. *)
Definition Clone (conf : SchedulerConf) : SchedulerConf :=
  mkSchedulerConf (sc_SchedulerName conf) (sc_ClusterID conf) (sc_ClusterVersion conf) (sc_PolicyGroup conf)
    (sc_Interval conf) (sc_KubeConfig conf) (sc_VolumeBindTimeout conf) (sc_EventChannelCapacity conf)
    (sc_DispatchTimeout conf) (sc_KubeQPS conf) (sc_KubeBurst conf) (sc_EnableConfigHotRefresh conf)
    (sc_DisableGangScheduling conf) (sc_PlaceHolderConfig conf) (sc_InstanceTypeNodeLabelKey conf)
    (sc_Namespace conf) (sc_GenerateUniqueAppIds conf).

Definition IsConfigReloadable (conf : SchedulerConf) : bool := sc_EnableConfigHotRefresh conf.
Definition GetSchedulingInterval (conf : SchedulerConf) : Z := sc_Interval conf.
Definition GetKubeConfigPath (conf : SchedulerConf) : string := sc_KubeConfig conf.

(** The variables that the linker sets. *)
Record BuildInfo := mkBuildInfo {
  bi_buildVersion : string; bi_buildDate : string; bi_goVersion : string; bi_arch : string;
  bi_coreSHA : string; bi_siSHA : string; bi_shimSHA : string
}.

Definition GetBuildInfoMap (b : BuildInfo) : gmap string string :=
  {[ "buildVersion" := bi_buildVersion b; "buildDate" := bi_buildDate b; "goVersion" := bi_goVersion b;
     "arch" := bi_arch b; "coreSHA" := bi_coreSHA b; "siSHA" := bi_siSHA b; "shimSHA" := bi_shimSHA b ]}.

Definition GetBuildInfoString (b : BuildInfo) : string :=
  "Build info: version=" +:+ bi_buildVersion b +:+ " date=" +:+ bi_buildDate b +:+ " goVersion=" +:+ bi_goVersion b
  +:+ " arch=" +:+ bi_arch b +:+ " coreSHA=" +:+ bi_coreSHA b +:+ " siSHA=" +:+ bi_siSHA b
  +:+ " shimSHA=" +:+ bi_shimSHA b.

(** A clone has every setting of the original, so a configuration without entries in
    the config maps is the default one. *)
Lemma Clone_copies conf : Clone conf = conf.
Proof. by destruct conf. Qed.

(** ** The admission controller *)

Section Reload.
Context `{Regexps} `{AdmissionEnv} `{ConfEnv} `{ZapLevels} `{MapOrder}.

Inductive Getter :=
  | GetNamespace | GetKubeConfig | GetEnableConfigHotRefresh | GetPolicyGroup | GetAmServiceName
  | GetSchedulerServiceAddress | GetProcessNamespaces | GetBypassNamespaces | GetLabelNamespaces
  | GetNoLabelNamespaces | GetGenerateUniqueAppIds | GetBypassAuth | GetTrustControllers | GetSystemUsers
  | GetExternalUsers | GetExternalGroups.

Inductive Setting := SString (s : string) | SBool (b : bool) | SRegexps (l : list Regexp).

Definition get (g : Getter) (acc : AdmissionControllerConf) : Setting :=
  match g with
  | GetNamespace => SString (ac_namespace acc)
  | GetKubeConfig => SString (ac_kubeConfig acc)
  | GetEnableConfigHotRefresh => SBool (ac_enableConfigHotRefresh acc)
  | GetPolicyGroup => SString (ac_policyGroup acc)
  | GetAmServiceName => SString (ac_amServiceName acc)
  | GetSchedulerServiceAddress => SString (ac_schedulerServiceAddress acc)
  | GetProcessNamespaces => SRegexps (ac_processNamespaces acc)
  | GetBypassNamespaces => SRegexps (ac_bypassNamespaces acc)
  | GetLabelNamespaces => SRegexps (ac_labelNamespaces acc)
  | GetNoLabelNamespaces => SRegexps (ac_noLabelNamespaces acc)
  | GetGenerateUniqueAppIds => SBool (ac_generateUniqueAppIds acc)
  | GetBypassAuth => SBool (ac_bypassAuth acc)
  | GetTrustControllers => SBool (ac_trustControllers acc)
  | GetSystemUsers => SRegexps (ac_systemUsers acc)
  | GetExternalUsers => SRegexps (ac_externalUsers acc)
  | GetExternalGroups => SRegexps (ac_externalGroups acc)
  end.

Definition to_bool (s : Setting) : bool := match s with SBool b => b | _ => false end.
Definition to_regexps (s : Setting) : list Regexp := match s with SRegexps l => l | _ => [] end.

(** [GetConfigMaps] returns a copy of the list: assigning to it leaves the
    configuration alone. *)
Definition GetConfigMaps (acc : AdmissionControllerConf) : list (option ConfigMap) := [] ++ ac_configMaps acc.

(** The configurations over time. *)
Definition History := nat → AdmissionControllerConf.

(** [IsAnnotationAllowed], whose getters are called at four moments. *)
Definition IsAnnotationAllowed_during (hist : History) (i1 i2 i3 i4 : nat) (userName : string)
    (groups : list string) : bool :=
  if to_bool (get GetTrustControllers (hist i1)) &&
     matches_any (to_regexps (get GetSystemUsers (hist i2))) userName
  then true
  else if matches_any (to_regexps (get GetExternalUsers (hist i3))) userName then true
  else existsb (λ allowedGroup, existsb (MatchString allowedGroup) groups)
         (to_regexps (get GetExternalGroups (hist i4))).

(** A configuration names a user: as a system user, an external user or by a group. *)
Definition named_by (acc : AdmissionControllerConf) (userName : string) (groups : list string) : bool :=
  matches_any (ac_systemUsers acc) userName || matches_any (ac_externalUsers acc) userName ||
  existsb (λ allowedGroup, existsb (MatchString allowedGroup) groups) (ac_externalGroups acc).

End Reload.

Section Examples.
#[local] Existing Instance regexp_ref.
#[local] Existing Instance admission_env_ref.
#[local] Existing Instance admission_conf_env.
#[local] Existing Instance admission_zap.

(** The defaults trust the controllers of kube-system; an update names bob a system
    user, and no longer trusts system users. *)
Definition conf_before : AdmissionControllerConf :=
  Eval vm_compute in default (zero_conf "" "") (NewAdmissionControllerConf [None; None]).
Definition conf_update : ConfigMap :=
  mkConfigMap ConfigMapName "default"
    {[ AMAccessControlTrustControllers := "false"; AMAccessControlSystemUsers := "^bob$" ]} ∅.
Definition conf_after : AdmissionControllerConf :=
  Eval vm_compute in default conf_before (configMap_OnUpdate (ObjConfigMap conf_update) conf_before).

Definition reload_history : History := λ i, if decide (i = 0) then conf_before else conf_after.


(** Neither configuration lets bob set the annotation, a request that reads one
    setting before the update and one after it does. *)
Theorem torn_configuration_lets_a_stranger_in :
  configMap_OnUpdate (ObjConfigMap conf_update) conf_before = Some conf_after ∧
  IsAnnotationAllowed conf_before "bob" [] = false ∧
  IsAnnotationAllowed conf_after "bob" [] = false ∧
  IsAnnotationAllowed_during reload_history 0 1 2 3 "bob" [] = true.
Proof. vm_compute. done. Qed.
End Examples.
