(* ===== verification/Pki.v ===== *)
(** * Certificates of the admission controller

    Source: pkg/admission/pki/certs.go.

    Certificates and keys are created with the Go crypto libraries and stored as
    PEM texts.  The libraries are the class [Crypto]: certificates and keys are
    opaque, what they are created from is a [Template]. *)

From S2P Require Import Prelude.
From S2P Require Import GoStrings.

Definition YunikornOrg : string := "yunikorn.apache.org".

(** The fields of a certificate that is to be created; times are Unix seconds. *)
Record Template := mkTemplate {
  tm_CommonName : string;
  tm_Organization : list string;
  tm_DNSNames : list string;
  tm_SerialNumber : Z;
  tm_NotBefore : Z;
  tm_NotAfter : Z;
  tm_IsCA : bool
}.

Class Crypto := {
  Certificate : Type;
  PrivateKey : Type;
  cert_Raw : Certificate → string;
  cert_NotAfter : Certificate → Z;
  cert_DNSNames : Certificate → list string;
  (* the results depend on the random source, which is read at a given point *)
  rsa_GenerateKey : nat → PrivateKey + string;
  (* the template, the signer if it is not the template itself, the key that signs *)
  x509_CreateCertificate : nat → Template → option Certificate → PrivateKey → PrivateKey → string + string;
  x509_ParseCertificate : string → Certificate + string;
  x509_MarshalPKCS1PrivateKey : PrivateKey → string;
  x509_ParsePKCS1PrivateKey : string → PrivateKey + string;
  (* the block type and the bytes *)
  pem_Encode : string → string → string + string;
  pem_Decode : string → option (string * string) * string
}.

(** What the libraries document: a PEM block can be read back, with what follows
    it, and so can certificates and keys; a certificate has the fields of its
    template. *)
Class CryptoLaws `{Crypto} : Prop := {
  pem_roundtrip ty bytes : ∃ block, pem_Encode ty bytes = inl block ∧ ∀ rest, pem_Decode (block +:+ rest) = (Some (ty, bytes), rest);
  pem_nothing : pem_Decode "" = (None, "");
  parse_raw cert : x509_ParseCertificate (cert_Raw cert) = inl cert;
  parse_key key : x509_ParsePKCS1PrivateKey (x509_MarshalPKCS1PrivateKey key) = inl key;
  create_parses n tm signer pub key raw :
    x509_CreateCertificate n tm signer pub key = inl raw →
    ∃ cert, x509_ParseCertificate raw = inl cert ∧ cert_NotAfter cert = tm_NotAfter tm ∧
      cert_DNSNames cert = tm_DNSNames tm
}.

Section Pki.
Context `{Crypto}.

(** [serialNumber] at the time [nanos]. *)
Definition serialNumber (nanos : Z) : Z := Z.quot nanos 1000.

(** [n] is the position in the random source. *)
Definition generateCert (n : nat) (certTemplate : Template) (signer : option Certificate)
    (signerKey : option PrivateKey) : (Certificate * PrivateKey) + string :=
  match rsa_GenerateKey n with
  | inr err => inr err
  | inl privateKey =>
      let '(certSigner, caKey) :=
        match signer, signerKey with
        | Some signer, Some signerKey => (Some signer, signerKey)
        | _, _ => (None, privateKey)
        end in
      match x509_CreateCertificate n certTemplate certSigner privateKey caKey with
      | inr err => inr err
      | inl certBytes =>
          match x509_ParseCertificate certBytes with
          | inr err => inr err
          | inl cert => inl (cert, privateKey)
          end
      end
  end.

(** [now] is the current time. *)
Definition GenerateCACertificate (n : nat) (now notAfter : Z) : (Certificate * PrivateKey) + string :=
  generateCert n
    (mkTemplate "" [YunikornOrg] [] (serialNumber (now * 1000000000)) (now - 300) notAfter true) None None.

(** [expiry] is the date one year from now. *)
Definition pki_GenerateServerCertificate (n : nat) (now expiry : Z) (cn : string) (dnsNames : list string)
    (signer : option Certificate) (signerKey : option PrivateKey) : (Certificate * PrivateKey) + string :=
  generateCert n
    (mkTemplate cn [YunikornOrg] dnsNames (serialNumber (now * 1000000000)) (now - 300) expiry false)
    signer signerKey.

Definition EncodeCertificatePem (cert : Certificate) : string + string :=
  pem_Encode "CERTIFICATE" (cert_Raw cert).

Fixpoint EncodeCertChainPem (certs : list Certificate) : string + string :=
  match certs with
  | [] => inl ""
  | cert :: certs' =>
      match pem_Encode "CERTIFICATE" (cert_Raw cert) with
      | inr err => inr err
      | inl block =>
          match EncodeCertChainPem certs' with
          | inr err => inr err
          | inl rest => inl (block +:+ rest)
          end
      end
  end.

(** The loop over the blocks of a text; [fuel] bounds the number of blocks,
    [None] means that it was not enough. *)
Fixpoint DecodeCertChainPem (fuel : nat) (data : string) : option (list Certificate + string) :=
  match fuel with
  | 0 => None
  | S fuel' =>
      match pem_Decode data with
      | (None, _) => Some (inl [])
      | (Some (ty, bytes), rest) =>
          if ty <>s "CERTIFICATE" then Some (inr "pki: unable to decode certificate")
          else
            match x509_ParseCertificate bytes with
            | inr err => Some (inr err)
            | inl cert =>
                match DecodeCertChainPem fuel' rest with
                | Some (inl certs) => Some (inl (cert :: certs))
                | r => r
                end
            end
      end
  end.

Definition DecodeCertificatePem (certPem : string) : Certificate + string :=
  match (pem_Decode certPem).1 with
  | None => inr "pki: unable to decode certificate"
  | Some (ty, bytes) =>
      if ty <>s "CERTIFICATE" then inr "pki: unable to decode certificate"
      else x509_ParseCertificate bytes
  end.

Definition EncodePrivateKeyPem (privateKey : PrivateKey) : string + string :=
  pem_Encode "RSA PRIVATE KEY" (x509_MarshalPKCS1PrivateKey privateKey).

Definition DecodePrivateKeyPem (privateKeyPem : string) : PrivateKey + string :=
  match (pem_Decode privateKeyPem).1 with
  | None => inr "pki: unable to decode private key"
  | Some (ty, bytes) =>
      if ty <>s "RSA PRIVATE KEY" then inr "pki: unable to decode private key"
      else x509_ParsePKCS1PrivateKey bytes
  end.

(** ** Round trips *)

Context `{!CryptoLaws}.

Lemma string_app_nil_r' (s : string) : s +:+ "" = s.
Proof. induction s as [|c s IH]; [done|]. rewrite string_app_cons. by rewrite IH. Qed.

Lemma certificate_pem_roundtrip cert :
  ∃ pem, EncodeCertificatePem cert = inl pem ∧ DecodeCertificatePem pem = inl cert.
Proof.
  destruct (pem_roundtrip "CERTIFICATE" (cert_Raw cert)) as (block & He & Hd). exists block. split; [done|].
  specialize (Hd ""). rewrite string_app_nil_r' in Hd. unfold DecodeCertificatePem. rewrite Hd. cbn.
  apply parse_raw.
Qed.

Lemma private_key_pem_roundtrip key :
  ∃ pem, EncodePrivateKeyPem key = inl pem ∧ DecodePrivateKeyPem pem = inl key.
Proof.
  destruct (pem_roundtrip "RSA PRIVATE KEY" (x509_MarshalPKCS1PrivateKey key)) as (block & He & Hd).
  exists block. split; [done|]. specialize (Hd ""). rewrite string_app_nil_r' in Hd.
  unfold DecodePrivateKeyPem. rewrite Hd. cbn. apply parse_key.
Qed.

(** A chain of certificates can be read back. *)
Theorem cert_chain_roundtrip certs :
  ∃ pem, EncodeCertChainPem certs = inl pem ∧
    DecodeCertChainPem (S (length certs)) pem = Some (inl certs).
Proof.
  induction certs as [|cert certs (pem & He & Hd)].
  { exists "". split; [done|]. cbn [DecodeCertChainPem length]. by rewrite pem_nothing. }
  destruct (pem_roundtrip "CERTIFICATE" (cert_Raw cert)) as (block & Hb & Hrest).
  exists (block +:+ pem). split; [cbn [EncodeCertChainPem]; by rewrite Hb, He|].
  cbn [length]. set (n := S (length certs)) in *. cbn [DecodeCertChainPem]. rewrite Hrest. cbn [negb].
  rewrite bool_decide_true by done. cbn [negb]. rewrite parse_raw. fold n in Hd. by rewrite Hd.
Qed.

Lemma generateCert_spec n tm signer key cert priv :
  generateCert n tm signer key = inl (cert, priv) →
  cert_NotAfter cert = tm_NotAfter tm ∧ cert_DNSNames cert = tm_DNSNames tm.
Proof.
  unfold generateCert. destruct (rsa_GenerateKey n) as [pk|]; [|done].
  destruct (match signer with Some _ => _ | None => _ end) as [certSigner caKey].
  destruct (x509_CreateCertificate n tm certSigner pk caKey) as [raw|] eqn:E; [|done].
  apply create_parses in E as (c & Hp & Hn & Hd). rewrite Hp. by intros [= <- <-].
Qed.

End Pki.
