(* ===== verification/Webhook.v ===== *)
(** * The registration of the admission controller

    Source: pkg/admission/webhook_manager.go and [UpdateWebhookConfiguration] of
    pkg/cmd/admissioncontroller/main.go.

    The controller keeps two CA certificates in a secret, renews them before they
    expire, and registers itself with the API server as a validating and a
    mutating webhook.  The API server answers a call with the error that [fault]
    has for it, if any; otherwise it does what it is asked for. *)

From S2P Require Import Prelude.
From S2P Require Import GoStrings.
From S2P Require Import K8sApi.
From S2P Require Import AdmissionConf.
From S2P Require Import Pki.

Definition secretName : string := "admission-controller-secrets".
Definition validatingWebhook : string := "yunikorn-admission-controller-validations".
Definition validateConfHook : string := "admission-webhook.yunikorn.validate-conf".
Definition mutatingWebhook : string := "yunikorn-admission-controller-mutations".
Definition mutatePodsWebhook : string := "admission-webhook.yunikorn.mutate-pods".
Definition caCert1Path : string := "cacert1.pem".
Definition caCert2Path : string := "cacert2.pem".
Definition caPrivateKey1Path : string := "cakey1.pem".
Definition caPrivateKey2Path : string := "cakey2.pem".
Definition webhookLabel : string := "yunikorn".

(** ** Webhook configurations

    The fields of the API types that the manager reads or writes.  A validating
    and a mutating configuration have the same ones. *)

Record ServiceReference := mkServiceReference {
  svc_Name : string;
  svc_Namespace : string;
  svc_Path : option string
}.

Record RuleWithOperations := mkRule {
  rule_Operations : list string;
  rule_APIGroups : list string;
  rule_APIVersions : list string;
  rule_Resources : list string
}.

Record AdmissionWebhook := mkAdmissionWebhook {
  wh_Name : string;
  wh_Service : option ServiceReference;
  wh_CABundle : string;
  wh_Rules : list RuleWithOperations;
  wh_FailurePolicy : option string;
  wh_AdmissionReviewVersions : list string;
  wh_SideEffects : option string
}.

Record WebhookConfiguration := mkWebhookConfiguration {
  wc_Name : string;
  wc_Labels : gmap string string;
  wc_Webhooks : list AdmissionWebhook
}.

Definition createEmptyValidatingWebhook : WebhookConfiguration := mkWebhookConfiguration "" ∅ [].
Definition createEmptyMutatingWebhook : WebhookConfiguration := mkWebhookConfiguration "" ∅ [].

(** ** State and effects *)

Inductive ApiError := NotFound | Conflict | AlreadyExists | OtherError (msg : string).
#[global] Instance ApiError_eq_dec : EqDecision ApiError.
Proof. solve_decision. Defined.

(** How a call ends other than with a value: an error of the API or of the code,
    or the end of the process. *)
Inductive Failure := ErrApi (e : ApiError) | Err (msg : string) | Panic | Fatal (cause : Failure).

(** The clock, the calendar and the API server.  [now n] is the time of the
    [n]-th reading, in Unix seconds; [AddDate t years months days] is in the time
    zone of the process. *)
Class WebhookEnv := {
  now : nat → Z;
  AddDate : Z → Z → Z → Z → Z;
  fault : nat → option ApiError
}.

Section Webhook.
Context `{Regexps} `{Crypto} `{WebhookEnv}.

(** [wm_serviceName] is a field of its own besides the configuration.  A
    certificate and its key are assigned together. *)
Record webhookManagerImpl := mkWebhookManager {
  wm_conf : AdmissionControllerConf;
  wm_serviceName : string;
  wm_conflictAttempts : nat;
  wm_caCert1 : option Certificate;
  wm_caKey1 : option PrivateKey;
  wm_caCert2 : option Certificate;
  wm_caKey2 : option PrivateKey;
  wm_expiration : Z
}.

Definition newWebhookManagerImpl (conf : AdmissionControllerConf) : webhookManagerImpl :=
  mkWebhookManager conf "" 10 None None None None 0.

(** The manager, the objects in the API server (a secret without data has an empty
    map), the number of API calls, and of readings of the clock or the random
    source. *)
Record WState := mkWState {
  ws_wm : webhookManagerImpl;
  ws_secret : option (gmap string string);
  ws_validating : option WebhookConfiguration;
  ws_mutating : option WebhookConfiguration;
  ws_calls : nat;
  ws_reads : nat
}.

Definition W (A : Type) : Type := WState → (A + Failure) * WState.

Definition w_ret {A} (a : A) : W A := λ s, (inl a, s).
Definition w_fail {A} (e : Failure) : W A := λ s, (inr e, s).
Definition w_bind {A B} (m : W A) (f : A → W B) : W B :=
  λ s, match m s with (inl a, s') => f a s' | (inr e, s') => (inr e, s') end.

#[local] Notation "x ⇐ m ; f" := (w_bind m (λ x, f)) (at level 100, m at level 200, f at level 200, right associativity).

Definition get_wm : W webhookManagerImpl := λ s, (inl (ws_wm s), s).
Definition set_wm (wm : webhookManagerImpl) : W unit :=
  λ s, (inl tt, mkWState wm (ws_secret s) (ws_validating s) (ws_mutating s) (ws_calls s) (ws_reads s)).

(** The number of the next reading. *)
Definition reading : W nat :=
  λ s, (inl (ws_reads s),
        mkWState (ws_wm s) (ws_secret s) (ws_validating s) (ws_mutating s) (ws_calls s) (S (ws_reads s))).

Definition Now : W Z := n ⇐ reading; w_ret (now n).

Definition lift {A} (r : A + string) : W A :=
  match r with inl a => w_ret a | inr msg => w_fail (Err msg) end.

(** An API call: it is counted, fails with its fault, or has its effect. *)
Definition api {A} (call : WState → (A + ApiError) * WState) : W (A + ApiError) :=
  λ s,
    let s' := mkWState (ws_wm s) (ws_secret s) (ws_validating s) (ws_mutating s) (S (ws_calls s)) (ws_reads s) in
    match fault (ws_calls s) with
    | Some e => (inl (inr e), s')
    | None => let '(r, s'') := call s' in (inl r, s'')
    end.

Definition secrets_Get : W (gmap string string + ApiError) :=
  api (λ s, (match ws_secret s with Some data => inl data | None => inr NotFound end, s)).

Definition secrets_Update (data : gmap string string) : W (unit + ApiError) :=
  api (λ s,
    match ws_secret s with
    | None => (inr NotFound, s)
    | Some _ =>
        (inl tt, mkWState (ws_wm s) (Some data) (ws_validating s) (ws_mutating s) (ws_calls s) (ws_reads s))
    end).

Inductive HookKind := Validating | Mutating.

Definition hook_of (k : HookKind) (s : WState) : option WebhookConfiguration :=
  match k with Validating => ws_validating s | Mutating => ws_mutating s end.

Definition set_hook (k : HookKind) (hook : WebhookConfiguration) (s : WState) : WState :=
  match k with
  | Validating => mkWState (ws_wm s) (ws_secret s) (Some hook) (ws_mutating s) (ws_calls s) (ws_reads s)
  | Mutating => mkWState (ws_wm s) (ws_secret s) (ws_validating s) (Some hook) (ws_calls s) (ws_reads s)
  end.

Definition hooks_Get (k : HookKind) : W (WebhookConfiguration + ApiError) :=
  api (λ s, (match hook_of k s with Some hook => inl hook | None => inr NotFound end, s)).

Definition hooks_Create (k : HookKind) (hook : WebhookConfiguration) : W (unit + ApiError) :=
  api (λ s, match hook_of k s with Some _ => (inr AlreadyExists, s) | None => (inl tt, set_hook k hook s) end).

Definition hooks_Update (k : HookKind) (hook : WebhookConfiguration) : W (unit + ApiError) :=
  api (λ s, match hook_of k s with None => (inr NotFound, s) | Some _ => (inl tt, set_hook k hook s) end).

(** ** CA certificates *)

Definition getAndValidateCertificate (secretData : gmap string string) (certName keyName : string) :
    W ((Certificate * PrivateKey) + string) :=
  match secretData !! certName with
  | None => w_ret (inr ("webhook: no certificate found with id " +:+ certName))
  | Some certPem =>
      match secretData !! keyName with
      | None => w_ret (inr ("webhook: no private key found with id " +:+ keyName))
      | Some privateKeyPem =>
          match DecodeCertificatePem certPem with
          | inr err => w_ret (inr err)
          | inl cert =>
              match DecodePrivateKeyPem privateKeyPem with
              | inr err => w_ret (inr err)
              | inl privateKey =>
                  t ⇐ Now;
                  let cutoff := AddDate t 0 0 90 in
                  if (cert_NotAfter cert <? cutoff)%Z
                  then w_ret (inr ("webhook: ca certificate " +:+ certName +:+ " will expire within 90 days"))
                  else w_ret (inl (cert, privateKey))
              end
          end
      end
  end.

(** A new CA certificate that expires at the given date. *)
Definition new_ca (notAfter : Z) : W (Certificate * PrivateKey) :=
  n ⇐ reading; lift (GenerateCACertificate n (now n) notAfter).

(** [inl true]: the secret was written or has to be written, run again. *)
Definition loadCaCertificatesInternal : W bool :=
  secret ⇐ secrets_Get;
  match secret with
  | inr err => w_fail (ErrApi err)
  | inl data =>
      found1 ⇐ getAndValidateCertificate data caCert1Path caPrivateKey1Path;
      found2 ⇐ getAndValidateCertificate data caCert2Path caPrivateKey2Path;
      pair1 ⇐
        match found1 with
        | inl pair1 => w_ret pair1
        | inr _ =>
            t ⇐ Now;
            let notAfter := AddDate t 1 0 0 in
            let notAfter := match found2 with inr _ => AddDate notAfter 0 (-6) 0 | inl _ => notAfter end in
            new_ca notAfter
        end;
      pair2 ⇐
        match found2 with
        | inl pair2 => w_ret pair2
        | inr _ => t ⇐ Now; new_ca (AddDate t 1 0 0)
        end;
      let dirty := match found1, found2 with inl _, inl _ => false | _, _ => true end in
      let '(cert1, key1) := pair1 in
      let '(cert2, key2) := pair2 in
      if dirty then
        cert1Pem ⇐ lift (EncodeCertificatePem cert1);
        key1Pem ⇐ lift (EncodePrivateKeyPem key1);
        cert2Pem ⇐ lift (EncodeCertificatePem cert2);
        key2Pem ⇐ lift (EncodePrivateKeyPem key2);
        let data := <[caPrivateKey2Path := key2Pem]> (<[caCert2Path := cert2Pem]>
                      (<[caPrivateKey1Path := key1Pem]> (<[caCert1Path := cert1Pem]> data))) in
        updated ⇐ secrets_Update data;
        match updated with
        | inr err => if bool_decide (err = Conflict) then w_ret true else w_fail (ErrApi err)
        | inl _ => w_ret true
        end
      else
        wm ⇐ get_wm;
        let expiration :=
          if (cert_NotAfter cert2 <? cert_NotAfter cert1)%Z then cert_NotAfter cert2 else cert_NotAfter cert1 in
        _ ⇐ set_wm (mkWebhookManager (wm_conf wm) (wm_serviceName wm) (wm_conflictAttempts wm)
                      (Some cert1) (Some key1) (Some cert2) (Some key2) expiration);
        w_ret false
  end.

(** The loops over attempts: [body] says whether it has to run again, [n] attempts
    are left, the one that starts included. *)
Fixpoint attempts_loop (n : nat) (body : W bool) (msg : string) : W unit :=
  again ⇐ body;
  if negb again then w_ret tt
  else
    match n with
    | 0 | 1 => w_fail (Err msg)
    | S n' => attempts_loop n' body msg
    end.

Definition LoadCACertificates : W unit :=
  wm ⇐ get_wm;
  attempts_loop (wm_conflictAttempts wm) loadCaCertificatesInternal
    "webhook: Unable to update CA certificates after max attempts reached".

(** The certificate that expires last, and its key. *)
Definition getBestCACertificate (wm : webhookManagerImpl) : (Certificate * option PrivateKey) + string :=
  match wm_caCert1 wm, wm_caCert2 wm with
  | Some caCert1, Some caCert2 =>
      if (cert_NotAfter caCert1 <? cert_NotAfter caCert2)%Z then inl (caCert2, wm_caKey2 wm)
      else inl (caCert1, wm_caKey1 wm)
  | _, _ => inr "webhook: CA certificates are not yet initialized"
  end.

(** The chain and the key that the TLS pair is made of; [X509KeyPair] checks
    that they belong together.  When the key cannot be encoded, the code goes on
    with a nil pointer.  The certificate is returned with the pair that contains
    it. *)
Definition GenerateServerCertificate {TLS} (X509KeyPair : string → string → TLS + string) : W (Certificate * TLS) :=
  wm ⇐ get_wm;
  best ⇐ lift (getBestCACertificate wm);
  let '(caCert, caKey) := best in
  let serviceName := ac_amServiceName (wm_conf wm) in
  let namespace := ac_namespace (wm_conf wm) in
  let commonName := serviceName +:+ "." +:+ namespace +:+ ".svc" in
  let dnsNames :=
    [wm_serviceName wm; serviceName +:+ "." +:+ namespace; serviceName +:+ "." +:+ namespace +:+ ".svc"] in
  n ⇐ reading;
  pair ⇐ lift (pki_GenerateServerCertificate n (now n) (AddDate (now n) 1 0 0) commonName dnsNames (Some caCert) caKey);
  let '(cert, key) := pair in
  certPemChain ⇐ lift (EncodeCertChainPem [cert; caCert]);
  keyPem ⇐ match EncodePrivateKeyPem key with inl keyPem => w_ret keyPem | inr _ => w_fail Panic end;
  tls ⇐ lift (X509KeyPair certPemChain keyPem);
  w_ret (cert, tls).

(** The time at which [WaitForCertificateExpiration] returns. *)
Definition renewTime (wm : webhookManagerImpl) : Z := AddDate (wm_expiration wm) 0 0 (-30).

(** ** Webhooks *)

Definition encodeCaBundle (wm : webhookManagerImpl) : string + string :=
  match wm_caCert1 wm, wm_caCert2 wm with
  | Some caCert1, Some caCert2 => EncodeCertChainPem [caCert1; caCert2]
  | _, _ => inr "webhook: CA certificates are not yet initialized"
  end.

(** The loop over the bytes of [pem], which is as long as [bundle]. *)
Fixpoint bytes_differ (bundle pem : string) : bool :=
  match pem, bundle with
  | String c pem', String d bundle' => negb (bool_decide (d = c)) || bytes_differ bundle' pem'
  | _, _ => false
  end.

(** [None] is a nil error. *)
Definition validateCaBundle (wm : webhookManagerImpl) (bundle : string) : option Failure :=
  match wm_caCert1 wm, wm_caCert2 wm with
  | Some caCert1, Some caCert2 =>
      match EncodeCertChainPem [caCert1; caCert2] with
      | inr err => Some (Err err)
      | inl pem =>
          if negb (bool_decide (String.length bundle = String.length pem))
          then Some (Err "webhook: certs don't match")
          else if bytes_differ bundle pem then Some (Err "webhook: certs don't match")
          else None
      end
  | _, _ => Some Panic
  end.

(** The first failing guard of a list of guards, each with its message. *)
Fixpoint guards (l : list (bool * option Failure)) : option Failure :=
  match l with
  | [] => None
  | (bad, err) :: l' => if bad then err else guards l'
  end.

(** [len(l) != n || l[0] != x0 || ...] *)
Definition not_the_list (l expected : list string) : bool := negb (bool_decide (l = expected)).

(** [p == nil || *p != v] *)
Definition not_the_value (p : option string) (v : string) : bool :=
  match p with None => true | Some x => x <>s v end.

(** The checks that both kinds of configurations are put through, with what is
    expected of each kind. *)
Definition checkWebhook (wm : webhookManagerImpl) (countMsg hookName path : string) (groups resources : list string)
    (webhook : WebhookConfiguration) : option Failure :=
  let err msg := Some (Err msg) in
  if not_the_value (wc_Labels webhook !! "app") webhookLabel then err "webhook: missing label app=yunikorn"
  else
    match wc_Webhooks webhook with
    | [hook] =>
        if wh_Name hook <>s hookName then err "webhook: wrong webhook name"
        else
          match wh_Service hook with
          | None => err "webhook: missing service"
          | Some svc =>
              match
                guards
                  [(svc_Name svc <>s ac_amServiceName (wm_conf wm), err "webhook: wrong service name");
                   (svc_Namespace svc <>s ac_namespace (wm_conf wm), err "webhook: wrong service namespace");
                   (not_the_value (svc_Path svc) path, err "webhook: wrong service path")]
              with
              | Some e => Some e
              | None =>
                  match validateCaBundle wm (wh_CABundle hook) with
                  | Some e => Some e
                  | None =>
                      match wh_Rules hook with
                      | [rule] =>
                          guards
                            [(not_the_list (rule_Operations rule) ["CREATE"; "UPDATE"], err "webhook: wrong operations");
                             (not_the_list (rule_APIGroups rule) groups, err "webhook: wrong api groups");
                             (not_the_list (rule_APIVersions rule) ["v1"], err "webhook: wrong api versions");
                             (not_the_list (rule_Resources rule) resources, err "webhook: wrong resources");
                             (not_the_value (wh_FailurePolicy hook) "Ignore", err "webhook: wrong failure policy");
                             (not_the_value (wh_SideEffects hook) "None", err "webhook: wrong side effects")]
                      | _ => err "webhook: wrong rule count"
                      end
                  end
              end
          end
    | _ => err countMsg
    end.

Definition checkValidatingWebhook (wm : webhookManagerImpl) (webhook : WebhookConfiguration) : option Failure :=
  checkWebhook wm "webhook: wrong webhook count" validateConfHook "/validate-conf" [""] ["configmaps"] webhook.

Definition checkMutatingWebhook (wm : webhookManagerImpl) (webhook : WebhookConfiguration) : option Failure :=
  checkWebhook wm "mutate webhook: wrong webhook count" mutatePodsWebhook "/mutate" [""; "apps"; "batch"]
    ["pods"; "deployments"; "replicasets"; "statefulsets"; "daemonsets"; "jobs"; "cronjobs"] webhook.

(** The configuration is overwritten, whatever it was. *)
Definition populateValidatingWebhook (wm : webhookManagerImpl) (webhook : WebhookConfiguration)
    (caBundle : string) : WebhookConfiguration :=
  mkWebhookConfiguration validatingWebhook {["app" := "yunikorn"]}
    [mkAdmissionWebhook validateConfHook
       (Some (mkServiceReference (ac_amServiceName (wm_conf wm)) (ac_namespace (wm_conf wm)) (Some "/validate-conf")))
       caBundle
       [mkRule ["CREATE"; "UPDATE"] [""] ["v1"] ["configmaps"]]
       (Some "Ignore") ["v1"] (Some "None")].

Definition populateMutatingWebhook (wm : webhookManagerImpl) (webhook : WebhookConfiguration)
    (caBundle : string) : WebhookConfiguration :=
  mkWebhookConfiguration mutatingWebhook {["app" := "yunikorn"]}
    [mkAdmissionWebhook mutatePodsWebhook
       (Some (mkServiceReference (ac_amServiceName (wm_conf wm)) (ac_namespace (wm_conf wm)) (Some "/mutate")))
       caBundle
       [mkRule ["CREATE"; "UPDATE"] [""; "apps"; "batch"] ["v1"]
          ["pods"; "deployments"; "replicasets"; "statefulsets"; "daemonsets"; "jobs"; "cronjobs"]]
       (Some "Ignore") ["v1"] (Some "None")].

Definition retriable (errs : list ApiError) (r : unit + ApiError) : W bool :=
  match r with
  | inl _ => w_ret true
  | inr err => if bool_decide (err ∈ errs) then w_ret true else w_fail (ErrApi err)
  end.

(** [return false, err] when [err] is not nil *)
Definition require_ok (check : option Failure) : W unit :=
  match check with Some e => w_fail e | None => w_ret tt end.

(** The two install functions are the same but for the kind of the
    configuration; [inl true] means that it has to be looked at again. *)
Definition installWebhook (k : HookKind) (empty : WebhookConfiguration)
    (populate : webhookManagerImpl → WebhookConfiguration → string → WebhookConfiguration)
    (check : webhookManagerImpl → WebhookConfiguration → option Failure) : W bool :=
  wm ⇐ get_wm;
  caBundle ⇐ lift (encodeCaBundle wm);
  found ⇐ hooks_Get k;
  match found with
  | inr NotFound =>
      let hook := populate wm empty caBundle in
      _ ⇐ require_ok (check wm hook);
      r ⇐ hooks_Create k hook;
      retriable [Conflict; AlreadyExists] r
  | inr err => w_fail (ErrApi err)
  | inl hook =>
      match check wm hook with
      | None => w_ret false
      | Some _ =>
          let hook := populate wm hook caBundle in
          _ ⇐ require_ok (check wm hook);
          r ⇐ hooks_Update k hook;
          retriable [NotFound; Conflict] r
      end
  end.

Definition installValidatingWebhook : W bool :=
  installWebhook Validating createEmptyValidatingWebhook populateValidatingWebhook checkValidatingWebhook.

Definition installMutatingWebhook : W bool :=
  installWebhook Mutating createEmptyMutatingWebhook populateMutatingWebhook checkMutatingWebhook.

Definition InstallWebhooks : W unit :=
  wm ⇐ get_wm;
  _ ⇐ attempts_loop (wm_conflictAttempts wm) installValidatingWebhook
        "webhook: unable to install validating webhook after max attempts";
  attempts_loop (wm_conflictAttempts wm) installMutatingWebhook
    "webhook: unable to install mutating webhook after max attempts".

(** ** The start of the controller and every renewal *)

(** [log.Fatal] ends the process. *)
Definition or_fatal {A} (m : W A) : W A :=
  λ s, match m s with
       | (inr Panic, s') => (inr Panic, s')
       | (inr e, s') => (inr (Fatal e), s')
       | r => r
       end.

Definition UpdateWebhookConfiguration {TLS} (X509KeyPair : string → string → TLS + string) : W (Certificate * TLS) :=
  _ ⇐ or_fatal LoadCACertificates;
  certs ⇐ or_fatal (GenerateServerCertificate X509KeyPair);
  _ ⇐ or_fatal InstallWebhooks;
  w_ret certs.

End Webhook.
