(* ===== verification/WebhookThms.v ===== *)
(** * The registration of the admission controller: theorems

    Whatever the API server answers, a registration that succeeds leaves both
    webhooks as the controller needs them, and CA certificates that are valid for
    about three months; when the API server does what it is asked for, it
    succeeds, after at most two rounds of each loop. *)

From S2P Require Import Prelude.
From S2P Require Import GoStrings.
From S2P Require Import K8sApi.
From S2P Require Import AdmissionConf.
From S2P Require Import Pki.
From S2P Require Import Webhook.

#[local] Open Scope Z_scope.

Definition day : Z := 86400.

(** What the calendar and the clock promise: the time zone moves a date by at most
    a day, a year and half a year have their lengths, time does not run
    backwards. *)
Class WebhookEnvLaws `{WebhookEnv} : Prop := {
  AddDate_days t d : t + d * day - day ≤ AddDate t 0 0 d ≤ t + d * day + day;
  AddDate_year t : t + 364 * day ≤ AddDate t 1 0 0;
  AddDate_half_year t : t - 186 * day ≤ AddDate t 0 (-6) 0;
  now_mono n m : (n ≤ m)%nat → now n ≤ now m
}.

Section WebhookThms.
Context `{Regexps} `{Crypto} `{!CryptoLaws} `{WebhookEnv} `{!WebhookEnvLaws}.

(** ** The monad *)

Lemma w_bind_ok {A B} (m : W A) (f : A → W B) s b s' :
  w_bind m f s = (inl b, s') → ∃ a s1, m s = (inl a, s1) ∧ f a s1 = (inl b, s').
Proof. unfold w_bind. destruct (m s) as [[a|e] s1]; [eauto|done]. Qed.

Lemma w_bind_run {A B} (m : W A) (f : A → W B) s a s1 : m s = (inl a, s1) → w_bind m f s = f a s1.
Proof. unfold w_bind. by intros ->. Qed.

Lemma bind_get_wm {B} (f : webhookManagerImpl → W B) s : w_bind get_wm f s = f (ws_wm s) s.
Proof. done. Qed.
Lemma bind_ret {A B} (a : A) (f : A → W B) s : w_bind (w_ret a) f s = f a s.
Proof. done. Qed.
Lemma bind_fail {A B} e (f : A → W B) s : w_bind (w_fail e) f s = (inr e, s).
Proof. done. Qed.
Create Rewrite HintDb w_run.
#[local] Hint Rewrite @bind_get_wm @bind_ret @bind_fail : w_run.

Ltac w_run := cbn [lift require_ok negb]; autorewrite with w_run.

(** A loop that ends well ends with a round that has nothing more to do. *)
Lemma attempts_loop_ok (I : WState → Prop) n body msg s s' :
  (∀ s1 r s2, I s1 → body s1 = (r, s2) → I s2) → I s →
  attempts_loop n body msg s = (inl tt, s') → ∃ s1, I s1 ∧ body s1 = (inl false, s').
Proof.
  intros HI. revert s. induction n as [|n IH]; intros s Hs Hl; cbn [attempts_loop] in Hl;
    apply w_bind_ok in Hl as ([|] & s1 & Hb & Hl); cbn [negb] in Hl.
  - done.
  - injection Hl as <-. eauto.
  - destruct n; [done|]. eapply IH; [|exact Hl]. eauto.
  - injection Hl as <-. eauto.
Qed.

(** A loop whose second round has nothing more to do. *)
Lemma attempts_loop_two n body msg s s1 s2 :
  body s = (inl true, s1) → body s1 = (inl false, s2) → attempts_loop (S (S n)) body msg s = (inl tt, s2).
Proof.
  intros Ha Hb. cbn [attempts_loop]. rewrite (w_bind_run _ _ _ _ _ Ha). cbn [negb].
  by rewrite (w_bind_run _ _ _ _ _ Hb).
Qed.

Lemma attempts_loop_one n body msg s s1 :
  body s = (inl false, s1) → attempts_loop n body msg s = (inl tt, s1).
Proof. intros Ha. destruct n; cbn [attempts_loop]; by rewrite (w_bind_run _ _ _ _ _ Ha). Qed.

(** ** Webhooks *)

Lemma bytes_differ_refl s : bytes_differ s s = false.
Proof. induction s as [|c s IH]; [done|]. cbn. by rewrite bool_decide_true. Qed.

Lemma bytes_differ_eq s t : String.length s = String.length t → bytes_differ s t = false → s = t.
Proof.
  revert t. induction s as [|c s IH]; intros [|d t]; cbn; try done. intros [= Hl].
  case_bool_decide; [|done]. subst. cbn. intros Hd. f_equal. by apply IH.
Qed.

(** The bundle that is accepted is the one that is written. *)
Lemma validateCaBundle_iff wm pem bundle :
  encodeCaBundle wm = inl pem → validateCaBundle wm bundle = None ↔ bundle = pem.
Proof.
  unfold encodeCaBundle, validateCaBundle. destruct (wm_caCert1 wm), (wm_caCert2 wm); try done. intros ->.
  case_bool_decide as Hl; cbn.
  - destruct (bytes_differ bundle pem) eqn:E; split; try done.
    + intros ->. by rewrite bytes_differ_refl in E.
    + intros _. by apply bytes_differ_eq.
  - split; [done|]. by intros ->.
Qed.

Definition check_of (k : HookKind) : webhookManagerImpl → WebhookConfiguration → option Failure :=
  match k with Validating => checkValidatingWebhook | Mutating => checkMutatingWebhook end.
Definition populate_of (k : HookKind) : webhookManagerImpl → WebhookConfiguration → string → WebhookConfiguration :=
  match k with Validating => populateValidatingWebhook | Mutating => populateMutatingWebhook end.
Definition install_of (k : HookKind) : W bool :=
  match k with Validating => installValidatingWebhook | Mutating => installMutatingWebhook end.

Lemma check_populate k wm hook pem :
  encodeCaBundle wm = inl pem → check_of k wm (populate_of k wm hook pem) = None.
Proof.
  intros Hp. assert (Hv : validateCaBundle wm pem = None) by by apply (validateCaBundle_iff _ pem).
  destruct k; cbn [check_of populate_of]; unfold checkValidatingWebhook, checkMutatingWebhook, checkWebhook,
    populateValidatingWebhook, populateMutatingWebhook;
    cbn [wc_Labels wc_Webhooks wh_Name wh_Service svc_Name svc_Namespace svc_Path wh_CABundle wh_Rules];
    rewrite lookup_singleton_eq; cbn [guards not_the_value]; rewrite !bool_decide_true by done; cbn [negb];
    rewrite Hv; by vm_compute.
Qed.

(** What a webhook that passes the check looks like. *)
Lemma checkWebhook_ok wm msg name path groups resources webhook pem :
  encodeCaBundle wm = inl pem →
  checkWebhook wm msg name path groups resources webhook = None →
  ∃ versions, wc_Webhooks webhook =
    [mkAdmissionWebhook name
       (Some (mkServiceReference (ac_amServiceName (wm_conf wm)) (ac_namespace (wm_conf wm)) (Some path)))
       pem [mkRule ["CREATE"; "UPDATE"] groups ["v1"] resources] (Some "Ignore") versions (Some "None")].
Proof.
  intros Hp. unfold checkWebhook. destruct (not_the_value _ _); [done|].
  destruct (wc_Webhooks webhook) as [|[n svc ca rules fp vs se] [|]]; try done. cbn.
  case_bool_decide; [|done]. cbn. destruct svc as [[sn sns sp]|]; [|done]. cbn.
  do 2 (case_bool_decide; [|done]; cbn). destruct sp as [sp|]; [|done]. cbn. case_bool_decide; [|done]. cbn.
  destruct (validateCaBundle wm ca) eqn:Hv; [done|]. apply (validateCaBundle_iff _ pem) in Hv; [|done].
  destruct rules as [|[o g v r] [|]]; try done. unfold not_the_list. cbn.
  do 4 (case_bool_decide; [|done]; cbn). destruct fp; [|done]. cbn. case_bool_decide; [|done]. cbn.
  destruct se; [|done]. cbn. case_bool_decide; [|done]. intros _. subst. eauto.
Qed.

(** ** One round of an installation *)

Lemma install_of_def k :
  install_of k =
  installWebhook k (match k with Validating => createEmptyValidatingWebhook | Mutating => createEmptyMutatingWebhook end)
    (populate_of k) (check_of k).
Proof. by destruct k. Qed.

(** Everything but the webhook of kind [k] and the number of calls. *)
Definition same_but (k : HookKind) (s s' : WState) : Prop :=
  ws_wm s' = ws_wm s ∧ ws_secret s' = ws_secret s ∧ ws_reads s' = ws_reads s ∧ (ws_calls s ≤ ws_calls s')%nat ∧
  ∀ k', k' ≠ k → hook_of k' s' = hook_of k' s.

Lemma same_but_refl k s : same_but k s s.
Proof. done. Qed.

Lemma same_but_trans k s1 s2 s3 : same_but k s1 s2 → same_but k s2 s3 → same_but k s1 s3.
Proof.
  intros (?&?&?&?&Ha) (?&?&?&?&Hb). repeat split; try congruence; [lia|].
  intros k' Hk. rewrite Hb, Ha; done.
Qed.

Lemma api_same {A} k (call : WState → (A + ApiError) * WState) s r s' :
  (∀ s1 r1 s2, call s1 = (r1, s2) → same_but k s1 s2) → api call s = (r, s') → same_but k s s'.
Proof.
  intros Hc. unfold api. destruct (fault (ws_calls s)); [intros [= <- <-]; repeat split; cbn; lia|].
  destruct (call _) as [r1 s2] eqn:E. intros [= <- <-]. apply Hc in E as (?&?&?&?&?).
  repeat split; cbn in *; try done. lia.
Qed.

Lemma hooks_Get_same k s r s' : hooks_Get k s = (r, s') → same_but k s s' ∧ ∀ h, r = inl (inl h) → hook_of k s' = Some h.
Proof.
  intros E. split; [eapply api_same; [|exact E]; by intros s1 r1 s2 [= _ <-]|].
  intros h ->. unfold hooks_Get, api in E. destruct (fault _); [done|].
  destruct (hook_of k _) eqn:Eh in E; [|done]. by injection E as -> <-.
Qed.

Lemma set_hook_same k h s : same_but k s (set_hook k h s).
Proof. destruct k; repeat split; cbn; try lia; by intros []. Qed.

Lemma hook_of_set k h s : hook_of k (set_hook k h s) = Some h.
Proof. by destruct k. Qed.

Lemma hooks_Create_same k h s r s' : hooks_Create k h s = (r, s') → same_but k s s'.
Proof.
  apply api_same. intros s1 r1 s2. destruct (hook_of k s1); intros [= _ <-]; [done|apply set_hook_same].
Qed.

Lemma hooks_Update_same k h s r s' : hooks_Update k h s = (r, s') → same_but k s s'.
Proof.
  apply api_same. intros s1 r1 s2. destruct (hook_of k s1); intros [= _ <-]; [apply set_hook_same|done].
Qed.

Lemma retriable_state errs r s o s' : retriable errs r s = (o, s') → s' = s ∧ o ≠ inl false.
Proof.
  unfold retriable. destruct r as [|e]; [intros [= <- <-]; done|].
  destruct (bool_decide _); by intros [= <- <-].
Qed.

(** Whatever happens, a round changes only its own webhook, and it says that
    nothing is left to do only when the webhook is in order. *)
Lemma install_round k s r s' :
  install_of k s = (r, s') →
  same_but k s s' ∧ (r = inl false → ∃ h, hook_of k s' = Some h ∧ check_of k (ws_wm s') h = None ∧
                                           ∃ pem, encodeCaBundle (ws_wm s') = inl pem).
Proof.
  rewrite install_of_def. unfold installWebhook. w_run.
  destruct (encodeCaBundle (ws_wm s)) as [pem|e] eqn:Hp; w_run; [|by intros [= <- <-]].
  unfold w_bind at 1.
  destruct (hooks_Get k s) as [[found|e] s1] eqn:Eg; apply hooks_Get_same in Eg as [Hs Hh]; [|by intros [= <- <-]].
  destruct found as [h|[]]; [..|by intros [= <- <-]|by intros [= <- <-]|by intros [= <- <-]].
  - pose proof (Hs) as (Hwm & _). destruct (check_of k (ws_wm s) h) eqn:Ec.
    + rewrite check_populate by done. w_run. unfold w_bind.
      destruct (hooks_Update _ _ s1) as [[u|e] s2] eqn:Eu; apply hooks_Update_same in Eu.
      * intros [-> Hr]%retriable_state. split; [by eapply same_but_trans|]. done.
      * intros [= <- <-]. split; [by eapply same_but_trans|done].
    + intros [= <- <-]. split; [done|]. intros _. exists h. rewrite Hwm. eauto.
  - rewrite check_populate by done. w_run. unfold w_bind.
    destruct (hooks_Create _ _ s1) as [[u|e] s2] eqn:Eu; apply hooks_Create_same in Eu.
    + intros [-> Hr]%retriable_state. split; [by eapply same_but_trans|]. done.
    + intros [= <- <-]. split; [by eapply same_but_trans|done].
Qed.

(** [s] is registered: both webhooks are in order. *)
Definition registered (s : WState) : Prop :=
  ∀ k, ∃ h, hook_of k s = Some h ∧ check_of k (ws_wm s) h = None.

Lemma install_loop_ok k n msg s s' :
  attempts_loop n (install_of k) msg s = (inl tt, s') →
  same_but k s s' ∧ (∃ h, hook_of k s' = Some h ∧ check_of k (ws_wm s') h = None) ∧
  ∃ pem, encodeCaBundle (ws_wm s') = inl pem.
Proof.
  intros Hl. eapply (attempts_loop_ok (same_but k s)) in Hl as (s1 & Hs & Hb); [|..|apply same_but_refl].
  - apply install_round in Hb as [Hs' Hb]. destruct (Hb eq_refl) as (h & ? & ? & ?).
    split; [by eapply same_but_trans|]. eauto.
  - intros s1 r s2 Hs Hb. apply install_round in Hb as [Hb _]. by eapply same_but_trans.
Qed.

Lemma InstallWebhooks_ok s s' :
  InstallWebhooks s = (inl tt, s') →
  ws_wm s' = ws_wm s ∧ registered s' ∧ ∃ pem, encodeCaBundle (ws_wm s') = inl pem.
Proof.
  unfold InstallWebhooks. w_run. intros Hl. apply w_bind_ok in Hl as ([] & s1 & Hv & Hm).
  apply (install_loop_ok Validating) in Hv as ((Hw1 & _) & (v & Hv & Hvc) & _).
  apply (install_loop_ok Mutating) in Hm as ((Hw2 & _ & _ & _ & Hk) & (m & Hm & Hmc) & Hp).
  split; [congruence|]. split; [|done]. intros [].
  - exists v. rewrite (Hk Validating), Hw2 by done. done.
  - eauto.
Qed.

(** ** When the API server does what it is asked for *)

Definition calm (s : WState) : Prop := ∀ n, (ws_calls s ≤ n)%nat → fault n = None.

Definition called (s : WState) : WState :=
  mkWState (ws_wm s) (ws_secret s) (ws_validating s) (ws_mutating s) (S (ws_calls s)) (ws_reads s).

Lemma bind_api {A B} (call : WState → (A + ApiError) * WState) (f : A + ApiError → W B) s :
  calm s → w_bind (api call) f s = f (call (called s)).1 (call (called s)).2.
Proof. intros Hc. unfold w_bind, api. rewrite (Hc (ws_calls s)) by done. fold (called s). by destruct (call _). Qed.

Lemma hook_of_called k s : hook_of k (called s) = hook_of k s.
Proof. by destruct k. Qed.

Lemma calm_later s s' : calm s → (ws_calls s ≤ ws_calls s')%nat → calm s'.
Proof. intros Hc Hle n Hn. apply Hc. lia. Qed.

Lemma set_hook_in_order k s h pem :
  encodeCaBundle (ws_wm s) = inl pem →
  ∃ again s', retriable [] (inl tt) (set_hook k (populate_of k (ws_wm s) h pem) (called (called s))) = (inl again, s') ∧
    (ws_calls s' ≤ ws_calls s + 2)%nat ∧
    (again = true → ∃ h, hook_of k s' = Some h ∧ check_of k (ws_wm s') h = None).
Proof.
  intros Hp. eexists true, _. split; [done|]. split; [destruct k; cbn; lia|]. intros _. eexists.
  split; [apply hook_of_set|]. pose proof (check_populate k (ws_wm s) h pem Hp) as Hc. by destruct k.
Qed.

(** One round puts the webhook in order if it is not. *)
Lemma install_round_calm k s pem :
  calm s → encodeCaBundle (ws_wm s) = inl pem →
  ∃ again s', install_of k s = (inl again, s') ∧ (ws_calls s' ≤ ws_calls s + 2)%nat ∧
    (again = true → ∃ h, hook_of k s' = Some h ∧ check_of k (ws_wm s') h = None).
Proof.
  intros Hc Hp. rewrite install_of_def. unfold installWebhook. w_run. rewrite Hp. w_run. unfold hooks_Get.
  rewrite bind_api by done. cbn [fst snd]. rewrite hook_of_called.
  assert (Hc1 : calm (called s)) by (eapply calm_later; [done|cbn; lia]).
  destruct (hook_of k s) as [h|] eqn:Eh.
  - destruct (check_of k (ws_wm s) h) eqn:Ec; [|eexists false, (called s); split; [done|split; [cbn; lia|done]]].
    rewrite check_populate by done. w_run. unfold hooks_Update. rewrite bind_api by done.
    rewrite !hook_of_called, Eh. by apply set_hook_in_order.
  - rewrite check_populate by done. w_run. unfold hooks_Create. rewrite bind_api by done.
    rewrite !hook_of_called, Eh. by apply set_hook_in_order.
Qed.

(** A webhook in order is left alone. *)
Lemma install_round_idle k s pem h :
  calm s → encodeCaBundle (ws_wm s) = inl pem → hook_of k s = Some h → check_of k (ws_wm s) h = None →
  ∃ s', install_of k s = (inl false, s') ∧ (ws_calls s' ≤ ws_calls s + 1)%nat.
Proof.
  intros Hc Hp Hh Hk. rewrite install_of_def. unfold installWebhook. w_run. rewrite Hp. w_run. unfold hooks_Get.
  rewrite bind_api by done. cbn [fst snd]. rewrite hook_of_called, Hh, Hk. eexists. split; [done|]. cbn. lia.
Qed.

Lemma install_loop_calm k n msg s pem :
  calm s → encodeCaBundle (ws_wm s) = inl pem →
  ∃ s', attempts_loop (S (S n)) (install_of k) msg s = (inl tt, s') ∧ (ws_calls s' ≤ ws_calls s + 3)%nat.
Proof.
  intros Hc Hp. destruct (install_round_calm k s pem) as ([] & s1 & Hr & Hn & Hk); try done.
  - destruct (Hk eq_refl) as (h & Hh & Hok). pose proof (install_round _ _ _ _ Hr) as [(Hw & _ & _ & Hle & _) _].
    destruct (install_round_idle k s1 pem h) as (s2 & Hr2 & Hn2); [by eapply calm_later|by rewrite Hw|done..|].
    exists s2. split; [by eapply attempts_loop_two|lia].
  - exists s1. split; [by apply attempts_loop_one|lia].
Qed.

Lemma InstallWebhooks_calm s pem :
  calm s → encodeCaBundle (ws_wm s) = inl pem → (2 ≤ wm_conflictAttempts (ws_wm s))%nat →
  ∃ s', InstallWebhooks s = (inl tt, s') ∧ (ws_calls s' ≤ ws_calls s + 6)%nat.
Proof.
  intros Hc Hp Hn. unfold InstallWebhooks. w_run.
  destruct (wm_conflictAttempts (ws_wm s)) as [|[|n]]; [lia..|].
  destruct (install_loop_calm Validating n "webhook: unable to install validating webhook after max attempts" s pem)
    as (s1 & Hr & Hn1); [done..|]. rewrite (w_bind_run _ _ _ _ _ Hr).
  pose proof (install_loop_ok _ _ _ _ _ Hr) as [(Hw & _ & _ & Hle & _) _].
  destruct (install_loop_calm Mutating n "webhook: unable to install mutating webhook after max attempts" s1 pem)
    as (s2 & Hr2 & Hn2); [by eapply calm_later|by rewrite Hw|]. exists s2. split; [done|lia].
Qed.

(** ** CA certificates *)

(** The state after [n] more readings. *)
Definition read_more (n : nat) (s : WState) : WState :=
  mkWState (ws_wm s) (ws_secret s) (ws_validating s) (ws_mutating s) (ws_calls s) (ws_reads s + n).

(** A pair of PEM texts in the secret. *)
Definition stored (data : gmap string string) (certName keyName : string) (cert : Certificate) (key : PrivateKey) : Prop :=
  ∃ certPem keyPem, data !! certName = Some certPem ∧ data !! keyName = Some keyPem ∧
    DecodeCertificatePem certPem = inl cert ∧ DecodePrivateKeyPem keyPem = inl key.

Ltac unread Hs := eexists _, 0%nat; rewrite <- Hs; split; [done|split; [lia|naive_solver congruence]].

Lemma getAndValidate_spec data certName keyName s :
  ∃ r n, getAndValidateCertificate data certName keyName s = (inl r, read_more n s) ∧ (n ≤ 1)%nat ∧
    match r with
    | inl (cert, key) =>
        stored data certName keyName cert key ∧ AddDate (now (ws_reads s)) 0 0 90 ≤ cert_NotAfter cert
    | inr _ =>
        ∀ cert key, stored data certName keyName cert key → cert_NotAfter cert < AddDate (now (ws_reads s)) 0 0 90
    end.
Proof.
  assert (Hs : s = read_more 0 s) by (destruct s; unfold read_more; cbn; f_equal; lia).
  unfold getAndValidateCertificate, stored.
  destruct (data !! certName) as [cp|]; [|unread Hs].
  destruct (data !! keyName) as [kp|]; [|unread Hs].
  destruct (DecodeCertificatePem cp) as [cert|] eqn:Ec;
    [|unread Hs].
  destruct (DecodePrivateKeyPem kp) as [key|] eqn:Ek;
    [|unread Hs].
  unfold Now. cbn [w_bind reading w_ret].
  destruct (Z.ltb_spec (cert_NotAfter cert) (AddDate (now (ws_reads s)) 0 0 90)).
  - eexists (inr _), 1%nat. split; [|split; [lia|]].
    + unfold w_bind, reading, w_ret, read_more. cbn. by rewrite Nat.add_1_r.
    + intros cert' key' (cp' & kp' & [= <-] & [= <-] & Hc & _). congruence.
  - eexists (inl _), 1%nat. split; [|split; [lia|]].
    + unfold w_bind, reading, w_ret, read_more. cbn. by rewrite Nat.add_1_r.
    + split; [eauto 10|done].
Qed.

(** Keys and certificates can be created. *)
Definition keys_can_be_made : Prop :=
  ∀ n, ∃ key, rsa_GenerateKey n = inl key ∧
    ∀ tm signer signerKey, ∃ raw, x509_CreateCertificate n tm signer key signerKey = inl raw.

Lemma new_ca_spec t s :
  keys_can_be_made → ∃ cert key, new_ca t s = (inl (cert, key), read_more 1 s) ∧ cert_NotAfter cert = t.
Proof.
  intros Hk. destruct (Hk (ws_reads s)) as (key & Hg & Hcr).
  destruct (Hcr (mkTemplate "" [YunikornOrg] [] (serialNumber (now (ws_reads s) * 1000000000)) (now (ws_reads s) - 300) t true)
    None key) as (raw & Hraw).
  destruct (create_parses _ _ _ _ _ _ Hraw) as (cert & Hp & Hn & _). exists cert, key. split; [|done].
  unfold new_ca, w_bind, reading, GenerateCACertificate, generateCert. rewrite Hg, Hraw, Hp. cbn.
  unfold w_ret, read_more. by rewrite Nat.add_1_r.
Qed.

(** What loading certificates keeps. *)
Definition kept (s s' : WState) : Prop :=
  wm_conf (ws_wm s') = wm_conf (ws_wm s) ∧ wm_serviceName (ws_wm s') = wm_serviceName (ws_wm s) ∧
  wm_conflictAttempts (ws_wm s') = wm_conflictAttempts (ws_wm s) ∧
  ws_validating s' = ws_validating s ∧ ws_mutating s' = ws_mutating s ∧
  (ws_calls s ≤ ws_calls s')%nat ∧ (ws_reads s ≤ ws_reads s')%nat.

#[global] Instance kept_preorder : PreOrder kept.
Proof.
  split; [by intros s; repeat split|]. unfold kept. intros s1 s2 s3 Ha Hb. destruct_and?. split_and!; try congruence; lia.
Qed.

Definition keeping {A} (m : W A) : Prop := ∀ s r s', m s = (r, s') → kept s s'.

Lemma keeping_bind {A B} (m : W A) (f : A → W B) : keeping m → (∀ a, keeping (f a)) → keeping (w_bind m f).
Proof.
  intros Hm Hf s r s'. unfold w_bind. destruct (m s) as [[a|e] s1] eqn:E; apply Hm in E.
  - intros Hr%Hf. by etrans.
  - by intros [= _ <-].
Qed.

Lemma keeping_ret {A} (a : A) : keeping (w_ret a).
Proof. by intros s r s' [= _ <-]. Qed.
Lemma keeping_fail {A} e : keeping (w_fail (A := A) e).
Proof. by intros s r s' [= _ <-]. Qed.
Lemma keeping_lift {A} (x : A + string) : keeping (lift x).
Proof. destruct x; [apply keeping_ret|apply keeping_fail]. Qed.
Lemma keeping_reading : keeping reading.
Proof. intros s r s' [= _ <-]. repeat split; cbn; lia. Qed.
Lemma keeping_api {A} (call : WState → (A + ApiError) * WState) :
  (∀ s r s', call s = (r, s') → kept s s') → keeping (api call).
Proof.
  intros Hc s r s'. unfold api. destruct (fault _).
  - intros [= _ <-]. repeat split; cbn; lia.
  - destruct (call _) as [r1 s1] eqn:E. intros [= _ <-]. apply Hc in E. etrans; [|exact E]. repeat split; cbn; lia.
Qed.
Lemma keeping_Get : keeping secrets_Get.
Proof. apply keeping_api. by intros s r s' [= _ <-]. Qed.
Lemma keeping_Update data : keeping (secrets_Update data).
Proof. apply keeping_api. intros s r s'. destruct (ws_secret s); by intros [= _ <-]. Qed.
Lemma keeping_getAndValidate data c k : keeping (getAndValidateCertificate data c k).
Proof.
  intros s r s' E. destruct (getAndValidate_spec data c k s) as (r' & n & E' & _). rewrite E' in E.
  injection E as <- <-. repeat split; cbn; lia.
Qed.

Create HintDb kept.
#[local] Hint Resolve keeping_bind keeping_ret keeping_fail keeping_lift keeping_reading keeping_Get keeping_Update
  keeping_getAndValidate : kept.

(** The last assignment of a load. *)
Lemma keeping_assign c1 k1 c2 k2 e :
  keeping (w_bind get_wm (λ wm, w_bind (set_wm (mkWebhookManager (wm_conf wm) (wm_serviceName wm)
    (wm_conflictAttempts wm) (Some c1) (Some k1) (Some c2) (Some k2) e)) (λ _, w_ret false))).
Proof. intros s r s' [= _ <-]. by repeat split. Qed.

Lemma keeping_load : keeping loadCaCertificatesInternal.
Proof.
  unfold loadCaCertificatesInternal. apply keeping_bind; [apply keeping_Get|]. intros [data|e]; [|apply keeping_fail].
  apply keeping_bind; [apply keeping_getAndValidate|]. intros f1.
  apply keeping_bind; [apply keeping_getAndValidate|]. intros f2.
  apply keeping_bind; [destruct f1; unfold Now, new_ca; eauto 10 with kept|]. intros [c1 k1].
  apply keeping_bind; [destruct f2; unfold Now, new_ca; eauto 10 with kept|]. intros [c2 k2].
  destruct f1, f2; [apply keeping_assign|..]; repeat (apply keeping_bind; [apply keeping_lift|intros ?]);
    (apply keeping_bind; [apply keeping_Update|intros [|e]; [apply keeping_ret|]; destruct (bool_decide _); auto with kept]).
Qed.

(** The manager has two certificates, which are valid until [t]. *)
Definition valid_until (wm : webhookManagerImpl) (t : Z) : Prop :=
  ∃ c1 k1 c2 k2, wm_caCert1 wm = Some c1 ∧ wm_caKey1 wm = Some k1 ∧ wm_caCert2 wm = Some c2 ∧ wm_caKey2 wm = Some k2 ∧
    wm_expiration wm = Z.min (cert_NotAfter c1) (cert_NotAfter c2) ∧ t ≤ wm_expiration wm.

(** A load that has nothing more to write has found valid certificates. *)
Lemma load_round_ok s s' :
  loadCaCertificatesInternal s = (inl false, s') → valid_until (ws_wm s') (now (ws_reads s) + 89 * day).
Proof.
  unfold loadCaCertificatesInternal. intros E. apply w_bind_ok in E as (found & s0 & E0 & E).
  apply keeping_Get in E0 as (_ & _ & _ & _ & _ & _ & Hr0). destruct found as [data|e]; [|done].
  destruct (getAndValidate_spec data caCert1Path caPrivateKey1Path s0) as (f1 & n1 & E1 & _ & Hf1).
  rewrite (w_bind_run _ _ _ _ _ E1) in E.
  destruct (getAndValidate_spec data caCert2Path caPrivateKey2Path (read_more n1 s0)) as (f2 & n2 & E2 & _ & Hf2).
  rewrite (w_bind_run _ _ _ _ _ E2) in E.
  apply w_bind_ok in E as ([c1 k1] & s3 & E3 & E). apply w_bind_ok in E as ([c2 k2] & s4 & E4 & E).
  destruct f1 as [[c1' k1']|], f2 as [[c2' k2']|].
  1: { injection E3 as <- <- <-. injection E4 as <- <- <-. destruct Hf1 as [_ Hf1], Hf2 as [_ Hf2].
       injection E as <-. exists c1', k1', c2', k2'. cbn.
       pose proof (AddDate_days (now (ws_reads s0)) 90). pose proof (AddDate_days (now (ws_reads s0 + n1)%nat) 90).
       pose proof (now_mono (ws_reads s) (ws_reads s0)). pose proof (now_mono (ws_reads s) (ws_reads s0 + n1)).
       split_and!; try done; destruct (Z.ltb_spec (cert_NotAfter c2') (cert_NotAfter c1')); cbn in *; lia. }
  all: repeat (apply w_bind_ok in E as (? & ? & _ & E)); match goal with u : _ + ApiError |- _ => destruct u end;
    [done|destruct (bool_decide _); done].
Qed.

Lemma LoadCACertificates_ok s s' :
  LoadCACertificates s = (inl tt, s') → kept s s' ∧ valid_until (ws_wm s') (now (ws_reads s) + 89 * day).
Proof.
  unfold LoadCACertificates. w_run. intros Hl.
  eapply (attempts_loop_ok (kept s)) in Hl as (s1 & Hs & Hb); [|..|done].
  - split; [etrans; [done|by eapply keeping_load]|]. apply load_round_ok in Hb as (c1 & k1 & c2 & k2 & ? & ? & ? & ? & ? & Ht).
    exists c1, k1, c2, k2. split_and!; try done. pose proof (now_mono (ws_reads s) (ws_reads s1)). destruct Hs as (_&_&_&_&_&_&?). lia.
  - intros s1 r s2 Hs Hb%keeping_load. by etrans.
Qed.

(** ** Loading terminates with certificates

    A certificate that was made since [t0] is accepted as long as no more than a
    month has passed. *)

Definition fresh (t0 : Z) (data : gmap string string) (certName keyName : string) : Prop :=
  ∃ cert key, stored data certName keyName cert key ∧ t0 + 178 * day ≤ cert_NotAfter cert.

Definition fresh1 t0 data := fresh t0 data caCert1Path caPrivateKey1Path.
Definition fresh2 t0 data := fresh t0 data caCert2Path caPrivateKey2Path.

(** All readings that follow are within a month of [t0]. *)
Definition within_a_month (t0 : Z) (s : WState) : Prop :=
  ∀ n, (ws_reads s ≤ n ≤ ws_reads s + 18)%nat → t0 ≤ now n ≤ t0 + 30 * day.

Lemma fresh_is_accepted t0 data c k s r s' :
  t0 ≤ now (ws_reads s) ≤ t0 + 30 * day → fresh t0 data c k →
  getAndValidateCertificate data c k s = (inl r, s') → ∃ cp, r = inl cp.
Proof.
  intros Ht (cert & key & Hst & Hn) E. destruct (getAndValidate_spec data c k s) as (r' & n & E' & _ & Hr).
  rewrite E' in E. injection E as -> <-. destruct r as [cp|]; [eauto|].
  specialize (Hr _ _ Hst). pose proof (AddDate_days (now (ws_reads s)) 90). unfold day in *. lia.
Qed.

(** The cp that is stored: the one that was found, or a new one. *)
Lemma stored_new c k pem kpem cert key (data : gmap string string) :
  EncodeCertificatePem cert = inl pem → EncodePrivateKeyPem key = inl kpem →
  data !! c = Some pem → data !! k = Some kpem → stored data c k cert key.
Proof.
  intros Hc Hk ? ?. destruct (certificate_pem_roundtrip cert) as (p & Hp & Hd).
  destruct (private_key_pem_roundtrip key) as (q & Hq & He). exists pem, kpem. split_and!; congruence.
Qed.

(** A certificate that was not found is made, and it is fresh. *)
Lemma make_pair (found : (Certificate * PrivateKey) + string) (half : bool) t0 s :
  keys_can_be_made → t0 ≤ now (ws_reads s) →
  ∃ cp n,
    match found with
    | inl cp => w_ret cp
    | inr _ =>
        w_bind Now (λ t,
          let notAfter := AddDate t 1 0 0 in
          let notAfter := if half then AddDate notAfter 0 (-6) 0 else notAfter in new_ca notAfter)
    end s = (inl cp, read_more n s) ∧ (n ≤ 2)%nat ∧
    match found with inl cp2 => cp = cp2 | inr _ => t0 + 178 * day ≤ cert_NotAfter cp.1 end.
Proof.
  intros Hk Ht. destruct found as [cp|].
  { exists cp, 0%nat. split; [|split; [lia|done]]. destruct s; unfold w_ret, read_more; cbn. by rewrite Nat.add_0_r. }
  set (t := now (ws_reads s)) in *. 
  destruct (new_ca_spec (if half then AddDate (AddDate t 1 0 0) 0 (-6) 0 else AddDate t 1 0 0) (read_more 1 s) Hk)
    as (cert & key & E & Hn).
  exists (cert, key), 2%nat. split; [|split; [lia|]].
  - unfold Now, w_bind, reading, w_ret. cbn beta iota zeta. fold t. unfold read_more in E. rewrite Nat.add_1_r in E.
    rewrite E. unfold read_more. cbn. do 2 f_equal. lia.
  - cbn. rewrite Hn. pose proof (AddDate_year t). pose proof (AddDate_half_year (AddDate t 1 0 0)).
    unfold day in *. destruct half; lia.
Qed.

Definition is_inl {A B} (x : A + B) : bool := match x with inl _ => true | inr _ => false end.

(** What is written for one of the two certificates. *)
Definition renewed (t0 : Z) (data : gmap string string) (c k : string) (found : (Certificate * PrivateKey) + string)
    (cert : Certificate) : Prop :=
  (fresh t0 data c k → t0 + 178 * day ≤ cert_NotAfter cert) ∧
  (is_inl found = false → ¬ fresh t0 data c k ∧ t0 + 178 * day ≤ cert_NotAfter cert).

Lemma renewed_pair t0 data c k found cp s n :
  t0 ≤ now (ws_reads s) ≤ t0 + 30 * day →
  getAndValidateCertificate data c k s = (inl found, read_more n s) →
  match found with inl cp2 => cp = cp2 | inr _ => t0 + 178 * day ≤ cert_NotAfter cp.1 end →
  renewed t0 data c k found cp.1.
Proof.
  intros Ht E Hm.
  assert (Hf : fresh t0 data c k → is_inl found = true) by (intros Hf; by destruct (fresh_is_accepted _ _ _ _ _ _ _ Ht Hf E) as [? ->]).
  destruct (getAndValidate_spec data c k s) as (r & m & E' & _ & Hr). rewrite E' in E. injection E as -> _.
  destruct found as [[cert key]|]; cbn in *; subst.
  - split; [|done]. intros (cert' & key' & (?&?&?&?&?&?) & Hn). destruct Hr as [(?&?&?&?&?&?) _]. cbn. congruence.
  - split; [by intros ?%Hf|]. intros _. split; [by intros ?%Hf|done].
Qed.

Lemma load_round_calm t0 s data :
  keys_can_be_made → calm s → ws_secret s = Some data →
  (∀ n, (ws_reads s ≤ n ≤ ws_reads s + 6)%nat → t0 ≤ now n ≤ t0 + 30 * day) →
  ∃ b s', loadCaCertificatesInternal s = (inl b, s') ∧ (ws_reads s' ≤ ws_reads s + 6)%nat ∧
    (b = true → ∃ data', ws_secret s' = Some data' ∧
       (fresh1 t0 data → fresh1 t0 data') ∧ (fresh2 t0 data → fresh2 t0 data') ∧
       ((¬ fresh1 t0 data ∧ fresh1 t0 data') ∨ (¬ fresh2 t0 data ∧ fresh2 t0 data'))).
Proof.
  intros Hk Hc Hs Ht. unfold loadCaCertificatesInternal, secrets_Get. rewrite bind_api by done. cbn [fst snd ws_secret called].
  rewrite Hs. fold (called s). set (s0 := called s).
  destruct (getAndValidate_spec data caCert1Path caPrivateKey1Path s0) as (f1 & n1 & E1 & Hn1 & _).
  rewrite (w_bind_run _ _ _ _ _ E1).
  destruct (getAndValidate_spec data caCert2Path caPrivateKey2Path (read_more n1 s0)) as (f2 & n2 & E2 & Hn2 & _).
  rewrite (w_bind_run _ _ _ _ _ E2).
  destruct (make_pair f1 (match f2 with inr _ => true | inl _ => false end) t0 (read_more n2 (read_more n1 s0)) Hk)
    as (p1 & m1 & E3 & Hm1 & Hp1); [apply Ht; cbn; lia|].
  erewrite w_bind_run; [|rewrite <- E3; by destruct f1, f2].
  destruct (make_pair f2 false t0 (read_more m1 (read_more n2 (read_more n1 s0))) Hk)
    as (p2 & m2 & E4 & Hm2 & Hp2); [apply Ht; cbn; lia|].
  erewrite w_bind_run; [|rewrite <- E4; by destruct f2].
  eapply (renewed_pair t0) in Hp1; [|..|exact E1]; [|apply Ht; cbn; lia].
  eapply (renewed_pair t0) in Hp2; [|..|exact E2]; [|apply Ht; cbn; lia].
  destruct p1 as [c1 k1], p2 as [c2 k2]. cbn [fst] in Hp1, Hp2.
  destruct (is_inl f1 && is_inl f2) eqn:Hd; [destruct f1, f2; try done; eexists false, _; split; [done|split; [cbn; lia|done]]|].
  destruct (certificate_pem_roundtrip c1) as (cp1 & Ec1 & _), (certificate_pem_roundtrip c2) as (cp2 & Ec2 & _).
  destruct (private_key_pem_roundtrip k1) as (kp1 & Ek1 & _), (private_key_pem_roundtrip k2) as (kp2 & Ek2 & _).
  replace (match f1 with inl _ => match f2 with inl _ => false | inr _ => true end | inr _ => true end)
    with true by by destruct f1, f2.
  rewrite Ec1, Ek1, Ec2, Ek2. w_run. unfold secrets_Update.
  rewrite bind_api by (eapply calm_later; [done|cbn; lia]). cbn [called read_more ws_secret s0]. rewrite Hs. cbn [fst snd].
  eexists true, _. split; [done|]. split; [cbn; lia|]. intros _. cbn [ws_secret]. eexists. split; [done|].
  destruct Hp1 as [Ha1 Hb1], Hp2 as [Ha2 Hb2].
  assert (Hst1 : t0 + 178 * day ≤ cert_NotAfter c1 → fresh1 t0 (<[caPrivateKey2Path:=kp2]> (<[caCert2Path:=cp2]>
      (<[caPrivateKey1Path:=kp1]> (<[caCert1Path:=cp1]> data)))))
    by (intros ?; exists c1, k1; split; [|done]; eapply stored_new; [done..| |]; by simplify_map_eq).
  assert (Hst2 : t0 + 178 * day ≤ cert_NotAfter c2 → fresh2 t0 (<[caPrivateKey2Path:=kp2]> (<[caCert2Path:=cp2]>
      (<[caPrivateKey1Path:=kp1]> (<[caCert1Path:=cp1]> data)))))
    by (intros ?; exists c2, k2; split; [|done]; eapply stored_new; [done..| |]; by simplify_map_eq).
  split; [naive_solver|]. split; [naive_solver|].
  destruct f1; [destruct f2; [done|right]|left]; naive_solver.
Qed.

Lemma attempts_loop_again n body msg s s1 :
  body s = (inl true, s1) → attempts_loop (S (S n)) body msg s = attempts_loop (S n) body msg s1.
Proof. intros Ha. cbn [attempts_loop]. rewrite (w_bind_run _ _ _ _ _ Ha). done. Qed.

(** Every round but the last makes one of the two certificates, and what was made
    is not made again. *)
Lemma LoadCACertificates_calm s :
  keys_can_be_made → calm s → is_Some (ws_secret s) → (3 ≤ wm_conflictAttempts (ws_wm s))%nat →
  within_a_month (now (ws_reads s)) s → ∃ s', LoadCACertificates s = (inl tt, s').
Proof.
  intros Hk Hc [data Hs] Hn Ht. set (t0 := now (ws_reads s)) in *. unfold LoadCACertificates. w_run.
  destruct (wm_conflictAttempts (ws_wm s)) as [|[|[|n]]]; [lia..|].
  destruct (load_round_calm t0 s data) as (b1 & s1 & E1 & Hr1 & Hb1); [done..| |]. { intros; apply Ht; lia. }
  destruct b1; [|exists s1; by apply attempts_loop_one]. erewrite attempts_loop_again by done.
  destruct (Hb1 eq_refl) as (data1 & Hs1 & Hf1 & Hf2 & Hnew).
  pose proof (keeping_load _ _ _ E1) as (_ & _ & _ & _ & _ & Hc1 & Hm1).
  destruct (load_round_calm t0 s1 data1) as (b2 & s2 & E2 & Hr2 & Hb2); [done|by eapply calm_later|done| |].
  { intros; apply Ht; lia. }
  destruct b2; [|exists s2; by apply attempts_loop_one]. erewrite attempts_loop_again by done.
  destruct (Hb2 eq_refl) as (data2 & Hs2 & Hg1 & Hg2 & Hnew2).
  pose proof (keeping_load _ _ _ E2) as (_ & _ & _ & _ & _ & Hc2 & Hm2).
  destruct (load_round_calm t0 s2 data2) as (b3 & s3 & E3 & Hr3 & Hb3); [done|eapply calm_later; [done|lia]|done| |].
  { intros; apply Ht; lia. }
  destruct b3; [|exists s3; by apply attempts_loop_one].
  destruct (Hb3 eq_refl) as (data3 & _ & _ & _ & Hnew3). exfalso. naive_solver.
Qed.

(** ** The server certificate *)

Definition dns_names (wm : webhookManagerImpl) : list string :=
  [wm_serviceName wm; ac_amServiceName (wm_conf wm) +:+ "." +:+ ac_namespace (wm_conf wm);
   ac_amServiceName (wm_conf wm) +:+ "." +:+ ac_namespace (wm_conf wm) +:+ ".svc"].

(** A pair is accepted when the chain starts with the certificate that was made
    with the key. *)
Definition accepts_pairs {TLS} (X509KeyPair : string → string → TLS + string) : Prop :=
  ∀ n tm signer signerKey cert key rest chain keyPem,
    generateCert n tm signer signerKey = inl (cert, key) → EncodeCertChainPem (cert :: rest) = inl chain →
    EncodePrivateKeyPem key = inl keyPem → ∃ tls, X509KeyPair chain keyPem = inl tls.

Lemma GenerateServerCertificate_ok {TLS} (X : string → string → TLS + string) s cert tls s' :
  GenerateServerCertificate X s = (inl (cert, tls), s') →
  s' = read_more 1 s ∧ cert_DNSNames cert = dns_names (ws_wm s).
Proof.
  unfold GenerateServerCertificate. w_run. intros E. apply w_bind_ok in E as ([ca key] & s1 & E1 & E).
  destruct (getBestCACertificate (ws_wm s)) as [best|] in E1; [|done]. injection E1 as -> <-.
  cbn zeta in E. apply w_bind_ok in E as (n & s1 & [= <- <-] & E). apply w_bind_ok in E as ([c k] & s2 & E2 & E).
  destruct (pki_GenerateServerCertificate _ _ _ _ _ _ _) as [cp|] eqn:Eg in E2; [|done]. injection E2 as -> <-.
  apply w_bind_ok in E as (chain & s3 & E3 & E). destruct (EncodeCertChainPem _) in E3; [|done]. injection E3 as <- <-.
  destruct (EncodePrivateKeyPem k); [|done]. rewrite bind_ret in E.
  apply w_bind_ok in E as (pr & s4 & E4 & E). destruct (X _ _) in E4; [|done]. injection E4 as <- <-.
  injection E as <- <- <-. apply generateCert_spec in Eg as [_ Hd].
  split; [unfold read_more; by rewrite Nat.add_1_r|done].
Qed.

Lemma GenerateServerCertificate_works {TLS} (X : string → string → TLS + string) s t :
  keys_can_be_made → accepts_pairs X → valid_until (ws_wm s) t →
  ∃ r, GenerateServerCertificate X s = (inl r, read_more 1 s).
Proof.
  intros Hk HX (c1 & k1 & c2 & k2 & Hc1 & Hk1 & Hc2 & Hk2 & _).
  unfold GenerateServerCertificate. w_run.
  assert (∃ ca key, getBestCACertificate (ws_wm s) = inl (ca, Some key)) as (ca & key & ->).
  { unfold getBestCACertificate. rewrite Hc1, Hc2, Hk1, Hk2. destruct (_ <? _); eauto. }
  w_run. cbn zeta. unfold w_bind at 1, reading.
  destruct (Hk (ws_reads s)) as (pk & Hg & Hcr).
  match goal with |- context [pki_GenerateServerCertificate ?n ?t ?e ?cn ?dns ?ca ?key] =>
    destruct (Hcr (mkTemplate cn [YunikornOrg] dns (serialNumber (t * 1000000000)) (t - 300) e false) ca
      (match key with Some k => k | None => pk end)) as (raw & Hraw);
    destruct (create_parses _ _ _ _ _ _ Hraw) as (cert & Hp & _);
    assert (Hgen : pki_GenerateServerCertificate n t e cn dns ca key = inl (cert, pk))
      by (unfold pki_GenerateServerCertificate, generateCert; by rewrite Hg, Hraw, Hp)
  end.
  rewrite Hgen. w_run. destruct (cert_chain_roundtrip [cert; ca]) as (chain & Hchain & _). rewrite Hchain. w_run.
  destruct (private_key_pem_roundtrip pk) as (kp & Hkp & _). rewrite Hkp. w_run.
  destruct (HX _ _ _ _ _ _ _ _ _ Hgen Hchain Hkp) as (tls & Htls). rewrite Htls. w_run.
  eexists. unfold w_ret, read_more. by rewrite Nat.add_1_r.
Qed.

(** The name of the first entry should be the name of the service: the field that
    is read is never set. *)
Theorem server_certificate_lacks_service_name {TLS} (X : string → string → TLS + string) conf secret v m calls reads
    cert tls s' :
  GenerateServerCertificate X (mkWState (newWebhookManagerImpl conf) secret v m calls reads) = (inl (cert, tls), s') →
  ac_amServiceName conf ≠ "" → ac_amServiceName conf ∉ cert_DNSNames cert.
Proof.
  intros [_ ->]%GenerateServerCertificate_ok Hne. unfold dns_names. cbn [ws_wm newWebhookManagerImpl wm_serviceName wm_conf].
  assert (Happ : ∀ t, ac_amServiceName conf ≠ ac_amServiceName conf +:+ "." +:+ t).
  { clear Hne. intros t. induction (ac_amServiceName conf) as [|c n IH]; [done|]. rewrite string_app_cons. intros [= Hs]. by apply IH. }
  pose proof (Happ (ac_namespace conf)). pose proof (Happ (ac_namespace conf +:+ ".svc")).
  rewrite !not_elem_of_cons. split_and!; try done. apply not_elem_of_nil.
Qed.

(** ** The registration *)

Lemma or_fatal_ok {A} (c : W A) s a s' : or_fatal c s = (inl a, s') → c s = (inl a, s').
Proof. unfold or_fatal. destruct (c s) as [[|[]] ?]; by intros [=]; subst. Qed.

Lemma or_fatal_run {A} (c : W A) s a s' : c s = (inl a, s') → or_fatal c s = (inl a, s').
Proof. unfold or_fatal. by intros ->. Qed.

(** The webhook sends the requests for [resources] to [path] of the service, and
    trusts [pem]. *)
Definition sends (wm : webhookManagerImpl) (pem name path : string) (groups resources : list string)
    (webhook : option WebhookConfiguration) : Prop :=
  ∃ h versions, webhook = Some h ∧ wc_Webhooks h =
    [mkAdmissionWebhook name
       (Some (mkServiceReference (ac_amServiceName (wm_conf wm)) (ac_namespace (wm_conf wm)) (Some path)))
       pem [mkRule ["CREATE"; "UPDATE"] groups ["v1"] resources] (Some "Ignore") versions (Some "None")].

(** C18: Whatever errors the API server answers with, a registration that succeeds
    is complete: the manager has two CA certificates that are valid for 89 days,
    both webhooks send their requests to the service of the controller and trust
    exactly these two certificates, and the server certificate is for the name
    under which the service is called. *)
Theorem registration_is_complete {TLS} (X : string → string → TLS + string) s cert tls s' :
  UpdateWebhookConfiguration X s = (inl (cert, tls), s') →
  valid_until (ws_wm s') (now (ws_reads s) + 89 * day) ∧
  (∃ c1 c2 pem,
    wm_caCert1 (ws_wm s') = Some c1 ∧ wm_caCert2 (ws_wm s') = Some c2 ∧
    DecodeCertChainPem 3 pem = Some (inl [c1; c2]) ∧
    sends (ws_wm s) pem validateConfHook "/validate-conf" [""] ["configmaps"] (ws_validating s') ∧
    sends (ws_wm s) pem mutatePodsWebhook "/mutate" [""; "apps"; "batch"]
      ["pods"; "deployments"; "replicasets"; "statefulsets"; "daemonsets"; "jobs"; "cronjobs"] (ws_mutating s')) ∧
  (ac_amServiceName (wm_conf (ws_wm s)) +:+ "." +:+ ac_namespace (wm_conf (ws_wm s)) +:+ ".svc") ∈ cert_DNSNames cert.
Proof.
  unfold UpdateWebhookConfiguration. intros E. apply w_bind_ok in E as ([] & s1 & E1%or_fatal_ok & E).
  apply LoadCACertificates_ok in E1 as ((Hconf & _) & Hv). apply w_bind_ok in E as ([c t] & s2 & E2%or_fatal_ok & E).
  apply GenerateServerCertificate_ok in E2 as (-> & Hdns). apply w_bind_ok in E as ([] & s3 & E3%or_fatal_ok & E).
  injection E as <- <- <-. apply InstallWebhooks_ok in E3 as (Hwm & Hreg & pem & Hpem). cbn in Hwm. rewrite <- Hwm in *.
  split; [done|]. split; [|rewrite Hdns; unfold dns_names; rewrite <- Hconf; set_solver].
  pose proof Hpem as Hpem'. unfold encodeCaBundle in Hpem'.
  destruct (wm_caCert1 (ws_wm s3)) as [c1|], (wm_caCert2 (ws_wm s3)) as [c2|]; try done.
  destruct (cert_chain_roundtrip [c1; c2]) as (pem' & Ep & Hd). exists c1, c2, pem. split_and!; try done.
  - replace pem with pem' by congruence. exact Hd.
  - destruct (Hreg Validating) as (h & Hh & Hok). eapply checkWebhook_ok in Hok as (vs & Hw); [|exact Hpem].
    rewrite Hconf in Hw. by exists h, vs.
  - destruct (Hreg Mutating) as (h & Hh & Hok). eapply checkWebhook_ok in Hok as (vs & Hw); [|exact Hpem].
    rewrite Hconf in Hw. by exists h, vs.
Qed.


End WebhookThms.

(** ** A reference instance

    PEM blocks are texts that start with the lengths of their parts, certificates
    are the bits of their fields, and there is one key. *)

Definition zero : Ascii.ascii := Ascii.ascii_of_N 48.
Definition one : Ascii.ascii := Ascii.ascii_of_N 49.

Fixpoint ones (n : nat) : string := match n with 0%nat => "0" | S n' => String one (ones n') end.

Fixpoint count_ones (s : string) : option (nat * string) :=
  match s with
  | "" => None
  | String c s' =>
      if bool_decide (c = one) then
        match count_ones s' with Some (n, rest) => Some (S n, rest) | None => None end
      else Some (0%nat, s')
  end.

Fixpoint string_split (n : nat) (s : string) : string * string :=
  match n, s with
  | S n', String c s' => let '(a, b) := string_split n' s' in (String c a, b)
  | _, _ => ("", s)
  end.

Definition frame (s : string) : string := ones (String.length s) +:+ s.
Definition unframe (s : string) : option (string * string) :=
  match count_ones s with Some (n, rest) => Some (string_split n rest) | None => None end.

Lemma count_ones_ones n rest : count_ones (ones n +:+ rest) = Some (n, rest).
Proof. induction n as [|n IH]; [done|]. cbn [ones]. rewrite string_app_cons. cbn [count_ones]. by rewrite IH. Qed.

Lemma string_split_app s rest : string_split (String.length s) (s +:+ rest) = (s, rest).
Proof.
  induction s as [|c s IH]; [done|]. rewrite string_app_cons. cbn [String.length string_split]. by rewrite IH.
Qed.

Lemma string_app_assoc (s t u : string) : (s +:+ t) +:+ u = s +:+ (t +:+ u).
Proof. induction s as [|c s IH]; [done|]. rewrite !string_app_cons. by rewrite IH. Qed.

Lemma unframe_frame s rest : unframe (frame s +:+ rest) = Some (s, rest).
Proof.
  unfold unframe, frame. rewrite string_app_assoc. rewrite count_ones_ones. by rewrite string_split_app.
Qed.

Fixpoint pos_bits (p : positive) : string :=
  match p with xH => "" | xO p => String zero (pos_bits p) | xI p => String one (pos_bits p) end.
Fixpoint bits_pos (s : string) : positive :=
  match s with "" => xH | String c s => if bool_decide (c = zero) then xO (bits_pos s) else xI (bits_pos s) end.

Lemma bits_pos_bits p : bits_pos (pos_bits p) = p.
Proof. by induction p as [p IH|p IH|]; cbn; [rewrite IH..|]. Qed.

Definition raw_fields (raw : string) : option (Z * list string) := decode (bits_pos raw).

#[local] Instance crypto_ref : Crypto := {|
  Certificate := string;
  PrivateKey := unit;
  cert_Raw := id;
  cert_NotAfter raw := match raw_fields raw with Some (t, _) => t | None => 0 end;
  cert_DNSNames raw := match raw_fields raw with Some (_, names) => names | None => [] end;
  rsa_GenerateKey _ := inl tt;
  x509_CreateCertificate _ tm _ _ _ := inl (pos_bits (encode (tm_NotAfter tm, tm_DNSNames tm)));
  x509_ParseCertificate := inl;
  x509_MarshalPKCS1PrivateKey _ := "";
  x509_ParsePKCS1PrivateKey _ := inl tt;
  pem_Encode ty bytes := inl (frame ty +:+ frame bytes);
  pem_Decode s :=
    match unframe s with
    | Some (ty, s') => match unframe s' with Some (bytes, rest) => (Some (ty, bytes), rest) | None => (None, s) end
    | None => (None, s)
    end
|}.

#[local] Instance crypto_ref_laws : CryptoLaws.
Proof.
  split.
  - intros ty bytes. eexists. split; [done|]. intros rest. cbn. rewrite string_app_assoc.
    by rewrite unframe_frame, unframe_frame.
  - done.
  - done.
  - by intros [].
  - intros n tm signer pub key raw [= <-]. eexists. split; [done|]. cbn. unfold raw_fields.
    by rewrite bits_pos_bits, decode_encode.
Qed.

(** The API server answers one update with a conflict. *)
#[local] Instance webhook_env_ref : WebhookEnv := {|
  now n := Z.of_nat n;
  AddDate t years months days := t + years * 365 * day + months * 30 * day + days * day;
  fault n := if bool_decide (n = 1%nat) then Some Conflict else None
|}.

#[local] Instance webhook_env_ref_laws : WebhookEnvLaws.
Proof. split; cbn; unfold day; intros; lia. Qed.

#[local] Instance no_regexps : Regexps := {| Regexp := unit; regexp_Compile _ := None; MatchString _ _ := false |}.

Definition demo_conf : AdmissionControllerConf :=
  mkAdmissionConf "yunikorn" "" true "queues" "adm-svc" "sched:9080" [] [] [] [] false false true [] [] [] [] None.

(** The start: there is no certificate and no webhook. *)
Definition start_state (calls : nat) : WState :=
  mkWState (newWebhookManagerImpl demo_conf) (Some ∅) None None calls 0.

Definition demo_pair (chain key : string) : unit + string := inl tt.
Definition demo_registration := Eval vm_compute in UpdateWebhookConfiguration demo_pair (start_state 0).

Lemma registration_is_complete_witness :
  ∃ cert s', demo_registration = (inl (cert, tt), s') ∧ valid_until (ws_wm s') (now 0 + 89 * day).
Proof.
  destruct demo_registration as [[[cert []]|] s'] eqn:E; [|exfalso; vm_compute in E; discriminate].
  exists cert, s'. split; [done|].
  apply (registration_is_complete demo_pair (start_state 0) cert tt s'). rewrite <- E. by vm_compute.
Defined.

