(* ===== verification/AdmissionMain.v ===== *)
(** * The process of the admission controller

    [main] of pkg/cmd/admissioncontroller/main.go once the caches are there, and
    pkg/admission/informers.go: the web server, its restart with a new certificate
    when the old one is about to expire, and the signals.  A step is one move of
    the main goroutine, of a server goroutine, of a goroutine that waits for the
    expiration, or of the operating system. *)

From S2P Require Import Prelude.
From S2P Require Import GoStrings.
From S2P Require Import K8sApi.
From S2P Require Import AdmissionConf.
From S2P Require Import Pki.
From S2P Require Import Webhook.

(** ** The informers *)

Section Informers.
Inductive AdmissionInformer := ConfigMapInformer | PriorityClassInformer | NamespaceInformer.

Record Informers := mkInformers { in_running : list AdmissionInformer; in_closed : bool }.

Definition NewInformers : Informers := mkInformers [] false.

Context (HasSynced : nat → AdmissionInformer → bool).

Fixpoint waitForSync (fuel counter : nat) : option nat :=
  match fuel with
  | 0 => None
  | S fuel' =>
      if HasSynced counter ConfigMapInformer && HasSynced counter PriorityClassInformer &&
         HasSynced counter NamespaceInformer
      then Some counter else waitForSync fuel' (S counter)
  end.

Definition Informers_Start (fuel : nat) (i : Informers) : option Informers :=
  _ ← waitForSync fuel 0;
  Some (mkInformers (in_running i ++ [ConfigMapInformer; PriorityClassInformer; NamespaceInformer]) (in_closed i)).

(** Closing a closed channel panics. *)
Definition Informers_Stop (i : Informers) : option Informers :=
  if in_closed i then None else Some (mkInformers [] true).
End Informers.

(** ** The web server *)

Section Main.
Context `{RX : Regexps} `{CR : Crypto} `{WE : WebhookEnv} {TLS : Type}.
Context (X509KeyPair : string → string → TLS + string).

Inductive ServerStatus := Created | Listening | Closed.

Record HttpServer := mkHttpServer { hs_certs : TLS; hs_status : ServerStatus }.

(** The servers made so far, the current one ([wh.server]), and the goroutines of
    [Startup] that have not read it yet. *)
Record WebHook := mkWebHook {
  wh_server : option nat;
  wh_servers : list HttpServer;
  wh_starting : nat
}.

Definition CreateWebhook : WebHook := mkWebHook None [] 0.

Definition Startup (certs : TLS) (wh : WebHook) : WebHook :=
  mkWebHook (Some (length (wh_servers wh))) (wh_servers wh ++ [mkHttpServer certs Created])
    (S (wh_starting wh)).

Definition Shutdown (wh : WebHook) : WebHook :=
  match wh_server wh with
  | Some i =>
      mkWebHook None (alter (λ s, mkHttpServer (hs_certs s) Closed) i (wh_servers wh)) (wh_starting wh)
  | None => wh
  end.

Inductive Crash := NilServer | AddressInUse | ClosedChannel | Failed (e : Failure).

(** The goroutine of [Startup] reads [wh.server] and listens; a server that was
    shut down returns at once, and a second listener on the port fails. *)
Definition listen (wh : WebHook) : WebHook + Crash :=
  let started servers := mkWebHook (wh_server wh) servers (pred (wh_starting wh)) in
  match wh_server wh with
  | None => inr NilServer
  | Some i =>
      match wh_servers wh !! i with
      | Some (mkHttpServer certs Created) =>
          inl (started (<[i := mkHttpServer certs Listening]> (wh_servers wh)))
      | Some (mkHttpServer _ Listening) => inr AddressInUse
      | _ => inl (started (wh_servers wh))
      end
  end.

(** ** The main loop *)

(** What is in the signal channel: a renewal, [SIGUSR1] sent by somebody else, or
    a signal to terminate. *)
Inductive Signal := Renewal | User1 | Terminate.

Inductive Status := Running | Exited | Crashed (c : Crash).

Record Main := mkMain {
  am_ws : WState;                            (* the webhook manager and the API server *)
  am_informers : Informers;
  am_wh : WebHook;
  am_chan : option Signal;                   (* room for one *)
  am_waiters : list Z;                       (* when WaitForCertificateExpiration returns *)
  am_sending : nat;                          (* goroutines that wait for room in the channel *)
  am_now : Z;
  am_status : Status;
  am_certs : list TLS;                       (* history: the certificates in use *)
  am_manual : nat                            (* history: reloads by [User1] *)
}.

(** [UpdateWebhookConfiguration], then [Startup] after [stop], and
    [WaitForCertExpiration]. *)
Definition serve (stop : WebHook → WebHook) (m : Main) : Main :=
  match UpdateWebhookConfiguration X509KeyPair (am_ws m) with
  | (inl (_, certs), ws) =>
      mkMain ws (am_informers m) (Startup certs (stop (am_wh m))) None (am_waiters m ++ [renewTime (ws_wm ws)])
        (am_sending m) (am_now m) (am_status m) (am_certs m ++ [certs]) (am_manual m)
  | (inr e, ws) =>
      mkMain ws (am_informers m) (am_wh m) None (am_waiters m) (am_sending m) (am_now m) (Crashed (Failed e))
        (am_certs m) (am_manual m)
  end.

(** The start: the informers run already. *)
Definition main_start (ws : WState) (informers : Informers) (time : Z) : Main :=
  serve id (mkMain ws informers CreateWebhook None [] 0 time Running [] 0).

Definition with_status (st : Status) (m : Main) : Main :=
  mkMain (am_ws m) (am_informers m) (am_wh m) None (am_waiters m) (am_sending m) (am_now m) st
    (am_certs m) (am_manual m).
Definition with_wh (wh : WebHook) (m : Main) : Main :=
  mkMain (am_ws m) (am_informers m) wh (am_chan m) (am_waiters m) (am_sending m) (am_now m)
    (am_status m) (am_certs m) (am_manual m).
Definition with_waiters (chan : option Signal) (waiters : list Z) (sending : nat) (m : Main) : Main :=
  mkMain (am_ws m) (am_informers m) (am_wh m) chan waiters sending (am_now m) (am_status m)
    (am_certs m) (am_manual m).
Definition with_manual (n : nat) (m : Main) : Main :=
  mkMain (am_ws m) (am_informers m) (am_wh m) (am_chan m) (am_waiters m) (am_sending m) (am_now m)
    (am_status m) (am_certs m) n.

(** A signal is received: a reload shuts the server down when the new
    certificate is there, and starts another. *)
Definition handle_signal (sig : Signal) (m : Main) : Main :=
  match sig with
  | Terminate =>
      match Informers_Stop (am_informers m) with
      | Some i => with_status Exited (with_wh (Shutdown (am_wh m))
          (mkMain (am_ws m) i (am_wh m) None (am_waiters m) (am_sending m) (am_now m) (am_status m)
             (am_certs m) (am_manual m)))
      | None => with_status (Crashed ClosedChannel) m
      end
  | Renewal => serve Shutdown m
  | User1 => with_manual (S (am_manual m)) (serve Shutdown m)
  end.

(** With [prompt], signals are handled when the goroutine of the last [Startup]
    has come to listen. *)
Inductive main_step (prompt : bool) : Main → Main → Prop :=
  | ms_signal m sig :
      am_status m = Running → am_chan m = Some sig → (prompt = true → wh_starting (am_wh m) = 0) →
      main_step prompt m (handle_signal sig m)
  | ms_listen m wh :
      am_status m = Running → 0 < wh_starting (am_wh m) → listen (am_wh m) = inl wh → main_step prompt m (with_wh wh m)
  | ms_crash m c :
      am_status m = Running → 0 < wh_starting (am_wh m) → listen (am_wh m) = inr c →
      main_step prompt m (with_status (Crashed c) m)
  | ms_expire m i t :
      am_waiters m !! i = Some t → (t <= am_now m)%Z →
      main_step prompt m (with_waiters (am_chan m) (delete i (am_waiters m)) (S (am_sending m)) m)
  | ms_send m n :
      am_chan m = None → am_sending m = S n →
      main_step prompt m (with_waiters (Some Renewal) (am_waiters m) n m)
  | ms_notify m sig :
      (* a signal that finds the channel full is dropped *)
      sig ≠ Renewal → am_chan m = None → main_step prompt m (with_waiters (Some sig) (am_waiters m) (am_sending m) m)
  | ms_tick m n : (0 <= n)%Z →
      main_step prompt m (mkMain (am_ws m) (am_informers m) (am_wh m) (am_chan m) (am_waiters m) (am_sending m)
        (am_now m + n) (am_status m) (am_certs m) (am_manual m)).

(** ** Renewals *)

(** The goroutines that will ask for a renewal. *)
Definition timers (m : Main) : nat :=
  length (am_waiters m) + am_sending m + match am_chan m with Some Renewal => 1 | _ => 0 end.

Definition timers_ok (m : Main) : Prop := am_status m = Running → timers m = S (am_manual m).

Lemma serve_timers stop m :
  am_status (serve stop m) = Running →
  am_status m = Running ∧ timers (serve stop m) = S (length (am_waiters m) + am_sending m) ∧
  am_manual (serve stop m) = am_manual m.
Proof.
  unfold serve. destruct (UpdateWebhookConfiguration _ _) as [[[cert certs]|e] ws]; [|done].
  simpl. intros Hs. split_and!; [done| |done]. unfold timers. simpl. rewrite length_app. simpl. lia.
Qed.

Lemma timers_ok_step prompt m m' : main_step prompt m m' → timers_ok m → timers_ok m'.
Proof.
  unfold timers_ok.
  destruct 1 as [m sig Hr Hc _|m wh Hr Hs Hl|m c Hr Hs Hl|m i t Hi Ht|m n Hc Hn|m sig Hs Hc|m n Hn];
    intros Hok Hs'; try done; try by apply Hok.
  - specialize (Hok Hr). unfold timers in Hok. rewrite Hc in Hok. destruct sig; simpl in Hs'.
    + destruct (serve_timers Shutdown m Hs') as (_ & Ht & Hm). cbn [handle_signal]. rewrite Ht, Hm. lia.
    + destruct (serve_timers Shutdown m Hs') as (_ & Ht & Hm). cbn [handle_signal].
      change (timers (with_manual _ ?x)) with (timers x). rewrite Ht. simpl. lia.
    + by destruct (Informers_Stop _).
  - specialize (Hok Hs'). unfold timers in *. simpl. rewrite length_delete by eauto.
    apply lookup_lt_Some in Hi. lia.
  - specialize (Hok Hs'). unfold timers in *. rewrite Hc in Hok. simpl. lia.
  - specialize (Hok Hs'). unfold timers in *. rewrite Hc in Hok. destruct sig; [done|simpl; lia..].
Qed.

(** The number of goroutines that ask for renewals is one more than the number of
    reloads that somebody else asked for: each [SIGUSR1] adds one for good. *)
Theorem manual_reloads_add_timers prompt ws informers time m :
  rtc (main_step prompt) (main_start ws informers time) m → am_status m = Running → timers m = S (am_manual m).
Proof.
  intros Hr. assert (Hok : timers_ok (main_start ws informers time)).
  { intros Hs. unfold main_start in *. destruct (serve_timers _ _ Hs) as (_ & -> & ->). done. }
  revert Hok. induction Hr as [|m1 m2 m3 Hstep _ IH]; [by auto|]. intros Hok. apply IH. by eapply timers_ok_step.
Qed.

(** ** The server that runs *)

(** One server has not been closed: the last one, with the last certificate. *)
Definition serving (m : Main) : Prop :=
  ∃ closed certs st,
    wh_servers (am_wh m) = closed ++ [mkHttpServer certs st] ∧ wh_server (am_wh m) = Some (length closed) ∧
    Forall (λ s, hs_status s = Closed) closed ∧ last (am_certs m) = Some certs ∧
    (wh_starting (am_wh m) = 1 ∧ st = Created ∨ wh_starting (am_wh m) = 0 ∧ st = Listening).

Definition serving_ok (m : Main) : Prop :=
  match am_status m with
  | Running => serving m
  | Exited => True
  | Crashed (Failed _) => True
  | Crashed _ => False
  end.

Lemma Shutdown_serving m :
  serving m → Forall (λ s, hs_status s = Closed) (wh_servers (Shutdown (am_wh m))) ∧
    wh_server (Shutdown (am_wh m)) = None ∧ wh_starting (Shutdown (am_wh m)) = wh_starting (am_wh m).
Proof.
  intros (closed & certs & st & Hs & Hi & Hc & _). unfold Shutdown. rewrite Hi. simpl. split_and!; [|done..].
  rewrite Hs, alter_app_r_alt by lia. rewrite Nat.sub_diag. simpl. apply Forall_app. split; [done|].
  by repeat constructor.
Qed.

Lemma serve_serving stop m :
  Forall (λ s, hs_status s = Closed) (wh_servers (stop (am_wh m))) → wh_starting (stop (am_wh m)) = 0 →
  am_status m = Running → serving_ok (serve stop m).
Proof.
  intros Hc Hs Hr. unfold serve, serving_ok.
  destruct (UpdateWebhookConfiguration _ _) as [[[cert certs]|e] ws]; [|done]. simpl. rewrite Hr.
  exists (wh_servers (stop (am_wh m))), certs, Created. simpl. rewrite last_snoc, Hs. split_and!; auto.
Qed.

Lemma listen_serving m : serving m → wh_starting (am_wh m) ≠ 0 →
  ∃ wh, listen (am_wh m) = inl wh ∧ serving (with_wh wh m).
Proof.
  intros (closed & certs & st & Hs & Hi & Hc & Hl & [[Hn ->]|[Hn ->]]) Hne; [|done].
  unfold listen. rewrite Hi, Hs, list_lookup_middle by done. eexists. split; [reflexivity|].
  exists closed, certs, Listening. simpl. rewrite Hn, insert_app_r_alt, Nat.sub_diag by lia. simpl. auto 8.
Qed.

Lemma serving_ok_step m m' :
  in_closed (am_informers m) = false → main_step true m m' → serving_ok m → serving_ok m'.
Proof.
  intros Hin. destruct 1 as [m sig Hr Hc Hp|m wh Hr Hs Hl|m c Hr Hs Hl|m i t Hi Ht|m n Hc Hn|m sig Hs Hc|m n Hn];
    intros Hok; try done.
  - unfold serving_ok in Hok. rewrite Hr in Hok. destruct (Shutdown_serving m Hok) as (Hcl & _ & Hst).
    rewrite (Hp eq_refl) in Hst. destruct sig; cbn [handle_signal].
    + by apply serve_serving.
    + by apply (serve_serving Shutdown m).
    + unfold Informers_Stop. by rewrite Hin.
  - unfold serving_ok in *. rewrite Hr in Hok. destruct (listen_serving m Hok ltac:(lia)) as (wh' & E & Hs').
    simpl. rewrite Hr. congruence.
  - unfold serving_ok in *. rewrite Hr in Hok. destruct (listen_serving m Hok ltac:(lia)) as (wh' & E & _). congruence.
Qed.

(** The informers stay open until the process ends. *)
Lemma informers_open prompt m m' :
  main_step prompt m m' → in_closed (am_informers m) = false → am_status m' ≠ Exited →
  in_closed (am_informers m') = false.
Proof.
  destruct 1 as [m sig| | | | | |]; try done. intros Hin. destruct sig; cbn [handle_signal].
  1-2: unfold serve; destruct (UpdateWebhookConfiguration _ _) as [[[]|] ?]; done.
  unfold Informers_Stop. rewrite Hin. done.
Qed.

(** Together: with prompt server goroutines the process crashes only when a new
    certificate cannot be made or registered, and as long as it runs, the one
    server that is not closed has the last certificate. *)
Theorem prompt_reloads_keep_serving ws informers time m :
  in_closed informers = false → rtc (main_step true) (main_start ws informers time) m → serving_ok m.
Proof.
  intros Hin Hr.
  enough (serving_ok m ∧ (am_status m = Running → in_closed (am_informers m) = false)) as [? _] by done.
  apply rtc_ind_r with (P := λ m, serving_ok m ∧ (am_status m = Running → in_closed (am_informers m) = false))
    in Hr; [done| |].
  - split; [apply serve_serving; by simpl|]. unfold main_start, serve.
    by destruct (UpdateWebhookConfiguration _ _) as [[[]|] ?].
  - intros m1 m2 _ Hstep [Hok Hopen]. destruct (am_status m1) eqn:E1.
    + specialize (Hopen eq_refl). split; [by eapply serving_ok_step|]. intros Hr2.
      eapply informers_open; [done..|]. by rewrite Hr2.
    + destruct Hstep; try congruence; unfold serving_ok in *; simpl in *; rewrite E1 in *; by split.
    + destruct Hstep; try congruence; unfold serving_ok in *; simpl in *; rewrite E1 in *; by split.
Qed.

(** Without promptness: a reload before the goroutine of the previous [Startup]
    has read the server leaves two goroutines for the new one, and the second one
    ends the process. *)
Theorem early_reload_crashes wh certs :
  0 < wh_starting wh →
  let wh1 := Startup certs (Shutdown wh) in
  ∃ wh2, listen wh1 = inl wh2 ∧ 0 < wh_starting wh2 ∧ listen wh2 = inr AddressInUse.
Proof.
  intros Hs wh1. set (n := length (wh_servers (Shutdown wh))).
  assert (Hl : wh_servers wh1 !! n = Some (mkHttpServer certs Created)) by by apply list_lookup_middle.
  exists (mkWebHook (Some n) (<[n := mkHttpServer certs Listening]> (wh_servers wh1)) (wh_starting (Shutdown wh))).
  split_and!.
  - unfold listen. cbv zeta. replace (wh_server wh1) with (Some n) by done. by rewrite Hl.
  - unfold Shutdown. by destruct (wh_server wh).
  - unfold listen. cbn [wh_server wh_servers]. rewrite list_lookup_insert_eq; [done|]. by eapply lookup_lt_Some.
Qed.

(** A process that ends before that goroutine has run reads a server that is gone. *)
Theorem early_shutdown_crashes wh : is_Some (wh_server wh) → listen (Shutdown wh) = inr NilServer.
Proof. intros [i Hi]. unfold Shutdown, listen. by rewrite Hi. Qed.

End Main.
