(* ===== verification/SchedulerCache.v ===== *)
(** * The scheduler cache: [pkg/cache/external/scheduler_cache.go]

    The cache of nodes and pods.  Its maps are finite maps; the node
    information objects, which the source shares by pointer and changes in
    place, live in [nodesMap] only, and the three lists of node information
    computed on demand are lists of node names ([None] is the nil that marks a
    list as stale).  Operations that can dereference a nil pointer return an
    [option]: [None] is the panic.  The order in which Go ranges over a map is
    the class [MapOrder], any permutation of the entries. *)

From S2P Require Import Prelude.
From S2P Require Import GoStrings.
From S2P Require Import K8sApi.
From S2P Require Import K8sInstances.
From S2P Require Import Constants.
From S2P Require Import PodUtils.

(** ** State *)

Record SchedulerCache := mkSchedulerCache {
  nodesMap : gmap string NodeInfo;
  podsMap : gmap string Pod;
  pcMap : gmap string PriorityClass;
  assignedPods : gmap string string;
  assumedPods : gmap string bool;
  orphanedPods : gmap string Pod;
  pvcRefCounts : gmap string (gmap string Z);
  nodesInfo : option (list string);
  nodesInfoPodsWithAffinity : option (list string);
  nodesInfoPodsWithReqAntiAffinity : option (list string)
}.

Definition NewSchedulerCache : SchedulerCache :=
  mkSchedulerCache ∅ ∅ ∅ ∅ ∅ ∅ ∅ None None None.

(** Assignments to one field of the cache. *)
Definition set_nodesMap (f : gmap string NodeInfo → gmap string NodeInfo) (c : SchedulerCache) :=
  mkSchedulerCache (f (nodesMap c)) (podsMap c) (pcMap c) (assignedPods c) (assumedPods c)
    (orphanedPods c) (pvcRefCounts c) (nodesInfo c) (nodesInfoPodsWithAffinity c)
    (nodesInfoPodsWithReqAntiAffinity c).
Definition set_podsMap (f : gmap string Pod → gmap string Pod) (c : SchedulerCache) :=
  mkSchedulerCache (nodesMap c) (f (podsMap c)) (pcMap c) (assignedPods c) (assumedPods c)
    (orphanedPods c) (pvcRefCounts c) (nodesInfo c) (nodesInfoPodsWithAffinity c)
    (nodesInfoPodsWithReqAntiAffinity c).
Definition set_pcMap (f : gmap string PriorityClass → gmap string PriorityClass)
    (c : SchedulerCache) :=
  mkSchedulerCache (nodesMap c) (podsMap c) (f (pcMap c)) (assignedPods c) (assumedPods c)
    (orphanedPods c) (pvcRefCounts c) (nodesInfo c) (nodesInfoPodsWithAffinity c)
    (nodesInfoPodsWithReqAntiAffinity c).
Definition set_assignedPods (f : gmap string string → gmap string string) (c : SchedulerCache) :=
  mkSchedulerCache (nodesMap c) (podsMap c) (pcMap c) (f (assignedPods c)) (assumedPods c)
    (orphanedPods c) (pvcRefCounts c) (nodesInfo c) (nodesInfoPodsWithAffinity c)
    (nodesInfoPodsWithReqAntiAffinity c).
Definition set_assumedPods (f : gmap string bool → gmap string bool) (c : SchedulerCache) :=
  mkSchedulerCache (nodesMap c) (podsMap c) (pcMap c) (assignedPods c) (f (assumedPods c))
    (orphanedPods c) (pvcRefCounts c) (nodesInfo c) (nodesInfoPodsWithAffinity c)
    (nodesInfoPodsWithReqAntiAffinity c).
Definition set_orphanedPods (f : gmap string Pod → gmap string Pod) (c : SchedulerCache) :=
  mkSchedulerCache (nodesMap c) (podsMap c) (pcMap c) (assignedPods c) (assumedPods c)
    (f (orphanedPods c)) (pvcRefCounts c) (nodesInfo c) (nodesInfoPodsWithAffinity c)
    (nodesInfoPodsWithReqAntiAffinity c).
Definition set_pvcRefCounts (f : gmap string (gmap string Z) → gmap string (gmap string Z))
    (c : SchedulerCache) :=
  mkSchedulerCache (nodesMap c) (podsMap c) (pcMap c) (assignedPods c) (assumedPods c)
    (orphanedPods c) (f (pvcRefCounts c)) (nodesInfo c) (nodesInfoPodsWithAffinity c)
    (nodesInfoPodsWithReqAntiAffinity c).
Definition set_nodesInfo (l : option (list string)) (c : SchedulerCache) :=
  mkSchedulerCache (nodesMap c) (podsMap c) (pcMap c) (assignedPods c) (assumedPods c)
    (orphanedPods c) (pvcRefCounts c) l (nodesInfoPodsWithAffinity c)
    (nodesInfoPodsWithReqAntiAffinity c).
Definition set_nodesInfoPodsWithAffinity (l : option (list string)) (c : SchedulerCache) :=
  mkSchedulerCache (nodesMap c) (podsMap c) (pcMap c) (assignedPods c) (assumedPods c)
    (orphanedPods c) (pvcRefCounts c) (nodesInfo c) l (nodesInfoPodsWithReqAntiAffinity c).
Definition set_nodesInfoPodsWithReqAntiAffinity (l : option (list string)) (c : SchedulerCache) :=
  mkSchedulerCache (nodesMap c) (podsMap c) (pcMap c) (assignedPods c) (assumedPods c)
    (orphanedPods c) (pvcRefCounts c) (nodesInfo c) (nodesInfoPodsWithAffinity c) l.

(** ** Queries *)

Definition GetNode (c : SchedulerCache) (name : string) : option NodeInfo := nodesMap c !! name.
Definition GetPriorityClass (c : SchedulerCache) (name : string) : option PriorityClass :=
  pcMap c !! name.
Definition GetPodNoLock (c : SchedulerCache) (uid : string) : option Pod := podsMap c !! uid.
Definition GetPod (c : SchedulerCache) (uid : string) : option Pod := GetPodNoLock c uid.
Definition isAssumedPod (c : SchedulerCache) (podKey : string) : bool :=
  bool_decide (is_Some (assumedPods c !! podKey)).
Definition ArePodVolumesAllBound (c : SchedulerCache) (podKey : string) : bool :=
  default false (assumedPods c !! podKey).
Definition IsPodOrphaned (c : SchedulerCache) (uid : string) : bool :=
  bool_decide (is_Some (orphanedPods c !! uid)).
Definition IsPVCUsedByPods (c : SchedulerCache) (key : string) : bool :=
  bool_decide (is_Some (pvcRefCounts c !! key)).
Definition GetNodeInfo (c : SchedulerCache) (nodeName : string) : option (option Node) :=
  ni_node <$> nodesMap c !! nodeName.

Section Cache.
Context `{NodeInfoOps} `{MapOrder}.

Definition GetNodesInfo (c : SchedulerCache) : list string * SchedulerCache :=
  match nodesInfo c with
  | Some l => (l, c)
  | None =>
      let nodeList := (go_range (nodesMap c)).*1 in
      (nodeList, set_nodesInfo (Some nodeList) c)
  end.

(** The names of the nodes with pods selected by [sel]. *)
Definition nodes_with (sel : NodeInfo → list Pod) (nodes : list (string * NodeInfo)) : list string :=
  (filter (λ nd : string * NodeInfo, (0 < length (sel nd.2))%nat) nodes).*1.

Definition GetNodesInfoPodsWithAffinity (c : SchedulerCache) : list string * SchedulerCache :=
  match nodesInfoPodsWithAffinity c with
  | Some l => (l, c)
  | None =>
      let nodeList := nodes_with ni_PodsWithAffinity (go_range (nodesMap c)) in
      (nodeList, set_nodesInfoPodsWithAffinity (Some nodeList) c)
  end.

Definition GetNodesInfoPodsWithReqAntiAffinity (c : SchedulerCache) :
    list string * SchedulerCache :=
  match nodesInfoPodsWithReqAntiAffinity c with
  | Some l => (l, c)
  | None =>
      let nodeList := nodes_with ni_PodsWithRequiredAntiAffinity (go_range (nodesMap c)) in
      (nodeList, set_nodesInfoPodsWithReqAntiAffinity (Some nodeList) c)
  end.

(** [List]; what a label selector matches is an argument. *)
Definition List (c : SchedulerCache) (matches : gmap string string → bool) : list Pod :=
  go_range (nodesMap c) ≫= λ nd,
    filter (λ pod, matches (pod_Labels pod)) (ni_Pods nd.2).

Definition nodePodCount (c : SchedulerCache) : nat :=
  foldl (λ result nd, result + length (ni_Pods nd.2)) 0 (go_range (nodesMap c)).

Definition podPhases (c : SchedulerCache) : gmap string Z :=
  foldl (λ result kp,
    let key := pod_Phase kp.2 in
    let count := match result !! key with Some count => count | None => 0%Z end in
    <[key := (count + 1)%Z]> result) ∅ (go_range (podsMap c)).

(** ** PVC reference counts

    [None] when the node information has no node: [node.Node().Name]. *)
Definition dropNodeCounts (nodeName : string) (v : gmap string Z) : option (gmap string Z) :=
  let v' := delete nodeName v in
  if bool_decide (v' = ∅) then None else Some v'.

Definition addNodeCount (nodeName : string) (k : string) (count : Z)
    (m : gmap string (gmap string Z)) : gmap string (gmap string Z) :=
  let entry := match m !! k with Some entry => entry | None => ∅ end in
  <[k := <[nodeName := count]> entry]> m.

Definition updatePVCRefCounts (node : option NodeInfo) (removeNode : bool) (c : SchedulerCache) :
    option SchedulerCache :=
  match node with
  | None => None
  | Some ni =>
      match ni_node ni with
      | None => None
      | Some nd =>
          let nodeName := node_Name nd in
          let counts := omap (dropNodeCounts nodeName) (pvcRefCounts c) in
          let counts :=
            if removeNode then counts
            else map_fold (addNodeCount nodeName) counts (ni_PVCRefCounts ni) in
          Some (set_pvcRefCounts (λ _, counts) c)
      end
  end.

(** Marks the lists of nodes with (anti-)affinity pods stale when [pod]
    belongs to them. *)
Definition invalidateAffinity (pod : Pod) (c : SchedulerCache) : SchedulerCache :=
  let c := if podWithAffinity pod then set_nodesInfoPodsWithAffinity None c else c in
  if podWithRequiredAntiAffinity pod then set_nodesInfoPodsWithReqAntiAffinity None c else c.

(** ** Pods *)

(** The first part of [updatePod]: the current version of the pod is taken
    out of the cache; the result is the pod to put back, which keeps the
    assignment of an assumed pod. *)
Definition detachPod (key : string) (currState pod : Pod) (c : SchedulerCache) :
    option (SchedulerCache * Pod) :=
  let c := set_orphanedPods (delete key) (set_podsMap (delete key) c) in
  '(c, pod) ←
    match assignedPods c !! key with
    | Some nodeName =>
        c ← match nodesMap c !! nodeName with
            | Some nodeInfo =>
                let nodeInfo := (RemovePod nodeInfo currState).1 in
                let c := set_nodesMap (insert nodeName nodeInfo) c in
                c ← updatePVCRefCounts (Some nodeInfo) false c;
                Some (invalidateAffinity pod c)
            | None => Some c
            end;
        let pod :=
          if (pod_NodeName pod =s "") && isAssumedPod c key
          then pod_with_NodeName pod nodeName else pod in
        Some (c, pod)
    | None => Some (c, pod)
    end;
  Some (set_assignedPods (delete key) c, pod).

(** The middle part: the pod is assigned to its node or marked as orphan. *)
Definition assignPod (key : string) (pod : Pod) (c : SchedulerCache) :
    option (SchedulerCache * bool) :=
  if IsAssignedPod pod && negb (IsPodTerminated pod) then
    match nodesMap c !! pod_NodeName pod with
    | None => Some (set_orphanedPods (insert key pod) c, false)
    | Some nodeInfo =>
        let nodeInfo := AddPod nodeInfo pod in
        let c := set_nodesMap (insert (pod_NodeName pod) nodeInfo) c in
        let c := set_assignedPods (insert key (pod_NodeName pod)) c in
        let c := invalidateAffinity pod c in
        c ← updatePVCRefCounts (Some nodeInfo) false c;
        Some (c, true)
    end
  else Some (c, true).

Definition updatePod (pod : Pod) (c : SchedulerCache) : option (SchedulerCache * bool) :=
  let key := pod_UID pod in
  '(c, pod) ←
    match podsMap c !! key with
    | Some currState => detachPod key currState pod c
    | None => Some (c, pod)
    end;
  let c :=
    if IsPodRunning pod || IsPodTerminated pod then set_assumedPods (delete key) c else c in
  '(c, result) ← assignPod key pod c;
  let c :=
    if negb (IsPodTerminated pod) then set_podsMap (insert key pod) c
    else set_orphanedPods (delete key) (set_assumedPods (delete key)
           (set_assignedPods (delete key) (set_podsMap (delete key) c))) in
  Some (c, result).

Definition removePod (pod : Pod) (c : SchedulerCache) : option SchedulerCache :=
  let key := pod_UID pod in
  c ← match assignedPods c !! key with
      | Some nodeName =>
          let '(nodeInfo, c) :=
            match nodesMap c !! nodeName with
            | Some nodeInfo =>
                let nodeInfo := (RemovePod nodeInfo pod).1 in
                (Some nodeInfo, set_nodesMap (insert nodeName nodeInfo) c)
            | None => (None, c)
            end in
          updatePVCRefCounts nodeInfo false c
      | None => Some c
      end;
  let c := set_orphanedPods (delete key) (set_assumedPods (delete key)
             (set_assignedPods (delete key) (set_podsMap (delete key) c))) in
  Some (set_nodesInfoPodsWithReqAntiAffinity None (set_nodesInfoPodsWithAffinity None c)).

Definition assumePod (pod : Pod) (allBound : bool) (c : SchedulerCache) : option SchedulerCache :=
  '(c, _) ← updatePod pod c;
  Some (set_assumedPods (insert (pod_UID pod) allBound) c).

Definition forgetPod (pod : Pod) (c : SchedulerCache) : option SchedulerCache :=
  let key := pod_UID pod in
  let revert := isAssumedPod c key && (pod_NodeName pod <>s "") in
  let c := set_assumedPods (delete key) c in
  let pod := if revert then pod_with_NodeName pod "" else pod in
  '(c, _) ← updatePod pod c;
  Some c.

(** ** Nodes *)

(** One round of the loop that adopts orphaned pods. *)
Definition adoptOrphan (nodeName : string) (acc : option (SchedulerCache * list Pod))
    (kp : string * Pod) : option (SchedulerCache * list Pod) :=
  '(c, adopted) ← acc;
  if pod_NodeName kp.2 =s nodeName then
    '(c, ok) ← updatePod kp.2 c;
    Some (c, if (ok : bool) then adopted ++ [kp.2] else adopted)
  else Some (c, adopted).

Definition updateNode (node : Node) (c : SchedulerCache) :
    option (SchedulerCache * option Node * list Pod) :=
  '(c, prevNode, adopted) ←
    match nodesMap c !! node_Name node with
    | None =>
        let c := set_nodesMap (insert (node_Name node) (SetNode NewNodeInfo node)) c in
        let c := set_nodesInfo None c in
        '(c, adopted) ← foldl (adoptOrphan (node_Name node)) (Some (c, [])) (go_range (orphanedPods c));
        Some (c, None, adopted)
    | Some nodeInfo =>
        Some (set_nodesMap (insert (node_Name node) (SetNode nodeInfo node)) c,
              ni_node nodeInfo, [])
    end;
  let c := set_nodesInfoPodsWithReqAntiAffinity None (set_nodesInfoPodsWithAffinity None c) in
  c ← updatePVCRefCounts (nodesMap c !! node_Name node) false c;
  Some (c, prevNode, adopted).

(** One round of the loop over the pods of a removed node. *)
Definition orphanPod (acc : SchedulerCache * list Pod) (pod : Pod) : SchedulerCache * list Pod :=
  let '(c, orphans) := acc in
  let key := pod_UID pod in
  let revert := isAssumedPod c key in
  let c := set_assumedPods (delete key) (set_assignedPods (delete key) c) in
  if revert then (set_podsMap (insert key (pod_with_NodeName pod "")) c, orphans)
  else (set_orphanedPods (insert key pod) c, orphans ++ [pod]).

Definition removeNode (node : Node) (c : SchedulerCache) :
    option (SchedulerCache * option Node * list Pod) :=
  match nodesMap c !! node_Name node with
  | None => Some (c, None, [])
  | Some nodeInfo =>
      let result := ni_node nodeInfo in
      let '(c, orphans) := foldl orphanPod (c, []) (ni_Pods nodeInfo) in
      let c := set_nodesMap (delete (node_Name node)) c in
      let c := set_nodesInfo None c in
      let c := set_nodesInfoPodsWithReqAntiAffinity None (set_nodesInfoPodsWithAffinity None c) in
      c ← updatePVCRefCounts (Some nodeInfo) true c;
      Some (c, result, orphans)
  end.

(** ** Priority classes *)

Definition updatePriorityClass (priorityClass : PriorityClass) (c : SchedulerCache) :
    SchedulerCache := set_pcMap (insert (pc_Name priorityClass) priorityClass) c.

Definition removePriorityClass (priorityClass : PriorityClass) (c : SchedulerCache) :
    SchedulerCache := set_pcMap (delete (pc_Name priorityClass)) c.

End Cache.
