(* ===== verification/SchedulerCacheInv.v ===== *)
(** * The invariant of the scheduler cache

    [wf] says what the maps of the cache hold: every derived map (assigned
    pods, orphans, pods per node, PVC counts, cached node lists) is determined
    by the nodes and the pods.  The operations are decomposed into the steps
    that take a pod out of the derived maps and put it back; each step is a
    lemma about [wf_parts], the invariant over the separate maps. *)

From S2P Require Import Prelude.
From S2P Require Import GoStrings.
From S2P Require Import K8sApi.
From S2P Require Import K8sInstances.
From S2P Require Import Constants.
From S2P Require Import PodUtils.
From S2P Require Import SchedulerCache.

(** ** Definitions *)

(** A pod that is on a node of the cache; the pods of [H] are not placed yet
    (they are being adopted by a new node). *)
Definition homed (H : gset string) (N : gmap string NodeInfo) (p : Pod) : Prop :=
  pod_NodeName p ≠ "" ∧ is_Some (N !! pod_NodeName p) ∧ pod_UID p ∉ H.

#[export] Instance homed_dec H N p : Decision (homed H N p).
Proof. unfold homed. solve_decision. Defined.

Definition assigned_to (H : gset string) (N : gmap string NodeInfo) (p : Pod) : option string :=
  if decide (homed H N p) then Some (pod_NodeName p) else None.

Definition orphan_of (H : gset string) (N : gmap string NodeInfo) (p : Pod) : option Pod :=
  if decide (pod_NodeName p ≠ "" ∧ ¬ homed H N p) then Some p else None.

(** For a PVC, the number of references on each node that has some. *)
Definition node_counts (N : gmap string NodeInfo) (key : string) : gmap string Z :=
  omap (λ ni, ni_PVCRefCounts ni !! key) N.

Definition nonempty_counts (m : gmap string Z) : option (gmap string Z) :=
  if decide (m = ∅) then None else Some m.

Definition pvc_ok (N : gmap string NodeInfo) (V : gmap string (gmap string Z)) : Prop :=
  ∀ key, V !! key = nonempty_counts (node_counts N key).

(** A cached list, when there is one, names the nodes that satisfy [P]. *)
Definition list_ok (P : NodeInfo → Prop) (N : gmap string NodeInfo) (l : option (list string)) : Prop :=
  ∀ l', l = Some l' → NoDup l' ∧ ∀ n, n ∈ l' ↔ ∃ ni, N !! n = Some ni ∧ P ni.

Record node_ok (H : gset string) (N : gmap string NodeInfo) (P : gmap string Pod)
    (n : string) (ni : NodeInfo) : Prop := {
  no_node : ∃ nd, ni_node ni = Some nd ∧ node_Name nd = n;
  no_nodup : NoDup (pod_UID <$> ni_Pods ni);
  no_pods p : p ∈ ni_Pods ni ↔ P !! pod_UID p = Some p ∧ pod_NodeName p = n ∧ homed H N p;
  no_consistent : ni_consistent ni
}.

Definition pod_ok (k : string) (p : Pod) : Prop :=
  pod_UID p = k ∧ k ≠ "" ∧ IsPodTerminated p = false.

Record wf_parts (H : gset string) (N : gmap string NodeInfo) (P : gmap string Pod)
    (A : gmap string string) (O : gmap string Pod) (V : gmap string (gmap string Z))
    (l1 l2 l3 : option (list string)) : Prop := {
  wf_pod k p : P !! k = Some p → pod_ok k p;
  wf_node n ni : N !! n = Some ni → node_ok H N P n ni;
  wf_assigned k : A !! k = P !! k ≫= assigned_to H N;
  wf_orphaned k : O !! k = P !! k ≫= orphan_of H N;
  wf_pvc : pvc_ok N V;
  wf_list : list_ok (λ _, True) N l1;
  wf_affinity : list_ok (λ ni, ni_PodsWithAffinity ni ≠ []) N l2;
  wf_anti : list_ok (λ ni, ni_PodsWithRequiredAntiAffinity ni ≠ []) N l3
}.

Definition wfG (H : gset string) (c : SchedulerCache) : Prop :=
  wf_parts H (nodesMap c) (podsMap c) (assignedPods c) (orphanedPods c) (pvcRefCounts c)
    (nodesInfo c) (nodesInfoPodsWithAffinity c) (nodesInfoPodsWithReqAntiAffinity c).

Definition assumed_ok (c : SchedulerCache) : Prop :=
  ∀ k, is_Some (assumedPods c !! k) → is_Some (podsMap c !! k).

Definition wf (c : SchedulerCache) : Prop := wfG ∅ c ∧ assumed_ok c.

(** What the informers guarantee of a pod handed to the cache: it has a UID,
    and the immutable fields of the cached version. *)
Definition pod_valid (c : SchedulerCache) (pod : Pod) : Prop :=
  pod_UID pod ≠ "" ∧
  ∀ cur, podsMap c !! pod_UID pod = Some cur → same_identity pod cur.

(** ** PVC counts *)

Section Invariant.
Context `{NIO : NodeInfoOps} `{NIL : !NodeInfoLaws}.

Lemma nonempty_counts_default m : default ∅ (nonempty_counts m) = m.
Proof. unfold nonempty_counts. by case_decide. Qed.

Lemma drop_nonempty n m :
  nonempty_counts m ≫= dropNodeCounts n = nonempty_counts (delete n m).
Proof.
  unfold nonempty_counts, dropNodeCounts. case_decide as Hm; simpl.
  - subst m. by rewrite delete_empty, decide_True.
  - by case_bool_decide; [rewrite decide_True|rewrite decide_False].
Qed.

Lemma node_counts_delete N n key : node_counts (delete n N) key = delete n (node_counts N key).
Proof. unfold node_counts. by rewrite omap_delete. Qed.

Lemma pvc_drop N V n :
  pvc_ok N V → pvc_ok (delete n N) (omap (dropNodeCounts n) V).
Proof.
  intros HV key. by rewrite lookup_omap, HV, drop_nonempty, node_counts_delete.
Qed.

Lemma pvc_add N V n ni :
  pvc_ok (delete n N) V →
  pvc_ok (<[n := ni]> N) (map_fold (addNodeCount n) V (ni_PVCRefCounts ni)).
Proof.
  intros HV key.
  rewrite (map_fold_pointwise _ (λ count o, Some (<[n := count]> (default ∅ o)))).
  - rewrite HV, nonempty_counts_default, node_counts_delete.
    unfold node_counts. destruct (ni_PVCRefCounts ni !! key) as [cnt|] eqn:E.
    + erewrite omap_insert_Some by exact E. unfold nonempty_counts.
      rewrite decide_False by apply insert_non_empty. by rewrite insert_delete_eq.
    + by rewrite omap_insert_None.
  - intros i a r. unfold addNodeCount. rewrite lookup_insert_eq. by destruct (r !! i).
  - intros i j a r Hij. unfold addNodeCount. by rewrite lookup_insert_ne.
Qed.

Lemma updatePVC_insert c N n ni nd :
  pvc_ok N (pvcRefCounts c) → ni_node ni = Some nd → node_Name nd = n →
  ∃ V, updatePVCRefCounts (Some ni) false c = Some (set_pvcRefCounts (λ _, V) c) ∧
       pvc_ok (<[n := ni]> N) V.
Proof.
  intros HV Hni <-. unfold updatePVCRefCounts. rewrite Hni.
  eexists. split; [done|]. by apply pvc_add, pvc_drop.
Qed.

Lemma updatePVC_remove c N n ni nd :
  pvc_ok N (pvcRefCounts c) → ni_node ni = Some nd → node_Name nd = n →
  ∃ V, updatePVCRefCounts (Some ni) true c = Some (set_pvcRefCounts (λ _, V) c) ∧
       pvc_ok (delete n N) V.
Proof.
  intros HV Hni <-. unfold updatePVCRefCounts. rewrite Hni.
  eexists. split; [done|]. by apply pvc_drop.
Qed.

(** ** Placement *)

Lemma homed_insert_same H N n ni p :
  is_Some (N !! n) → homed H (<[n := ni]> N) p ↔ homed H N p.
Proof.
  intros Hn. unfold homed. destruct (decide (n = pod_NodeName p)) as [->|Hne].
  - rewrite lookup_insert_eq. naive_solver.
  - by rewrite lookup_insert_ne.
Qed.

Lemma assigned_to_insert_same H N n ni p :
  is_Some (N !! n) → assigned_to H (<[n := ni]> N) p = assigned_to H N p.
Proof.
  intros Hn. unfold assigned_to. apply decide_ext. by apply homed_insert_same.
Qed.

Lemma orphan_of_insert_same H N n ni p :
  is_Some (N !! n) → orphan_of H (<[n := ni]> N) p = orphan_of H N p.
Proof.
  intros Hn. unfold orphan_of. apply decide_ext. by rewrite homed_insert_same.
Qed.

(** The maps derived from the pods, after one entry of the pods changed. *)
Lemma derived_delete {A} (f : Pod → option A) (P : gmap string Pod) (D : gmap string A) key k :
  (∀ k, D !! k = P !! k ≫= f) → delete key D !! k = delete key P !! k ≫= f.
Proof.
  intros HD. destruct (decide (key = k)) as [->|Hne].
  - by rewrite !lookup_delete_eq.
  - by rewrite !lookup_delete_ne.
Qed.

Lemma derived_insert {A} (f : Pod → option A) (P : gmap string Pod) (D : gmap string A) key p k :
  (∀ k, D !! k = P !! k ≫= f) → P !! key = None →
  match f p with Some x => <[key := x]> D | None => D end !! k = <[key := p]> P !! k ≫= f.
Proof.
  intros HD HP. destruct (decide (key = k)) as [->|Hne].
  - rewrite lookup_insert_eq. simpl.
    destruct (f p); [by rewrite lookup_insert_eq|]. by rewrite HD, HP.
  - rewrite (lookup_insert_ne P) by done.
    destruct (f p); [rewrite lookup_insert_ne by done|]; apply HD.
Qed.

Lemma derived_ext {A} (f g : Pod → option A) (P : gmap string Pod) (D : gmap string A) k :
  (∀ p, f p = g p) → (∀ k, D !! k = P !! k ≫= f) → D !! k = P !! k ≫= g.
Proof. intros Hfg HD. rewrite HD. destruct (P !! k); simpl; auto. Qed.

(** ** Cached lists *)

Lemma list_ok_None P N : list_ok P N None.
Proof. by intros l'. Qed.

Lemma list_ok_insert P N l n ni ni' :
  N !! n = Some ni → (P ni ↔ P ni') → list_ok P N l → list_ok P (<[n := ni']> N) l.
Proof.
  intros Hn HP Hl l' Hl'. destruct (Hl l' Hl') as [Hnd Hin]. split; [done|].
  intros m. rewrite Hin. destruct (decide (n = m)) as [<-|Hne].
  - rewrite lookup_insert_eq. naive_solver.
  - by rewrite lookup_insert_ne.
Qed.

(** A list of selected pods stays (non-)empty when a pod that is not selected
    comes or goes. *)
Lemma filter_remove_other (sel : Pod → bool) (l l' : list Pod) key :
  l' ≡ₚ filter (λ q, pod_UID q ≠ key) l →
  (∀ q, q ∈ l → pod_UID q = key → sel q = false) →
  filter sel l' ≡ₚ filter sel l.
Proof.
  intros -> Hsel. induction l as [|q l IH]; [done|].
  assert (Hl : filter sel (filter (λ q, pod_UID q ≠ key) l) ≡ₚ filter sel l).
  { apply IH. intros. apply Hsel; [by right|done]. }
  destruct (decide (pod_UID q = key)) as [Hk|Hk].
  - rewrite filter_cons_False by auto.
    rewrite filter_cons_False; [done|]. rewrite (Hsel q); [tauto|left|done].
  - rewrite filter_cons_True by done. rewrite !filter_cons. case_decide; by rewrite Hl.
Qed.

Lemma filter_add_other (sel : Pod → bool) (l : list Pod) p :
  sel p = false → filter sel (l ++ [p]) = filter sel l.
Proof.
  intros Hp. rewrite filter_app, filter_cons_False by (rewrite Hp; tauto).
  by rewrite filter_nil, app_nil_r.
Qed.

Lemma perm_nil_iff {A} (l l' : list A) : l ≡ₚ l' → (l ≠ [] ↔ l' ≠ []).
Proof.
  intros Hp. split; intros Hn Hl; subst; apply Hn.
  - by apply Permutation_nil_r in Hp.
  - by apply Permutation_nil_l in Hp.
Qed.

(** ** Taking a pod off its node *)

(** [q] is the version of the pod the node information is asked to drop. *)
Record drops (H : gset string) (N : gmap string NodeInfo) (P : gmap string Pod)
    (cur q : Pod) (ni : NodeInfo) : Prop := {
  dr_pod : P !! pod_UID cur = Some cur;
  dr_homed : homed H N cur;
  dr_node : N !! pod_NodeName cur = Some ni;
  dr_uid : pod_UID q = pod_UID cur;
  dr_nonempty : pod_UID q ≠ "";
  dr_same : same_identity q cur
}.

Lemma drops_in H N P cur q ni :
  drops H N P cur q ni → node_ok H N P (pod_NodeName cur) ni → cur ∈ ni_Pods ni.
Proof. intros [] []. apply no_pods0. done. Qed.

Lemma drops_Pods H N P cur q ni :
  drops H N P cur q ni → node_ok H N P (pod_NodeName cur) ni →
  ni_Pods (RemovePod ni q).1 ≡ₚ filter (λ p, pod_UID p ≠ pod_UID cur) (ni_Pods ni).
Proof.
  intros Hd Hn. pose proof (drops_in _ _ _ _ _ _ Hd Hn). destruct Hd, Hn.
  rewrite <- dr_uid0. eapply RemovePod_found; eauto.
Qed.

Lemma drops_node_ok H N P cur q ni :
  drops H N P cur q ni → node_ok H N P (pod_NodeName cur) ni →
  node_ok H (<[pod_NodeName cur := (RemovePod ni q).1]> N) (delete (pod_UID cur) P)
    (pod_NodeName cur) (RemovePod ni q).1.
Proof.
  intros Hd Hn. pose proof (drops_Pods _ _ _ _ _ _ Hd Hn) as Hp.
  pose proof (drops_in _ _ _ _ _ _ Hd Hn) as Hin. destruct Hd, Hn.
  assert (Hs : is_Some (N !! pod_NodeName cur)) by eauto. split.
  - by rewrite RemovePod_node.
  - rewrite Hp. eapply sublist_NoDup; [exact no_nodup0|].
    apply fmap_sublist, sublist_filter.
  - intros p. rewrite Hp, list_elem_of_filter, no_pods0, homed_insert_same by done.
    destruct (decide (pod_UID p = pod_UID cur)) as [->|Hne].
    + rewrite lookup_delete_eq. naive_solver.
    + rewrite lookup_delete_ne by done. naive_solver.
  - eapply RemovePod_consistent; eauto.
Qed.

(** The other nodes do not notice. *)
Lemma drops_other_node_ok H N P cur ni' m mi :
  P !! pod_UID cur = Some cur → is_Some (N !! pod_NodeName cur) → m ≠ pod_NodeName cur →
  node_ok H N P m mi →
  node_ok H (<[pod_NodeName cur := ni']> N) (delete (pod_UID cur) P) m mi.
Proof.
  intros HP Hs Hm []. split; try done. intros p. rewrite no_pods0, homed_insert_same by done.
  destruct (decide (pod_UID p = pod_UID cur)) as [Hu|Hne].
  - rewrite Hu, lookup_delete_eq. naive_solver.
  - by rewrite lookup_delete_ne.
Qed.

(** The affinity lists, when the dropped pod does not belong to them. *)
Lemma drops_list_ok H N P cur q ni (sel : Pod → bool) (f : NodeInfo → list Pod) l :
  drops H N P cur q ni → node_ok H N P (pod_NodeName cur) ni →
  (∀ ni, ni_consistent ni → f ni ≡ₚ filter sel (ni_Pods ni)) →
  sel cur = false →
  list_ok (λ ni, f ni ≠ []) N l →
  list_ok (λ ni, f ni ≠ []) (<[pod_NodeName cur := (RemovePod ni q).1]> N) l.
Proof.
  intros Hd Hn Hf Hsel. pose proof (drops_Pods _ _ _ _ _ _ Hd Hn) as Hp.
  pose proof (drops_node_ok _ _ _ _ _ _ Hd Hn) as Hn'.
  apply (list_ok_insert _ _ _ _ ni); [apply Hd|]. apply perm_nil_iff.
  rewrite (Hf ni) by apply Hn. rewrite (Hf (RemovePod ni q).1) by apply Hn'.
  symmetry. eapply filter_remove_other; [exact Hp|].
  intros q' Hq' Hu. apply Hn in Hq' as [Hq' _]. rewrite Hu, (dr_pod _ _ _ _ _ _ Hd) in Hq'.
  by simplify_eq.
Qed.

(** What [invalidateAffinity q] leaves of the affinity lists. *)
Definition keep_unless (b : bool) (l : option (list string)) : option (list string) :=
  if b then None else l.

Lemma wf_drop H N P A O V V' l1 l2 l3 cur q ni :
  wf_parts H N P A O V l1 l2 l3 → drops H N P cur q ni →
  pvc_ok (<[pod_NodeName cur := (RemovePod ni q).1]> N) V' →
  wf_parts H (<[pod_NodeName cur := (RemovePod ni q).1]> N) (delete (pod_UID cur) P)
    (delete (pod_UID cur) A) (delete (pod_UID cur) O) V' l1
    (keep_unless (podWithAffinity q) l2) (keep_unless (podWithRequiredAntiAffinity q) l3).
Proof.
  intros Hwf Hd HV. pose proof (wf_node _ _ _ _ _ _ _ _ _ Hwf _ _ (dr_node _ _ _ _ _ _ Hd)) as Hn.
  destruct Hwf. pose proof Hd as []. assert (Hs : is_Some (N !! pod_NodeName cur)) by eauto. split.
  - intros k p [_ Hp]%lookup_delete_Some. eauto.
  - intros m mi. destruct (decide (m = pod_NodeName cur)) as [->|Hm].
    + rewrite lookup_insert_eq. intros [= <-]. by apply drops_node_ok.
    + rewrite lookup_insert_ne by done. intros. apply drops_other_node_ok; eauto.
  - intros k. apply derived_delete. intros k'. eapply derived_ext; [|exact wf_assigned0].
    intros p. by rewrite assigned_to_insert_same.
  - intros k. apply derived_delete. intros k'. eapply derived_ext; [|exact wf_orphaned0].
    intros p. by rewrite orphan_of_insert_same.
  - done.
  - by apply (list_ok_insert _ _ _ _ ni).
  - destruct (podWithAffinity q) eqn:E; [apply list_ok_None|].
    apply (drops_list_ok H N P cur q ni podWithAffinity); try done; [by intros ? []|].
    by rewrite <- (same_identity_affinity q cur).
  - destruct (podWithRequiredAntiAffinity q) eqn:E; [apply list_ok_None|].
    apply (drops_list_ok H N P cur q ni podWithRequiredAntiAffinity); try done; [by intros ? []|].
    by rewrite <- (same_identity_anti_affinity q cur).
Qed.

(** A pod that is on no node only leaves the maps of pods. *)
Lemma wf_drop_unplaced H N P A O V l1 l2 l3 cur :
  wf_parts H N P A O V l1 l2 l3 → P !! pod_UID cur = Some cur → ¬ homed H N cur →
  wf_parts H N (delete (pod_UID cur) P) (delete (pod_UID cur) A) (delete (pod_UID cur) O) V l1 l2 l3.
Proof.
  intros [] HP Hh. split; try done.
  - intros k p [_ Hp]%lookup_delete_Some. eauto.
  - intros m mi Hm. destruct (wf_node0 m mi Hm). split; try done.
    intros p. rewrite no_pods0. destruct (decide (pod_UID p = pod_UID cur)) as [Hu|Hne].
    + rewrite Hu, lookup_delete_eq. naive_solver.
    + by rewrite lookup_delete_ne.
  - intros k. by apply derived_delete.
  - intros k. by apply derived_delete.
Qed.

(** ** Putting a pod on its node *)

(** A pod version that can enter the cache. *)
Record enters (H : gset string) (P : gmap string Pod) (p : Pod) : Prop := {
  en_fresh : P !! pod_UID p = None;
  en_placed : pod_UID p ∉ H;
  en_ok : pod_ok (pod_UID p) p
}.

Lemma homed_lookup H N p ni :
  pod_NodeName p ≠ "" → pod_UID p ∉ H → N !! pod_NodeName p = Some ni → homed H N p.
Proof. intros ? ? Hn. split_and!; eauto. Qed.

Lemma enters_node_ok H N P p ni :
  enters H P p → homed H N p → N !! pod_NodeName p = Some ni →
  node_ok H N P (pod_NodeName p) ni →
  node_ok H (<[pod_NodeName p := AddPod ni p]> N) (<[pod_UID p := p]> P)
    (pod_NodeName p) (AddPod ni p).
Proof.
  intros [Hf Hh Hok] Hhome HN []. assert (Hs : is_Some (N !! pod_NodeName p)) by eauto.
  assert (Hnew : ∀ q, q ∈ ni_Pods ni → pod_UID q ≠ pod_UID p).
  { intros q [Hq _]%no_pods0 Hu. rewrite Hu in Hq. congruence. }
  split.
  - by rewrite AddPod_node.
  - rewrite AddPod_Pods, fmap_app. apply NoDup_app. split_and!; [done| |apply NoDup_singleton].
    intros u (q & -> & Hq)%list_elem_of_fmap Hu%list_elem_of_singleton. by apply (Hnew q).
  - intros q. rewrite AddPod_Pods, elem_of_app, list_elem_of_singleton, no_pods0, homed_insert_same by done.
    destruct (decide (pod_UID q = pod_UID p)) as [Hu|Hne].
    + rewrite Hu, lookup_insert_eq. naive_solver.
    + rewrite lookup_insert_ne by done. naive_solver.
  - by apply AddPod_consistent.
Qed.

Lemma enters_other_node_ok H N N' P p m mi :
  enters H P p → (∀ q, homed H N' q ↔ homed H N q) →
  (homed H N p → m ≠ pod_NodeName p) → node_ok H N P m mi →
  node_ok H N' (<[pod_UID p := p]> P) m mi.
Proof.
  intros [Hf Hh Hok] HN Hm []. split; try done. intros q. rewrite no_pods0, HN.
  destruct (decide (pod_UID q = pod_UID p)) as [Hu|Hne].
  - rewrite Hu, lookup_insert_eq, Hf. naive_solver.
  - by rewrite lookup_insert_ne.
Qed.

Lemma enters_list_ok H N P p ni (sel : Pod → bool) (f : NodeInfo → list Pod) l :
  N !! pod_NodeName p = Some ni → node_ok H N P (pod_NodeName p) ni →
  (∀ ni, ni_consistent ni → f ni ≡ₚ filter sel (ni_Pods ni)) → sel p = false →
  list_ok (λ ni, f ni ≠ []) N l →
  list_ok (λ ni, f ni ≠ []) (<[pod_NodeName p := AddPod ni p]> N) l.
Proof.
  intros HN [] Hf Hsel. apply (list_ok_insert _ _ _ _ ni); [done|]. apply perm_nil_iff.
  rewrite (Hf ni) by done. rewrite (Hf (AddPod ni p)) by (by apply AddPod_consistent).
  by rewrite AddPod_Pods, filter_add_other.
Qed.

Lemma wf_place_homed H N P A O V V' l1 l2 l3 p ni :
  wf_parts H N P A O V l1 l2 l3 → enters H P p → homed H N p → N !! pod_NodeName p = Some ni →
  pvc_ok (<[pod_NodeName p := AddPod ni p]> N) V' →
  wf_parts H (<[pod_NodeName p := AddPod ni p]> N) (<[pod_UID p := p]> P)
    (<[pod_UID p := pod_NodeName p]> A) O V' l1
    (keep_unless (podWithAffinity p) l2) (keep_unless (podWithRequiredAntiAffinity p) l3).
Proof.
  intros Hwf He Hh HN HV. pose proof (wf_node _ _ _ _ _ _ _ _ _ Hwf _ _ HN) as Hn.
  destruct Hwf. pose proof He as [Hf HpH Hok].
  assert (Hs : is_Some (N !! pod_NodeName p)) by eauto. split.
  - intros k q [[<- <-]|[_ Hq]]%lookup_insert_Some; eauto.
  - intros m mi. destruct (decide (m = pod_NodeName p)) as [->|Hm].
    + rewrite lookup_insert_eq. intros [= <-]. by apply enters_node_ok.
    + rewrite lookup_insert_ne by done. intros Hmi.
      apply (enters_other_node_ok _ N); eauto. intros. by apply homed_insert_same.
  - intros k. rewrite <- (derived_insert _ P A); [|intros k'; eapply derived_ext; [|exact wf_assigned0]|done].
    + rewrite assigned_to_insert_same by done. unfold assigned_to. by rewrite decide_True.
    + intros q. by rewrite assigned_to_insert_same.
  - intros k. rewrite <- (derived_insert _ P O); [|intros k'; eapply derived_ext; [|exact wf_orphaned0]|done].
    + rewrite orphan_of_insert_same by done. unfold orphan_of. by rewrite decide_False by tauto.
    + intros q. by rewrite orphan_of_insert_same.
  - done.
  - by apply (list_ok_insert _ _ _ _ ni).
  - destruct (podWithAffinity p) eqn:E; [apply list_ok_None|].
    apply (enters_list_ok H N P p ni podWithAffinity); try done. by intros ? [].
  - destruct (podWithRequiredAntiAffinity p) eqn:E; [apply list_ok_None|].
    apply (enters_list_ok H N P p ni podWithRequiredAntiAffinity); try done. by intros ? [].
Qed.

(** A pod without a node, or whose node is unknown. *)
Lemma wf_place_unplaced H N P A O V l1 l2 l3 p :
  wf_parts H N P A O V l1 l2 l3 → enters H P p → ¬ homed H N p →
  wf_parts H N (<[pod_UID p := p]> P) A
    (if decide (pod_NodeName p ≠ "") then <[pod_UID p := p]> O else O) V l1 l2 l3.
Proof.
  intros [] He Hh. pose proof He as [Hf HpH Hok]. split; try done.
  - intros k q [[<- <-]|[_ Hq]]%lookup_insert_Some; eauto.
  - intros m mi Hmi. by apply (enters_other_node_ok _ N); eauto.
  - intros k. rewrite <- (derived_insert _ P A) by done.
    unfold assigned_to. by rewrite decide_False.
  - intros k. rewrite <- (derived_insert _ P O) by done.
    unfold orphan_of. by repeat case_decide; try tauto.
Qed.

(** A pod that is not cached does not matter for [H]. *)
Lemma wf_shrink H N P A O V l1 l2 l3 key :
  wf_parts H N P A O V l1 l2 l3 → P !! key = None →
  wf_parts (H ∖ {[key]}) N P A O V l1 l2 l3.
Proof.
  intros [] Hkey.
  assert (Hh : ∀ k p, P !! k = Some p → homed (H ∖ {[key]}) N p ↔ homed H N p).
  { intros k p Hp. destruct (wf_pod0 k p Hp) as [Hu _]. unfold homed.
    assert (pod_UID p ≠ key) by congruence. set_solver. }
  split; try done.
  - intros m mi Hm. destruct (wf_node0 m mi Hm). split; try done.
    intros p. rewrite no_pods0. split; intros (Hp & ? & ?); specialize (Hh _ _ Hp); tauto.
  - intros k. rewrite wf_assigned0. destruct (P !! k) as [p|] eqn:E; [|done]. simpl.
    unfold assigned_to. apply decide_ext. by rewrite (Hh _ _ E).
  - intros k. rewrite wf_orphaned0. destruct (P !! k) as [p|] eqn:E; [|done]. simpl.
    unfold orphan_of. apply decide_ext. by rewrite (Hh _ _ E).
Qed.

End Invariant.
