(* ===== verification/SchedulerCacheOps.v ===== *)
(** * The operations of the scheduler cache keep its invariant

    For every operation: it does not panic, it preserves [wf], and its effect
    on the nodes, the pods, the assumed pods and the priority classes is the
    one of the abstract cache below, in which nothing is derived or cached. *)

From S2P Require Import Prelude.
From S2P Require Import GoStrings.
From S2P Require Import K8sApi.
From S2P Require Import K8sInstances.
From S2P Require Import Constants.
From S2P Require Import PodUtils.
From S2P Require Import SchedulerCache.
From S2P Require Import SchedulerCacheInv.

(** ** The abstract cache *)

Record AbsCache := mkAbsCache {
  a_nodes : gmap string Node;
  a_pods : gmap string Pod;
  a_assumed : gmap string bool;
  a_pcs : gmap string PriorityClass
}.

Definition nodes_of (c : SchedulerCache) : gmap string Node := omap ni_node (nodesMap c).

Definition abs (c : SchedulerCache) : AbsCache :=
  mkAbsCache (nodes_of c) (podsMap c) (assumedPods c) (pcMap c).

(** The node a pod occupies: its node name, when that node is known. *)
Definition occupies (a : AbsCache) (p : Pod) (n : string) : Prop :=
  pod_NodeName p = n ∧ n ≠ "" ∧ is_Some (a_nodes a !! n).

#[export] Instance occupies_dec a p n : Decision (occupies a p n).
Proof. unfold occupies. solve_decision. Defined.

(** A pod without a node name keeps the node it is assumed on. *)
Definition spec_kept (a : AbsCache) (pod : Pod) : Pod :=
  match a_pods a !! pod_UID pod with
  | Some cur =>
      if decide (pod_NodeName pod = "" ∧ occupies a cur (pod_NodeName cur) ∧
                 is_Some (a_assumed a !! pod_UID pod))
      then pod_with_NodeName pod (pod_NodeName cur) else pod
  | None => pod
  end.

Definition spec_updatePod (pod : Pod) (a : AbsCache) : AbsCache * bool :=
  let key := pod_UID pod in
  let pod' := spec_kept a pod in
  if IsPodTerminated pod then
    (mkAbsCache (a_nodes a) (delete key (a_pods a)) (delete key (a_assumed a)) (a_pcs a), true)
  else
    (mkAbsCache (a_nodes a) (<[key := pod']> (a_pods a))
       (if IsPodRunning pod then delete key (a_assumed a) else a_assumed a) (a_pcs a),
     bool_decide (pod_NodeName pod' = "" ∨ occupies a pod' (pod_NodeName pod'))).

Definition spec_removePod (pod : Pod) (a : AbsCache) : AbsCache :=
  let key := pod_UID pod in
  mkAbsCache (a_nodes a) (delete key (a_pods a)) (delete key (a_assumed a)) (a_pcs a).

Definition spec_assumePod (pod : Pod) (allBound : bool) (a : AbsCache) : AbsCache :=
  let a' := (spec_updatePod pod a).1 in
  mkAbsCache (a_nodes a') (a_pods a') (<[pod_UID pod := allBound]> (a_assumed a')) (a_pcs a').

(** Forgetting a pod takes back the assignment made when it was assumed. *)
Definition spec_forgetPod (pod : Pod) (a : AbsCache) : AbsCache :=
  let key := pod_UID pod in
  let pod' := if decide (is_Some (a_assumed a !! key)) then pod_with_NodeName pod "" else pod in
  (spec_updatePod pod' (mkAbsCache (a_nodes a) (a_pods a) (delete key (a_assumed a)) (a_pcs a))).1.

(** A running pod that carries the name of a node. *)
Definition runs_on (a : AbsCache) (n k : string) : bool :=
  match a_pods a !! k with
  | Some p => bool_decide (pod_NodeName p = n ∧ n ≠ "") && IsPodRunning p
  | None => false
  end.

(** A new node adopts the pods that carry its name; those that run are no
    longer assumed. *)
Definition spec_updateNode (node : Node) (a : AbsCache) : AbsCache :=
  let n := node_Name node in
  mkAbsCache (<[n := node]> (a_nodes a)) (a_pods a)
    (if decide (is_Some (a_nodes a !! n)) then a_assumed a
     else filter (λ kb : string * bool, runs_on a n kb.1 = false) (a_assumed a))
    (a_pcs a).

Definition on_node (a : AbsCache) (n k : string) : bool :=
  match a_pods a !! k with
  | Some p => bool_decide (occupies a p n)
  | None => false
  end.

(** Pods assumed on a removed node are pending again. *)
Definition spec_removeNode (node : Node) (a : AbsCache) : AbsCache :=
  let n := node_Name node in
  if decide (is_Some (a_nodes a !! n)) then
    mkAbsCache (delete n (a_nodes a))
      (map_imap (λ k p,
         Some (if decide (occupies a p n ∧ is_Some (a_assumed a !! k))
               then pod_with_NodeName p "" else p)) (a_pods a))
      (filter (λ kb : string * bool, on_node a n kb.1 = false) (a_assumed a))
      (a_pcs a)
  else a.

Definition spec_updatePriorityClass (pc : PriorityClass) (a : AbsCache) : AbsCache :=
  mkAbsCache (a_nodes a) (a_pods a) (a_assumed a) (<[pc_Name pc := pc]> (a_pcs a)).

Definition spec_removePriorityClass (pc : PriorityClass) (a : AbsCache) : AbsCache :=
  mkAbsCache (a_nodes a) (a_pods a) (a_assumed a) (delete (pc_Name pc) (a_pcs a)).

(** ** Pods *)

Section Ops.
Context `{NIO : NodeInfoOps} `{NIL : !NodeInfoLaws}.

Lemma nodes_of_is_Some H c n :
  wfG H c → is_Some (nodes_of c !! n) ↔ is_Some (nodesMap c !! n).
Proof.
  intros Hwf. unfold nodes_of. rewrite lookup_omap.
  destruct (nodesMap c !! n) as [ni|] eqn:E; simpl; [|done].
  destruct (no_node _ _ _ _ _ (wf_node _ _ _ _ _ _ _ _ _ Hwf n ni E)) as (nd & -> & _).
  split; eauto.
Qed.

Lemma homed_occupies c p :
  wfG ∅ c → homed ∅ (nodesMap c) p ↔ occupies (abs c) p (pod_NodeName p).
Proof.
  intros Hwf. unfold homed, occupies. simpl. rewrite (nodes_of_is_Some ∅) by done.
  set_solver.
Qed.

Lemma invalidateAffinity_eq p c :
  invalidateAffinity p c =
  set_nodesInfoPodsWithReqAntiAffinity
    (keep_unless (podWithRequiredAntiAffinity p) (nodesInfoPodsWithReqAntiAffinity c))
    (set_nodesInfoPodsWithAffinity
       (keep_unless (podWithAffinity p) (nodesInfoPodsWithAffinity c)) c).
Proof.
  unfold invalidateAffinity, keep_unless.
  by destruct (podWithAffinity p), (podWithRequiredAntiAffinity p), c.
Qed.

(** What an operation on a pod leaves alone. *)
Definition frame (c c' : SchedulerCache) : Prop :=
  nodes_of c' = nodes_of c ∧ pcMap c' = pcMap c.

Lemma frame_insert c c' n ni ni' :
  nodesMap c !! n = Some ni → ni_node ni' = ni_node ni →
  nodesMap c' = <[n := ni']> (nodesMap c) → pcMap c' = pcMap c → frame c c'.
Proof.
  intros Hn Hnode HN Hpc. split; [|done]. unfold nodes_of. rewrite HN.
  apply map_eq. intros m. rewrite !lookup_omap. destruct (decide (n = m)) as [->|Hm].
  - by rewrite lookup_insert_eq, Hn.
  - by rewrite lookup_insert_ne.
Qed.

Definition kept (H : gset string) (c : SchedulerCache) (cur pod : Pod) : Pod :=
  if decide (pod_NodeName pod = "" ∧ homed H (nodesMap c) cur ∧
             is_Some (assumedPods c !! pod_UID pod))
  then pod_with_NodeName pod (pod_NodeName cur) else pod.

Lemma kept_homed H c c2 cur pod :
  homed H (nodesMap c) cur → assumedPods c2 = assumedPods c →
  (if (pod_NodeName pod =s "") && isAssumedPod c2 (pod_UID pod)
   then pod_with_NodeName pod (pod_NodeName cur) else pod) = kept H c cur pod.
Proof.
  intros Hh Ha. unfold kept, isAssumedPod. rewrite Ha.
  repeat case_bool_decide; simpl; case_decide; tauto.
Qed.

Lemma kept_unplaced H c cur pod : ¬ homed H (nodesMap c) cur → kept H c cur pod = pod.
Proof. intros Hh. unfold kept. by rewrite decide_False by tauto. Qed.

Lemma detachPod_spec H c cur pod :
  wfG H c → podsMap c !! pod_UID pod = Some cur → same_identity pod cur →
  ∃ c', detachPod (pod_UID pod) cur pod c = Some (c', kept H c cur pod) ∧
    wfG H c' ∧ frame c c' ∧ assumedPods c' = assumedPods c ∧
    podsMap c' = delete (pod_UID pod) (podsMap c).
Proof.
  intros Hwf Hcur Hsame. unfold detachPod.
  destruct (wf_pod _ _ _ _ _ _ _ _ _ Hwf _ _ Hcur) as (Hu & Hne & _).
  cbn [assignedPods set_orphanedPods set_podsMap nodesMap].
  rewrite (wf_assigned _ _ _ _ _ _ _ _ _ Hwf), Hcur. cbn [mbind option_bind].
  unfold assigned_to. destruct (decide (homed H (nodesMap c) cur)) as [Hh|Hh].
  - pose proof Hh as (_ & [ni Hni] & _). rewrite Hni.
    destruct (no_node _ _ _ _ _ (wf_node _ _ _ _ _ _ _ _ _ Hwf _ _ Hni)) as (nd & Hnd & Hname).
    destruct (updatePVC_insert (set_nodesMap (insert (pod_NodeName cur) (RemovePod ni cur).1)
        (set_orphanedPods (delete (pod_UID pod)) (set_podsMap (delete (pod_UID pod)) c)))
      (nodesMap c) (pod_NodeName cur) (RemovePod ni cur).1 nd) as (V & HV & Hpvc);
      [by apply Hwf|by rewrite RemovePod_node|done|].
    cbn [mbind option_bind]. rewrite HV. cbn [mbind option_bind].
    rewrite invalidateAffinity_eq, (kept_homed H c) by done. eexists. split; [done|].
    split_and!; try done.
    + unfold wfG. cbn.
      rewrite (same_identity_affinity pod cur), (same_identity_anti_affinity pod cur) by done.
      rewrite <- Hu. apply (wf_drop _ _ _ _ _ (pvcRefCounts c)); [exact Hwf| |done].
      split; auto with shim; congruence.
    + eapply frame_insert; [exact Hni|apply RemovePod_node|done..].
  - cbn [mbind option_bind]. rewrite kept_unplaced by done. eexists. split; [done|].
    split_and!; try done. unfold wfG. cbn. rewrite <- Hu.
    apply wf_drop_unplaced; [exact Hwf|congruence|done].
Qed.

(** [assignPod] followed by the insertion into the pods map. *)
Lemma assignPod_spec H c p :
  wfG H c → enters H (podsMap c) p →
  ∃ c', assignPod (pod_UID p) p c =
      Some (c', bool_decide (pod_NodeName p = "" ∨ homed H (nodesMap c) p)) ∧
    wfG H (set_podsMap (insert (pod_UID p) p) c') ∧ frame c c' ∧
    assumedPods c' = assumedPods c ∧ podsMap c' = podsMap c.
Proof.
  intros Hwf He. pose proof He as [Hf HpH (_ & Hne & Ht)].
  unfold assignPod. rewrite IsAssignedPod_spec, Ht, andb_true_r.
  case_bool_decide as Hn; cbn [negb].
  - rewrite bool_decide_eq_true_2 by tauto. eexists. split; [done|]. split_and!; try done.
    unfold wfG. cbn.
    assert (Hh : ¬ homed H (nodesMap c) p) by (unfold homed; tauto).
    pose proof (wf_place_unplaced _ _ _ _ _ _ _ _ _ _ Hwf He Hh) as Hw.
    by rewrite decide_False in Hw by tauto.
  - destruct (nodesMap c !! pod_NodeName p) as [ni|] eqn:Hni.
    + assert (Hh : homed H (nodesMap c) p) by (by eapply homed_lookup).
      destruct (no_node _ _ _ _ _ (wf_node _ _ _ _ _ _ _ _ _ Hwf _ _ Hni)) as (nd & Hnd & Hname).
      rewrite invalidateAffinity_eq.
      edestruct (updatePVC_insert (set_nodesInfoPodsWithReqAntiAffinity
          (keep_unless (podWithRequiredAntiAffinity p) (nodesInfoPodsWithReqAntiAffinity c))
          (set_nodesInfoPodsWithAffinity
             (keep_unless (podWithAffinity p) (nodesInfoPodsWithAffinity c))
             (set_assignedPods (insert (pod_UID p) (pod_NodeName p))
               (set_nodesMap (insert (pod_NodeName p) (AddPod ni p)) c))))
        (nodesMap c) (pod_NodeName p) (AddPod ni p) nd) as (V & HV & Hpvc);
        [by apply Hwf|by rewrite AddPod_node|done|].
      cbn in HV |- *. rewrite HV. cbn [mbind option_bind].
      rewrite bool_decide_eq_true_2 by tauto. eexists. split; [done|]. split_and!; try done.
      * unfold wfG. cbn. apply (wf_place_homed _ _ _ _ _ (pvcRefCounts c)); done.
      * eapply frame_insert; [exact Hni|apply AddPod_node|done..].
    + assert (Hh : ¬ homed H (nodesMap c) p).
      { intros (_ & [? ?] & _). congruence. }
      rewrite bool_decide_eq_false_2 by tauto. eexists. split; [done|]. split_and!; try done.
      unfold wfG. cbn. pose proof (wf_place_unplaced _ _ _ _ _ _ _ _ _ _ Hwf He Hh) as Hw.
      by rewrite decide_True in Hw.
Qed.

Lemma homed_frame H H' c c' p :
  wfG H c → wfG H' c' → frame c c' → ∀ G, homed G (nodesMap c') p ↔ homed G (nodesMap c) p.
Proof.
  intros Hwf Hwf' [Hn _] G. unfold homed.
  by rewrite <- (nodes_of_is_Some H' c'), <- (nodes_of_is_Some H c), Hn.
Qed.

Lemma frame_trans c1 c2 c3 : frame c1 c2 → frame c2 c3 → frame c1 c3.
Proof. unfold frame. intuition congruence. Qed.

Lemma wf_shrinkG H c key : wfG H c → podsMap c !! key = None → wfG (H ∖ {[key]}) c.
Proof. apply wf_shrink. Qed.

(** The version of a pod that [updatePod] stores. *)
Definition stored (H : gset string) (c : SchedulerCache) (pod : Pod) : Pod :=
  match podsMap c !! pod_UID pod with Some cur => kept H c cur pod | None => pod end.

Lemma stored_eq H c pod :
  pod_UID (stored H c pod) = pod_UID pod ∧ pod_Status (stored H c pod) = pod_Status pod.
Proof. unfold stored, kept. by repeat case_match. Qed.

Lemma stored_running H c pod : IsPodRunning (stored H c pod) = IsPodRunning pod.
Proof. unfold IsPodRunning. by rewrite (proj2 (stored_eq H c pod)). Qed.

Lemma stored_terminated H c pod : IsPodTerminated (stored H c pod) = IsPodTerminated pod.
Proof. unfold IsPodTerminated. by rewrite (proj2 (stored_eq H c pod)). Qed.

(** The state of the cache after the first part of [updatePod]. *)
Lemma updatePod_detached H c pod :
  wfG H c → pod_valid c pod →
  ∃ c1, match podsMap c !! pod_UID pod with
        | Some currState => detachPod (pod_UID pod) currState pod c
        | None => Some (c, pod)
        end = Some (c1, stored H c pod) ∧
    wfG (H ∖ {[pod_UID pod]}) c1 ∧ frame c c1 ∧ assumedPods c1 = assumedPods c ∧
    podsMap c1 = delete (pod_UID pod) (podsMap c).
Proof.
  intros Hwf [Hne Hsame]. unfold stored.
  destruct (podsMap c !! pod_UID pod) as [cur|] eqn:Hcur.
  - destruct (detachPod_spec H c cur pod) as (c1 & Hd & Hwf1 & ? & ? & HP); eauto.
    exists c1. split_and!; try done. apply wf_shrinkG; [done|]. by rewrite HP, lookup_delete_eq.
  - exists c. split_and!; try done; [by apply wf_shrinkG|]. by rewrite delete_id.
Qed.

(** What [updatePod] does to the pods and to the assumed pods. *)
Definition updatePod_result (H : gset string) (c c' : SchedulerCache) (pod : Pod) (b : bool) : Prop :=
  let key := pod_UID pod in
  let pod' := stored H c pod in
  if IsPodTerminated pod then
    podsMap c' = delete key (podsMap c) ∧ assumedPods c' = delete key (assumedPods c) ∧ b = true
  else
    podsMap c' = <[key := pod']> (podsMap c) ∧
    assumedPods c' = (if IsPodRunning pod then delete key (assumedPods c) else assumedPods c) ∧
    b = bool_decide (pod_NodeName pod' = "" ∨ homed (H ∖ {[key]}) (nodesMap c) pod').

Lemma updatePod_spec H c pod :
  wfG H c → pod_valid c pod →
  ∃ c' b, updatePod pod c = Some (c', b) ∧ wfG (H ∖ {[pod_UID pod]}) c' ∧ frame c c' ∧
    updatePod_result H c c' pod b.
Proof.
  intros Hwf Hv. destruct (updatePod_detached H c pod Hwf Hv) as (c1 & Hd & Hwf1 & Hf & Ha & HP).
  unfold updatePod. rewrite Hd. cbn [mbind option_bind].
  rewrite stored_running, stored_terminated. unfold updatePod_result.
  assert (Hkey : podsMap c1 !! pod_UID pod = None) by (by rewrite HP, lookup_delete_eq).
  destruct (IsPodTerminated pod) eqn:Ht.
  - rewrite orb_true_r. unfold assignPod.
    rewrite stored_terminated, Ht, andb_false_r. cbn [mbind option_bind negb].
    do 2 eexists. split; [done|]. split_and!; try done; cbn.
    + unfold wfG. cbn. rewrite !delete_id; [exact Hwf1| | |done].
      * by rewrite (wf_orphaned _ _ _ _ _ _ _ _ _ Hwf1), Hkey.
      * by rewrite (wf_assigned _ _ _ _ _ _ _ _ _ Hwf1), Hkey.
    + by rewrite HP, delete_delete_eq.
    + by rewrite Ha, delete_delete_eq.
  - rewrite orb_false_r.
    set (c2 := if IsPodRunning pod then set_assumedPods (delete (pod_UID pod)) c1 else c1).
    assert (Hwf2 : wfG (H ∖ {[pod_UID pod]}) c2) by (by subst c2; destruct (IsPodRunning pod)).
    assert (H2 : frame c c2 ∧ podsMap c2 = podsMap c1 ∧ nodesMap c2 = nodesMap c1 ∧
      assumedPods c2 = if IsPodRunning pod then delete (pod_UID pod) (assumedPods c)
                       else assumedPods c).
    { subst c2. rewrite <- Ha. by destruct (IsPodRunning pod). }
    destruct H2 as (Hf2 & HP2 & HN2 & Ha2).
    destruct (stored_eq H c pod) as [Hu _]. rewrite <- Hu in *.
    destruct (assignPod_spec (H ∖ {[pod_UID (stored H c pod)]}) c2 (stored H c pod))
      as (c3 & Hc3 & Hwf3 & Hf3 & Ha3 & HP3); [done| |].
    { split; [by rewrite HP2|set_solver|]. split_and!; [done| |by rewrite stored_terminated].
      rewrite Hu. apply Hv. }
    rewrite Hc3. cbn [mbind option_bind negb]. do 2 eexists. split; [done|].
    split_and!; cbn; [done| | |by rewrite Ha3|].
    + eapply frame_trans; [exact Hf2|]. destruct Hf3. by split.
    + by rewrite HP3, HP2, HP, insert_delete_eq.
    + apply bool_decide_ext. rewrite (homed_frame H _ c c2) by done. done.
Qed.

(** ** The pod operations refine the abstract ones *)

Lemma empty_difference (key : string) : (∅ ∖ {[key]} : gset string) = ∅.
Proof. set_solver. Qed.

Lemma difference_empty_wf c key : wfG (∅ ∖ {[key]}) c → wfG ∅ c.
Proof. by rewrite empty_difference. Qed.

Lemma stored_spec c pod : wfG ∅ c → stored ∅ c pod = spec_kept (abs c) pod.
Proof.
  intros Hwf. unfold stored, spec_kept, kept. simpl.
  destruct (podsMap c !! pod_UID pod) as [cur|]; [|done].
  apply decide_ext. by rewrite homed_occupies.
Qed.

Lemma abs_frame c c' :
  frame c c' → abs c' = mkAbsCache (nodes_of c) (podsMap c') (assumedPods c') (pcMap c).
Proof. intros [Hn Hp]. unfold abs. by rewrite Hn, Hp. Qed.

Lemma updatePod_refines c pod :
  wf c → pod_valid c pod →
  ∃ c' b, updatePod pod c = Some (c', b) ∧ wf c' ∧ spec_updatePod pod (abs c) = (abs c', b).
Proof.
  intros [Hwf Hass] Hv. destruct (updatePod_spec ∅ c pod Hwf Hv) as (c' & b & Hu & Hwf' & Hf & Hr).
  apply difference_empty_wf in Hwf'. exists c', b. split; [done|].
  unfold updatePod_result, spec_updatePod in *. rewrite (abs_frame c c' Hf), <- stored_spec by done.
  destruct (IsPodTerminated pod); destruct Hr as (HP & Ha & Hb); rewrite HP, Ha; cbn.
  - split; [|by rewrite Hb]. split; [done|]. intros k. rewrite HP, Ha.
    rewrite !lookup_delete_is_Some. intros [? ?]. eauto.
  - split; [split; [done|]|f_equal].
    + intros k Hk. rewrite Ha in Hk. rewrite HP, lookup_insert_is_Some.
      destruct (decide (pod_UID pod = k)); [by left|right; split; [done|]].
      apply Hass. destruct (IsPodRunning pod); [|done]. by rewrite lookup_delete_ne in Hk by done.
    + rewrite Hb, empty_difference. apply bool_decide_ext. by rewrite homed_occupies.
Qed.

Lemma wf_forget_lists H N P A O V l1 l2 l3 :
  wf_parts H N P A O V l1 l2 l3 → wf_parts H N P A O V l1 None None.
Proof. intros []. split; try done; apply list_ok_None. Qed.

Lemma wf_forget_all_lists H N P A O V l1 l2 l3 :
  wf_parts H N P A O V l1 l2 l3 → wf_parts H N P A O V None None None.
Proof. intros []. split; try done; apply list_ok_None. Qed.

Lemma assumed_ok_delete c c' key :
  assumed_ok c → podsMap c' = delete key (podsMap c) →
  assumedPods c' = delete key (assumedPods c) → assumed_ok c'.
Proof.
  intros Hass HP Ha k. rewrite HP, Ha, !lookup_delete_is_Some. intros [? ?]. eauto.
Qed.

(** The pod and everything derived from it leave the cache. *)
Lemma removePod_parts c pod :
  wf c → pod_valid c pod →
  ∃ c', removePod pod c = Some c' ∧ wfG ∅ c' ∧ frame c c' ∧
    podsMap c' = delete (pod_UID pod) (podsMap c) ∧
    assumedPods c' = delete (pod_UID pod) (assumedPods c).
Proof.
  intros [Hwf Hass] [Hne Hsame]. unfold removePod.
  rewrite (wf_assigned _ _ _ _ _ _ _ _ _ Hwf).
  destruct (podsMap c !! pod_UID pod) as [cur|] eqn:Hcur; cbn [mbind option_bind].
  - destruct (wf_pod _ _ _ _ _ _ _ _ _ Hwf _ _ Hcur) as (Hu & _ & _).
    unfold assigned_to. destruct (decide (homed ∅ (nodesMap c) cur)) as [Hh|Hh].
    + pose proof Hh as (_ & [ni Hni] & _). rewrite Hni.
      destruct (no_node _ _ _ _ _ (wf_node _ _ _ _ _ _ _ _ _ Hwf _ _ Hni)) as (nd & Hnd & Hname).
      destruct (updatePVC_insert (set_nodesMap (insert (pod_NodeName cur) (RemovePod ni pod).1) c)
        (nodesMap c) (pod_NodeName cur) (RemovePod ni pod).1 nd) as (V & HV & Hpvc);
        [by apply Hwf|by rewrite RemovePod_node|done|].
      rewrite HV. cbn [mbind option_bind]. eexists. split; [done|]. split_and!; try done.
      * unfold wfG. cbn. eapply wf_forget_lists. rewrite <- Hu.
        apply (wf_drop _ _ _ _ _ (pvcRefCounts c)); [exact Hwf| |done].
        split; auto; congruence.
      * eapply frame_insert; [exact Hni|apply RemovePod_node|done..].
    + cbn [mbind option_bind]. eexists. split; [done|]. split_and!; try done.
      unfold wfG. cbn. eapply wf_forget_lists. rewrite <- Hu.
      apply wf_drop_unplaced; [exact Hwf|congruence|done].
  - eexists. split; [done|]. split_and!; try done.
    unfold wfG. cbn. eapply wf_forget_lists. rewrite !delete_id; [exact Hwf| | |done].
    + by rewrite (wf_orphaned _ _ _ _ _ _ _ _ _ Hwf), Hcur.
    + by rewrite (wf_assigned _ _ _ _ _ _ _ _ _ Hwf), Hcur.
Qed.

Lemma removePod_refines c pod :
  wf c → pod_valid c pod →
  ∃ c', removePod pod c = Some c' ∧ wf c' ∧ abs c' = spec_removePod pod (abs c).
Proof.
  intros Hwf Hv. destruct (removePod_parts c pod Hwf Hv) as (c' & Hr & Hwf' & Hf & HP & Ha).
  exists c'. split_and!; [done|split; [done|]|].
  - eapply assumed_ok_delete; [apply Hwf|done..].
  - rewrite (abs_frame c c' Hf), HP, Ha. done.
Qed.

Lemma assumePod_refines c pod allBound :
  wf c → pod_valid c pod → IsPodTerminated pod = false →
  ∃ c', assumePod pod allBound c = Some c' ∧ wf c' ∧ abs c' = spec_assumePod pod allBound (abs c).
Proof.
  intros Hwf Hv Ht. destruct (updatePod_refines c pod Hwf Hv) as (c' & b & Hu & [Hwf' Hass] & Hs).
  unfold assumePod. rewrite Hu. cbn [mbind option_bind]. eexists. split; [done|].
  unfold spec_assumePod. rewrite Hs. split; [split; [exact Hwf'|]|done].
  intros k. cbn. rewrite lookup_insert_is_Some. intros [<-|[_ ?]]; [|eauto].
  unfold spec_updatePod in Hs. rewrite Ht in Hs. injection Hs as _ HP _ _ _.
  rewrite <- HP, lookup_insert_eq. eauto.
Qed.

Lemma wf_unassume c key : wf c → wf (set_assumedPods (delete key) c).
Proof.
  intros [Hwf Hass]. split; [exact Hwf|]. intros k. cbn.
  rewrite lookup_delete_is_Some. intros [_ ?]. eauto.
Qed.

(** Taking back the assignment of a pod without node name changes nothing. *)
Lemma pod_with_NodeName_id p n : pod_NodeName p = n → pod_with_NodeName p n = p.
Proof. intros <-. by destruct p as [? ? ? ? ? ? ? [] ?]. Qed.

Lemma forgetPod_refines c pod :
  wf c → pod_valid c pod →
  ∃ c', forgetPod pod c = Some c' ∧ wf c' ∧ abs c' = spec_forgetPod pod (abs c).
Proof.
  intros Hwf Hv. unfold forgetPod, spec_forgetPod. cbn [abs a_assumed].
  set (pod' := if isAssumedPod c (pod_UID pod) && (pod_NodeName pod <>s "")
               then pod_with_NodeName pod "" else pod).
  assert (Hp : (if decide (is_Some (assumedPods c !! pod_UID pod))
                then pod_with_NodeName pod "" else pod) = pod').
  { subst pod'. unfold isAssumedPod. case_decide as Hs;
      [rewrite bool_decide_eq_true_2 by done|by rewrite bool_decide_eq_false_2 by done]. simpl.
    case_bool_decide; [|done]. by apply pod_with_NodeName_id. }
  rewrite Hp. assert (Hv' : pod_valid (set_assumedPods (delete (pod_UID pod)) c) pod').
  { clear Hp. subst pod'. destruct Hv as [Hne Hsame]. destruct (_ && _); split; [exact Hne|exact Hsame|exact Hne|exact Hsame]. }
  destruct (updatePod_refines _ pod' (wf_unassume c (pod_UID pod) Hwf) Hv')
    as (c' & b & Hu & Hwf' & Hs).
  rewrite Hu. cbn [mbind option_bind]. exists c'. split_and!; try done.
  exact (f_equal fst (eq_sym Hs)).
Qed.

End Ops.
