(* ===== verification/SchedulerCacheNodes.v ===== *)
(** * Node operations of the scheduler cache

    [updateNode] and [removeNode] keep the invariant and refine the abstract
    operations: a new node adopts exactly the orphans that carry its name, a
    removed node leaves its bound pods as orphans and its assumed pods
    pending. *)

From S2P Require Import Prelude.
From S2P Require Import GoStrings.
From S2P Require Import K8sApi.
From S2P Require Import K8sInstances.
From S2P Require Import Constants.
From S2P Require Import PodUtils.
From S2P Require Import SchedulerCache.
From S2P Require Import SchedulerCacheInv.
From S2P Require Import SchedulerCacheOps.

Section Nodes.
Context `{NIO : NodeInfoOps} `{NIL : !NodeInfoLaws}.

(** ** A new node *)

(** The pods a new node will adopt. *)
Definition hidden (n : string) (P : gmap string Pod) : gset string :=
  dom (filter (λ kp : string * Pod, pod_NodeName kp.2 = n ∧ n ≠ "") P).

Lemma elem_of_hidden n P k :
  k ∈ hidden n P ↔ ∃ p, P !! k = Some p ∧ pod_NodeName p = n ∧ n ≠ "".
Proof.
  unfold hidden. rewrite elem_of_dom. split.
  - intros [p Hp]. apply map_lookup_filter_Some in Hp as [? [? ?]]. eauto.
  - intros (p & ? & ? & ?). exists p. apply map_lookup_filter_Some. eauto.
Qed.

Definition fresh_ni (node : Node) : NodeInfo := SetNode NewNodeInfo node.

Lemma fresh_ni_eq node : fresh_ni node = mkNodeInfo (Some node) [] [] [] ∅.
Proof. unfold fresh_ni. by rewrite SetNode_spec, NewNodeInfo_spec. Qed.

Lemma fresh_ni_Pods node : ni_Pods (fresh_ni node) = [].
Proof. by rewrite fresh_ni_eq. Qed.

Lemma fresh_ni_consistent node : ni_consistent (fresh_ni node).
Proof. rewrite fresh_ni_eq. split; [done..|]. intros key. simpl. by rewrite lookup_empty. Qed.

Lemma homed_new_node n P N ni p :
  N !! n = None → P !! pod_UID p = Some p →
  homed (hidden n P) (<[n := ni]> N) p ↔ homed ∅ N p.
Proof.
  intros HN HP. unfold homed. rewrite elem_of_hidden.
  destruct (decide (n = pod_NodeName p)) as [->|Hne].
  - rewrite lookup_insert_eq, HN. split; intros (Hp & Hs & Hh); [|by destruct Hs].
    exfalso. apply Hh. eauto.
  - rewrite lookup_insert_ne by done. split; intros (Hp & Hs & Hh); split_and!; try done.
    intros (q & Hq & ? & ?). rewrite HP in Hq. by simplify_eq.
Qed.

Lemma pvc_new_node N V n ni :
  N !! n = None → ni_PVCRefCounts ni = ∅ → pvc_ok N V → pvc_ok (<[n := ni]> N) V.
Proof.
  intros HN Hni HV key. rewrite HV. f_equal. unfold node_counts.
  rewrite omap_insert_None by (by rewrite Hni, lookup_empty).
  by rewrite delete_id by (by rewrite lookup_omap, HN).
Qed.

Lemma list_new_node P N l n ni :
  N !! n = None → ¬ P ni → list_ok P N l → list_ok P (<[n := ni]> N) l.
Proof.
  intros HN Hni Hl l' Hl'. destruct (Hl l' Hl') as [Hnd Hin]. split; [done|].
  intros m. rewrite Hin. destruct (decide (n = m)) as [<-|Hne].
  - rewrite lookup_insert_eq, HN. naive_solver.
  - by rewrite lookup_insert_ne.
Qed.

Lemma wf_new_node N P A O V l1 l2 l3 node :
  wf_parts ∅ N P A O V l1 l2 l3 → N !! node_Name node = None →
  wf_parts (hidden (node_Name node) P) (<[node_Name node := fresh_ni node]> N) P A O V None l2 l3.
Proof.
  intros [] HN.
  assert (Hh : ∀ k p, P !! k = Some p →
    homed (hidden (node_Name node) P) (<[node_Name node := fresh_ni node]> N) p ↔ homed ∅ N p).
  { intros k p Hp. apply homed_new_node; [done|]. by rewrite (proj1 (wf_pod k p Hp)). }
  split; try done.
  - intros m mi [[<- <-]|[Hm Hmi]]%lookup_insert_Some.
    + split; [by rewrite fresh_ni_eq; eauto|rewrite fresh_ni_eq; constructor| |apply fresh_ni_consistent].
      intros p. rewrite fresh_ni_Pods, elem_of_nil. split; [done|].
      intros (Hp & Hn & Hh'). rewrite (Hh _ _ Hp) in Hh'. destruct Hh' as (_ & [? ?] & _). congruence.
    + destruct (wf_node m mi Hmi). split; try done. intros p. rewrite no_pods.
      split; intros (Hp & ? & ?); specialize (Hh _ _ Hp); tauto.
  - intros k. rewrite wf_assigned. destruct (P !! k) as [p|] eqn:E; [|done]. simpl.
    unfold assigned_to. apply decide_ext. by rewrite (Hh _ _ E).
  - intros k. rewrite wf_orphaned. destruct (P !! k) as [p|] eqn:E; [|done]. simpl.
    unfold orphan_of. apply decide_ext. by rewrite (Hh _ _ E).
  - apply pvc_new_node; try done. by rewrite fresh_ni_eq.
  - apply list_new_node; try done. rewrite fresh_ni_eq. simpl. tauto.
  - apply list_new_node; try done. rewrite fresh_ni_eq. simpl. tauto.
Qed.

(** ** Adoption *)

(** One adopted pod: it leaves [H], nothing else changes but its assumed
    state, which ends when the pod runs. *)
Lemma updatePod_adopt H c k p :
  wfG H c → podsMap c !! k = Some p → pod_NodeName p ≠ "" →
  is_Some (nodesMap c !! pod_NodeName p) →
  ∃ c', updatePod p c = Some (c', true) ∧ wfG (H ∖ {[k]}) c' ∧ frame c c' ∧
    podsMap c' = podsMap c ∧
    assumedPods c' = if IsPodRunning p then delete k (assumedPods c) else assumedPods c.
Proof.
  intros Hwf Hk Hn Hs. destruct (wf_pod _ _ _ _ _ _ _ _ _ Hwf _ _ Hk) as (<- & Hne & Ht).
  destruct (updatePod_spec H c p Hwf) as (c' & b & Hu & Hwf' & Hf & Hr).
  { split; [done|]. intros cur Hcur. rewrite Hk in Hcur. simplify_eq. apply same_identity_refl. }
  assert (Hst : stored H c p = p).
  { unfold stored, kept. rewrite Hk. by rewrite decide_False by tauto. }
  unfold updatePod_result in Hr. rewrite Ht, Hst in Hr. destruct Hr as (HP & Ha & Hb).
  rewrite bool_decide_eq_true_2 in Hb by (right; split_and!; [done|done|set_solver]).
  subst b. exists c'. split_and!; try done. by rewrite HP, insert_id.
Qed.

Definition adopted_keys (n : string) (L : list (string * Pod)) : gset string :=
  list_to_set (filter (λ kp : string * Pod, pod_NodeName kp.2 = n) L).*1.

Definition adopted_pods (n : string) (L : list (string * Pod)) : list Pod :=
  (filter (λ kp : string * Pod, pod_NodeName kp.2 = n) L).*2.

Lemma adopt_loop n L c H acc :
  wfG H c → is_Some (nodes_of c !! n) →
  (∀ k p, (k, p) ∈ L → podsMap c !! k = Some p ∧ pod_NodeName p ≠ "") →
  ∃ c', foldl (adoptOrphan n) (Some (c, acc)) L = Some (c', acc ++ adopted_pods n L) ∧
    wfG (H ∖ adopted_keys n L) c' ∧ frame c c' ∧ podsMap c' = podsMap c ∧
    (∀ k, assumedPods c' !! k =
       if bool_decide (k ∈ adopted_keys n L) && match podsMap c !! k with
          Some p => IsPodRunning p | None => false end
       then None else assumedPods c !! k).
Proof.
  revert c H acc. induction L as [|[k p] L IH]; intros c H acc Hwf Hs HL.
  { exists c. cbn. rewrite app_nil_r.
    split_and!; try done. unfold adopted_keys. cbn. by rewrite difference_empty_L. }
  destruct (HL k p) as [Hk Hne]; [left|].
  assert (HL' : ∀ k p, (k, p) ∈ L → podsMap c !! k = Some p ∧ pod_NodeName p ≠ "")
    by (intros; apply HL; by right).
  cbn [foldl adoptOrphan mbind option_bind fst snd].
  unfold adopted_pods, adopted_keys. rewrite !filter_cons. cbn [snd].
  case_bool_decide as Hp; [rewrite decide_True by done|rewrite decide_False by done].
  - destruct (updatePod_adopt H c k p) as (c1 & Hu & Hwf1 & Hf1 & HP1 & Ha1);
      [done|done|done|by rewrite Hp, <- (nodes_of_is_Some H)|].
    rewrite Hu. cbn [mbind option_bind].
    destruct (IH c1 (H ∖ {[k]}) (acc ++ [p])) as (c' & Hfold & Hwf' & Hf & HP & Ha);
      [done|by rewrite (proj1 Hf1)|by rewrite HP1|].
    exists c'. rewrite Hfold. split; [by rewrite <- (assoc_L (++))|]. split_and!.
    + cbn. by rewrite <- difference_difference_l_L.
    + by eapply frame_trans.
    + by rewrite HP.
    + intros k'. rewrite Ha, HP1, Ha1. cbn [fmap list_fmap list_to_set].
      destruct (decide (k' = k)) as [->|Hkk].
      * rewrite (bool_decide_eq_true_2 (k ∈ {[k]} ∪ _)) by set_solver. rewrite Hk.
        destruct (IsPodRunning p); rewrite ?andb_false_r, ?andb_true_r; [|done].
        cbn. rewrite lookup_delete_eq. by case_match.
      * rewrite (bool_decide_ext (k' ∈ {[k]} ∪ _) (k' ∈ adopted_keys n L)) by set_solver.
        destruct (IsPodRunning p); [by rewrite lookup_delete_ne|done].
  - by apply IH.
Qed.

(** The PVC counts of a node that is in the map are recomputed, not changed. *)
Lemma updatePVC_same H c n :
  wfG H c → is_Some (nodes_of c !! n) →
  ∃ V, updatePVCRefCounts (nodesMap c !! n) false c = Some (set_pvcRefCounts (λ _, V) c) ∧
       pvc_ok (nodesMap c) V.
Proof.
  intros Hwf Hs. apply (nodes_of_is_Some H) in Hs as [ni Hni]; [|done]. rewrite Hni.
  destruct (no_node _ _ _ _ _ (wf_node _ _ _ _ _ _ _ _ _ Hwf _ _ Hni)) as (nd & Hnd & Hname).
  destruct (updatePVC_insert c (nodesMap c) n ni nd) as (V & HV & Hpvc); [apply Hwf|done..|].
  exists V. by rewrite insert_id in Hpvc.
Qed.

Lemma wf_pvc_lists H c V :
  wfG H c → pvc_ok (nodesMap c) V →
  wfG H (set_pvcRefCounts (λ _, V) (set_nodesInfoPodsWithReqAntiAffinity None
    (set_nodesInfoPodsWithAffinity None c))).
Proof. intros [] HV. split; try done; apply list_ok_None. Qed.

Context `{MO : MapOrder}.

(** Every hidden pod is an orphan, so the loop adopts all of them. *)
Lemma hidden_adopted c n :
  wfG ∅ c → nodesMap c !! n = None →
  hidden n (podsMap c) ∖ adopted_keys n (go_range (orphanedPods c)) = ∅.
Proof.
  intros Hwf Hn. apply set_eq. intros k. rewrite elem_of_difference.
  split; [|done]. intros [Hk Hnot]. exfalso. apply Hnot.
  apply elem_of_hidden in Hk as (p & Hp & Hname & Hne).
  unfold adopted_keys. rewrite elem_of_list_to_set, list_elem_of_fmap.
  exists (k, p). split; [done|]. rewrite list_elem_of_filter. split; [done|].
  apply elem_of_go_range. rewrite (wf_orphaned _ _ _ _ _ _ _ _ _ Hwf), Hp. simpl.
  unfold orphan_of. rewrite decide_True; [done|]. split; [by subst|].
  intros (_ & [? ?] & _). congruence.
Qed.

Lemma adopted_key_iff c n k :
  wfG ∅ c → nodesMap c !! n = None →
  (bool_decide (k ∈ adopted_keys n (go_range (orphanedPods c))) &&
   match podsMap c !! k with Some p => IsPodRunning p | None => false end) = runs_on (abs c) n k.
Proof.
  intros Hwf Hn. unfold runs_on. simpl. destruct (podsMap c !! k) as [p|] eqn:Hp;
    [|by rewrite andb_false_r]. f_equal. apply bool_decide_ext.
  unfold adopted_keys. rewrite elem_of_list_to_set, list_elem_of_fmap. split.
  - intros ([k' q] & -> & Hq). apply list_elem_of_filter in Hq as [Hname Hq].
    apply elem_of_go_range in Hq. simpl in *.
    rewrite (wf_orphaned _ _ _ _ _ _ _ _ _ Hwf), Hp in Hq. simpl in Hq.
    unfold orphan_of in Hq. case_decide; naive_solver.
  - intros [Hname Hne]. exists (k, p). split; [done|]. apply list_elem_of_filter.
    split; [done|]. apply elem_of_go_range. rewrite (wf_orphaned _ _ _ _ _ _ _ _ _ Hwf), Hp. simpl.
    unfold orphan_of. rewrite decide_True; [done|]. split; [by subst|].
    intros (_ & [? ?] & _). congruence.
Qed.

Lemma nodes_of_insert c node ni :
  ni_node ni = Some node →
  nodes_of (set_nodesMap (insert (node_Name node) ni) c) = <[node_Name node := node]> (nodes_of c).
Proof. intros Hni. unfold nodes_of. cbn. by rewrite (omap_insert_Some _ _ _ _ node). Qed.

Lemma updateNode_new c node :
  wf c → nodesMap c !! node_Name node = None →
  ∃ c', updateNode node c =
      Some (c', None, adopted_pods (node_Name node) (go_range (orphanedPods c))) ∧
    wf c' ∧ abs c' = spec_updateNode node (abs c).
Proof.
  intros [Hwf Hass] Hn. unfold updateNode. rewrite Hn. fold (fresh_ni node).
  set (c1 := set_nodesInfo None (set_nodesMap (insert (node_Name node) (fresh_ni node)) c)).
  assert (Hwf1 : wfG (hidden (node_Name node) (podsMap c)) c1).
  { unfold wfG. cbn. by eapply wf_new_node. }
  assert (Hn1 : nodes_of c1 = <[node_Name node := node]> (nodes_of c)).
  { apply nodes_of_insert. by rewrite fresh_ni_eq. }
  destruct (adopt_loop (node_Name node) (go_range (orphanedPods c)) c1
    (hidden (node_Name node) (podsMap c)) []) as (c2 & Hfold & Hwf2 & [Hf2 Hpc2] & HP2 & Ha2).
  { done. }
  { by rewrite Hn1, lookup_insert_eq. }
  { intros k p Hkp%elem_of_go_range. rewrite (wf_orphaned _ _ _ _ _ _ _ _ _ Hwf) in Hkp.
    cbn. destruct (podsMap c !! k) as [q|]; [|done]. simpl in Hkp. unfold orphan_of in Hkp.
    case_decide; naive_solver. }
  rewrite hidden_adopted in Hwf2 by done. cbn [orphanedPods set_nodesInfo set_nodesMap].
  change (orphanedPods c1) with (orphanedPods c). rewrite Hfold. cbn [mbind option_bind].
  destruct (updatePVC_same ∅ (set_nodesInfoPodsWithReqAntiAffinity None
    (set_nodesInfoPodsWithAffinity None c2)) (node_Name node)) as (V & HV & Hpvc).
  { unfold wfG. cbn. eapply wf_forget_lists. exact Hwf2. }
  { change (is_Some (nodes_of c2 !! node_Name node)).
    by rewrite Hf2, Hn1, lookup_insert_eq. }
  rewrite HV. cbn [mbind option_bind]. eexists. split; [done|].
  assert (Hassumed : assumedPods c2 =
    filter (λ kb : string * bool, runs_on (abs c) (node_Name node) kb.1 = false) (assumedPods c)).
  { apply map_eq. intros k. rewrite Ha2. change (podsMap c1) with (podsMap c).
    rewrite adopted_key_iff, map_lookup_filter by done.
    change (assumedPods c1) with (assumedPods c). cbn [fst].
    destruct (runs_on (abs c) (node_Name node) k);
      destruct (assumedPods c !! k); simpl; try done. }
  split.
  - split; [by apply wf_pvc_lists|]. intros k. cbn. rewrite Hassumed, HP2.
    intros [b [Hb _]%map_lookup_filter_Some]. apply Hass. eauto.
  - unfold abs, spec_updateNode. cbn. f_equal; try done; [by rewrite <- Hn1, <- Hf2|].
    rewrite decide_False; [done|]. rewrite (nodes_of_is_Some ∅), Hn by done. by intros [].
Qed.

(** ** A known node *)

Lemma SetNode_same ni node :
  ni_node (SetNode ni node) = Some node ∧ ni_Pods (SetNode ni node) = ni_Pods ni ∧
  ni_PodsWithAffinity (SetNode ni node) = ni_PodsWithAffinity ni ∧
  ni_PodsWithRequiredAntiAffinity (SetNode ni node) = ni_PodsWithRequiredAntiAffinity ni ∧
  ni_PVCRefCounts (SetNode ni node) = ni_PVCRefCounts ni.
Proof. by rewrite SetNode_spec. Qed.

Lemma wf_set_node H N P A O V l1 l2 l3 node ni :
  wf_parts H N P A O V l1 l2 l3 → N !! node_Name node = Some ni →
  wf_parts H (<[node_Name node := SetNode ni node]> N) P A O V l1 l2 l3.
Proof.
  intros [] HN. destruct (SetNode_same ni node) as (Hnd & Hp & Ha & Hra & Hv).
  assert (Hs : is_Some (N !! node_Name node)) by eauto. split; try done.
  - intros m mi [[<- <-]|[Hm Hmi]]%lookup_insert_Some.
    + destruct (wf_node _ _ HN) as [_ Hnodup Hpods []]. split; [eauto|by rewrite Hp| |].
      * intros p. by rewrite Hp, Hpods, homed_insert_same.
      * split; rewrite ?Hp, ?Ha, ?Hra, ?Hv; done.
    + destruct (wf_node m mi Hmi) as [? ? Hpods ?]. split; try done.
      intros p. by rewrite Hpods, homed_insert_same.
  - intros k. eapply derived_ext; [|done]. intros p. by rewrite assigned_to_insert_same.
  - intros k. eapply derived_ext; [|done]. intros p. by rewrite orphan_of_insert_same.
  - intros key. rewrite wf_pvc. f_equal. unfold node_counts. apply map_eq. intros m.
    rewrite !lookup_omap. destruct (decide (node_Name node = m)) as [<-|Hm].
    + rewrite lookup_insert_eq, HN. simpl. by rewrite Hv.
    + by rewrite lookup_insert_ne.
  - by apply (list_ok_insert _ _ _ _ ni).
  - apply (list_ok_insert _ _ _ _ ni); [done|by rewrite Ha|done].
  - apply (list_ok_insert _ _ _ _ ni); [done|by rewrite Hra|done].
Qed.

Lemma updateNode_known c node ni :
  wf c → nodesMap c !! node_Name node = Some ni →
  ∃ c', updateNode node c = Some (c', ni_node ni, []) ∧
    wf c' ∧ abs c' = spec_updateNode node (abs c).
Proof.
  intros [Hwf Hass] Hn. unfold updateNode. rewrite Hn. cbn [mbind option_bind].
  set (c1 := set_nodesMap (insert (node_Name node) (SetNode ni node)) c).
  assert (Hwf1 : wfG ∅ c1) by (unfold wfG; cbn; by apply wf_set_node).
  assert (Hn1 : nodes_of c1 = <[node_Name node := node]> (nodes_of c)).
  { apply nodes_of_insert. apply SetNode_same. }
  destruct (updatePVC_same ∅ (set_nodesInfoPodsWithReqAntiAffinity None
    (set_nodesInfoPodsWithAffinity None c1)) (node_Name node)) as (V & HV & Hpvc).
  { unfold wfG. cbn. eapply wf_forget_lists. exact Hwf1. }
  { change (is_Some (nodes_of c1 !! node_Name node)). by rewrite Hn1, lookup_insert_eq. }
  rewrite HV. cbn [mbind option_bind]. eexists. split; [done|]. split.
  - split; [by apply wf_pvc_lists|]. exact Hass.
  - unfold abs, spec_updateNode. cbn. f_equal; [done|].
    rewrite decide_True; [done|]. rewrite (nodes_of_is_Some ∅), Hn by done. eauto.
Qed.

(** ** A removed node *)

(** What the loop over the pods of a removed node leaves alone, for all pods
    and at the entry of one pod, and what it does at the entry of a pod. *)
Definition same_base (c c' : SchedulerCache) : Prop :=
  nodesMap c' = nodesMap c ∧ pcMap c' = pcMap c ∧ pvcRefCounts c' = pvcRefCounts c.

Definition same_at (c c' : SchedulerCache) (k : string) : Prop :=
  podsMap c' !! k = podsMap c !! k ∧ assignedPods c' !! k = assignedPods c !! k ∧
  assumedPods c' !! k = assumedPods c !! k ∧ orphanedPods c' !! k = orphanedPods c !! k.

Definition released (c c' : SchedulerCache) (p : Pod) : Prop :=
  let k := pod_UID p in
  assignedPods c' !! k = None ∧ assumedPods c' !! k = None ∧
  if isAssumedPod c k
  then podsMap c' !! k = Some (pod_with_NodeName p "") ∧ orphanedPods c' !! k = orphanedPods c !! k
  else podsMap c' !! k = podsMap c !! k ∧ orphanedPods c' !! k = Some p.

Lemma isAssumedPod_same c c' k : same_at c c' k → isAssumedPod c' k = isAssumedPod c k.
Proof. intros (_ & _ & Ha & _). unfold isAssumedPod. by rewrite Ha. Qed.

Lemma orphanPod_step c acc p :
  let '(c', orphans) := orphanPod (c, acc) p in
  same_base c c' ∧ (∀ k, k ≠ pod_UID p → same_at c c' k) ∧ released c c' p ∧
  orphans = acc ++ (if isAssumedPod c (pod_UID p) then [] else [p]).
Proof.
  unfold orphanPod, released, same_at, same_base.
  destruct (isAssumedPod c (pod_UID p)); cbn;
    rewrite ?app_nil_r; split_and!; intros; try done; try split_and!;
    rewrite ?lookup_delete_eq, ?lookup_insert_eq, ?lookup_delete_ne, ?lookup_insert_ne; done.
Qed.

Lemma orphan_loop l c acc :
  NoDup (pod_UID <$> l) →
  let '(c', orphans) := foldl orphanPod (c, acc) l in
  same_base c c' ∧ (∀ k, k ∉ pod_UID <$> l → same_at c c' k) ∧
  (∀ p, p ∈ l → released c c' p) ∧
  orphans = acc ++ filter (λ p, isAssumedPod c (pod_UID p) = false) l.
Proof.
  revert c acc. induction l as [|p l IH]; intros c acc Hnd.
  { cbn. rewrite app_nil_r. split_and!; try done. by intros p Hp%elem_of_nil. }
  apply NoDup_cons in Hnd as [Hp Hnd]. cbn [foldl].
  pose proof (orphanPod_step c acc p) as Hstep.
  destruct (orphanPod (c, acc) p) as [c1 acc1].
  destruct Hstep as ((Hb1 & Hb2 & Hb3) & Hs & Hr & ->).
  specialize (IH c1 (acc ++ if isAssumedPod c (pod_UID p) then [] else [p]) Hnd).
  destruct (foldl orphanPod _ l) as [c' orphans].
  destruct IH as ((I1 & I2 & I3) & Is & Ir & ->).
  assert (Hother : ∀ q, q ∈ l → pod_UID q ≠ pod_UID p).
  { intros q Hq Heq. apply Hp. apply list_elem_of_fmap. eauto. }
  split_and!.
  - unfold same_base. intuition congruence.
  - intros k Hk. rewrite fmap_cons, not_elem_of_cons in Hk. destruct Hk as [Hk1 Hk2].
    destruct (Is k Hk2) as (? & ? & ? & ?), (Hs k Hk1) as (? & ? & ? & ?).
    unfold same_at. intuition congruence.
  - intros q [->|Hq]%elem_of_cons.
    + destruct (Is (pod_UID p) Hp) as (E1 & E2 & E3 & E4). unfold released in *.
      by rewrite E1, E2, E3, E4.
    + specialize (Ir q Hq). specialize (Hs _ (Hother q Hq)).
      unfold released in *. rewrite (isAssumedPod_same _ _ _ Hs) in Ir.
      destruct Hs as (E1 & E2 & E3 & E4). by rewrite E1, E4 in Ir.
  - rewrite filter_cons, <- (assoc_L (++)). f_equal.
    assert (Hf : filter (λ p, isAssumedPod c1 (pod_UID p) = false) l =
                 filter (λ p, isAssumedPod c (pod_UID p) = false) l).
    { apply filter_ext_in. intros q Hq.
      by rewrite (isAssumedPod_same _ _ _ (Hs _ (Hother q Hq))). }
    rewrite Hf. destruct (isAssumedPod c (pod_UID p)); by case_decide.
Qed.

(** The pods on the node and the others. *)
Lemma key_on_node c n ni k :
  wfG ∅ c → nodesMap c !! n = Some ni →
  (∃ p, p ∈ ni_Pods ni ∧ k = pod_UID p ∧ podsMap c !! k = Some p ∧
        pod_NodeName p = n ∧ homed ∅ (nodesMap c) p) ∨
  ((k ∉ (pod_UID <$> ni_Pods ni)) ∧
   ∀ q, podsMap c !! k = Some q → pod_NodeName q = n → pod_NodeName q = "").
Proof.
  intros Hwf Hn. destruct (wf_node _ _ _ _ _ _ _ _ _ Hwf _ _ Hn) as [_ _ Hpods _].
  destruct (decide (k ∈ pod_UID <$> ni_Pods ni)) as [Hk|Hk].
  - left. apply list_elem_of_fmap in Hk as (p & -> & Hp).
    exists p. apply Hpods in Hp as Hp'. naive_solver.
  - right. split; [done|]. intros q Hq Hname.
    destruct (decide (pod_NodeName q = "")) as [|Hne]; [done|]. exfalso. apply Hk.
    destruct (wf_pod _ _ _ _ _ _ _ _ _ Hwf _ _ Hq) as (Hu & _ & _).
    apply list_elem_of_fmap. exists q. split; [done|]. apply Hpods.
    split_and!; [by rewrite Hu|done|]. split_and!; [done|by rewrite Hname; eauto|set_solver].
Qed.

Lemma homed_delete_other n N p :
  (pod_NodeName p = n → pod_NodeName p = "") → homed ∅ (delete n N) p ↔ homed ∅ N p.
Proof.
  intros Hp. unfold homed. destruct (decide (pod_NodeName p = n)) as [Heq|Hne].
  - split; intros (? & _); by specialize (Hp Heq).
  - by rewrite lookup_delete_ne.
Qed.

Lemma homed_delete_same n N p : pod_NodeName p = n → ¬ homed ∅ (delete n N) p.
Proof. intros <- (_ & Hs & _). rewrite lookup_delete_eq in Hs. by destruct Hs. Qed.

Lemma not_homed_unassigned N p : ¬ homed ∅ N (pod_with_NodeName p "").
Proof. by intros (? & _). Qed.

(** The node list of the removed node in the final state. *)
Definition removal (c c1 : SchedulerCache) (ni : NodeInfo) : Prop :=
  same_base c c1 ∧ (∀ k, k ∉ pod_UID <$> ni_Pods ni → same_at c c1 k) ∧
  (∀ p, p ∈ ni_Pods ni → released c c1 p).

Lemma removal_pod_ok c c1 n ni :
  wfG ∅ c → nodesMap c !! n = Some ni → removal c c1 ni →
  ∀ k p, podsMap c1 !! k = Some p → pod_ok k p.
Proof.
  intros Hwf Hn (_ & Hsame & Hrel) k p Hp.
  destruct (key_on_node c n ni k Hwf Hn) as [(q & Hq & -> & HP & _)|[Hk _]].
  - destruct (wf_pod _ _ _ _ _ _ _ _ _ Hwf _ _ HP) as (Hu & Hne & Ht).
    destruct (Hrel q Hq) as (_ & _ & Hr). destruct (isAssumedPod c (pod_UID q));
      destruct Hr as [Hr _]; rewrite Hr in Hp; simplify_eq; by repeat split.
  - destruct (Hsame k Hk) as (E & _). rewrite E in Hp.
    by apply (wf_pod _ _ _ _ _ _ _ _ _ Hwf).
Qed.

Lemma removal_node_ok c c1 n ni m mi :
  wfG ∅ c → nodesMap c !! n = Some ni → removal c c1 ni →
  m ≠ n → nodesMap c !! m = Some mi →
  node_ok ∅ (delete n (nodesMap c)) (podsMap c1) m mi.
Proof.
  intros Hwf Hn (_ & Hsame & Hrel) Hm Hmi.
  destruct (wf_node _ _ _ _ _ _ _ _ _ Hwf _ _ Hmi) as [? ? Hpods ?]. split; try done.
  intros q. rewrite Hpods.
  destruct (key_on_node c n ni (pod_UID q) Hwf Hn) as [(p & Hp & Hu & HP & Hname & _)|[Hk Hq]].
  - split.
    + intros (Hq & ? & _). rewrite HP in Hq. naive_solver.
    + intros (Hq & Hqm & Hh). destruct (Hrel p Hp) as (_ & _ & Hr). rewrite Hu in Hq.
      exfalso. destruct (isAssumedPod c (pod_UID p)); destruct Hr as [Hr _];
        rewrite Hr in Hq; [simplify_eq; by apply not_homed_unassigned in Hh|].
      rewrite <- Hu, HP in Hq. naive_solver.
  - destruct (Hsame _ Hk) as (E & _). rewrite E.
    split; intros (HPq & <- & Hh); split_and!; try done;
      [apply homed_delete_other|apply (homed_delete_other n)]; try done; by intros.
Qed.

Lemma removal_derived c c1 n ni k :
  wfG ∅ c → nodesMap c !! n = Some ni → removal c c1 ni →
  assignedPods c1 !! k = podsMap c1 !! k ≫= assigned_to ∅ (delete n (nodesMap c)) ∧
  orphanedPods c1 !! k = podsMap c1 !! k ≫= orphan_of ∅ (delete n (nodesMap c)).
Proof.
  intros Hwf Hn (_ & Hsame & Hrel).
  pose proof (wf_assigned _ _ _ _ _ _ _ _ _ Hwf k) as HA.
  pose proof (wf_orphaned _ _ _ _ _ _ _ _ _ Hwf k) as HO.
  destruct (key_on_node c n ni k Hwf Hn) as [(p & Hp & -> & HP & Hname & Hh)|[Hk Hq]].
  - destruct (Hrel p Hp) as (E1 & _ & Hr). rewrite HP in HO. simpl in HO.
    pose proof (homed_delete_same n (nodesMap c) p Hname) as Hd.
    rewrite E1. destruct (isAssumedPod c (pod_UID p)); destruct Hr as [E2 E3]; rewrite E2, E3.
    + simpl. rewrite HO. unfold assigned_to, orphan_of.
      rewrite (decide_False (P := homed _ (delete n _) _)) by apply not_homed_unassigned.
      rewrite !decide_False by (simpl; tauto). done.
    + rewrite HP. simpl. unfold assigned_to, orphan_of. destruct Hh.
      by rewrite decide_False, decide_True.
  - destruct (Hsame k Hk) as (E1 & E2 & _ & E4). rewrite E1, E2, E4, HA, HO.
    destruct (podsMap c !! k) as [q|] eqn:Hqk; [|done]. simpl.
    pose proof (homed_delete_other n (nodesMap c) q (Hq q eq_refl)) as Hh.
    unfold assigned_to, orphan_of. split; apply decide_ext; by rewrite Hh.
Qed.

Lemma removeNode_absent c node :
  nodesMap c !! node_Name node = None → removeNode node c = Some (c, None, []).
Proof. intros Hn. unfold removeNode. by rewrite Hn. Qed.

Lemma isAssumedPod_spec c k : isAssumedPod c k = true ↔ is_Some (assumedPods c !! k).
Proof. unfold isAssumedPod. apply bool_decide_eq_true. Qed.

(** The pods and the assumed pods after the loop, as the specification has
    them. *)
Lemma removal_abs c c1 n ni :
  wf c → nodesMap c !! n = Some ni → removal c c1 ni →
  mkAbsCache (delete n (nodes_of c)) (podsMap c1) (assumedPods c1) (pcMap c) =
  spec_removeNode (mkNode n false ∅) (abs c).
Proof.
  intros [Hwf Hass] Hn (_ & Hsame & Hrel). unfold spec_removeNode. cbn [node_Name abs a_nodes].
  rewrite decide_True by (rewrite (nodes_of_is_Some ∅), Hn by done; eauto).
  assert (Hocc : ∀ q, occupies (abs c) q n ↔ pod_NodeName q = n ∧ homed ∅ (nodesMap c) q).
  { intros q. rewrite homed_occupies by done. unfold occupies. naive_solver. }
  f_equal; apply map_eq; intros k.
  - rewrite map_lookup_imap. cbn [a_pods a_assumed abs].
    destruct (key_on_node c n ni k Hwf Hn) as [(p & Hp & -> & HP & Hname & Hh)|[Hk Hq]].
    + rewrite HP. simpl. destruct (Hrel p Hp) as (_ & _ & Hr).
      destruct (isAssumedPod c (pod_UID p)) eqn:Ha; destruct Hr as [-> _].
      * apply isAssumedPod_spec in Ha. by rewrite decide_True by (by rewrite Hocc).
      * rewrite HP, decide_False; [done|]. intros [_ Hs]. apply isAssumedPod_spec in Hs. congruence.
    + destruct (Hsame k Hk) as (-> & _). destruct (podsMap c !! k) as [q|] eqn:E; [|done]. simpl.
      rewrite decide_False; [done|]. intros [Ho%Hocc _]. destruct Ho as [Hname Hh].
      destruct Hh as [Hne _]. by specialize (Hq q eq_refl Hname).
  - rewrite map_lookup_filter. cbn [a_assumed abs fst]. unfold on_node. cbn [a_pods abs].
    destruct (key_on_node c n ni k Hwf Hn) as [(p & Hp & -> & HP & Hname & Hh)|[Hk Hq]].
    + rewrite HP, bool_decide_eq_true_2 by (by apply Hocc).
      destruct (Hrel p Hp) as (_ & -> & _). by destruct (assumedPods c !! pod_UID p).
    + destruct (Hsame k Hk) as (_ & _ & -> & _). destruct (assumedPods c !! k) eqn:E; [|done].
      simpl. destruct (Hass k) as [q Hqk]; [by rewrite E; eauto|]. rewrite Hqk.
      rewrite bool_decide_eq_false_2; [done|]. intros [Hname [Hne _]]%Hocc. by apply Hne, (Hq q).
Qed.

Lemma removeNode_refines c node ni :
  wf c → nodesMap c !! node_Name node = Some ni →
  ∃ c', removeNode node c = Some (c', ni_node ni,
      filter (λ p, isAssumedPod c (pod_UID p) = false) (ni_Pods ni)) ∧
    wf c' ∧ abs c' = spec_removeNode node (abs c).
Proof.
  intros [Hwf Hass] Hn. unfold removeNode. rewrite Hn.
  destruct (wf_node _ _ _ _ _ _ _ _ _ Hwf _ _ Hn) as [(nd & Hnd & Hname) Hnodup _ _].
  pose proof (orphan_loop (ni_Pods ni) c [] Hnodup) as Hloop.
  destruct (foldl orphanPod (c, []) (ni_Pods ni)) as [c1 orphans].
  destruct Hloop as (Hb & Hs & Hr & ->). assert (Hrem : removal c c1 ni) by done.
  destruct Hb as (Hb1 & Hb2 & Hb3).
  destruct (updatePVC_remove (set_nodesInfoPodsWithReqAntiAffinity None
      (set_nodesInfoPodsWithAffinity None (set_nodesInfo None
        (set_nodesMap (delete (node_Name node)) c1)))) (nodesMap c) (node_Name node) ni nd)
    as (V & HV & Hpvc); [cbn; rewrite Hb3; apply Hwf|done|done|].
  rewrite HV. cbn [mbind option_bind]. eexists. split; [done|].
  pose proof (removal_abs c c1 _ ni (conj Hwf Hass) Hn Hrem) as Habs. split; [split|].
  - unfold wfG. cbn. rewrite Hb1. split; try apply list_ok_None; try done.
    + by eapply removal_pod_ok.
    + intros m mi [Hm Hmi]%lookup_delete_Some. by eapply removal_node_ok.
    + intros k. by eapply removal_derived.
    + intros k. by eapply removal_derived.
  - intros k. cbn. destruct (key_on_node c _ ni k Hwf Hn) as [(p & Hp & -> & _)|[Hk _]].
    + destruct (Hr p Hp) as (_ & -> & _). by intros [].
    + destruct (Hs k Hk) as (-> & _ & -> & _). apply Hass.
  - change (spec_removeNode node (abs c)) with (spec_removeNode (mkNode (node_Name node) false ∅) (abs c)).
    rewrite <- Habs. unfold abs, nodes_of. cbn.
    by rewrite Hb1, Hb2, omap_delete.
Qed.

End Nodes.
