(* ===== verification/SchedulerCacheThms.v ===== *)
(** * What the scheduler cache promises

    The operations of the cache as one interface, the refinement of the
    abstract cache by the detailed one, the states reachable from an empty
    cache, and what the queries answer in such states. *)

From S2P Require Import Prelude.
From S2P Require Import GoStrings.
From S2P Require Import K8sApi.
From S2P Require Import K8sInstances.
From S2P Require Import Constants.
From S2P Require Import PodUtils.
From S2P Require Import SchedulerCache.
From S2P Require Import SchedulerCacheInv.
From S2P Require Import SchedulerCacheOps.
From S2P Require Import SchedulerCacheNodes.

(** ** The interface of the cache *)

Inductive CacheOp :=
  | OpUpdateNode (node : Node)
  | OpRemoveNode (node : Node)
  | OpUpdatePod (pod : Pod)
  | OpRemovePod (pod : Pod)
  | OpAssumePod (pod : Pod) (allBound : bool)
  | OpForgetPod (pod : Pod)
  | OpUpdatePriorityClass (pc : PriorityClass)
  | OpRemovePriorityClass (pc : PriorityClass)
  | OpGetNodesInfo
  | OpGetNodesInfoPodsWithAffinity
  | OpGetNodesInfoPodsWithReqAntiAffinity.

(** The cache after an operation; the results are the subject of the theorems
    on the single operations. *)
Definition run_op `{NodeInfoOps} `{MapOrder} (op : CacheOp) (c : SchedulerCache) :
    option SchedulerCache :=
  match op with
  | OpUpdateNode node => '(c', _, _) ← updateNode node c; Some c'
  | OpRemoveNode node => '(c', _, _) ← removeNode node c; Some c'
  | OpUpdatePod pod => '(c', _) ← updatePod pod c; Some c'
  | OpRemovePod pod => removePod pod c
  | OpAssumePod pod allBound => assumePod pod allBound c
  | OpForgetPod pod => forgetPod pod c
  | OpUpdatePriorityClass pc => Some (updatePriorityClass pc c)
  | OpRemovePriorityClass pc => Some (removePriorityClass pc c)
  | OpGetNodesInfo => Some (GetNodesInfo c).2
  | OpGetNodesInfoPodsWithAffinity => Some (GetNodesInfoPodsWithAffinity c).2
  | OpGetNodesInfoPodsWithReqAntiAffinity => Some (GetNodesInfoPodsWithReqAntiAffinity c).2
  end.

Definition spec_op (op : CacheOp) (a : AbsCache) : AbsCache :=
  match op with
  | OpUpdateNode node => spec_updateNode node a
  | OpRemoveNode node => spec_removeNode node a
  | OpUpdatePod pod => (spec_updatePod pod a).1
  | OpRemovePod pod => spec_removePod pod a
  | OpAssumePod pod allBound => spec_assumePod pod allBound a
  | OpForgetPod pod => spec_forgetPod pod a
  | OpUpdatePriorityClass pc => spec_updatePriorityClass pc a
  | OpRemovePriorityClass pc => spec_removePriorityClass pc a
  | _ => a
  end.

(** What the callers guarantee: pods have a UID and keep their immutable
    fields; only a pod that has not ended is assumed. *)
Definition op_valid (c : SchedulerCache) (op : CacheOp) : Prop :=
  match op with
  | OpUpdatePod pod | OpRemovePod pod | OpForgetPod pod => pod_valid c pod
  | OpAssumePod pod _ => pod_valid c pod ∧ IsPodTerminated pod = false
  | _ => True
  end.

(** The states of the cache, for any order of the map iterations. *)
Inductive reachable `{NodeInfoOps} : SchedulerCache → Prop :=
  | reach_new : reachable NewSchedulerCache
  | reach_op (MO : MapOrder) c op c' :
      reachable c → op_valid c op → run_op op c = Some c' → reachable c'.

(** ** Lemmas *)

Section Thms.
Context `{NIO : NodeInfoOps} `{NIL : !NodeInfoLaws}.

Lemma wf_new : wf NewSchedulerCache.
Proof.
  split; [split|]; cbn; try done; try apply list_ok_None.
  intros k. cbn. rewrite lookup_empty. by intros [].
Qed.

Section Order.
Context `{MO : MapOrder}.

Lemma nodes_with_ok (f : NodeInfo → list Pod) N :
  list_ok (λ ni, f ni ≠ []) N (Some (nodes_with f (go_range N))).
Proof.
  intros l [= <-]. unfold nodes_with. split.
  - eapply sublist_NoDup; [|apply fmap_sublist, sublist_filter].
    rewrite go_range_perm. apply NoDup_fst_map_to_list.
  - intros n. rewrite list_elem_of_fmap. split.
    + intros ([m ni] & -> & Hin). apply list_elem_of_filter in Hin as [Hlen Hin].
      apply elem_of_go_range in Hin. exists ni. split; [done|]. intros Hnil.
      simpl in Hlen. rewrite Hnil in Hlen. simpl in Hlen. lia.
    + intros (ni & Hni & Hne). exists (n, ni). split; [done|].
      apply list_elem_of_filter. split; [|by apply elem_of_go_range].
      simpl. destruct (f ni); [done|simpl; lia].
Qed.

Lemma nodes_all_ok N : list_ok (λ _, True) N (Some (go_range N).*1).
Proof.
  intros l [= <-]. split.
  - rewrite go_range_perm. apply NoDup_fst_map_to_list.
  - intros n. rewrite list_elem_of_fmap. split.
    + intros ([m ni] & -> & Hin%elem_of_go_range). eauto.
    + intros (ni & Hni & _). exists (n, ni). split; [done|]. by apply elem_of_go_range.
Qed.

(** The three lists: what is returned is right and the cache stays right. *)
Lemma GetNodesInfo_ok c :
  wf c → list_ok (λ _, True) (nodesMap c) (Some (GetNodesInfo c).1) ∧
    wf (GetNodesInfo c).2 ∧ abs (GetNodesInfo c).2 = abs c.
Proof.
  intros [Hwf Hass]. unfold GetNodesInfo. destruct (nodesInfo c) as [l|] eqn:E; cbn.
  - split; [|done]. rewrite <- E. apply Hwf.
  - split; [apply nodes_all_ok|]. split; [|done]. split; [|exact Hass].
    destruct Hwf. split; try done. apply nodes_all_ok.
Qed.

Lemma GetNodesInfoPodsWithAffinity_ok c :
  wf c → list_ok (λ ni, ni_PodsWithAffinity ni ≠ []) (nodesMap c)
      (Some (GetNodesInfoPodsWithAffinity c).1) ∧
    wf (GetNodesInfoPodsWithAffinity c).2 ∧ abs (GetNodesInfoPodsWithAffinity c).2 = abs c.
Proof.
  intros [Hwf Hass]. unfold GetNodesInfoPodsWithAffinity.
  destruct (nodesInfoPodsWithAffinity c) as [l|] eqn:E; cbn.
  - split; [|done]. rewrite <- E. apply Hwf.
  - split; [apply nodes_with_ok|]. split; [|done]. split; [|exact Hass].
    destruct Hwf. split; try done. apply nodes_with_ok.
Qed.

Lemma GetNodesInfoPodsWithReqAntiAffinity_ok c :
  wf c → list_ok (λ ni, ni_PodsWithRequiredAntiAffinity ni ≠ []) (nodesMap c)
      (Some (GetNodesInfoPodsWithReqAntiAffinity c).1) ∧
    wf (GetNodesInfoPodsWithReqAntiAffinity c).2 ∧
    abs (GetNodesInfoPodsWithReqAntiAffinity c).2 = abs c.
Proof.
  intros [Hwf Hass]. unfold GetNodesInfoPodsWithReqAntiAffinity.
  destruct (nodesInfoPodsWithReqAntiAffinity c) as [l|] eqn:E; cbn.
  - split; [|done]. rewrite <- E. apply Hwf.
  - split; [apply nodes_with_ok|]. split; [|done]. split; [|exact Hass].
    destruct Hwf. split; try done. apply nodes_with_ok.
Qed.

Lemma run_op_refines c op :
  wf c → op_valid c op →
  ∃ c', run_op op c = Some c' ∧ wf c' ∧ abs c' = spec_op op (abs c).
Proof.
  intros Hwf Hv. destruct op as [node|node|pod|pod|pod b|pod|pc|pc| | |]; cbn [run_op spec_op].
  - destruct (nodesMap c !! node_Name node) as [ni|] eqn:Hn;
      [destruct (updateNode_known c node ni Hwf Hn) as (c' & -> & Hr)
      |destruct (updateNode_new c node Hwf Hn) as (c' & -> & Hr)]; by exists c'.
  - destruct (nodesMap c !! node_Name node) as [ni|] eqn:Hn.
    + destruct (removeNode_refines c node ni Hwf Hn) as (c' & -> & Hr). by exists c'.
    + rewrite removeNode_absent by done. exists c. split_and!; try done.
      unfold spec_removeNode. rewrite decide_False; [done|]. simpl.
      rewrite (nodes_of_is_Some ∅), Hn by apply Hwf. by intros [].
  - destruct (updatePod_refines c pod Hwf Hv) as (c' & b & -> & Hr & ->). by exists c'.
  - by apply removePod_refines.
  - by apply assumePod_refines; [|apply Hv..].
  - by apply forgetPod_refines.
  - by exists (updatePriorityClass pc c).
  - by exists (removePriorityClass pc c).
  - destruct (GetNodesInfo_ok c Hwf) as (_ & ? & ?). eauto.
  - destruct (GetNodesInfoPodsWithAffinity_ok c Hwf) as (_ & ? & ?). eauto.
  - destruct (GetNodesInfoPodsWithReqAntiAffinity_ok c Hwf) as (_ & ? & ?). eauto.
Qed.

End Order.

Lemma reachable_wf c : reachable c → wf c.
Proof.
  induction 1 as [|MO c op c' Hreach IH Hv Hrun]; [apply wf_new|].
  destruct (run_op_refines c op IH Hv) as (c2 & Hrun' & Hwf & _). congruence.
Qed.

(** ** Theorems: refinement and reachable states *)

(** C7: refinement.  Every operation of the cache, called in a well-formed
    state on an object its callers may pass, returns without a nil
    dereference, leaves the cache well-formed (assigned pods, orphans, pods per
    node, PVC counts and cached lists agree with the nodes and the pods), and
    changes nodes, pods, assumed pods and priority classes exactly as the
    abstract operation does, whatever the order of the map iterations. *)
Theorem cache_op_refines_spec `{MO : MapOrder} c op :
  wf c → op_valid c op →
  ∃ c', run_op op c = Some c' ∧ wf c' ∧ abs c' = spec_op op (abs c).
Proof. apply run_op_refines. Qed.

(** Every state the cache can reach from an empty one is well-formed, and
    no operation on it panics. *)
Theorem reachable_cache_never_panics `{MO : MapOrder} c op :
  reachable c → wf c ∧ (op_valid c op → is_Some (run_op op c)).
Proof.
  intros Hr. pose proof (reachable_wf c Hr) as Hwf. split; [done|]. intros Hv.
  destruct (run_op_refines c op Hwf Hv) as (c' & -> & _). eauto.
Qed.

(** ** Theorems: placement of pods *)


(** A PVC counts as used exactly when some cached pod that sits on a known
    node mounts it. *)
Theorem pvc_used_iff_mounted c key :
  wf c →
  IsPVCUsedByPods c key = true ↔
  ∃ k p, podsMap c !! k = Some p ∧ is_Some (assignedPods c !! k) ∧ key ∈ pod_pvc_keys p.
Proof.
  intros [Hwf _]. unfold IsPVCUsedByPods. rewrite bool_decide_eq_true, (wf_pvc _ _ _ _ _ _ _ _ _ Hwf).
  unfold nonempty_counts. split.
  - case_decide as Hc; [by intros []|intros _].
    apply map_choose in Hc as (n & x & Hx). unfold node_counts in Hx.
    rewrite lookup_omap in Hx. destruct (nodesMap c !! n) as [ni|] eqn:Hn; [|done]. simpl in Hx.
    destruct (wf_node _ _ _ _ _ _ _ _ _ Hwf _ _ Hn) as [_ _ Hpods [_ _ Hpvc]].
    rewrite Hpvc in Hx. case_decide as Hz; [done|].
    apply pvc_count_pos in Hz as (p & Hp & Hkey). apply Hpods in Hp as (Hp & Hname & Hh).
    exists (pod_UID p), p. split_and!; try done.
    rewrite (wf_assigned _ _ _ _ _ _ _ _ _ Hwf), Hp. simpl. unfold assigned_to.
    rewrite decide_True by done. eauto.
  - intros (k & p & Hp & Ha & Hkey). rewrite (wf_assigned _ _ _ _ _ _ _ _ _ Hwf), Hp in Ha.
    simpl in Ha. unfold assigned_to in Ha. case_decide as Hh; [|by destruct Ha].
    pose proof Hh as (_ & [ni Hni] & _).
    destruct (wf_node _ _ _ _ _ _ _ _ _ Hwf _ _ Hni) as [_ _ Hpods [_ _ Hpvc]].
    destruct (wf_pod _ _ _ _ _ _ _ _ _ Hwf _ _ Hp) as (Hu & _ & _).
    rewrite decide_False; [eauto|]. intros Hc.
    assert (Hl : node_counts (nodesMap c) key !! pod_NodeName p = None) by (by rewrite Hc).
    unfold node_counts in Hl. rewrite lookup_omap, Hni in Hl. simpl in Hl.
    rewrite Hpvc in Hl. case_decide as Hz; [|done].
    apply (proj2 (pvc_count_pos key (ni_Pods ni))) in Hz; [done|].
    exists p. split; [|done]. apply Hpods. by rewrite Hu.
Qed.

Lemma elem_of_List `{MO : MapOrder} c matches p :
  wfG ∅ c →
  p ∈ List c matches ↔
  podsMap c !! pod_UID p = Some p ∧ homed ∅ (nodesMap c) p ∧ matches (pod_Labels p) = true.
Proof.
  intros Hwf. unfold List. rewrite list_elem_of_bind. split.
  - intros ([n ni] & Hp & Hn). apply elem_of_go_range in Hn.
    apply list_elem_of_filter in Hp as [Hm Hp]. apply Is_true_eq_true in Hm.
    apply (wf_node _ _ _ _ _ _ _ _ _ Hwf _ _ Hn) in Hp. naive_solver.
  - intros (Hp & Hh & Hm). pose proof Hh as (_ & [ni Hni] & _).
    exists (pod_NodeName p, ni). split; [|by apply elem_of_go_range].
    apply list_elem_of_filter. split; [by rewrite Hm|].
    by apply (wf_node _ _ _ _ _ _ _ _ _ Hwf _ _ Hni).
Qed.

Lemma NoDup_List `{MO : MapOrder} c matches : wfG ∅ c → NoDup (List c matches).
Proof.
  intros Hwf. unfold List. apply NoDup_bind.
  - intros [n ni] [m mi] p Hn Hm Hp1 Hp2. apply elem_of_go_range in Hn, Hm.
    apply list_elem_of_filter in Hp1 as [_ Hp1], Hp2 as [_ Hp2].
    apply (wf_node _ _ _ _ _ _ _ _ _ Hwf _ _ Hn) in Hp1 as (_ & <- & _).
    apply (wf_node _ _ _ _ _ _ _ _ _ Hwf _ _ Hm) in Hp2 as (_ & <- & _).
    congruence.
  - intros [n ni] Hn%elem_of_go_range. apply NoDup_filter. eapply NoDup_fmap_1.
    apply (wf_node _ _ _ _ _ _ _ _ _ Hwf _ _ Hn).
  - eapply NoDup_fmap_1. rewrite go_range_perm. apply NoDup_fst_map_to_list.
Qed.

Lemma homed_iff_assigned c p :
  wfG ∅ c → podsMap c !! pod_UID p = Some p →
  homed ∅ (nodesMap c) p ↔ is_Some (assignedPods c !! pod_UID p).
Proof.
  intros Hwf Hp. rewrite (wf_assigned _ _ _ _ _ _ _ _ _ Hwf), Hp. simpl. unfold assigned_to.
  case_decide as Hh; split; try done; by intros [].
Qed.

(** The pod lister lists exactly the pods that sit on a known node and
    match the selector, each once. *)
Theorem List_lists_assigned_pods `{MO : MapOrder} c matches :
  wf c →
  NoDup (pod_UID <$> List c matches) ∧
  ∀ p, p ∈ List c matches ↔
    podsMap c !! pod_UID p = Some p ∧ is_Some (assignedPods c !! pod_UID p) ∧
    matches (pod_Labels p) = true.
Proof.
  intros [Hwf _]. split.
  - apply NoDup_fmap_2_strong; [|by apply NoDup_List].
    intros p q Hp%elem_of_List Hq%elem_of_List Hu; [|done..].
    rewrite Hu in Hp. destruct Hp as [Hp _], Hq as [Hq _]. congruence.
  - intros p. rewrite elem_of_List by done.
    split; intros (Hp & Hh & Hm); split_and!; try done; by apply homed_iff_assigned.
Qed.

(** A node has selected pods exactly when an assigned pod is selected. *)
Lemma hosting_node c n (f : NodeInfo → list Pod) (sel : Pod → bool) :
  wf c → (∀ ni, ni_consistent ni → f ni ≡ₚ filter sel (ni_Pods ni)) →
  (∃ ni, nodesMap c !! n = Some ni ∧ f ni ≠ []) ↔
  ∃ k p, podsMap c !! k = Some p ∧ assignedPods c !! k = Some n ∧ sel p = true.
Proof.
  intros [Hwf _] Hf. split.
  - intros (ni & Hni & Hne). destruct (wf_node _ _ _ _ _ _ _ _ _ Hwf _ _ Hni) as [_ _ Hpods Hc].
    rewrite (perm_nil_iff _ _ (Hf ni Hc)) in Hne.
    destruct (filter sel (ni_Pods ni)) as [|p l] eqn:E; [done|].
    assert (Hp : p ∈ filter sel (ni_Pods ni)) by (rewrite E; left).
    apply list_elem_of_filter in Hp as [Hs Hp]. apply Is_true_eq_true in Hs.
    apply Hpods in Hp as (Hp & <- & Hh). exists (pod_UID p), p. split_and!; try done.
    rewrite (wf_assigned _ _ _ _ _ _ _ _ _ Hwf), Hp. simpl. unfold assigned_to.
    by rewrite decide_True.
  - intros (k & p & Hp & Ha & Hs). rewrite (wf_assigned _ _ _ _ _ _ _ _ _ Hwf), Hp in Ha.
    simpl in Ha. unfold assigned_to in Ha. case_decide as Hh; [|done]. injection Ha as <-.
    pose proof Hh as (_ & [ni Hni] & _). exists ni. split; [done|].
    destruct (wf_node _ _ _ _ _ _ _ _ _ Hwf _ _ Hni) as [_ _ Hpods Hc].
    destruct (wf_pod _ _ _ _ _ _ _ _ _ Hwf _ _ Hp) as (Hu & _ & _).
    rewrite (perm_nil_iff _ _ (Hf ni Hc)). intros Hnil.
    assert (Hin : p ∈ filter sel (ni_Pods ni)).
    { apply list_elem_of_filter. split; [by rewrite Hs|]. apply Hpods. by rewrite Hu. }
    rewrite Hnil in Hin. by apply not_elem_of_nil in Hin.
Qed.

(** The three node lists of the predicate lister, cached or computed, name
    each node once: all nodes, the nodes that host a pod with affinity rules,
    and the nodes that host a pod with required anti-affinity. *)
Theorem node_lists_are_fresh `{MO : MapOrder} c n :
  wf c →
  (n ∈ (GetNodesInfo c).1 ↔ is_Some (nodesMap c !! n)) ∧
  (n ∈ (GetNodesInfoPodsWithAffinity c).1 ↔
     ∃ k p, podsMap c !! k = Some p ∧ assignedPods c !! k = Some n ∧ podWithAffinity p = true) ∧
  (n ∈ (GetNodesInfoPodsWithReqAntiAffinity c).1 ↔
     ∃ k p, podsMap c !! k = Some p ∧ assignedPods c !! k = Some n ∧
       podWithRequiredAntiAffinity p = true) ∧
  NoDup (GetNodesInfo c).1 ∧ NoDup (GetNodesInfoPodsWithAffinity c).1 ∧
  NoDup (GetNodesInfoPodsWithReqAntiAffinity c).1.
Proof.
  intros Hwf. destruct (GetNodesInfo_ok c Hwf) as [H1 _].
  destruct (GetNodesInfoPodsWithAffinity_ok c Hwf) as [H2 _].
  destruct (GetNodesInfoPodsWithReqAntiAffinity_ok c Hwf) as [H3 _].
  destruct (H1 _ eq_refl) as [Hnd1 Hin1], (H2 _ eq_refl) as [Hnd2 Hin2],
    (H3 _ eq_refl) as [Hnd3 Hin3].
  rewrite Hin1, Hin2, Hin3. split_and!; try done.
  - split; [intros (ni & -> & _); eauto|intros [ni ->]; eauto].
  - apply hosting_node; [done|]. by intros ni [].
  - apply hosting_node; [done|]. by intros ni [].
Qed.

(** ** Theorems: assumed pods *)

Lemma abs_pods c a : abs c = a → podsMap c = a_pods a.
Proof. by intros <-. Qed.

Lemma abs_assumed c a : abs c = a → assumedPods c = a_assumed a.
Proof. by intros <-. Qed.

Lemma spec_kept_named a pod : pod_NodeName pod ≠ "" → spec_kept a pod = pod.
Proof. intros Hn. unfold spec_kept. case_match; [|done]. by rewrite decide_False by tauto. Qed.

Lemma pod_valid_same c p q :
  podsMap c !! pod_UID p = Some p → pod_UID q = pod_UID p → pod_UID p ≠ "" →
  same_identity q p → pod_valid c q.
Proof.
  intros Hp Hu Hne Hs. split; [congruence|]. intros cur. rewrite Hu, Hp. by intros [= <-].
Qed.

Lemma spec_kept_unassumed a pod : a_assumed a !! pod_UID pod = None → spec_kept a pod = pod.
Proof.
  intros Ha. unfold spec_kept. case_match; [|done]. rewrite decide_False; [done|].
  rewrite Ha. by intros (_ & _ & []).
Qed.

Lemma spec_updatePod_live a pod :
  IsPodTerminated pod = false →
  (spec_updatePod pod a).1 = mkAbsCache (a_nodes a) (<[pod_UID pod := spec_kept a pod]> (a_pods a))
    (if IsPodRunning pod then delete (pod_UID pod) (a_assumed a) else a_assumed a) (a_pcs a).
Proof. intros Ht. unfold spec_updatePod. by rewrite Ht. Qed.

(** Assuming a pod that is not assumed yet. *)
Lemma spec_assume_new a p n b :
  a_assumed a !! pod_UID p = None → IsPodTerminated p = false → n ≠ "" →
  spec_assumePod (pod_with_NodeName p n) b a =
  mkAbsCache (a_nodes a) (<[pod_UID p := pod_with_NodeName p n]> (a_pods a))
    (<[pod_UID p := b]> (a_assumed a)) (a_pcs a).
Proof.
  intros Ha Ht Hn. unfold spec_assumePod. rewrite spec_updatePod_live by done.
  rewrite spec_kept_named by done. cbn. f_equal.
  destruct (IsPodRunning _); [by rewrite insert_delete_eq|done].
Qed.

Lemma spec_forget_assumed a p n :
  is_Some (a_assumed a !! pod_UID p) → IsPodTerminated p = false → pod_NodeName p = "" →
  spec_forgetPod (pod_with_NodeName p n) a =
  mkAbsCache (a_nodes a) (<[pod_UID p := p]> (a_pods a)) (delete (pod_UID p) (a_assumed a)) (a_pcs a).
Proof.
  intros Ha Ht Hn. unfold spec_forgetPod.
  change (pod_UID (pod_with_NodeName p n)) with (pod_UID p). rewrite decide_True by done.
  change (pod_with_NodeName (pod_with_NodeName p n) "") with (pod_with_NodeName p "").
  rewrite pod_with_NodeName_id, spec_updatePod_live by done.
  rewrite spec_kept_unassumed by apply lookup_delete_eq. cbn. f_equal.
  destruct (IsPodRunning p); [by rewrite delete_delete_eq|done].
Qed.

Lemma isAssumedPod_false c k : isAssumedPod c k = false ↔ assumedPods c !! k = None.
Proof.
  unfold isAssumedPod. rewrite bool_decide_eq_false, eq_None_not_Some. done.
Qed.

(** C34: forgetting undoes assuming.  A pending pod that is assumed on a node is
    stored with that node name and counts as assumed; forgetting it brings the
    nodes, the pods and the assumed pods back to what they were before, whether
    the node is known or not. *)
Theorem forget_undoes_assume c k p n allBound :
  wf c → podsMap c !! k = Some p → pod_NodeName p = "" → isAssumedPod c k = false → n ≠ "" →
  ∃ c1 c2, assumePod (pod_with_NodeName p n) allBound c = Some c1 ∧
    isAssumedPod c1 k = true ∧ ArePodVolumesAllBound c1 k = allBound ∧
    podsMap c1 !! k = Some (pod_with_NodeName p n) ∧
    forgetPod (pod_with_NodeName p n) c1 = Some c2 ∧ wf c2 ∧ abs c2 = abs c.
Proof.
  intros Hwf Hp Hname Ha%isAssumedPod_false Hn. pose proof Hwf as [Hg _].
  destruct (wf_pod _ _ _ _ _ _ _ _ _ Hg _ _ Hp) as (<- & Hne & Ht).
  destruct (assumePod_refines c (pod_with_NodeName p n) allBound Hwf) as (c1 & H1 & Hwf1 & Habs1);
    [by eapply pod_valid_same|done|].
  rewrite spec_assume_new in Habs1 by done.
  pose proof (abs_pods _ _ Habs1) as HP1. pose proof (abs_assumed _ _ Habs1) as HA1.
  cbn in HP1, HA1.
  destruct (forgetPod_refines c1 (pod_with_NodeName p n) Hwf1) as (c2 & H2 & Hwf2 & Habs2).
  { apply (pod_valid_same _ (pod_with_NodeName p n)); try done. cbn. by rewrite HP1, lookup_insert_eq. }
  exists c1, c2. split_and!; try done.
  - apply isAssumedPod_spec. rewrite HA1, lookup_insert_eq. eauto.
  - unfold ArePodVolumesAllBound. by rewrite HA1, lookup_insert_eq.
  - by rewrite HP1, lookup_insert_eq.
  - rewrite spec_forget_assumed in Habs2 by
      (try done; cbn; rewrite HA1, lookup_insert_eq; eauto).
    rewrite Habs2, Habs1. unfold abs. cbn. f_equal.
    + rewrite insert_insert_eq. by apply insert_id.
    + by rewrite delete_insert_id.
Qed.

(** An informer update that carries no node name, which reaches the cache
    before the bind shows up, does not lose the assignment of an assumed pod:
    the stored pod keeps the node it is assumed on and stays assumed.  The
    assignment of a pod that is not assumed is dropped, not resurrected. *)
Theorem assumed_pod_keeps_node c cur n pod :
  wf c → podsMap c !! pod_UID pod = Some cur → assignedPods c !! pod_UID pod = Some n →
  same_identity pod cur → pod_NodeName pod = "" →
  IsPodRunning pod = false → IsPodTerminated pod = false →
  ∃ c', updatePod pod c = Some (c', true) ∧ wf c' ∧
    assumedPods c' = assumedPods c ∧
    podsMap c' !! pod_UID pod =
      Some (if isAssumedPod c (pod_UID pod) then pod_with_NodeName pod n else pod) ∧
    assignedPods c' !! pod_UID pod = if isAssumedPod c (pod_UID pod) then Some n else None.
Proof.
  intros Hwf Hcur Hn Hsame Hname Hrun Ht. pose proof Hwf as [Hg _].
  destruct (wf_pod _ _ _ _ _ _ _ _ _ Hg _ _ Hcur) as (Hu & Hne & _).
  rewrite (wf_assigned _ _ _ _ _ _ _ _ _ Hg), Hcur in Hn. simpl in Hn. unfold assigned_to in Hn.
  case_decide as Hh; [|done]. injection Hn as <-.
  destruct (updatePod_refines c pod Hwf) as (c' & b & Hupd & Hwf' & Hs).
  { split; [done|]. intros q. rewrite Hcur. by intros [= <-]. }
  assert (Hk : spec_kept (abs c) pod =
    if isAssumedPod c (pod_UID pod) then pod_with_NodeName pod (pod_NodeName cur) else pod).
  { unfold spec_kept, isAssumedPod. cbn. rewrite Hcur.
    apply homed_occupies in Hh; [|done]. case_decide; case_bool_decide; tauto. }
  unfold spec_updatePod in Hs. rewrite Ht, Hrun, Hk in Hs. cbn in Hs.
  injection Hs as HN HP HA _ Hb. pose proof Hwf' as [Hg' _].
  exists c'. assert (b = true) as ->.
  { rewrite <- Hb. apply bool_decide_eq_true. destruct (isAssumedPod _ _); [right|by left].
    apply homed_occupies in Hh; [|done]. destruct Hh as (_ & ? & ?). done. }
  split_and!; try done; [by rewrite <- HP, lookup_insert_eq|].
  rewrite (wf_assigned _ _ _ _ _ _ _ _ _ Hg'), <- HP, lookup_insert_eq. simpl. unfold assigned_to.
  destruct (isAssumedPod _ _); [rewrite decide_True; [done|]|by rewrite decide_False by (intros []; done)].
  destruct Hh as (? & Hs & ?). split_and!; [done| |set_solver].
  by rewrite <- (nodes_of_is_Some ∅), <- HN, (nodes_of_is_Some ∅).
Qed.

(** ** Theorems: nodes that come and go *)

Lemma elem_of_adopted `{MO : MapOrder} c n p :
  wfG ∅ c →
  p ∈ adopted_pods n (go_range (orphanedPods c)) ↔
  orphanedPods c !! pod_UID p = Some p ∧ pod_NodeName p = n.
Proof.
  intros Hwf. unfold adopted_pods. rewrite list_elem_of_fmap. split.
  - intros ([k q] & -> & Hq). apply list_elem_of_filter in Hq as [Hn Hq].
    apply elem_of_go_range in Hq. simpl in *. pose proof Hq as Ho.
    rewrite (wf_orphaned _ _ _ _ _ _ _ _ _ Hwf) in Ho.
    destruct (podsMap c !! k) as [q'|] eqn:E; [|done]. simpl in Ho. unfold orphan_of in Ho.
    case_decide; [|done]. injection Ho as ->.
    by destruct (wf_pod _ _ _ _ _ _ _ _ _ Hwf _ _ E) as (-> & _).
  - intros [Hp Hn]. exists (pod_UID p, p). split; [done|].
    apply list_elem_of_filter. split; [done|]. by apply elem_of_go_range.
Qed.

(** A node that is new to the cache adopts exactly the orphans that carry
    its name; they are reported to the caller, and afterwards they are
    assigned to the node and orphans no more. *)
Theorem new_node_adopts_orphans `{MO : MapOrder} c node :
  wf c → nodesMap c !! node_Name node = None →
  ∃ c' adopted, updateNode node c = Some (c', None, adopted) ∧ wf c' ∧
    podsMap c' = podsMap c ∧
    (∀ p, p ∈ adopted ↔
       orphanedPods c !! pod_UID p = Some p ∧ pod_NodeName p = node_Name node) ∧
    (∀ p, p ∈ adopted →
       assignedPods c' !! pod_UID p = Some (node_Name node) ∧
       IsPodOrphaned c' (pod_UID p) = false).
Proof.
  intros Hwf Hn. destruct (updateNode_new c node Hwf Hn) as (c' & Hu & Hwf' & Habs).
  pose proof (abs_pods _ _ Habs) as HP. cbn in HP.
  pose proof Hwf as [Hg _]. pose proof Hwf' as [Hg' _].
  do 2 eexists. split; [exact Hu|]. split_and!; [done|done| |].
  - intros p. by apply elem_of_adopted.
  - intros p [Ho Hname]%elem_of_adopted; [|done].
    rewrite (wf_orphaned _ _ _ _ _ _ _ _ _ Hg) in Ho.
    destruct (podsMap c !! pod_UID p) as [q|] eqn:Hp; [|done]. simpl in Ho.
    unfold orphan_of in Ho. case_decide as Hq; [|done]. injection Ho as ->. destruct Hq as [Hne _].
    assert (Hh : homed ∅ (nodesMap c') p).
    { split_and!; [done| |set_solver]. rewrite Hname, <- (nodes_of_is_Some ∅) by done.
      change (nodes_of c') with (a_nodes (abs c')). rewrite Habs. cbn. rewrite lookup_insert_eq. eauto. }
    unfold IsPodOrphaned.
    rewrite (wf_assigned _ _ _ _ _ _ _ _ _ Hg'), (wf_orphaned _ _ _ _ _ _ _ _ _ Hg'), HP, Hp.
    simpl. unfold assigned_to, orphan_of. rewrite decide_True, decide_False by tauto.
    by rewrite Hname.
Qed.

(** The pods of a removed node, in the state after the removal. *)
Lemma removed_node_pods c c1 n ni p node :
  wf c → wf c1 → nodesMap c !! n = Some ni → node_Name node = n → p ∈ ni_Pods ni →
  abs c1 = spec_removeNode node (abs c) →
  podsMap c1 !! pod_UID p =
  Some (if isAssumedPod c (pod_UID p) then pod_with_NodeName p "" else p).
Proof.
  intros [Hg _] _ Hn <- Hp Habs. apply (wf_node _ _ _ _ _ _ _ _ _ Hg _ _ Hn) in Hp as (Hp & Hname & Hh).
  rewrite (abs_pods _ _ Habs). unfold spec_removeNode.
  rewrite decide_True by (cbn; rewrite (nodes_of_is_Some ∅), Hn by done; eauto). cbn.
  rewrite map_lookup_imap, Hp. simpl. f_equal.
  apply homed_occupies in Hh; [|done]. rewrite Hname in Hh.
  unfold isAssumedPod. case_bool_decide; case_decide; tauto.
Qed.

Lemma removed_node_gone c c1 node ni :
  wf c → wf c1 → nodesMap c !! node_Name node = Some ni →
  abs c1 = spec_removeNode node (abs c) → nodesMap c1 !! node_Name node = None.
Proof.
  intros [Hg _] [Hg1 _] Hn Habs. apply eq_None_not_Some.
  rewrite <- (nodes_of_is_Some ∅ c1) by done.
  change (nodes_of c1) with (a_nodes (abs c1)). rewrite Habs. unfold spec_removeNode.
  rewrite decide_True by (cbn; rewrite (nodes_of_is_Some ∅), Hn by done; eauto). cbn.
  rewrite lookup_delete_eq. by intros [].
Qed.

Lemma removed_node_unassumed c c1 node ni p :
  wf c → nodesMap c !! node_Name node = Some ni → p ∈ ni_Pods ni →
  abs c1 = spec_removeNode node (abs c) → isAssumedPod c1 (pod_UID p) = false.
Proof.
  intros [Hg _] Hn Hp Habs. apply (wf_node _ _ _ _ _ _ _ _ _ Hg _ _ Hn) in Hp as (Hp & Hname & Hh).
  apply isAssumedPod_false. rewrite (abs_assumed _ _ Habs). unfold spec_removeNode.
  rewrite decide_True by (cbn; rewrite (nodes_of_is_Some ∅), Hn by done; eauto). cbn.
  apply map_lookup_filter_None. right. intros b _. unfold on_node. cbn. rewrite Hp.
  apply homed_occupies in Hh; [|done]. rewrite Hname in Hh. by rewrite bool_decide_eq_true_2.
Qed.

(** After the removal, the orphans that carry the node's name are the pods
    that were bound to it. *)
Lemma removed_node_orphan c c1 node ni p :
  wf c → wf c1 → nodesMap c !! node_Name node = Some ni →
  abs c1 = spec_removeNode node (abs c) →
  (orphanedPods c1 !! pod_UID p = Some p ∧ pod_NodeName p = node_Name node) ↔
  p ∈ filter (λ p, isAssumedPod c (pod_UID p) = false) (ni_Pods ni).
Proof.
  intros Hwf Hwf1 Hn Habs. pose proof (removed_node_gone c c1 node ni Hwf Hwf1 Hn Habs) as Hgone.
  pose proof Hwf as [Hg _]. pose proof Hwf1 as [Hg1 _].
  rewrite (wf_orphaned _ _ _ _ _ _ _ _ _ Hg1), list_elem_of_filter. split.
  - intros [Ho Hname]. destruct (podsMap c1 !! pod_UID p) as [q|] eqn:Hq; [|done].
    simpl in Ho. unfold orphan_of in Ho. case_decide as Hd; [|done]. injection Ho as ->.
    destruct Hd as [Hne _]. rewrite (abs_pods _ _ Habs) in Hq. unfold spec_removeNode in Hq.
    rewrite decide_True in Hq by (cbn; rewrite (nodes_of_is_Some ∅), Hn by done; eauto). cbn in Hq.
    rewrite map_lookup_imap in Hq. destruct (podsMap c !! pod_UID p) as [p0|] eqn:Hp0; [|done].
    simpl in Hq. case_decide as Hocc; [simplify_eq; done|]. injection Hq as ->.
    assert (Hh : homed ∅ (nodesMap c) p) by (split_and!; [done|by rewrite Hname; eauto|set_solver]).
    split; [|by apply (wf_node _ _ _ _ _ _ _ _ _ Hg _ _ Hn)].
    apply isAssumedPod_false, eq_None_not_Some. intros Hs. apply Hocc. split; [|done].
    rewrite <- Hname. by apply homed_occupies.
  - intros [Ha Hp]. pose proof Hp as (_ & Hname & Hne & _)%(wf_node _ _ _ _ _ _ _ _ _ Hg _ _ Hn).
    rewrite (removed_node_pods c c1 _ ni p node), Ha by done. simpl. unfold orphan_of.
    rewrite decide_True; [done|]. split; [done|]. intros (_ & Hs & _).
    rewrite Hname, Hgone in Hs. by destruct Hs.
Qed.

(** C22: a node that disappears and comes back gets its bound pods back and only
    those.  The removal reports the pods that were bound, keeps them as
    orphans, and reverts the pods that were only assumed to pending; when a
    node of the same name is added, exactly the reported pods are adopted and
    the reverted pods stay pending without a node. *)
Theorem node_bounce_recovers_bound_pods `{MO : MapOrder} c node ni :
  wf c → nodesMap c !! node_Name node = Some ni →
  ∃ c1 orphans c2 adopted,
    removeNode node c = Some (c1, ni_node ni, orphans) ∧
    updateNode node c1 = Some (c2, None, adopted) ∧ wf c1 ∧ wf c2 ∧
    (∀ p, p ∈ adopted ↔ p ∈ orphans) ∧
    (∀ p, p ∈ ni_Pods ni →
       let assumed := isAssumedPod c (pod_UID p) in
       (p ∈ orphans ↔ assumed = false) ∧
       IsPodOrphaned c1 (pod_UID p) = negb assumed ∧ isAssumedPod c1 (pod_UID p) = false ∧
       podsMap c2 !! pod_UID p = Some (if assumed then pod_with_NodeName p "" else p) ∧
       assignedPods c2 !! pod_UID p = if assumed then None else Some (node_Name node)).
Proof.
  intros Hwf Hn. destruct (removeNode_refines c node ni Hwf Hn) as (c1 & H1 & Hwf1 & Habs1).
  pose proof (removed_node_gone c c1 node ni Hwf Hwf1 Hn Habs1) as Hgone.
  destruct (updateNode_new c1 node Hwf1 Hgone) as (c2 & H2 & Hwf2 & Habs2).
  pose proof (abs_pods _ _ Habs2) as HP2. cbn in HP2.
  pose proof Hwf1 as [Hg1 _]. pose proof Hwf2 as [Hg2 _].
  do 4 eexists. split; [exact H1|]. split; [exact H2|]. split_and!; [done|done| |].
  - intros p. rewrite elem_of_adopted by done. by apply removed_node_orphan.
  - intros p Hp. pose proof (removed_node_pods c c1 _ ni p node Hwf Hwf1 Hn eq_refl Hp Habs1) as HP1.
    pose proof Hp as (_ & Hname & Hne & _)%(wf_node _ _ _ _ _ _ _ _ _ (proj1 Hwf) _ _ Hn).
    split_and!.
    + rewrite list_elem_of_filter. tauto.
    + unfold IsPodOrphaned. rewrite (wf_orphaned _ _ _ _ _ _ _ _ _ Hg1), HP1. simpl.
      unfold orphan_of. destruct (isAssumedPod c (pod_UID p)); [by rewrite decide_False by (simpl; tauto)|].
      rewrite decide_True; [done|]. split; [done|]. intros (_ & Hs & _).
      rewrite Hname, Hgone in Hs. by destruct Hs.
    + by apply (removed_node_unassumed c c1 node ni).
    + by rewrite HP2.
    + rewrite (wf_assigned _ _ _ _ _ _ _ _ _ Hg2), HP2, HP1. simpl. unfold assigned_to.
      destruct (isAssumedPod c (pod_UID p)); [by rewrite decide_False by apply not_homed_unassigned|].
      rewrite decide_True; [by rewrite Hname|]. split_and!; [done| |set_solver].
      rewrite Hname, <- (nodes_of_is_Some ∅) by done.
      change (nodes_of c2) with (a_nodes (abs c2)). rewrite Habs2. cbn. rewrite lookup_insert_eq. eauto.
Qed.

End Thms.

(** ** A concrete history

    A node, a pending pod with a volume that is assumed on it, a running pod
    with anti-affinity, and a pod bound to a node that is not known. *)

#[export] Instance pod_valid_dec c pod : Decision (pod_valid c pod).
Proof.
  unfold pod_valid. destruct (podsMap c !! pod_UID pod) as [cur|].
  - destruct (decide (pod_UID pod ≠ "" ∧ same_identity pod cur)) as [[Hu Hs]|Hn].
    + left. split; [done|]. by intros q [= <-].
    + right. intros [Hu Hs]. apply Hn. auto.
  - destruct (decide (pod_UID pod ≠ "")) as [Hu|Hn]; [by left|right; tauto].
Defined.

#[export] Instance op_valid_dec c op : Decision (op_valid c op).
Proof. destruct op; simpl; apply _. Defined.

(** Runs the operations one after the other as long as they are valid. *)
Fixpoint run_valid `{NodeInfoOps} `{MapOrder} (ops : list CacheOp) (c : SchedulerCache) :
    option SchedulerCache :=
  match ops with
  | [] => Some c
  | op :: ops' => if decide (op_valid c op) then run_op op c ≫= run_valid ops' else None
  end.

Lemma run_valid_reachable `{NodeInfoOps} `{MO : MapOrder} ops c c' :
  reachable c → run_valid ops c = Some c' → reachable c'.
Proof.
  revert c. induction ops as [|op ops IH]; intros c Hc; simpl; [by intros [= <-]|].
  case_decide as Hv; [|done]. destruct (run_op op c) as [c1|] eqn:E; [|done]. simpl.
  apply IH. by eapply reach_op.
Qed.

Definition pod_a : Pod :=
  pod_ref "a" "uid-a" "" PodPending (<["app" := "web"]> ∅) [mkVolume (Some "data")].
Definition pod_b : Pod :=
  let p := pod_ref "b" "uid-b" "n1" PodRunning (<["app" := "web"]> ∅) [] in
  mkPod (pod_Name p) (pod_Namespace p) (pod_UID p) (pod_Labels p) (pod_Annotations p) 0 []
    (mkPodSpec "n1" "yunikorn" [] [] None None None "" None
       (Some (mkAffinity None None (Some [mkOpaque "zone"]))) [] [] []
       ∅ [] [] "Always" (mkPodSecurityContext None None None)) (pod_Status p).
Definition pod_c : Pod := pod_ref "c" "uid-c" "n2" PodRunning ∅ [].

Definition history : list CacheOp :=
  [OpUpdateNode (node_ref "n1"); OpUpdatePod pod_a; OpUpdatePod pod_b; OpUpdatePod pod_c;
   OpAssumePod (pod_with_NodeName pod_a "n1") true].

Definition example_cache : SchedulerCache :=
  default NewSchedulerCache (run_valid history NewSchedulerCache).

Lemma example_reachable : reachable example_cache.
Proof.
  unfold example_cache. destruct (run_valid history NewSchedulerCache) as [c|] eqn:E; simpl;
    [|apply reach_new]. eapply run_valid_reachable; [apply reach_new|exact E].
Qed.

Lemma example_wf : wf example_cache.
Proof. apply reachable_wf, example_reachable. Qed.

Lemma cache_op_refines_spec_witness :
  ∃ c', run_op (OpRemoveNode (node_ref "n1")) example_cache = Some c' ∧ wf c' ∧
    abs c' = spec_op (OpRemoveNode (node_ref "n1")) (abs example_cache).
Proof. exact (cache_op_refines_spec example_cache (OpRemoveNode (node_ref "n1")) example_wf I). Defined.

Lemma reachable_cache_never_panics_witness :
  wf example_cache ∧ is_Some (run_op (OpUpdatePod pod_b) example_cache).
Proof.
  destruct (reachable_cache_never_panics example_cache (OpUpdatePod pod_b) example_reachable)
    as [Hwf Hrun].
  split; [exact Hwf|]. apply Hrun. apply (bool_decide_eq_true_1 (op_valid _ _)).
  vm_compute. reflexivity.
Defined.


Lemma pvc_used_iff_mounted_witness :
  IsPVCUsedByPods example_cache "default/data" = true.
Proof.
  apply (proj2 (pvc_used_iff_mounted example_cache "default/data" example_wf)).
  exists "uid-a", (pod_with_NodeName pod_a "n1"). split_and!.
  - vm_compute. reflexivity.
  - apply (bool_decide_eq_true_1 (is_Some _)). vm_compute. reflexivity.
  - left.
Defined.

Lemma List_lists_assigned_pods_witness :
  pod_b ∈ List example_cache (λ ls, bool_decide (ls !! "app" = Some "web")).
Proof.
  apply (proj2 (List_lists_assigned_pods example_cache _ example_wf) pod_b). split_and!.
  - vm_compute. reflexivity.
  - apply (bool_decide_eq_true_1 (is_Some _)). vm_compute. reflexivity.
  - vm_compute. reflexivity.
Defined.

Lemma node_lists_are_fresh_witness :
  "n1" ∈ (GetNodesInfoPodsWithReqAntiAffinity example_cache).1.
Proof.
  destruct (node_lists_are_fresh example_cache "n1" example_wf) as (_ & _ & Hanti & _).
  apply Hanti. exists "uid-b", pod_b. split_and!; vm_compute; reflexivity.
Defined.

(** The cache before the pod is assumed. *)
Definition example_cache_pending : SchedulerCache :=
  default NewSchedulerCache (run_valid (take 4 history) NewSchedulerCache).

Lemma example_pending_wf : wf example_cache_pending.
Proof.
  apply reachable_wf. unfold example_cache_pending.
  destruct (run_valid (take 4 history) NewSchedulerCache) as [c|] eqn:E; simpl; [|apply reach_new].
  eapply run_valid_reachable; [apply reach_new|exact E].
Qed.

Lemma forget_undoes_assume_witness :
  ∃ c1 c2, assumePod (pod_with_NodeName pod_a "n1") false example_cache_pending = Some c1 ∧
    isAssumedPod c1 "uid-a" = true ∧ ArePodVolumesAllBound c1 "uid-a" = false ∧
    podsMap c1 !! "uid-a" = Some (pod_with_NodeName pod_a "n1") ∧
    forgetPod (pod_with_NodeName pod_a "n1") c1 = Some c2 ∧ wf c2 ∧
    abs c2 = abs example_cache_pending.
Proof.
  apply (forget_undoes_assume example_cache_pending "uid-a" pod_a "n1" false example_pending_wf);
    [vm_compute; reflexivity|reflexivity|vm_compute; reflexivity|done].
Defined.

Lemma assumed_pod_keeps_node_witness :
  ∃ c', updatePod pod_a example_cache = Some (c', true) ∧ wf c' ∧
    assumedPods c' = assumedPods example_cache ∧
    podsMap c' !! "uid-a" = Some (pod_with_NodeName pod_a "n1") ∧
    assignedPods c' !! "uid-a" = Some "n1".
Proof.
  destruct (assumed_pod_keeps_node example_cache (pod_with_NodeName pod_a "n1") "n1" pod_a example_wf)
    as (c' & H1 & H2 & H3 & H4 & H5); try (vm_compute; reflexivity); [done|].
  exists c'. split_and!; assumption.
Defined.

Lemma new_node_adopts_orphans_witness :
  ∃ c' adopted, updateNode (node_ref "n2") example_cache = Some (c', None, adopted) ∧
    pod_c ∈ adopted ∧ assignedPods c' !! "uid-c" = Some "n2".
Proof.
  destruct (new_node_adopts_orphans example_cache (node_ref "n2") example_wf)
    as (c' & adopted & H1 & _ & _ & H4 & H5); [vm_compute; reflexivity|].
  assert (Hc : pod_c ∈ adopted) by (apply H4; split; vm_compute; reflexivity).
  exists c', adopted. split_and!; [exact H1|exact Hc|apply (H5 pod_c Hc)].
Defined.

Lemma node_bounce_recovers_bound_pods_witness :
  ∃ c1 orphans c2 adopted,
    removeNode (node_ref "n1") example_cache = Some (c1, Some (node_ref "n1"), orphans) ∧
    updateNode (node_ref "n1") c1 = Some (c2, None, adopted) ∧
    podsMap c2 !! "uid-a" = Some pod_a ∧ assignedPods c2 !! "uid-b" = Some "n1".
Proof.
  destruct (nodesMap example_cache !! "n1") as [ni|] eqn:Hni; [|vm_compute in Hni; discriminate].
  destruct (node_bounce_recovers_bound_pods example_cache (node_ref "n1") ni example_wf Hni)
    as (c1 & orphans & c2 & adopted & H1 & H2 & _ & _ & _ & H6).
  exists c1, orphans, c2, adopted. vm_compute in Hni. injection Hni as <-.
  split_and!; [exact H1|exact H2| |].
  - refine (proj1 (proj2 (proj2 (proj2 (H6 (pod_with_NodeName pod_a "n1") _))))). right. left.
  - refine (proj2 (proj2 (proj2 (proj2 (H6 pod_b _))))). left.
Defined.
