(* ===== verification/CacheDao.v ===== *)
(** * The state dump: [pkg/cache/external/scheduler_cache_dao.go]

    [GetSchedulerCacheDao] of the scheduler cache: a copy of the nodes, pods and
    priority classes, and for each pod what the scheduler knows about it.  Of the
    Kubernetes objects the fields are those of the model. *)

From S2P Require Import Prelude.
From S2P Require Import GoStrings.
From S2P Require Import K8sApi.
From S2P Require Import K8sInstances.
From S2P Require Import Constants.
From S2P Require Import Resource.
From S2P Require Import PodUtils.
From S2P Require Import SchedulerCache.
From S2P Require Import SchedulerCacheInv.
From S2P Require Import SchedulerCacheOps.
From S2P Require Import SchedulerCacheNodes.
From S2P Require Import SchedulerCacheThms.

Record NodeDao := mkNodeDao { nd_Name : string; nd_Allocatable : ResourceList }.

Record ContainerDao := mkContainerDao { cd_Name : string; cd_Requests : ResourceList }.

Record PodDao := mkPodDao {
  pd_Namespace : string;
  pd_Name : string;
  pd_UID : string;
  pd_CreationTimestamp : Z;
  pd_Annotations : gmap string string;
  pd_Labels : gmap string string;
  pd_NodeName : string;
  pd_Affinity : option Affinity;
  pd_NodeSelector : gmap string string;
  pd_PriorityClassName : string;
  pd_Priority : option Z;
  pd_PreemptionPolicy : option string;
  pd_SchedulerName : string;
  pd_Tolerations : list Opaque;
  pd_Containers : list ContainerDao;
  pd_Status : PodStatus
}.

Record PriorityClassDao := mkPriorityClassDao { pcd_Name : string; pcd_Annotations : gmap string string }.

Record PodSchedulingInfoDao := mkPodSchedulingInfoDao {
  psi_Namespace : string;
  psi_Name : string;
  psi_UID : string;
  psi_AssignedNode : string;
  psi_Assumed : bool;
  psi_AllVolumesBound : bool
}.

Record SchedulerCacheStatisticsDao := mkStatisticsDao {
  st_Nodes : nat;
  st_Pods : nat;
  st_PriorityClasses : nat;
  st_Assumed : nat;
  st_PodsAssigned : nat;
  st_Phases : gmap string Z
}.

Record SchedulerCacheDao := mkSchedulerCacheDao {
  sd_Statistics : SchedulerCacheStatisticsDao;
  sd_Nodes : gmap string NodeDao;
  sd_Pods : gmap string PodDao;
  sd_PriorityClasses : gmap string PriorityClassDao;
  sd_SchedulingPods : gmap string PodSchedulingInfoDao
}.

Section Dao.
Context `{MapOrder}.

(** [fmt.Sprintf("%s/%s", namespace, name)] *)
Definition dao_key (namespace name : string) : string := namespace +:+ "/" +:+ name.

Definition node_dao (node : Node) : NodeDao := mkNodeDao (node_Name node) (node_Allocatable node).

(** The tolerations are not assigned. *)
Definition pod_dao (pod : Pod) : PodDao :=
  let spec := pod_Spec pod in
  mkPodDao (pod_Namespace pod) (pod_Name pod) (pod_UID pod) (pod_CreationTimestamp pod)
    (pod_Annotations pod) (pod_Labels pod) (spec_NodeName spec) (spec_Affinity spec)
    (spec_NodeSelector spec) (spec_PriorityClassName spec) (spec_Priority spec)
    (spec_PreemptionPolicy spec) (spec_SchedulerName spec) []
    (map (λ c, mkContainerDao (c_Name c) (c_Requests c)) (spec_Containers spec)) (pod_Status pod).

(** The loop over the nodes; [None] when a node information has no node. *)
Fixpoint node_daos (l : list (string * NodeInfo)) (nodes : gmap string NodeDao) :
    option (gmap string NodeDao) :=
  match l with
  | [] => Some nodes
  | (nodeName, nodeInfo) :: l' =>
      node ← ni_node nodeInfo;
      node_daos l' (<[nodeName := node_dao node]> nodes)
  end.

Definition pod_daos (c : SchedulerCache) : gmap string PodDao :=
  foldl (λ pods (x : string * Pod), <[dao_key (pod_Namespace x.2) (pod_Name x.2) := pod_dao x.2]> pods)
    ∅ (go_range (podsMap c)).

(** The scheduling information of the pods, by UID. *)
Definition schedulingInfoByUID (c : SchedulerCache) : gmap string PodSchedulingInfoDao :=
  let infos := foldl (λ infos (x : string * Pod),
      <[x.1 := mkPodSchedulingInfoDao (pod_Namespace x.2) (pod_Name x.2) (pod_UID x.2) "" false false]> infos)
    ∅ (go_range (podsMap c)) in
  let infos := foldl (λ infos (x : string * string),
      alter (λ i, mkPodSchedulingInfoDao (psi_Namespace i) (psi_Name i) (psi_UID i) x.2
                    (psi_Assumed i) (psi_AllVolumesBound i)) x.1 infos)
    infos (go_range (assignedPods c)) in
  foldl (λ infos (x : string * bool),
      alter (λ i, mkPodSchedulingInfoDao (psi_Namespace i) (psi_Name i) (psi_UID i) (psi_AssignedNode i)
                    true x.2) x.1 infos)
    infos (go_range (assumedPods c)).

Definition GetSchedulerCacheDao (c : SchedulerCache) : option SchedulerCacheDao :=
  nodes ← node_daos (go_range (nodesMap c)) ∅;
  let priorityClasses := foldl (λ pcs (x : string * PriorityClass),
      <[x.1 := mkPriorityClassDao (pc_Name x.2) (pc_Annotations x.2)]> pcs) ∅ (go_range (pcMap c)) in
  let podSchedulingInfoByName := foldl (λ infos (x : string * PodSchedulingInfoDao),
      <[dao_key (psi_Namespace x.2) (psi_Name x.2) := x.2]> infos)
    ∅ (go_range (schedulingInfoByUID c)) in
  Some (mkSchedulerCacheDao
    (mkStatisticsDao (size (nodesMap c)) (size (podsMap c)) (size (pcMap c)) (size (assumedPods c))
       (nodePodCount c) (podPhases c))
    nodes (pod_daos c) priorityClasses podSchedulingInfoByName).

(** [GetStateDump] of the context and of the callback; [json.Marshal] is a
    parameter. *)
Definition GetStateDump (marshal : SchedulerCacheDao → string + string) (c : SchedulerCache) :
    option (string * option string) :=
  dao ← GetSchedulerCacheDao c;
  match marshal dao with
  | inl bytes => Some (bytes, None)
  | inr err => Some ("", Some err)
  end.

End Dao.

(** ** Loops over maps *)

Section Loops.
Context `{MapOrder}.

(** A loop that stores a value per entry under a key computed from it. *)
Lemma foldl_keyed {A B} (key : A → string) (val : A → B) (l : list A) (m : gmap string B) k b :
  foldl (λ m x, <[key x := val x]> m) m l !! k = Some b →
  (∃ x, x ∈ l ∧ key x = k ∧ b = val x) ∨ m !! k = Some b.
Proof.
  revert m. induction l as [|x l IH]; intros m; [by right|]. cbn [foldl].
  intros [(y & Hy & Hk & Hb)|Hm]%IH; [left; exists y; set_solver|].
  apply lookup_insert_Some in Hm as [[Hk <-]|[_ Hm]]; [left; exists x; set_solver|by right].
Qed.

Lemma foldl_keyed_some {A B} (key : A → string) (val : A → B) (l : list A) (m : gmap string B) k :
  is_Some (m !! k) ∨ (∃ x, x ∈ l ∧ key x = k) → is_Some (foldl (λ m x, <[key x := val x]> m) m l !! k).
Proof.
  revert m. induction l as [|x l IH]; intros m [Hm|(y & Hy & Hk)]; cbn [foldl]; try done.
  - set_solver.
  - apply IH. left. apply lookup_insert_is_Some. destruct (decide (key x = k)); auto.
  - apply elem_of_cons in Hy as [->|Hy]; apply IH; [left|right; eauto].
    apply lookup_insert_is_Some. by left.
Qed.

(** When the keys are distinct every entry is found under its key. *)
Lemma foldl_keyed_lookup {A B} (key : A → string) (val : A → B) (l : list A) x :
  x ∈ l → (∀ y, y ∈ l → key y = key x → y = x) →
  foldl (λ m x, <[key x := val x]> m) (∅ : gmap string B) l !! key x = Some (val x).
Proof.
  intros Hx Hinj. destruct (foldl_keyed_some key val l ∅ (key x)) as [b Hb]; [right; eauto|].
  pose proof Hb as [(y & Hy & Hk & ->)|Hn]%foldl_keyed; [|by rewrite lookup_empty in Hn].
  by rewrite (Hinj y Hy Hk) in Hb.
Qed.

Lemma foldl_alter {A B} (f : A → B → B) (l : list (string * A)) (m : gmap string B) k :
  NoDup l.*1 →
  foldl (λ m x, alter (f x.2) x.1 m) m l !! k =
  match (list_to_map l : gmap string A) !! k with Some a => f a <$> m !! k | None => m !! k end.
Proof.
  revert m. induction l as [|[k' a] l IH]; intros m Hnd; [done|].
  cbn [fmap list_fmap fst] in Hnd. apply NoDup_cons in Hnd as [Hni Hnd].
  cbn [foldl fst snd]. rewrite IH by done. cbn [list_to_map foldr fst snd uncurry].
  destruct (decide (k' = k)) as [->|Hne].
  - rewrite not_elem_of_list_to_map_1 by done. by rewrite lookup_insert_eq, lookup_alter_eq.
  - by rewrite lookup_insert_ne, lookup_alter_ne.
Qed.

(** A loop over the entries of a map that changes the entries of another. *)
Lemma foldl_alter_range {A B} (f : A → B → B) (n : gmap string A) (m : gmap string B) k :
  foldl (λ m x, alter (f x.2) x.1 m) m (go_range n) !! k =
  match n !! k with Some a => f a <$> m !! k | None => m !! k end.
Proof.
  rewrite foldl_alter by apply NoDup_go_range.
  rewrite (list_to_map_proper (go_range n) (map_to_list n)); [|apply NoDup_go_range|apply go_range_perm].
  by rewrite list_to_map_to_list.
Qed.

Lemma foldl_insert_range {A B} (g : A → B) (n : gmap string A) k :
  foldl (λ m x, <[x.1 := g x.2]> m) (∅ : gmap string B) (go_range n) !! k = g <$> n !! k.
Proof.
  destruct (n !! k) as [a|] eqn:Hk; cbn [fmap option_fmap option_map].
  - apply (foldl_keyed_lookup fst (λ x : string * A, g x.2) (go_range n) (k, a)).
    + by apply elem_of_go_range.
    + intros [k' a'] Hy%elem_of_go_range Hk'. simpl in Hk'. subst k'. congruence.
  - destruct (foldl _ _ _ !! k) as [b|] eqn:E; [|done]. exfalso.
    apply (foldl_keyed fst (λ x : string * A, g x.2)) in E as [([k' a] & Hx & Hk' & _)|E].
    + apply elem_of_go_range in Hx. simpl in Hk'. subst k'. congruence.
    + by rewrite lookup_empty in E.
Qed.

(** ** What the dump says *)

Lemma schedulingInfoByUID_lookup c uid :
  schedulingInfoByUID c !! uid =
  (λ p, mkPodSchedulingInfoDao (pod_Namespace p) (pod_Name p) (pod_UID p)
          (default "" (assignedPods c !! uid)) (bool_decide (is_Some (assumedPods c !! uid)))
          (default false (assumedPods c !! uid))) <$> podsMap c !! uid.
Proof.
  unfold schedulingInfoByUID.
  rewrite (foldl_alter_range (λ b i, mkPodSchedulingInfoDao (psi_Namespace i) (psi_Name i) (psi_UID i)
    (psi_AssignedNode i) true b)).
  rewrite (foldl_alter_range (λ n i, mkPodSchedulingInfoDao (psi_Namespace i) (psi_Name i) (psi_UID i) n
    (psi_Assumed i) (psi_AllVolumesBound i))).
  rewrite (foldl_insert_range (λ p, mkPodSchedulingInfoDao (pod_Namespace p) (pod_Name p) (pod_UID p) "" false false)).
  destruct (podsMap c !! uid), (assignedPods c !! uid), (assumedPods c !! uid); reflexivity.
Qed.

Lemma node_daos_lookup l m :
  NoDup l.*1 → Forall (λ x : string * NodeInfo, is_Some (ni_node x.2)) l →
  ∃ r, node_daos l m = Some r ∧
    ∀ k, r !! k = match (list_to_map l : gmap string NodeInfo) !! k with
                  | Some ni => node_dao <$> ni_node ni | None => m !! k end.
Proof.
  revert m. induction l as [|[n ni] l IH]; intros m Hnd Hall; [by eexists|].
  cbn [fmap list_fmap fst] in Hnd. apply NoDup_cons in Hnd as [Hni Hnd].
  apply Forall_cons in Hall as [[node Hnode] Hall]. simpl in Hnode.
  cbn [node_daos]. rewrite Hnode. cbn [mbind option_bind].
  destruct (IH (<[n := node_dao node]> m) Hnd Hall) as (r & -> & Hr). exists r. split; [done|].
  intros k. rewrite Hr. cbn [list_to_map foldr fst snd uncurry]. destruct (decide (n = k)) as [->|Hne].
  - rewrite not_elem_of_list_to_map_1 by done. rewrite !lookup_insert_eq. by rewrite Hnode.
  - by rewrite !lookup_insert_ne.
Qed.

End Loops.

(** ** Counts *)

Section Counts.
Context `{MapOrder}.

(** The pods with a phase. *)
Definition in_phase (c : SchedulerCache) (phase : string) : list (string * Pod) :=
  filter (λ x : string * Pod, pod_Phase x.2 = phase) (map_to_list (podsMap c)).

Lemma podPhases_count c phase : default 0%Z (podPhases c !! phase) = Z.of_nat (length (in_phase c phase)).
Proof.
  unfold podPhases, in_phase. rewrite <- (Permutation_length (filter_Permutation _ _ _ (go_range_perm (podsMap c)))).
  enough (∀ (l : list (string * Pod)) (m : gmap string Z),
    default 0%Z (foldl (λ result kp,
      <[pod_Phase kp.2 := (match result !! pod_Phase kp.2 with Some count => count | None => 0%Z end + 1)%Z]> result)
      m l !! phase) =
    (default 0%Z (m !! phase) + Z.of_nat (length (filter (λ x : string * Pod, pod_Phase x.2 = phase) l)))%Z) as Hl.
  { rewrite Hl, lookup_empty. simpl. lia. }
  induction l as [|[k p] l IH]; intros m; [simpl; lia|]. cbn [foldl]. rewrite IH, filter_cons. cbn [snd].
  destruct (decide (pod_Phase p = phase)) as [->|Hne].
  - rewrite lookup_insert_eq. simpl. destruct (m !! phase); simpl; lia.
  - by rewrite lookup_insert_ne.
Qed.

(** The UIDs of the pods on the nodes. *)
Definition pods_on_nodes (c : SchedulerCache) : list string :=
  go_range (nodesMap c) ≫= λ nd, pod_UID <$> ni_Pods nd.2.

Lemma nodePodCount_length c : nodePodCount c = length (pods_on_nodes c).
Proof.
  unfold nodePodCount, pods_on_nodes. generalize (go_range (nodesMap c)). intros l.
  enough (∀ n, foldl (λ result (nd : string * NodeInfo), result + length (ni_Pods nd.2)) n l =
    n + length (l ≫= λ nd, pod_UID <$> ni_Pods nd.2)) as Hl by apply (Hl 0).
  induction l as [|nd l IH]; intros n; [simpl; lia|]. cbn [foldl mbind list_bind].
  rewrite IH, length_app, length_fmap. unfold mbind. lia.
Qed.

Lemma elem_of_pods_on_nodes c uid : wf c → uid ∈ pods_on_nodes c ↔ is_Some (assignedPods c !! uid).
Proof.
  intros [Hwf _]. unfold pods_on_nodes. rewrite (wf_assigned _ _ _ _ _ _ _ _ _ Hwf), list_elem_of_bind. split.
  - intros ([n ni] & (p & -> & Hp)%list_elem_of_fmap & Hn%elem_of_go_range).
    apply (no_pods _ _ _ _ _ (wf_node _ _ _ _ _ _ _ _ _ Hwf n ni Hn)) in Hp as (Hp & _ & Hh).
    rewrite Hp. simpl. unfold assigned_to. by rewrite decide_True.
  - destruct (podsMap c !! uid) as [p|] eqn:Hp; [|by intros []]. simpl. unfold assigned_to.
    case_decide as Hh; [|by intros []]. intros _. pose proof Hh as (_ & [ni Hni] & _).
    pose proof (wf_pod _ _ _ _ _ _ _ _ _ Hwf uid p Hp) as (Hu & _).
    exists (pod_NodeName p, ni). split; [|by apply elem_of_go_range]. rewrite <- Hu.
    apply list_elem_of_fmap_2, (no_pods _ _ _ _ _ (wf_node _ _ _ _ _ _ _ _ _ Hwf _ ni Hni)).
    by rewrite Hu.
Qed.

Lemma NoDup_pods_on_nodes c : wf c → NoDup (pods_on_nodes c).
Proof.
  intros [Hwf _]. apply NoDup_bind.
  - intros [n1 ni1] [n2 ni2] uid Hn1%elem_of_go_range Hn2%elem_of_go_range.
    intros (p1 & -> & Hp1)%list_elem_of_fmap (p2 & Hu & Hp2)%list_elem_of_fmap.
    apply (no_pods _ _ _ _ _ (wf_node _ _ _ _ _ _ _ _ _ Hwf _ _ Hn1)) in Hp1 as (Hp1 & Hm1 & _).
    apply (no_pods _ _ _ _ _ (wf_node _ _ _ _ _ _ _ _ _ Hwf _ _ Hn2)) in Hp2 as (Hp2 & Hm2 & _).
    simpl in *. congruence.
  - intros [n ni] Hn%elem_of_go_range. apply (no_nodup _ _ _ _ _ (wf_node _ _ _ _ _ _ _ _ _ Hwf _ _ Hn)).
  - eapply NoDup_fmap_1, NoDup_go_range.
Qed.

(** The pods the nodes hold are the assigned ones. *)
Lemma nodePodCount_assigned c : wf c → nodePodCount c = size (assignedPods c).
Proof.
  intros Hwf. rewrite nodePodCount_length, <- (size_list_to_set (C:=gset string)) by by apply NoDup_pods_on_nodes.
  rewrite <- size_dom. f_equiv. apply set_eq. intros uid.
  by rewrite elem_of_list_to_set, elem_of_pods_on_nodes, elem_of_dom.
Qed.

(** No two pods share namespace and name. *)
Definition names_distinct (c : SchedulerCache) : Prop :=
  ∀ u1 u2 p1 p2, podsMap c !! u1 = Some p1 → podsMap c !! u2 = Some p2 →
    dao_key (pod_Namespace p1) (pod_Name p1) = dao_key (pod_Namespace p2) (pod_Name p2) → u1 = u2.

(** The state dump agrees with the cache. In a well-formed cache it can be
    made; every node is in it with its allocatable resources and nothing else is;
    when no two pods share a name, every pod is in it with its UID, the node it is
    assigned to and whether it is assumed with all volumes bound; the number of
    assigned pods that is counted on the nodes is the number of assignments, and
    the phases are counted right. *)
Theorem state_dump_agrees_with_cache c :
  wf c →
  ∃ dao, GetSchedulerCacheDao c = Some dao ∧
    (∀ n, sd_Nodes dao !! n = ni ← nodesMap c !! n; node_dao <$> ni_node ni) ∧
    st_PodsAssigned (sd_Statistics dao) = size (assignedPods c) ∧
    (∀ phase, default 0%Z (st_Phases (sd_Statistics dao) !! phase) = Z.of_nat (length (in_phase c phase))) ∧
    (names_distinct c → ∀ uid p, podsMap c !! uid = Some p →
       sd_Pods dao !! dao_key (pod_Namespace p) (pod_Name p) = Some (pod_dao p) ∧
       sd_SchedulingPods dao !! dao_key (pod_Namespace p) (pod_Name p) =
         Some (mkPodSchedulingInfoDao (pod_Namespace p) (pod_Name p) uid
                 (default "" (assignedPods c !! uid)) (isAssumedPod c uid) (ArePodVolumesAllBound c uid))).
Proof.
  intros Hwf. pose proof Hwf as [Hparts _]. unfold GetSchedulerCacheDao.
  destruct (node_daos_lookup (go_range (nodesMap c)) ∅) as (nodes & -> & Hnodes); [apply NoDup_go_range| |].
  { apply Forall_forall. intros [n ni] Hn%elem_of_go_range.
    destruct (no_node _ _ _ _ _ (wf_node _ _ _ _ _ _ _ _ _ Hparts n ni Hn)) as (nd & Hnd & _). by exists nd. }
  eexists. split; [reflexivity|]. cbn [sd_Nodes sd_Statistics st_PodsAssigned st_Phases sd_Pods sd_SchedulingPods].
  split_and!.
  - intros n. rewrite Hnodes, (list_to_map_proper (go_range (nodesMap c)) (map_to_list (nodesMap c)));
      [|apply NoDup_go_range|apply go_range_perm].
    rewrite list_to_map_to_list. by destruct (nodesMap c !! n).
  - by apply nodePodCount_assigned.
  - apply podPhases_count.
  - intros Hd uid p Hp. pose proof (wf_pod _ _ _ _ _ _ _ _ _ Hparts uid p Hp) as (Hu & _). split.
    + apply (foldl_keyed_lookup (λ x : string * Pod, dao_key (pod_Namespace x.2) (pod_Name x.2))
        (λ x, pod_dao x.2) _ (uid, p)); [by apply elem_of_go_range|].
      intros [u' p'] Hp'%elem_of_go_range Hk. pose proof (Hd _ _ _ _ Hp' Hp Hk) as ->. congruence.
    + pose proof (schedulingInfoByUID_lookup c uid) as Hi. rewrite Hp in Hi. cbn [fmap option_fmap option_map] in Hi.
      rewrite Hu in Hi.
      match type of Hi with _ = Some ?info => apply (foldl_keyed_lookup (λ x : string * PodSchedulingInfoDao,
        dao_key (psi_Namespace x.2) (psi_Name x.2)) snd (go_range (schedulingInfoByUID c)) (uid, info)) end;
        [by apply elem_of_go_range|].
      intros [u' i'] Hi'%elem_of_go_range Hk. pose proof Hi' as Hi2. rewrite schedulingInfoByUID_lookup in Hi2.
      destruct (podsMap c !! u') as [p'|] eqn:Hp'; [|done]. injection Hi2 as <-.
      pose proof (Hd _ _ _ _ Hp' Hp Hk) as ->. f_equal. congruence.
Qed.

End Counts.

(** ** A dump *)

Lemma state_dump_agrees_with_cache_witness :
  ∃ dao, GetSchedulerCacheDao example_cache = Some dao ∧ st_PodsAssigned (sd_Statistics dao) = 2.
Proof.
  destruct (state_dump_agrees_with_cache example_cache example_wf) as (dao & E & _ & Hs & _).
  exists dao. split; [exact E|]. rewrite Hs. vm_compute. reflexivity.
Defined.

(** The pod that is assumed on a node. *)
Example dump_of_assumed_pod :
  option_map (λ dao, sd_SchedulingPods dao !! "default/a") (GetSchedulerCacheDao example_cache) =
  Some (Some (mkPodSchedulingInfoDao "default" "a" "uid-a" "n1" true true)).
Proof. vm_compute. reflexivity. Qed.
