(* ===== verification/World.v ===== *)
(** * The state the shim's objects live in

    Applications and tasks are Go objects shared by pointer: they are entries of
    two heaps, and a pointer is a number.  A computation ([M]) maps the state to
    a result and a new state, or to [None] for a panic (nil dereference, index
    out of range).  What leaves the shim (events put on the dispatcher, requests
    to the core, calls of the Kubernetes API, events recorded on objects,
    goroutines started) is appended to a trace; whether an external call fails
    is decided by the class [Env] from the trace and the call.  Locks are not
    state: every definition is the code run under its lock. *)

From S2P Require Import Prelude.
From S2P Require Import GoStrings.
From S2P Require Import K8sApi.
From S2P Require Import Constants.
From S2P Require Import Resource.
From S2P Require Import PodUtils.
From S2P Require Import SiHelper.
From S2P Require Import TaskGroups.
From S2P Require Import SchedulerCache.

(** ** States and events of tasks: [task_state.go], [task_sched_state.go] *)

Inductive TaskState :=
  | TNew | TPending | TScheduling | TAllocated | TRejected | TBound | TKilling | TKilled
  | TFailed | TCompleted.

Inductive TaskEventType :=
  | InitTask | SubmitTask | TaskAllocated | TaskRejected | TaskBound | CompleteTask | TaskFail
  | KillTask | TaskKilled.

Inductive TaskSchedulingState :=
  | TaskSchedPending | TaskSchedSkipped | TaskSchedFailed | TaskSchedAllocated.

#[export] Instance TaskState_eq_dec : EqDecision TaskState.
Proof. solve_decision. Defined.
#[export] Instance TaskEventType_eq_dec : EqDecision TaskEventType.
Proof. solve_decision. Defined.
#[export] Instance TaskSchedulingState_eq_dec : EqDecision TaskSchedulingState.
Proof. solve_decision. Defined.

(** The task events with their arguments. *)
Inductive TaskEvent :=
  | SimpleTaskEvent (event : TaskEventType)
  | SubmitTaskEvent
  | AllocatedTaskEvent (allocationKey nodeID : string)
  | BindTaskEvent
  | FailTaskEvent (message : string)
  | RejectTaskEvent (message : string).

Definition task_event (ev : TaskEvent) : TaskEventType :=
  match ev with
  | SimpleTaskEvent event => event
  | SubmitTaskEvent => SubmitTask
  | AllocatedTaskEvent _ _ => TaskAllocated
  | BindTaskEvent => TaskBound
  | FailTaskEvent _ => TaskFail
  | RejectTaskEvent _ => TaskRejected
  end.

(** ** States and events of applications: [application_state.go] *)

Inductive AppState :=
  | ANew | ASubmitted | AAccepted | AReserving | ARunning | ARejected | ACompleted | AKilling
  | AKilled | AFailing | AFailed | AResuming.

Inductive ApplicationEventType :=
  | SubmitApplication | AcceptApplication | TryReserve | UpdateReservation | RunApplication
  | RejectApplication | CompleteApplication | FailApplication | KillApplication
  | KilledApplication | ReleaseAppAllocation | ResumingApplication | AppTaskCompleted.

#[export] Instance AppState_eq_dec : EqDecision AppState.
Proof. solve_decision. Defined.
#[export] Instance ApplicationEventType_eq_dec : EqDecision ApplicationEventType.
Proof. solve_decision. Defined.

(** The application events with their arguments. *)
Inductive AppEvent :=
  | SimpleApplicationEvent (event : ApplicationEventType)
  | ApplicationEvent (event : ApplicationEventType) (message : string)
  | ApplicationStatusChangeEvent (event : ApplicationEventType) (state : string)
  | SubmitApplicationEvent
  | RunApplicationEvent
  | FailApplicationEvent (errorMessage : string)
  | UpdateApplicationReservationEvent
  | ReleaseAppAllocationEvent (allocationKey terminationType : string)
  | ResumingApplicationEvent.

Definition app_event (ev : AppEvent) : ApplicationEventType :=
  match ev with
  | SimpleApplicationEvent event | ApplicationEvent event _ | ApplicationStatusChangeEvent event _ => event
  | SubmitApplicationEvent => SubmitApplication
  | RunApplicationEvent => RunApplication
  | FailApplicationEvent _ => FailApplication
  | UpdateApplicationReservationEvent => UpdateReservation
  | ReleaseAppAllocationEvent _ _ => ReleaseAppAllocation
  | ResumingApplicationEvent => ResumingApplication
  end.

(** [GetArgs] of the events: the argument strings, [None] for nil. *)
Definition task_event_args (ev : TaskEvent) : list string :=
  match ev with
  | AllocatedTaskEvent allocationKey nodeID => [allocationKey; nodeID]
  | FailTaskEvent message | RejectTaskEvent message => [message]
  | _ => []
  end.

Definition app_event_args (ev : AppEvent) : list string :=
  match ev with
  | ApplicationEvent _ message => [message]
  | FailApplicationEvent errorMessage => [errorMessage]
  | ReleaseAppAllocationEvent allocationKey terminationType => [allocationKey; terminationType]
  | _ => []
  end.

(** ** Objects: [task.go], [application.go] *)

Abbreviation TaskRef := nat.
Abbreviation AppRef := nat.

Record Task := mkTask {
  t_taskID : string;
  t_alias : string;
  t_applicationID : string;
  t_application : AppRef;
  t_podStatus : PodStatus;
  t_createTime : Z;
  t_placeholder : bool;
  t_originator : bool;
  t_state : TaskState;
  t_allocationKey : string;
  t_nodeName : string;
  t_taskGroupName : string;
  t_terminationType : string;
  t_schedulingState : TaskSchedulingState;
  t_resource : Resource;
  t_pod : Pod
}.

Record Application := mkApplication {
  a_applicationID : string;
  a_queue : string;
  a_partition : string;
  a_user : string;
  a_groups : list string;
  a_taskMap : gmap string TaskRef;
  a_tags : gmap string string;
  a_taskGroups : list TaskGroup;
  a_taskGroupsDefinition : string;
  a_schedulingParamsDefinition : string;
  a_placeholderOwnerReferences : list OwnerReference;
  a_state : AppState;
  a_placeholderAsk : option Resource;
  a_placeholderTimeoutInSec : Z;
  a_schedulingStyle : string;
  a_originatingTask : option TaskRef;
  a_releaseableTasks : list TaskRef;
  a_hasContext : bool
}.

(** Assignments to fields of a task. *)
Definition t_set_state (s : TaskState) (o : Task) : Task :=
  mkTask (t_taskID o) (t_alias o) (t_applicationID o) (t_application o) (t_podStatus o)
    (t_createTime o) (t_placeholder o) (t_originator o) s (t_allocationKey o) (t_nodeName o)
    (t_taskGroupName o) (t_terminationType o) (t_schedulingState o) (t_resource o) (t_pod o).
Definition t_set_allocation (key node : string) (o : Task) : Task :=
  mkTask (t_taskID o) (t_alias o) (t_applicationID o) (t_application o) (t_podStatus o)
    (t_createTime o) (t_placeholder o) (t_originator o) (t_state o) key node (t_taskGroupName
    o) (t_terminationType o) (t_schedulingState o) (t_resource o) (t_pod o).
Definition t_set_taskGroupName (name : string) (o : Task) : Task :=
  mkTask (t_taskID o) (t_alias o) (t_applicationID o) (t_application o) (t_podStatus o)
    (t_createTime o) (t_placeholder o) (t_originator o) (t_state o) (t_allocationKey o)
    (t_nodeName o) name (t_terminationType o) (t_schedulingState o) (t_resource o) (t_pod o).
Definition t_set_terminationType (v : string) (o : Task) : Task :=
  mkTask (t_taskID o) (t_alias o) (t_applicationID o) (t_application o) (t_podStatus o)
    (t_createTime o) (t_placeholder o) (t_originator o) (t_state o) (t_allocationKey o)
    (t_nodeName o) (t_taskGroupName o) v (t_schedulingState o) (t_resource o) (t_pod o).
Definition t_set_schedulingState (v : TaskSchedulingState) (o : Task) : Task :=
  mkTask (t_taskID o) (t_alias o) (t_applicationID o) (t_application o) (t_podStatus o)
    (t_createTime o) (t_placeholder o) (t_originator o) (t_state o) (t_allocationKey o)
    (t_nodeName o) (t_taskGroupName o) (t_terminationType o) v (t_resource o) (t_pod o).
Definition t_set_podStatus (v : PodStatus) (o : Task) : Task :=
  mkTask (t_taskID o) (t_alias o) (t_applicationID o) (t_application o) v (t_createTime o)
    (t_placeholder o) (t_originator o) (t_state o) (t_allocationKey o) (t_nodeName o)
    (t_taskGroupName o) (t_terminationType o) (t_schedulingState o) (t_resource o) (t_pod o).
Definition t_set_pod (v : Pod) (o : Task) : Task :=
  mkTask (t_taskID o) (t_alias o) (t_applicationID o) (t_application o) (t_podStatus o)
    (t_createTime o) (t_placeholder o) (t_originator o) (t_state o) (t_allocationKey o)
    (t_nodeName o) (t_taskGroupName o) (t_terminationType o) (t_schedulingState o) (t_resource
    o) v.
Definition t_set_resource (v : Resource) (o : Task) : Task :=
  mkTask (t_taskID o) (t_alias o) (t_applicationID o) (t_application o) (t_podStatus o)
    (t_createTime o) (t_placeholder o) (t_originator o) (t_state o) (t_allocationKey o)
    (t_nodeName o) (t_taskGroupName o) (t_terminationType o) (t_schedulingState o) v (t_pod
    o).

(** Assignments to a field of an application. *)
Definition a_set_taskMap (v : gmap string TaskRef) (o : Application) : Application :=
  mkApplication (a_applicationID o) (a_queue o) (a_partition o) (a_user o) (a_groups o) v
    (a_tags o) (a_taskGroups o) (a_taskGroupsDefinition o) (a_schedulingParamsDefinition o)
    (a_placeholderOwnerReferences o) (a_state o) (a_placeholderAsk o)
    (a_placeholderTimeoutInSec o) (a_schedulingStyle o) (a_originatingTask o)
    (a_releaseableTasks o) (a_hasContext o).
Definition a_set_taskGroups (v : list TaskGroup) (o : Application) : Application :=
  mkApplication (a_applicationID o) (a_queue o) (a_partition o) (a_user o) (a_groups o)
    (a_taskMap o) (a_tags o) v (a_taskGroupsDefinition o) (a_schedulingParamsDefinition o)
    (a_placeholderOwnerReferences o) (a_state o) (a_placeholderAsk o)
    (a_placeholderTimeoutInSec o) (a_schedulingStyle o) (a_originatingTask o)
    (a_releaseableTasks o) (a_hasContext o).
Definition a_set_taskGroupsDefinition (v : string) (o : Application) : Application :=
  mkApplication (a_applicationID o) (a_queue o) (a_partition o) (a_user o) (a_groups o)
    (a_taskMap o) (a_tags o) (a_taskGroups o) v (a_schedulingParamsDefinition o)
    (a_placeholderOwnerReferences o) (a_state o) (a_placeholderAsk o)
    (a_placeholderTimeoutInSec o) (a_schedulingStyle o) (a_originatingTask o)
    (a_releaseableTasks o) (a_hasContext o).
Definition a_set_schedulingParamsDefinition (v : string) (o : Application) : Application :=
  mkApplication (a_applicationID o) (a_queue o) (a_partition o) (a_user o) (a_groups o)
    (a_taskMap o) (a_tags o) (a_taskGroups o) (a_taskGroupsDefinition o) v
    (a_placeholderOwnerReferences o) (a_state o) (a_placeholderAsk o)
    (a_placeholderTimeoutInSec o) (a_schedulingStyle o) (a_originatingTask o)
    (a_releaseableTasks o) (a_hasContext o).
Definition a_set_placeholderOwnerReferences (v : list OwnerReference) (o : Application) : Application :=
  mkApplication (a_applicationID o) (a_queue o) (a_partition o) (a_user o) (a_groups o)
    (a_taskMap o) (a_tags o) (a_taskGroups o) (a_taskGroupsDefinition o)
    (a_schedulingParamsDefinition o) v (a_state o) (a_placeholderAsk o)
    (a_placeholderTimeoutInSec o) (a_schedulingStyle o) (a_originatingTask o)
    (a_releaseableTasks o) (a_hasContext o).
Definition a_set_state (v : AppState) (o : Application) : Application :=
  mkApplication (a_applicationID o) (a_queue o) (a_partition o) (a_user o) (a_groups o)
    (a_taskMap o) (a_tags o) (a_taskGroups o) (a_taskGroupsDefinition o)
    (a_schedulingParamsDefinition o) (a_placeholderOwnerReferences o) v (a_placeholderAsk o)
    (a_placeholderTimeoutInSec o) (a_schedulingStyle o) (a_originatingTask o)
    (a_releaseableTasks o) (a_hasContext o).
Definition a_set_placeholderAsk (v : option Resource) (o : Application) : Application :=
  mkApplication (a_applicationID o) (a_queue o) (a_partition o) (a_user o) (a_groups o)
    (a_taskMap o) (a_tags o) (a_taskGroups o) (a_taskGroupsDefinition o)
    (a_schedulingParamsDefinition o) (a_placeholderOwnerReferences o) (a_state o) v
    (a_placeholderTimeoutInSec o) (a_schedulingStyle o) (a_originatingTask o)
    (a_releaseableTasks o) (a_hasContext o).
Definition a_set_placeholderTimeoutInSec (v : Z) (o : Application) : Application :=
  mkApplication (a_applicationID o) (a_queue o) (a_partition o) (a_user o) (a_groups o)
    (a_taskMap o) (a_tags o) (a_taskGroups o) (a_taskGroupsDefinition o)
    (a_schedulingParamsDefinition o) (a_placeholderOwnerReferences o) (a_state o)
    (a_placeholderAsk o) v (a_schedulingStyle o) (a_originatingTask o) (a_releaseableTasks o)
    (a_hasContext o).
Definition a_set_schedulingStyle (v : string) (o : Application) : Application :=
  mkApplication (a_applicationID o) (a_queue o) (a_partition o) (a_user o) (a_groups o)
    (a_taskMap o) (a_tags o) (a_taskGroups o) (a_taskGroupsDefinition o)
    (a_schedulingParamsDefinition o) (a_placeholderOwnerReferences o) (a_state o)
    (a_placeholderAsk o) (a_placeholderTimeoutInSec o) v (a_originatingTask o)
    (a_releaseableTasks o) (a_hasContext o).
Definition a_set_originatingTask (v : option TaskRef) (o : Application) : Application :=
  mkApplication (a_applicationID o) (a_queue o) (a_partition o) (a_user o) (a_groups o)
    (a_taskMap o) (a_tags o) (a_taskGroups o) (a_taskGroupsDefinition o)
    (a_schedulingParamsDefinition o) (a_placeholderOwnerReferences o) (a_state o)
    (a_placeholderAsk o) (a_placeholderTimeoutInSec o) (a_schedulingStyle o) v
    (a_releaseableTasks o) (a_hasContext o).
Definition a_set_releaseableTasks (v : list TaskRef) (o : Application) : Application :=
  mkApplication (a_applicationID o) (a_queue o) (a_partition o) (a_user o) (a_groups o)
    (a_taskMap o) (a_tags o) (a_taskGroups o) (a_taskGroupsDefinition o)
    (a_schedulingParamsDefinition o) (a_placeholderOwnerReferences o) (a_state o)
    (a_placeholderAsk o) (a_placeholderTimeoutInSec o) (a_schedulingStyle o)
    (a_originatingTask o) v (a_hasContext o).
Definition a_set_hasContext (v : bool) (o : Application) : Application :=
  mkApplication (a_applicationID o) (a_queue o) (a_partition o) (a_user o) (a_groups o)
    (a_taskMap o) (a_tags o) (a_taskGroups o) (a_taskGroupsDefinition o)
    (a_schedulingParamsDefinition o) (a_placeholderOwnerReferences o) (a_state o)
    (a_placeholderAsk o) (a_placeholderTimeoutInSec o) (a_schedulingStyle o)
    (a_originatingTask o) (a_releaseableTasks o) v.

(** ** Effects *)

(** [node_events.go] *)
Inductive SchedulerNodeEventType := NodeAccepted | NodeRejected.

(** The events of the dispatcher. *)
Inductive SchedEvent :=
  | DTask (applicationID taskID : string) (ev : TaskEvent)
  | DApp (applicationID : string) (ev : AppEvent)
  | DNode (nodeID : string) (ev : SchedulerNodeEventType).

Inductive Effect :=
  | Dispatch (ev : SchedEvent)
  | UpdateAllocation (request : AllocationRequest)
  | UpdateApplication (request : ApplicationRequest)
  | UpdateNode (request : NodeRequest)
  | RecordEvent (object eventtype reason action : string)
  | KubeDelete (pod : Pod)
  | KubeUpdateStatus (pod : Pod)
  | KubeBind (pod : Pod) (hostID : string)
  | KubeCreate (pod : Pod)
  | BindPodVolumes (pod : Pod)
  | AddEventHandlers
  | AssumePodVolumes (pod : Pod) (node : string)
  | RevertAssumedPodVolumes (pod : Pod) (node : string)
  | GoBind (task : TaskRef) (pod : Pod) (alias nodeName allocationKey : string)
  | GoCreatePlaceholders (app : AppRef)
  | GoCleanUp (app : AppRef)
  | Sleep (seconds : Z).

(** A Go result [(T, error)]. *)
Abbreviation Result A := (A + string)%type.

(** What the world outside the shim answers, as a function of everything the
    shim has sent so far: the outcome of a call ([Some msg] is an error), the
    volume binder of the Kubernetes scheduler, the lister of persistent volume
    claims (the result is the claim's name and whether it is being deleted), the
    clock (nanoseconds since the epoch), the listers of namespaces, priority
    classes, nodes and pods, the node events the core sends after a registration
    request, and [json.Marshal] of a resource. *)
Class Env := {
  call_error : list Effect → Effect → option string;
  PodVolumeClaims : Type;
  PodVolumes : Type;
  vb_GetPodVolumeClaims : list Effect → Pod → Result PodVolumeClaims;
  vb_FindPodVolumes : list Effect → Pod → PodVolumeClaims → option Node →
    Result (option PodVolumes * list string);
  vb_AssumePodVolumes : list Effect → Pod → string → option PodVolumes → Result bool;
  pvc_Get : list Effect → string → string → Result (string * bool);
  clock : list Effect → Z;
  ns_Get : list Effect → string → Result Namespace;
  pc_List : list Effect → Result (list PriorityClass);
  node_List : list Effect → Result (list Node);
  pod_List : list Effect → Result (list Pod);
  node_answers : list Effect → NodeRequest → list (string * SchedulerNodeEventType);
  json_Marshal : Resource → option string
}.

Record World := mkWorld {
  w_tasks : gmap nat Task;
  w_apps : gmap nat Application;
  w_applications : gmap string AppRef;       (* Context.applications *)
  w_cache : SchedulerCache;                  (* Context.schedulerCache *)
  w_next : nat;                              (* next unused pointer *)
  w_trace : list Effect                      (* oldest first *)
}.

(** ** The monad *)

Definition M (A : Type) : Type := World → option (A * World).

#[export] Instance M_ret : MRet M := λ A a w, Some (a, w).
#[export] Instance M_bind : MBind M := λ A B f m w,
  match m w with Some (a, w') => f a w' | None => None end.

Definition panic {A} : M A := λ _, None.
Definition get_world : M World := λ w, Some (w, w).

Definition emit (e : Effect) : M unit := λ w,
  Some (tt, mkWorld (w_tasks w) (w_apps w) (w_applications w) (w_cache w) (w_next w)
              (w_trace w ++ [e])).

(** An external call that can fail. *)
Definition call `{Env} (e : Effect) : M (option string) := λ w,
  Some (call_error (w_trace w) e,
        mkWorld (w_tasks w) (w_apps w) (w_applications w) (w_cache w) (w_next w) (w_trace w ++ [e])).

Definition get_task (t : TaskRef) : M Task := λ w,
  match w_tasks w !! t with Some o => Some (o, w) | None => None end.
Definition get_app (a : AppRef) : M Application := λ w,
  match w_apps w !! a with Some o => Some (o, w) | None => None end.

Definition put_task (t : TaskRef) (o : Task) : M unit := λ w,
  Some (tt, mkWorld (<[t := o]> (w_tasks w)) (w_apps w) (w_applications w) (w_cache w) (w_next w)
              (w_trace w)).
Definition put_app (a : AppRef) (o : Application) : M unit := λ w,
  Some (tt, mkWorld (w_tasks w) (<[a := o]> (w_apps w)) (w_applications w) (w_cache w) (w_next w)
              (w_trace w)).
Definition put_applications (m : gmap string AppRef) : M unit := λ w,
  Some (tt, mkWorld (w_tasks w) (w_apps w) m (w_cache w) (w_next w) (w_trace w)).
Definition put_cache (c : SchedulerCache) : M unit := λ w,
  Some (tt, mkWorld (w_tasks w) (w_apps w) (w_applications w) c (w_next w) (w_trace w)).

(** A question to the outside. *)
Definition ask {A} (f : list Effect → A) : M A := λ w, Some (f (w_trace w), w).

(** An operation of the scheduler cache. *)
Definition on_cache (f : SchedulerCache → option SchedulerCache) : M unit := λ w,
  match f (w_cache w) with
  | Some c => put_cache c w
  | None => None
  end.

Definition on_cache_with {B} (f : SchedulerCache → option (SchedulerCache * B)) : M B := λ w,
  match f (w_cache w) with
  | Some (c, b) => match put_cache c w with Some (_, w') => Some (b, w') | None => None end
  | None => None
  end.

(** A new object. *)
Definition alloc_task (o : Task) : M TaskRef := λ w,
  Some (w_next w, mkWorld (<[w_next w := o]> (w_tasks w)) (w_apps w) (w_applications w) (w_cache w)
                    (S (w_next w)) (w_trace w)).
Definition alloc_app (o : Application) : M AppRef := λ w,
  Some (w_next w, mkWorld (w_tasks w) (<[w_next w := o]> (w_apps w)) (w_applications w) (w_cache w)
                    (S (w_next w)) (w_trace w)).

(** [o.f = v] on a shared object. *)
Definition upd_task (t : TaskRef) (f : Task → Task) : M unit := o ← get_task t; put_task t (f o).
Definition upd_app (a : AppRef) (f : Application → Application) : M unit :=
  o ← get_app a; put_app a (f o).

(** A value that is a panic when missing. *)
Definition must {A} (o : option A) : M A :=
  match o with Some a => mret a | None => panic end.

(** A loop over a list. *)
Fixpoint for_each {A} (l : list A) (body : A → M unit) : M unit :=
  match l with
  | [] => mret tt
  | a :: l' => body a;; for_each l' body
  end.

Definition dispatch (ev : SchedEvent) : M unit := emit (Dispatch ev).

(** [events.GetRecorder().Eventf] on a pod. *)
Definition record (pod : Pod) (eventtype reason action : string) : M unit :=
  emit (RecordEvent (pod_UID pod) eventtype reason action).
