(* ===== verification/Logic.v ===== *)
(** * Reasoning about computations

    Three ways to reason about a computation of the monad [M]: running it
    symbolically (the equations [run_*] and the tactic [run]), showing that it
    relates the states before and after by a preorder ([preserves]), and total
    correctness triples ([triple]), which exclude panics. *)

From S2P Require Import Prelude.
From S2P Require Import K8sApi.
From S2P Require Import SchedulerCache.
From S2P Require Import World.

(** The world with its trace extended. *)
Definition traced (w : World) (l : list Effect) : World :=
  mkWorld (w_tasks w) (w_apps w) (w_applications w) (w_cache w) (w_next w) (w_trace w ++ l).

(** The world with one task, or one application, replaced. *)
Definition with_task (w : World) (t : TaskRef) (o : Task) : World :=
  mkWorld (<[t := o]> (w_tasks w)) (w_apps w) (w_applications w) (w_cache w) (w_next w) (w_trace w).
Definition with_app (w : World) (a : AppRef) (o : Application) : World :=
  mkWorld (w_tasks w) (<[a := o]> (w_apps w)) (w_applications w) (w_cache w) (w_next w) (w_trace w).

Lemma traced_nil w : traced w [] = w.
Proof. destruct w. unfold traced. simpl. by rewrite app_nil_r. Qed.

Lemma traced_traced w l l' : traced (traced w l) l' = traced w (l ++ l').
Proof. unfold traced. simpl. by rewrite app_assoc. Qed.

Lemma with_app_traced w a o l : with_app (traced w l) a o = traced (with_app w a o) l.
Proof. done. Qed.

Lemma with_task_traced w t o l : with_task (traced w l) t o = traced (with_task w t o) l.
Proof. done. Qed.

Lemma with_task_with_task w t o o' : with_task (with_task w t o) t o' = with_task w t o'.
Proof. unfold with_task. simpl. by rewrite insert_insert_eq. Qed.

(** The events a piece of trace puts on the dispatcher. *)
Definition dispatched (l : list Effect) : list SchedEvent :=
  omap (λ e, match e with Dispatch ev => Some ev | _ => None end) l.

Lemma dispatched_app l l' : dispatched (l ++ l') = dispatched l ++ dispatched l'.
Proof. apply omap_app. Qed.

Lemma dispatched_records x y z l :
  Forall (λ e, ∃ p, e = RecordEvent p x y z) l → dispatched l = [].
Proof. induction 1 as [|e l [p ->] Hl IH]; [done|]. simpl. by rewrite IH. Qed.

(** ** Running *)

Lemma run_bind {A B} (m : M A) (f : A → M B) w :
  (m ≫= f) w = match m w with Some (a, w') => f a w' | None => None end.
Proof. done. Qed.

Lemma run_ret {A} (a : A) w : (mret a : M A) w = Some (a, w).
Proof. done. Qed.

Lemma run_get_task t w o : w_tasks w !! t = Some o → get_task t w = Some (o, w).
Proof. intros E. unfold get_task. by rewrite E. Qed.

Lemma run_get_app a w o : w_apps w !! a = Some o → get_app a w = Some (o, w).
Proof. intros E. unfold get_app. by rewrite E. Qed.

Lemma run_upd_task t f w o :
  w_tasks w !! t = Some o → upd_task t f w = Some (tt, with_task w t (f o)).
Proof. intros E. unfold upd_task. rewrite run_bind, (run_get_task _ _ _ E). done. Qed.

Lemma run_upd_app a f w o :
  w_apps w !! a = Some o → upd_app a f w = Some (tt, with_app w a (f o)).
Proof. intros E. unfold upd_app. rewrite run_bind, (run_get_app _ _ _ E). done. Qed.

Lemma run_emit e w : emit e w = Some (tt, traced w [e]).
Proof. done. Qed.

Lemma run_record p x y z w :
  record p x y z w = Some (tt, traced w [RecordEvent (pod_UID p) x y z]).
Proof. done. Qed.

Lemma run_dispatch ev w : dispatch ev w = Some (tt, traced w [Dispatch ev]).
Proof. done. Qed.

Lemma run_call `{Env} e w : call e w = Some (call_error (w_trace w) e, traced w [e]).
Proof. done. Qed.

Lemma run_put_task t o w : put_task t o w = Some (tt, with_task w t o).
Proof. done. Qed.

Lemma run_put_app a o w : put_app a o w = Some (tt, with_app w a o).
Proof. done. Qed.

(** The world with another scheduler cache. *)
Definition with_cache (w : World) (c : SchedulerCache) : World :=
  mkWorld (w_tasks w) (w_apps w) (w_applications w) c (w_next w) (w_trace w).

Lemma with_cache_same w : with_cache w (w_cache w) = w.
Proof. by destruct w. Qed.

Lemma run_on_cache_with {B} f w c' (b : B) :
  f (w_cache w) = Some (c', b) → on_cache_with f w = Some (b, with_cache w c').
Proof. intros Hf. unfold on_cache_with. by rewrite Hf. Qed.

Lemma with_task_lookup w t o : w_tasks (with_task w t o) !! t = Some o.
Proof. apply lookup_insert_eq. Qed.

Lemma with_app_lookup w a o : w_apps (with_app w a o) !! a = Some o.
Proof. apply lookup_insert_eq. Qed.

#[export] Hint Resolve with_task_lookup with_app_lookup : shim.

(** Looks an object up in an updated world. *)
Ltac world_lookup :=
  first [ eassumption | apply with_task_lookup | apply with_app_lookup
        | progress simpl; first [eassumption | apply with_task_lookup | apply with_app_lookup] ].

(** One symbolic step. *)
Ltac run_step :=
  first
    [ rewrite run_bind
    | rewrite run_ret
    | rewrite run_record
    | rewrite run_dispatch
    | rewrite run_call
    | rewrite run_put_task
    | rewrite run_put_app
    | erewrite run_upd_task by world_lookup
    | erewrite run_upd_app by world_lookup
    | erewrite run_get_task by world_lookup
    | erewrite run_get_app by world_lookup
    | rewrite run_emit ].
Ltac run := repeat (run_step; cbv beta iota zeta).

(** ** Preorders *)

Definition preserves (R : World → World → Prop) {A} (m : M A) : Prop :=
  ∀ w a w', m w = Some (a, w') → R w w'.

Section Preserves.
Context (R : World → World → Prop) `{!PreOrder R}.

Lemma preserves_ret {A} (a : A) : preserves R (mret a : M A).
Proof. intros w b w' [= <- <-]. done. Qed.

Lemma preserves_bind {A B} (m : M A) (f : A → M B) :
  preserves R m → (∀ a, preserves R (f a)) → preserves R (m ≫= f).
Proof.
  intros Hm Hf w b w' E. rewrite run_bind in E.
  destruct (m w) as [[a w1]|] eqn:Em; [|done].
  etrans; [by eapply Hm|]. by eapply Hf.
Qed.

Lemma preserves_get_task t : preserves R (get_task t).
Proof. intros w o w'. unfold get_task. destruct (w_tasks w !! t); [|done]. by intros [= _ <-]. Qed.

Lemma preserves_get_app a : preserves R (get_app a).
Proof. intros w o w'. unfold get_app. destruct (w_apps w !! a); [|done]. by intros [= _ <-]. Qed.

Lemma preserves_get_world : preserves R get_world.
Proof. by intros w o w' [= _ <-]. Qed.

Lemma preserves_ask {A} (f : list Effect → A) : preserves R (ask f).
Proof. by intros w o w' [= _ <-]. Qed.

Lemma preserves_must {A} (o : option A) : preserves R (must o).
Proof. intros w a w'. destruct o; [|done]. by intros [= _ <-]. Qed.

Lemma preserves_for_each {A} (l : list A) (body : A → M unit) :
  (∀ x, preserves R (body x)) → preserves R (for_each l body).
Proof.
  intros Hb. induction l as [|x l IH]; simpl; [apply preserves_ret|].
  by apply preserves_bind.
Qed.

End Preserves.

(** Decomposes a goal [preserves R m] along the structure of [m]; [tac] solves
    the calls. *)
Ltac preserves_tac tac :=
  repeat first
    [ apply preserves_ret; tc_solve
    | apply preserves_get_task; tc_solve
    | apply preserves_get_app; tc_solve
    | apply preserves_get_world; tc_solve
    | apply preserves_ask; tc_solve
    | apply preserves_must; tc_solve
    | progress tac
    | apply preserves_bind; [tc_solve| |intros ?]
    | apply preserves_for_each; [tc_solve|intros ?]
    | match goal with |- preserves _ (match ?x with _ => _ end) => destruct x end
    | match goal with |- preserves _ (let '(_, _) := ?x in _) => destruct x end ].

(** ** Total correctness *)

Definition triple {A} (P : World → Prop) (m : M A) (Q : A → World → Prop) : Prop :=
  ∀ w, P w → ∃ a w', m w = Some (a, w') ∧ Q a w'.

Lemma triple_ret {A} (P : World → Prop) (a : A) : triple P (mret a : M A) (λ b w, b = a ∧ P w).
Proof. intros w HP. by exists a, w. Qed.

Lemma triple_bind {A B} P (m : M A) (f : A → M B) Q Q' :
  triple P m Q → (∀ a, triple (Q a) (f a) Q') → triple P (m ≫= f) Q'.
Proof.
  intros Hm Hf w HP. destruct (Hm w HP) as (a & w1 & E & HQ).
  destruct (Hf a w1 HQ) as (b & w2 & E' & HQ'). exists b, w2. by rewrite run_bind, E.
Qed.

Lemma triple_weaken {A} (P P' : World → Prop) (m : M A) (Q Q' : A → World → Prop) :
  (∀ w, P' w → P w) → (∀ a w, Q a w → Q' a w) → triple P m Q → triple P' m Q'.
Proof. intros HP HQ Hm w Hw. destruct (Hm w (HP w Hw)) as (a & w' & E & HQ'). eauto 10. Qed.

(** A loop whose body keeps an invariant. *)
Lemma triple_for_each {A} (I : World → Prop) (S : A → Prop) (l : list A) (body : A → M unit) :
  Forall S l → (∀ x, S x → triple I (body x) (λ _, I)) → triple I (for_each l body) (λ _, I).
Proof.
  intros Hl Hb. induction Hl as [|x l Hx Hl IH]; simpl.
  - intros w HI. by exists tt, w.
  - eapply triple_bind; [by apply Hb|]. intros []. apply IH.
Qed.
