(* ===== verification/Locks.v ===== *)
(** * Readers-writer locks

    The locks of pkg/locking (Go's [sync.RWMutex] behind a wrapper) and threads that
    acquire them, release them and access shared variables.  [Lock] first announces
    the writer, which keeps new readers out, and then waits for the readers that are
    inside.  Two disciplines are enough for a program: a thread that accesses a
    variable under its lock only never races, and threads that take locks in
    increasing order never deadlock. *)

From S2P Require Import Prelude.

Inductive Mode := Read | Write.

#[export] Instance Mode_eq_dec : EqDecision Mode.
Proof. solve_decision. Defined.

Section Locks.
Context {L V : Type} `{EqDecision L} `{EqDecision V}.

Inductive Act :=
  | Acquire (l : L) (m : Mode)
  | Release (l : L) (m : Mode)
  | Access (v : V) (m : Mode).

(** A goroutine: the locks it holds, whether its call of [Lock] has announced it,
    and what it is still going to do. *)
Record Thread := mkThread {
  th_held : list (L * Mode);
  th_announced : bool;
  th_acts : list Act
}.

Definition start (acts : list Act) : Thread := mkThread [] false acts.

Definition holds (l : L) (t : Thread) : bool := bool_decide (l ∈ (th_held t).*1).
Definition holds_write (l : L) (t : Thread) : bool := bool_decide ((l, Write) ∈ th_held t).
Definition announces (l : L) (t : Thread) : bool :=
  th_announced t && match th_acts t with Acquire l' Write :: _ => bool_decide (l' = l) | _ => false end.

(** No writer holds the lock or waits for it. *)
Definition no_writer (l : L) (ts : list Thread) : bool :=
  forallb (λ t, negb (holds_write l t) && negb (announces l t)) ts.
Definition nobody (l : L) (ts : list Thread) : bool := forallb (λ t, negb (holds l t)) ts.

(** Takes out the first occurrence. *)
Fixpoint remove1 (x : L * Mode) (l : list (L * Mode)) : list (L * Mode) :=
  match l with
  | [] => []
  | y :: l => if decide (y = x) then l else y :: remove1 x l
  end.

(** The next step of a thread; [None]: it waits, has finished, or releases a lock
    that it does not hold. *)
Definition next (ts : list Thread) (t : Thread) : option Thread :=
  match th_acts t with
  | [] => None
  | Access _ _ :: acts => Some (mkThread (th_held t) false acts)
  | Release l m :: acts =>
      if bool_decide ((l, m) ∈ th_held t) then Some (mkThread (remove1 (l, m) (th_held t)) false acts) else None
  | Acquire l Read :: acts =>
      if no_writer l ts then Some (mkThread ((l, Read) :: th_held t) false acts) else None
  | Acquire l Write :: acts =>
      if th_announced t then
        if nobody l ts then Some (mkThread ((l, Write) :: th_held t) false acts) else None
      else if no_writer l ts then Some (mkThread (th_held t) true (th_acts t)) else None
  end.

Definition tstep (i : nat) (ts : list Thread) : option (list Thread) :=
  t ← ts !! i; t' ← next ts t; Some (<[i := t']> ts).

(** A schedule names the threads that step. *)
Definition interleave (sched : list nat) (ts : list Thread) : option (list Thread) :=
  foldl (λ o i, o ≫= tstep i) (Some ts) sched.

Inductive treachable (ts0 : list Thread) : list Thread → Prop :=
  | tr_start : treachable ts0 ts0
  | tr_step i ts ts' : treachable ts0 ts → tstep i ts = Some ts' → treachable ts0 ts'.

Lemma schedule_reachable sched ts ts' : interleave sched ts = Some ts' → treachable ts ts'.
Proof.
  unfold interleave. revert ts'. induction sched as [|i sched IH] using rev_ind; intros ts'; [intros [= <-]; apply tr_start|].
  rewrite foldl_app. cbn [foldl]. destruct (foldl _ _ sched) as [ts1|]; [|done].
  intros E. eapply tr_step; [by apply IH|exact E].
Qed.

(** ** Races and deadlocks *)

Definition accessing (t : Thread) : option (V * Mode) :=
  match th_acts t with Access v m :: _ => Some (v, m) | _ => None end.

(** Two threads are about to access a variable, one of them to write it. *)
Definition race (ts : list Thread) : Prop :=
  ∃ i j t u v m m', i ≠ j ∧ ts !! i = Some t ∧ ts !! j = Some u ∧
    accessing t = Some (v, m) ∧ accessing u = Some (v, m') ∧ (m = Write ∨ m' = Write).

Definition finished (ts : list Thread) : Prop := Forall (λ t, th_acts t = []) ts.

(** Some thread has not finished, and none can step. *)
Definition deadlock (ts : list Thread) : Prop := ¬ finished ts ∧ ∀ i, tstep i ts = None.

(** ** The discipline *)

(** A variable is read under one of its locks and written under all of them. *)
Definition guarded (guards : V → list L) (held : list (L * Mode)) (v : V) (m : Mode) : Prop :=
  match m with
  | Read => Exists (λ l, l ∈ held.*1) (guards v)
  | Write => guards v ≠ [] ∧ Forall (λ l, (l, Write) ∈ held) (guards v)
  end.

#[export] Instance guarded_dec guards held v m : Decision (guarded guards held v m).
Proof. destruct m; cbn; apply _. Defined.

(** The order of the locks, and the accesses that are allowed under those held:
    [guarded] ones where races are at stake, any where the order is. *)
Context (rank : L → nat) (allowed : list (L * Mode) → V → Mode → Prop).
Context {Hallowed : ∀ held v m, Decision (allowed held v m)}.

Definition below (held : list (L * Mode)) (l : L) : Prop := Forall (λ h, rank h.1 < rank l) held.

(** The locks held after [acts], when every lock taken is above those held and
    every access is allowed. *)
Fixpoint check (held : list (L * Mode)) (acts : list Act) : option (list (L * Mode)) :=
  match acts with
  | [] => Some held
  | Acquire l m :: acts =>
      if bool_decide (below held l) then check ((l, m) :: held) acts else None
  | Release l m :: acts =>
      if bool_decide ((l, m) ∈ held) then check (remove1 (l, m) held) acts else None
  | Access v m :: acts => if bool_decide (allowed held v m) then check held acts else None
  end.

Definition disciplined (acts : list Act) : Prop := check [] acts = Some [].

Definition thread_ok (t : Thread) : Prop :=
  check (th_held t) (th_acts t) = Some [] ∧
  (th_announced t = true → ∃ l acts, th_acts t = Acquire l Write :: acts).

(** Writers are alone. *)
Definition exclusive (ts : list Thread) : Prop :=
  ∀ i j t u l, ts !! i = Some t → ts !! j = Some u → i ≠ j → (l, Write) ∈ th_held t → l ∉ (th_held u).*1.

Record locks_ok (ts : list Thread) : Prop := {
  lk_threads i t : ts !! i = Some t → thread_ok t;
  lk_exclusive : exclusive ts
}.

Lemma elem_of_remove1 x y l : x ∈ remove1 y l → x ∈ l.
Proof.
  induction l as [|z l IH]; [done|]. cbn [remove1]. destruct (decide (z = y)); [by right|].
  rewrite !elem_of_cons. intros [?|?]; auto.
Qed.

Lemma nobody_holds l ts i t : nobody l ts = true → ts !! i = Some t → l ∉ (th_held t).*1.
Proof.
  unfold nobody. rewrite forallb_forall. intros Hall Hi Hl.
  specialize (Hall t ltac:(apply list_elem_of_In; by eapply list_elem_of_lookup_2)). unfold holds in Hall.
  by rewrite bool_decide_eq_true_2 in Hall.
Qed.

Lemma no_writer_holds l ts i t : no_writer l ts = true → ts !! i = Some t → (l, Write) ∉ th_held t.
Proof.
  unfold no_writer. rewrite forallb_forall. intros Hall Hi Hl.
  specialize (Hall t ltac:(apply list_elem_of_In; by eapply list_elem_of_lookup_2)). unfold holds_write in Hall.
  by rewrite bool_decide_eq_true_2 in Hall.
Qed.

(** What a step adds to the locks of its thread. *)
Lemma next_held ts t t' l m :
  next ts t = Some t' → (l, m) ∈ th_held t' →
  (l, m) ∈ th_held t ∨ (m = Read ∧ no_writer l ts = true) ∨ (m = Write ∧ nobody l ts = true).
Proof.
  unfold next. destruct (th_acts t) as [|[l' [|]|l' m'|v m'] acts]; [done|..].
  - destruct (no_writer l' ts) eqn:Hw; [|done]. intros [= <-]. cbn [th_held]. rewrite elem_of_cons.
    intros [[= -> ->]|?]; auto.
  - destruct (th_announced t).
    + destruct (nobody l' ts) eqn:Hn; [|done]. intros [= <-]. cbn [th_held]. rewrite elem_of_cons.
      intros [[= -> ->]|?]; auto.
    + destruct (no_writer l' ts); [|done]. intros [= <-]. auto.
  - case_bool_decide; [|done]. intros [= <-]. cbn [th_held]. intros ?%elem_of_remove1. auto.
  - intros [= <-]. auto.
Qed.

Lemma next_thread_ok ts t t' : thread_ok t → next ts t = Some t' → thread_ok t'.
Proof.
  intros [Hc _]. unfold next, thread_ok. destruct (th_acts t) as [|[l [|]|l m|v m] acts] eqn:Ha; [done|..].
  - destruct (no_writer l ts); [|done]. intros [= <-]. cbn [check] in Hc. by destruct (bool_decide _).
  - destruct (th_announced t).
    + destruct (nobody l ts); [|done]. intros [= <-]. cbn [check] in Hc. by destruct (bool_decide _).
    + destruct (no_writer l ts); [|done]. intros [= <-]. cbn [th_held th_acts]. split; [done|eauto].
  - case_bool_decide as Hin; [|done]. intros [= <-]. cbn [check] in Hc. by rewrite bool_decide_eq_true_2 in Hc.
  - intros [= <-]. cbn [check] in Hc. by destruct (bool_decide _).
Qed.

Lemma tstep_inv i ts ts' :
  tstep i ts = Some ts' → ∃ t t', ts !! i = Some t ∧ next ts t = Some t' ∧ ts' = <[i := t']> ts.
Proof.
  unfold tstep. destruct (ts !! i) as [t|]; [|done]. cbn [mbind option_bind].
  destruct (next ts t) as [t'|] eqn:E; [|done]. intros [= <-]. eauto.
Qed.

Lemma tstep_exclusive i ts ts' : exclusive ts → tstep i ts = Some ts' → exclusive ts'.
Proof.
  intros Hex (t & t' & Hi & Hn & ->)%tstep_inv. intros a b x y l Ha Hb Hab Hw Hl.
  apply list_elem_of_fmap in Hl as ([l' m] & -> & Hl). cbn [fst] in *.
  apply list_lookup_insert_Some in Ha as [(<- & <- & _)|[Hia Ha]];
    apply list_lookup_insert_Some in Hb as [(<- & <- & _)|[Hib Hb]]; try done.
  - destruct (next_held _ _ _ _ _ Hn Hw) as [Hold|[[? _]|[_ Hnb]]]; [|done|].
    + by eapply (Hex i b t y l'); [..|apply (list_elem_of_fmap_2 fst) in Hl].
    + eapply nobody_holds; [exact Hnb|exact Hb|]. by apply (list_elem_of_fmap_2 fst) in Hl.
  - destruct (next_held _ _ _ _ _ Hn Hl) as [Hold|[[_ Hnw]|[_ Hnb]]].
    + by eapply (Hex a i x t l'); [..|apply (list_elem_of_fmap_2 fst) in Hold].
    + by eapply no_writer_holds.
    + eapply nobody_holds; [exact Hnb|exact Ha|]. by apply (list_elem_of_fmap_2 fst) in Hw.
  - by eapply (Hex a b x y l'); [..|apply (list_elem_of_fmap_2 fst) in Hl].
Qed.

Lemma tstep_ok i ts ts' : locks_ok ts → tstep i ts = Some ts' → locks_ok ts'.
Proof.
  intros [Ht Hex] Hs. split; [|by eapply tstep_exclusive]. intros j u.
  apply tstep_inv in Hs as (t & t' & Hi & Hn & ->).
  intros [(<- & <- & _)|[_ Hj]]%list_lookup_insert_Some; [|by apply (Ht j)].
  eapply next_thread_ok; [|exact Hn]. by apply (Ht i).
Qed.

Lemma start_ok progs : Forall disciplined progs → locks_ok (start <$> progs).
Proof.
  intros Hall. split.
  - intros i t (p & -> & Hp)%list_lookup_fmap_Some. split; [by apply (Forall_lookup_1 _ _ _ _ Hall Hp)|done].
  - intros i j t u l (p & -> & _)%list_lookup_fmap_Some _ _ Hw. by apply elem_of_nil in Hw.
Qed.

Lemma treachable_ok ts0 ts : locks_ok ts0 → treachable ts0 ts → locks_ok ts.
Proof. intros H0. induction 1; [done|by eapply tstep_ok]. Qed.

(** ** No races *)

Lemma access_allowed t v m : thread_ok t → accessing t = Some (v, m) → allowed (th_held t) v m.
Proof.
  intros [Hc _]. unfold accessing. destruct (th_acts t) as [|[] acts]; try done. intros [= -> ->].
  cbn [check] in Hc. by case_bool_decide.
Qed.

(** A writer and another thread with access have a lock in common. *)
Lemma guarded_common guards held held' v m :
  guarded guards held v Write → guarded guards held' v m → ∃ l, (l, Write) ∈ held ∧ l ∈ held'.*1.
Proof.
  intros [Hne Hall] Hm. rewrite Forall_forall in Hall. destruct m; cbn [guarded] in Hm.
  - apply Exists_exists in Hm as (l & Hl & Hh). eauto.
  - destruct Hm as [_ Hm]. destruct (guards v) as [|l ls]; [done|]. exists l.
    split; [apply Hall; left|]. apply Forall_cons in Hm as [Hm _]. by apply (list_elem_of_fmap_2 fst) in Hm.
Qed.

Lemma locks_ok_no_race guards ts :
  (∀ held v m, allowed held v m → guarded guards held v m) → locks_ok ts → ¬ race ts.
Proof.
  intros Hg [Ht Hex] (i & j & t & u & v & m & m' & Hij & Hi & Hj & Hat & Hau & Hw).
  pose proof (Hg _ _ _ (access_allowed t v m (Ht i t Hi) Hat)) as Hm.
  pose proof (Hg _ _ _ (access_allowed u v m' (Ht j u Hj) Hau)) as Hm'.
  destruct Hw as [-> | ->].
  - destruct (guarded_common _ _ _ _ _ Hm Hm') as (l & Hl & Hl'). by eapply (Hex i j t u).
  - destruct (guarded_common _ _ _ _ _ Hm' Hm) as (l & Hl & Hl'). by eapply (Hex j i u t).
Qed.

(** ** No deadlocks *)

Definition wants (t : Thread) : option L :=
  match th_acts t with Acquire l _ :: _ => Some l | _ => None end.

Lemma forallb_false {A} (f : A → bool) l : forallb f l = false → ∃ x, x ∈ l ∧ f x = false.
Proof.
  induction l as [|x l IH]; [done|]. cbn [forallb]. destruct (f x) eqn:E.
  - intros (y & ? & ?)%IH. exists y. split; [by right|done].
  - intros _. exists x. split; [left|done].
Qed.

(** Where nothing moves, a thread that is not done asks for a lock. *)
Lemma stuck_wants ts t : thread_ok t → next ts t = None → th_acts t ≠ [] → ∃ l, wants t = Some l.
Proof.
  intros [Hc _]. unfold next, wants. destruct (th_acts t) as [|[l m|l m|v m] acts]; [done|eauto| |done].
  cbn [check] in Hc. intros Hn _. by destruct (bool_decide _).
Qed.

Lemma holder_wants_more ts t l :
  thread_ok t → next ts t = None → l ∈ (th_held t).*1 → ∃ l', wants t = Some l' ∧ rank l < rank l'.
Proof.
  intros Hok Hn Hl. pose proof Hok as [Hc _].
  destruct (stuck_wants ts t Hok Hn) as [l' Hw].
  { intros E. rewrite E in Hc. injection Hc as Hc. rewrite Hc in Hl. by apply elem_of_nil in Hl. }
  exists l'. split; [done|]. unfold wants in Hw. destruct (th_acts t) as [|[l1 m|l1 m|v m] acts]; try done.
  injection Hw as ->. cbn [check] in Hc. case_bool_decide as Hall; [|done].
  apply list_elem_of_fmap in Hl as (h & -> & Hh). by eapply Forall_forall in Hall.
Qed.

Lemma nobody_false l ts : nobody l ts = false → ∃ u, u ∈ ts ∧ l ∈ (th_held u).*1.
Proof.
  intros (u & Hu & Hh)%forallb_false. exists u. split; [done|].
  apply negb_false_iff in Hh. by apply bool_decide_eq_true in Hh.
Qed.

(** A writer that waits, waits for a holder: so does whoever waits for the writer. *)
Lemma no_writer_false l ts :
  (∀ t, t ∈ ts → next ts t = None) → no_writer l ts = false → ∃ u, u ∈ ts ∧ l ∈ (th_held u).*1.
Proof.
  intros Hstuck (u & Hu & Hh)%forallb_false. apply andb_false_iff in Hh as [Hh|Hh]; apply negb_false_iff in Hh.
  - exists u. split; [done|]. apply bool_decide_eq_true in Hh. by apply (list_elem_of_fmap_2 fst) in Hh.
  - unfold announces in Hh. apply andb_true_iff in Hh as [Ha Hh]. specialize (Hstuck u Hu).
    unfold next in Hstuck. destruct (th_acts u) as [|[l' [|]| |] acts]; try done.
    apply bool_decide_eq_true in Hh as ->. rewrite Ha in Hstuck.
    destruct (nobody l ts) eqn:E; [done|]. by apply nobody_false.
Qed.

Lemma wanted_is_held ts t l :
  (∀ t, t ∈ ts → next ts t = None) → t ∈ ts → wants t = Some l → ∃ u, u ∈ ts ∧ l ∈ (th_held u).*1.
Proof.
  intros Hstuck Ht Hw. pose proof (Hstuck t Ht) as Hn. unfold wants in Hw. unfold next in Hn.
  destruct (th_acts t) as [|[l' m| |] acts]; try done. injection Hw as ->. destruct m.
  - destruct (no_writer l ts) eqn:E; [done|]. by apply no_writer_false.
  - destruct (th_announced t).
    + destruct (nobody l ts) eqn:E; [done|]. by apply nobody_false.
    + destruct (no_writer l ts) eqn:E; [done|]. by apply no_writer_false.
Qed.

(** So waiting threads wait for ever higher locks, and there are finitely many. *)
Lemma nobody_waits ts :
  (∀ t, t ∈ ts → thread_ok t) → (∀ t, t ∈ ts → next ts t = None) → ∀ t l, t ∈ ts → wants t ≠ Some l.
Proof.
  intros Hok Hstuck. set (ranks := omap (λ t, rank <$> wants t) ts).
  enough (∀ n t l, t ∈ ts → wants t = Some l → max_list ranks - rank l < n → False) as H
    by (intros t l Ht Hw; exact (H _ t l Ht Hw (Nat.lt_succ_diag_r _))).
  induction n as [|n IH]; intros t l Ht Hw Hn; [lia|].
  destruct (wanted_is_held ts t l Hstuck Ht Hw) as (u & Hu & Hl).
  destruct (holder_wants_more ts u l (Hok u Hu) (Hstuck u Hu) Hl) as (l' & Hw' & Hlt).
  apply (IH u l' Hu Hw'). enough (rank l' ≤ max_list ranks) by lia. apply max_list_elem_of_le.
  apply list_elem_of_omap. exists u. by rewrite Hw'.
Qed.

Lemma tstep_none ts : (∀ i, tstep i ts = None) → ∀ t, t ∈ ts → next ts t = None.
Proof.
  intros Hs t (i & Hi)%list_elem_of_lookup. specialize (Hs i). unfold tstep in Hs. rewrite Hi in Hs.
  cbn [mbind option_bind] in Hs. by destruct (next ts t).
Qed.

Lemma locks_ok_no_deadlock ts : locks_ok ts → ¬ deadlock ts.
Proof.
  intros [Ht _] [Hf Hs]. pose proof (tstep_none ts Hs) as Hstuck. apply Hf, Forall_forall. intros t Hin.
  assert (∀ t, t ∈ ts → thread_ok t) as Hok by (intros u (i & Hi)%list_elem_of_lookup; by apply (Ht i)).
  destruct (decide (th_acts t = [])) as [|Hne]; [done|]. exfalso.
  destruct (stuck_wants ts t (Hok t Hin) (Hstuck t Hin) Hne) as [l Hw].
  by eapply nobody_waits.
Qed.

(** ** Runs end *)

(** A call of [Lock] takes two steps, everything else one. *)
Definition steps_left1 (t : Thread) : nat := 2 * length (th_acts t) - (if th_announced t then 1 else 0).
Definition steps_left (ts : list Thread) : nat := sum_list_with steps_left1 ts.

Lemma next_work ts t t' : next ts t = Some t' → steps_left1 t' < steps_left1 t.
Proof.
  unfold next, steps_left1. destruct (th_acts t) as [|[l [|]|l m|v m] acts]; [done|..]; intros Hn;
    destruct (th_announced t);
    repeat match goal with H : context [if ?b then _ else _] |- _ => destruct b end;
    simplify_eq; cbn [th_acts th_announced length]; lia.
Qed.

Lemma tstep_work i ts ts' : tstep i ts = Some ts' → steps_left ts' < steps_left ts.
Proof.
  intros (t & t' & Hi & Hn & ->)%tstep_inv. apply next_work in Hn. unfold steps_left.
  clear -Hi Hn. revert i Hi. induction ts as [|u ts IH]; intros [|i] Hi; [done|done|..].
  - cbn in *. simplify_eq. lia.
  - specialize (IH i Hi). by apply Nat.add_lt_mono_l.
Qed.

Lemma schedule_snoc sched i ts : interleave (sched ++ [i]) ts = interleave sched ts ≫= tstep i.
Proof. unfold interleave. by rewrite foldl_app. Qed.

(** No run is longer than the work at its start. *)
Lemma schedule_bounded sched ts ts' : interleave sched ts = Some ts' → length sched + steps_left ts' ≤ steps_left ts.
Proof.
  revert ts'. induction sched as [|i sched IH] using rev_ind; intros ts'; [intros [= <-]; cbn; lia|].
  rewrite schedule_snoc. destruct (interleave sched ts) as [ts1|]; [|done]. cbn [mbind option_bind].
  intros Hs%tstep_work. specialize (IH ts1 eq_refl). rewrite length_app. cbn [length]. lia.
Qed.

Lemma deadlock_dec ts : finished ts ∨ deadlock ts ∨ ∃ i ts', tstep i ts = Some ts'.
Proof.
  destruct (decide (Forall (λ t, th_acts t = []) ts)) as [|Hf]; [by left|]. right.
  destruct (decide (Exists (λ t, is_Some (next ts t)) ts)) as [He|Hn].
  - right. apply Exists_exists in He as (t & (i & Hi)%list_elem_of_lookup & [t' Ht']).
    exists i, (<[i := t']> ts). unfold tstep. rewrite Hi. cbn [mbind option_bind]. by rewrite Ht'.
  - left. split; [done|]. intros i. unfold tstep. destruct (ts !! i) as [t|] eqn:Hi; [|done].
    cbn [mbind option_bind]. destruct (next ts t) as [t'|] eqn:E; [|done]. destruct Hn.
    apply Exists_exists. exists t. split; [by eapply list_elem_of_lookup_2|by rewrite E].
Qed.

(** From a good state every run can be completed, and no run can be kept from it
    for more than [steps_left] steps. *)
Lemma locks_ok_finish ts : locks_ok ts → ∃ sched ts', interleave sched ts = Some ts' ∧ finished ts'.
Proof.
  remember (steps_left ts) as n eqn:Hn. revert ts Hn.
  induction n as [n IH] using (well_founded_induction lt_wf). intros ts -> Hok.
  destruct (deadlock_dec ts) as [Hf|[Hd|(i & ts1 & Hs)]].
  - by exists [], ts.
  - by destruct (locks_ok_no_deadlock ts Hok).
  - destruct (IH (steps_left ts1) (tstep_work _ _ _ Hs) ts1 eq_refl (tstep_ok _ _ _ Hok Hs)) as (sched & ts' & Hr & Hf).
    exists (i :: sched), ts'. split; [|done]. unfold interleave in *. cbn [foldl mbind option_bind]. by rewrite Hs.
Qed.

(** ** Programs

    The locks a function takes and the variables it accesses, on every path: a
    branch is [Alt], a loop [Star], and what the caller or the data chooses [Any]. *)

Inductive Prog :=
  | Skip
  | Do (v : V) (m : Mode)
  | Locked (l : L) (m : Mode) (p : Prog)
  | Unlocked (l : L) (m : Mode) (p : Prog)
  | Seq (p q : Prog)
  | Alt (p q : Prog)
  | Star (p : Prog)
  | Any (f : string → Prog).

Inductive trace : Prog → list Act → Prop :=
  | t_skip : trace Skip []
  | t_do v m : trace (Do v m) [Access v m]
  | t_locked l m p a : trace p a → trace (Locked l m p) (Acquire l m :: a ++ [Release l m])
  | t_unlocked l m p a : trace p a → trace (Unlocked l m p) (Release l m :: a ++ [Acquire l m])
  | t_seq p q a b : trace p a → trace q b → trace (Seq p q) (a ++ b)
  | t_left p q a : trace p a → trace (Alt p q) a
  | t_right p q a : trace q a → trace (Alt p q) a
  | t_done p : trace (Star p) []
  | t_again p a b : trace p a → trace (Star p) b → trace (Star p) (a ++ b)
  | t_any f x a : trace (f x) a → trace (Any f) a.

(** The discipline on every path of a program that runs with the locks [held]. *)
Fixpoint ok (held : list (L * Mode)) (p : Prog) : Prop :=
  match p with
  | Skip => True
  | Do v m => allowed held v m
  | Locked l m p => below held l ∧ ok ((l, m) :: held) p
  | Unlocked l m p => match held with h :: held => h = (l, m) ∧ below held l ∧ ok held p | [] => False end
  | Seq p q | Alt p q => ok held p ∧ ok held q
  | Star p => ok held p
  | Any f => ∀ x, ok held (f x)
  end.

Lemma check_app held p q : check held (p ++ q) = check held p ≫= λ h, check h q.
Proof.
  revert held. induction p as [|[l m|l m|v m] p IH]; intros held; [done|..]; cbn [app check];
    by destruct (bool_decide _).
Qed.

Lemma check_locked held l m a :
  below held l → check ((l, m) :: held) a = Some ((l, m) :: held) →
  check held (Acquire l m :: a ++ [Release l m]) = Some held.
Proof.
  intros Hb Ha. cbn [check]. rewrite bool_decide_eq_true_2 by done. rewrite check_app, Ha.
  cbn [mbind option_bind check]. rewrite bool_decide_eq_true_2 by left. cbn [remove1]. by rewrite decide_True.
Qed.

Lemma check_unlocked held l m a :
  below held l → check held a = Some held →
  check ((l, m) :: held) (Release l m :: a ++ [Acquire l m]) = Some ((l, m) :: held).
Proof.
  intros Hb Ha. cbn [check]. rewrite bool_decide_eq_true_2 by left. cbn [remove1]. rewrite decide_True by done.
  rewrite check_app, Ha. cbn [mbind option_bind check]. by rewrite bool_decide_eq_true_2.
Qed.

(** A program gives back the locks it takes. *)
Lemma ok_trace p a : trace p a → ∀ held, ok held p → check held a = Some held.
Proof.
  induction 1 as [|v m|l m p a _ IH|l m p a _ IH|p q a b _ IHa _ IHb|p q a _ IH|p q a _ IH|p|p a b _ IHa _ IHb|f x a _ IH];
    intros held Hok; cbn [ok] in Hok.
  - done.
  - cbn [check]. by rewrite bool_decide_eq_true_2.
  - apply check_locked; [apply Hok|]. apply IH, Hok.
  - destruct held as [|h held]; [done|]. destruct Hok as (-> & Hb & Hok). apply check_unlocked; [done|by apply IH].
  - rewrite check_app, IHa by apply Hok. apply IHb, Hok.
  - apply IH, Hok.
  - apply IH, Hok.
  - done.
  - rewrite check_app, IHa by done. by apply IHb.
  - apply IH, Hok.
Qed.

Lemma ok_disciplined p a : trace p a → ok [] p → disciplined a.
Proof. intros Ht Hok. by apply (ok_trace p). Qed.

Lemma ok_threads ps acts ts :
  Forall (ok []) ps → Forall2 trace ps acts → treachable (start <$> acts) ts → locks_ok ts.
Proof.
  intros Hok Htr Hr. eapply treachable_ok; [|exact Hr]. apply start_ok. clear Hr.
  induction Htr as [|p a ps acts Ht _ IH]; [done|]. apply Forall_cons in Hok as [Hp Hok].
  constructor; [by eapply ok_disciplined|by apply IH].
Qed.

(** ** Examples by evaluation *)

Inductive Choice := First | Second | Pick (x : string).

(** A path of a program, by the choices at its branches, loops and parameters. *)
Fixpoint walk (n : nat) (p : Prog) (cs : list Choice) : option (list Act * list Choice) :=
  match n, p, cs with
  | 0, _, _ => None
  | S n, Skip, _ => Some ([], cs)
  | S n, Do v m, _ => Some ([Access v m], cs)
  | S n, Locked l m p, _ => '(a, cs) ← walk n p cs; Some (Acquire l m :: a ++ [Release l m], cs)
  | S n, Unlocked l m p, _ => '(a, cs) ← walk n p cs; Some (Release l m :: a ++ [Acquire l m], cs)
  | S n, Seq p q, _ => '(a, cs) ← walk n p cs; '(b, cs) ← walk n q cs; Some (a ++ b, cs)
  | S n, Alt p q, First :: cs => walk n p cs
  | S n, Alt p q, Second :: cs => walk n q cs
  | S n, Star p, First :: cs => '(a, cs) ← walk n p cs; '(b, cs) ← walk n (Star p) cs; Some (a ++ b, cs)
  | S n, Star p, Second :: cs => Some ([], cs)
  | S n, Any f, Pick x :: cs => walk n (f x) cs
  | S n, _, _ => None
  end.

Lemma walk_trace n p cs a cs' : walk n p cs = Some (a, cs') → trace p a.
Proof.
  revert p cs a cs'. induction n as [|n IH]; intros p cs a cs'; [done|].
  destruct p; try destruct cs as [|[| |] cs]; cbn [walk]; intros Hw; simplify_option_eq;
    repeat (match goal with
            | x : (list Act * list Choice)%type |- _ => destruct x
            | H : walk _ _ _ = Some (_, _) |- _ => apply IH in H
            end; simplify_option_eq); eauto using trace.
Qed.

Definition race_at (i j : nat) (ts : list Thread) : bool :=
  match ts !! i ≫= accessing, ts !! j ≫= accessing with
  | Some (v, m), Some (v', m') =>
      bool_decide (i ≠ j) && bool_decide (v = v') && (bool_decide (m = Write) || bool_decide (m' = Write))
  | _, _ => false
  end.

Lemma race_at_race i j ts : race_at i j ts = true → race ts.
Proof.
  unfold race_at. destruct (ts !! i) as [t|] eqn:Hi; [|done]. cbn [mbind option_bind].
  destruct (accessing t) as [[v m]|] eqn:Ht; [|done].
  destruct (ts !! j) as [u|] eqn:Hj; [|done]. cbn [mbind option_bind].
  destruct (accessing u) as [[v' m']|] eqn:Hu; [|done].
  rewrite !andb_true_iff, orb_true_iff, !bool_decide_eq_true. intros [[Hij ->] Hw].
  by exists i, j, t, u, v', m, m'.
Qed.

Definition deadlocked (ts : list Thread) : bool :=
  existsb (λ t, match th_acts t with [] => false | _ => true end) ts &&
  forallb (λ t, match next ts t with None => true | _ => false end) ts.

Lemma deadlocked_deadlock ts : deadlocked ts = true → deadlock ts.
Proof.
  unfold deadlocked. rewrite andb_true_iff, existsb_exists, forallb_forall.
  intros [(t & Ht%list_elem_of_In & Hne) Hall]. split.
  - intros Hf. unfold finished in Hf. rewrite Forall_forall in Hf. by rewrite (Hf t Ht) in Hne.
  - intros i. unfold tstep. destruct (ts !! i) as [u|] eqn:Hi; [|done]. cbn [mbind option_bind].
    apply list_elem_of_lookup_2, list_elem_of_In, Hall in Hi. by destruct (next ts u).
Qed.

(** The threads of some programs, on the paths chosen, after a schedule. *)
Definition play (n : nat) (ps : list Prog) (css : list (list Choice)) (sched : list nat) : option (list Thread) :=
  acts ← mapM (λ pc, fst <$> walk n pc.1 pc.2) (zip ps css);
  interleave sched (start <$> acts).

Lemma play_reachable n ps css sched ts :
  length ps = length css → play n ps css sched = Some ts →
  ∃ acts, Forall2 trace ps acts ∧ treachable (start <$> acts) ts.
Proof.
  unfold play. intros Hlen. destruct (mapM _ _) as [acts|] eqn:Hm; [|done]. cbn [mbind option_bind].
  intros Hs. exists acts. split; [|by eapply schedule_reachable]. clear Hs.
  apply mapM_Some_1 in Hm. revert css acts Hlen Hm. induction ps as [|p ps IH]; intros [|cs css] acts Hlen Hm; try done.
  - by inversion_clear Hm.
  - cbn in Hm. apply Forall2_cons_inv_l in Hm as (a & acts' & Hw & Hm & ->). cbn in Hlen.
    constructor; [|apply (IH css); [lia|done]].
    cbn in Hw. destruct (walk n p cs) as [[a' cs']|] eqn:E; [|done]. injection Hw as <-. by eapply walk_trace.
Qed.
End Locks.
