(* ===== verification/Dispatcher.v ===== *)
(** * The dispatcher: [pkg/dispatcher/dispatcher.go]

    Scheduling events travel through one buffered channel; a goroutine takes
    them out and calls the handlers registered for their type.  A dispatch that
    finds the channel full starts a goroutine that retries until a timeout.  The
    state is the global [Dispatcher] together with what its goroutines hold; the
    calls and the moves of the goroutines are the steps of a transition relation,
    so every interleaving is covered.  [d_accepted], [d_delivered] and
    [d_dropped] record history and are read by no operation. *)

From S2P Require Import Prelude.
From S2P Require Import World.

Inductive EventType := EventTypeApp | EventTypeTask | EventTypeNode.

#[export] Instance EventType_eq_dec : EqDecision EventType.
Proof. solve_decision. Defined.
#[export] Instance EventType_countable : Countable EventType.
Proof.
  refine (inj_countable (λ t, match t with EventTypeApp => 0 | EventTypeTask => 1 | EventTypeNode => 2 end)
    (λ n, match n with 0 => Some EventTypeApp | 1 => Some EventTypeTask | 2 => Some EventTypeNode
          | _ => None end) _).
  by intros [].
Defined.

(** The type switch of the event loop. *)
Definition event_type (ev : SchedEvent) : EventType :=
  match ev with
  | DTask _ _ _ => EventTypeTask
  | DApp _ _ => EventTypeApp
  | DNode _ _ => EventTypeNode
  end.

(** ** Handlers

    A handler is known by its id. *)

Abbreviation Handlers := (gmap EventType (gset string)).

Definition RegisterEventHandler (handlerID : string) (eventType : EventType) (h : Handlers) : Handlers :=
  let h := match h !! eventType with Some _ => h | None => <[eventType := ∅]> h end in
  <[eventType := {[handlerID]} ∪ default ∅ (h !! eventType)]> h.

Definition UnregisterEventHandler (handlerID : string) (eventType : EventType) (h : Handlers) : Handlers :=
  match h !! eventType with
  | Some ids =>
      let ids' := ids ∖ {[handlerID]} in
      if bool_decide (ids' = ∅) then delete eventType h else <[eventType := ids']> h
  | None => h
  end.

Definition UnregisterAllEventHandlers (h : Handlers) : Handlers := ∅.

(** The handlers an event is given to. *)
Definition getEventHandler (eventType : EventType) (h : Handlers) : gset string :=
  default ∅ (h !! eventType).

(** ** State *)

(** A goroutine of [asyncDispatch]: its event, when it began, and the stop
    channel it watches (the number of the [Start] that made it). *)
Record Async := mkAsync { as_event : SchedEvent; as_begin : Z; as_stop : nat }.

Inductive DropReason := TimedOut (elapsed : Z) | Stopped.

Record Dispatcher := mkDispatcher {
  d_chan : list SchedEvent;                  (* eventChan, oldest first *)
  d_capacity : nat;
  d_handlers : Handlers;
  d_running : bool;
  d_loop : bool;                             (* the event loop goroutine exists *)
  d_start : nat;                             (* number of the current stopChan *)
  d_closed : bool;                           (* the current stopChan is closed *)
  d_async : list Async;                      (* goroutines of asyncDispatch *)
  d_count : Z;                               (* asyncDispatchCount *)
  d_limit : Z;                               (* asyncDispatchLimit *)
  d_timeout : Z;                             (* dispatchTimeout *)
  d_now : Z;
  d_accepted : list SchedEvent;
  d_delivered : list (SchedEvent * gset string);
  d_dropped : list (SchedEvent * DropReason)
}.

Definition d_set_chan (v : list SchedEvent) (d : Dispatcher) : Dispatcher :=
  mkDispatcher v (d_capacity d) (d_handlers d) (d_running d) (d_loop d) (d_start d) (d_closed d)
    (d_async d) (d_count d) (d_limit d) (d_timeout d) (d_now d) (d_accepted d) (d_delivered d)
    (d_dropped d).
Definition d_set_handlers (v : Handlers) (d : Dispatcher) : Dispatcher :=
  mkDispatcher (d_chan d) (d_capacity d) v (d_running d) (d_loop d) (d_start d) (d_closed d)
    (d_async d) (d_count d) (d_limit d) (d_timeout d) (d_now d) (d_accepted d) (d_delivered d)
    (d_dropped d).
Definition d_set_async (v : list Async) (n : Z) (d : Dispatcher) : Dispatcher :=
  mkDispatcher (d_chan d) (d_capacity d) (d_handlers d) (d_running d) (d_loop d) (d_start d)
    (d_closed d) v n (d_limit d) (d_timeout d) (d_now d) (d_accepted d) (d_delivered d)
    (d_dropped d).
Definition d_set_life (running loop : bool) (start : nat) (closed : bool) (d : Dispatcher) :
    Dispatcher :=
  mkDispatcher (d_chan d) (d_capacity d) (d_handlers d) running loop start closed (d_async d)
    (d_count d) (d_limit d) (d_timeout d) (d_now d) (d_accepted d) (d_delivered d) (d_dropped d).
Definition d_set_now (v : Z) (d : Dispatcher) : Dispatcher :=
  mkDispatcher (d_chan d) (d_capacity d) (d_handlers d) (d_running d) (d_loop d) (d_start d)
    (d_closed d) (d_async d) (d_count d) (d_limit d) (d_timeout d) v (d_accepted d) (d_delivered d)
    (d_dropped d).
Definition d_accept (ev : SchedEvent) (d : Dispatcher) : Dispatcher :=
  mkDispatcher (d_chan d) (d_capacity d) (d_handlers d) (d_running d) (d_loop d) (d_start d)
    (d_closed d) (d_async d) (d_count d) (d_limit d) (d_timeout d) (d_now d) (d_accepted d ++ [ev])
    (d_delivered d) (d_dropped d).
Definition d_deliver (ev : SchedEvent) (ids : gset string) (d : Dispatcher) : Dispatcher :=
  mkDispatcher (d_chan d) (d_capacity d) (d_handlers d) (d_running d) (d_loop d) (d_start d)
    (d_closed d) (d_async d) (d_count d) (d_limit d) (d_timeout d) (d_now d) (d_accepted d)
    (d_delivered d ++ [(ev, ids)]) (d_dropped d).
Definition d_drop (ev : SchedEvent) (r : DropReason) (d : Dispatcher) : Dispatcher :=
  mkDispatcher (d_chan d) (d_capacity d) (d_handlers d) (d_running d) (d_loop d) (d_start d)
    (d_closed d) (d_async d) (d_count d) (d_limit d) (d_timeout d) (d_now d) (d_accepted d)
    (d_delivered d) (d_dropped d ++ [(ev, r)]).

(** [initDispatcher]: the limit is [max(10000, int32(capacity/10))]. *)
Definition initDispatcher (eventChannelCapacity : nat) (dispatchTimeout now : Z) : Dispatcher :=
  mkDispatcher [] eventChannelCapacity ∅ false false 0 false [] 0
    (Z.max 10000 (wrap32 (Z.of_nat eventChannelCapacity / 10))) dispatchTimeout now [] [] [].

(** ** Operations *)

Definition full (d : Dispatcher) : bool := bool_decide (d_capacity d <= length (d_chan d)).

(** [None] is the panic on the limit. *)
Definition asyncDispatch (ev : SchedEvent) (d : Dispatcher) : option Dispatcher :=
  let count := (d_count d + 1)%Z in
  if bool_decide (d_limit d < count)%Z then None
  else Some (d_accept ev (d_set_async (d_async d ++ [mkAsync ev (d_now d) (d_start d)]) count d)).

(** [Some (Some err, _)] is the error that [Dispatch] logs. *)
Definition dispatch_event (ev : SchedEvent) (d : Dispatcher) : option (option string * Dispatcher) :=
  if negb (d_running d) then Some (Some "dispatcher is not running", d)
  else if full d then
    match asyncDispatch ev d with Some d' => Some (None, d') | None => None end
  else Some (None, d_accept ev (d_set_chan (d_chan d ++ [ev]) d)).

(** Receiving from the channel and calling the handlers. *)
Definition deliver (d : Dispatcher) : option Dispatcher :=
  match d_chan d with
  | ev :: rest =>
      Some (d_deliver ev (getEventHandler (event_type ev) (d_handlers d)) (d_set_chan rest d))
  | [] => None
  end.

Definition Start (d : Dispatcher) : Dispatcher :=
  if d_running d then d else d_set_life true true (S (d_start d)) false d.

(** Closing the stop channel; a second [Stop] does nothing. *)
Definition Stop (d : Dispatcher) : Dispatcher :=
  if d_closed d then d else d_set_life (d_running d) (d_loop d) (d_start d) true d.

(** The event loop leaves on a closed stop channel. *)
Definition loop_exit (d : Dispatcher) : Dispatcher :=
  d_set_life false false (d_start d) (d_closed d) d.

(** The stop channel of a goroutine is closed; those of earlier starts are. *)
Definition stop_closed (d : Dispatcher) (a : Async) : bool :=
  d_closed d || bool_decide (as_stop a ≠ d_start d).

(** A goroutine of [asyncDispatch] ends: the deferred decrement. *)
Definition end_async (i : nat) (d : Dispatcher) : Dispatcher :=
  d_set_async (delete i (d_async d)) (d_count d - 1) d.

(** ** Steps *)

Inductive dstep : Dispatcher → Dispatcher → Prop :=
  | d_register id ty d : dstep d (d_set_handlers (RegisterEventHandler id ty (d_handlers d)) d)
  | d_unregister id ty d : dstep d (d_set_handlers (UnregisterEventHandler id ty (d_handlers d)) d)
  | d_unregister_all d : dstep d (d_set_handlers (UnregisterAllEventHandlers (d_handlers d)) d)
  | d_dispatch ev r d d' : dispatch_event ev d = Some (r, d') → dstep d d'
  | d_receive d d' : d_loop d = true → deliver d = Some d' → dstep d d'
  | d_send i a d :
      (* a goroutine puts its event into the channel *)
      d_async d !! i = Some a → full d = false →
      dstep d (end_async i (d_set_chan (d_chan d ++ [as_event a]) d))
  | d_give_up i a d :
      (* the check interval elapsed and the timeout is reached *)
      d_async d !! i = Some a → (d_timeout d <= d_now d - as_begin a)%Z →
      dstep d (end_async i (d_drop (as_event a) (TimedOut (d_now d - as_begin a)) d))
  | d_abandon i a d :
      (* the goroutine sees the stop channel, or the dispatcher not running *)
      d_async d !! i = Some a → stop_closed d a = true ∨ d_running d = false →
      dstep d (end_async i (d_drop (as_event a) Stopped d))
  | d_do_start d : dstep d (Start d)
  | d_do_stop d : dstep d (Stop d)
  | d_loop_exit d : d_loop d = true → d_closed d = true → dstep d (loop_exit d)
  | d_tick n d : (0 <= n)%Z → dstep d (d_set_now (d_now d + n) d).

Abbreviation dsteps := (rtc dstep).

(** The steps that move events towards their handlers. *)
Inductive work : Dispatcher → Dispatcher → Prop :=
  | w_receive d d' : d_loop d = true → deliver d = Some d' → work d d'
  | w_send i a d :
      d_async d !! i = Some a → full d = false →
      work d (end_async i (d_set_chan (d_chan d ++ [as_event a]) d)).
