(* ===== verification/DispatcherThms.v ===== *)
(** * The dispatcher loses no event

    The invariant of the dispatcher over all interleavings, the order in which
    events are delivered, and that pending events are delivered. *)

From S2P Require Import Prelude.
From S2P Require Import World.
From S2P Require Import Dispatcher.

(** The events the goroutines of [asyncDispatch] hold. *)
Definition pending (d : Dispatcher) : list SchedEvent := as_event <$> d_async d.

(** The dispatcher has been stopped after a start. *)
Definition was_stopped (d : Dispatcher) : Prop :=
  1 <= d_start d ∧ (d_closed d = true ∨ 2 <= d_start d).

Definition drop_ok (d : Dispatcher) (x : SchedEvent * DropReason) : Prop :=
  match x.2 with TimedOut elapsed => (d_timeout d <= elapsed)%Z | Stopped => was_stopped d end.

Record dispatcher_ok (d : Dispatcher) : Prop := {
  do_conserved : d_accepted d ≡ₚ (d_delivered d).*1 ++ d_chan d ++ pending d ++ (d_dropped d).*1;
  do_count : d_count d = Z.of_nat (length (d_async d));
  do_limit : (d_count d <= d_limit d)%Z;
  do_capacity : length (d_chan d) <= d_capacity d;
  do_loop : d_running d = d_loop d;
  do_dropped : Forall (drop_ok d) (d_dropped d);
  do_async : Forall (λ a, 1 <= as_stop a <= d_start d) (d_async d);
  do_started : d_running d = true → 1 <= d_start d;
  do_stopped : d_running d = false → d_start d = 0 ∨ d_closed d = true
}.

(** ** Lists *)

Lemma delete_fmap {A B} (f : A → B) (l : list A) i : f <$> delete i l = delete i (f <$> l).
Proof. revert i. induction l as [|x l IH]; intros [|i]; simpl; [done..|]. by f_equal. Qed.

Lemma pending_delete d i a : d_async d !! i = Some a →
  pending d ≡ₚ as_event a :: (as_event <$> delete i (d_async d)).
Proof.
  intros Hi. unfold pending. rewrite delete_fmap. apply delete_Permutation.
  by rewrite list_lookup_fmap, Hi.
Qed.

Lemma length_delete_Z {A} (l : list A) i a : l !! i = Some a →
  (Z.of_nat (length l) - 1)%Z = Z.of_nat (length (delete i l)).
Proof. intros Hi. rewrite length_delete by eauto. apply lookup_lt_Some in Hi. lia. Qed.

(** ** The invariant *)

Lemma dispatcher_ok_init cap timeout now : dispatcher_ok (initDispatcher cap timeout now).
Proof. split; simpl; try done; [lia|lia|by left]. Qed.

(** Steps that leave the events where they are. *)
Lemma ok_set_handlers h d : dispatcher_ok d → dispatcher_ok (d_set_handlers h d).
Proof. by intros []. Qed.

Lemma ok_set_now n d : dispatcher_ok d → dispatcher_ok (d_set_now n d).
Proof. by intros []. Qed.

Lemma ok_start d : dispatcher_ok d → dispatcher_ok (Start d).
Proof.
  intros Hd. unfold Start. destruct (d_running d) eqn:Hr; [done|].
  destruct Hd as [H1 H2 H3 H4 H5 H6 H7 H8 H9]. split; simpl; try done.
  - eapply Forall_impl; [exact H6|]. intros [ev [e|]]; [done|].
    unfold drop_ok, was_stopped. simpl. lia.
  - eapply Forall_impl; [exact H7|]. simpl. lia.
  - lia.
Qed.

Lemma ok_stop d : dispatcher_ok d → dispatcher_ok (Stop d).
Proof.
  intros Hd. unfold Stop. destruct (d_closed d) eqn:Hc; [done|].
  destruct Hd as [H1 H2 H3 H4 H5 H6 H7 H8 H9]. split; simpl; try done; [|by right].
  eapply Forall_impl; [exact H6|]. intros [ev [e|]]; [done|].
  unfold drop_ok, was_stopped. simpl. tauto.
Qed.

Lemma ok_loop_exit d : d_closed d = true → dispatcher_ok d → dispatcher_ok (loop_exit d).
Proof. intros Hc [H1 H2 H3 H4 H5 H6 H7 H8 H9]. split; simpl; try done. by right. Qed.

Lemma full_false d : full d = false → length (d_chan d) < d_capacity d.
Proof. unfold full. intros H%bool_decide_eq_false. lia. Qed.

Lemma ok_dispatch ev r d d' :
  dispatcher_ok d → dispatch_event ev d = Some (r, d') → dispatcher_ok d'.
Proof.
  intros Hd. unfold dispatch_event, asyncDispatch. destruct (d_running d) eqn:Hr; simpl;
    [|by intros [= _ <-]].
  pose proof Hd as [H1 H2 H3 H4 H5 H6 H7 H8 H9].
  destruct (full d) eqn:Hf; [case_bool_decide as Hl; [done|]|]; intros [= _ <-]; split; simpl; try done.
  - unfold pending in *. simpl. rewrite fmap_app. simpl. rewrite H1. solve_Permutation.
  - rewrite length_app. simpl. lia.
  - lia.
  - apply Forall_app. split; [done|]. apply Forall_singleton. simpl. specialize (H8 Hr). lia.
  - rewrite H1. unfold pending. simpl. solve_Permutation.
  - rewrite length_app. simpl. apply full_false in Hf. lia.
Qed.

Lemma ok_deliver d d' : dispatcher_ok d → deliver d = Some d' → dispatcher_ok d'.
Proof.
  intros [H1 H2 H3 H4 H5 H6 H7 H8 H9]. unfold deliver. destruct (d_chan d) as [|ev rest] eqn:Hc; [done|].
  intros [= <-]. split; simpl in *; try done; [|lia].
  rewrite H1, fmap_app. unfold pending. simpl. solve_Permutation.
Qed.

(** A goroutine of [asyncDispatch] ends: its event was put into the channel or
    dropped. *)
Lemma ok_send i a d :
  dispatcher_ok d → d_async d !! i = Some a → full d = false →
  dispatcher_ok (end_async i (d_set_chan (d_chan d ++ [as_event a]) d)).
Proof.
  intros [H1 H2 H3 H4 H5 H6 H7 H8 H9] Hi Hf. split; simpl; try done.
  - rewrite H1, (pending_delete d i a Hi). unfold pending. simpl. solve_Permutation.
  - rewrite H2. by eapply length_delete_Z.
  - lia.
  - rewrite length_app. simpl. apply full_false in Hf. lia.
  - by apply Forall_delete.
Qed.

Lemma ok_drop i a r d :
  dispatcher_ok d → d_async d !! i = Some a → drop_ok d (as_event a, r) →
  dispatcher_ok (end_async i (d_drop (as_event a) r d)).
Proof.
  intros [H1 H2 H3 H4 H5 H6 H7 H8 H9] Hi Hr. split; simpl; try done.
  - rewrite H1, (pending_delete d i a Hi), fmap_app. unfold pending. simpl. solve_Permutation.
  - rewrite H2. by eapply length_delete_Z.
  - lia.
  - apply Forall_app. split; [done|]. by repeat constructor.
  - by apply Forall_delete.
Qed.

Lemma stop_seen i a d :
  dispatcher_ok d → d_async d !! i = Some a → stop_closed d a = true ∨ d_running d = false →
  was_stopped d.
Proof.
  intros Hd Hi Hs. pose proof (Forall_lookup_1 _ _ _ _ (do_async d Hd) Hi) as [Ha Ha'].
  unfold was_stopped. split; [lia|]. destruct Hs as [Hs|Hr].
  - unfold stop_closed in Hs. apply orb_true_iff in Hs as [?|Hs%bool_decide_eq_true]; [by left|right; lia].
  - destruct (do_stopped d Hd Hr) as [?|?]; [lia|by left].
Qed.

Lemma dispatcher_ok_step d d' : dstep d d' → dispatcher_ok d → dispatcher_ok d'.
Proof.
  destruct 1; intros Hd; eauto using ok_set_handlers, ok_set_now, ok_start, ok_stop, ok_loop_exit,
    ok_dispatch, ok_deliver, ok_send, ok_drop.
  apply ok_drop; [done..|]. by eapply stop_seen.
Qed.

Lemma dispatcher_ok_steps d d' : dsteps d d' → dispatcher_ok d → dispatcher_ok d'.
Proof. induction 1; eauto using dispatcher_ok_step. Qed.

(** C10: no event gets lost in the dispatcher. Whatever callers and goroutines
    do in whatever order, every event that [Dispatch] accepted is exactly once
    delivered, in the channel, held by a retrying goroutine, or dropped; it is
    dropped only after waiting for the dispatch timeout or because the dispatcher
    was stopped; the channel never exceeds its capacity, and the number of
    retrying goroutines is counted exactly and never exceeds the limit. *)
Theorem dispatcher_conserves_events cap timeout now d :
  dsteps (initDispatcher cap timeout now) d →
  d_accepted d ≡ₚ (d_delivered d).*1 ++ d_chan d ++ pending d ++ (d_dropped d).*1 ∧
  Forall (drop_ok d) (d_dropped d) ∧
  length (d_chan d) <= d_capacity d ∧
  d_count d = Z.of_nat (length (d_async d)) ∧ (d_count d <= d_limit d)%Z.
Proof.
  intros Hs. pose proof (dispatcher_ok_steps _ _ Hs (dispatcher_ok_init cap timeout now)) as [].
  by split_and!.
Qed.

(** ** Order *)

(** A step after which no goroutine retries: the channel was not found full. *)
Definition calm_step (d d' : Dispatcher) : Prop := dstep d d' ∧ d_async d' = [].

Definition in_order (d : Dispatcher) : Prop :=
  d_async d = [] ∧ (d_delivered d).*1 ++ d_chan d = d_accepted d.

Lemma in_order_step d d' : calm_step d d' → in_order d → in_order d'.
Proof.
  intros [Hs Ha] [H0 Ho]. split; [done|].
  destruct Hs as [| | |ev r d d' E|d d' _ E|i a d Hi|i a d Hi|i a d Hi|d|d| |]; simpl;
    try done; try by rewrite H0 in Hi.
  - unfold dispatch_event, asyncDispatch in E. destruct (d_running d); simpl in E;
      [|by injection E as _ <-].
    destruct (full d).
    + case_bool_decide; [done|]. injection E as _ <-. simpl in Ha. by destruct (d_async d).
    + injection E as _ <-. simpl. by rewrite app_assoc, Ho.
  - unfold deliver in E. destruct (d_chan d) as [|ev rest]; [done|]. injection E as <-. simpl.
    by rewrite fmap_app, <- app_assoc.
  - unfold Start. by destruct (d_running d).
  - unfold Stop. by destruct (d_closed d).
Qed.

(** Events are delivered in the order in which they were dispatched, as
    long as the channel is never found full. *)
Theorem calm_dispatch_is_fifo cap timeout now d :
  rtc calm_step (initDispatcher cap timeout now) d →
  (d_delivered d).*1 ++ d_chan d = d_accepted d.
Proof.
  intros Hs. assert (Hio : in_order (initDispatcher cap timeout now)) by done.
  revert Hio. induction Hs as [d|d1 d2 d3 Hs _ IH]; intros Hio; [apply Hio|].
  apply IH. by eapply in_order_step.
Qed.

(** ** Progress *)

Definition work_left (d : Dispatcher) : nat := length (d_chan d) + 2 * length (d_async d).

Lemma work_decreases d d' : work d d' → work_left d' < work_left d.
Proof.
  unfold work_left. destruct 1 as [d d' _ E|i a d Hi Hf].
  - unfold deliver in E. destruct (d_chan d); [done|]. injection E as <-. simpl. lia.
  - simpl. rewrite length_app, length_delete by eauto. apply lookup_lt_Some in Hi. simpl. lia.
Qed.

Lemma work_step d d' : work d d' → dstep d d'.
Proof. destruct 1; [by eapply d_receive|by eapply d_send]. Qed.

Lemma work_keeps d d' : work d d' →
  d_loop d' = d_loop d ∧ d_dropped d' = d_dropped d ∧ d_capacity d' = d_capacity d ∧
  d_accepted d' = d_accepted d.
Proof.
  destruct 1 as [d d' _ E|]; [|done].
  unfold deliver in E. destruct (d_chan d); [done|]. by injection E as <-.
Qed.

Lemma work_progress d :
  d_loop d = true → 0 < d_capacity d → nf work d → d_chan d = [] ∧ d_async d = [].
Proof.
  intros Hl Hc Hnf. assert (Hch : d_chan d = []).
  { destruct (d_chan d) as [|ev rest] eqn:E; [done|]. exfalso. apply Hnf. eexists.
    eapply w_receive; [done|]. unfold deliver. by rewrite E. }
  split; [done|]. destruct (d_async d) as [|a rest] eqn:E; [done|]. exfalso. apply Hnf. eexists.
  apply (w_send 0 a); [by rewrite E|]. unfold full. rewrite Hch. apply bool_decide_eq_false. simpl. lia.
Qed.

Lemma works_keep d d' : rtc work d d' →
  d_loop d' = d_loop d ∧ d_dropped d' = d_dropped d ∧ d_capacity d' = d_capacity d ∧
  d_accepted d' = d_accepted d ∧ dsteps d d'.
Proof.
  induction 1 as [d|d1 d2 d3 Hw _ (IH1 & IH2 & IH3 & IH4 & IH5)]; [done|].
  destruct (work_keeps _ _ Hw) as (? & ? & ? & ?). split_and!; try congruence.
  eapply rtc_l; [by apply work_step|done].
Qed.

Lemma works_bounded n d d' : nsteps work n d d' → n + work_left d' <= work_left d.
Proof. induction 1 as [|n d1 d2 d3 Hw _ IH]; [lia|]. apply work_decreases in Hw. lia. Qed.

(** Pending events are delivered. While the event loop runs, its receiving
    and the retrying goroutines' sending cannot go on for more steps than twice
    the pending events, and when neither can do anything more, every accepted
    event has been delivered, except those dropped before. *)
Theorem pending_events_get_delivered cap timeout now d :
  dsteps (initDispatcher cap timeout now) d → d_loop d = true → 0 < d_capacity d →
  (∀ n d', nsteps work n d d' → n <= length (d_chan d) + 2 * length (d_async d)) ∧
  (∀ d', rtc work d d' → nf work d' →
     d_dropped d' = d_dropped d ∧ d_accepted d' = d_accepted d ∧
     d_accepted d ≡ₚ (d_delivered d').*1 ++ (d_dropped d).*1).
Proof.
  intros Hs Hl Hc. split.
  - intros n d' Hn. apply works_bounded in Hn. unfold work_left in Hn. lia.
  - intros d' Hw Hnf. destruct (works_keep _ _ Hw) as (Hl' & Hd' & Hc' & Ha' & Hs').
    destruct (work_progress d') as [Hch Has]; [congruence|lia|done|]. split_and!; [done..|].
    assert (Hr : dsteps (initDispatcher cap timeout now) d') by by etrans.
    pose proof (do_conserved _ (dispatcher_ok_steps _ _ Hr (dispatcher_ok_init cap timeout now))) as Hp.
    unfold pending in Hp. by rewrite Hch, Has, Hd', Ha' in Hp.
Qed.

(** ** A full channel

    Capacity one: the second event finds the channel full; the third one
    overtakes it. *)

Definition ev1 : SchedEvent := DNode "1" NodeAccepted.
Definition ev2 : SchedEvent := DNode "2" NodeAccepted.
Definition ev3 : SchedEvent := DNode "3" NodeAccepted.

(** The dispatcher after each call. *)
Definition started : Dispatcher := Eval vm_compute in Start (initDispatcher 1 300 0).
Definition after (o : option (option string * Dispatcher)) : Dispatcher :=
  match o with Some (_, d) => d | None => started end.
Definition first_sent : Dispatcher := Eval vm_compute in after (dispatch_event ev1 started).
Definition second_waits : Dispatcher := Eval vm_compute in after (dispatch_event ev2 first_sent).
Definition first_done : Dispatcher := Eval vm_compute in default started (deliver second_waits).
Definition overtaken : Dispatcher := Eval vm_compute in after (dispatch_event ev3 first_done).

Lemma overtaken_reachable : dsteps (initDispatcher 1 300 0) overtaken.
Proof.
  apply (rtc_l _ _ started); [replace started with (Start (initDispatcher 1 300 0));
    [apply d_do_start|vm_compute; reflexivity]|].
  apply (rtc_l _ _ first_sent); [apply (d_dispatch ev1 None); vm_compute; reflexivity|].
  apply (rtc_l _ _ second_waits); [apply (d_dispatch ev2 None); vm_compute; reflexivity|].
  apply (rtc_l _ _ first_done); [apply d_receive; vm_compute; reflexivity|].
  apply rtc_once, (d_dispatch ev3 None). vm_compute. reflexivity.
Qed.

(** The third event is in the channel while the second one still waits: the
    order of dispatching is not kept once the channel was full. *)
Theorem full_channel_reorders :
  dsteps (initDispatcher 1 300 0) overtaken ∧
  d_accepted overtaken = [ev1; ev2; ev3] ∧
  (d_delivered overtaken).*1 = [ev1] ∧ d_chan overtaken = [ev3] ∧ pending overtaken = [ev2].
Proof. split; [apply overtaken_reachable|]. by vm_compute. Qed.

Lemma dispatcher_conserves_events_witness :
  d_accepted overtaken ≡ₚ [ev1] ++ [ev3] ++ [ev2] ++ [].
Proof. apply (dispatcher_conserves_events 1 300 0 overtaken), overtaken_reachable. Defined.

Lemma calm_dispatch_is_fifo_witness :
  (d_delivered first_sent).*1 ++ d_chan first_sent = [ev1].
Proof.
  apply (calm_dispatch_is_fifo 1 300 0 first_sent). apply (rtc_l _ _ started).
  - split; [|reflexivity]. replace started with (Start (initDispatcher 1 300 0));
      [apply d_do_start|vm_compute; reflexivity].
  - apply rtc_once. split; [|reflexivity]. apply (d_dispatch ev1 None). vm_compute. reflexivity.
Defined.

Lemma pending_events_get_delivered_witness :
  d_loop overtaken = true ∧ ∀ n d', nsteps work n overtaken d' → n <= 3.
Proof.
  split; [reflexivity|].
  apply (pending_events_get_delivered 1 300 0 overtaken overtaken_reachable);
    vm_compute; [reflexivity|lia].
Defined.
