(* ===== verification/Fsm.v ===== *)
(** * The state machine engine

    Tasks and applications run on the third-party package [looplab/fsm].  The
    package is the class [FsmEngine]; what the shim relies on is the documented
    behaviour of [Event] and [Can], the laws [FsmLaws]: an event without a
    transition from the current state is refused; otherwise the callbacks run in
    the order before-event, enter-state, after-event, the state changes before
    the enter-state callback, and an event whose destination is the current
    state runs the event callbacks only and returns [NoTransitionError]. *)

From S2P Require Import Prelude.
From S2P Require Import K8sApi.
From S2P Require Import World.

(** [fsm.Events]: name, sources and destination. *)
Record EventDesc (S E : Type) := mkEventDesc { ed_Name : E; ed_Src : list S; ed_Dst : S }.
Arguments mkEventDesc {S E}.
Arguments ed_Name {S E}.
Arguments ed_Src {S E}.
Arguments ed_Dst {S E}.

(** The machine of one object: its current state and its callbacks; the
    after-event callback returns what it leaves in [event.Err]. *)
Record Machine (S E : Type) := mkMachine {
  m_Current : M S;
  m_SetState : S → M unit;
  m_before : S → E → M unit;
  m_enter : S → M unit;
  m_after : E → M (option string)
}.
Arguments mkMachine {S E}.
Arguments m_Current {S E}.
Arguments m_SetState {S E}.
Arguments m_before {S E}.
Arguments m_enter {S E}.
Arguments m_after {S E}.

(** The errors of [Event]. *)
Inductive FsmError :=
  | InvalidEventError                         (* no transition for the event in this state *)
  | NoTransitionError (err : option string)   (* destination is the current state *)
  | EventError (err : string).                (* [event.Err] set by a callback *)

(** The text of [NoTransitionError] when no callback reported an error is
    ["no transition"], which [handle] compares with. *)
Definition is_no_transition (e : FsmError) : bool :=
  match e with NoTransitionError None => true | _ => false end.

Section Engine.
Context {S E : Type} `{EqDecision S} `{EqDecision E}.

(** The destination of an event in a state: a later description of the same
    event and source replaces an earlier one. *)
Definition fsm_dst (table : list (EventDesc S E)) (s : S) (ev : E) : option S :=
  foldl (λ acc d, if bool_decide (ed_Name d = ev) && bool_decide (s ∈ ed_Src d)
                  then Some (ed_Dst d) else acc) None table.

(** [Event], as documented. *)
Definition fsm_run (table : list (EventDesc S E)) (m : Machine S E) (ev : E) :
    M (option FsmError) :=
  src ← m_Current m;
  match fsm_dst table src ev with
  | None => mret (Some InvalidEventError)
  | Some dst =>
      m_before m src ev;;
      if bool_decide (src = dst) then
        err ← m_after m ev;
        mret (Some (NoTransitionError err))
      else
        m_SetState m dst;;
        m_enter m dst;;
        err ← m_after m ev;
        mret (EventError <$> err)
  end.

End Engine.

Class FsmEngine := {
  fsm_Event : ∀ {S E} `{EqDecision S} `{EqDecision E},
    list (EventDesc S E) → Machine S E → E → M (option FsmError);
  fsm_Can : ∀ {S E} `{EqDecision S} `{EqDecision E}, list (EventDesc S E) → S → E → bool
}.

Class FsmLaws `{FsmEngine} : Prop := {
  fsm_Event_spec : ∀ {S E} `{EqDecision S} `{EqDecision E}
    (table : list (EventDesc S E)) (m : Machine S E) (ev : E) (w : World),
    fsm_Event table m ev w = fsm_run table m ev w;
  fsm_Can_spec : ∀ {S E} `{EqDecision S} `{EqDecision E}
    (table : list (EventDesc S E)) (s : S) (ev : E),
    fsm_Can table s ev = bool_decide (is_Some (fsm_dst table s ev))
}.

(** An engine for the closed examples. *)
#[export] Instance fsm_ref : FsmEngine := {
  fsm_Event := λ S E HS HE table m ev, fsm_run table m ev;
  fsm_Can := λ S E HS HE table s ev, bool_decide (is_Some (fsm_dst table s ev))
}.

#[export] Instance fsm_ref_laws : FsmLaws.
Proof. by split. Qed.

(** ** [pkg/common/events/event_helper.go]

    [GetEventArgsAsStrings(result, generic)] with [n] the capacity of [result],
    whose strings start empty: the contents of [result], [None] for the error.
    The arguments of the events are all strings. *)
Definition GetEventArgsAsStrings (n : nat) (generic : list string) : option (list string) :=
  match generic with
  | [] => Some (repeat "" n)
  | _ => if bool_decide (n = length generic) then Some generic else None
  end.
