(* ===== verification/ContextPods.v ===== *)
(** * Pods, volumes and lookups of the context: [pkg/cache/context.go]

    The operations of the context that tasks and applications call: assuming
    and forgetting a pod in the scheduler cache together with its volumes,
    binding volumes, finding applications and tasks. *)

From S2P Require Import Prelude.
From S2P Require Import GoStrings.
From S2P Require Import K8sApi.
From S2P Require Import Constants.
From S2P Require Import PodUtils.
From S2P Require Import SchedulerCache.
From S2P Require Import World.

Section Volumes.
Context `{Env} `{NodeInfoOps}.

Definition bindPodVolumes (pod : Pod) : M (option string) :=
  let podKey := pod_UID pod in
  w ← get_world;
  match GetPod (w_cache w) podKey with
  | None => mret None
  | Some assumedPod =>
      if ArePodVolumesAllBound (w_cache w) podKey then mret None else
      claims ← ask (λ tr, vb_GetPodVolumeClaims tr pod);
      match claims with
      | inr err => mret (Some err)
      | inl podVolumeClaims =>
          match GetNodeInfo (w_cache w) (pod_NodeName assumedPod) with
          | None => mret (Some ("node " +:+ pod_NodeName assumedPod +:+ " is not found"))
          | Some node =>
              found ← ask (λ tr, vb_FindPodVolumes tr pod podVolumeClaims node);
              match found with
              | inr err => mret (Some err)
              | inl (volumes, reasons) =>
                  if bool_decide (0 < length reasons)%nat then
                    mret (Some ("pod " +:+ pod_Name pod +:+ " has conflicting volume claims: "
                                +:+ Join reasons ", "))
                  else
                    must volumes;;
                    call (BindPodVolumes assumedPod)
              end
          end
      end
  end.

Definition AssumePod (name node : string) : M (option string) :=
  w ← get_world;
  match GetPod (w_cache w) name with
  | None => mret None
  | Some pod =>
      match GetNode (w_cache w) node with
      | None => mret None
      | Some targetNode =>
          claims ← ask (λ tr, vb_GetPodVolumeClaims tr pod);
          match claims with
          | inr err => mret (Some err)
          | inl podVolumeClaims =>
              found ← ask (λ tr, vb_FindPodVolumes tr pod podVolumeClaims (ni_node targetNode));
              match found with
              | inr err => mret (Some err)
              | inl (volumes, reasons) =>
                  if bool_decide (0 < length reasons)%nat then
                    mret (Some ("pod " +:+ pod_Name pod +:+ " has conflicting volume claims: "
                                +:+ Join reasons ", "))
                  else
                    assumed ← ask (λ tr, vb_AssumePodVolumes tr pod node volumes);
                    emit (AssumePodVolumes pod node);;
                    match assumed with
                    | inr err => mret (Some err)
                    | inl allBound =>
                        on_cache (assumePod (pod_with_NodeName pod node) allBound);;
                        mret None
                    end
              end
          end
      end
  end.

Definition ForgetPod (name : string) : M unit :=
  w ← get_world;
  match GetPod (w_cache w) name with
  | Some pod => on_cache (forgetPod pod)
  | None => mret tt
  end.

Definition RevertPodVolumeAssumptions (podName nodeID : string) : M unit :=
  w ← get_world;
  match GetPod (w_cache w) podName with
  | None => mret tt
  | Some pod =>
      match GetNode (w_cache w) nodeID with
      | None => mret tt
      | Some node =>
          claims ← ask (λ tr, vb_GetPodVolumeClaims tr pod);
          match claims with
          | inr _ => mret tt
          | inl podVolumeClaims =>
              found ← ask (λ tr, vb_FindPodVolumes tr pod podVolumeClaims (ni_node node));
              match found with
              | inl (Some _, _) => emit (RevertAssumedPodVolumes pod nodeID)
              | _ => mret tt
              end
          end
      end
  end.

End Volumes.

(** ** Lookups *)

Definition IsPreemptSelfAllowed (priorityClassName : string) : M bool :=
  w ← get_world;
  match GetPriorityClass (w_cache w) priorityClassName with
  | None => mret true
  | Some priorityClass =>
      match pc_Annotations priorityClass !! AnnotationAllowPreemption with
      | Some value => mret (value <>s False_)
      | None => mret true
      end
  end.

Definition getApplication (appID : string) : M (option AppRef) :=
  w ← get_world; mret (w_applications w !! appID).

Definition removeApplication (appID : string) : M unit :=
  w ← get_world;
  match w_applications w !! appID with
  | None => mret tt
  | Some _ => put_applications (delete appID (w_applications w))
  end.

Definition getTask (appID taskID : string) : M (option TaskRef) :=
  app ← getApplication appID;
  match app with
  | None => mret None
  | Some a => o ← get_app a; mret (a_taskMap o !! taskID)
  end.

Definition notifyTaskComplete (app : option AppRef) (taskID : string) : M unit :=
  match app with
  | None => mret tt
  | Some a =>
      o ← get_app a;
      dispatch (DTask (a_applicationID o) taskID (SimpleTaskEvent CompleteTask));;
      if bool_decide (a_state o = AResuming)
      then dispatch (DApp (a_applicationID o) (SimpleApplicationEvent AppTaskCompleted))
      else mret tt
  end.
