(* ===== verification/Task.v ===== *)
(** * Tasks: [pkg/cache/task.go] and [pkg/cache/task_state.go]

    A task is the shim's view of one pod.  Its operations work on the task heap
    of [World]; the state machine is the table [eventDesc] and the callbacks
    [task_before], [task_enter] and [task_after], run by the engine of [Fsm].
    The goroutine that binds an allocated pod is [bindTask]; entering
    [Allocated] leaves a [GoBind] in the trace with the arguments the goroutine
    was started with. *)

From S2P Require Import Prelude.
From S2P Require Import GoStrings.
From S2P Require Import K8sApi.
From S2P Require Import Constants.
From S2P Require Import Resource.
From S2P Require Import PodUtils.
From S2P Require Import SiHelper.
From S2P Require Import TaskGroups.
From S2P Require Import SchedulerCache.
From S2P Require Import World.
From S2P Require Import Fsm.
From S2P Require Import ContextPods.

(** ** Retries

    [retry.OnError] and [wait.Backoff] of the Kubernetes client libraries.  As
    documented, a failing call is repeated while its error is retriable and
    steps are left; each wait multiplies the duration by the factor (a factor of
    zero leaves it), and a duration that would exceed the cap is set to the cap
    and ends the steps. *)
Record Backoff := mkBackoff { bo_Steps : nat; bo_Duration : Z; bo_Factor : Z; bo_Cap : Z }.

Definition backoff_next (duration factor : Z) : Z :=
  if bool_decide (factor = 0)%Z then duration else (duration * factor)%Z.

Definition backoff_capped (duration factor cap : Z) : bool :=
  negb (bool_decide (factor = 0)%Z) && bool_decide (0 < cap)%Z &&
  bool_decide (cap < duration * factor)%Z.

(** The waits after failed attempts. *)
Fixpoint backoff_waits (steps : nat) (duration factor cap : Z) : list Z :=
  match steps with
  | 0 | 1 => []
  | S steps' =>
      duration ::
      (if backoff_capped duration factor cap then []
       else backoff_waits steps' (backoff_next duration factor) factor cap)
  end.

(** Number of attempts: after the wait that exhausts the steps no further
    attempt is made. *)
Fixpoint backoff_attempts (steps : nat) (duration factor cap : Z) : nat :=
  match steps with
  | 0 => 0
  | 1 => 1
  | S steps' =>
      S (if backoff_capped duration factor cap then 0
         else backoff_attempts steps' (backoff_next duration factor) factor cap)
  end.

Fixpoint retry_run (attempts : nat) (waits : list Z) (retriable : string → bool)
    (fn : M (option string)) : M (option string) :=
  match attempts with
  | 0 => mret (Some "timed out waiting for the condition")
  | S n =>
      r ← fn;
      match r with
      | None => mret None
      | Some err =>
          if retriable err then
            match waits with d :: _ => emit (Sleep d) | [] => mret tt end;;
            match n with 0 => mret (Some err) | _ => retry_run n (tail waits) retriable fn end
          else mret (Some err)
      end
  end.

(** A call under a backoff. *)
Definition retry_backoff (b : Backoff) : (string → bool) → M (option string) → M (option string) :=
  retry_run (backoff_attempts (bo_Steps b) (bo_Duration b) (bo_Factor b) (bo_Cap b))
    (backoff_waits (bo_Steps b) (bo_Duration b) (bo_Factor b) (bo_Cap b)).

Class RetryEngine := {
  retry_OnError : Backoff → (string → bool) → M (option string) → M (option string)
}.

Class RetryLaws `{RetryEngine} : Prop := {
  retry_OnError_spec b retriable fn w :
    retry_OnError b retriable fn w = retry_backoff b retriable fn w
}.

#[export] Instance retry_ref : RetryEngine := { retry_OnError := retry_backoff }.

#[export] Instance retry_ref_laws : RetryLaws.
Proof. by split. Qed.

(** In seconds. *)
Definition retryBackoff : Backoff := mkBackoff 8 1 2 30.

(** ** The state table *)

Definition AnyTaskState : list TaskState :=
  [TNew; TPending; TScheduling; TAllocated; TRejected; TBound; TKilling; TKilled; TFailed;
   TCompleted].

Definition TerminatedTaskStates : list TaskState := [TRejected; TKilled; TFailed; TCompleted].

Definition eventDesc : list (EventDesc TaskState TaskEventType) := [
  mkEventDesc InitTask [TNew] TPending;
  mkEventDesc SubmitTask [TPending] TScheduling;
  mkEventDesc TaskAllocated [TScheduling] TAllocated;
  mkEventDesc TaskAllocated [TCompleted] TCompleted;
  mkEventDesc TaskBound [TAllocated] TBound;
  mkEventDesc CompleteTask AnyTaskState TCompleted;
  mkEventDesc KillTask [TPending; TScheduling; TAllocated; TBound] TKilling;
  mkEventDesc TaskKilled [TKilling] TKilled;
  mkEventDesc TaskRejected [TNew; TPending; TScheduling] TRejected;
  mkEventDesc TaskFail [TNew; TPending; TScheduling; TRejected; TAllocated] TFailed].

(** ** [tryAddReleasableTask] of [application.go] *)

Fixpoint has_task_id (l : list TaskRef) (taskID : string) : M bool :=
  match l with
  | [] => mret false
  | t :: l' =>
      existing ← get_task t;
      if t_taskID existing =s taskID then mret true else has_task_id l' taskID
  end.

Definition tryAddReleasableTask (a : AppRef) (t : TaskRef) : M bool :=
  app ← get_app a;
  if bool_decide (a_state app = ANew) || bool_decide (a_state app = ASubmitted) then
    task ← get_task t;
    present ← has_task_id (a_releaseableTasks app) (t_taskID task);
    if (present : bool) then mret true
    else
      put_app a (a_set_releaseableTasks (a_releaseableTasks app ++ [t]) app);;
      mret true
  else mret false.

(** ** Operations *)

Section Task.
Context `{SiConstants} `{QuantityOps} `{NodeInfoOps} `{MapOrder} `{TerminationTypes} `{PodHelpers}.
Context `{Env} `{FsmEngine} `{RetryEngine} (conf : ShimConf).

(** [createTaskInternal] up to [initialize], and [initialize]. *)
Definition initialize (o : Task) : Task :=
  if IsPodTerminated (t_pod o) then
    t_set_state TCompleted
      (t_set_allocation (pod_UID (t_pod o)) (pod_NodeName (t_pod o)) o)
  else o.

Definition createTaskInternal (tid : string) (app : AppRef) (resource : Resource) (pod : Pod)
    (placeholder : bool) (taskGroupName : string) (originator : bool) : M TaskRef :=
  a ← get_app app;
  let o := mkTask tid (pod_Namespace pod +:+ "/" +:+ pod_Name pod) (a_applicationID a) app
             (pod_Status pod) (pod_CreationTimestamp pod) placeholder originator TNew "" ""
             taskGroupName "" TaskSchedPending resource pod in
  let tgName := GetTaskGroupFromPodSpec pod in
  let o := if tgName <>s "" then t_set_taskGroupName tgName o else o in
  alloc_task (initialize o).

Definition NewTask (tid : string) (app : AppRef) (pod : Pod) : M TaskRef :=
  createTaskInternal tid app (GetPodResource pod) pod false "" false.

Definition NewTaskPlaceholder (tid : string) (app : AppRef) (pod : Pod) : M TaskRef :=
  createTaskInternal tid app (GetPodResource pod) pod true "" false.

Definition NewFromTaskMeta (tid : string) (app : AppRef) (metadata : TaskMetadata)
    (originator : bool) : M TaskRef :=
  createTaskInternal tid app (GetPodResource (tm_Pod metadata)) (tm_Pod metadata)
    (tm_Placeholder metadata) (tm_TaskGroupName metadata) originator.

Definition isTerminated (o : Task) : bool := bool_decide (t_state o ∈ TerminatedTaskStates).

Definition setTaskGroupName (t : TaskRef) (groupName : string) : M unit :=
  upd_task t (t_set_taskGroupName groupName).

Definition setTaskTerminationType (t : TaskRef) (terminationType : string) : M unit :=
  upd_task t (t_set_terminationType terminationType).

Definition setAllocationKey (t : TaskRef) (allocationKey : string) : M unit :=
  upd_task t (λ o, t_set_allocation allocationKey (t_nodeName o) o).

Definition SetTaskSchedulingState (t : TaskRef) (state : TaskSchedulingState) : M unit :=
  upd_task t (t_set_schedulingState state).

Definition DeleteTaskPod (t : TaskRef) : M (option string) :=
  task ← get_task t; call (KubeDelete (t_pod task)).

Definition UpdateTaskPodStatus (pod : Pod) : M (option string) := call (KubeUpdateStatus pod).

Definition isPreemptSelfAllowed (task : Task) : M bool :=
  let value := GetPodAnnotationValue (t_pod task) AnnotationAllowPreemption in
  if value =s True_ then mret true
  else if value =s False_ then mret false
  else IsPreemptSelfAllowed (spec_PriorityClassName (pod_Spec (t_pod task))).

Definition isPreemptOtherAllowed (task : Task) : bool :=
  match spec_PreemptionPolicy (pod_Spec (t_pod task)) with
  | None => true
  | Some policy => if policy =s PreemptNever then false else true
  end.

(** The error of [UpdateAllocation] is only logged. *)
Definition updateAllocation (t : TaskRef) : M unit :=
  task ← get_task t;
  allowPreemptSelf ← isPreemptSelfAllowed task;
  rr ← must (CreateAllocationForTask (t_applicationID task) (t_taskID task)
               (pod_NodeName (t_pod task)) (t_resource task) (t_placeholder task)
               (t_taskGroupName task) (t_pod task) (t_originator task)
               (Some (mkPreemptionPolicy allowPreemptSelf (isPreemptOtherAllowed task))));
  _ ← call (UpdateAllocation rr); mret tt.

Definition MarkPreviouslyAllocated (t : TaskRef) (allocationKey nodeID : string) : M unit :=
  upd_task t (t_set_state TBound);;
  upd_task t (λ o, t_set_allocation allocationKey nodeID
                     (t_set_schedulingState TaskSchedAllocated o));;
  task ← get_task t;
  if t_placeholder task
  then dispatch (DApp (t_applicationID task) UpdateApplicationReservationEvent)
  else mret tt.

Definition handleSubmitTaskEvent (t : TaskRef) : M unit :=
  updateAllocation t;;
  task ← get_task t;
  if negb (PodAlreadyBound (GenerateUniqueAppIds conf) (t_pod task)) then
    record (t_pod task) EventTypeNormal "Scheduling" "Scheduling";;
    if negb (t_placeholder task) && (t_taskGroupName task <>s "")
    then record (t_pod task) EventTypeNormal "GangScheduling" "TaskGroupMatch"
    else mret tt
  else mret tt.

Definition postTaskPending (t : TaskRef) : M unit :=
  task ← get_task t;
  dispatch (DTask (t_applicationID task) (t_taskID task) SubmitTaskEvent).

Definition postTaskAllocated (t : TaskRef) : M unit :=
  task ← get_task t;
  emit (GoBind t (t_pod task) (t_alias task) (t_nodeName task) (t_allocationKey task)).

Definition shouldAppRelease (t : TaskRef) : M bool :=
  task ← get_task t;
  tryAddReleasableTask (t_application task) t.

Definition releaseAllocation (t : TaskRef) (force : bool) : M unit :=
  task ← get_task t;
  let terminationType := GetTerminationTypeFromString (t_terminationType task) in
  deferred ← (if negb force then shouldAppRelease t else mret false);
  if (deferred : bool) then mret tt
  else
    task ← get_task t;
    app ← get_app (t_application task);
    _ ← call (UpdateAllocation (CreateReleaseRequestForTask (t_applicationID task) (t_taskID task)
                                  (a_partition app) terminationType));
    mret tt.

Definition beforeTaskAllocated (t : TaskRef) (eventSrc : TaskState) (allocationKey nodeID : string) :
    M unit :=
  upd_task t (t_set_allocation allocationKey nodeID);;
  if bool_decide (eventSrc = TCompleted) then releaseAllocation t false else mret tt.

Definition postTaskBound (t : TaskRef) : M unit :=
  task ← get_task t;
  if t_placeholder task
  then dispatch (DApp (t_applicationID task) UpdateApplicationReservationEvent)
  else mret tt.

Definition postTaskRejected (t : TaskRef) : M unit :=
  task ← get_task t;
  record (t_pod task) EventTypeWarning "TaskRejected" "TaskRejected";;
  dispatch (DTask (t_applicationID task) (t_taskID task)
    (FailTaskEvent ("task " +:+ t_alias task +:+ " failed because it is rejected by scheduler"))).

Definition beforeTaskFail (t : TaskRef) : M unit :=
  task ← get_task t;
  record (t_pod task) EventTypeNormal "TaskFailed" "TaskFailed";;
  releaseAllocation t false.

Definition beforeTaskCompleted (t : TaskRef) : M unit :=
  releaseAllocation t false;;
  task ← get_task t;
  record (t_pod task) EventTypeNormal "TaskCompleted" "TaskCompleted".

(** ** The state machine *)

Definition task_before (t : TaskRef) (args : list string) (src : TaskState) (ev : TaskEventType) :
    M unit :=
  match ev with
  | TaskFail => beforeTaskFail t
  | TaskAllocated =>
      match GetEventArgsAsStrings 2 args with
      | Some [allocationKey; nodeID] => beforeTaskAllocated t src allocationKey nodeID
      | _ => mret tt
      end
  | CompleteTask => beforeTaskCompleted t
  | _ => mret tt
  end.

Definition task_enter (t : TaskRef) (dst : TaskState) : M unit :=
  match dst with
  | TPending => postTaskPending t
  | TAllocated => postTaskAllocated t
  | TRejected => postTaskRejected t
  | TBound => postTaskBound t
  | _ => mret tt
  end.

Definition task_after (t : TaskRef) (ev : TaskEventType) : M (option string) :=
  match ev with
  | SubmitTask => handleSubmitTaskEvent t;; mret None
  | _ => mret None
  end.

Definition task_machine (t : TaskRef) (args : list string) : Machine TaskState TaskEventType :=
  mkMachine (task ← get_task t; mret (t_state task))
    (λ s, upd_task t (t_set_state s))
    (task_before t args) (task_enter t) (task_after t).

(** [handle] and [canHandle]; the result is the error. *)
Definition task_handle (t : TaskRef) (te : TaskEvent) : M (option FsmError) :=
  err ← fsm_Event eventDesc (task_machine t (task_event_args te)) (task_event te);
  match err with
  | Some e => if is_no_transition e then mret None else mret (Some e)
  | None => mret None
  end.

Definition task_canHandle (t : TaskRef) (te : TaskEvent) : M bool :=
  task ← get_task t;
  mret (fsm_Can eventDesc (t_state task) (task_event te)).

(** ** Checks before scheduling *)

(** [%q] of a string without special characters. *)
Definition quoted (s : string) : string :=
  let q := String (Ascii.ascii_of_nat 34) EmptyString in q +:+ s +:+ q.

Fixpoint checkVolumes (namespace : string) (volumes : list Volume) : M (option string) :=
  match volumes with
  | [] => mret None
  | volume :: volumes' =>
      match vol_PersistentVolumeClaim volume with
      | None => checkVolumes namespace volumes'
      | Some pvcName =>
          pvc ← ask (λ tr, pvc_Get tr namespace pvcName);
          match pvc with
          | inr err => mret (Some err)
          | inl (name, beingDeleted) =>
              if (beingDeleted : bool)
              then mret (Some ("persistentvolumeclaim " +:+ quoted name +:+ " is being deleted"))
              else checkVolumes namespace volumes'
          end
      end
  end.

Definition checkPodPVCs (t : TaskRef) : M (option string) :=
  task ← get_task t;
  checkVolumes (pod_Namespace (t_pod task)) (spec_Volumes (pod_Spec (t_pod task))).

Definition sanityCheckBeforeScheduling (t : TaskRef) : M (option string) := checkPodPVCs t.

Definition logIgnoredPodMetadata (pod : Pod) : M unit :=
  record pod EventTypeWarning "Scheduling" "Scheduling".

Definition checkPodMetadataBeforeScheduling (t : TaskRef) : M unit :=
  task ← get_task t;
  let pod := t_pod task in
  let appID := GetApplicationIDFromPod (GenerateUniqueAppIds conf) pod in
  let '(ignoredAppIDLabels, ignoredAppIDAnnotation) :=
    GetIgnoredLabelAnnotationInPod pod appID AppIdLabelKeys AppIdAnnotationKeys in
  (if bool_decide (0 < size ignoredAppIDLabels)%nat ||
      bool_decide (0 < size ignoredAppIDAnnotation)%nat
   then logIgnoredPodMetadata pod else mret tt);;
  let queueName := GetQueueNameFromPod pod in
  let '(ignoredQueueLabels, ignoredQueueAnnotation) :=
    GetIgnoredLabelAnnotationInPod pod queueName QueueLabelKeys QueueAnnotationKeys in
  if bool_decide (0 < size ignoredQueueLabels)%nat ||
     bool_decide (0 < size ignoredQueueAnnotation)%nat
  then logIgnoredPodMetadata pod else mret tt.

(** ** Pod condition, failure and rollback *)

(** The result is whether the condition was updated, and a copy of the pod. *)
Definition UpdatePodCondition (t : TaskRef) (podCondition : PodCondition) : M (bool * Pod) :=
  task ← get_task t;
  let pod := pod_with_Status (t_pod task) (t_podStatus task) in
  if negb (PodUnderCondition pod podCondition) then
    let '(status, changed) := podutil_UpdatePodCondition (t_podStatus task) podCondition in
    put_task t (t_set_podStatus status task);;
    if (changed : bool) then mret (true, pod_with_Status (t_pod task) status)
    else mret (false, pod)
  else mret (false, pod).

Definition failWithEvent (t : TaskRef) (errorMessage actionReason : string) : M unit :=
  task ← get_task t;
  record (t_pod task) EventTypeWarning actionReason actionReason;;
  dispatch (DTask (t_applicationID task) (t_taskID task) (FailTaskEvent errorMessage)).

Definition rollbackAllocation (podCopy : Pod) (appID partition allocationKey nodeID eventReason : string) :
    M unit :=
  record podCopy EventTypeWarning eventReason eventReason;;
  RevertPodVolumeAssumptions allocationKey nodeID;;
  ForgetPod allocationKey;;
  _ ← call (UpdateAllocation (CreateReleaseRequestForTask appID allocationKey partition
                                SCHEDULING_FAILED_ON_RM));
  mret tt.

Definition rollbackOnAssumePodFailure (t : TaskRef) (allocationKey nodeID : string) : M unit :=
  task ← get_task t;
  app ← get_app (t_application task);
  put_task t (t_set_allocation "" "" task);;
  rollbackAllocation (t_pod task) (t_applicationID task) (a_partition app) allocationKey nodeID
    "AssumePodFailed".

Definition rescheduleOnBindFailure (t : TaskRef) (allocationKey nodeID eventReason : string) :
    M unit :=
  task ← get_task t;
  (if negb (bool_decide (t_state task = TScheduling)) then put_task t (t_set_state TScheduling task)
   else mret tt);;
  app ← get_app (t_application task);
  upd_task t (t_set_allocation "" "");;
  rollbackAllocation (t_pod task) (t_applicationID task) (a_partition app) allocationKey nodeID
    eventReason.

(** The goroutine started by [postTaskAllocated]. *)
Definition bindTask (t : TaskRef) (pod : Pod) (alias nodeName allocationKey : string) : M unit :=
  err ← retry_OnError retryBackoff (λ err, negb (HasPrefix err "binding volumes:"))
          (bindPodVolumes pod);
  match err with
  | Some _ => rescheduleOnBindFailure t allocationKey nodeName "PodVolumesBindFailure"
  | None =>
      err ← retry_OnError retryBackoff (λ _, true) (call (KubeBind pod nodeName));
      match err with
      | Some _ => rescheduleOnBindFailure t allocationKey nodeName "PodBindFailure"
      | None =>
          record pod EventTypeNormal "Scheduled" "Scheduled";;
          upd_task t (t_set_schedulingState TaskSchedAllocated);;
          task ← get_task t;
          dispatch (DTask (t_applicationID task) (t_taskID task) BindTaskEvent);;
          record pod EventTypeNormal "PodBindSuccessful" "PodBindSuccessful"
      end
  end.

Definition SetTaskPod (t : TaskRef) (pod : Pod) : M unit :=
  upd_task t (t_set_pod pod);;
  task ← get_task t;
  let newResource := GetPodResource pod in
  if negb (Equals (Some (t_resource task)) (Some newResource)) then
    upd_task t (t_set_resource newResource);;
    updateAllocation t
  else mret tt.

End Task.
