(* ===== verification/Application.v ===== *)
(** * Applications: [pkg/cache/application.go] and [pkg/cache/application_state.go]

    An application groups the tasks of one application ID.  Its operations work
    on the application heap of [World]; the state machine is the table
    [app_events] and the callbacks [app_enter] and [app_after].  Starting the
    goroutines that create or clean up placeholders leaves [GoCreatePlaceholders]
    and [GoCleanUp] in the trace. *)

From S2P Require Import Prelude.
From S2P Require Import GoStrings.
From S2P Require Import K8sApi.
From S2P Require Import Constants.
From S2P Require Import Resource.
From S2P Require Import PodUtils.
From S2P Require Import SiHelper.
From S2P Require Import TaskGroups.
From S2P Require Import SchedulerCache.
From S2P Require Import World.
From S2P Require Import Fsm.
From S2P Require Import ContextPods.
From S2P Require Import Task.

(** ** The state table *)

Definition app_events : list (EventDesc AppState ApplicationEventType) := [
  mkEventDesc SubmitApplication [ANew] ASubmitted;
  mkEventDesc AcceptApplication [ASubmitted] AAccepted;
  mkEventDesc TryReserve [AAccepted] AReserving;
  mkEventDesc UpdateReservation [AReserving] AReserving;
  mkEventDesc ResumingApplication [AReserving] AResuming;
  mkEventDesc AppTaskCompleted [AResuming] AResuming;
  mkEventDesc RunApplication [AAccepted; AReserving; AResuming; ARunning] ARunning;
  mkEventDesc ReleaseAppAllocation [ARunning; AAccepted; AReserving] ARunning;
  mkEventDesc ReleaseAppAllocation [AFailing] AFailing;
  mkEventDesc ReleaseAppAllocation [AResuming] AResuming;
  mkEventDesc CompleteApplication [ARunning] ACompleted;
  mkEventDesc RejectApplication [ASubmitted] ARejected;
  mkEventDesc FailApplication [ASubmitted; AAccepted; ARunning; AReserving] AFailing;
  mkEventDesc FailApplication [AFailing; ARejected] AFailed;
  mkEventDesc KillApplication [AAccepted; ARunning; AReserving] AKilling;
  mkEventDesc KilledApplication [AKilling] AKilled].

(** The order of [getTasks]: creation time, then task ID. *)
Definition task_le (x y : TaskRef * Task) : Prop :=
  (t_createTime x.2 < t_createTime y.2)%Z ∨
  t_createTime x.2 = t_createTime y.2 ∧ String.le (t_taskID x.2) (t_taskID y.2).

#[export] Instance task_le_dec : RelDecision task_le.
Proof. intros x y. unfold task_le. apply _. Defined.

#[export] Instance task_le_total : Total task_le.
Proof.
  intros x y. unfold task_le.
  destruct (Z.lt_trichotomy (t_createTime x.2) (t_createTime y.2)) as [?|[->|?]]; [auto| |auto].
  destruct (String.le_total (t_taskID x.2) (t_taskID y.2)); auto.
Qed.

#[export] Instance task_le_trans : Transitive task_le.
Proof.
  intros x y z [Hxy|[Hxy Hxy']] [Hyz|[Hyz Hyz']]; unfold task_le; [left; lia..|].
  right. split; [lia|]. by trans (t_taskID y.2).
Qed.

(** The value of [time.Unix(sec, 0)] in nanoseconds since the epoch: seconds are
    kept in an [int64] counted from the year 1. *)
Definition unix_time (sec : Z) : Z := ((wrap64 (sec + 62135596800) - 62135596800) * 1000000000)%Z.

Section Application.
Context `{SiConstants} `{QuantityOps} `{NodeInfoOps} `{MapOrder} `{TerminationTypes} `{PodHelpers}.
Context `{Env} `{FsmEngine} `{RetryEngine} (conf : ShimConf).

(** ** Data *)

Definition NewApplication (appID queueName user : string) (groups : list string)
    (tags : gmap string string) : M AppRef :=
  alloc_app (mkApplication appID queueName DefaultPartition user groups ∅ tags [] "" "" [] ANew
               None 0 SchedulingPolicyStyleParamDefault None [] false).

Definition setTaskGroupsDefinition (a : AppRef) (taskGroupsDef : string) : M unit :=
  upd_app a (a_set_taskGroupsDefinition taskGroupsDef).

Definition setSchedulingParamsDefinition (a : AppRef) (schedParamsDef : string) : M unit :=
  upd_app a (a_set_schedulingParamsDefinition schedParamsDef).

Definition setTaskGroups (a : AppRef) (taskGroups : list TaskGroup) : M unit :=
  upd_app a (a_set_taskGroups taskGroups);;
  upd_app a (λ o, a_set_placeholderAsk
    (foldl (λ ask tg, Some (Add ask (Some (GetTGResource (default ∅ (tg_MinResource tg))
                                             (tg_MinMember tg)))))
       (a_placeholderAsk o) (a_taskGroups o)) o).

Definition setPlaceholderOwnerReferences (a : AppRef) (ref : list OwnerReference) : M unit :=
  upd_app a (a_set_placeholderOwnerReferences ref).

Definition setSchedulingStyle (a : AppRef) (schedulingStyle : string) : M unit :=
  upd_app a (a_set_schedulingStyle schedulingStyle).

Definition setOriginatingTask (a : AppRef) (task : TaskRef) : M unit :=
  upd_app a (a_set_originatingTask (Some task)).

Definition setContext (a : AppRef) : M unit := upd_app a (a_set_hasContext true).

Definition SetPlaceholderTimeout (a : AppRef) (timeout : Z) : M unit :=
  upd_app a (a_set_placeholderTimeoutInSec timeout).

Definition addTask (a : AppRef) (t : TaskRef) : M unit :=
  app ← get_app a;
  task ← get_task t;
  match a_taskMap app !! t_taskID task with
  | Some _ => mret tt
  | None => put_app a (a_set_taskMap (<[t_taskID task := t]> (a_taskMap app)) app)
  end.

Definition removeTask (a : AppRef) (taskID : string) : M unit :=
  app ← get_app a;
  match a_taskMap app !! taskID with
  | None => mret tt
  | Some _ => put_app a (a_set_taskMap (delete taskID (a_taskMap app)) app)
  end.

(** The tasks of a list of references. *)
Fixpoint load_tasks (l : list TaskRef) : M (list (TaskRef * Task)) :=
  match l with
  | [] => mret []
  | t :: l' => task ← get_task t; rest ← load_tasks l'; mret ((t, task) :: rest)
  end.

(** A [range] over [app.taskMap]. *)
Definition all_tasks (a : AppRef) : M (list (TaskRef * Task)) :=
  app ← get_app a; load_tasks (go_range (a_taskMap app)).*2.

Definition getPlaceHolderTasks (a : AppRef) : M (list TaskRef) :=
  tasks ← all_tasks a;
  mret (filter (λ x : TaskRef * Task, t_placeholder x.2) tasks).*1.

Definition getTasks (a : AppRef) (state : TaskState) : M (list TaskRef) :=
  tasks ← all_tasks a;
  mret (merge_sort task_le (filter (λ x : TaskRef * Task, t_state x.2 = state) tasks)).*1.

Definition getNonTerminatedTaskAlias (a : AppRef) : M (list string) :=
  tasks ← all_tasks a;
  mret (map (λ x : TaskRef * Task, t_alias x.2)
          (filter (λ x : TaskRef * Task, isTerminated x.2 = false) tasks)).

Definition AreAllTasksTerminated (a : AppRef) : M bool :=
  l ← getNonTerminatedTaskAlias a; mret (bool_decide (length l = 0)).

(** A [range] over the task map that deletes terminated tasks: an entry deleted
    before it is reached is not visited. *)
Definition removeCompletedTasks (a : AppRef) : M unit :=
  app ← get_app a;
  for_each (go_range (a_taskMap app)) (λ kt,
    app ← get_app a;
    match a_taskMap app !! kt.1 with
    | None => mret tt
    | Some t =>
        task ← get_task t;
        if isTerminated task then removeTask a (t_taskID task) else mret tt
    end).

(** The pod of the originating task, when there is one. *)
Definition record_originating (a : AppRef) (eventtype reason action : string) : M unit :=
  app ← get_app a;
  match a_originatingTask app with
  | None => mret tt
  | Some t => task ← get_task t; record (t_pod task) eventtype reason action
  end.

(** ** Requests to the core *)

Definition handleSubmitApplicationEvent (a : AppRef) : M (option string) :=
  app ← get_app a;
  err ← call (UpdateApplication (mkApplicationRequest
    [mkAddApplicationRequest (a_applicationID app) (a_queue app) (a_partition app) (a_user app)
       (a_groups app) (a_tags app) (a_placeholderAsk app)
       (a_placeholderTimeoutInSec app *i64 1000) (a_schedulingStyle app)] []));
  match err with
  | Some e => dispatch (DApp (a_applicationID app) (FailApplicationEvent e));; mret (Some e)
  | None => mret None
  end.

Definition removeFromSchedulerCore (a : AppRef) : M unit :=
  app ← get_app a;
  _ ← call (UpdateApplication
        (CreateUpdateRequestForRemoveApplication (a_applicationID app) (a_partition app)));
  mret tt.

(** ** Deferred releases *)

Definition clearReleaseableTasks (a : AppRef) : M unit := upd_app a (a_set_releaseableTasks []).

Definition flushReleaseableTasks (a : AppRef) : M unit :=
  app ← get_app a;
  if bool_decide (length (a_releaseableTasks app) = 0) then mret tt
  else
    let tasks := a_releaseableTasks app in
    upd_app a (a_set_releaseableTasks []);;
    done ← AreAllTasksTerminated a;
    if (done : bool) then
      removeFromSchedulerCore a;;
      if a_hasContext app then removeApplication (a_applicationID app) else mret tt
    else for_each tasks (λ t, releaseAllocation t true).

(** ** Gang scheduling *)

Definition skipReservationStage (a : AppRef) : M bool :=
  app ← get_app a;
  if bool_decide (length (a_taskGroups app) = 0) then mret true
  else
    tasks ← all_tasks a;
    mret (existsb (λ x : TaskRef * Task,
            negb (t_placeholder x.2) && negb (bool_decide (t_state x.2 = TNew))) tasks).

Definition postAppAccepted (a : AppRef) : M unit :=
  app ← get_app a;
  skip ← skipReservationStage a;
  dispatch (DApp (a_applicationID app)
    (if (skip : bool) then RunApplicationEvent else SimpleApplicationEvent TryReserve)).

Definition onResuming (a : AppRef) : M unit :=
  record_originating a EventTypeWarning "GangScheduling" "GangSchedulingFailed".

Definition isPlaceholderTimeoutElapsed (app : Application) (now : Z) : bool :=
  if bool_decide (a_placeholderTimeoutInSec app <= 0)%Z then false
  else
    let creationTimeTag := go_get (a_tags app) (DomainYuniKorn +:+ CreationTime) in
    if creationTimeTag =s "" then false
    else
      let '(createdAtSec, err) := ParseInt creationTimeTag 64 in
      if (err : bool) then false
      else
        let elapsed := clamp64 (now - unix_time createdAtSec) in
        bool_decide (a_placeholderTimeoutInSec app *i64 1000000000 <= elapsed)%Z.

Definition onReserving (a : AppRef) : M unit :=
  app ← get_app a;
  placeholders ← getPlaceHolderTasks a;
  if bool_decide (0 < length placeholders)%nat then
    dispatch (DApp (a_applicationID app) UpdateApplicationReservationEvent);;
    emit (GoCreatePlaceholders a)
  else
    now ← ask clock;
    if isPlaceholderTimeoutElapsed app now then
      record_originating a EventTypeWarning "GangScheduling" "PlaceholderTimeout";;
      if a_schedulingStyle app =s go_get SchedulingPolicyStyleParamValues "Hard" then
        dispatch (DApp (a_applicationID app)
          (FailApplicationEvent ApplicationInsufficientResourcesFailure))
      else dispatch (DApp (a_applicationID app) RunApplicationEvent)
    else
      record_originating a EventTypeNormal "GangScheduling" "CreatingPlaceholders";;
      emit (GoCreatePlaceholders a).

(** [desireCounts] of [onReservationStateChange]: the members each task group
    still misses, [int32] values. *)
Definition initCounts (taskGroups : list TaskGroup) : gmap string Z :=
  foldl (λ counts tg, <[tg_Name tg := tg_MinMember tg]> counts) ∅ taskGroups.

Definition countBound (counts : gmap string Z) (task : Task) : gmap string Z :=
  if t_placeholder task then
    match counts !! t_taskGroupName task with
    | Some needed => <[t_taskGroupName task := wrap32 (needed - 1)]> counts
    | None => counts
    end
  else counts.

Definition onReservationStateChange (a : AppRef) : M unit :=
  record_originating a EventTypeNormal "GangScheduling" "PlaceholderAllocated";;
  app ← get_app a;
  bound ← getTasks a TBound;
  tasks ← load_tasks bound;
  let desireCounts := foldl countBound (initCounts (a_taskGroups app)) tasks.*2 in
  if existsb (λ ki : string * Z, (0 <? ki.2)%Z) (go_range desireCounts) then mret tt
  else
    record_originating a EventTypeNormal "GangScheduling" "GangReservationComplete";;
    dispatch (DApp (a_applicationID app) RunApplicationEvent).

(** ** Event handlers *)

Definition handleRejectApplicationEvent (a : AppRef) (reason : string) : M unit :=
  clearReleaseableTasks a;;
  app ← get_app a;
  dispatch (DApp (a_applicationID app)
    (FailApplicationEvent (ApplicationRejectedFailure +:+ ": " +:+ reason))).

Definition handleCompleteApplicationEvent (a : AppRef) : M unit := emit (GoCleanUp a).

Definition failTaskPodWithReasonAndMsg (t : TaskRef) (reason msg : string) : M unit :=
  task ← get_task t;
  _ ← UpdateTaskPodStatus
        (pod_with_Status (t_pod task) (mkPodStatus PodFailed reason msg "" [] [] []));
  mret tt.

(** One round of the loop of [handleFailApplicationEvent]; [errMsgArr[1]] panics
    when the message has no colon. *)
Definition failUnallocated (errMsg : string) (t : TaskRef) : M unit :=
  let timeout := Contains errMsg ApplicationInsufficientResourcesFailure in
  let rejected := Contains errMsg ApplicationRejectedFailure in
  (if timeout then
     failTaskPodWithReasonAndMsg t ApplicationInsufficientResourcesFailure
       "Scheduling has timed out due to insufficient resources"
   else if rejected then
     msg ← must (Split errMsg (Ascii.ascii_of_nat 58) !! 1);
     failTaskPodWithReasonAndMsg t ApplicationRejectedFailure msg
   else mret tt);;
  task ← get_task t;
  record (t_pod task) EventTypeWarning "ApplicationFailed" "ApplicationFailed".

Definition handleFailApplicationEvent (a : AppRef) (errMsg : string) : M unit :=
  emit (GoCleanUp a);;
  clearReleaseableTasks a;;
  news ← getTasks a TNew;
  pending ← getTasks a TPending;
  scheduling ← getTasks a TScheduling;
  for_each (news ++ pending ++ scheduling) (failUnallocated errMsg).

Definition publishPlaceholderTimeoutEvents (a : AppRef) (t : TaskRef) : M unit :=
  task ← get_task t;
  if t_placeholder task && (t_terminationType task =s TerminationType_name TIMEOUT)
  then record_originating a EventTypeWarning "GangScheduling" "PlaceholderTimeOut"
  else mret tt.

Definition handleReleaseAppAllocationEvent (a : AppRef) (taskID terminationType : string) : M unit :=
  app ← get_app a;
  match a_taskMap app !! taskID with
  | Some t =>
      setTaskTerminationType t terminationType;;
      publishPlaceholderTimeoutEvents a t;;
      _ ← DeleteTaskPod t; mret tt
  | None => mret tt
  end.

Definition handleAppTaskCompletedEvent (a : AppRef) : M unit :=
  tasks ← all_tasks a;
  if existsb (λ x : TaskRef * Task,
       t_placeholder x.2 && negb (bool_decide (t_state x.2 = TCompleted))) tasks
  then mret tt
  else
    app ← get_app a;
    dispatch (DApp (a_applicationID app) RunApplicationEvent).

(** ** The state machine *)

Definition app_enter (a : AppRef) (dst : AppState) : M unit :=
  match dst with
  | AAccepted => flushReleaseableTasks a
  | AReserving => onReserving a
  | AResuming => onResuming a
  | _ => mret tt
  end.

Definition app_after (a : AppRef) (args : list string) (ev : ApplicationEventType) :
    M (option string) :=
  match ev with
  | SubmitApplication => handleSubmitApplicationEvent a
  | RejectApplication =>
      match GetEventArgsAsStrings 1 args with
      | Some [reason] => handleRejectApplicationEvent a reason;; mret None
      | _ => mret None
      end
  | CompleteApplication => handleCompleteApplicationEvent a;; mret None
  | FailApplication =>
      match GetEventArgsAsStrings 1 args with
      | Some [errMsg] => handleFailApplicationEvent a errMsg;; mret None
      | _ => mret None
      end
  | UpdateReservation => onReservationStateChange a;; mret None
  | ReleaseAppAllocation =>
      match GetEventArgsAsStrings 2 args with
      | Some [taskID; terminationType] =>
          handleReleaseAppAllocationEvent a taskID terminationType;; mret None
      | _ => mret None
      end
  | AppTaskCompleted => handleAppTaskCompletedEvent a;; mret None
  | _ => mret None
  end.

Definition app_machine (a : AppRef) (args : list string) : Machine AppState ApplicationEventType :=
  mkMachine (app ← get_app a; mret (a_state app))
    (λ s, upd_app a (a_set_state s))
    (λ _ _, mret tt) (app_enter a) (app_after a args).

(** [handle], [canHandle] and [TriggerAppSubmission]. *)
Definition app_handle (a : AppRef) (ev : AppEvent) : M (option FsmError) :=
  err ← fsm_Event app_events (app_machine a (app_event_args ev)) (app_event ev);
  match err with
  | Some e => if is_no_transition e then mret None else mret (Some e)
  | None => mret None
  end.

Definition app_canHandle (a : AppRef) (ev : AppEvent) : M bool :=
  app ← get_app a;
  mret (fsm_Can app_events (a_state app) (app_event ev)).

Definition TriggerAppSubmission (a : AppRef) : M (option FsmError) :=
  app_handle a SubmitApplicationEvent.

(** ** Scheduling *)

Definition scheduleTask (taskScheduleCondition : Task → bool) (t : TaskRef) : M unit :=
  task ← get_task t;
  if taskScheduleCondition task then
    err ← sanityCheckBeforeScheduling t;
    match err with
    | None =>
        checkPodMetadataBeforeScheduling conf t;;
        _ ← task_handle conf t (SimpleTaskEvent InitTask); mret tt
    | Some _ =>
        task ← get_task t;
        record (t_pod task) EventTypeWarning "FailedScheduling" "FailedScheduling"
    end
  else mret tt.

Definition scheduleTasks (a : AppRef) (taskScheduleCondition : Task → bool) : M unit :=
  tasks ← getTasks a TNew;
  for_each tasks (scheduleTask taskScheduleCondition).

Definition Schedule (a : AppRef) : M bool :=
  app ← get_app a;
  match a_state app with
  | ANew => _ ← app_handle a SubmitApplicationEvent; mret true
  | AAccepted => postAppAccepted a;; mret true
  | AReserving =>
      scheduleTasks a (λ t, t_placeholder t);;
      removeCompletedTasks a;;
      news ← getTasks a TNew;
      mret (negb (bool_decide (length news = 0)))
  | ARunning =>
      scheduleTasks a (λ t, negb (t_placeholder t));;
      removeCompletedTasks a;;
      news ← getTasks a TNew;
      mret (negb (bool_decide (length news = 0)))
  | _ => mret false
  end.

End Application.
