(* ===== verification/PlaceholderManager.v ===== *)
(** * The placeholder manager: [pkg/cache/placeholder_manager.go]

    Creating the placeholder pods of a gang, deleting them, and retrying
    deletions that failed.  The manager's map of orphan pods is passed and
    returned; its lock makes each operation one step.  The goroutine that
    [onReserving] starts is [reserve]. *)

From S2P Require Import Prelude.
From S2P Require Import GoStrings.
From S2P Require Import K8sApi.
From S2P Require Import Constants.
From S2P Require Import PodUtils.
From S2P Require Import TaskGroups.
From S2P Require Import World.
From S2P Require Import Application.

Section Manager.
Context `{SiConstants} `{MapOrder} `{Env} (conf : ShimConf).

(** The random numbers of [generateNonce], which differ from call to call. *)
Context (intn : list Effect → nat → nat).

(** What [newPlaceholder] reads of an application. *)
Definition placeholder_app (app : Application) : M PlaceholderApp :=
  priorityClassName ←
    match a_originatingTask app with
    | Some t => task ← get_task t; mret (spec_PriorityClassName (pod_Spec (t_pod task)))
    | None => mret ""
    end;
  mret (mkPlaceholderApp (a_applicationID app) (a_queue app) (a_tags app)
          (a_placeholderOwnerReferences app) (a_taskGroupsDefinition app)
          (a_schedulingParamsDefinition app) priorityClassName).

(** The placeholders each task group has. *)
Definition countPlaceholder (tgCounts : gmap string Z) (task : Task) : gmap string Z :=
  <[t_taskGroupName task := wrap32 (default 0%Z (tgCounts !! t_taskGroupName task) + 1)]> tgCounts.

(** One placeholder of a group. *)
Definition createPlaceholder (a : AppRef) (tg : TaskGroup) : M (option string) :=
  app ← get_app a;
  r ← ask intn;
  papp ← placeholder_app app;
  call (KubeCreate (newPlaceholder conf
    (GeneratePlaceholderName r (tg_Name tg) (a_applicationID app)) papp tg)).

(** The inner loop: [n] more placeholders. *)
Fixpoint createMissing (a : AppRef) (tg : TaskGroup) (n : nat) : M (option string) :=
  match n with
  | 0 => mret None
  | S n' =>
      err ← createPlaceholder a tg;
      match err with Some e => mret (Some e) | None => createMissing a tg n' end
  end.

(** Iterations of [for i := count; i < tg.MinMember; i++]. *)
Definition missing (tgCounts : gmap string Z) (tg : TaskGroup) : nat :=
  Z.to_nat (tg_MinMember tg - default 0%Z (tgCounts !! tg_Name tg))%Z.

Fixpoint createGroups (a : AppRef) (tgCounts : gmap string Z) (groups : list TaskGroup) :
    M (option string) :=
  match groups with
  | [] => mret None
  | tg :: groups' =>
      err ← createMissing a tg (missing tgCounts tg);
      match err with Some e => mret (Some e) | None => createGroups a tgCounts groups' end
  end.

Definition createAppPlaceholders (a : AppRef) : M (option string) :=
  phs ← getPlaceHolderTasks a;
  tasks ← load_tasks phs;
  let tgCounts := foldl countPlaceholder ∅ tasks.*2 in
  app ← get_app a;
  createGroups a tgCounts (a_taskGroups app).

(** ** Cleaning up *)

Abbreviation Orphans := (gmap string Pod).

Definition cleanTask (orphanPods : Orphans) (t : TaskRef) : M Orphans :=
  task ← get_task t;
  err ← call (KubeDelete (t_pod task));
  match err with
  | Some e =>
      if Contains e "not found" then mret orphanPods
      else mret (<[t_taskID task := t_pod task]> orphanPods)
  | None => mret orphanPods
  end.

Fixpoint cleanTasks (orphanPods : Orphans) (l : list TaskRef) : M Orphans :=
  match l with
  | [] => mret orphanPods
  | t :: l' => orphanPods ← cleanTask orphanPods t; cleanTasks orphanPods l'
  end.

Definition cleanUp (orphanPods : Orphans) (a : AppRef) : M Orphans :=
  phs ← getPlaceHolderTasks a;
  cleanTasks orphanPods phs.

Fixpoint cleanOrphans (orphanPods : Orphans) (l : list (string * Pod)) : M Orphans :=
  match l with
  | [] => mret orphanPods
  | (taskID, pod) :: l' =>
      err ← call (KubeDelete pod);
      cleanOrphans (match err with Some _ => orphanPods | None => delete taskID orphanPods end) l'
  end.

Definition cleanOrphanPlaceholders (orphanPods : Orphans) : M Orphans :=
  cleanOrphans orphanPods (go_range orphanPods).

(** The goroutine of [onReserving]. *)
Definition reserve (orphanPods : Orphans) (a : AppRef) : M Orphans :=
  err ← createAppPlaceholders a;
  match err with
  | None => mret orphanPods
  | Some _ =>
      orphanPods ← cleanUp orphanPods a;
      app ← get_app a;
      dispatch (DApp (a_applicationID app) RunApplicationEvent);;
      record_originating a EventTypeWarning "GangScheduling" "PlaceholderCreateFailed";;
      mret orphanPods
  end.

End Manager.
