(* ===== verification/PlaceholderLife.v ===== *)
(** * Start and stop of the placeholder manager

    [Start], [Stop] and the goroutine of pkg/cache/placeholder_manager.go.  The
    flag [running] is read and written without a lock around the two, and the
    stop channel has no buffer, so a call of [Stop] waits until the goroutine
    receives.  Callers are threads with the calls they still make; a step is one
    access to shared state. *)

From S2P Require Import Prelude.

Inductive PhCall := CStart | CStop.

(** Where a caller is: between calls, in [Start] after it saw the flag not set,
    or in [Stop] at the send. *)
Inductive PhThread := Calls (l : list PhCall) | Starting (l : list PhCall) | Sending (l : list PhCall).

#[export] Instance PhCall_eq_dec : EqDecision PhCall.
Proof. solve_decision. Defined.
#[export] Instance PhThread_eq_dec : EqDecision PhThread.
Proof. solve_decision. Defined.

Record PhManager := mkPhManager {
  pm_running : bool;
  pm_loops : nat;                            (* goroutines at the select *)
  pm_leaving : nat;                          (* goroutines that received the stop *)
  pm_threads : list PhThread
}.

#[export] Instance PhManager_eq_dec : EqDecision PhManager.
Proof. solve_decision. Defined.

(** [NewPlaceholderManager], and the callers to come. *)
Definition NewPlaceholderManager (callers : list (list PhCall)) : PhManager :=
  mkPhManager false 0 0 (Calls <$> callers).

Definition at_thread (i : nat) (t : PhThread) (s : PhManager) : PhManager :=
  mkPhManager (pm_running s) (pm_loops s) (pm_leaving s) (<[i := t]> (pm_threads s)).

(** One step of the caller [i]; [None] when it waits or has ended. *)
Definition caller_step (i : nat) (s : PhManager) : option PhManager :=
  match pm_threads s !! i with
  | Some (Calls (CStart :: l)) =>
      Some (at_thread i (if pm_running s then Calls l else Starting l) s)
  | Some (Calls (CStop :: l)) =>
      Some (at_thread i (if pm_running s then Sending l else Calls l) s)
  | Some (Starting l) =>
      Some (at_thread i (Calls l) (mkPhManager true (S (pm_loops s)) (pm_leaving s) (pm_threads s)))
  | Some (Sending l) =>
      (* the send completes when a goroutine receives *)
      match pm_loops s with
      | S n => Some (at_thread i (Calls l) (mkPhManager (pm_running s) n (S (pm_leaving s)) (pm_threads s)))
      | 0 => None
      end
  | _ => None
  end.

(** A goroutine that received the stop clears the flag and ends. *)
Definition leave_step (s : PhManager) : option PhManager :=
  match pm_leaving s with
  | S n => Some (mkPhManager false (pm_loops s) n (pm_threads s))
  | 0 => None
  end.

Inductive ph_step : PhManager → PhManager → Prop :=
  | ph_caller i s s' : caller_step i s = Some s' → ph_step s s'
  | ph_leave s s' : leave_step s = Some s' → ph_step s s'.

(** The steps of a state, as a list. *)
Definition ph_next (s : PhManager) : list PhManager :=
  option_list (leave_step s) ++ (seq 0 (length (pm_threads s)) ≫= λ i, option_list (caller_step i s)).

Lemma ph_next_spec s s' : ph_step s s' ↔ s' ∈ ph_next s.
Proof.
  unfold ph_next. rewrite elem_of_app, list_elem_of_bind. split.
  - destruct 1 as [i s s' E|s s' E].
    + right. exists i. rewrite E. split; [left|]. apply elem_of_seq.
      unfold caller_step in E. destruct (pm_threads s !! i) eqn:Hi; [|done].
      apply lookup_lt_Some in Hi. lia.
    + left. rewrite E. left.
  - intros [H|(i & H & _)].
    + destruct (leave_step s) as [x|] eqn:E; [|by apply not_elem_of_nil in H].
      apply list_elem_of_singleton in H as ->. by apply ph_leave.
    + destruct (caller_step i s) as [x|] eqn:E; [|by apply not_elem_of_nil in H].
      apply list_elem_of_singleton in H as ->. by eapply ph_caller.
Qed.

(** A list of states that contains the first one and all their steps contains
    every state that can be reached. *)
Lemma ph_closed (l : list PhManager) s s' :
  forallb (λ x, forallb (λ y, bool_decide (y ∈ l)) (ph_next x)) l = true →
  s ∈ l → rtc ph_step s s' → s' ∈ l.
Proof.
  intros Hl Hs Hr. induction Hr as [|s1 s2 s3 Hstep _ IH]; [done|]. apply IH.
  rewrite forallb_forall in Hl. specialize (Hl s1 ltac:(by apply list_elem_of_In)).
  rewrite forallb_forall in Hl. apply ph_next_spec, list_elem_of_In in Hstep.
  by apply Hl, bool_decide_eq_true in Hstep.
Qed.

(** ** The shim's use: one start, then one stop *)

Definition shim_states : list PhManager :=
  [mkPhManager false 0 0 [Calls [CStart; CStop]]; mkPhManager false 0 0 [Starting [CStop]];
   mkPhManager true 1 0 [Calls [CStop]]; mkPhManager true 1 0 [Sending []];
   mkPhManager true 0 1 [Calls []]; mkPhManager false 0 0 [Calls []]].

(** As the shim calls them, [Start] and [Stop] return, in at most five steps, and
    in the end the goroutine is gone and the flag is cleared. *)
Theorem start_stop_completes s :
  rtc ph_step (NewPlaceholderManager [[CStart; CStop]]) s →
  nf ph_step s ↔ s = mkPhManager false 0 0 [Calls []].
Proof.
  intros Hr. apply (ph_closed shim_states) in Hr; [|vm_compute; reflexivity|left]. split.
  - intros Hnf. repeat (apply elem_of_cons in Hr as [-> |Hr]; [try done|]); [..|by apply not_elem_of_nil in Hr].
    all: exfalso; apply Hnf; eexists; apply ph_next_spec; left.
  - intros -> [s' Hs]. apply ph_next_spec in Hs. by apply not_elem_of_nil in Hs.
Qed.

(** ** Other uses *)

(** Two callers that stop the manager at the same time: one of them waits for
    ever. *)
Definition stop_waits : PhManager := mkPhManager false 0 0 [Calls []; Sending []].

Theorem concurrent_stop_waits_forever :
  rtc ph_step (NewPlaceholderManager [[CStart; CStop]; [CStop]]) stop_waits ∧ nf ph_step stop_waits.
Proof.
  split.
  - do 3 (eapply rtc_l; [apply (ph_caller 0); reflexivity|]).
    eapply rtc_l; [apply (ph_caller 1); reflexivity|].
    eapply rtc_l; [apply (ph_caller 0); reflexivity|].
    apply rtc_once, ph_leave. reflexivity.
  - intros [s' Hs]. apply ph_next_spec in Hs. by apply not_elem_of_nil in Hs.
Qed.

(** A manager that is stopped and started again by one caller can end without a
    goroutine: [Start] finds the flag still set. *)
Theorem restart_can_be_lost :
  rtc ph_step (NewPlaceholderManager [[CStart; CStop; CStart]]) (mkPhManager false 0 0 [Calls []]).
Proof.
  do 5 (eapply rtc_l; [apply (ph_caller 0); reflexivity|]).
  apply rtc_once, ph_leave. reflexivity.
Qed.
