(* ===== verification/ShimContext.v ===== *)
(** * The context: [pkg/cache/context.go]

    The handlers of informer events, of events from the dispatcher and of calls
    from the scheduler core, and the initialisation of the shim's state.  Every
    handler is the code run under the context's lock.  A [None] result of
    [registerNodes] also stands for a core that never answers. *)

From S2P Require Import Prelude.
From S2P Require Import GoStrings.
From S2P Require Import K8sApi.
From S2P Require Import Constants.
From S2P Require Import Resource.
From S2P Require Import PodUtils.
From S2P Require Import SiHelper.
From S2P Require Import TaskGroups.
From S2P Require Import SchedulerCache.
From S2P Require Import World.
From S2P Require Import Fsm.
From S2P Require Import ContextPods.
From S2P Require Import Task.
From S2P Require Import Application.

(** ** Messages of the core *)

Inductive EventRecordType := EventRecord_REQUEST | EventRecord_NODE | EventRecord_OTHER.
Inductive EventChangeType := EventRecord_ADD | EventRecord_REMOVE | EventRecord_CHANGE_OTHER.
Inductive EventChangeDetail := DETAILS_NONE | NODE_DECOMISSION | DETAIL_OTHER.

#[export] Instance EventRecordType_eq_dec : EqDecision EventRecordType.
Proof. solve_decision. Defined.
#[export] Instance EventChangeType_eq_dec : EqDecision EventChangeType.
Proof. solve_decision. Defined.
#[export] Instance EventChangeDetail_eq_dec : EqDecision EventChangeDetail.
Proof. solve_decision. Defined.

Record EventRecord := mkEventRecord {
  er_Type : EventRecordType;
  er_ReferenceID : string;
  er_ObjectID : string;
  er_EventChangeType : EventChangeType;
  er_EventChangeDetail : EventChangeDetail
}.

Inductive ContainerSchedulingState := SKIPPED | FAILED | UNKNOWN_STATE.

Record UpdateContainerSchedulingStateRequest := mkUpdateContainerSchedulingStateRequest {
  ucs_ApplicationID : string;
  ucs_AllocationKey : string;
  ucs_State : ContainerSchedulingState;
  ucs_Reason : string
}.

Definition isPublishableNodeEvent (event : EventRecord) : bool :=
  bool_decide (er_Type event = EventRecord_NODE) &&
  ((bool_decide (er_EventChangeDetail event = DETAILS_NONE) &&
    bool_decide (er_EventChangeType event = EventRecord_ADD)) ||
   (bool_decide (er_EventChangeDetail event = NODE_DECOMISSION) &&
    bool_decide (er_EventChangeType event = EventRecord_REMOVE))).

Definition convertToNode (obj : InformerObject) : option Node :=
  match obj with ObjNode n => Some n | _ => None end.

Definition filterSchedulableNodes (nodes : list Node) : list Node :=
  filter (λ n, node_Unschedulable n = false) nodes.

(** The order of [registerPods]. *)
Definition pod_le (x y : Pod) : Prop :=
  (pod_CreationTimestamp x < pod_CreationTimestamp y)%Z ∨
  pod_CreationTimestamp x = pod_CreationTimestamp y ∧ String.le (pod_UID x) (pod_UID y).

#[export] Instance pod_le_dec : RelDecision pod_le.
Proof. intros x y. unfold pod_le. apply _. Defined.

Module Ctx.

Section Context.
Context `{SiConstants} `{QuantityOps} `{NodeInfoOps} `{MapOrder} `{TerminationTypes} `{PodHelpers}.
Context `{JsonOps} `{TaskGroupJson} `{Env} `{FsmEngine} `{RetryEngine} (conf : ShimConf).

(** ** Applications and tasks *)

Definition getNamespaceObject (namespace : string) : M (option Namespace) :=
  if namespace =s "" then mret None
  else
    r ← ask (λ tr, ns_Get tr namespace);
    match r with inl namespaceObj => mret (Some namespaceObj) | inr _ => mret None end.

(** A tag with the JSON text of a resource, unless the resource is nil or zero. *)
Definition resourceTag (key : string) (resource : option Resource) (tags : gmap string string) :
    gmap string string :=
  match resource with
  | None => tags
  | Some r =>
      if IsZero (Some r) then tags
      else match json_Marshal r with Some text => <[key := text]> tags | None => tags end
  end.

Definition updateApplicationTags (tags : gmap string string) (namespace : string) :
    M (gmap string string) :=
  ns ← getNamespaceObject namespace;
  match ns with
  | None => mret tags
  | Some namespaceObj =>
      let tags := resourceTag AppTagNamespaceResourceQuota
                    (GetNamespaceQuotaFromAnnotation namespaceObj) tags in
      let tags := resourceTag AppTagNamespaceResourceGuaranteed
                    (GetNamespaceGuaranteedFromAnnotation namespaceObj) tags in
      let maxApps := GetNamespaceMaxAppsFromAnnotation namespaceObj in
      let tags := if maxApps <>s "" then <[AppTagNamespaceResourceMaxApps := maxApps]> tags
                  else tags in
      let parentQueue := GetNameSpaceAnnotationValue namespaceObj AnnotationParentQueue in
      mret (if parentQueue <>s "" then <[AppTagNamespaceParentQueue := parentQueue]> tags else tags)
  end.

Definition addApplication (metadata : ApplicationMetadata) : M AppRef :=
  existing ← getApplication (am_ApplicationID metadata);
  match existing with
  | Some app => mret app
  | None =>
      tags ← match am_Tags metadata !! AppTagNamespace with
             | Some ns => updateApplicationTags (am_Tags metadata) ns
             | None => mret (am_Tags metadata)
             end;
      let appTags :=
        if bool_decide (am_CreationTime metadata = 0%Z) then tags
        else <[DomainYuniKorn +:+ CreationTime := FormatInt (am_CreationTime metadata)]> tags in
      app ← NewApplication (am_ApplicationID metadata) (am_QueueName metadata) (am_User metadata)
              (am_Groups metadata) appTags;
      setContext app;;
      setTaskGroups app (am_TaskGroups metadata);;
      setTaskGroupsDefinition app (go_get tags AnnotationTaskGroups);;
      setSchedulingParamsDefinition app (go_get tags AnnotationSchedulingPolicyParam);;
      SetPlaceholderTimeout app (placeholderTimeout (am_SchedulingPolicyParameters metadata));;
      setSchedulingStyle app (gangSchedulingStyle (am_SchedulingPolicyParameters metadata));;
      setPlaceholderOwnerReferences app (am_OwnerReferences metadata);;
      w ← get_world;
      put_applications (<[am_ApplicationID metadata := app]> (w_applications w));;
      mret app
  end.

(** [addTask]: [None] when the application is not known. *)
Definition addTask (metadata : TaskMetadata) : M (option TaskRef) :=
  existing ← getApplication (tm_ApplicationID metadata);
  match existing with
  | None => mret None
  | Some a =>
      app ← get_app a;
      match a_taskMap app !! tm_TaskID metadata with
      | Some task => mret (Some task)
      | None =>
          let originator :=
            negb (tm_Placeholder metadata) &&
            match a_originatingTask app with
            | Some _ => false
            | None => existsb (λ ref, tm_TaskID metadata =s or_UID ref)
                        (a_placeholderOwnerReferences app)
            end in
          task ← NewFromTaskMeta (tm_TaskID metadata) a metadata originator;
          Application.addTask a task;;
          (if (originator : bool) then setOriginatingTask a task else mret tt);;
          mret (Some task)
      end
  end.

Definition RemoveTask (appID taskID : string) : M unit :=
  w ← get_world;
  match w_applications w !! appID with
  | None => mret tt
  | Some a => removeTask a taskID
  end.

Definition ensureAppAndTaskCreated (pod : Pod) (app : option AppRef) : M unit :=
  created ← match app with
            | Some a => mret (Some a)
            | None =>
                match getAppMetadata conf pod with
                | None => mret None
                | Some (appMeta, badTaskGroups) =>
                    (if (badTaskGroups : bool)
                     then record pod EventTypeWarning "GangScheduling" "TaskGroupsError"
                     else mret tt);;
                    a ← addApplication appMeta; mret (Some a)
                end
            end;
  match created with
  | None => mret tt
  | Some a =>
      match getTaskMetadata conf pod with
      | None => mret tt
      | Some taskMeta =>
          o ← get_app a;
          match a_taskMap o !! pod_UID pod with
          | Some _ => mret tt
          | None => _ ← addTask taskMeta; mret tt
          end
      end
  end.

(** ** Pods *)

Definition updateYuniKornPod (appID : string) (oldPod : option Pod) (pod : Pod) : M unit :=
  let taskID := pod_UID pod in
  app ← getApplication appID;
  (match app with
   | None => mret tt
   | Some a =>
       o ← get_app a;
       match a_taskMap o !! taskID with
       | Some task => SetTaskPod task pod
       | None => mret tt
       end
   end);;
  if IsPodTerminated pod then
    notifyTaskComplete app taskID;;
    on_cache (removePod pod)
  else
    let hasGates := bool_decide (0 < length (spec_SchedulingGates (pod_Spec pod)))%nat in
    (if hasGates && bool_decide (oldPod = None)
     then record pod EventTypeNormal "Scheduling" "Scheduling" else mret tt);;
    accepted ← on_cache_with (updatePod pod);
    if (accepted : bool) && negb hasGates then ensureAppAndTaskCreated pod app else mret tt.

Definition updateForeignPod (oldPod : option Pod) (pod : Pod) : M unit :=
  if IsAssignedPod pod && negb (IsPodTerminated pod) then
    accepted ← on_cache_with (updatePod pod);
    if (accepted : bool) then
      let changed := match oldPod with
                     | None => true
                     | Some old => negb (Equals (Some (GetPodResource old)) (Some (GetPodResource pod)))
                     end in
      if changed then
        allocReq ← must (CreateAllocationForForeignPod pod);
        _ ← call (UpdateAllocation allocReq); mret tt
      else mret tt
    else mret tt
  else if negb (bool_decide (oldPod = None)) && IsPodTerminated pod then
    w ← get_world;
    if negb (IsPodOrphaned (w_cache w) (pod_UID pod)) then
      on_cache (removePod pod);;
      _ ← call (UpdateAllocation
            (CreateReleaseRequestForForeignPod (pod_UID pod) DefaultPartition)); mret tt
    else mret tt
  else mret tt.

(** The informer's old object is [None] for an addition. *)
Definition UpdatePod (oldObj : option InformerObject) (newObj : InformerObject) : M unit :=
  match Convert2Pod newObj with
  | None => mret tt
  | Some pod =>
      w ← get_world;
      let old :=
        match oldObj with
        | None => Some None
        | Some obj =>
            match Convert2Pod obj with
            | None => None
            | Some oldPod =>
                match GetPod (w_cache w) (pod_UID pod) with
                | None => Some None
                | Some _ => Some (Some oldPod)
                end
            end
        end in
      match old with
      | None => mret tt
      | Some oldPod =>
          let applicationID := GetApplicationIDFromPod (GenerateUniqueAppIds conf) pod in
          if applicationID =s "" then updateForeignPod oldPod pod
          else updateYuniKornPod applicationID oldPod pod
      end
  end.

Definition AddPod (obj : InformerObject) : M unit := UpdatePod None obj.

Definition deleteYuniKornPod (pod : Pod) : M unit :=
  (match getTaskMetadata conf pod with
   | Some taskMeta =>
       app ← getApplication (tm_ApplicationID taskMeta);
       notifyTaskComplete app (tm_TaskID taskMeta)
   | None => mret tt
   end);;
  on_cache (removePod pod).

Definition deleteForeignPod (pod : Pod) : M unit :=
  _ ← call (UpdateAllocation (CreateReleaseRequestForForeignPod (pod_UID pod) DefaultPartition));
  on_cache (removePod pod).

Definition DeletePod (obj : InformerObject) : M unit :=
  let pod := match obj with
             | ObjPod p | ObjTombstone (ObjPod p) => Some p
             | _ => None
             end in
  match pod with
  | None => mret tt
  | Some pod =>
      if GetApplicationIDFromPod (GenerateUniqueAppIds conf) pod =s ""
      then deleteForeignPod pod else deleteYuniKornPod pod
  end.

(** ** Nodes *)

(** The handler of node events during a registration: the nodes still pending,
    accepted and rejected. *)
Definition nodeAnswer (acc : gmap string Node * list Node * list Node)
    (ev : string * SchedulerNodeEventType) : gmap string Node * list Node * list Node :=
  let '(pendingNodes, acceptedNodes, rejectedNodes) := acc in
  match pendingNodes !! ev.1 with
  | None => acc
  | Some node =>
      match ev.2 with
      | NodeAccepted => (delete ev.1 pendingNodes, acceptedNodes ++ [node], rejectedNodes)
      | NodeRejected => (delete ev.1 pendingNodes, acceptedNodes, rejectedNodes ++ [node])
      end
  end.

Definition registerNodesInternal (request : NodeRequest) (pendingNodes : gmap string Node) :
    M (Result (list Node * list Node)) :=
  answers ← ask (λ tr, node_answers (tr ++ [UpdateNode request]) request);
  err ← call (UpdateNode request);
  match err with
  | Some e => mret (inr e)
  | None =>
      let '(pending, acceptedNodes, rejectedNodes) :=
        foldl nodeAnswer (pendingNodes, [], []) answers in
      if bool_decide (pending = ∅) then mret (inl (acceptedNodes, rejectedNodes)) else panic
  end.

Definition record_node (node : Node) (eventtype reason : string) : M unit :=
  emit (RecordEvent (node_Name node) eventtype reason reason).

Definition registration (node : Node) : SiNodeInfo :=
  mkSiNodeInfo (node_Name node) CREATE_DRAIN
    (<[DefaultNodeAttributeHostNameKey := node_Name node]>
      (<[DefaultNodeAttributeRackNameKey := DefaultRackName]> ∅))
    (Some (GetNodeResource node)).

Definition registerNodes (nodes : list Node) : M (Result (list Node)) :=
  let pendingNodes := foldl (λ m node, <[node_Name node := node]> m) ∅ nodes in
  r ← registerNodesInternal (mkNodeRequest (map registration nodes)) pendingNodes;
  match r with
  | inr e => mret (inr e)
  | inl (acceptedNodes, rejectedNodes) =>
      for_each acceptedNodes (λ node, record_node node EventTypeNormal "NodeAccepted");;
      for_each rejectedNodes (λ node, record_node node EventTypeWarning "NodeRejected");;
      mret (inl acceptedNodes)
  end.

Definition registerNode (node : Node) : M (option string) :=
  r ← registerNodes [node];
  match r with
  | inr e => mret (Some e)
  | inl acceptedNodes =>
      if bool_decide (length acceptedNodes = 1) then mret None
      else mret (Some ("node rejected: " +:+ node_Name node))
  end.

Definition decommissionNode (node : Node) : M (option string) :=
  call (UpdateNode (CreateUpdateRequestForDeleteOrRestoreNode (node_Name node) DECOMISSION)).

Definition updateNodeResources (node : Node) (capacity : Resource) : M (option string) :=
  call (UpdateNode (CreateUpdateRequestForUpdatedNode (node_Name node) capacity)).

Definition enableNodes (nodes : list Node) : M (option string) :=
  call (UpdateNode (mkNodeRequest
    (map (λ node, mkSiNodeInfo (node_Name node) DRAIN_TO_SCHEDULABLE ∅ None) nodes))).

Definition enableNode (node : Node) : M (option string) := enableNodes [node].

Definition updateNodeSchedulability (prevNode node : Node) : M (option string) :=
  if bool_decide (node_Unschedulable prevNode = node_Unschedulable node) then mret None
  else
    let action := if node_Unschedulable node then DRAIN_NODE else DRAIN_TO_SCHEDULABLE in
    call (UpdateNode (CreateUpdateRequestForDeleteOrRestoreNode (node_Name node) action)).

Definition adoptPod (pod : Pod) : M unit :=
  let applicationID := GetApplicationIDFromPod (GenerateUniqueAppIds conf) pod in
  if applicationID =s "" then updateForeignPod None pod
  else updateYuniKornPod applicationID None pod.

Definition cache_updateNode (node : Node) (c : SchedulerCache) :
    option (SchedulerCache * (option Node * list Pod)) :=
  match SchedulerCache.updateNode node c with
  | Some (c', prevNode, adoptedPods) => Some (c', (prevNode, adoptedPods))
  | None => None
  end.

Definition cache_removeNode (node : Node) (c : SchedulerCache) :
    option (SchedulerCache * (option Node * list Pod)) :=
  match removeNode node c with
  | Some (c', prevNode, orphanedPods) => Some (c', (prevNode, orphanedPods))
  | None => None
  end.

Definition updateNodeInternal (node : Node) (register : bool) : M unit :=
  '(prev, adoptedPods) ← on_cache_with (cache_updateNode node);
  match prev with
  | None =>
      err ← (if register then registerNode node else mret None);
      match err with
      | Some _ => _ ← on_cache_with (cache_removeNode node); mret tt
      | None =>
          for_each adoptedPods adoptPod;;
          if negb (node_Unschedulable node) then _ ← enableNode node; mret tt else mret tt
      end
  | Some prevNode =>
      let prevCapacity := GetNodeResource prevNode in
      let newCapacity := GetNodeResource node in
      (if negb (Equals (Some prevCapacity) (Some newCapacity))
       then _ ← updateNodeResources node newCapacity; mret tt else mret tt);;
      _ ← updateNodeSchedulability prevNode node; mret tt
  end.

Definition updateNode (obj : InformerObject) : M unit :=
  match convertToNode obj with
  | None => mret tt
  | Some node => updateNodeInternal node true
  end.

Definition addNode (obj : InformerObject) : M unit := updateNode obj.

Definition addNodesWithoutRegistering (nodes : list Node) : M unit :=
  for_each nodes (λ node, updateNodeInternal node false).

Definition deleteNodeInternal (node : Node) : M unit :=
  '(prevNode, _) ← on_cache_with (cache_removeNode node);
  match prevNode with
  | None => mret tt
  | Some _ =>
      record_node node EventTypeNormal "NodeDeleted";;
      _ ← decommissionNode node; mret tt
  end.

Definition deleteNode (obj : InformerObject) : M unit :=
  match obj with
  | ObjNode node | ObjTombstone (ObjNode node) => deleteNodeInternal node
  | _ => mret tt
  end.

(** ** Priority classes *)

Fixpoint filterPriorityClasses (obj : InformerObject) : bool :=
  match obj with
  | ObjPriorityClass _ => true
  | ObjTombstone o => filterPriorityClasses o
  | _ => false
  end.

Definition updatePriorityClassInternal (priorityClass : PriorityClass) : M unit :=
  on_cache (λ c, Some (SchedulerCache.updatePriorityClass priorityClass c)).

Definition updatePriorityClass (newObj : InformerObject) : M unit :=
  match Convert2PriorityClass newObj with
  | Some priorityClass => updatePriorityClassInternal priorityClass
  | None => mret tt
  end.

Definition addPriorityClass (obj : InformerObject) : M unit := updatePriorityClass obj.

(** A tombstone is converted itself, not the object it holds. *)
Definition deletePriorityClass (obj : InformerObject) : M unit :=
  let priorityClass :=
    match obj with
    | ObjPriorityClass pc => Some pc
    | ObjTombstone _ => Convert2PriorityClass obj
    | _ => None
    end in
  match priorityClass with
  | Some pc => on_cache (λ c, Some (removePriorityClass pc c))
  | None => mret tt
  end.

(** ** Events and state updates from the core *)

Definition PublishEvent (r : EventRecord) : M unit :=
  match er_Type r with
  | EventRecord_REQUEST =>
      found ← getTask (er_ReferenceID r) (er_ObjectID r);
      match found with
      | Some t => task ← get_task t; record (t_pod task) EventTypeNormal "Informational" "Informational"
      | None => mret tt
      end
  | EventRecord_NODE =>
      if negb (isPublishableNodeEvent r) then mret tt
      else
        w ← get_world;
        match GetNode (w_cache w) (er_ObjectID r) with
        | None => mret tt
        | Some nodeInfo =>
            match ni_node nodeInfo with
            | None => mret tt
            | Some node => record_node node EventTypeNormal "Informational"
            end
        end
  | EventRecord_OTHER => mret tt
  end.

Definition PublishEvents (eventRecords : list EventRecord) : M unit :=
  for_each eventRecords PublishEvent.

Definition updatePodCondition (t : TaskRef) (podCondition : PodCondition) : M bool :=
  task ← get_task t;
  if bool_decide (t_state task = TScheduling) then
    '(ok, podCopy) ← UpdatePodCondition t podCondition;
    if (ok : bool) then
      err ← call (KubeUpdateStatus podCopy);
      mret (bool_decide (err = None))
    else mret false
  else mret false.

Definition HandleContainerStateUpdate (request : UpdateContainerSchedulingStateRequest) : M unit :=
  found ← getTask (ucs_ApplicationID request) (ucs_AllocationKey request);
  match found with
  | None => mret tt
  | Some t =>
      let update state reason :=
        SetTaskSchedulingState t state;;
        updated ← updatePodCondition t
                    (mkPodCondition PodScheduled ConditionFalse reason (ucs_Reason request));
        if (updated : bool) then
          task ← get_task t;
          record (t_pod task) EventTypeNormal "PodUnschedulable" "PodUnschedulable"
        else mret tt in
      match ucs_State request with
      | SKIPPED => update TaskSchedSkipped "SchedulingSkipped"
      | FAILED => update TaskSchedFailed PodReasonUnschedulable
      | UNKNOWN_STATE => mret tt
      end
  end.

(** ** Handlers of dispatched events *)

Definition ApplicationEventHandler (appID : string) (event : AppEvent) : M unit :=
  app ← getApplication appID;
  match app with
  | None => mret tt
  | Some a =>
      can ← app_canHandle a event;
      if (can : bool) then _ ← app_handle a event; mret tt else mret tt
  end.

Definition TaskEventHandler (appID taskID : string) (event : TaskEvent) : M unit :=
  task ← getTask appID taskID;
  match task with
  | None => mret tt
  | Some t =>
      can ← task_canHandle t event;
      if (can : bool) then _ ← task_handle conf t event; mret tt else mret tt
  end.

(** The handler of a dispatched event. *)
Definition handle_event (ev : SchedEvent) : M unit :=
  match ev with
  | DTask appID taskID e => TaskEventHandler appID taskID e
  | DApp appID e => ApplicationEventHandler appID e
  | DNode _ _ => mret tt
  end.

(** ** Initialisation *)

Definition registerPriorityClasses : M (Result (list PriorityClass)) :=
  r ← ask pc_List;
  match r with
  | inr e => mret (inr e)
  | inl priorityClasses =>
      for_each priorityClasses updatePriorityClassInternal;; mret (inl priorityClasses)
  end.

Definition finalizePriorityClasses (existingPriorityClasses : list PriorityClass) :
    M (option string) :=
  r ← ask pc_List;
  match r with
  | inr e => mret (Some e)
  | inl priorityClasses =>
      let pcMap : gmap string PriorityClass :=
        foldl (λ m pc, <[pc_Name pc := pc]> m) ∅ priorityClasses in
      for_each existingPriorityClasses (λ pc,
        match pcMap !! pc_Name pc with
        | Some _ => mret tt
        | None => deletePriorityClass (ObjPriorityClass pc)
        end);;
      mret None
  end.

Definition loadNodes : M (Result (list Node)) := ask node_List.

Definition finalizeNodes (existingNodes : list Node) : M (option string) :=
  r ← ask node_List;
  match r with
  | inr e => mret (Some e)
  | inl nodes =>
      let nodeMap : gset string := list_to_set (map node_Name nodes) in
      for_each existingNodes (λ node,
        if bool_decide (node_Name node ∈ nodeMap) then mret tt else deleteNodeInternal node);;
      mret None
  end.

(** The pods that were added; terminated ones are skipped. *)
Definition registerPods : M (Result (list (option Pod))) :=
  r ← ask pod_List;
  match r with
  | inr e => mret (inr e)
  | inl pods =>
      let pods := map (λ pod, if IsPodTerminated pod then None else Some pod)
                    (merge_sort pod_le pods) in
      for_each pods (λ p, match p with Some pod => AddPod (ObjPod pod) | None => mret tt end);;
      mret (inl pods)
  end.

Definition finalizePods (existingPods : list (option Pod)) : M (option string) :=
  r ← ask pod_List;
  match r with
  | inr e => mret (Some e)
  | inl pods =>
      let podMap : gset string :=
        list_to_set (map pod_UID (filter (λ p, IsPodTerminated p = false) pods)) in
      for_each existingPods (λ p,
        match p with
        | None => mret tt
        | Some pod =>
            if bool_decide (pod_UID pod ∈ podMap) then mret tt else DeletePod (ObjPod pod)
        end);;
      mret None
  end.

Definition AddSchedulingEventHandlers : M (option string) := call AddEventHandlers.

(** Continues unless an error was returned. *)
Definition unless_error {A} (r : Result A) (k : A → M (option string)) : M (option string) :=
  match r with inr e => mret (Some e) | inl a => k a end.

Definition unless_failed (err : option string) (k : M (option string)) : M (option string) :=
  match err with Some e => mret (Some e) | None => k end.

Definition InitializeState : M (option string) :=
  r ← registerPriorityClasses;
  unless_error r (λ priorityClasses,
  r ← loadNodes;
  unless_error r (λ nodes,
  r ← registerNodes nodes;
  unless_error r (λ acceptedNodes,
  addNodesWithoutRegistering acceptedNodes;;
  r ← registerPods;
  unless_error r (λ pods,
  err ← enableNodes (filterSchedulableNodes acceptedNodes);
  unless_failed err (
  err ← AddSchedulingEventHandlers;
  unless_failed err (
  err ← finalizePriorityClasses priorityClasses;
  unless_failed err (
  err ← finalizeNodes nodes;
  unless_failed err (
  finalizePods pods)))))))).

(** The allocation of a pod that runs already. *)
Definition getExistingAllocation (pod : Pod) : option Allocation :=
  if IsPodTerminated pod then None
  else
    match getAppMetadata conf pod with
    | None => None
    | Some (meta, _) =>
        let tags := <[CreationTime := FormatInt (pod_CreationTimestamp pod)]> (am_Tags meta) in
        Some (mkAllocation (pod_UID pod) tags (GetPodResource pod) 0 (pod_NodeName pod)
                (am_ApplicationID meta) (GetTaskGroupFromPodSpec pod) (GetPlaceholderFlagFromPodSpec pod)
                false None)
    end.

End Context.

End Ctx.
