(* ===== verification/Predicates.v ===== *)
(** * Predicates: does a pod fit a node?

    Source: pkg/plugin/predicates/predicate_manager.go, the listers of
    pkg/plugin/support, [IsPodFitNode] and [IsPodFitNodeViaPreemption] of
    pkg/cache/context.go and the two predicate calls of
    pkg/cache/scheduler_callback.go.

    The core asks the shim whether a pod can run on a node.  The shim runs the
    PreFilter and Filter plugins of the Kubernetes scheduler: all of them for an
    allocation, a smaller set for a reservation, and repeatedly on a node from
    which victims have been removed for preemption.

    The plugins and the scheduler framework they are written against are not
    code of the shim: plugins are values of [Plugin], and the operations of the
    framework the manager calls are the class [SchedFramework].  [None] is a Go
    panic or a fatal error. *)

From S2P Require Import Prelude.
From S2P Require Import GoStrings.
From S2P Require Import K8sApi.
From S2P Require Import SchedulerCache.
From S2P Require Import World.

(** ** The scheduler framework *)

Inductive Code :=
  Success | Error | Unschedulable | UnschedulableAndUnresolvable | Wait | Skip | Pending.

Record ClusterEvent := mkClusterEvent {
  ev_Resource : string;
  ev_ActionType : Z
}.

#[export] Instance ClusterEvent_eq_dec : EqDecision ClusterEvent.
Proof. solve_decision. Defined.

(** Statuses and prefilter results are pointers: the types include nil. *)
Class SchedFramework := {
  CycleState : Type;
  NewCycleState : CycleState;
  Status : Type;
  nilStatus : Status;
  NewStatus : Code → list string → Status;
  AsStatus : string → Status;
  IsSuccess : Status → bool;
  IsSkip : Status → bool;
  IsRejected : Status → bool;
  Message : Status → string;
  PreFilterResult : Type;
  nilPreFilterResult : PreFilterResult;
  Merge : PreFilterResult → PreFilterResult → PreFilterResult;
  AllNodes : PreFilterResult → bool;
  NodeNames_Has : PreFilterResult → string → bool;
  WildCard : string;
  All : Z;
  UnrollWildCardResource : list ClusterEvent
}.

(** A prefilter result admits a node. *)
Definition admits `{SchedFramework} (r : PreFilterResult) (node : string) : bool :=
  AllNodes r || NodeNames_Has r node.

(** What the framework documents: nil is success; a status made from an error or
    with a code other than success is no success; merging intersects. *)
Class SchedFrameworkLaws `{SchedFramework} : Prop := {
  nilStatus_success : IsSuccess nilStatus = true;
  nil_admits node : admits nilPreFilterResult node = true;
  NewStatus_success reasons : IsSuccess (NewStatus Success reasons) = true;
  NewStatus_failure c reasons : c ≠ Success → IsSuccess (NewStatus c reasons) = false;
  NewStatus_skip c reasons : c ≠ Skip → IsSkip (NewStatus c reasons) = false;
  AsStatus_failure e : IsSuccess (AsStatus e) = false ∧ IsSkip (AsStatus e) = false;
  rejected_failure s : IsRejected s = true → IsSuccess s = false ∧ IsSkip s = false;
  Merge_admits r1 r2 node : admits (Merge r1 r2) node = admits r1 node && admits r2 node
}.

Section Plugins.
Context `{SchedFramework} `{NodeInfoOps} `{MapOrder}.

(** What the methods of a plugin compute.  A plugin was created with a handle on
    the scheduler cache, which it may read. *)
Definition PreFilterFn : Type :=
  SchedulerCache → CycleState → Pod → list NodeInfo → (PreFilterResult * Status) * CycleState.
Definition FilterFn : Type := SchedulerCache → CycleState → Pod → NodeInfo → Status * CycleState.

(** A plugin and the interfaces it implements. *)
Record Plugin := mkPlugin {
  pl_Name : string;
  pl_PreFilter : option PreFilterFn;
  pl_Filter : option FilterFn;
  pl_EventsToRegister : option (list ClusterEvent + string)   (* EnqueueExtensions *)
}.

Record predicateManagerImpl := mkPredicateManager {
  reservationPreFilters : list (Plugin * PreFilterFn);
  allocationPreFilters : list (Plugin * PreFilterFn);
  reservationFilters : list (Plugin * FilterFn);
  allocationFilters : list (Plugin * FilterFn)
}.

(** ** Events *)

Definition IsWildCard (event : ClusterEvent) : bool :=
  (ev_Resource event =s WildCard) && bool_decide (ev_ActionType event = All).

Definition pluginEvents (plugin : Plugin) : option (list ClusterEvent) :=
  match pl_EventsToRegister plugin with
  | None => Some UnrollWildCardResource
  | Some (inl events) => Some events
  | Some (inr _) => None
  end.

Fixpoint mergeEvents (actionMap : gmap string Z) (events : list ClusterEvent) : gmap string Z :=
  match events with
  | [] => actionMap
  | event :: events' =>
      if IsWildCard event then <[WildCard := All]> ∅
      else
        let action :=
          match actionMap !! ev_Resource event with
          | None => ev_ActionType event
          | Some action => Z.lor action (ev_ActionType event)
          end in
        mergeEvents (<[ev_Resource event := action]> actionMap) events'
  end.

Definition mergePluginEvents (actionMap : gmap string Z) (events : list ClusterEvent) : gmap string Z :=
  match actionMap !! WildCard with
  | Some _ => actionMap
  | None => mergeEvents actionMap events
  end.

(** Merges the events of some plugins. *)
Fixpoint mergePlugins (actionMap : gmap string Z) (plugins : list Plugin) : option (gmap string Z) :=
  match plugins with
  | [] => Some actionMap
  | plugin :: plugins' =>
      events ← pluginEvents plugin;
      mergePlugins (mergePluginEvents actionMap events) plugins'
  end.

(** [events[i].Event.Resource < events[j].Event.Resource], as the order of a
    stable sort. *)
Definition resource_le (e1 e2 : ClusterEvent) : Prop :=
  String.leb (ev_Resource e1) (ev_Resource e2) = true.

#[export] Instance resource_le_dec : RelDecision resource_le.
Proof. intros e1 e2. unfold resource_le. apply _. Defined.

(** The queueing hint function is attached to every event. *)
Definition buildClusterEvents {Hint} (actionMap : gmap string Z) (queueingHintFn : Hint) :
    list (ClusterEvent * Hint) :=
  let events := map (λ kv : string * Z, mkClusterEvent kv.1 kv.2) (go_range actionMap) in
  map (λ e, (e, queueingHintFn)) (merge_sort resource_le events).

Definition EventsToRegister {Hint} (p : predicateManagerImpl) (queueingHintFn : Hint) :
    option (list (ClusterEvent * Hint)) :=
  actionMap ← mergePlugins ∅ (allocationPreFilters p).*1;
  actionMap ← mergePlugins actionMap (allocationFilters p).*1;
  Some (buildClusterEvents actionMap queueingHintFn).

(** ** Running the plugins *)

(** [node.Node().Name]; without a node the access panics. *)
Definition node_name (node : NodeInfo) : option string := node_Name <$> ni_node node.

(** [errors.Join(err1, err2).Error()] *)
Definition errors_Join (err1 err2 : string) : string := err1 +:+ String (Ascii.ascii_of_N 10) err2.

(** [NodeInfos().List()]: the node list of the cache, which is built if needed. *)
Definition NodeInfos_List (c : SchedulerCache) : list NodeInfo * SchedulerCache :=
  let '(names, c) := GetNodesInfo c in (omap (λ n, nodesMap c !! n) names, c).

Definition NodeInfos_Get (c : SchedulerCache) (nodeName : string) : NodeInfo + string :=
  match nodesMap c !! nodeName with
  | Some node => inl node
  | None => inr "node not found"
  end.

(** The loop over the PreFilter plugins. *)
Fixpoint runPreFilters (c : SchedulerCache) (pod : Pod) (node : NodeInfo) (allNodes : list NodeInfo)
    (plugins : list (Plugin * PreFilterFn)) (state : CycleState) (mergedNodes : PreFilterResult)
    (skip : gset string) : option ((Status * string * gset string) * CycleState) :=
  match plugins with
  | [] => Some ((nilStatus, "", skip), state)
  | (pl, run) :: plugins' =>
      let plugin := pl_Name pl in
      let '((nodes, status), state) := run c state pod allNodes in
      let skip' := if IsSkip status then {[plugin]} ∪ skip else skip in
      if negb (IsSkip status) && negb (IsSuccess status) then
        if IsRejected status then Some ((status, "", skip), state)
        else
          let err := errors_Join ("running PreFilter plugin " +:+ Quote plugin +:+ ": ") (Message status) in
          Some ((AsStatus err, plugin, skip), state)
      else
        let mergedNodes := Merge mergedNodes nodes in
        if AllNodes mergedNodes
        then runPreFilters c pod node allNodes plugins' state mergedNodes skip'
        else
          name ← node_name node;
          if NodeNames_Has mergedNodes name
          then runPreFilters c pod node allNodes plugins' state mergedNodes skip'
          else Some ((NewStatus UnschedulableAndUnresolvable ["node not eligible"], plugin, skip'), state)
  end.

Definition runPreFilterPlugins (state : CycleState) (plugins : list (Plugin * PreFilterFn)) (pod : Pod)
    (node : NodeInfo) (c : SchedulerCache) :
    option ((Status * string * gset string) * CycleState * SchedulerCache) :=
  let '(allNodes, c) := NodeInfos_List c in
  r ← runPreFilters c pod node allNodes plugins state nilPreFilterResult ∅;
  Some (r, c).

Fixpoint runFilterPlugins (plugins : list (Plugin * FilterFn)) (state : CycleState) (pod : Pod)
    (nodeInfo : NodeInfo) (skip : gset string) (c : SchedulerCache) : (Status * string) * CycleState :=
  match plugins with
  | [] => ((NewStatus Success [], ""), state)
  | (pl, run) :: plugins' =>
      let plugin := pl_Name pl in
      if bool_decide (plugin ∈ skip) then runFilterPlugins plugins' state pod nodeInfo skip c
      else
        let '(status, state) := run c state pod nodeInfo in
        if negb (IsSuccess status) then
          if negb (IsRejected status) then
            let message := "running " +:+ Quote plugin +:+ " filter plugin for pod " +:+
              Quote (pod_Name pod) +:+ ": " +:+ Message status in
            ((NewStatus Error [message], plugin), state)
          else ((status, plugin), state)
        else runFilterPlugins plugins' state pod nodeInfo skip c
  end.

(** The name of the plugin that failed and the error. *)
Definition podFitsNode (state : CycleState) (preFilters : list (Plugin * PreFilterFn))
    (filters : list (Plugin * FilterFn)) (pod : Pod) (node : NodeInfo) (c : SchedulerCache) :
    option ((string * option string) * SchedulerCache) :=
  '((status, plugin, skip), state, c) ← runPreFilterPlugins state preFilters pod node c;
  if negb (IsSuccess status) && negb (IsSkip status) then Some ((plugin, Some (Message status)), c)
  else
    let '((status, plugin), _) := runFilterPlugins filters state pod node skip c in
    if negb (IsSuccess status) then Some ((plugin, Some (Message status)), c)
    else Some (("", None), c).

Definition predicatesReserve (p : predicateManagerImpl) (pod : Pod) (node : NodeInfo)
    (c : SchedulerCache) : option ((string * option string) * SchedulerCache) :=
  podFitsNode NewCycleState (reservationPreFilters p) (reservationFilters p) pod node c.

Definition predicatesAllocate (p : predicateManagerImpl) (pod : Pod) (node : NodeInfo)
    (c : SchedulerCache) : option ((string * option string) * SchedulerCache) :=
  podFitsNode NewCycleState (allocationPreFilters p) (allocationFilters p) pod node c.

Definition Predicates (p : predicateManagerImpl) (pod : Pod) (node : NodeInfo) (allocate : bool)
    (c : SchedulerCache) : option ((string * option string) * SchedulerCache) :=
  if allocate then predicatesAllocate p pod node c else predicatesReserve p pod node c.

(** ** Preemption *)

Definition removePodFromNodeNoFail (node : NodeInfo) (pod : option Pod) : option NodeInfo :=
  match pod with
  | None => Some node
  | Some pod =>
      let '(node, err) := RemovePod node pod in
      if (err : bool) then _ ← node_name node; Some node else Some node
  end.

Fixpoint removePods (node : NodeInfo) (pods : list (option Pod)) : option NodeInfo :=
  match pods with
  | [] => Some node
  | pod :: pods' => node ← removePodFromNodeNoFail node pod; removePods node pods'
  end.

(** The loop over the remaining victims, from index [i]. *)
Fixpoint tryVictims (filters : list (Plugin * FilterFn)) (state : CycleState) (pod : Pod)
    (skip : gset string) (c : SchedulerCache) (node : NodeInfo) (victims : list (option Pod)) (i : Z) :
    option (option Z) :=
  match victims with
  | [] => Some None
  | victim :: victims' =>
      node ← removePodFromNodeNoFail node victim;
      let '((status, _), state) := runFilterPlugins filters state pod node skip c in
      if IsSuccess status then Some (Some i)
      else tryVictims filters state pod skip c node victims' (i + 1)
  end.

Definition PreemptionPredicates (p : predicateManagerImpl) (pod : Pod) (node : NodeInfo)
    (victims : list (option Pod)) (startIndex : Z) (c : SchedulerCache) :
    option (Z * SchedulerCache) :=
  '((s, _, skip), state, c) ← runPreFilterPlugins NewCycleState (allocationPreFilters p) pod node c;
  if negb (IsSuccess s) && negb (IsSkip s) then Some ((-1)%Z, c)
  else
    (* [Snapshot] copies the node *)
    preemptingNode ← removePods node (take (Z.to_nat startIndex) victims);
    if (startIndex <? 0)%Z then None
    else
      index ← tryVictims (allocationFilters p) state pod skip c preemptingNode
        (drop (Z.to_nat startIndex) victims) startIndex;
      match index with
      | Some i => Some (i, c)
      | None => _ ← node_name node; Some ((-1)%Z, c)
      end.

End Plugins.

(** ** Creating the manager *)

(** Names of the in-tree plugins. *)
Class PluginNames := {
  NodeAffinity : string;
  NodePorts : string;
  PodTopologySpread : string;
  InterPodAffinity : string;
  NodeUnschedulable : string;
  NodeName : string;
  TaintToleration : string;
  DefaultPreemption : string;
  SchedulingGates : string
}.

(** The [MultiPoint] plugin set of a scheduler profile, by plugin names. *)
Record PluginSet := mkPluginSet {
  ps_Enabled : list string;
  ps_Disabled : list string
}.

(** The in-tree registry, the default configuration and the decoder of plugin
    arguments. *)
Class PluginRegistry `{SchedFramework} := {
  PluginArgs : Type;
  registry : gmap string (option PluginArgs → Plugin + string);
  scheme_default : list PluginSet + string;
  (* [None] for an error that says the kind is not registered *)
  decode_args : string → option (PluginArgs + string)
}.

Section Create.
Context `{PluginRegistry} `{PluginNames}.

(** One plugin of a profile. *)
Definition removePluginFrom (name : string) (acc : PluginSet) (plugin : string) : PluginSet :=
  if plugin =s name then mkPluginSet (ps_Enabled acc) (ps_Disabled acc ++ [plugin])
  else mkPluginSet (ps_Enabled acc ++ [plugin]) (ps_Disabled acc).

Definition removePlugin (profiles : list PluginSet) (name : string) : list PluginSet :=
  map (λ ps, foldl (removePluginFrom name) (mkPluginSet [] (ps_Disabled ps)) (ps_Enabled ps)) profiles.

Definition defaultConfig : list PluginSet + string :=
  match scheme_default with
  | inr err => inr err
  | inl cfg => inl (removePlugin (removePlugin cfg DefaultPreemption) SchedulingGates)
  end.

Definition getPluginArgsOrDefault (pluginConfig : gmap string PluginArgs) (name : string) :
    option PluginArgs + string :=
  match pluginConfig !! name with
  | Some res => inl (Some res)
  | None =>
      match decode_args (name +:+ "Args") with
      | None => inl None
      | Some (inl obj) => inl (Some obj)
      | Some (inr err) => inr err
      end
  end.

(** A plugin without arguments or that cannot be created is left out; a name that
    is not registered has no factory to call. *)
Fixpoint createPlugins (enabled : list string) (createdPlugins : list Plugin) : option (list Plugin) :=
  match enabled with
  | [] => Some createdPlugins
  | name :: enabled' =>
      match getPluginArgsOrDefault ∅ name with
      | inr _ => createPlugins enabled' createdPlugins
      | inl cfg =>
          factory ← registry !! name;
          match factory cfg with
          | inr _ => createPlugins enabled' createdPlugins
          | inl plugin => createPlugins enabled' (createdPlugins ++ [plugin])
          end
      end
  end.

(** Whether a plugin filter enables a plugin, the wildcard included. *)
Definition plugin_enabled (pluginFilter : gmap string bool) (name : string) : bool :=
  match pluginFilter !! name with
  | Some enabled => enabled
  | None =>
      match pluginFilter !! "*" with
      | Some enabled => enabled
      | None => false
      end
  end.

Fixpoint addPlugins (createdPlugins pluginList : list Plugin) (pluginFilter : gmap string bool) :
    list Plugin :=
  match createdPlugins with
  | [] => pluginList
  | plugin :: createdPlugins' =>
      addPlugins createdPlugins'
        (if plugin_enabled pluginFilter (pl_Name plugin) then pluginList ++ [plugin] else pluginList)
        pluginFilter
  end.

Definition preFilterPlugins (plugins : list Plugin) : list (Plugin * PreFilterFn) :=
  omap (λ plugin, pair plugin <$> pl_PreFilter plugin) plugins.

Definition filterPlugins (plugins : list Plugin) : list (Plugin * FilterFn) :=
  omap (λ plugin, pair plugin <$> pl_Filter plugin) plugins.

Definition newPredicateManagerInternal
    (reservationPreFilters allocationPreFilters reservationFilters allocationFilters : gmap string bool) :
    option predicateManagerImpl :=
  match defaultConfig with
  | inr _ => None
  | inl cfg =>
      profile ← head cfg;
      createdPlugins ← createPlugins (ps_Enabled profile) [];
      let resPre := addPlugins createdPlugins [] reservationPreFilters in
      let allocPre := addPlugins createdPlugins [] allocationPreFilters in
      let resFilt := addPlugins createdPlugins [] reservationFilters in
      let allocFilt := addPlugins createdPlugins [] allocationFilters in
      Some (mkPredicateManager (preFilterPlugins resPre) (preFilterPlugins allocPre)
              (filterPlugins resFilt) (filterPlugins allocFilt))
  end.

(** A map literal whose values are all [true]. *)
Definition enabled_names (names : list string) : gmap string bool :=
  list_to_map (map (λ n, (n, true)) names).

Definition NewPredicateManager : option predicateManagerImpl :=
  newPredicateManagerInternal
    (enabled_names [NodeAffinity; NodePorts; PodTopologySpread; InterPodAffinity])
    (enabled_names ["*"])
    (enabled_names [NodeUnschedulable; NodeName; TaintToleration; NodeAffinity; NodePorts;
                    PodTopologySpread; InterPodAffinity])
    (enabled_names ["*"]).

End Create.

(** ** The context and the callback *)

Section Context_.
Context `{SchedFramework} `{NodeInfoOps} `{MapOrder}.

Definition ErrorPodNotFound : string := "predicates were not run because pod was not found in cache".
Definition ErrorNodeNotFound : string := "predicates were not run because node was not found in cache".

Definition IsPodFitNode (p : predicateManagerImpl) (name node : string) (allocate : bool) :
    M (option string) :=
  w ← get_world;
  match GetPod (w_cache w) name with
  | None => mret (Some ErrorPodNotFound)
  | Some pod =>
      match GetNode (w_cache w) node with
      | None => mret (Some ErrorNodeNotFound)
      | Some targetNode =>
          '(plugin, err) ← on_cache_with (λ c, '(r, c) ← Predicates p pod targetNode allocate c; Some (c, r));
          mret (match err with
                | Some err => Some (errors_Join ("failed plugin: '" +:+ plugin +:+ "'") err)
                | None => None
                end)
      end
  end.

Definition IsPodFitNodeViaPreemption (p : predicateManagerImpl) (name node : string)
    (allocations : list string) (startIndex : Z) : M (Z * bool) :=
  w ← get_world;
  match GetPod (w_cache w) name with
  | None => mret ((-1)%Z, false)
  | Some pod =>
      match GetNode (w_cache w) node with
      | None => mret ((-1)%Z, false)
      | Some targetNode =>
          let victims := map (GetPodNoLock (w_cache w)) allocations in
          index ← on_cache_with (λ c,
            '(r, c) ← PreemptionPredicates p pod targetNode victims startIndex c; Some (c, r));
          if bool_decide (index = (-1)%Z) then mret ((-1)%Z, false) else mret (index, true)
      end
  end.

Record PreemptionPredicatesResponse := mkPreemptionPredicatesResponse {
  pp_Success : bool;
  pp_Index : Z
}.

Definition callback_Predicates (p : predicateManagerImpl) (allocationKey nodeID : string) (allocate : bool) :
    M (option string) :=
  IsPodFitNode p allocationKey nodeID allocate.

Definition callback_PreemptionPredicates (p : predicateManagerImpl) (allocationKey nodeID : string)
    (preemptAllocationKeys : list string) (startIndex : Z) : M PreemptionPredicatesResponse :=
  '(index, ok) ← IsPodFitNodeViaPreemption p allocationKey nodeID preemptAllocationKeys startIndex;
  let index := if (ok : bool) then index else (-1)%Z in
  mret (mkPreemptionPredicatesResponse ok (wrap32 index)).

End Context_.
