(* ===== verification/PredicateThms.v ===== *)
(** * Predicates: correctness

    The plugins decide: a pod fits a node exactly when every plugin that is run
    accepts it, preemption reports the first victim whose removal makes the pod
    fit, the registered events are the union of the events of the plugins, and a
    reservation never runs a plugin that an allocation does not run. *)

From stdpp Require Import sorting.
From S2P Require Import Prelude.
From S2P Require Import GoStrings.
From S2P Require Import K8sApi.
From S2P Require Import K8sInstances.
From S2P Require Import SchedulerCache.
From S2P Require Import SchedulerCacheInv.
From S2P Require Import SchedulerCacheOps.
From S2P Require Import SchedulerCacheThms.
From S2P Require Import World.
From S2P Require Import Logic.
From S2P Require Import Predicates.

Section Fit.
Context `{SF : SchedFramework} `{SFL : !SchedFrameworkLaws} `{NIO : NodeInfoOps} `{NIL : !NodeInfoLaws}
  `{MO : MapOrder}.

(** ** Running every plugin *)

(** What the PreFilter plugins answer when all of them are run. *)
Fixpoint preruns (c : SchedulerCache) (pod : Pod) (allNodes : list NodeInfo)
    (plugins : list (Plugin * PreFilterFn)) (state : CycleState) :
    list (string * PreFilterResult * Status) * CycleState :=
  match plugins with
  | [] => ([], state)
  | (pl, run) :: plugins' =>
      let '((nodes, status), state) := run c state pod allNodes in
      let '(rest, state) := preruns c pod allNodes plugins' state in
      ((pl_Name pl, nodes, status) :: rest, state)
  end.

(** A plugin lets the pod pass and admits the node. *)
Definition passes (node : string) (x : string * PreFilterResult * Status) : bool :=
  (IsSkip x.2 || IsSuccess x.2) && admits x.1.2 node.

Definition skipped (runs : list (string * PreFilterResult * Status)) : gset string :=
  list_to_set (filter (λ x, IsSkip x.2) runs).*1.*1.

(** The Filter plugins that are not skipped accept the node. *)
Definition filters_accept (filters : list (Plugin * FilterFn)) (state : CycleState) (pod : Pod)
    (node : NodeInfo) (skip : gset string) (c : SchedulerCache) : bool :=
  forallb (λ f : Plugin * FilterFn,
    bool_decide (pl_Name f.1 ∈ skip) || IsSuccess (f.2 c state pod node).1) filters.

Definition failed (s : Status) : Prop := IsSuccess s = false ∧ IsSkip s = false.

Lemma skipped_cons name nodes status runs skip :
  skipped ((name, nodes, status) :: runs) ∪ skip =
  skipped runs ∪ (if IsSkip status then {[name]} ∪ skip else skip).
Proof.
  unfold skipped. rewrite filter_cons. cbn [snd].
  destruct (IsSkip status); case_decide; [cbn|done|done|done]. rewrite !(assoc_L (∪)). f_equal. apply (comm_L (∪)).
Qed.

Lemma runPreFilters_spec c pod node nd allNodes plugins state merged skip :
  ni_node node = Some nd → admits merged (node_Name nd) = true →
  let '(runs, state') := preruns c pod allNodes plugins state in
  if forallb (passes (node_Name nd)) runs
  then runPreFilters c pod node allNodes plugins state merged skip =
         Some ((nilStatus, "", skipped runs ∪ skip), state')
  else ∃ s pl skip' st, runPreFilters c pod node allNodes plugins state merged skip =
         Some ((s, pl, skip'), st) ∧ failed s.
Proof.
  intros Hnd. revert state merged skip.
  induction plugins as [|[pl run] plugins IH]; intros state merged skip Hm; cbn [preruns runPreFilters].
  { cbn. do 3 f_equal. unfold skipped. cbn. by rewrite (left_id_L ∅ (∪)). }
  destruct (run c state pod allNodes) as [[nodes status] st].
  specialize (IH st (Merge merged nodes) (if IsSkip status then {[pl_Name pl]} ∪ skip else skip)).
  destruct (preruns c pod allNodes plugins st) as [runs st'] eqn:Hr. cbn [forallb].
  unfold passes at 1. cbn [fst snd]. unfold node_name. rewrite Hnd. cbn [fmap option_fmap option_map mbind option_bind].
  rewrite Merge_admits, Hm in IH. cbn [andb] in IH.
  assert (Hadm : admits (Merge merged nodes) (node_Name nd) = admits nodes (node_Name nd))
    by (by rewrite Merge_admits, Hm).
  destruct (IsSkip status) eqn:Hsk, (IsSuccess status) eqn:Hsu; cbn [negb andb orb];
    [| | |destruct (IsRejected status) eqn:Hrej;
           [by do 4 eexists|do 4 eexists; split; [done|apply AsStatus_failure]]].
  all: unfold admits in Hadm at 1; destruct (admits nodes (node_Name nd)) eqn:Ha; cbn [andb].
  all: try (apply orb_false_iff in Hadm as [-> ->]; do 4 eexists; split; [done|];
            split; [by apply NewStatus_failure|by apply NewStatus_skip]).
  all: specialize (IH eq_refl).
  all: rewrite skipped_cons, Hsk.
  all: by destruct (AllNodes (Merge merged nodes)); [|cbn [orb] in Hadm; rewrite Hadm].
Qed.

(** Filter plugins read the cycle state; they are run concurrently by the
    scheduler and do not write it. *)
Definition reads_only (f : Plugin * FilterFn) : Prop :=
  ∀ c state pod node, (f.2 c state pod node).2 = state.

Lemma runFilterPlugins_spec filters state pod node skip c :
  Forall reads_only filters →
  let '((s, _), state') := runFilterPlugins filters state pod node skip c in
  IsSuccess s = filters_accept filters state pod node skip c ∧ state' = state.
Proof.
  induction filters as [|[pl run] filters IH]; intros Hro; cbn [runFilterPlugins filters_accept forallb].
  { split; [apply NewStatus_success|done]. }
  apply Forall_cons in Hro as [Hr Hro]. specialize (Hr c state pod node). cbn [snd fst] in *.
  case_bool_decide; cbn [orb]; [by apply IH|].
  destruct (run c state pod node) as [status st]. cbn [fst snd] in *. subst st.
  destruct (IsSuccess status) eqn:Hs; cbn [negb andb]; [by apply IH|].
  destruct (IsRejected status); cbn [negb]; [done|]. split; [by apply NewStatus_failure|done].
Qed.
(** ** Fit *)

(** Every PreFilter plugin lets the pod and the node pass, and every Filter plugin
    that no PreFilter plugin told to skip accepts them. *)
Definition accepted (preFilters : list (Plugin * PreFilterFn)) (filters : list (Plugin * FilterFn))
    (pod : Pod) (ni : NodeInfo) (node : string) (c : SchedulerCache) : bool :=
  let '(allNodes, c) := NodeInfos_List c in
  let '(runs, state) := preruns c pod allNodes preFilters NewCycleState in
  forallb (passes node) runs && filters_accept filters state pod ni (skipped runs) c.

Lemma podFitsNode_spec preFilters filters pod ni nd c :
  ni_node ni = Some nd → Forall reads_only filters →
  ∃ plugin err, podFitsNode NewCycleState preFilters filters pod ni c =
    Some ((plugin, err), (NodeInfos_List c).2) ∧
    (err = None ↔ accepted preFilters filters pod ni (node_Name nd) c = true).
Proof.
  intros Hnd Hro. unfold podFitsNode, runPreFilterPlugins, accepted.
  destruct (NodeInfos_List c) as [allNodes c'].
  pose proof (runPreFilters_spec c' pod ni nd allNodes preFilters NewCycleState nilPreFilterResult ∅ Hnd
    (nil_admits _)) as Hpre.
  destruct (preruns c' pod allNodes preFilters NewCycleState) as [runs st].
  destruct (forallb (passes (node_Name nd)) runs); cbn [andb].
  - rewrite Hpre. cbn [mbind option_bind]. rewrite nilStatus_success, (right_id_L ∅ (∪)). cbn [negb andb].
    pose proof (runFilterPlugins_spec filters st pod ni (skipped runs) c' Hro) as Hf.
    destruct (runFilterPlugins _ _ _ _ _ _) as [[s pl] st']. destruct Hf as [<- _].
    destruct (IsSuccess s); do 2 eexists; by split.
  - destruct Hpre as (s & pl & skip & st' & -> & Hs & Hk). cbn [mbind option_bind]. rewrite Hs, Hk.
    do 2 eexists. by split.
Qed.

Lemma NodeInfos_List_ok c :
  wf c → wf (NodeInfos_List c).2 ∧ abs (NodeInfos_List c).2 = abs c.
Proof.
  intros Hwf. unfold NodeInfos_List. destruct (GetNodesInfo_ok c Hwf) as (_ & Hwf' & Ha).
  by destruct (GetNodesInfo c).
Qed.

Lemma cached_node c n ni : wf c → GetNode c n = Some ni → ∃ nd, ni_node ni = Some nd ∧ node_Name nd = n.
Proof. intros [Hwf _] Hn. by eapply no_node, wf_node. Qed.

(** The pod and the node are cached and the plugins accept them: all plugins for
    an allocation, the reservation plugins otherwise. *)
Definition fits (p : predicateManagerImpl) (name node : string) (allocate : bool) (c : SchedulerCache) :
    Prop :=
  ∃ pod ni, GetPod c name = Some pod ∧ GetNode c node = Some ni ∧
    accepted (if allocate then allocationPreFilters p else reservationPreFilters p)
      (if allocate then allocationFilters p else reservationFilters p) pod ni node c = true.

(** C24: a pod fits a node exactly when the plugins say so. The call never fails
    on a well-formed cache and does not change what is cached; it returns no
    error exactly when the pod and the node are cached, every PreFilter plugin
    lets the pod pass (success or skip) with the node in its node set, and every
    Filter plugin that is not skipped accepts: all plugins for an allocation, the
    reservation plugins otherwise. *)
Theorem predicates_decide_fit p name node allocate w :
  wf (w_cache w) → Forall reads_only (allocationFilters p) → Forall reads_only (reservationFilters p) →
  ∃ err c', IsPodFitNode p name node allocate w = Some (err, with_cache w c') ∧
    wf c' ∧ abs c' = abs (w_cache w) ∧ (err = None ↔ fits p name node allocate (w_cache w)).
Proof.
  intros Hwf Ha Hr. unfold IsPodFitNode, fits. rewrite run_bind. unfold get_world.
  destruct (GetPod (w_cache w) name) as [pod|] eqn:Hp.
  2: { exists (Some ErrorPodNotFound), (w_cache w). rewrite with_cache_same.
       split_and!; [done..|]. by split; [|intros (? & ? & ? & _)]. }
  destruct (GetNode (w_cache w) node) as [ni|] eqn:Hn.
  2: { exists (Some ErrorNodeNotFound), (w_cache w). rewrite with_cache_same.
       split_and!; [done..|]. by split; [|intros (? & ? & _ & ? & _)]. }
  destruct (cached_node _ _ _ Hwf Hn) as (nd & Hnd & Hname).
  destruct (NodeInfos_List_ok _ Hwf) as [Hwf' Habs].
  destruct (podFitsNode_spec (if allocate then allocationPreFilters p else reservationPreFilters p)
    (if allocate then allocationFilters p else reservationFilters p) pod ni nd (w_cache w) Hnd)
    as (plugin & err & Hrun & Hiff); [by destruct allocate|].
  rewrite run_bind, (run_on_cache_with _ _ (NodeInfos_List (w_cache w)).2 (plugin, err)).
  2: { unfold Predicates, predicatesAllocate, predicatesReserve. by destruct allocate; rewrite Hrun. }
  rewrite run_ret. eexists _, _. split_and!; [done..|]. rewrite Hname in Hiff.
  transitivity (err = None); [by destruct err|]. rewrite Hiff. split; [by eauto|].
  by intros (? & ? & [= <-] & [= <-] & ?).
Qed.

(** ** Preemption *)

(** The node after the removal of some victims. *)
Definition without (ni : NodeInfo) (victims : list (option Pod)) : NodeInfo :=
  foldl (λ ni v, match v with Some pod => (RemovePod ni pod).1 | None => ni end) ni victims.

Lemma without_node ni victims : ni_node (without ni victims) = ni_node ni.
Proof.
  revert ni. induction victims as [|[pod|] victims IH]; intros ni; [done| |by apply IH].
  cbn. rewrite IH. apply RemovePod_node.
Qed.

Lemma removePodFromNodeNoFail_spec ni v :
  is_Some (ni_node ni) → removePodFromNodeNoFail ni v = Some (without ni [v]).
Proof.
  intros [nd Hnd]. destruct v as [pod|]; [|done]. unfold removePodFromNodeNoFail. cbn.
  pose proof (RemovePod_node ni pod) as Hn. destruct (RemovePod ni pod) as [ni' []]; [|done].
  unfold node_name. cbn in *. by rewrite Hn, Hnd.
Qed.

Lemma removePods_spec ni victims :
  is_Some (ni_node ni) → removePods ni victims = Some (without ni victims).
Proof.
  revert ni. induction victims as [|v victims IH]; intros ni Hn; [done|].
  cbn [removePods]. rewrite removePodFromNodeNoFail_spec by done. cbn [mbind option_bind].
  rewrite IH; [done|]. by rewrite without_node.
Qed.

(** The first index at which the filters accept the node without the victims up
    to it. *)
Lemma tryVictims_spec filters state pod skip c ni victims i :
  Forall reads_only filters → is_Some (ni_node ni) →
  let ok k := filters_accept filters state pod (without ni (take (S k) victims)) skip c in
  ∃ r, tryVictims filters state pod skip c ni victims i = Some r ∧
    match r with
    | Some j => ∃ k, j = (i + Z.of_nat k)%Z ∧ k < length victims ∧ ok k = true ∧
                  ∀ k', k' < k → ok k' = false
    | None => ∀ k, k < length victims → ok k = false
    end.
Proof.
  intros Hro. revert ni i. induction victims as [|v victims IH]; intros ni i Hn ok.
  { exists None. split; [done|]. intros k Hk. simpl in Hk. lia. }
  cbn [tryVictims]. rewrite removePodFromNodeNoFail_spec by done. cbn [mbind option_bind].
  pose proof (runFilterPlugins_spec filters state pod (without ni [v]) skip c Hro) as Hf.
  destruct (runFilterPlugins _ _ _ _ _ _) as [[s pl] st']. destruct Hf as [Hs ->].
  assert (Hok0 : ok 0 = IsSuccess s) by (by rewrite Hs).
  destruct (IsSuccess s) eqn:E.
  { exists (Some i). split; [done|]. exists 0. split_and!; [lia|simpl; lia|done|lia]. }
  destruct (IH (without ni [v]) (i + 1)%Z) as (r & -> & Hr); [by rewrite without_node|].
  exists r. split; [done|]. destruct r as [j|].
  - destruct Hr as (k & -> & Hk & Hfit & Hfirst). exists (S k). split_and!; [lia|simpl; lia|exact Hfit|].
    intros [|k'] Hk'; [exact Hok0|]. apply (Hfirst k'). lia.
  - intros [|k] Hk; [exact Hok0|]. apply (Hr k). simpl in Hk. lia.
Qed.

Lemma without_app ni l1 l2 : without ni (l1 ++ l2) = without (without ni l1) l2.
Proof. apply foldl_app. Qed.

(** The pod fits the node, as an allocation, when the first [n] victims are
    gone. *)
Definition fits_without (p : predicateManagerImpl) (key node : string) (victims : list string) (n : nat)
    (c : SchedulerCache) : Prop :=
  ∃ pod ni, GetPod c key = Some pod ∧ GetNode c node = Some ni ∧
    accepted (allocationPreFilters p) (allocationFilters p) pod
      (without ni (take n (map (GetPodNoLock c) victims))) node c = true.

(** What the answer [index] (-1 for none) says. *)
Definition first_fit (P : nat → Prop) (start len : nat) (index : Z) : Prop :=
  index = (-1)%Z ∧ (∀ j, start ≤ j < len → ¬ P j) ∨
  ∃ i, index = Z.of_nat i ∧ start ≤ i < len ∧ P i ∧ ∀ j, start ≤ j < i → ¬ P j.

Lemma PreemptionPredicates_spec p pod ni nd victims start c :
  ni_node ni = Some nd → Forall reads_only (allocationFilters p) →
  ∃ index, PreemptionPredicates p pod ni victims (Z.of_nat start) c =
      Some (index, (NodeInfos_List c).2) ∧
    first_fit (λ j, accepted (allocationPreFilters p) (allocationFilters p) pod
      (without ni (take (S j) victims)) (node_Name nd) c = true) start (length victims) index.
Proof.
  intros Hnd Hro. unfold PreemptionPredicates, runPreFilterPlugins, accepted.
  destruct (NodeInfos_List c) as [allNodes c'].
  pose proof (runPreFilters_spec c' pod ni nd allNodes (allocationPreFilters p) NewCycleState
    nilPreFilterResult ∅ Hnd (nil_admits _)) as Hpre.
  destruct (preruns c' pod allNodes _ NewCycleState) as [runs st].
  destruct (forallb (passes (node_Name nd)) runs); cbn [andb].
  2: { destruct Hpre as (s & pl & skip & st' & -> & Hs & Hk). cbn [mbind option_bind]. rewrite Hs, Hk.
       exists (-1)%Z. split; [done|]. left. by split. }
  rewrite Hpre. cbn [mbind option_bind]. rewrite nilStatus_success, (right_id_L ∅ (∪)). cbn [negb andb].
  rewrite removePods_spec by (by rewrite Hnd). cbn [mbind option_bind].
  rewrite (proj2 (Z.ltb_ge _ _)) by lia. rewrite Nat2Z.id.
  destruct (tryVictims_spec (allocationFilters p) st pod (skipped runs) c' (without ni (take start victims))
    (drop start victims) (Z.of_nat start) Hro) as (r & -> & Hr); [by rewrite without_node, Hnd|].
  cbn [mbind option_bind]. rewrite length_drop in Hr.
  assert (Htake : ∀ k, without (without ni (take start victims)) (take (S k) (drop start victims)) =
    without ni (take (S (start + k)) victims)).
  { intros k. rewrite <- without_app. f_equal. rewrite take_take_drop. f_equal. lia. }
  destruct r as [j|].
  - destruct Hr as (k & -> & Hk & Hfit & Hfirst). eexists. split; [done|]. right. exists (start + k).
    split_and!; [lia|lia|lia|by rewrite <- Htake|]. intros j Hj. replace j with (start + (j - start)) by lia.
    rewrite <- Htake. rewrite (Hfirst (j - start)) by lia. done.
  - unfold node_name. rewrite Hnd. eexists. split; [done|]. left. split; [done|]. intros j Hj.
    replace j with (start + (j - start)) by lia. rewrite <- Htake. rewrite (Hr (j - start)) by lia. done.
Qed.

(** C25: preemption reports the first victim that makes room. For a start index in
    range of the victims the answer of the shim is successful with index [i]
    exactly when the pod fits the node, as an allocation, once the victims up to
    and including [i] are gone, and [i] is the least such index that is not below
    the start index; otherwise it is unsuccessful, with index -1, and no such
    index exists. *)
Theorem preemption_reports_first_fit p key node victims start w :
  wf (w_cache w) → Forall reads_only (allocationFilters p) →
  (Z.of_nat (length victims) <= MaxInt32)%Z →
  ∃ r c', callback_PreemptionPredicates p key node victims (Z.of_nat start) w =
      Some (r, with_cache w c') ∧ wf c' ∧ abs c' = abs (w_cache w) ∧
    pp_Success r = bool_decide (pp_Index r ≠ (-1)%Z) ∧
    first_fit (λ i, fits_without p key node victims (S i) (w_cache w)) start (length victims) (pp_Index r).
Proof.
  intros Hwf Hro Hlen. unfold callback_PreemptionPredicates, IsPodFitNodeViaPreemption, fits_without.
  rewrite !run_bind. unfold get_world.
  destruct (GetPod (w_cache w) key) as [pod|] eqn:Hp.
  2: { eexists (mkPreemptionPredicatesResponse _ _), (w_cache w). rewrite with_cache_same.
       split_and!; [done..|]. left. split; [done|]. by intros j Hj (? & ? & ? & _). }
  destruct (GetNode (w_cache w) node) as [ni|] eqn:Hn.
  2: { eexists (mkPreemptionPredicatesResponse _ _), (w_cache w). rewrite with_cache_same.
       split_and!; [done..|]. left. split; [done|]. by intros j Hj (? & ? & _ & ? & _). }
  destruct (cached_node _ _ _ Hwf Hn) as (nd & Hnd & <-).
  destruct (NodeInfos_List_ok _ Hwf) as [Hwf' Habs].
  destruct (PreemptionPredicates_spec p pod ni nd (map (GetPodNoLock (w_cache w)) victims) start
    (w_cache w) Hnd Hro) as (index & Hrun & Hfit). rewrite length_map in Hfit.
  rewrite run_bind, (run_on_cache_with _ _ (NodeInfos_List (w_cache w)).2 index) by (by rewrite Hrun).
  assert (Hw : wrap32 index = index).
  { apply wrap32_id. unfold in_int32, MinInt32. destruct Hfit as [[-> _]|(i & -> & Hi & _)]; [done|]. lia. }
  eexists (mkPreemptionPredicatesResponse (bool_decide (index ≠ (-1)%Z)) index), _. split_and!; [|done..|].
  - case_bool_decide as Hi; rewrite run_ret; cbn; [by subst index|]. rewrite Hw. by rewrite bool_decide_true.
  - cbn. destruct Hfit as [[-> Hnone]|(i & -> & Hi & Hok & Hfirst)]; [left|right].
    + split; [done|]. intros j Hj (? & ? & [= <-] & [= <-] & Ha). by apply (Hnone j Hj).
    + exists i. split_and!; [done|lia|lia|by eauto|].
      intros j Hj (? & ? & [= <-] & [= <-] & Ha). by apply (Hfirst j Hj).
Qed.
End Fit.

(** ** Events *)

Section Events.
Context `{SF : SchedFramework} `{NIO : NodeInfoOps} `{MO : MapOrder}.

(** The events all plugins of an allocation ask for. *)
Fixpoint events_of (plugins : list Plugin) : option (list ClusterEvent) :=
  match plugins with
  | [] => Some []
  | pl :: plugins' => evs ← pluginEvents pl; rest ← events_of plugins'; Some (evs ++ rest)
  end.

(** The actions asked for on a resource. *)
Definition actions_on (r : string) (evs : list ClusterEvent) : Z :=
  foldr Z.lor 0%Z (ev_ActionType <$> filter (λ e, ev_Resource e = r) evs).

(** A plugin that asks for all resources asks for all actions. *)
Definition wildcards_complete (evs : list ClusterEvent) : Prop :=
  ∀ e, e ∈ evs → ev_Resource e = WildCard → ev_ActionType e = All.

Lemma actions_on_cons r e evs :
  actions_on r (e :: evs) =
  if decide (ev_Resource e = r) then Z.lor (ev_ActionType e) (actions_on r evs) else actions_on r evs.
Proof. unfold actions_on. rewrite filter_cons. by case_decide. Qed.

Lemma actions_on_absent r evs : r ∉ ev_Resource <$> evs → actions_on r evs = 0%Z.
Proof.
  induction evs as [|e evs IH]; [done|]. cbn [fmap list_fmap]. intros [Hne Hni]%not_elem_of_cons.
  rewrite actions_on_cons, decide_False by done. by apply IH.
Qed.

Lemma lookup_mergeEvents m evs r :
  existsb IsWildCard evs = false →
  mergeEvents m evs !! r =
  if decide (r ∈ ev_Resource <$> evs) then Some (Z.lor (default 0%Z (m !! r)) (actions_on r evs))
  else m !! r.
Proof.
  revert m. induction evs as [|e evs IH]; intros m Hw; cbn [mergeEvents].
  { by rewrite decide_False by (by apply not_elem_of_nil). }
  cbn [existsb] in Hw. apply orb_false_iff in Hw as [-> Hw]. rewrite IH by done. clear IH.
  rewrite actions_on_cons. cbn [fmap list_fmap].
  destruct (decide (ev_Resource e = r)) as [<-|Hne].
  - rewrite lookup_insert_eq, (decide_True (P := ev_Resource e ∈ _ :: _)) by left. cbn [default].
    replace (match m !! ev_Resource e with None => _ | Some action => _ end)
      with (Z.lor (default 0%Z (m !! ev_Resource e)) (ev_ActionType e)) by (by destruct (m !! _)).
    case_decide as Hin; [by rewrite Z.lor_assoc|]. by rewrite actions_on_absent, Z.lor_0_r.
  - rewrite lookup_insert_ne by done. apply decide_ext. rewrite elem_of_cons. intuition congruence.
Qed.

Lemma mergeEvents_app m evs evs' :
  mergeEvents m (evs ++ evs') =
  if existsb IsWildCard evs then mergeEvents m evs else mergeEvents (mergeEvents m evs) evs'.
Proof.
  revert m. induction evs as [|e evs IH]; intros m; [done|]. cbn [app mergeEvents existsb].
  by destruct (IsWildCard e); cbn [orb].
Qed.

Lemma mergeEvents_wild m evs : existsb IsWildCard evs = true → mergeEvents m evs = {[WildCard := All]}.
Proof.
  revert m. induction evs as [|e evs IH]; intros m; [done|]. cbn [mergeEvents existsb].
  destruct (IsWildCard e); cbn [orb]; [done|apply IH].
Qed.

Lemma mergeEvents_tame m evs :
  existsb IsWildCard evs = false → wildcards_complete evs → m !! WildCard = None →
  mergeEvents m evs !! WildCard = None.
Proof.
  intros Hw Hc Hm. rewrite lookup_mergeEvents by done. case_decide as Hin; [|done].
  apply list_elem_of_fmap in Hin as (e & Hr & Hin). pose proof (Hc e Hin (eq_sym Hr)) as Ha.
  assert (existsb IsWildCard evs = true); [|congruence].
  apply existsb_exists. exists e. split; [by apply list_elem_of_In|].
  unfold IsWildCard. by rewrite <- Hr, Ha, !bool_decide_true.
Qed.

(** Once there is a wildcard, nothing is merged. *)
Lemma mergePlugins_wild m plugins :
  is_Some (m !! WildCard) → is_Some (events_of plugins) → mergePlugins m plugins = Some m.
Proof.
  intros [a Ha]. revert m a Ha. induction plugins as [|pl plugins IH]; intros m a Ha [evs He]; [done|].
  cbn in He |- *. destruct (pluginEvents pl); [|done]. destruct (events_of plugins); [|done].
  cbn. unfold mergePluginEvents. rewrite Ha. by eapply IH.
Qed.

(** Merging plugin by plugin merges all events. *)
Lemma mergePlugins_spec m plugins evs :
  events_of plugins = Some evs → wildcards_complete evs → m !! WildCard = None →
  mergePlugins m plugins = Some (mergeEvents m evs).
Proof.
  revert m evs. induction plugins as [|pl plugins IH]; intros m evs Hevs Hc Hm; cbn in Hevs |- *.
  { by simplify_eq. }
  destruct (pluginEvents pl) as [e1|] eqn:E; [|done].
  destruct (events_of plugins) as [e2|] eqn:E2; [|done]. cbn in Hevs |- *. injection Hevs as <-.
  assert (Hc1 : wildcards_complete e1) by (intros e He; apply Hc, elem_of_app; by left).
  assert (Hc2 : wildcards_complete e2) by (intros e He; apply Hc, elem_of_app; by right).
  unfold mergePluginEvents. rewrite Hm, mergeEvents_app. destruct (existsb IsWildCard e1) eqn:Hw.
  - apply mergePlugins_wild; [|by rewrite E2]. rewrite mergeEvents_wild by done.
    rewrite lookup_singleton_eq. by eexists.
  - apply IH; [done..|]. by apply mergeEvents_tame.
Qed.

Lemma events_of_app l1 l2 e1 e2 :
  events_of l1 = Some e1 → events_of l2 = Some e2 → events_of (l1 ++ l2) = Some (e1 ++ e2).
Proof.
  revert e1. induction l1 as [|pl l1 IH]; intros e1 H1 H2; cbn in *; [by simplify_eq|].
  destruct (pluginEvents pl); [|done]. destruct (events_of l1); [|done]. cbn in *. simplify_eq.
  rewrite (IH _ eq_refl H2). cbn. by rewrite (assoc_L (++)).
Qed.

Lemma mergePlugins_app m l1 l2 :
  mergePlugins m (l1 ++ l2) = mergePlugins m l1 ≫= λ m, mergePlugins m l2.
Proof.
  revert m. induction l1 as [|pl l1 IH]; intros m; [done|]. cbn. destruct (pluginEvents pl); [apply IH|done].
Qed.

(** The shim registers for exactly the events its plugins need. The
    registered events are sorted by resource and there is one for each resource
    that some plugin of the allocation phase asks for, with the union of the
    actions the plugins ask for on it; if some plugin asks for all events there
    is one event for everything. Whatever the order of map iteration. *)
Theorem registered_events_are_union {Hint} p (hint : Hint) evs :
  events_of ((allocationPreFilters p).*1 ++ (allocationFilters p).*1) = Some evs →
  wildcards_complete evs →
  ∃ l, EventsToRegister p hint = Some (map (λ e, (e, hint)) l) ∧
    NoDup (ev_Resource <$> l) ∧ Sorted resource_le l ∧
    ∀ e, e ∈ l ↔
      if existsb IsWildCard evs then e = mkClusterEvent WildCard All
      else ev_Resource e ∈ ev_Resource <$> evs ∧ ev_ActionType e = actions_on (ev_Resource e) evs.
Proof.
  intros Hevs Hc. unfold EventsToRegister.
  pose proof (mergePlugins_spec ∅ _ _ Hevs Hc (lookup_empty _)) as Hm. rewrite mergePlugins_app in Hm.
  destruct (mergePlugins ∅ (allocationPreFilters p).*1) as [m1|]; [|done]. cbn [mbind option_bind] in Hm |- *.
  rewrite Hm. cbn [mbind option_bind]. unfold buildClusterEvents. eexists. split; [done|].
  set (m := mergeEvents ∅ evs).
  assert (Hperm : merge_sort resource_le (map (λ kv : string * Z, mkClusterEvent kv.1 kv.2) (go_range m))
    ≡ₚ (λ kv : string * Z, mkClusterEvent kv.1 kv.2) <$> go_range m) by apply merge_sort_Permutation.
  split_and!.
  - rewrite Hperm, <- list_fmap_compose. apply NoDup_go_range.
  - apply Sorted_merge_sort. intros e1 e2. destruct (String.leb_total (ev_Resource e1) (ev_Resource e2)); [by left|by right].
  - intros e. rewrite Hperm, list_elem_of_fmap. transitivity (m !! ev_Resource e = Some (ev_ActionType e)).
    { rewrite <- elem_of_go_range. split; [by intros ([k a] & -> & ?)|]. intros Hin.
      by exists (ev_Resource e, ev_ActionType e); destruct e. }
    unfold m. destruct (existsb IsWildCard evs) eqn:Hw.
    + rewrite mergeEvents_wild, lookup_singleton_Some by done. destruct e. cbn. by split; [intros [<- <-]|intros [= -> ->]].
    + rewrite lookup_mergeEvents, lookup_empty by done. cbn [default]. rewrite Z.lor_0_l.
      case_decide; split; [by intros [= ->]|by intros [_ ->]|done|by intros [? _]].
Qed.
End Events.

(** ** The plugins of the manager *)

Section Manager.
Context `{SF : SchedFramework} `{PR : !PluginRegistry} `{PN : PluginNames}.

Lemma removePlugin_enabled name ps :
  ps_Enabled (foldl (removePluginFrom name) (mkPluginSet [] (ps_Disabled ps)) (ps_Enabled ps)) =
  filter (λ n, n ≠ name) (ps_Enabled ps).
Proof.
  cut (∀ l acc, ps_Enabled (foldl (removePluginFrom name) acc l) = ps_Enabled acc ++ filter (λ n, n ≠ name) l);
    [intros Hc; by rewrite Hc|].
  induction l as [|x l IH]; intros acc; cbn [foldl]; [by rewrite app_nil_r|].
  rewrite IH, filter_cons. unfold removePluginFrom.
  case_bool_decide; case_decide; try done. cbn. by rewrite <- (assoc_L (++)).
Qed.

Lemma addPlugins_filter created acc flt :
  addPlugins created acc flt = acc ++ filter (λ pl, plugin_enabled flt (pl_Name pl)) created.
Proof.
  revert acc. induction created as [|pl created IH]; intros acc; cbn [addPlugins]; [by rewrite app_nil_r|].
  rewrite IH, filter_cons. destruct (plugin_enabled flt (pl_Name pl)); case_decide; try done.
  by rewrite <- (assoc_L (++)).
Qed.

Lemma filter_True {A} (f : A → bool) (l : list A) : (∀ x, f x = true) → filter (λ x, f x) l = l.
Proof.
  intros Hf. induction l as [|x l IH]; [done|]. rewrite filter_cons, decide_True by (by rewrite Hf).
  by rewrite IH.
Qed.

Lemma sublist_omap {A B} (f : A → option B) (l1 l2 : list A) :
  l1 `sublist_of` l2 → omap f l1 `sublist_of` omap f l2.
Proof.
  induction 1 as [|x l1 l2 _ IH|x l1 l2 _ IH]; [done|..]; cbn; destruct (f x); [by constructor|done|by constructor|done].
Qed.

Lemma enabled_names_lookup names n :
  enabled_names names !! n = if decide (n ∈ names) then Some true else None.
Proof.
  unfold enabled_names. induction names as [|x names IH]; [done|]. cbn.
  destruct (decide (x = n)) as [->|Hne].
  - by rewrite lookup_insert_eq, decide_True by left.
  - rewrite lookup_insert_ne, IH by done. apply decide_ext. rewrite elem_of_cons. intuition congruence.
Qed.

Lemma plugin_enabled_wildcard n : plugin_enabled (enabled_names ["*"]) n = true.
Proof. unfold plugin_enabled. rewrite !enabled_names_lookup. by case_decide. Qed.

Lemma plugin_enabled_names names n :
  "*" ∉ names → plugin_enabled (enabled_names names) n = bool_decide (n ∈ names).
Proof.
  intros Hstar. unfold plugin_enabled. rewrite !enabled_names_lookup, (decide_False (P := "*" ∈ _)) by done.
  case_decide; [by rewrite bool_decide_true|by rewrite bool_decide_false].
Qed.

(** The names of the plugins that run for a reservation. *)
Definition reservation_prefilters : list string :=
  [NodeAffinity; NodePorts; PodTopologySpread; InterPodAffinity].
Definition reservation_filters : list string :=
  [NodeUnschedulable; NodeName; TaintToleration] ++ reservation_prefilters.

(** The plugins of a new manager: an allocation runs every plugin of the default
    profile that can be created, except the preemption and the scheduling gates
    plugin; a reservation runs those of them that are listed by name. *)
Theorem new_manager_plugins p :
  "*" ∉ reservation_filters → NewPredicateManager = Some p →
  ∃ profile rest created, scheme_default = inl (profile :: rest) ∧
    createPlugins (filter (λ n, n ≠ SchedulingGates) (filter (λ n, n ≠ DefaultPreemption) (ps_Enabled profile))) []
      = Some created ∧
    allocationPreFilters p = preFilterPlugins created ∧
    allocationFilters p = filterPlugins created ∧
    reservationPreFilters p = preFilterPlugins (filter (λ pl, pl_Name pl ∈ reservation_prefilters) created) ∧
    reservationFilters p = filterPlugins (filter (λ pl, pl_Name pl ∈ reservation_filters) created).
Proof.
  intros Hstar. unfold NewPredicateManager, newPredicateManagerInternal, defaultConfig.
  destruct scheme_default as [[|profile rest]|]; try done. cbn [removePlugin map head mbind option_bind].
  rewrite (removePlugin_enabled SchedulingGates), removePlugin_enabled.
  destruct (createPlugins _ _) as [created|] eqn:E; [|done]. cbn [mbind option_bind]. intros [= <-].
  exists profile, rest, created. rewrite !addPlugins_filter. cbn [app]. split_and!; [done..| | | |];
    cbn [allocationPreFilters allocationFilters reservationPreFilters reservationFilters].
  1,2: f_equal; apply filter_True; intros; apply plugin_enabled_wildcard.
  all: f_equal; apply filter_ext_in; intros pl _; rewrite plugin_enabled_names, bool_decide_spec; [done|].
  2: exact Hstar. intros Hin. apply Hstar. apply elem_of_app. by right.
Qed.

(** A reservation runs no plugin that an allocation does not run. *)
Corollary reservation_runs_fewer_plugins p :
  "*" ∉ reservation_filters → NewPredicateManager = Some p →
  reservationPreFilters p `sublist_of` allocationPreFilters p ∧
  reservationFilters p `sublist_of` allocationFilters p.
Proof.
  intros Hstar Hp. destruct (new_manager_plugins p Hstar Hp) as (_ & _ & created & _ & _ & -> & -> & -> & ->).
  unfold preFilterPlugins, filterPlugins. split; apply sublist_omap, sublist_filter.
Qed.
End Manager.

(** ** Closed instances *)

(** A framework as documented: a status is a code with reasons, a prefilter result
    a set of nodes. *)
Definition framework_ref : SchedFramework := {|
  CycleState := unit;
  NewCycleState := tt;
  Status := option (Code * list string);
  nilStatus := None;
  NewStatus c reasons := Some (c, reasons);
  AsStatus e := Some (Error, [e]);
  IsSuccess s := match s with None | Some (Success, _) => true | _ => false end;
  IsSkip s := match s with Some (Skip, _) => true | _ => false end;
  IsRejected s := match s with
                  | Some (Unschedulable, _) | Some (UnschedulableAndUnresolvable, _) | Some (Pending, _) => true
                  | _ => false end;
  Message s := match s with Some (_, reasons) => Join reasons ", " | None => "" end;
  PreFilterResult := option (gset string);
  nilPreFilterResult := None;
  Merge r1 r2 := match r1, r2 with
                 | Some s1, Some s2 => Some (s1 ∩ s2) | Some s, None | None, Some s => Some s | _, _ => None end;
  AllNodes r := match r with None => true | _ => false end;
  NodeNames_Has r n := match r with Some s => bool_decide (n ∈ s) | None => false end;
  WildCard := "*";
  All := 63;
  UnrollWildCardResource := [mkClusterEvent "Pod" 63; mkClusterEvent "Node" 63]
|}.

Section Witnesses.
#[local] Existing Instance framework_ref.

#[local] Instance framework_ref_laws : SchedFrameworkLaws.
Proof.
  split; try done.
  - by intros [] reasons Hc.
  - by intros [] reasons Hc.
  - by intros [[[] ?]|].
  - intros [s1|] [s2|] node; unfold admits; cbn; rewrite ?andb_true_r; try done.
    destruct (decide (node ∈ s1)), (decide (node ∈ s2)); repeat case_bool_decide; set_solver.
Qed.

(** A plugin that only admits node [n1], one that is skipped, and one that accepts
    empty nodes. *)
Definition plugin_pin : Plugin :=
  mkPlugin "pin" (Some (λ _ st _ _, ((Some {["n1"]}, None), st))) None (Some (inl [mkClusterEvent "Node" 1])).
Definition plugin_ports : Plugin :=
  mkPlugin "ports" (Some (λ _ st _ _, ((None, Some (Skip, [])), st)))
    (Some (λ _ st _ _, (Some (Error, ["never called"]), st))) (Some (inl [mkClusterEvent "Node" 6; mkClusterEvent "Pod" 2])).
Definition plugin_empty : Plugin :=
  mkPlugin "empty" None
    (Some (λ _ st _ ni, (match ni_Pods ni with [] => None | _ => Some (Unschedulable, ["busy"]) end, st)))
    (Some (inl [mkClusterEvent "Pod" 5])).

Definition manager_ref : predicateManagerImpl :=
  mkPredicateManager [] (preFilterPlugins [plugin_pin; plugin_ports]) []
    (filterPlugins [plugin_ports; plugin_empty]).

Definition predicate_world : World := mkWorld ∅ ∅ ∅ example_cache 0 [].

Lemma manager_ref_reads_only : Forall reads_only (allocationFilters manager_ref).
Proof. repeat constructor. Qed.

(** The node of the example cache has two pods, so a third pod fits for a
    reservation only. *)
Lemma predicates_decide_fit_witness :
  (∃ err c', IsPodFitNode manager_ref "uid-c" "n1" true predicate_world =
     Some (err, with_cache predicate_world c') ∧ wf c' ∧ abs c' = abs example_cache ∧
     (err = None ↔ fits manager_ref "uid-c" "n1" true example_cache)) ∧
  (∃ err c', IsPodFitNode manager_ref "uid-c" "n1" false predicate_world =
     Some (err, with_cache predicate_world c') ∧ wf c' ∧ abs c' = abs example_cache ∧
     (err = None ↔ fits manager_ref "uid-c" "n1" false example_cache)).
Proof.
  split; apply (predicates_decide_fit manager_ref "uid-c" "n1" _ predicate_world);
    [apply example_wf|apply manager_ref_reads_only|constructor|
     apply example_wf|apply manager_ref_reads_only|constructor].
Defined.

Example fit_answers :
  fst <$> IsPodFitNode manager_ref "uid-c" "n1" true predicate_world =
    Some (Some (errors_Join "failed plugin: 'empty'" "busy")) ∧
  fst <$> IsPodFitNode manager_ref "uid-c" "n1" false predicate_world = Some None ∧
  fst <$> IsPodFitNode manager_ref "uid-c" "n2" true predicate_world = Some (Some ErrorNodeNotFound).
Proof. split_and!; vm_compute; reflexivity. Qed.

(** Both pods have to go. *)
Lemma preemption_reports_first_fit_witness :
  ∃ r c', callback_PreemptionPredicates manager_ref "uid-c" "n1" ["uid-b"; "uid-a"; "uid-c"] 0 predicate_world =
      Some (r, with_cache predicate_world c') ∧ wf c' ∧ abs c' = abs example_cache ∧
    pp_Success r = bool_decide (pp_Index r ≠ (-1)%Z) ∧
    first_fit (λ i, fits_without manager_ref "uid-c" "n1" ["uid-b"; "uid-a"; "uid-c"] (S i) example_cache)
      0 3 (pp_Index r).
Proof.
  apply (preemption_reports_first_fit manager_ref "uid-c" "n1" ["uid-b"; "uid-a"; "uid-c"] 0 predicate_world);
    [apply example_wf|apply manager_ref_reads_only|by vm_compute].
Defined.

Example preemption_answer :
  fst <$> callback_PreemptionPredicates manager_ref "uid-c" "n1" ["uid-b"; "uid-a"; "uid-c"] 0 predicate_world =
  Some (mkPreemptionPredicatesResponse true 1).
Proof. vm_compute. reflexivity. Qed.

Lemma registered_events_are_union_witness :
  ∃ l, EventsToRegister manager_ref tt = Some (map (λ e, (e, tt)) l) ∧
    NoDup (ev_Resource <$> l) ∧ Sorted resource_le l ∧
    ∀ e, e ∈ l ↔
      ev_Resource e ∈ ["Node"; "Node"; "Pod"; "Node"; "Pod"; "Pod"] ∧
      ev_ActionType e = actions_on (ev_Resource e)
        [mkClusterEvent "Node" 1; mkClusterEvent "Node" 6; mkClusterEvent "Pod" 2;
         mkClusterEvent "Node" 6; mkClusterEvent "Pod" 2; mkClusterEvent "Pod" 5].
Proof.
  refine (registered_events_are_union manager_ref tt _ eq_refl _).
  intros e He. repeat (apply elem_of_cons in He as [->|He]; [done|]). by apply elem_of_nil in He.
Defined.

Example registered_events :
  EventsToRegister manager_ref tt = Some [(mkClusterEvent "Node" 7, tt); (mkClusterEvent "Pod" 7, tt)].
Proof. vm_compute. reflexivity. Qed.

(** A plugin that asks for some actions on all resources. *)
Definition plugin_partial : Plugin :=
  mkPlugin "partial" None (Some (λ _ st _ _, (None, st))) (Some (inl [mkClusterEvent "*" 1])).

(** A wildcard on the resource alone is taken for a registration for all events:
    what the plugins after it ask for is lost. *)
Theorem partial_wildcard_hides_events :
  EventsToRegister (mkPredicateManager [] [] [] (filterPlugins [plugin_partial; plugin_empty])) tt =
    Some [(mkClusterEvent "*" 1, tt)].
Proof. vm_compute. reflexivity. Qed.
End Witnesses.
