(* ===== verification/FrameworkHandle.v ===== *)
(** * The handle of the scheduling framework

    pkg/plugin/support: what the plugins of kube-scheduler get from the shim.  The
    handle serves the shared lister, the informers, the client set, the parallelizer
    and the managers of CSI and of dynamic resources; every other method of the
    interface logs a fatal error, which ends the process.  The listers answer from the
    scheduler cache, whose read lock the caller holds. *)

From S2P Require Import Prelude.
From S2P Require Import K8sApi.
From S2P Require Import K8sInstances.
From S2P Require Import SchedulerCache.
From S2P Require Import SchedulerCacheInv.
From S2P Require Import SchedulerCacheOps.
From S2P Require Import SchedulerCacheThms.
From S2P Require Import World.
From S2P Require Import Predicates.

(** The methods of [fwk.Handle]. *)
Inductive HandleMethod :=
  | AddPodInPreBind | GetPodInPreBind | RemovePodInPreBind | EventRecorder | PodGroupManager
  | SharedCSIManager | ProfileName | SignPod | SnapshotSharedLister | SharedInformerFactory | ClientSet
  | Parallelizer | ResourceClaimCache | AddNominatedPod | DeleteNominatedPodIfExists | UpdateNominatedPod
  | NominatedPodsForNode | RunPreScorePlugins | RunScorePlugins | RunFilterPlugins
  | RunPreFilterExtensionAddPod | RunPreFilterExtensionRemovePod | IterateOverWaitingPods | GetWaitingPod
  | RejectWaitingPod | KubeConfig | RunFilterPluginsWithNominatedPods | Extenders | Activate
  | SharedDRAManager | APIDispatcher | APICacher.

#[export] Instance HandleMethod_eq_dec : EqDecision HandleMethod.
Proof. solve_decision. Defined.

Section Handle.
(** The informer factory, the client set, the parallelizer, the manager of dynamic
    resources and the CSI nodes of client-go and of kube-scheduler. *)
Context {Informers Clients Parallel DRA CSINode : Type}.
Context `{NIO : NodeInfoOps} `{NIL : !NodeInfoLaws} `{MO : MapOrder}.

(** client-go's lister of CSI nodes. *)
Record CSINodeLister := mkCSINodeLister {
  csi_List : list CSINode + string;
  csi_Get : string → CSINode + string
}.

(** [csiNodeListerImpl] hands the calls on, with the selector of everything;
    [CSIManagerImpl] holds it. *)
Record CSIManagerImpl := mkCSIManager { csiNodeLister : CSINodeLister }.
Definition NewCSIManager (l : CSINodeLister) : CSIManagerImpl := mkCSIManager l.
Definition CSINodes (m : CSIManagerImpl) : CSINodeLister := csiNodeLister m.

(** [sharedListerImpl] holds two listers of one scheduler cache. *)
Inductive NodeInfoLister := NewNodeInfoLister.
Inductive StorageInfoLister := NewStorageInfoLister.
Record sharedListerImpl := mkSharedLister {
  nodeInfos : NodeInfoLister;
  storageInfos : StorageInfoLister
}.
Definition NewSharedLister : sharedListerImpl := mkSharedLister NewNodeInfoLister NewStorageInfoLister.

Record frameworkHandle := mkHandle {
  sharedLister : sharedListerImpl;
  sharedInformerFactory : Informers;
  clientSet : Clients;
  parallelizer : Parallel;
  csiManager : CSIManagerImpl;
  sharedDRAManager : option DRA
}.

(** [NewFrameworkHandle]; the parallelizer is kube-scheduler's with its default
    parallelism. *)
Definition NewFrameworkHandle (defaultParallelizer : Parallel) (lister : sharedListerImpl)
    (informers : Informers) (clients : Clients) (csi : CSIManagerImpl) (dra : option DRA) : frameworkHandle :=
  mkHandle lister informers clients defaultParallelizer csi dra.

(** What a method returns. *)
Inductive Service :=
  | OfLister (l : sharedListerImpl)
  | OfInformers (i : Informers)
  | OfClients (c : Clients)
  | OfParallelizer (p : Parallel)
  | OfCSI (m : CSIManagerImpl)
  | OfDRA (d : option DRA).

(** [None]: the process ends. *)
Definition handle_method (h : frameworkHandle) (m : HandleMethod) : option Service :=
  match m with
  | SharedCSIManager => Some (OfCSI (csiManager h))
  | SnapshotSharedLister => Some (OfLister (sharedLister h))
  | SharedInformerFactory => Some (OfInformers (sharedInformerFactory h))
  | ClientSet => Some (OfClients (clientSet h))
  | Parallelizer => Some (OfParallelizer (parallelizer h))
  | SharedDRAManager => Some (OfDRA (sharedDRAManager h))
  | AddPodInPreBind | GetPodInPreBind | RemovePodInPreBind | EventRecorder | PodGroupManager | ProfileName
  | SignPod | ResourceClaimCache | AddNominatedPod | DeleteNominatedPodIfExists | UpdateNominatedPod
  | NominatedPodsForNode | RunPreScorePlugins | RunScorePlugins | RunFilterPlugins
  | RunPreFilterExtensionAddPod | RunPreFilterExtensionRemovePod | IterateOverWaitingPods | GetWaitingPod
  | RejectWaitingPod | KubeConfig | RunFilterPluginsWithNominatedPods | Extenders | Activate
  | APIDispatcher | APICacher => None
  end.

(** The lister calls of a plugin. *)
Inductive ListerCall :=
  | PodGroupStates
  | NodeList | HavePodsWithAffinityList | HavePodsWithRequiredAntiAffinityList
  | NodeGet (nodeName : string)
  | PVCUsed (key : string).

(** The nodes of a list are named: the cache maps the names to the shared objects. *)
Inductive Answer :=
  | ANodes (names : list string)
  | ANode (node : NodeInfo + string)
  | ABool (b : bool).

Definition NodeInfoLister_call (l : NodeInfoLister) (call : ListerCall) (c : SchedulerCache) :
    option (Answer * SchedulerCache) :=
  match call with
  | NodeList => let '(l, c) := GetNodesInfo c in Some (ANodes l, c)
  | HavePodsWithAffinityList => let '(l, c) := GetNodesInfoPodsWithAffinity c in Some (ANodes l, c)
  | HavePodsWithRequiredAntiAffinityList =>
      let '(l, c) := GetNodesInfoPodsWithReqAntiAffinity c in Some (ANodes l, c)
  | NodeGet nodeName => Some (ANode (NodeInfos_Get c nodeName), c)
  | _ => None
  end.

Definition StorageInfoLister_call (l : StorageInfoLister) (key : string) (c : SchedulerCache) : Answer :=
  ABool (IsPVCUsedByPods c key).

Definition sharedLister_call (s : sharedListerImpl) (call : ListerCall) (c : SchedulerCache) :
    option (Answer * SchedulerCache) :=
  match call with
  | PodGroupStates => None
  | PVCUsed key => Some (StorageInfoLister_call (storageInfos s) key c, c)
  | _ => NodeInfoLister_call (nodeInfos s) call c
  end.

(** What plugins ask through the handle in the course of a predicate. *)
Inductive PluginCall := AskHandle (m : HandleMethod) | AskLister (call : ListerCall).

Definition plugin_call (h : frameworkHandle) (x : PluginCall) (c : SchedulerCache) :
    option (option Answer * SchedulerCache) :=
  match x with
  | AskHandle m => _ ← handle_method h m; Some (None, c)
  | AskLister call =>
      match handle_method h SnapshotSharedLister with
      | Some (OfLister s) => '(a, c) ← sharedLister_call s call c; Some (Some a, c)
      | _ => None
      end
  end.

Fixpoint plugin_calls (h : frameworkHandle) (xs : list PluginCall) (c : SchedulerCache) :
    option (list (option Answer) * SchedulerCache) :=
  match xs with
  | [] => Some ([], c)
  | x :: xs => '(a, c) ← plugin_call h x c; '(l, c) ← plugin_calls h xs c; Some (a :: l, c)
  end.

(** ** What the plugins see *)

(** The methods that the plugins may use. *)
Definition supported (x : PluginCall) : bool :=
  match x with
  | AskHandle m =>
      bool_decide (m ∈ [SharedCSIManager; SnapshotSharedLister; SharedInformerFactory; ClientSet; Parallelizer;
                        SharedDRAManager])
  | AskLister PodGroupStates => false
  | AskLister _ => true
  end.

(** A call is answered from the pods and the nodes of the cache. *)
Definition answered (c : SchedulerCache) (x : PluginCall) (a : option Answer) : Prop :=
  match x, a with
  | AskHandle _, None => True
  | AskLister NodeList, Some (ANodes l) => NoDup l ∧ ∀ n, n ∈ l ↔ is_Some (nodesMap c !! n)
  | AskLister HavePodsWithAffinityList, Some (ANodes l) =>
      NoDup l ∧ ∀ n, n ∈ l ↔
        ∃ k p, podsMap c !! k = Some p ∧ assignedPods c !! k = Some n ∧ podWithAffinity p = true
  | AskLister HavePodsWithRequiredAntiAffinityList, Some (ANodes l) =>
      NoDup l ∧ ∀ n, n ∈ l ↔
        ∃ k p, podsMap c !! k = Some p ∧ assignedPods c !! k = Some n ∧ podWithRequiredAntiAffinity p = true
  | AskLister (NodeGet n), Some (ANode r) =>
      match r with inl ni => nodesMap c !! n = Some ni | inr e => nodesMap c !! n = None ∧ e = "node not found" end
  | AskLister (PVCUsed key), Some (ABool b) =>
      b = true ↔ ∃ k p, podsMap c !! k = Some p ∧ is_Some (assignedPods c !! k) ∧ key ∈ pod_pvc_keys p
  | _, _ => False
  end.

(** A call changes nothing but the lists that the cache keeps. *)
Definition forget_lists (c : SchedulerCache) : SchedulerCache :=
  set_nodesInfo None (set_nodesInfoPodsWithAffinity None (set_nodesInfoPodsWithReqAntiAffinity None c)).

Lemma forget_lists_get c :
  forget_lists (GetNodesInfo c).2 = forget_lists c ∧
  forget_lists (GetNodesInfoPodsWithAffinity c).2 = forget_lists c ∧
  forget_lists (GetNodesInfoPodsWithReqAntiAffinity c).2 = forget_lists c.
Proof.
  unfold GetNodesInfo, GetNodesInfoPodsWithAffinity, GetNodesInfoPodsWithReqAntiAffinity.
  split_and!; by repeat case_match.
Qed.

Lemma answered_same c c' x a : forget_lists c' = forget_lists c → answered c' x a → answered c x a.
Proof.
  intros Hc. assert (nodesMap c' = nodesMap c ∧ podsMap c' = podsMap c ∧ assignedPods c' = assignedPods c)
    as (Hn & Hp & Ha) by (by injection Hc).
  unfold answered. by rewrite Hn, Hp, Ha.
Qed.

Lemma plugin_call_ok h x c :
  wf c → supported x = true →
  ∃ a c', plugin_call h x c = Some (a, c') ∧ wf c' ∧ forget_lists c' = forget_lists c ∧ answered c x a.
Proof.
  intros Hwf Hs. destruct (forget_lists_get c) as (F1 & F2 & F3).
  pose proof (λ n, node_lists_are_fresh c n Hwf) as Hl.
  destruct (Hl "") as (_ & _ & _ & D1 & D2 & D3).
  destruct x as [m|[| | | |nodeName|key]]; [|done|..].
  - exists None, c. split_and!; [|done..]. destruct m; first [done|by vm_compute in Hs].
  - destruct (GetNodesInfo_ok c Hwf) as (_ & Hwf' & _). exists (Some (ANodes (GetNodesInfo c).1)), (GetNodesInfo c).2.
    split_and!; [cbn; by destruct (GetNodesInfo c)|done|done|]. split; [done|]. apply Hl.
  - destruct (GetNodesInfoPodsWithAffinity_ok c Hwf) as (_ & Hwf' & _).
    exists (Some (ANodes (GetNodesInfoPodsWithAffinity c).1)), (GetNodesInfoPodsWithAffinity c).2.
    split_and!; [cbn; by destruct (GetNodesInfoPodsWithAffinity c)|done|done|]. split; [done|]. apply Hl.
  - destruct (GetNodesInfoPodsWithReqAntiAffinity_ok c Hwf) as (_ & Hwf' & _).
    exists (Some (ANodes (GetNodesInfoPodsWithReqAntiAffinity c).1)), (GetNodesInfoPodsWithReqAntiAffinity c).2.
    split_and!; [cbn; by destruct (GetNodesInfoPodsWithReqAntiAffinity c)|done|done|]. split; [done|]. apply Hl.
  - exists (Some (ANode (NodeInfos_Get c nodeName))), c. split_and!; [done..|].
    cbn. unfold NodeInfos_Get. by destruct (nodesMap c !! nodeName).
  - exists (Some (ABool (IsPVCUsedByPods c key))), c. split_and!; [done..|]. by apply pvc_used_iff_mounted.
Qed.

(** C26: whatever the plugins ask of the handle in the course of a predicate, as long
    as it is supported, every question is answered from the pods and nodes that the
    cache had at the start, and the cache is the same afterwards up to the lists it
    keeps. *)
Theorem plugins_see_the_cache h xs c :
  wf c → Forall (λ x, supported x = true) xs →
  ∃ l c', plugin_calls h xs c = Some (l, c') ∧ wf c' ∧ forget_lists c' = forget_lists c ∧
    Forall2 (answered c) xs l.
Proof.
  intros Hwf Hs. revert c Hwf. induction Hs as [|x xs Hx Hs IH]; intros c Hwf; [by exists [], c|].
  destruct (plugin_call_ok h x c Hwf Hx) as (a & c1 & E1 & Hwf1 & F1 & A1).
  destruct (IH c1 Hwf1) as (l & c2 & E2 & Hwf2 & F2 & A2).
  exists (a :: l), c2. cbn [plugin_calls]. rewrite E1. cbn [mbind option_bind]. rewrite E2.
  split_and!; [done|done|congruence|]. constructor; [done|].
  eapply Forall2_impl; [exact A2|]. intros y b. by apply answered_same.
Qed.

(** Any other question ends the process. *)
Theorem unsupported_call_is_fatal h xs c :
  Exists (λ x, supported x = false) xs → wf c → plugin_calls h xs c = None.
Proof.
  intros Hx. revert c. induction xs as [|x xs IH]; intros c Hwf; [by apply Exists_nil in Hx|].
  cbn [plugin_calls]. destruct (supported x) eqn:Hs.
  - apply Exists_cons in Hx as [Hx|Hx]; [congruence|].
    destruct (plugin_call_ok h x c Hwf Hs) as (a & c1 & -> & Hwf1 & _). cbn [mbind option_bind]. by rewrite IH.
  - assert (plugin_call h x c = None) as ->; [|done]. destruct x as [m|[]]; try done.
    destruct m; first [done|by vm_compute in Hs].
Qed.
End Handle.

(** ** Use *)

Definition example_handle : frameworkHandle :=
  NewFrameworkHandle (Informers := unit) (Clients := unit) (DRA := unit) 16 NewSharedLister tt tt
    (NewCSIManager (CSINode := unit) (mkCSINodeLister (inl []) (λ _, inr "not found"))) None.

Definition example_calls : list PluginCall :=
  [AskHandle Parallelizer; AskLister NodeList; AskLister (NodeGet "n1"); AskLister (PVCUsed "default/data");
   AskLister HavePodsWithRequiredAntiAffinityList].

Lemma plugins_see_the_cache_witness :
  ∃ l c', plugin_calls example_handle example_calls example_cache = Some (l, c') ∧
    Forall2 (answered example_cache) example_calls l ∧ l !! 3 = Some (Some (ABool true)).
Proof.
  destruct (plugins_see_the_cache example_handle example_calls example_cache example_wf) as (l & c' & E & _ & _ & Ha).
  - repeat constructor.
  - exists l, c'. split_and!; [done|done|]. vm_compute in E. by injection E as <- _.
Defined.
