(* ===== verification/SchedulerCallback.v ===== *)
(** * Callbacks from the core and the scheduling loop

    [pkg/cache/scheduler_callback.go], the requests of the scheduler core, and
    the loop of [pkg/shim/scheduler.go].  The responses are records with the
    fields the callbacks read. *)

From S2P Require Import Prelude.
From S2P Require Import GoStrings.
From S2P Require Import K8sApi.
From S2P Require Import Constants.
From S2P Require Import Resource.
From S2P Require Import PodUtils.
From S2P Require Import SiHelper.
From S2P Require Import TaskGroups.
From S2P Require Import SchedulerCache.
From S2P Require Import World.
From S2P Require Import Fsm.
From S2P Require Import ContextPods.
From S2P Require Import Task.
From S2P Require Import Application.
From S2P Require Import ShimContext.

Record AllocationNew := mkAllocationNew {
  an_AllocationKey : string;
  an_ApplicationID : string;
  an_NodeID : string
}.

Record AllocationRejected := mkAllocationRejected {
  ar_AllocationKey : string;
  ar_ApplicationID : string
}.

Record AllocationReleased := mkAllocationReleased {
  al_ApplicationID : string;
  al_AllocationKey : string;
  al_TerminationType : TerminationType
}.

Record AllocationResponse := mkAllocationResponse {
  New : list AllocationNew;
  RejectedAllocations : list AllocationRejected;
  Released : list AllocationReleased
}.

Record UpdatedApplication := mkUpdatedApplication {
  ua_ApplicationID : string;
  ua_State : string;
  ua_Message : string
}.

Record ApplicationResponse := mkApplicationResponse {
  ap_Accepted : list string;
  ap_Rejected : list (string * string);          (* application, reason *)
  ap_Updated : list UpdatedApplication
}.

Record NodeResponse := mkNodeResponse {
  nd_Accepted : list string;
  nd_Rejected : list string
}.

(** A [range] loop whose body can return from the function. *)
Fixpoint for_each_return {A B} (l : list A) (body : A → M (option B)) : M (option B) :=
  match l with
  | [] => mret None
  | a :: l' =>
      r ← body a;
      match r with Some b => mret (Some b) | None => for_each_return l' body end
  end.

Module Callback.
Section Callback.
Context `{SiConstants} `{QuantityOps} `{NodeInfoOps} `{MapOrder} `{TerminationTypes} `{PodHelpers}.
Context `{JsonOps} `{TaskGroupJson} `{Env} `{FsmEngine} `{RetryEngine} (conf : ShimConf).

Definition backOff : Backoff := mkBackoff 30 1 0 30.

Definition newAllocation (alloc : AllocationNew) : M (option string) :=
  found ← getTask (an_ApplicationID alloc) (an_AllocationKey alloc);
  match found with
  | None => mret None
  | Some t =>
      setAllocationKey t (an_AllocationKey alloc);;
      err ← retry_OnError backOff (λ _, true) (AssumePod (an_AllocationKey alloc) (an_NodeID alloc));
      match err with
      | Some err =>
          task ← get_task t;
          if t_placeholder task then
            let wrappedErr :=
              "placeholder task does not have volume bindings, AssumePod failed: " +:+ err in
            failWithEvent t wrappedErr "AssumePodError";;
            mret (Some wrappedErr)
          else
            rollbackOnAssumePodFailure t (an_AllocationKey alloc) (an_NodeID alloc);;
            mret None
      | None =>
          task ← get_task t;
          (if IsAssignedPod (t_pod task)
           then MarkPreviouslyAllocated t (an_AllocationKey alloc) (an_NodeID alloc)
           else dispatch (DTask (an_ApplicationID alloc) (t_taskID task)
                  (AllocatedTaskEvent (an_AllocationKey alloc) (an_NodeID alloc))));;
          mret None
      end
  end.

Definition rejectedAllocation (reject : AllocationRejected) : M unit :=
  dispatch (DTask (ar_ApplicationID reject) (ar_AllocationKey reject)
    (RejectTaskEvent ("task " +:+ ar_AllocationKey reject +:+ " allocation from application "
                      +:+ ar_ApplicationID reject +:+ " is rejected by scheduler"))).

Definition releasedAllocation (release : AllocationReleased) : M unit :=
  ForgetPod (al_AllocationKey release);;
  if bool_decide (al_TerminationType release = STOPPED_BY_RM) then mret tt
  else dispatch (DApp (al_ApplicationID release)
         (ReleaseAppAllocationEvent (al_AllocationKey release)
            (TerminationType_name (al_TerminationType release)))).

Definition UpdateAllocation (response : AllocationResponse) : M (option string) :=
  r ← for_each_return (New response) newAllocation;
  match r with
  | Some err => mret (Some err)
  | None =>
      for_each (RejectedAllocations response) rejectedAllocation;;
      for_each (Released response) releasedAllocation;;
      mret None
  end.

Definition acceptedApplication (appID : string) : M unit :=
  app ← getApplication appID;
  match app with
  | None => mret tt
  | Some a =>
      o ← get_app a;
      dispatch (DApp (a_applicationID o) (SimpleApplicationEvent AcceptApplication))
  end.

Definition rejectedApplication (rejectedApp : string * string) : M unit :=
  app ← getApplication rejectedApp.1;
  match app with
  | None => mret tt
  | Some a =>
      o ← get_app a;
      dispatch (DApp (a_applicationID o) (ApplicationEvent RejectApplication rejectedApp.2))
  end.

Definition updatedApplication (updated : UpdatedApplication) : M unit :=
  if ua_State updated =s "Completed" then removeApplication (ua_ApplicationID updated)
  else if ua_State updated =s "Resuming" then
    app ← getApplication (ua_ApplicationID updated);
    match app with
    | None => mret tt
    | Some a =>
        o ← get_app a;
        if bool_decide (a_state o = AReserving)
        then dispatch (DApp (ua_ApplicationID updated) ResumingApplicationEvent)
        else mret tt
    end
  else if (ua_State updated =s "Failing") || (ua_State updated =s "Failed") then
    dispatch (DApp (ua_ApplicationID updated) (FailApplicationEvent (ua_Message updated)))
  else mret tt.

Definition UpdateApplication (response : ApplicationResponse) : M unit :=
  for_each (ap_Accepted response) acceptedApplication;;
  for_each (ap_Rejected response) rejectedApplication;;
  for_each (ap_Updated response) updatedApplication.

Definition UpdateNode (response : NodeResponse) : M unit :=
  for_each (nd_Accepted response) (λ n, dispatch (DNode n NodeAccepted));;
  for_each (nd_Rejected response) (λ n, dispatch (DNode n NodeRejected)).

Definition SendEvent (eventRecords : list EventRecord) : M unit :=
  if bool_decide (0 < length eventRecords) then Ctx.PublishEvents eventRecords else mret tt.

Definition UpdateContainerSchedulingState (request : UpdateContainerSchedulingStateRequest) : M unit :=
  Ctx.HandleContainerStateUpdate request.

(** ** [KubernetesShim.schedule]: one iteration

    The result is whether outstanding applications were found. *)

Definition GetAllApplications : M (list AppRef) :=
  w ← get_world; mret (go_range (w_applications w)).*2.

Fixpoint schedule_apps (apps : list AppRef) (outstandingAppsFound : bool) : M bool :=
  match apps with
  | [] => mret outstandingAppsFound
  | a :: apps' =>
      app ← get_app a;
      if bool_decide (a_state app = AFailed) then
        done ← AreAllTasksTerminated a;
        (if (done : bool) then removeApplication (a_applicationID app) else mret tt);;
        schedule_apps apps' outstandingAppsFound
      else
        found ← Schedule conf a;
        schedule_apps apps' (outstandingAppsFound || found)
  end.

Definition schedule (outstandingAppsFound : bool) : M bool :=
  apps ← GetAllApplications;
  schedule_apps apps outstandingAppsFound.

End Callback.
End Callback.
