(* ===== verification/Examples.v ===== *)
(** * Concrete surroundings for the closed examples

    Executable instances of the interfaces to the outside of the shim, and
    small worlds with an application and its tasks.  No theorem about the shim
    depends on them. *)

From S2P Require Import Prelude.
From S2P Require Import GoStrings.
From S2P Require Import K8sApi.
From S2P Require Import K8sInstances.
From S2P Require Import Constants.
From S2P Require Import Resource.
From S2P Require Import PodUtils.
From S2P Require Import SiHelper.
From S2P Require Import TaskGroups.
From S2P Require Import SchedulerCache.
From S2P Require Import World.
From S2P Require Import Fsm.
From S2P Require Import ContextPods.
From S2P Require Import Task.
From S2P Require Import Application.

(** Every call succeeds and there are no claims, except the calls [fails]. *)
Definition env_with (fails : Effect → option string) (nodes : list Node) (pods : list Pod) : Env := {|
  call_error := λ _ e, fails e;
  PodVolumeClaims := unit;
  PodVolumes := unit;
  vb_GetPodVolumeClaims := λ _ _, inl tt;
  vb_FindPodVolumes := λ _ _ _ _, inl (Some tt, []);
  vb_AssumePodVolumes := λ _ _ _ _, inl true;
  pvc_Get := λ _ _ name, inl (name, false);
  clock := λ _, 0%Z;
  ns_Get := λ _ name, inl (mkNamespace name ∅);
  pc_List := λ _, inl [];
  node_List := λ _, inl nodes;
  pod_List := λ _, inl pods;
  node_answers := λ _ req, map (λ n, (sn_NodeID n, NodeAccepted)) (nr_Nodes req);
  json_Marshal := λ _, None
|}.

Definition env_ok : Env := env_with (λ _, None) [] [].

Definition termination_name_ref (t : TerminationType) : string :=
  match t with
  | STOPPED_BY_RM => "STOPPED_BY_RM"
  | TIMEOUT => "TIMEOUT"
  | SCHEDULING_FAILED_ON_RM => "SCHEDULING_FAILED_ON_RM"
  | OtherTermination _ => ""
  end.

#[export] Instance termination_types_ref : TerminationTypes.
Proof.
  refine {|
    TerminationType_name := termination_name_ref;
    TerminationType_value := λ s,
      if s =s "STOPPED_BY_RM" then Some STOPPED_BY_RM
      else if s =s "TIMEOUT" then Some TIMEOUT
      else if s =s "SCHEDULING_FAILED_ON_RM" then Some SCHEDULING_FAILED_ON_RM else None |}.
  by intros [].
Defined.

#[export] Instance pod_helpers_ref : PodHelpers := {
  GetPodCondition st ty := snd <$> list_find (λ c, cond_Type c = ty) (st_Conditions st);
  podutil_UpdatePodCondition st c :=
    (mkPodStatus (st_Phase st) (st_Reason st) (st_Message st) (st_Resize st)
       (c :: filter (λ c', cond_Type c' ≠ cond_Type c) (st_Conditions st))
       (st_ContainerStatuses st) (st_InitContainerStatuses st), true)
}.

Definition conf_ref : ShimConf := mkShimConf false false "pause" 0 0 0.

(** A task of the application at [app]. *)
Definition task_ref (id : string) (app : AppRef) (s : TaskState) (placeholder : bool)
    (group : string) : Task :=
  mkTask id ("default/" +:+ id) "app-1" app (status_ref PodPending) 0 placeholder false s "" ""
    group "" TaskSchedPending ∅ (pod_ref id id "" PodPending ∅ []).

Definition group_ref (name : string) (members : Z) : TaskGroup :=
  mkTaskGroup name members None None None ∅ [] None [].

(** An application with tasks. *)
Definition app_ref (s : AppState) (tasks : gmap string TaskRef) (groups : list TaskGroup) :
    Application :=
  mkApplication "app-1" "root.default" DefaultPartition "nobody" [] tasks ∅ groups "" "" [] s None
    0 SchedulingPolicyStyleParamDefault None [] true.

(** A world with the application at 0 and its tasks at 1, 2, ... *)
Definition world_ref (s : AppState) (groups : list TaskGroup) (tasks : list Task)
    (c : SchedulerCache) : World :=
  mkWorld (list_to_map (zip (seq 1 (length tasks)) tasks))
    (<[0 := app_ref s (list_to_map (zip (map t_taskID tasks) (seq 1 (length tasks)))) groups]> ∅)
    (<["app-1" := 0]> ∅) c (S (length tasks)) [].

(** Enumerates what a lookup in a concrete heap can give. *)
Ltac heap_cases H :=
  apply elem_of_map_to_list in H; vm_compute in H;
  repeat (apply elem_of_cons in H as [H|H]);
  [ injection H as -> -> .. | by apply elem_of_nil in H ].
