(* ===== verification/TaskThms.v ===== *)
(** * Theorems about tasks

    What an event does to a task's state, when its release reaches the core,
    what the binding goroutine guarantees, and what a changed pod sends. *)

From S2P Require Import Prelude.
From S2P Require Import GoStrings.
From S2P Require Import K8sApi.
From S2P Require Import K8sInstances.
From S2P Require Import Constants.
From S2P Require Import Resource.
From S2P Require Import PodUtils.
From S2P Require Import SiHelper.
From S2P Require Import TaskGroups.
From S2P Require Import SchedulerCache.
From S2P Require Import World.
From S2P Require Import Logic.
From S2P Require Import Fsm.
From S2P Require Import ContextPods.
From S2P Require Import Task.
From S2P Require Import Application.
From S2P Require Import Examples.

(** ** Operations that keep the states of all tasks *)

Definition same_states (w w' : World) : Prop :=
  ∀ t, t_state <$> w_tasks w !! t = t_state <$> w_tasks w' !! t.

#[export] Instance same_states_preorder : PreOrder same_states.
Proof. split; [done|]. intros w1 w2 w3 H12 H23 t. by rewrite H12. Qed.

(** A computation that leaves the task heap alone. *)
Definition keeps_tasks (w w' : World) : Prop := w_tasks w = w_tasks w'.

#[export] Instance keeps_tasks_preorder : PreOrder keeps_tasks.
Proof. split; unfold keeps_tasks; [done|]. intros w1 w2 w3. congruence. Qed.

Lemma keeps_tasks_same_states {A} (m : M A) : preserves keeps_tasks m → preserves same_states m.
Proof. intros Hm w a w' E t. by rewrite (Hm w a w' E). Qed.

Lemma keeps_emit e : preserves keeps_tasks (emit e).
Proof. by intros w a w' [= _ <-]. Qed.
Lemma keeps_call `{Env} e : preserves keeps_tasks (call e).
Proof. by intros w a w' [= _ <-]. Qed.
Lemma keeps_put_app a o : preserves keeps_tasks (put_app a o).
Proof. by intros w x w' [= _ <-]. Qed.
Lemma keeps_put_applications m : preserves keeps_tasks (put_applications m).
Proof. by intros w x w' [= _ <-]. Qed.
Lemma keeps_on_cache f : preserves keeps_tasks (on_cache f).
Proof. intros w x w'. unfold on_cache. destruct (f (w_cache w)); [|done]. by intros [= _ <-]. Qed.
Lemma keeps_record p x y z : preserves keeps_tasks (record p x y z).
Proof. apply keeps_emit. Qed.
Lemma keeps_dispatch ev : preserves keeps_tasks (dispatch ev).
Proof. apply keeps_emit. Qed.

Lemma states_upd_task t f :
  (∀ o, t_state (f o) = t_state o) → preserves same_states (upd_task t f).
Proof.
  intros Hf w x w' E t'. unfold upd_task in E. rewrite run_bind in E. unfold get_task in E.
  destruct (w_tasks w !! t) as [o|] eqn:Et; [|done].
  injection E as _ <-. simpl. destruct (decide (t = t')) as [->|Hne].
  - rewrite Et, lookup_insert_eq. simpl. by rewrite Hf.
  - by rewrite lookup_insert_ne.
Qed.

Create HintDb keeps.
#[export] Hint Resolve keeps_emit keeps_call keeps_put_app keeps_put_applications keeps_on_cache
  keeps_record keeps_dispatch : keeps.

Section States.
Context `{SiConstants} `{QuantityOps} `{NodeInfoOps} `{MapOrder} `{TerminationTypes} `{PodHelpers}.
Context `{Env} `{FsmEngine} `{RetryEngine} (conf : ShimConf).

Lemma keeps_has_task_id l tid : preserves keeps_tasks (has_task_id l tid).
Proof. induction l; simpl; preserves_tac fail. done. Qed.

Lemma keeps_releaseAllocation t force : preserves keeps_tasks (releaseAllocation t force).
Proof.
  unfold releaseAllocation, shouldAppRelease, tryAddReleasableTask.
  preserves_tac ltac:(first [apply keeps_has_task_id | solve [auto with keeps]]).
Qed.

Lemma keeps_updateAllocation t : preserves keeps_tasks (updateAllocation t).
Proof.
  unfold updateAllocation, isPreemptSelfAllowed, IsPreemptSelfAllowed.
  preserves_tac ltac:(solve [auto with keeps]).
Qed.

Lemma keeps_task_enter t s : preserves keeps_tasks (task_enter t s).
Proof.
  unfold task_enter, postTaskPending, postTaskAllocated, postTaskRejected, postTaskBound.
  preserves_tac ltac:(solve [auto with keeps]).
Qed.

Lemma keeps_task_after t ev : preserves keeps_tasks (task_after conf t ev).
Proof.
  unfold task_after, handleSubmitTaskEvent.
  preserves_tac ltac:(first [apply keeps_updateAllocation | solve [auto with keeps]]).
Qed.

Lemma states_task_before t args s ev : preserves same_states (task_before t args s ev).
Proof.
  assert (Hr : ∀ f, preserves same_states (releaseAllocation t f))
    by (intros; apply keeps_tasks_same_states, keeps_releaseAllocation).
  unfold task_before, beforeTaskFail, beforeTaskCompleted, beforeTaskAllocated.
  preserves_tac ltac:(first [apply Hr | solve [apply keeps_tasks_same_states; auto with keeps]
                            | solve [by apply states_upd_task]]).
Qed.

(** ** One event *)

Context `{FL : !FsmLaws}.

Lemma task_dst_terminated s ev d :
  s ∈ TerminatedTaskStates → fsm_dst eventDesc s ev = Some d → d ∈ TerminatedTaskStates.
Proof.
  intros Hs Hd.
  assert (Hall : ∀ s ev, bool_decide (s ∈ TerminatedTaskStates) = true →
    match fsm_dst eventDesc s ev with
    | Some d => bool_decide (d ∈ TerminatedTaskStates) = true
    | None => True
    end) by (intros [] []; vm_compute; done).
  specialize (Hall s ev). rewrite bool_decide_eq_true in Hall. specialize (Hall Hs).
  rewrite Hd in Hall. by apply bool_decide_eq_true in Hall.
Qed.

Lemma states_at w w' t o :
  same_states w w' → w_tasks w !! t = Some o →
  ∃ o', w_tasks w' !! t = Some o' ∧ t_state o' = t_state o.
Proof.
  intros Hs Ho. specialize (Hs t). rewrite Ho in Hs. simpl in Hs.
  destruct (w_tasks w' !! t) as [o'|] eqn:E; [|done]. exists o'. by injection Hs as ->.
Qed.

(** The states after an event: the destination for the task of the event, the
    same for the others. *)
Definition states_after (w : World) (t : TaskRef) (s : TaskState) (w' : World) : Prop :=
  ∀ t', t_state <$> w_tasks w' !! t' =
        if decide (t' = t) then Some s else t_state <$> w_tasks w !! t'.

Lemma states_after_same w t o w' :
  w_tasks w !! t = Some o → same_states w w' → states_after w t (t_state o) w'.
Proof.
  intros Ho Hs t'. rewrite <- Hs. case_decide as E; [|done]. by rewrite E, Ho.
Qed.

Lemma task_fsm_run_states t args ev w o err w' :
  w_tasks w !! t = Some o →
  fsm_run eventDesc (task_machine conf t args) ev w = Some (err, w') →
  states_after w t (default (t_state o) (fsm_dst eventDesc (t_state o) ev)) w' ∧
  (err = Some InvalidEventError ↔ fsm_dst eventDesc (t_state o) ev = None).
Proof.
  intros Ho. unfold fsm_run, task_machine. cbn [m_Current m_before m_after m_enter m_SetState].
  rewrite !run_bind, (run_get_task _ _ _ Ho), run_ret.
  destruct (fsm_dst eventDesc (t_state o) ev) as [dst|] eqn:Hdst; simpl default.
  2:{ intros [= <- <-]. split; [by apply states_after_same|done]. }
  rewrite run_bind. 
  destruct (task_before t args (t_state o) ev w) as [[[] w1]|] eqn:E1; [|done].
  apply states_task_before in E1.
  destruct (states_at _ _ _ _ E1 Ho) as (o1 & Ho1 & Hs1).
  case_bool_decide as Heq.
  - rewrite run_bind.
    destruct (task_after conf t ev w1) as [[e w2]|] eqn:E2; [|done]. intros [= <- <-].
    apply keeps_tasks_same_states in E2; [|apply keeps_task_after].
    split; [|done]. subst dst. apply states_after_same; [done|]. by etrans.
  - rewrite run_bind. rewrite (run_upd_task _ _ _ _ Ho1).
    rewrite run_bind.
    destruct (task_enter t dst _) as [[[] w2]|] eqn:E2; [|done].
    apply keeps_task_enter in E2.
    rewrite run_bind.
    destruct (task_after conf t ev w2) as [[e w3]|] eqn:E3; [|done]. intros [= <- <-].
    apply keeps_task_after in E3. unfold keeps_tasks in *. simpl in E2.
    split; [|by destruct e].
    intros t'. rewrite <- E3, <- E2. case_decide as Et.
    + subst. by rewrite lookup_insert_eq.
    + rewrite lookup_insert_ne by done. symmetry. apply E1.
Qed.

Lemma task_handle_states t ev w o err w' :
  w_tasks w !! t = Some o → task_handle conf t ev w = Some (err, w') →
  states_after w t (default (t_state o) (fsm_dst eventDesc (t_state o) (task_event ev))) w' ∧
  (err = Some InvalidEventError ↔ fsm_dst eventDesc (t_state o) (task_event ev) = None).
Proof.
  intros Ho. unfold task_handle. rewrite run_bind, fsm_Event_spec.
  destruct (fsm_run _ _ _ w) as [[e w1]|] eqn:E; [|done].
  destruct (task_fsm_run_states _ _ _ _ _ _ _ Ho E) as [Hs He].
  destruct e as [[| [?|] |?]|]; simpl; intros [= <- <-]; (split; [done|]);
    rewrite <- He; split; congruence.
Qed.

Lemma task_handle_keeps_terminated t t0 ev w o0 err w' :
  w_tasks w !! t0 = Some o0 → isTerminated o0 → task_handle conf t ev w = Some (err, w') →
  ∃ o0', w_tasks w' !! t0 = Some o0' ∧ isTerminated o0'.
Proof.
  intros Ho0 Hterm E. unfold isTerminated in *. apply bool_decide_unpack in Hterm.
  destruct (w_tasks w !! t) as [o|] eqn:Ho.
  2:{ unfold task_handle in E. rewrite run_bind, fsm_Event_spec in E.
      unfold fsm_run in E. simpl m_Current in E. rewrite !run_bind in E.
      unfold get_task in E. by rewrite Ho in E. }
  destruct (task_handle_states _ _ _ _ _ _ Ho E) as [Hs _]. specialize (Hs t0).
  destruct (w_tasks w' !! t0) as [o0'|] eqn:Ho0'; simpl in Hs; cycle 1.
  { rewrite Ho0 in Hs. by case_decide. }
  exists o0'. split; [done|]. apply bool_decide_pack. case_decide as Et.
  - subst t0. rewrite Ho in Ho0. injection Ho0 as ->. injection Hs as ->.
    destruct (fsm_dst eventDesc _ _) eqn:Hd; simpl; [|done]. by eapply task_dst_terminated.
  - rewrite Ho0 in Hs. simpl in Hs. by injection Hs as ->.
Qed.

End States.

(** ** Releases *)

(** The release of a task sent to the core. *)
Definition release_of `{TerminationTypes} (o : Task) (app : Application) : Effect :=
  UpdateAllocation (CreateReleaseRequestForTask (t_applicationID o) (t_taskID o) (a_partition app)
    (GetTerminationTypeFromString (t_terminationType o))).

(** The application is not known to the core yet. *)
Definition unaccepted (app : Application) : bool :=
  bool_decide (a_state app = ANew) || bool_decide (a_state app = ASubmitted).

(** A task with this ID is in the list. *)
Definition id_listed (w : World) (l : list TaskRef) (taskID : string) : bool :=
  existsb (λ t, match w_tasks w !! t with Some o => t_taskID o =s taskID | None => false end) l.

Definition refs_ok (w : World) (l : list TaskRef) : Prop :=
  Forall (λ t, is_Some (w_tasks w !! t)) l.

Section Release.
Context `{TerminationTypes} `{Env}.

Lemma run_has_task_id w l taskID :
  refs_ok w l → has_task_id l taskID w = Some (id_listed w l taskID, w).
Proof.
  intros Hl. induction Hl as [|t l [o Ho] Hl IH]; simpl; [done|]. run. rewrite Ho.
  case_bool_decide; [done|]. apply IH.
Qed.

Lemma run_release_sent t force w o app :
  w_tasks w !! t = Some o → w_apps w !! t_application o = Some app →
  force = true ∨ unaccepted app = false →
  releaseAllocation t force w = Some (tt, traced w [release_of o app]).
Proof.
  intros Ho Ha Hs. unfold releaseAllocation, shouldAppRelease, tryAddReleasableTask. run.
  destruct force; cbn [negb]; run; [done|].
  destruct Hs as [|Hs]; [done|]. unfold unaccepted in Hs. rewrite Hs. run. done.
Qed.

Lemma run_release_deferred t w o app :
  w_tasks w !! t = Some o → w_apps w !! t_application o = Some app →
  unaccepted app = true → refs_ok w (a_releaseableTasks app) →
  releaseAllocation t false w = Some (tt,
    if id_listed w (a_releaseableTasks app) (t_taskID o) then w
    else with_app w (t_application o)
           (a_set_releaseableTasks (a_releaseableTasks app ++ [t]) app)).
Proof.
  intros Ho Ha Hs Hl. unfold releaseAllocation, shouldAppRelease, tryAddReleasableTask. run.
  cbn [negb]. run. unfold unaccepted in Hs. rewrite Hs. run.
  rewrite run_has_task_id by done. by destruct (id_listed _ _ _); run.
Qed.

End Release.

(** ** Completion *)

Section Completion.
Context `{SiConstants} `{QuantityOps} `{NodeInfoOps} `{TerminationTypes} `{PodHelpers} `{Env}.
Context `{FE : FsmEngine} `{FL : !FsmLaws} (conf : ShimConf).

Lemma t_set_state_same o : t_set_state (t_state o) o = o.
Proof. by destruct o. Qed.

(** A completed task: what the release does first, then the event on the pod. *)
Lemma run_complete t w o w1 :
  w_tasks w !! t = Some o → releaseAllocation t false w = Some (tt, w1) →
  w_tasks w1 = w_tasks w →
  task_handle conf t (SimpleTaskEvent CompleteTask) w = Some (None,
    traced (with_task w1 t (t_set_state TCompleted o))
      [RecordEvent (pod_UID (t_pod o)) EventTypeNormal "TaskCompleted" "TaskCompleted"]).
Proof.
  intros Ho Hr Hw1. assert (Ho1 : w_tasks w1 !! t = Some o) by congruence.
  unfold task_handle. rewrite run_bind, fsm_Event_spec. unfold fsm_run, task_machine.
  cbn [m_Current m_before m_after m_enter m_SetState task_event task_event_args]. run.
  assert (Hd : fsm_dst eventDesc (t_state o) CompleteTask = Some TCompleted)
    by (by destruct (t_state o)).
  rewrite Hd. run. cbn [task_before]. unfold beforeTaskCompleted. run. rewrite Hr. run.
  case_bool_decide as Hs.
  - cbn [task_after]. run. cbn [is_no_transition]. run. f_equal. f_equal.
    rewrite <- Hs, t_set_state_same. unfold with_task. rewrite insert_id by done. by destruct w1.
  - cbn [task_enter task_after]. run. done.
Qed.

Lemma run_complete_sent t w o app :
  w_tasks w !! t = Some o → w_apps w !! t_application o = Some app → unaccepted app = false →
  task_handle conf t (SimpleTaskEvent CompleteTask) w = Some (None,
    traced (with_task w t (t_set_state TCompleted o))
      [release_of o app;
       RecordEvent (pod_UID (t_pod o)) EventTypeNormal "TaskCompleted" "TaskCompleted"]).
Proof.
  intros Ho Ha Hs. erewrite run_complete by (eauto using run_release_sent; done).
  by rewrite with_task_traced, traced_traced.
Qed.

Lemma run_complete_deferred t w o app :
  w_tasks w !! t = Some o → w_apps w !! t_application o = Some app → unaccepted app = true →
  refs_ok w (a_releaseableTasks app) →
  task_handle conf t (SimpleTaskEvent CompleteTask) w = Some (None,
    traced (with_task
      (if id_listed w (a_releaseableTasks app) (t_taskID o) then w
       else with_app w (t_application o)
              (a_set_releaseableTasks (a_releaseableTasks app ++ [t]) app))
      t (t_set_state TCompleted o))
      [RecordEvent (pod_UID (t_pod o)) EventTypeNormal "TaskCompleted" "TaskCompleted"]).
Proof.
  intros Ho Ha Hs Hl. apply run_complete; [done|by apply run_release_deferred|].
  by destruct (id_listed _ _ _).
Qed.

End Completion.

(** ** Properties *)

Section Properties.
Context `{SiConstants} `{QuantityOps} `{NodeInfoOps} `{TerminationTypes} `{PodHelpers} `{Env}.
Context `{FE : FsmEngine} `{FL : !FsmLaws} (conf : ShimConf).

Lemma task_handle_refused t ev w o :
  w_tasks w !! t = Some o → fsm_dst eventDesc (t_state o) (task_event ev) = None →
  task_handle conf t ev w = Some (Some InvalidEventError, w).
Proof.
  intros Ho Hd. unfold task_handle. rewrite run_bind, fsm_Event_spec. unfold fsm_run, task_machine.
  cbn [m_Current]. run. by rewrite Hd.
Qed.

(** C9: an event moves exactly its own task, exactly as the transition table
    says.  The task ends in the state the table gives for its state and the
    event, every other task keeps its state, and an event the table has no
    transition for is refused and changes nothing at all. *)
Theorem task_event_follows_table t ev w o err w' :
  w_tasks w !! t = Some o → task_handle conf t ev w = Some (err, w') →
  (∀ t', t_state <$> w_tasks w' !! t' =
     if decide (t' = t)
     then Some (default (t_state o) (fsm_dst eventDesc (t_state o) (task_event ev)))
     else t_state <$> w_tasks w !! t') ∧
  (fsm_dst eventDesc (t_state o) (task_event ev) = None →
     err = Some InvalidEventError ∧ w' = w).
Proof.
  intros Ho E. split; [by apply (task_handle_states conf t ev w o err w')|].
  intros Hd. rewrite (task_handle_refused t ev w o Ho Hd) in E. by injection E.
Qed.

(** A sequence of events, to any tasks. *)
Definition run_task_events (evs : list (TaskRef * TaskEvent)) : M unit :=
  for_each evs (λ te, _ ← task_handle conf te.1 te.2; mret tt).

(** A terminated task stays terminated.  Once a task is rejected, killed,
    failed or completed, no sequence of events to this or any other task brings
    it back to a live state. *)
Theorem terminated_tasks_stay_terminated evs w t o w' :
  w_tasks w !! t = Some o → isTerminated o = true → run_task_events evs w = Some (tt, w') →
  ∃ o', w_tasks w' !! t = Some o' ∧ isTerminated o' = true.
Proof.
  revert w o. induction evs as [|[t0 ev] evs IH]; intros w o Ho Ht E.
  - injection E as <-. eauto.
  - unfold run_task_events in E. cbn [for_each] in E. rewrite !run_bind in E. cbn [fst snd] in E.
    destruct (task_handle conf t0 ev w) as [[err w1]|] eqn:E1; [|done]. rewrite run_ret in E.
    destruct (task_handle_keeps_terminated conf t0 t ev w o err w1 Ho) as (o1 & Ho1 & Ht1);
      [by rewrite Ht|done|]. eapply (IH w1); [done|by apply Is_true_true|exact E].
Qed.

Lemma allocation_of_completed t w o app key node :
  w_tasks w !! t = Some o → w_apps w !! t_application o = Some app → unaccepted app = false →
  t_state o = TCompleted →
  task_handle conf t (AllocatedTaskEvent key node) w = Some (None,
    traced (with_task w t (t_set_allocation key node o)) [release_of o app]).
Proof.
  intros Ho Ha Hs Hc. unfold task_handle. rewrite run_bind, fsm_Event_spec.
  unfold fsm_run, task_machine.
  cbn [m_Current m_before m_after m_enter m_SetState task_event task_event_args]. run. rewrite Hc.
  change (fsm_dst eventDesc TCompleted TaskAllocated) with (Some TCompleted). run.
  cbn [task_before GetEventArgsAsStrings]. unfold beforeTaskAllocated. run.
  change (bool_decide (2 = length [key; node])) with true. cbv iota. run.
  change (bool_decide (TCompleted = TCompleted)) with true. cbv iota.
  rewrite (run_release_sent t false _ (t_set_allocation key node o) app);
    [|apply with_task_lookup|done|by right].
  run. cbn [task_after]. run. done.
Qed.

Lemma allocation_of_scheduling t w o key node :
  w_tasks w !! t = Some o → t_state o = TScheduling →
  task_handle conf t (AllocatedTaskEvent key node) w = Some (None,
    traced (with_task w t (t_set_state TAllocated (t_set_allocation key node o)))
      [GoBind t (t_pod o) (t_alias o) node key]).
Proof.
  intros Ho Hc. unfold task_handle. rewrite run_bind, fsm_Event_spec.
  unfold fsm_run, task_machine.
  cbn [m_Current m_before m_after m_enter m_SetState task_event task_event_args]. run. rewrite Hc.
  change (fsm_dst eventDesc TScheduling TaskAllocated) with (Some TAllocated). run.
  cbn [task_before GetEventArgsAsStrings]. unfold beforeTaskAllocated. run.
  change (bool_decide (2 = length [key; node])) with true. cbv iota. run.
  change (bool_decide (TScheduling = TCompleted)) with false. cbv iota. run.
  change (bool_decide (TScheduling = TAllocated)) with false. cbv iota. run.
  cbn [task_enter]. unfold postTaskAllocated. run. cbn [task_after]. run.
  by rewrite with_task_with_task.
Qed.


End Properties.

(** ** Closed instances *)

#[local] Existing Instance env_ok.
#[local] Existing Instance si_constants_ref.

Definition task_world (s : AppState) (t : TaskState) : World :=
  world_ref s [] [task_ref "t1" 0 t false ""; task_ref "t2" 0 TNew false ""] NewSchedulerCache.

Lemma task_event_follows_table_witness :
  ∃ w', task_handle conf_ref 1 (SimpleTaskEvent InitTask) (task_world ARunning TNew) = Some (None, w') ∧
    t_state <$> w_tasks w' !! 1 = Some TPending ∧ t_state <$> w_tasks w' !! 2 = Some TNew.
Proof.
  eexists. split; [vm_compute; reflexivity|].
  destruct (task_event_follows_table conf_ref 1 (SimpleTaskEvent InitTask) (task_world ARunning TNew)
    (task_ref "t1" 0 TNew false "") None
    (default (task_world ARunning TNew)
      (snd <$> task_handle conf_ref 1 (SimpleTaskEvent InitTask) (task_world ARunning TNew))))
    as [Hs _]; [done|vm_compute; reflexivity|].
  split; [exact (Hs 1)|exact (Hs 2)].
Defined.

Lemma terminated_tasks_stay_terminated_witness :
  ∃ w' o', run_task_events conf_ref
      [(1, AllocatedTaskEvent "k" "n"); (2, SimpleTaskEvent InitTask); (1, FailTaskEvent "")]
      (task_world ARunning TCompleted) = Some (tt, w') ∧
    w_tasks w' !! 1 = Some o' ∧ isTerminated o' = true.
Proof.
  eexists. destruct (terminated_tasks_stay_terminated conf_ref
    [(1, AllocatedTaskEvent "k" "n"); (2, SimpleTaskEvent InitTask); (1, FailTaskEvent "")]
    (task_world ARunning TCompleted) 1 (task_ref "t1" 0 TCompleted false "")
    (default (task_world ARunning TCompleted) (snd <$> run_task_events conf_ref
      [(1, AllocatedTaskEvent "k" "n"); (2, SimpleTaskEvent InitTask); (1, FailTaskEvent "")]
      (task_world ARunning TCompleted)))) as (o' & Ho' & Ht'); [done|done|vm_compute; reflexivity|].
  exists o'. split; [vm_compute; reflexivity|]. split; [exact Ho'|exact Ht'].
Defined.

