(* ===== verification/BindThms.v ===== *)
(** * Binding: what the goroutine of an allocated task guarantees

    Volume and pod binding are retried a bounded number of times; either the
    pod is bound and the task is told so, or the allocation is rolled back: the
    pod is forgotten in the scheduler cache, the core gets the failed
    allocation back and the task accepts a new one. *)

From S2P Require Import Prelude.
From S2P Require Import GoStrings.
From S2P Require Import K8sApi.
From S2P Require Import K8sInstances.
From S2P Require Import Constants.
From S2P Require Import Resource.
From S2P Require Import PodUtils.
From S2P Require Import SiHelper.
From S2P Require Import TaskGroups.
From S2P Require Import SchedulerCache.
From S2P Require Import SchedulerCacheInv.
From S2P Require Import SchedulerCacheOps.
From S2P Require Import SchedulerCacheThms.
From S2P Require Import World.
From S2P Require Import Logic.
From S2P Require Import Fsm.
From S2P Require Import ContextPods.
From S2P Require Import Task.
From S2P Require Import Application.
From S2P Require Import Examples.
From S2P Require Import TaskThms.

(** What the shim relies on when it uses the volume binder: without an error
    and without conflict reasons, [FindPodVolumes] returns volumes. *)
Class VolumeBinderLaws `{Env} : Prop := {
  FindPodVolumes_volumes tr pod claims node :
    vb_FindPodVolumes tr pod claims node ≠ inl (None, [])
}.

(** ** Retries *)

Definition is_sleep (e : Effect) : bool := match e with Sleep _ => true | _ => false end.

(** What is tried, without the waits. *)
Definition tries (l : list Effect) : list Effect := filter (λ e, is_sleep e = false) l.

Lemma tries_app l l' : tries (l ++ l') = tries l ++ tries l'.
Proof. apply filter_app. Qed.

Lemma tries_length l : length (tries l) <= length l.
Proof. apply length_filter. Qed.

(** A computation that only sends, at most one effect, of the kind [S]. *)
Definition one_attempt (S : Effect → Prop) (fn : M (option string)) : Prop :=
  ∀ w, ∃ r l, fn w = Some (r, traced w l) ∧ Forall S l ∧ length l <= 1.

Definition retried (S : Effect → Prop) (e : Effect) : Prop := S e ∨ is_sleep e = true.

Lemma run_wait (waits : list Z) w :
  ∃ l, match waits with d :: _ => emit (Sleep d) | [] => mret tt end w = Some (tt, traced w l) ∧
    Forall (λ e, is_sleep e = true) l ∧ tries l = [].
Proof.
  destruct waits as [|d waits].
  - exists []. by rewrite traced_nil.
  - exists [Sleep d]. split_and!; [done|by repeat constructor|done].
Qed.

Lemma retry_run_spec S n waits retriable fn w :
  one_attempt S fn → 0 < n →
  ∃ r l, retry_run n waits retriable fn w = Some (r, traced w l) ∧
    Forall (retried S) l ∧ length (tries l) <= n ∧
    (r = None → ∃ l1 l2, l = l1 ++ l2 ∧ fn (traced w l1) = Some (None, traced w l)).
Proof.
  intros Hfn. revert waits w. induction n as [|n IH]; [lia|]. intros waits w _. cbn [retry_run].
  rewrite run_bind. destruct (Hfn w) as (r & l & E & HS & Hl). rewrite E.
  pose proof (tries_length l) as Htl.
  assert (HS' : Forall (retried S) l) by (eapply Forall_impl; [exact HS|by left]).
  destruct r as [err|].
  2:{ exists None, l. split_and!; [done..|lia|]. intros _. exists [], l. by rewrite traced_nil. }
  destruct (retriable err).
  2:{ exists (Some err), l. split_and!; [done..|lia|done]. }
  rewrite run_bind. destruct (run_wait waits (traced w l)) as (lw & -> & Hlw & Htw).
  assert (HSw : Forall (retried S) (l ++ lw))
    by (apply Forall_app; split; [done|eapply Forall_impl; [exact Hlw|by right]]).
  rewrite traced_traced. destruct n as [|n].
  - exists (Some err), (l ++ lw). split_and!; [done..| |done].
    rewrite tries_app, length_app, Htw. simpl. lia.
  - destruct (IH (tail waits) (traced w (l ++ lw)) ltac:(lia)) as (r & l' & E' & HS2 & Hl' & Hok).
    rewrite E', traced_traced. exists r, ((l ++ lw) ++ l').
    split_and!; [done|by apply Forall_app| |].
    + rewrite !tries_app, !length_app, Htw. simpl. lia.
    + intros Hr. destruct (Hok Hr) as (l1 & l2 & -> & E2). exists ((l ++ lw) ++ l1), l2.
      rewrite !traced_traced in E2. by rewrite <- (app_assoc (l ++ lw)).
Qed.

(** The attempts and the waits (in seconds) of the shim's backoff. *)
Lemma retryBackoff_attempts :
  backoff_attempts (bo_Steps retryBackoff) (bo_Duration retryBackoff) (bo_Factor retryBackoff)
    (bo_Cap retryBackoff) = 5.
Proof. done. Qed.

Lemma retryBackoff_waits :
  backoff_waits (bo_Steps retryBackoff) (bo_Duration retryBackoff) (bo_Factor retryBackoff)
    (bo_Cap retryBackoff) = [1; 2; 4; 8; 16]%Z.
Proof. done. Qed.

Section Bind.
Context `{SiConstants} `{QuantityOps} `{NIO : NodeInfoOps} `{NIL : !NodeInfoLaws} `{MapOrder}.
Context `{TerminationTypes} `{PodHelpers} `{EV : Env} `{VL : !VolumeBinderLaws}.
Context `{FE : FsmEngine} `{FL : !FsmLaws} `{RE : RetryEngine} `{RL : !RetryLaws} (conf : ShimConf).

Definition is_volume_bind (e : Effect) : Prop := ∃ p, e = BindPodVolumes p.

Lemma bindPodVolumes_attempt pod : one_attempt is_volume_bind (bindPodVolumes pod).
Proof.
  intros w. unfold bindPodVolumes. rewrite run_bind. cbn [get_world].
  assert (Hret : ∀ r, ∃ r' l, (mret r : M (option string)) w = Some (r', traced w l) ∧
    Forall is_volume_bind l ∧ length l <= 1).
  { intros r. exists r, []. rewrite traced_nil. split_and!; [done..|simpl; lia]. }
  destruct (GetPod _ _) as [assumed|]; [|apply Hret].
  destruct (ArePodVolumesAllBound _ _); [apply Hret|]. rewrite run_bind. unfold ask at 1.
  destruct (vb_GetPodVolumeClaims _ _) as [claims|?]; [|apply Hret].
  destruct (GetNodeInfo _ _) as [node|]; [|apply Hret]. rewrite run_bind. unfold ask.
  destruct (vb_FindPodVolumes _ _ _ _) as [[volumes reasons]|?] eqn:Ef; [|apply Hret].
  case_bool_decide as Hr; [apply Hret|].
  destruct reasons; [|simpl in Hr; lia]. destruct volumes as [v|].
  - exists (call_error (w_trace w) (BindPodVolumes assumed)), [BindPodVolumes assumed].
    split_and!; [done| |simpl; lia]. repeat constructor. by exists assumed.
  - by apply FindPodVolumes_volumes in Ef.
Qed.

Lemma KubeBind_attempt pod node : one_attempt (λ e, e = KubeBind pod node) (call (KubeBind pod node)).
Proof.
  intros w. rewrite run_call. eexists _, [KubeBind pod node].
  split_and!; [done| |simpl; lia]. by repeat constructor.
Qed.

(** ** Rollback *)

Lemma cached_pod_valid c k p : wf c → podsMap c !! k = Some p → pod_valid c p.
Proof.
  intros [Hg _] Hp. destruct (wf_pod _ _ _ _ _ _ _ _ _ Hg _ _ Hp) as (<- & Hne & _).
  split; [done|]. intros cur. rewrite Hp. by intros [= <-].
Qed.

(** Forgetting what the cache knows about a pod key. *)
Definition spec_forgetKey (key : string) (a : AbsCache) : AbsCache :=
  match a_pods a !! key with Some p => spec_forgetPod p a | None => a end.

Lemma run_ForgetPod key w :
  wf (w_cache w) →
  ∃ c', ForgetPod key w = Some (tt, with_cache w c') ∧ wf c' ∧
    abs c' = spec_forgetKey key (abs (w_cache w)).
Proof.
  intros Hwf. unfold ForgetPod. rewrite run_bind. cbn [get_world]. unfold spec_forgetKey, GetPod,
    GetPodNoLock. cbn [abs a_pods]. destruct (podsMap (w_cache w) !! key) as [p|] eqn:Hp.
  - destruct (forgetPod_refines (w_cache w) p Hwf (cached_pod_valid _ _ _ Hwf Hp))
      as (c' & E & Hwf' & Habs).
    exists c'. unfold on_cache. by rewrite E.
  - exists (w_cache w). by destruct w.
Qed.

Definition is_volume_revert (e : Effect) : Prop := ∃ p n, e = RevertAssumedPodVolumes p n.

Lemma run_RevertPodVolumeAssumptions key node w :
  ∃ l, RevertPodVolumeAssumptions key node w = Some (tt, traced w l) ∧
    Forall is_volume_revert l ∧ length l <= 1.
Proof.
  assert (Hret : ∃ l, (mret tt : M unit) w = Some (tt, traced w l) ∧
    Forall is_volume_revert l ∧ length l <= 1).
  { exists []. rewrite traced_nil. split_and!; [done..|simpl; lia]. }
  unfold RevertPodVolumeAssumptions. rewrite run_bind. cbn [get_world].
  destruct (GetPod _ _) as [pod|]; [|apply Hret].
  destruct (GetNode _ _) as [ni|]; [|apply Hret]. rewrite run_bind. unfold ask at 1.
  destruct (vb_GetPodVolumeClaims _ _) as [claims|?]; [|apply Hret]. rewrite run_bind. unfold ask.
  destruct (vb_FindPodVolumes _ _ _ _) as [[[v|] reasons]|?]; [|apply Hret..].
  exists [RevertAssumedPodVolumes pod node]. split_and!; [done| |simpl; lia].
  repeat constructor. by eexists _, _.
Qed.

(** The task after a rollback: waiting for a new allocation. *)
Definition rescheduled (o : Task) : Task := t_set_allocation "" "" (t_set_state TScheduling o).

Lemma run_rescheduleOnBindFailure t key node reason w o app :
  w_tasks w !! t = Some o → w_apps w !! t_application o = Some app → wf (w_cache w) →
  ∃ l c', rescheduleOnBindFailure t key node reason w =
      Some (tt, with_cache (traced (with_task w t (rescheduled o))
        (RecordEvent (pod_UID (t_pod o)) EventTypeWarning reason reason :: l ++
         [UpdateAllocation (CreateReleaseRequestForTask (t_applicationID o) key (a_partition app)
            SCHEDULING_FAILED_ON_RM)])) c') ∧
    Forall is_volume_revert l ∧ length l <= 1 ∧
    wf c' ∧ abs c' = spec_forgetKey key (abs (w_cache w)).
Proof.
  intros Ho Ha Hwf. unfold rescheduleOnBindFailure. run.
  assert (Hset : (if negb (bool_decide (t_state o = TScheduling))
      then put_task t (t_set_state TScheduling o) else mret tt) w =
      Some (tt, with_task w t (t_set_state TScheduling o))).
  { case_bool_decide as Hs; [|done]. cbn [negb]. rewrite <- Hs, t_set_state_same.
    unfold with_task. rewrite insert_id by done. by destruct w. }
  rewrite Hset. run. rewrite with_task_with_task. fold (rescheduled o). unfold rollbackAllocation. run.
  destruct (run_RevertPodVolumeAssumptions key node
    (traced (with_task w t (rescheduled o)) [RecordEvent (pod_UID (t_pod o)) EventTypeWarning reason reason]))
    as (l & -> & HS & Hl). run.
  destruct (run_ForgetPod key (traced (traced (with_task w t (rescheduled o))
    [RecordEvent (pod_UID (t_pod o)) EventTypeWarning reason reason]) l) Hwf) as (c' & -> & Hwf' & Habs).
  run. exists l, c'. split_and!; [|done..].
  rewrite traced_traced. unfold with_cache, traced. simpl. by rewrite <- app_assoc.
Qed.

(** ** The goroutine *)

Lemma run_retry_volumes pod w retriable :
  ∃ r l, retry_OnError retryBackoff retriable (bindPodVolumes pod) w = Some (r, traced w l) ∧
    Forall (retried is_volume_bind) l ∧ length (tries l) <= 5.
Proof.
  rewrite retry_OnError_spec. unfold retry_backoff. rewrite retryBackoff_attempts, retryBackoff_waits.
  destruct (retry_run_spec is_volume_bind 5 [1; 2; 4; 8; 16]%Z retriable (bindPodVolumes pod) w)
    as (r & l & E & HS & Hl & _); [apply bindPodVolumes_attempt|lia|]. by exists r, l.
Qed.

Lemma run_retry_bind pod node w retriable :
  ∃ r l, retry_OnError retryBackoff retriable (call (KubeBind pod node)) w = Some (r, traced w l) ∧
    Forall (retried (λ e, e = KubeBind pod node)) l ∧ length (tries l) <= 5 ∧
    (r = None → ∃ l1, l = l1 ++ [KubeBind pod node] ∧
       call_error (w_trace w ++ l1) (KubeBind pod node) = None).
Proof.
  rewrite retry_OnError_spec. unfold retry_backoff. rewrite retryBackoff_attempts, retryBackoff_waits.
  destruct (retry_run_spec (λ e, e = KubeBind pod node) 5 [1; 2; 4; 8; 16]%Z retriable (call (KubeBind pod node)) w)
    as (r & l & E & HS & Hl & Hok); [apply KubeBind_attempt|lia|]. exists r, l. split_and!; [done..|].
  intros Hr. destruct (Hok Hr) as (l1 & l2 & -> & E2). rewrite run_call in E2.
  injection E2 as Herr E2. exists l1. simpl in *. rewrite <- app_assoc in E2.
  apply app_inv_head in E2. by rewrite <- E2.
Qed.

(** The messages of a successful binding. *)
Definition bind_success_trace (o : Task) (pod : Pod) : list Effect :=
  [RecordEvent (pod_UID pod) EventTypeNormal "Scheduled" "Scheduled";
   Dispatch (DTask (t_applicationID o) (t_taskID o) BindTaskEvent);
   RecordEvent (pod_UID pod) EventTypeNormal "PodBindSuccessful" "PodBindSuccessful"].

(** What a rolled back binding leaves. *)
Definition rolled_back (w : World) (t : TaskRef) (o : Task) (partition key : string)
    (attempts : list Effect) (w' : World) : Prop :=
  ∃ reason reverts c',
    w' = with_cache (traced (with_task w t (rescheduled o))
           (attempts ++ RecordEvent (pod_UID (t_pod o)) EventTypeWarning reason reason :: reverts ++
            [UpdateAllocation (CreateReleaseRequestForTask (t_applicationID o) key partition
               SCHEDULING_FAILED_ON_RM)])) c' ∧
    Forall is_volume_revert reverts ∧ length reverts <= 1 ∧
    wf c' ∧ abs c' = spec_forgetKey key (abs (w_cache w)).

Lemma run_rollback t key node reason w o app l :
  w_tasks w !! t = Some o → w_apps w !! t_application o = Some app → wf (w_cache w) →
  ∃ w', rescheduleOnBindFailure t key node reason (traced w l) = Some (tt, w') ∧
    rolled_back w t o (a_partition app) key l w'.
Proof.
  intros Ho Ha Hwf.
  destruct (run_rescheduleOnBindFailure t key node reason (traced w l) o app Ho Ha Hwf)
    as (reverts & c' & E & HS & Hl & Hwf' & Habs).
  eexists. split; [exact E|]. exists reason, reverts, c'. split_and!; [|done..].
  by rewrite with_task_traced, traced_traced.
Qed.

Lemma bindTask_outcome t pod alias node key w o app :
  w_tasks w !! t = Some o → w_apps w !! t_application o = Some app → wf (w_cache w) →
  ∃ w' attempts,
    bindTask t pod alias node key w = Some (tt, w') ∧
    Forall (retried (λ e, is_volume_bind e ∨ e = KubeBind pod node)) attempts ∧
    length (tries attempts) <= 10 ∧
    ((∃ before, attempts = before ++ [KubeBind pod node] ∧
        call_error (w_trace w ++ before) (KubeBind pod node) = None ∧
        w' = traced (with_task w t (t_set_schedulingState TaskSchedAllocated o))
               (attempts ++ bind_success_trace o pod))
     ∨ rolled_back w t o (a_partition app) key attempts w').
Proof.
  intros Ho Ha Hwf. unfold bindTask. rewrite run_bind.
  destruct (run_retry_volumes pod w (λ err, negb (HasPrefix err "binding volumes:")))
    as (r1 & l1 & -> & HS1 & Hl1).
  assert (HS1' : Forall (retried (λ e, is_volume_bind e ∨ e = KubeBind pod node)) l1)
    by (eapply Forall_impl; [exact HS1|unfold retried; tauto]).
  destruct r1 as [err|].
  { destruct (run_rollback t key node "PodVolumesBindFailure" w o app l1 Ho Ha Hwf)
      as (w' & E & Hrb).
    exists w', l1. split_and!; [done..|lia|by right]. }
  rewrite run_bind.
  destruct (run_retry_bind pod node (traced w l1) (λ _, true)) as (r2 & l2 & -> & HS2 & Hl2 & Hok).
  rewrite traced_traced.
  assert (HS : Forall (retried (λ e, is_volume_bind e ∨ e = KubeBind pod node)) (l1 ++ l2))
    by (apply Forall_app; split; [done|eapply Forall_impl; [exact HS2|unfold retried; tauto]]).
  assert (Hl : length (tries (l1 ++ l2)) <= 10) by (rewrite tries_app, length_app; lia).
  destruct r2 as [err|].
  { destruct (run_rollback t key node "PodBindFailure" w o app (l1 ++ l2) Ho Ha Hwf)
      as (w' & E & Hrb).
    exists w', (l1 ++ l2). split_and!; [done..|by right]. }
  destruct (Hok eq_refl) as (l3 & -> & Herr). run.
  eexists _, (l1 ++ l3 ++ [KubeBind pod node]). split_and!; [done..|]. left. exists (l1 ++ l3).
  split_and!; [by rewrite app_assoc|by rewrite app_assoc|].
  rewrite !traced_traced, !with_task_traced, traced_traced. f_equal.
  rewrite <- !app_assoc. done.
Qed.

(** A rescheduled task takes the next allocation. *)
Lemma rolled_back_can_allocate w t o partition key attempts w' k n :
  rolled_back w t o partition key attempts w' →
  task_canHandle t (AllocatedTaskEvent k n) w' = Some (true, w').
Proof.
  intros (reason & reverts & c' & -> & _). unfold task_canHandle. rewrite run_bind.
  erewrite run_get_task by (simpl; apply lookup_insert_eq). rewrite run_ret, fsm_Can_spec. done.
Qed.

(** ** Properties *)


(** A binding that fails after the task has ended revives the task.  When
    every attempt to bind the pod fails, the task is in Scheduling afterwards,
    even if it was completed (its pod deleted) while the binding was running:
    a terminated task is live again, and the core is asked to keep its ask. *)
Theorem bind_failure_revives_ended_task t pod alias node key w o app :
  w_tasks w !! t = Some o → w_apps w !! t_application o = Some app → wf (w_cache w) →
  isTerminated o = true → (∀ tr, call_error tr (KubeBind pod node) ≠ None) →
  ∃ w' o', bindTask t pod alias node key w = Some (tt, w') ∧
    w_tasks w' !! t = Some o' ∧ t_state o' = TScheduling ∧ isTerminated o' = false.
Proof.
  intros Ho Ha Hwf Hterm Hfail.
  destruct (bindTask_outcome t pod alias node key w o app Ho Ha Hwf)
    as (w' & attempts & E & _ & _ & [(before & _ & Hok & _)|(reason & reverts & c' & -> & _)]).
  - by destruct (Hfail _ Hok).
  - eexists _, (rescheduled o). split; [exact E|]. split_and!; [|done..].
    simpl. apply lookup_insert_eq.
Qed.

End Bind.

(** ** Closed instances *)

#[local] Existing Instance si_constants_ref.

(** An environment in which the pod cannot be bound. *)
Definition env_unbindable : Env :=
  env_with (λ e, match e with KubeBind _ _ => Some "conflict" | _ => None end) [] [].

#[local] Instance env_ok_laws : @VolumeBinderLaws env_ok.
Proof. by split. Qed.
#[local] Instance env_unbindable_laws : @VolumeBinderLaws env_unbindable.
Proof. by split. Qed.

Definition bind_world (s : TaskState) : World :=
  world_ref ARunning [] [task_ref "uid-a" 0 s false ""] example_cache.

Section Bindable.
#[local] Existing Instance env_ok.


End Bindable.

Section Unbindable.
#[local] Existing Instance env_unbindable.

Lemma bind_failure_revives_ended_task_witness :
  ∃ w' o', bindTask 1 pod_a "default/a" "n1" "uid-a"
      (bind_world TCompleted) = Some (tt, w') ∧
    w_tasks w' !! 1 = Some o' ∧ t_state o' = TScheduling.
Proof.
  destruct (bind_failure_revives_ended_task 1 pod_a "default/a" "n1"
    "uid-a" (bind_world TCompleted) (task_ref "uid-a" 0 TCompleted false "")
    (app_ref ARunning (<["uid-a" := 1]> ∅) [])) as (w' & o' & E & Ho' & Hs & _);
    [done|done|apply example_wf|done|done|].
  exists w', o'. split_and!; [exact E|exact Ho'|exact Hs].
Defined.

End Unbindable.
