(* ===== verification/ApplicationThms.v ===== *)
(** * Theorems about applications

    The states an application goes through, deferred releases, and which tasks
    a scheduling round submits. *)

From S2P Require Import Prelude.
From S2P Require Import GoStrings.
From S2P Require Import K8sApi.
From S2P Require Import K8sInstances.
From S2P Require Import Constants.
From S2P Require Import Resource.
From S2P Require Import PodUtils.
From S2P Require Import SiHelper.
From S2P Require Import TaskGroups.
From S2P Require Import SchedulerCache.
From S2P Require Import World.
From S2P Require Import Logic.
From S2P Require Import Fsm.
From S2P Require Import ContextPods.
From S2P Require Import Task.
From S2P Require Import Application.
From S2P Require Import TaskThms.

(** ** Reading tasks *)

(** The tasks behind references, and the tasks of an application in the order
    a [range] over its task map visits them. *)
Definition deref (w : World) (l : list TaskRef) : list (TaskRef * Task) :=
  omap (λ t, (t,.) <$> w_tasks w !! t) l.

Definition tasks_of `{MapOrder} (w : World) (app : Application) : list (TaskRef * Task) :=
  deref w (go_range (a_taskMap app)).*2.

(** The references of an application point to tasks. *)
Definition app_refs_ok (w : World) (app : Application) : Prop :=
  (∀ k t, a_taskMap app !! k = Some t → is_Some (w_tasks w !! t)) ∧
  (∀ t, a_originatingTask app = Some t → is_Some (w_tasks w !! t)) ∧
  refs_ok w (a_releaseableTasks app).

(** The task map is keyed by task ID. *)
Definition app_ids_ok (w : World) (app : Application) : Prop :=
  ∀ k t, a_taskMap app !! k = Some t → ∃ o, w_tasks w !! t = Some o ∧ t_taskID o = k.

Lemma alter_as_insert {A} (f : A → A) (m : gmap nat A) t o :
  m !! t = Some o → alter f t m = <[t := f o]> m.
Proof.
  intros Ho. apply map_eq. intros i. destruct (decide (t = i)) as [->|Hne].
  - by rewrite lookup_alter_eq, lookup_insert_eq, Ho.
  - by rewrite lookup_alter_ne, lookup_insert_ne.
Qed.

(** Tasks moved to a state. *)
Definition mark_all (s : TaskState) (ts : list TaskRef) (m : gmap nat Task) : gmap nat Task :=
  foldl (λ m t, alter (t_set_state s) t m) m ts.

Lemma mark_all_lookup s ts m t :
  mark_all s ts m !! t =
  (if bool_decide (t ∈ ts) then t_set_state s else id) <$> m !! t.
Proof.
  revert m. induction ts as [|x ts IH]; intros m; simpl; [by rewrite option_fmap_id|].
  rewrite IH. destruct (decide (x = t)) as [->|Hne].
  - rewrite lookup_alter_eq, (bool_decide_eq_true_2 (t ∈ t :: ts)) by left.
    rewrite <- option_fmap_compose. apply option_fmap_ext. intros o. simpl.
    by case_bool_decide; destruct o.
  - rewrite lookup_alter_ne by done. f_equal.
    rewrite (bool_decide_ext (t ∈ x :: ts) (t ∈ ts)); [done|]. set_solver.
Qed.

Section Reading.
Context `{MapOrder}.

Lemma run_load_tasks w l : refs_ok w l → load_tasks l w = Some (deref w l, w).
Proof.
  intros Hl. unfold deref. induction Hl as [|t l [o Ho] Hl IH]; simpl; [done|]. run.
  rewrite Ho. simpl. run. rewrite IH. run. done.
Qed.

Lemma taskMap_refs_ok w app : app_refs_ok w app → refs_ok w (go_range (a_taskMap app)).*2.
Proof.
  intros [Hm _]. apply Forall_forall. intros t Ht. apply list_elem_of_fmap in Ht as ([k t'] & -> & Hin).
  apply elem_of_go_range in Hin. by eapply Hm.
Qed.

Lemma run_all_tasks a w app :
  w_apps w !! a = Some app → app_refs_ok w app →
  all_tasks a w = Some (tasks_of w app, w).
Proof.
  intros Ha Hok. unfold all_tasks. run. by rewrite run_load_tasks by (by apply taskMap_refs_ok).
Qed.

Lemma elem_of_deref w l t o : (t, o) ∈ deref w l ↔ t ∈ l ∧ w_tasks w !! t = Some o.
Proof.
  unfold deref. rewrite list_elem_of_omap. split.
  - intros (t' & Hin & Heq). destruct (w_tasks w !! t') eqn:E; [|done]. by simplify_eq/=.
  - intros [Hin Ho]. exists t. by rewrite Ho.
Qed.

Lemma elem_of_tasks_of w app t o :
  (t, o) ∈ tasks_of w app ↔ (∃ k, a_taskMap app !! k = Some t) ∧ w_tasks w !! t = Some o.
Proof.
  unfold tasks_of. rewrite elem_of_deref. f_equiv. rewrite list_elem_of_fmap. split.
  - intros ([k t'] & -> & Hin). apply elem_of_go_range in Hin. by exists k.
  - intros [k Hk]. exists (k, t). by rewrite elem_of_go_range.
Qed.

(** The tasks in a state, sorted. *)
Definition tasks_in (w : World) (app : Application) (s : TaskState) : list TaskRef :=
  (merge_sort task_le (filter (λ x : TaskRef * Task, t_state x.2 = s) (tasks_of w app))).*1.

Lemma run_getTasks a w app s :
  w_apps w !! a = Some app → app_refs_ok w app → getTasks a s w = Some (tasks_in w app s, w).
Proof. intros Ha Hok. unfold getTasks. rewrite run_bind, (run_all_tasks _ _ _ Ha Hok). done. Qed.

Lemma elem_of_tasks_in w app s t :
  t ∈ tasks_in w app s ↔
  (∃ k, a_taskMap app !! k = Some t) ∧ ∃ o, w_tasks w !! t = Some o ∧ t_state o = s.
Proof.
  unfold tasks_in. rewrite list_elem_of_fmap. split.
  - intros ([t' o] & -> & Hin). rewrite merge_sort_Permutation in Hin.
    apply list_elem_of_filter in Hin as [Hs Hin]. apply elem_of_tasks_of in Hin as [? ?]. eauto.
  - intros [Hk (o & Ho & Hs)]. exists (t, o). split; [done|].
    rewrite merge_sort_Permutation. apply list_elem_of_filter. by rewrite elem_of_tasks_of.
Qed.

Lemma NoDup_refs w app : app_ids_ok w app → NoDup (go_range (a_taskMap app)).*2.
Proof.
  intros Hids. pose proof (NoDup_go_range (a_taskMap app)) as Hnd.
  assert (Hall : ∀ k t, (k, t) ∈ go_range (a_taskMap app) →
    ∃ o, w_tasks w !! t = Some o ∧ t_taskID o = k)
    by (intros k t Hin%elem_of_go_range; by apply Hids).
  induction (go_range (a_taskMap app)) as [|[k t] l IH]; [constructor|].
  cbn [fmap list_fmap fst snd] in *. apply NoDup_cons in Hnd as [Hni Hnd].
  apply NoDup_cons. split; [|apply IH; [done|]; intros k' t' Hin; apply Hall; by right].
  intros Hin. apply list_elem_of_fmap in Hin as ([k' t'] & Heq & Hin). simpl in Heq. subst t'.
  destruct (Hall k t ltac:(left)) as (o & Ho & Hk), (Hall k' t ltac:(by right)) as (o' & Ho' & Hk').
  apply Hni, list_elem_of_fmap. exists (k', t). split; [|done]. simpl. congruence.
Qed.

Lemma NoDup_tasks_in w app s : app_ids_ok w app → NoDup (tasks_in w app s).
Proof.
  intros Hids. unfold tasks_in. rewrite merge_sort_Permutation.
  apply (sublist_NoDup _ (tasks_of w app).*1); [|apply fmap_sublist, sublist_filter].
  unfold tasks_of, deref. pose proof (NoDup_refs w app Hids) as Hnd.
  induction (go_range (a_taskMap app)).*2 as [|t l IH]; [constructor|].
  apply NoDup_cons in Hnd as [Hni Hnd]. cbn [omap list_omap].
  destruct (w_tasks w !! t) as [o|]; simpl; [|by apply IH]. apply NoDup_cons. split; [|by apply IH].
  intros Hin. apply Hni. apply list_elem_of_fmap in Hin as ([t' o'] & -> & Hin).
  by apply (elem_of_deref w l t' o') in Hin as [? _].
Qed.

Lemma run_record_originating a w app x y z :
  w_apps w !! a = Some app → app_refs_ok w app →
  ∃ l, record_originating a x y z w = Some (tt, traced w l) ∧
    Forall (λ e, ∃ p, e = RecordEvent p x y z) l.
Proof.
  intros Ha (_ & Horig & _). unfold record_originating. run.
  destruct (a_originatingTask app) as [t|].
  - destruct (Horig t eq_refl) as [o Ho]. run. eexists. split; [done|]. repeat constructor. eauto.
  - exists []. by rewrite traced_nil.
Qed.

Lemma run_AreAllTasksTerminated a w app :
  w_apps w !! a = Some app → app_refs_ok w app →
  AreAllTasksTerminated a w =
  Some (bool_decide (Forall (λ x : TaskRef * Task, isTerminated x.2 = true) (tasks_of w app)), w).
Proof.
  intros Ha Hok. unfold AreAllTasksTerminated, getNonTerminatedTaskAlias. rewrite !run_bind.
  rewrite (run_all_tasks _ _ _ Ha Hok). run. f_equal. f_equal. apply bool_decide_ext.
  rewrite length_map. induction (tasks_of w app) as [|x l IH]; [done|].
  rewrite filter_cons, Forall_cons. destruct (isTerminated x.2); simpl.
  - rewrite IH. naive_solver.
  - split; [done|]. by intros [? _].
Qed.

End Reading.
