(* ===== verification/PlaceholderThms.v ===== *)
(** * Placeholders are created and cleaned up completely

    How many placeholder pods a gang gets, also after a restart, and that a pod
    whose deletion failed is not forgotten. *)

From S2P Require Import Prelude.
From S2P Require Import GoStrings.
From S2P Require Import K8sApi.
From S2P Require Import K8sInstances.
From S2P Require Import Constants.
From S2P Require Import PodUtils.
From S2P Require Import TaskGroups.
From S2P Require Import SchedulerCache.
From S2P Require Import World.
From S2P Require Import Logic.
From S2P Require Import Application.
From S2P Require Import PlaceholderManager.
From S2P Require Import Examples.
From S2P Require Import TaskThms.
From S2P Require Import ApplicationThms.

Section Create.
Context `{SiConstants} `{MapOrder} `{EV : Env} (conf : ShimConf) (intn : list Effect → nat → nat).

(** ** Counting *)

(** The placeholder tasks of an application. *)
Definition placeholders_of (w : World) (app : Application) : list (TaskRef * Task) :=
  filter (λ x : TaskRef * Task, t_placeholder x.2) (tasks_of w app).

(** How many placeholders of a group the application has. *)
Definition existing (w : World) (app : Application) (group : string) : nat :=
  length (filter (λ x : TaskRef * Task, t_taskGroupName x.2 = group) (placeholders_of w app)).

Lemma countPlaceholders_spec tasks counts g :
  (∀ k, 0 <= default 0 (counts !! k))%Z →
  (∀ k, default 0 (counts !! k) + Z.of_nat (length tasks) <= MaxInt32)%Z →
  default 0%Z (foldl countPlaceholder counts tasks !! g) =
  (default 0 (counts !! g) + Z.of_nat (length (filter (λ o, t_taskGroupName o = g) tasks)))%Z.
Proof.
  revert counts. induction tasks as [|o tasks IH]; intros counts Hpos Hmax; [simpl; lia|].
  cbn [foldl]. set (k := t_taskGroupName o).
  assert (Hw : (wrap32 (default 0 (counts !! k) + 1) = default 0 (counts !! k) + 1)%Z).
  { specialize (Hpos k). specialize (Hmax k). cbn [length] in Hmax.
    apply wrap32_id. unfold in_int32, MinInt32. lia. }
  assert (Hc : ∀ j, default 0%Z (countPlaceholder counts o !! j) =
    (default 0 (counts !! j) + if decide (k = j) then 1 else 0)%Z).
  { intros j. unfold countPlaceholder. fold k. rewrite Hw. destruct (decide (k = j)) as [<-|Hne].
    - by rewrite lookup_insert_eq.
    - rewrite lookup_insert_ne by done. lia. }
  rewrite IH.
  - rewrite Hc, filter_cons. fold k. repeat case_decide; simpl; lia.
  - intros j. rewrite Hc. specialize (Hpos j). case_decide; lia.
  - intros j. rewrite Hc. specialize (Hmax j). simpl in Hmax. case_decide; lia.
Qed.

(** ** Creating *)

(** A placeholder pod of the group [tg] for an application. *)
Definition placeholder_for (papp : PlaceholderApp) (tg : TaskGroup) (pod : Pod) : Prop :=
  ∃ r, pod = newPlaceholder conf (GeneratePlaceholderName r (tg_Name tg) (pa_ApplicationID papp)) papp tg.

(** What the placeholder pods of an application are made from. *)
Definition origin_of (w : World) (app : Application) : PlaceholderApp :=
  mkPlaceholderApp (a_applicationID app) (a_queue app) (a_tags app)
    (a_placeholderOwnerReferences app) (a_taskGroupsDefinition app) (a_schedulingParamsDefinition app)
    (match a_originatingTask app with
     | Some t => match w_tasks w !! t with
                 | Some o => spec_PriorityClassName (pod_Spec (t_pod o)) | None => "" end
     | None => "" end).

Lemma run_placeholder_app w app :
  app_refs_ok w app → placeholder_app app w = Some (origin_of w app, w).
Proof.
  intros (_ & Ho & _). unfold placeholder_app, origin_of.
  destruct (a_originatingTask app) as [t|]; [|done].
  destruct (Ho t eq_refl) as [o Hot]. rewrite Hot. by run.
Qed.

(** A run of creations: [pods] were tried in this order for the groups [tgs];
    all but the last succeeded, and the last one did if there is no error. *)
Definition creations (w : World) (papp : PlaceholderApp) (tgs : list TaskGroup) (r : option string)
    (pods : list Pod) : Prop :=
  Forall2 (placeholder_for papp) (take (length pods) tgs) pods ∧
  match r with
  | None => length pods = length tgs ∧
      ∀ pre pod post, pods = pre ++ pod :: post →
        call_error (w_trace w ++ (KubeCreate <$> pre)) (KubeCreate pod) = None
  | Some e => ∃ pre pod, pods = pre ++ [pod] ∧
      call_error (w_trace w ++ (KubeCreate <$> pre)) (KubeCreate pod) = Some e
  end.

Lemma creations_nil w papp : creations w papp [] None [].
Proof. split; [done|]. split; [done|]. by intros [] ? ?. Qed.

(** Successful creations, followed by others. *)
Lemma creations_app w papp tgs tgs' r pods pods' :
  creations w papp tgs None pods → creations (traced w (KubeCreate <$> pods)) papp tgs' r pods' →
  creations w papp (tgs ++ tgs') r (pods ++ pods').
Proof.
  intros [Hp [Hlen Hok]] [Hp' Hr]. split.
  - rewrite length_app, Hlen, take_app_add. rewrite Hlen in Hp.
    rewrite firstn_all in Hp. by apply Forall2_app.
  - destruct r as [e|].
    + destruct Hr as (pre & pod & -> & Hc). exists (pods ++ pre), pod. split; [by rewrite app_assoc|].
      simpl in Hc. by rewrite fmap_app, app_assoc.
    + destruct Hr as [Hl Hall]. split; [rewrite !length_app; lia|].
      intros pre pod post Heq.
      apply app_eq_app in Heq as (k & [(-> & Hk)|(-> & Hk)]).
      * destruct k as [|x k]; simpl in Hk.
        -- specialize (Hall [] pod post). simpl in Hall. rewrite !app_nil_r in *. by apply Hall.
        -- injection Hk as -> _. by eapply Hok.
      * specialize (Hall k pod post Hk). simpl in Hall. by rewrite fmap_app, app_assoc.
Qed.

Lemma run_createPlaceholder a tg w app :
  w_apps w !! a = Some app → app_refs_ok w app →
  ∃ r pod, createPlaceholder conf intn a tg w = Some (r, traced w (KubeCreate <$> [pod])) ∧
    placeholder_for (origin_of w app) tg pod ∧ r = call_error (w_trace w) (KubeCreate pod).
Proof.
  intros Ha Hok. unfold createPlaceholder. run. unfold ask. rewrite run_bind, run_placeholder_app by done.
  run. eexists _, _. split_and!; [done| |done]. by eexists.
Qed.

Lemma run_createMissing a tg n w app :
  w_apps w !! a = Some app → app_refs_ok w app →
  ∃ r pods, createMissing conf intn a tg n w = Some (r, traced w (KubeCreate <$> pods)) ∧
    creations w (origin_of w app) (replicate n tg) r pods.
Proof.
  intros Ha Hok. revert w Ha Hok. induction n as [|n IH]; intros w Ha Hok.
  { exists None, []. rewrite traced_nil. split; [done|apply creations_nil]. }
  cbn [createMissing]. rewrite run_bind.
  destruct (run_createPlaceholder a tg w app Ha Hok) as (r & pod & -> & Hpod & Hr).
  destruct r as [e|].
  - exists (Some e), [pod]. split; [done|]. split; [by repeat constructor|].
    exists [], pod. by rewrite app_nil_r.
  - destruct (IH (traced w (KubeCreate <$> [pod])) Ha Hok) as (r & pods & -> & Hc).
    exists r, ([pod] ++ pods). rewrite traced_traced, <- fmap_app. split; [done|].
    apply (creations_app w _ [tg]); [|done]. split; [by repeat constructor|]. split; [done|].
    intros [|x pre] p post Heq; [|by destruct pre]. injection Heq as <- _. by rewrite app_nil_r.
Qed.

Lemma creations_stop w papp tgs tgs' e pods :
  creations w papp tgs (Some e) pods → creations w papp (tgs ++ tgs') (Some e) pods.
Proof.
  intros [Hp Hr]. split; [|done]. pose proof (Forall2_length _ _ _ Hp) as Hlen.
  rewrite length_take in Hlen. rewrite take_app_le; [done|lia].
Qed.

Lemma run_createGroups a counts groups w app :
  w_apps w !! a = Some app → app_refs_ok w app →
  ∃ r pods, createGroups conf intn a counts groups w = Some (r, traced w (KubeCreate <$> pods)) ∧
    creations w (origin_of w app) (groups ≫= λ tg, replicate (missing counts tg) tg) r pods.
Proof.
  intros Ha Hok. revert w Ha Hok. induction groups as [|tg groups IH]; intros w Ha Hok.
  { exists None, []. rewrite traced_nil. split; [done|apply creations_nil]. }
  cbn [createGroups mbind list_bind]. rewrite run_bind.
  destruct (run_createMissing a tg (missing counts tg) w app Ha Hok) as (r & pods & -> & Hc).
  destruct r as [e|].
  - exists (Some e), pods. split; [done|]. by apply creations_stop.
  - destruct (IH (traced w (KubeCreate <$> pods)) Ha Hok) as (r & pods' & -> & Hc').
    exists r, (pods ++ pods'). rewrite traced_traced, <- fmap_app. split; [done|].
    by eapply creations_app.
Qed.

(** Reading back the tasks of a filtered list. *)
Lemma run_load_filtered (P : TaskRef * Task → Prop) `{∀ x, Decision (P x)} w l :
  load_tasks (filter P (deref w l)).*1 w = Some (filter P (deref w l), w).
Proof.
  induction l as [|t l IH]; [done|]. unfold deref. cbn [omap list_omap].
  fold (deref w l). destruct (w_tasks w !! t) as [o|] eqn:Ho; simpl; [|done].
  rewrite filter_cons. case_decide; [|done]. cbn [fmap list_fmap load_tasks fst]. run. by rewrite IH.
Qed.

Lemma length_deref w l : length (deref w l) <= length l.
Proof.
  induction l as [|t l IH]; [done|]. unfold deref. cbn [omap list_omap length]. fold (deref w l).
  destruct (w_tasks w !! t); cbn [fmap option_fmap option_map length]; lia.
Qed.

Lemma missing_existing w app tg :
  (Z.of_nat (size (a_taskMap app)) <= MaxInt32)%Z →
  missing (foldl countPlaceholder ∅ (placeholders_of w app).*2) tg =
  Z.to_nat (tg_MinMember tg) - existing w app (tg_Name tg).
Proof.
  intros Hsize. unfold missing, existing. rewrite countPlaceholders_spec.
  - rewrite lookup_empty. simpl.
    assert (Hl : length (filter (λ o, t_taskGroupName o = tg_Name tg) (placeholders_of w app).*2) =
      length (filter (λ x : TaskRef * Task, t_taskGroupName x.2 = tg_Name tg) (placeholders_of w app))).
    { induction (placeholders_of w app) as [|x l IH]; [done|]. cbn [fmap list_fmap].
      rewrite !filter_cons. case_decide; simpl; by rewrite ?IH. }
    rewrite Hl. lia.
  - intros k. by rewrite lookup_empty.
  - intros k. rewrite lookup_empty, length_fmap. simpl.
    assert (length (placeholders_of w app) <= size (a_taskMap app)); [|lia].
    unfold placeholders_of, tasks_of. etrans; [apply length_filter|].
    etrans; [apply length_deref|]. rewrite length_fmap, go_range_perm. by rewrite length_map_to_list.
Qed.

Lemma bind_replicate_ext {A} (f g : A → nat) (l : list A) :
  (∀ x, f x = g x) → (l ≫= λ x, replicate (f x) x) = (l ≫= λ x, replicate (g x) x).
Proof. intros Hfg. induction l as [|x l IH]; [done|]. cbn [mbind list_bind]. by rewrite Hfg, IH. Qed.

(** C15: a gang gets exactly the placeholders it lacks. Also after a restart,
    when some placeholders exist already, the manager creates for every task
    group its minimum number of members less the placeholders the group has, in
    the order of the groups, and no other pods; every pod is a placeholder of its
    group made from the application. It stops at the first creation that fails
    and returns that error. *)
Theorem placeholders_fill_the_gang a w app :
  w_apps w !! a = Some app → app_refs_ok w app →
  (Z.of_nat (size (a_taskMap app)) <= MaxInt32)%Z →
  ∃ r pods,
    createAppPlaceholders conf intn a w = Some (r, traced w (KubeCreate <$> pods)) ∧
    creations w (origin_of w app)
      (a_taskGroups app ≫= λ tg,
         replicate (Z.to_nat (tg_MinMember tg) - existing w app (tg_Name tg)) tg) r pods.
Proof.
  intros Ha Hok Hsize. unfold createAppPlaceholders, getPlaceHolderTasks.
  rewrite run_bind, run_bind, (run_all_tasks _ _ _ Ha Hok), run_ret, run_bind.
  fold (placeholders_of w app).
  assert (Hload : load_tasks (placeholders_of w app).*1 w = Some (placeholders_of w app, w)).
  { apply run_load_filtered. }
  rewrite Hload, run_bind, (run_get_app _ _ _ Ha).
  destruct (run_createGroups a (foldl countPlaceholder ∅ (placeholders_of w app).*2)
    (a_taskGroups app) w app Ha Hok) as (r & pods & -> & Hc).
  exists r, pods. split; [done|]. by erewrite bind_replicate_ext; [|intros tg; symmetry; by apply missing_existing].
Qed.

End Create.

Section Clean.
Context `{SiConstants} `{MapOrder} `{EV : Env}.

(** ** Cleaning up *)

(** The deletion of a pod after the calls [before]: it succeeded or the pod was
    gone already. *)
Definition gone (w : World) (before : list Effect) (pod : Pod) : Prop :=
  match call_error (w_trace w ++ before) (KubeDelete pod) with
  | None => True
  | Some e => Contains e "not found" = true
  end.

Lemma gone_traced w l before pod : gone (traced w l) before pod ↔ gone w (l ++ before) pod.
Proof. unfold gone. simpl. by rewrite <- app_assoc. Qed.

(** The orphans after deleting the pods of [l]: those whose deletion failed are
    added. *)
Definition cleaned (w : World) (l : list (TaskRef * Task)) (orphans orphans' : gmap string Pod) : Prop :=
  (∀ i t o, l !! i = Some (t, o) →
     gone w (KubeDelete ∘ t_pod ∘ snd <$> take i l) (t_pod o) ∨
     orphans' !! t_taskID o = Some (t_pod o)) ∧
  (∀ k p, orphans' !! k = Some p → orphans !! k = Some p ∨
     ∃ i t o, l !! i = Some (t, o) ∧ k = t_taskID o ∧ p = t_pod o ∧
       ¬ gone w (KubeDelete ∘ t_pod ∘ snd <$> take i l) (t_pod o)) ∧
  (∀ k, is_Some (orphans !! k) → is_Some (orphans' !! k)).

Lemma run_cleanTask w orphans t o :
  w_tasks w !! t = Some o →
  ∃ orphans1, cleanTask orphans t w = Some (orphans1, traced w [KubeDelete (t_pod o)]) ∧
    (gone w [] (t_pod o) ∧ orphans1 = orphans ∨
     ¬ gone w [] (t_pod o) ∧ orphans1 = <[t_taskID o := t_pod o]> orphans).
Proof.
  intros Ho. unfold cleanTask, gone. run. rewrite app_nil_r.
  destruct (call_error (w_trace w) (KubeDelete (t_pod o))) as [e|]; [|by eauto].
  destruct (Contains e "not found"); eexists; (split; [done|]); [by left|by right].
Qed.

Lemma run_cleanTasks w l orphans :
  Forall (λ x : TaskRef * Task, w_tasks w !! x.1 = Some x.2) l →
  NoDup (t_taskID ∘ snd <$> l) →
  ∃ orphans', cleanTasks orphans l.*1 w =
    Some (orphans', traced w (KubeDelete ∘ t_pod ∘ snd <$> l)) ∧ cleaned w l orphans orphans'.
Proof.
  intros Hl. revert w orphans Hl. induction l as [|[t o] l IH]; intros w orphans Hl Hnd.
  { exists orphans. rewrite traced_nil. split; [done|]. by split_and!; [| |]; eauto. }
  apply Forall_cons in Hl as [Ho Hl]. cbn [fmap list_fmap] in Hnd. apply NoDup_cons in Hnd as [Hni Hnd].
  change ((t_taskID ∘ snd) (t, o)) with (t_taskID o) in Hni.
  cbn [fmap list_fmap cleanTasks fst]. rewrite run_bind.
  destruct (run_cleanTask w orphans t o Ho) as (orphans1 & -> & Hcase).
  destruct (IH (traced w [KubeDelete (t_pod o)]) orphans1 Hl Hnd) as (orphans' & -> & H1 & H2 & H3).
  exists orphans'. rewrite traced_traced. split; [done|].
  assert (Hkeep : orphans' !! t_taskID o = orphans1 !! t_taskID o).
  { destruct (orphans1 !! t_taskID o) as [p|] eqn:Hp.
    - destruct (H3 (t_taskID o) ltac:(eauto)) as [p' Hp']. rewrite Hp'.
      destruct (H2 _ _ Hp') as [?|(i & t' & o' & Hi & Hid & _)]; [congruence|].
      destruct Hni. rewrite Hid. apply list_elem_of_fmap. exists (t', o').
      split; [done|by eapply list_elem_of_lookup_2].
    - destruct (orphans' !! t_taskID o) as [p'|] eqn:Hp'; [|done].
      destruct (H2 _ _ Hp') as [?|(i & t' & o' & Hi & Hid & _)]; [congruence|].
      destruct Hni. rewrite Hid. apply list_elem_of_fmap. exists (t', o').
      split; [done|by eapply list_elem_of_lookup_2]. }
  split_and!.
  - intros [|i] t' o' Hi.
    + injection Hi as <- <-. destruct Hcase as [[Hg _]|[_ Hins]]; [by left|].
      right. rewrite Hkeep, Hins. apply lookup_insert_eq.
    + destruct (H1 i t' o' Hi) as [Hg|?]; [left|by right]. by apply gone_traced in Hg.
  - intros k p Hk. destruct (H2 k p Hk) as [Hk1|(i & t' & o' & Hi & Hid & Hp & Hg)].
    + destruct Hcase as [[_ ->]|[Hg ->]]; [by left|].
      apply lookup_insert_Some in Hk1 as [[<- <-]|[_ ?]]; [|by left].
      right. by exists 0, t, o.
    + right. exists (S i), t', o'. split_and!; [done..|]. by rewrite gone_traced in Hg.
  - intros k [p Hk]. apply H3. destruct Hcase as [[_ ->]|[_ ->]]; [eauto|].
    apply lookup_insert_is_Some'. eauto.
Qed.

Lemma NoDup_placeholder_ids w app :
  app_ids_ok w app → NoDup (t_taskID ∘ snd <$> placeholders_of w app).
Proof.
  intros Hids. eapply sublist_NoDup; [|apply fmap_sublist, sublist_filter].
  assert (Hk : ∀ k t, (k, t) ∈ go_range (a_taskMap app) → ∃ o, w_tasks w !! t = Some o ∧ t_taskID o = k)
    by (intros k t Hin%elem_of_go_range; by apply Hids).
  replace (t_taskID ∘ snd <$> tasks_of w app) with ((go_range (a_taskMap app)).*1);
    [apply NoDup_go_range|].
  unfold tasks_of. induction (go_range (a_taskMap app)) as [|[k t] l IH]; [done|].
  destruct (Hk k t ltac:(left)) as (o & Ho & Hid).
  unfold deref. cbn [fmap list_fmap omap list_omap fst snd]. rewrite Ho. cbn [fmap list_fmap option_fmap option_map].
  fold (deref w l.*2). rewrite <- IH by (intros; apply Hk; by right). by rewrite <- Hid.
Qed.

(** Cleaning up forgets no pod. Every placeholder pod of the application is
    deleted once, in some order; afterwards each of them is gone (the deletion
    succeeded or the pod was not found) or is kept, under its task's id, as an
    orphan whose deletion is retried; no orphan is forgotten, and only pods whose
    deletion failed become orphans. *)
Theorem cleanup_forgets_no_pod a w app orphans :
  w_apps w !! a = Some app → app_refs_ok w app → app_ids_ok w app →
  ∃ orphans', cleanUp orphans a w =
    Some (orphans', traced w (KubeDelete ∘ t_pod ∘ snd <$> placeholders_of w app)) ∧
    cleaned w (placeholders_of w app) orphans orphans'.
Proof.
  intros Ha Hok Hids. unfold cleanUp, getPlaceHolderTasks.
  rewrite run_bind, run_bind, (run_all_tasks _ _ _ Ha Hok), run_ret. fold (placeholders_of w app).
  apply run_cleanTasks.
  - apply Forall_forall. intros [t o] [_ Hx]%list_elem_of_filter. by apply elem_of_deref in Hx as [_ ?].
  - by apply NoDup_placeholder_ids.
Qed.

(** ** Orphans *)

(** One round over the orphans. *)
Lemma run_cleanOrphans l w orphans :
  NoDup l.*1 →
  ∃ orphans', cleanOrphans orphans l w = Some (orphans', traced w (KubeDelete <$> l.*2)) ∧
    (∀ k, k ∉ l.*1 → orphans' !! k = orphans !! k) ∧
    (∀ i k p, l !! i = Some (k, p) →
       orphans' !! k =
       match call_error (w_trace w ++ (KubeDelete <$> (take i l).*2)) (KubeDelete p) with
       | Some _ => orphans !! k
       | None => None
       end).
Proof.
  revert w orphans. induction l as [|[k p] l IH]; intros w orphans Hnd.
  { exists orphans. by rewrite traced_nil. }
  cbn [fmap list_fmap fst] in Hnd. apply NoDup_cons in Hnd as [Hni Hnd].
  cbn [cleanOrphans]. rewrite run_bind, run_call.
  set (orphans1 := match call_error (w_trace w) (KubeDelete p) with Some _ => orphans
                   | None => delete k orphans end).
  destruct (IH (traced w [KubeDelete p]) orphans1 Hnd) as (orphans' & -> & H1 & H2).
  exists orphans'. rewrite traced_traced. split_and!; [done| |].
  - intros j Hj. cbn [fmap list_fmap fst] in Hj. apply not_elem_of_cons in Hj as [Hjk Hj].
    rewrite H1 by done. unfold orphans1. destruct (call_error _ _); [done|]. by rewrite lookup_delete_ne.
  - intros [|i] j q Hi.
    + injection Hi as <- <-. rewrite H1 by done. cbn [take fmap list_fmap]. rewrite app_nil_r.
      unfold orphans1. destruct (call_error _ _); [done|]. apply lookup_delete_eq.
    + rewrite (H2 i j q Hi). cbn [take fmap list_fmap snd traced w_trace]. rewrite <- app_assoc.
      destruct (call_error _ (KubeDelete q)); [|done]. unfold orphans1. destruct (call_error _ _); [done|].
      rewrite lookup_delete_ne; [done|]. intros ->. destruct Hni.
      apply list_elem_of_fmap. exists (j, q). split; [done|by eapply list_elem_of_lookup_2].
Qed.

(** Rounds of the cleaning loop. *)
Fixpoint clean_rounds (n : nat) (orphans : gmap string Pod) : M (gmap string Pod) :=
  match n with
  | 0 => mret orphans
  | S n' => orphans ← cleanOrphanPlaceholders orphans; clean_rounds n' orphans
  end.

(** An orphan that is gone is never given up: unlike [cleanUp], the cleaning
    loop does not recognise the error for a pod that does not exist, and keeps
    asking for its deletion in every round. *)
Theorem missing_orphan_is_retried_forever n w orphans k pod :
  orphans !! k = Some pod →
  (∀ tr, is_Some (call_error tr (KubeDelete pod))) →
  ∃ orphans' w', clean_rounds n orphans w = Some (orphans', w') ∧ orphans' !! k = Some pod.
Proof.
  intros Hk Herr. revert w orphans Hk. induction n as [|n IH]; intros w orphans Hk; [by exists orphans, w|].
  cbn [clean_rounds]. rewrite run_bind. unfold cleanOrphanPlaceholders.
  destruct (run_cleanOrphans (go_range orphans) w orphans) as (orphans1 & -> & _ & H1);
    [apply NoDup_go_range|].
  apply IH. pose proof Hk as Hin. apply elem_of_go_range, list_elem_of_lookup_1 in Hin as [i Hi].
  rewrite (H1 i k pod Hi). destruct (Herr (w_trace w ++ (KubeDelete <$> (take i (go_range orphans)).*2)))
    as [e ->]. done.
Qed.

End Clean.

(** ** Closed instances *)

(** A gang with one placeholder of each group; the second group needs three. *)
Definition halfgang_world : World :=
  world_ref AReserving [group_ref "g1" 1; group_ref "g2" 3]
    [task_ref "p1" 0 TBound true "g1"; task_ref "p2" 0 TNew true "g2"; task_ref "t3" 0 TNew false ""]
    NewSchedulerCache.

Definition halfgang_app : Application :=
  app_ref AReserving (<["p1" := 1]> (<["p2" := 2]> (<["t3" := 3]> ∅)))
    [group_ref "g1" 1; group_ref "g2" 3].

Lemma halfgang_refs_ok : app_refs_ok halfgang_world halfgang_app.
Proof. split_and!; [|done|by apply Forall_nil]. intros k t Hk. heap_cases Hk; by eexists. Qed.

Lemma halfgang_ids_ok : app_ids_ok halfgang_world halfgang_app.
Proof. intros k t Hk. heap_cases Hk; eexists; by split. Qed.

(** The deletion of the pod of task [p2] fails. *)
Definition env_stuck : Env :=
  env_with (λ e, match e with
                 | KubeDelete p => if pod_UID p =s "p2" then Some "server error" else Some "not found"
                 | _ => None end) [] [].

Section CreateWitness.
#[local] Existing Instance si_constants_ref.
#[local] Existing Instance env_ok.

Lemma placeholders_fill_the_gang_witness :
  ∃ r pods,
    createAppPlaceholders conf_ref (λ _ _, 0) 0 halfgang_world =
      Some (r, traced halfgang_world (KubeCreate <$> pods)) ∧
    creations conf_ref halfgang_world (origin_of halfgang_world halfgang_app)
      [group_ref "g2" 3; group_ref "g2" 3] r pods.
Proof.
  destruct (placeholders_fill_the_gang conf_ref (λ _ _, 0) 0 halfgang_world halfgang_app)
    as (r & pods & E & Hc); [done|apply halfgang_refs_ok|by vm_compute|].
  exists r, pods. split; [exact E|]. exact Hc.
Defined.

End CreateWitness.

Section CleanWitness.
#[local] Existing Instance si_constants_ref.
#[local] Existing Instance env_stuck.

Lemma cleanup_forgets_no_pod_witness :
  ∃ orphans', cleanUp ∅ 0 halfgang_world =
    Some (orphans', traced halfgang_world
      (KubeDelete ∘ t_pod ∘ snd <$> placeholders_of halfgang_world halfgang_app)) ∧
    cleaned halfgang_world (placeholders_of halfgang_world halfgang_app) ∅ orphans'.
Proof.
  apply (cleanup_forgets_no_pod 0 halfgang_world halfgang_app ∅);
    [done|apply halfgang_refs_ok|apply halfgang_ids_ok].
Defined.

Example cleanup_keeps_the_stuck_pod :
  (λ x, map fst (map_to_list x.1)) <$> cleanUp ∅ 0 halfgang_world = Some ["p2"].
Proof. vm_compute. reflexivity. Qed.
End CleanWitness.
