(* ===== verification/DeferThms.v ===== *)
(** * Deferred releases

    A task that ends before the core has accepted its application cannot be
    released yet: the core does not know the application.  The release is kept
    in the application and sent when the application is accepted. *)

From S2P Require Import Prelude.
From S2P Require Import GoStrings.
From S2P Require Import K8sApi.
From S2P Require Import K8sInstances.
From S2P Require Import Constants.
From S2P Require Import Resource.
From S2P Require Import PodUtils.
From S2P Require Import SiHelper.
From S2P Require Import TaskGroups.
From S2P Require Import SchedulerCache.
From S2P Require Import World.
From S2P Require Import Logic.
From S2P Require Import Fsm.
From S2P Require Import ContextPods.
From S2P Require Import Task.
From S2P Require Import Application.
From S2P Require Import Examples.
From S2P Require Import TaskThms.
From S2P Require Import ApplicationThms.

(** The references, each once, in the order of their first occurrence. *)
Definition add_once (l : list TaskRef) (t : TaskRef) : list TaskRef :=
  if bool_decide (t ∈ l) then l else l ++ [t].

Definition once (l : list TaskRef) (ts : list TaskRef) : list TaskRef := foldl add_once l ts.

Lemma elem_of_once ts l t : t ∈ once l ts ↔ t ∈ l ∨ t ∈ ts.
Proof.
  revert l. induction ts as [|x ts IH]; intros l; [set_solver|]. simpl. rewrite IH. unfold add_once.
  case_bool_decide; set_solver.
Qed.

Lemma NoDup_once ts l : NoDup l → NoDup (once l ts).
Proof.
  revert l. induction ts as [|x ts IH]; intros l Hl; [done|]. simpl. apply IH. unfold add_once.
  case_bool_decide; [done|]. apply NoDup_app. split_and!; [done|set_solver|apply NoDup_singleton].
Qed.

(** All tasks of the application [a] that the heap holds have different IDs. *)
Definition ids_unique (w : World) (a : AppRef) : Prop :=
  ∀ t1 t2 o1 o2, w_tasks w !! t1 = Some o1 → w_tasks w !! t2 = Some o2 →
    t_application o1 = a → t_application o2 = a → t_taskID o1 = t_taskID o2 → t1 = t2.

(** The references point to tasks of the application [a]. *)
Definition belong (w : World) (a : AppRef) (ts : list TaskRef) : Prop :=
  Forall (λ t, ∃ o, w_tasks w !! t = Some o ∧ t_application o = a) ts.

Lemma belong_refs_ok w a ts : belong w a ts → refs_ok w ts.
Proof. intros Hb. eapply Forall_impl; [exact Hb|]. naive_solver. Qed.

Lemma id_listed_iff w a l t o :
  ids_unique w a → belong w a l → w_tasks w !! t = Some o → t_application o = a →
  id_listed w l (t_taskID o) = bool_decide (t ∈ l).
Proof.
  intros Hids Hl Ho Happ. unfold id_listed. apply eq_bool_prop_intro.
  rewrite bool_decide_spec, Is_true_true, existsb_exists. split.
  - intros (t' & Hin & Ht'). apply list_elem_of_In in Hin.
    pose proof (proj1 (Forall_forall _ _) Hl _ Hin) as (o' & Ho' & Happ').
    rewrite Ho' in Ht'. apply bool_decide_eq_true in Ht'.
    by rewrite <- (Hids t' t o' o).
  - intros Hin. exists t. rewrite <- list_elem_of_In, Ho. split; [done|].
    by apply bool_decide_eq_true.
Qed.

(** Tasks marked completed. *)
Definition complete_all (ts : list TaskRef) (m : gmap nat Task) : gmap nat Task :=
  mark_all TCompleted ts m.

Lemma complete_all_lookup ts m t :
  complete_all ts m !! t =
  (if bool_decide (t ∈ ts) then t_set_state TCompleted else id) <$> m !! t.
Proof. apply mark_all_lookup. Qed.

(** The event on the pod of a completed task. *)
Definition completion_event (m : gmap nat Task) (t : TaskRef) : list Effect :=
  match m !! t with
  | Some o => [RecordEvent (pod_UID (t_pod o)) EventTypeNormal "TaskCompleted" "TaskCompleted"]
  | None => []
  end.

Lemma completion_event_alter m t t' :
  completion_event (alter (t_set_state TCompleted) t m) t' = completion_event m t'.
Proof.
  unfold completion_event. destruct (decide (t = t')) as [->|Hne].
  - rewrite lookup_alter_eq. by destruct (m !! t').
  - by rewrite lookup_alter_ne.
Qed.

(** The world after the completions [ts]. *)
Definition completed_world (w : World) (a : AppRef) (app : Application) (ts : list TaskRef) : World :=
  mkWorld (complete_all ts (w_tasks w))
    (<[a := a_set_releaseableTasks (once (a_releaseableTasks app) ts) app]> (w_apps w))
    (w_applications w) (w_cache w) (w_next w)
    (w_trace w ++ (ts ≫= completion_event (w_tasks w))).

Lemma ids_unique_completed w w' a t o :
  w_tasks w' = <[t := t_set_state TCompleted o]> (w_tasks w) → w_tasks w !! t = Some o →
  (ids_unique w a → ids_unique w' a) ∧ (∀ l, belong w a l → belong w' a l).
Proof.
  intros Hw Ho.
  assert (Hlook : ∀ x y, w_tasks w' !! x = Some y →
    ∃ z, w_tasks w !! x = Some z ∧ t_taskID y = t_taskID z ∧ t_application y = t_application z).
  { intros x y. rewrite Hw, lookup_insert_Some. intros [[<- <-]|[_ Hx]]; eauto. }
  split.
  - intros Hids t1 t2 o1 o2 H1 H2 A1 A2 Hid.
    destruct (Hlook _ _ H1) as (z1 & ? & ? & ?), (Hlook _ _ H2) as (z2 & ? & ? & ?).
    eapply (Hids t1 t2 z1 z2); congruence.
  - intros l Hl. eapply Forall_impl; [exact Hl|]. intros x (z & Hz & Happ). rewrite Hw.
    destruct (decide (t = x)) as [->|Hne].
    + eexists. rewrite lookup_insert_eq. split; [done|]. simpl. congruence.
    + exists z. by rewrite lookup_insert_ne.
Qed.

Section Defer.
Context `{SiConstants} `{QuantityOps} `{NodeInfoOps} `{MO : MapOrder} `{TerminationTypes}.
Context `{PodHelpers} `{Env} `{FE : FsmEngine} `{FL : !FsmLaws} (conf : ShimConf).

(** A sequence of completions of tasks. *)
Definition complete_tasks (ts : list TaskRef) : M unit :=
  for_each ts (λ t, _ ← task_handle conf t (SimpleTaskEvent CompleteTask); mret tt).

Lemma a_set_releaseableTasks_twice l l' app :
  a_set_releaseableTasks l (a_set_releaseableTasks l' app) = a_set_releaseableTasks l app.
Proof. done. Qed.

Lemma a_set_releaseableTasks_same app : a_set_releaseableTasks (a_releaseableTasks app) app = app.
Proof. by destruct app. Qed.

(** One completion while the application is not accepted. *)
Lemma run_complete_one w a app t :
  w_apps w !! a = Some app → unaccepted app = true → ids_unique w a →
  belong w a (a_releaseableTasks app) → belong w a [t] →
  task_handle conf t (SimpleTaskEvent CompleteTask) w = Some (None, completed_world w a app [t]).
Proof.
  intros Ha Hs Hids Hl Ht. apply Forall_cons in Ht as [(o & Ho & Happ) _].
  rewrite (run_complete_deferred conf t w o app); [|done|by rewrite Happ|done|by eapply belong_refs_ok].
  rewrite (id_listed_iff w a _ t o) by done. rewrite Happ. f_equal. f_equal. unfold completed_world.
  simpl. unfold add_once, completion_event. rewrite Ho, app_nil_r.
  assert (Halter : alter (t_set_state TCompleted) t (w_tasks w) =
    <[t := t_set_state TCompleted o]> (w_tasks w)) by (by apply alter_as_insert).
  rewrite Halter. case_bool_decide; [|done].
  by rewrite a_set_releaseableTasks_same, (insert_id (w_apps w)).
Qed.

Lemma run_complete_tasks ts w a app :
  w_apps w !! a = Some app → unaccepted app = true → ids_unique w a →
  belong w a (a_releaseableTasks app) → belong w a ts →
  complete_tasks ts w = Some (tt, completed_world w a app ts).
Proof.
  revert w app. induction ts as [|t ts IH]; intros w app Ha Hs Hids Hl Hts.
  - unfold complete_tasks, completed_world. simpl.
    rewrite a_set_releaseableTasks_same, insert_id, app_nil_r by done. by destruct w.
  - unfold complete_tasks. cbn [for_each]. rewrite !run_bind.
    apply Forall_cons in Hts as [Ht Hts]. pose proof Ht as (o & Ho & Happ).
    rewrite (run_complete_one w a app t) by (try done; by apply Forall_cons).
    rewrite run_ret. set (w1 := completed_world w a app [t]).
    assert (Hw1 : w_tasks w1 = <[t := t_set_state TCompleted o]> (w_tasks w))
      by (simpl; by apply alter_as_insert).
    destruct (ids_unique_completed w w1 a t o Hw1 Ho) as [Hids' Hbel'].
    change (for_each ts _) with (complete_tasks ts).
    rewrite (IH w1 (a_set_releaseableTasks (once (a_releaseableTasks app) [t]) app)).
    + f_equal. f_equal. unfold completed_world. simpl.
      rewrite insert_insert_eq, app_nil_r, <- app_assoc. f_equal. f_equal. f_equal.
      apply list_bind_ext; [|done]. intros t'. apply completion_event_alter.
    + apply lookup_insert_eq.
    + done.
    + auto.
    + apply Hbel'. simpl. unfold add_once. case_bool_decide; [done|].
      apply Forall_app. split; [done|]. by apply Forall_cons.
    + auto.
Qed.

(** ** Acceptance *)

(** The releases of the tasks behind [l], in order. *)
Definition releases (w : World) (app : Application) (l : list TaskRef) : list Effect :=
  map (λ x : TaskRef * Task, release_of x.2 app) (deref w l).

Lemma run_release_all l w a app :
  w_apps w !! a = Some app → belong w a l →
  for_each l (λ t, releaseAllocation t true) w = Some (tt, traced w (releases w app l)).
Proof.
  intros Ha Hl. revert w Ha Hl. induction l as [|t l IH]; intros w Ha Hl; simpl.
  - by rewrite traced_nil.
  - apply Forall_cons in Hl as [(o & Ho & Happ) Hl]. rewrite run_bind.
    rewrite (run_release_sent t true w o app); [|done|by rewrite Happ|by left].
    rewrite (IH (traced w [release_of o app])) by done. rewrite traced_traced.
    unfold releases. simpl. by rewrite Ho.
Qed.

(** The application once accepted, its deferred releases taken over. *)
Definition accepted (app : Application) : Application :=
  a_set_releaseableTasks [] (a_set_state AAccepted app).

Definition all_terminated (w : World) (app : Application) : bool :=
  bool_decide (Forall (λ x : TaskRef * Task, isTerminated x.2 = true) (tasks_of w app)).

Lemma app_refs_ok_accepted w w' app app' :
  app_refs_ok w app → w_tasks w' = w_tasks w → a_taskMap app' = a_taskMap app →
  a_originatingTask app' = a_originatingTask app → a_releaseableTasks app' = [] →
  app_refs_ok w' app'.
Proof.
  intros (Hmap & Horig & _) Ht Hm Ho Hr. unfold app_refs_ok. rewrite Ht, Hm, Ho, Hr.
  split_and!; [done..|]. by apply Forall_nil.
Qed.

Lemma run_flush w a app :
  w_apps w !! a = Some app → app_refs_ok w app → a_releaseableTasks app ≠ [] →
  belong w a (a_releaseableTasks app) →
  let app' := a_set_releaseableTasks [] app in
  flushReleaseableTasks a w = Some (tt,
    if all_terminated w app then
      mkWorld (w_tasks w) (<[a := app']> (w_apps w))
        (if a_hasContext app then delete (a_applicationID app) (w_applications w)
         else w_applications w)
        (w_cache w) (w_next w)
        (w_trace w ++ [UpdateApplication (CreateUpdateRequestForRemoveApplication
                         (a_applicationID app) (a_partition app))])
    else traced (with_app w a app') (releases w app (a_releaseableTasks app))).
Proof.
  intros Ha Hok Hne Hl app'. unfold flushReleaseableTasks. run.
  rewrite bool_decide_eq_false_2 by (by destruct (a_releaseableTasks app)). run.
  assert (Hok' : app_refs_ok (with_app w a app') app') by (by eapply app_refs_ok_accepted).
  fold app'. rewrite (run_AreAllTasksTerminated a _ app') by (try done; apply with_app_lookup). run.
  change (tasks_of (with_app w a app') app') with (tasks_of w app). fold (all_terminated w app).
  destruct (all_terminated w app).
  - unfold removeFromSchedulerCore. run. destruct (a_hasContext app); run; [|done].
    unfold removeApplication. rewrite run_bind. cbn [get_world]. simpl.
    destruct (w_applications w !! a_applicationID app) eqn:E; [done|].
    rewrite delete_id by done. done.
  - rewrite (run_release_all _ _ a app') by (try done; apply with_app_lookup). done.
Qed.

Lemma run_accept w a app w' :
  w_apps w !! a = Some app → a_state app = ASubmitted →
  flushReleaseableTasks a (with_app w a (a_set_state AAccepted app)) = Some (tt, w') →
  app_handle a (SimpleApplicationEvent AcceptApplication) w = Some (None, w').
Proof.
  intros Ha Hs Hf. unfold app_handle. rewrite run_bind, fsm_Event_spec. unfold fsm_run, app_machine.
  cbn [m_Current m_before m_after m_enter m_SetState app_event app_event_args]. run.
  rewrite Hs. change (fsm_dst app_events ASubmitted AcceptApplication) with (Some AAccepted).
  run. cbn [app_enter]. rewrite bool_decide_eq_false_2 by done. run. rewrite Hf. run.
  cbn [app_after]. run. done.
Qed.

(** The requests of a trace that go to the scheduler core. *)
Definition to_core (e : Effect) : bool :=
  match e with UpdateAllocation _ | UpdateApplication _ | UpdateNode _ => true | _ => false end.

Definition core_requests (tr : list Effect) : list Effect := filter to_core tr.

Lemma core_requests_app l l' : core_requests (l ++ l') = core_requests l ++ core_requests l'.
Proof. apply filter_app. Qed.

Lemma core_requests_completion m ts : core_requests (ts ≫= completion_event m) = [].
Proof.
  induction ts as [|t ts IH]; [done|]. rewrite bind_cons, core_requests_app, IH.
  unfold completion_event. by destruct (m !! t).
Qed.

Lemma core_requests_releases w app l : core_requests (releases w app l) = releases w app l.
Proof.
  unfold releases. induction (deref w l) as [|x xs IH]; [done|]. simpl. unfold core_requests in *.
  rewrite filter_cons_True by done. by f_equal.
Qed.

Lemma releases_completed w w' app app' ts l :
  w_tasks w' = complete_all ts (w_tasks w) → a_partition app' = a_partition app →
  releases w' app' l = releases w app l.
Proof.
  intros Hw Hp. unfold releases, deref. induction l as [|t l IH]; [done|]. simpl.
  rewrite Hw, complete_all_lookup in *. destruct (w_tasks w !! t) as [o|]; simpl; [|done].
  f_equal; [|done]. unfold release_of. rewrite Hp. by case_bool_decide.
Qed.

Lemma app_refs_ok_completed w a app ts :
  app_refs_ok w app → belong w a ts →
  app_refs_ok (with_app (completed_world w a app ts) a
    (a_set_state AAccepted (a_set_releaseableTasks (once (a_releaseableTasks app) ts) app)))
    (a_set_state AAccepted (a_set_releaseableTasks (once (a_releaseableTasks app) ts) app)).
Proof.
  intros (Hmap & Horig & Hrel) Hts.
  assert (Hs : ∀ t, is_Some (w_tasks w !! t) → is_Some (complete_all ts (w_tasks w) !! t)).
  { intros t [o Ho]. rewrite complete_all_lookup, Ho. eauto. }
  split_and!; simpl; eauto. apply Forall_forall. intros t Ht. apply Hs.
  apply elem_of_once in Ht as [Ht|Ht].
  - by eapply (proj1 (Forall_forall _ _) Hrel).
  - by eapply (proj1 (Forall_forall _ _) (belong_refs_ok _ _ _ Hts)).
Qed.

Lemma belong_completed w a app ts l :
  belong w a l → belong (completed_world w a app ts) a l.
Proof.
  intros Hl. eapply Forall_impl; [exact Hl|]. intros t (o & Ho & Happ). simpl.
  rewrite complete_all_lookup, Ho. eexists. split; [done|]. by case_bool_decide.
Qed.

Lemma all_terminated_completed w a app ts :
  all_terminated (completed_world w a app ts) app = true ↔
  ∀ k t o, a_taskMap app !! k = Some t → w_tasks w !! t = Some o → t ∈ ts ∨ isTerminated o = true.
Proof.
  unfold all_terminated. rewrite bool_decide_eq_true, Forall_forall. split.
  - intros Hall k t o Hk Ho. destruct (decide (t ∈ ts)) as [|Hni]; [by left|]. right.
    apply (Hall (t, o)), elem_of_tasks_of. split; [by exists k|]. simpl.
    by rewrite complete_all_lookup, Ho, bool_decide_eq_false_2.
  - intros Hall [t o] Hin. apply elem_of_tasks_of in Hin as [[k Hk] Ho]. simpl in Ho.
    rewrite complete_all_lookup in Ho. destruct (w_tasks w !! t) as [o'|] eqn:Ho'; [|done].
    simplify_eq/=. case_bool_decide as Hts; [done|]. by destruct (Hall k t o' Hk Ho').
Qed.

(** C13: no release is lost or sent twice when tasks end before the core knows
    their application.  Whatever sequence of completion events arrives for
    tasks of a submitted application, nothing is sent to the core meanwhile;
    when the application is accepted the core gets exactly one release per
    completed task, in the order of the first completions, or, when no task of
    the application is left alive, the single request that removes the
    application, which is then also gone from the context. *)
Theorem deferred_releases_are_replayed w a app ts :
  w_apps w !! a = Some app → a_state app = ASubmitted → a_releaseableTasks app = [] →
  app_refs_ok w app → ids_unique w a → belong w a ts → ts ≠ [] →
  ∃ w1 w2,
    complete_tasks ts w = Some (tt, w1) ∧ core_requests (w_trace w1) = core_requests (w_trace w) ∧
    app_handle a (SimpleApplicationEvent AcceptApplication) w1 = Some (None, w2) ∧
    w_apps w2 !! a = Some (accepted app) ∧ NoDup (once [] ts) ∧
    ((∃ k t o, a_taskMap app !! k = Some t ∧ w_tasks w !! t = Some o ∧ (t ∉ ts) ∧
        isTerminated o = false) →
      core_requests (w_trace w2) = core_requests (w_trace w) ++ releases w app (once [] ts)) ∧
    ((∀ k t o, a_taskMap app !! k = Some t → w_tasks w !! t = Some o →
        t ∈ ts ∨ isTerminated o = true) →
      core_requests (w_trace w2) = core_requests (w_trace w) ++
        [UpdateApplication (CreateUpdateRequestForRemoveApplication (a_applicationID app)
           (a_partition app))] ∧
      (a_hasContext app = true → w_applications w2 !! a_applicationID app = None)).
Proof.
  intros Ha Hs Hr Hok Hids Hts Hne.
  assert (Hbel : belong w a (once [] ts)).
  { apply Forall_forall. intros t [Ht|Ht]%elem_of_once; [set_solver|].
    by apply (proj1 (Forall_forall _ _) Hts). }
  assert (Hcore : core_requests (w_trace (completed_world w a app ts)) = core_requests (w_trace w)).
  { simpl. by rewrite core_requests_app, core_requests_completion, app_nil_r. }
  pose proof (app_refs_ok_completed w a app ts Hok Hts) as Hok'.
  set (w1 := completed_world w a app ts) in *. rewrite Hr in Hok'.
  set (app1 := a_set_state AAccepted (a_set_releaseableTasks (once [] ts) app)) in *.
  exists w1. assert (Happ1 : w_apps w1 !! a = Some (a_set_releaseableTasks (once [] ts) app)).
  { simpl. by rewrite lookup_insert_eq, Hr. }
  assert (Hne1 : a_releaseableTasks app1 ≠ []).
  { simpl. destruct ts as [|t ts]; [done|]. intros E. assert (Hin : t ∈ once [] (t :: ts))
      by (apply elem_of_once; set_solver). rewrite E in Hin. set_solver. }
  assert (Hun : unaccepted app = true) by (unfold unaccepted; by rewrite Hs).
  assert (Hrel : belong w a (a_releaseableTasks app)) by (rewrite Hr; by apply Forall_nil).
  assert (Hbel1 : belong (with_app w1 a app1) a (a_releaseableTasks app1))
    by (by apply belong_completed).
  pose proof (run_flush (with_app w1 a app1) a app1 (with_app_lookup _ _ _) Hok' Hne1 Hbel1) as Hf.
  change (all_terminated (with_app w1 a app1) app1) with (all_terminated w1 app) in Hf.
  eexists. split_and!; [by apply run_complete_tasks|done| | | | |].
  - eapply run_accept; [exact Happ1|done|exact Hf].
  - destruct (all_terminated _ _); simpl; by rewrite lookup_insert_eq.
  - apply NoDup_once, NoDup_nil_2.
  - intros (k & t & o & Hk & Ho & Hni & Hterm).
    destruct (all_terminated w1 app) eqn:Et.
    + pose proof (proj1 (all_terminated_completed w a app ts) Et k t o Hk Ho) as [|]; congruence.
    + unfold traced. cbn [w_trace]. rewrite core_requests_app, core_requests_releases.
      rewrite (releases_completed w _ app _ ts) by done. simpl. by rewrite <- Hcore.
  - intros Hall%(all_terminated_completed w a app ts). fold w1 in Hall. rewrite Hall. cbn [w_trace].
    rewrite core_requests_app. split; [by rewrite <- Hcore|]. simpl. intros ->. apply lookup_delete_eq.
Qed.

End Defer.

#[local] Existing Instance env_ok.
#[local] Existing Instance si_constants_ref.

(** Two tasks of a submitted application; the first ends twice before the
    application is accepted. *)
Definition defer_world : World :=
  world_ref ASubmitted [] [task_ref "t1" 0 TNew false ""; task_ref "t2" 0 TNew false ""]
    NewSchedulerCache.

Lemma deferred_releases_are_replayed_witness :
  ∃ w1 w2,
    complete_tasks conf_ref [1; 1] defer_world = Some (tt, w1) ∧
    app_handle 0 (SimpleApplicationEvent AcceptApplication) w1 = Some (None, w2) ∧
    core_requests (w_trace w2) =
      [UpdateAllocation (CreateReleaseRequestForTask "app-1" "t1" "default" STOPPED_BY_RM)].
Proof.
  destruct (deferred_releases_are_replayed conf_ref defer_world 0
    (app_ref ASubmitted (<["t1" := 1]> (<["t2" := 2]> ∅)) []) [1; 1])
    as (w1 & w2 & E1 & _ & E2 & _ & _ & Hlive & _); try done.
  - split_and!; [|done|by apply Forall_nil]. intros k t Hk. heap_cases Hk; by eexists.
  - intros t1 t2 o1 o2 H1 H2. heap_cases H1; heap_cases H2; done.
  - by repeat constructor; eexists.
  - exists w1, w2. split_and!; [done..|]. rewrite Hlive; [done|].
    exists "t2", 2, (task_ref "t2" 0 TNew false ""). by vm_compute; set_solver.
Defined.
