(* ===== verification/GangThms.v ===== *)
(** * Gang reservation

    When a reserving application starts to run: exactly when enough
    placeholders of every task group are bound. *)

From S2P Require Import Prelude.
From S2P Require Import GoStrings.
From S2P Require Import K8sApi.
From S2P Require Import K8sInstances.
From S2P Require Import Constants.
From S2P Require Import Resource.
From S2P Require Import PodUtils.
From S2P Require Import SiHelper.
From S2P Require Import TaskGroups.
From S2P Require Import SchedulerCache.
From S2P Require Import World.
From S2P Require Import Logic.
From S2P Require Import Fsm.
From S2P Require Import ContextPods.
From S2P Require Import Task.
From S2P Require Import Application.
From S2P Require Import Examples.
From S2P Require Import TaskThms.
From S2P Require Import ApplicationThms.

(** ** Counting *)

Definition counts_for (g : string) (o : Task) : bool :=
  t_placeholder o && (t_taskGroupName o =s g).

Definition count_group (g : string) (l : list Task) : nat := length (filter (counts_for g) l).

Lemma count_group_cons g o l :
  count_group g (o :: l) = (if counts_for g o then 1 else 0) + count_group g l.
Proof. unfold count_group. rewrite filter_cons. by destruct (counts_for g o). Qed.

Lemma countBound_lookup counts o g :
  countBound counts o !! g =
  (λ z, if counts_for g o then wrap32 (z - 1) else z) <$> counts !! g.
Proof.
  unfold countBound, counts_for. destruct (t_placeholder o); simpl; [|by rewrite option_fmap_id].
  case_bool_decide as Hg.
  - subst g. destruct (counts !! t_taskGroupName o) eqn:E; simpl; [|done]. by rewrite lookup_insert_eq.
  - rewrite option_fmap_id. destruct (counts !! t_taskGroupName o); [|done].
    by rewrite lookup_insert_ne.
Qed.

(** Within the range of [int32] the counters count. *)
Lemma counts_exact l counts g :
  (∀ z, counts !! g = Some z → (MinInt32 + Z.of_nat (length l) <= z <= MaxInt32)%Z) →
  foldl countBound counts l !! g = (λ z, (z - Z.of_nat (count_group g l))%Z) <$> counts !! g.
Proof.
  revert counts. induction l as [|o l IH]; intros counts Hr.
  { simpl. destruct (counts !! g); [|done]. simpl. f_equal. unfold count_group. simpl. lia. }
  cbn [foldl]. rewrite IH; rewrite countBound_lookup.
  - rewrite count_group_cons. destruct (counts !! g) as [z|] eqn:E; [|done]. simpl. f_equal.
    specialize (Hr z eq_refl). unfold MinInt32, MaxInt32 in Hr. cbn [length] in Hr.
    destruct (counts_for g o); [|lia]. rewrite wrap32_id; [lia|].
    unfold in_int32, MinInt32, MaxInt32. lia.
  - intros z. destruct (counts !! g) as [z'|] eqn:E; [|done]. simpl. intros [= <-].
    specialize (Hr z' eq_refl). unfold MinInt32, MaxInt32 in *. cbn [length] in Hr.
    destruct (counts_for g o); [|lia]. rewrite wrap32_id; [lia|].
    unfold in_int32, MinInt32, MaxInt32. lia.
Qed.

Lemma initCounts_lookup_gen tgs (counts : gmap string Z) g :
  NoDup (map tg_Name tgs) →
  foldl (λ counts tg, <[tg_Name tg := tg_MinMember tg]> counts) counts tgs !! g =
  match list_find (λ tg, tg_Name tg = g) tgs with
  | Some (_, tg) => Some (tg_MinMember tg)
  | None => counts !! g
  end.
Proof.
  revert counts. induction tgs as [|tg tgs IH]; intros counts Hnd; [done|].
  cbn [map] in Hnd. apply NoDup_cons in Hnd as [Hni Hnd]. cbn [foldl list_find].
  rewrite IH by done. case_decide as Hg.
  - destruct (list_find _ tgs) as [[i tg']|] eqn:E.
    + apply list_find_Some in E as (E & Hg' & _). exfalso. apply Hni.
      rewrite Hg, <- Hg'. apply list_elem_of_fmap. eexists. split; [done|].
      by eapply list_elem_of_lookup_2.
    + rewrite Hg. by rewrite lookup_insert_eq.
  - destruct (list_find _ tgs) as [[i tg']|]; simpl; [done|]. by rewrite lookup_insert_ne.
Qed.

Lemma initCounts_lookup tgs g z :
  NoDup (map tg_Name tgs) →
  initCounts tgs !! g = Some z ↔ ∃ tg, tg ∈ tgs ∧ tg_Name tg = g ∧ tg_MinMember tg = z.
Proof.
  intros Hnd. unfold initCounts. rewrite initCounts_lookup_gen by done. rewrite lookup_empty. split.
  - destruct (list_find _ tgs) as [[i tg]|] eqn:E; [|done]. intros [= <-].
    apply list_find_Some in E as (E & Hg & _). exists tg. split_and!; [|done..].
    by eapply list_elem_of_lookup_2.
  - intros (tg & Hin & <- & <-).
    destruct (list_find _ tgs) as [[i tg']|] eqn:E.
    + apply list_find_Some in E as (E & Hg & _). apply list_elem_of_lookup_2 in E.
      apply list_elem_of_lookup in Hin as [j Hj], E as [j' Hj']. f_equal. f_equal.
      assert (j = j') as <-.
      { eapply (NoDup_lookup (map tg_Name tgs)); [done|..].
        - rewrite list_lookup_fmap, Hj. done.
        - rewrite list_lookup_fmap, Hj'. simpl. by rewrite Hg. }
      congruence.
    + apply list_find_None in E. rewrite Forall_forall in E. by destruct (E tg Hin).
Qed.

Section Gang.
Context `{SiConstants} `{QuantityOps} `{NodeInfoOps} `{MO : MapOrder} `{TerminationTypes}.
Context `{PodHelpers} `{Env} `{FE : FsmEngine} `{FL : !FsmLaws}.

(** The bound placeholders of a task group. *)
Definition bound_placeholders (w : World) (app : Application) (g : string) : nat :=
  length (filter (λ x : TaskRef * Task, t_state x.2 = TBound ∧ counts_for g x.2) (tasks_of w app)).

Lemma deref_fst w (l : list (TaskRef * Task)) :
  Forall (λ x, w_tasks w !! x.1 = Some x.2) l → deref w l.*1 = l.
Proof.
  unfold deref. induction 1 as [|[t o] l Ho Hl IH]; [done|]. simpl in *. rewrite Ho. simpl.
  by f_equal.
Qed.

Lemma tasks_of_heap w app : Forall (λ x, w_tasks w !! x.1 = Some x.2) (tasks_of w app).
Proof. apply Forall_forall. intros [t o] Hin. by apply elem_of_tasks_of in Hin as [_ ?]. Qed.

(** The tasks in a state, as [getTasks] followed by reading them gives them. *)
Lemma deref_tasks_in w app s :
  deref w (tasks_in w app s) ≡ₚ filter (λ x : TaskRef * Task, t_state x.2 = s) (tasks_of w app).
Proof.
  unfold tasks_in. rewrite deref_fst.
  - apply merge_sort_Permutation.
  - rewrite merge_sort_Permutation. apply Forall_forall. intros x [_ Hx]%list_elem_of_filter.
    by apply (proj1 (Forall_forall _ _) (tasks_of_heap w app)).
Qed.

Lemma count_bound w app g :
  count_group g (deref w (tasks_in w app TBound)).*2 = bound_placeholders w app g.
Proof.
  unfold count_group, bound_placeholders.
  assert (Hp : (deref w (tasks_in w app TBound)).*2 ≡ₚ
    (filter (λ x : TaskRef * Task, t_state x.2 = TBound) (tasks_of w app)).*2)
    by (by rewrite deref_tasks_in).
  rewrite Hp. clear Hp. induction (tasks_of w app) as [|x l IH]; [done|].
  rewrite !filter_cons. destruct (decide (t_state x.2 = TBound)) as [Hb|Hb].
  - rewrite fmap_cons, filter_cons. destruct (counts_for g x.2) eqn:Ec; simpl.
    + rewrite decide_True by done. simpl. by rewrite IH.
    + rewrite decide_False by tauto. apply IH.
  - rewrite decide_False by tauto. apply IH.
Qed.

Lemma deref_length w l : length (deref w l) <= length l.
Proof.
  unfold deref. induction l as [|t l IH]; [done|]. cbn [omap list_omap].
  destruct (w_tasks w !! t); simpl in *; lia.
Qed.

Lemma tasks_in_length w app s : length (deref w (tasks_in w app s)) <= size (a_taskMap app).
Proof.
  rewrite deref_tasks_in, length_filter. unfold tasks_of. rewrite deref_length, length_fmap.
  by rewrite go_range_perm, length_map_to_list.
Qed.

Definition reserved (w : World) (app : Application) : Prop :=
  Forall (λ tg, (tg_MinMember tg <= Z.of_nat (bound_placeholders w app (tg_Name tg)))%Z)
    (a_taskGroups app).

#[export] Instance reserved_dec w app : Decision (reserved w app).
Proof. unfold reserved. apply _. Defined.

Lemma waiting_iff w app :
  NoDup (map tg_Name (a_taskGroups app)) →
  Forall (λ tg, (0 <= tg_MinMember tg <= MaxInt32)%Z) (a_taskGroups app) →
  (Z.of_nat (size (a_taskMap app)) <= MaxInt32)%Z →
  existsb (λ ki : string * Z, (0 <? ki.2)%Z)
    (go_range (foldl countBound (initCounts (a_taskGroups app))
       (deref w (tasks_in w app TBound)).*2)) = bool_decide (¬ reserved w app).
Proof.
  intros Hnd Hmin Hsize. rewrite Forall_forall in Hmin.
  assert (Hlook : ∀ g, foldl countBound (initCounts (a_taskGroups app))
       (deref w (tasks_in w app TBound)).*2 !! g =
     (λ z, (z - Z.of_nat (bound_placeholders w app g))%Z) <$> initCounts (a_taskGroups app) !! g).
  { intros g. rewrite counts_exact, count_bound; [done|]. intros z Hz.
    apply initCounts_lookup in Hz as (tg & Hin & _ & <-); [|done]. rewrite length_fmap.
    pose proof (tasks_in_length w app TBound). specialize (Hmin tg Hin).
    unfold MinInt32, MaxInt32 in *. lia. }
  apply eq_bool_prop_intro. rewrite bool_decide_spec, Is_true_true, existsb_exists. split.
  - intros ([g z] & Hin & Hz). apply list_elem_of_In, elem_of_go_range in Hin.
    rewrite Hlook in Hin. simpl in Hz. apply Z.ltb_lt in Hz.
    destruct (initCounts _ !! g) as [m|] eqn:Em; [|done]. simpl in Hin. injection Hin as <-.
    apply initCounts_lookup in Em as (tg & Hin & <- & <-); [|done].
    intros Hres. unfold reserved in Hres. rewrite Forall_forall in Hres. specialize (Hres tg Hin). lia.
  - unfold reserved. intros Hres. apply not_Forall_Exists in Hres; [|apply _].
    apply Exists_exists in Hres as (tg & Hin & Hlt).
    eexists (tg_Name tg, _). rewrite <- list_elem_of_In, elem_of_go_range, Hlook.
    rewrite (proj2 (initCounts_lookup _ (tg_Name tg) (tg_MinMember tg) Hnd)) by eauto. simpl.
    split; [done|]. apply Z.ltb_lt. simpl in Hlt. lia.
Qed.

Lemma run_onReservationStateChange a w app :
  w_apps w !! a = Some app → app_refs_ok w app →
  NoDup (map tg_Name (a_taskGroups app)) →
  Forall (λ tg, (0 <= tg_MinMember tg <= MaxInt32)%Z) (a_taskGroups app) →
  (Z.of_nat (size (a_taskMap app)) <= MaxInt32)%Z →
  ∃ l, onReservationStateChange a w = Some (tt, traced w l) ∧
    dispatched l =
    (if decide (reserved w app) then [DApp (a_applicationID app) RunApplicationEvent] else []).
Proof.
  intros Ha Hok Hnd Hmin Hsize. unfold onReservationStateChange. rewrite run_bind.
  destruct (run_record_originating a w app EventTypeNormal "GangScheduling" "PlaceholderAllocated"
    Ha Hok) as (l1 & -> & Hl1). run. rewrite (run_getTasks a _ app) by done. run.
  rewrite run_load_tasks; cycle 1.
  { apply Forall_forall. intros t Ht. apply elem_of_tasks_in in Ht as [_ (o & Ho & _)]. eauto. }
  run. change (deref (traced w l1) (tasks_in (traced w l1) app TBound))
    with (deref w (tasks_in w app TBound)). rewrite waiting_iff by done.
  case_decide as Hres.
  - rewrite bool_decide_eq_false_2 by tauto. run.
    destruct (run_record_originating a (traced w l1) app EventTypeNormal "GangScheduling"
      "GangReservationComplete" Ha Hok) as (l2 & -> & Hl2). run.
    rewrite traced_traced. eexists. split; [by rewrite traced_traced|].
    rewrite !dispatched_app. by erewrite !dispatched_records by done.
  - rewrite bool_decide_eq_true_2 by done. run. exists l1. split; [done|].
    by eapply dispatched_records.
Qed.

Lemma run_update_reservation a w app l :
  w_apps w !! a = Some app → a_state app = AReserving →
  onReservationStateChange a w = Some (tt, traced w l) →
  app_handle a UpdateApplicationReservationEvent w = Some (None, traced w l).
Proof.
  intros Ha Hs Hr. unfold app_handle. rewrite run_bind, fsm_Event_spec. unfold fsm_run, app_machine.
  cbn [m_Current m_before m_after m_enter m_SetState app_event app_event_args]. run. rewrite Hs.
  change (fsm_dst app_events AReserving UpdateReservation) with (Some AReserving). cbv beta iota. run.
  rewrite bool_decide_eq_true_2 by done. cbn [app_after]. run. rewrite Hr. run. done.
Qed.

(** C14: a gang starts exactly when it is complete.  On a reservation update of a
    reserving application whose task groups have distinct names and sane member
    counts, the event that starts the application is dispatched if and only if
    for every task group at least [minMember] placeholder tasks of the group are
    bound; nothing else is dispatched, and no task or application changes. *)
Theorem gang_runs_iff_reserved a w app :
  w_apps w !! a = Some app → a_state app = AReserving → app_refs_ok w app →
  NoDup (map tg_Name (a_taskGroups app)) →
  Forall (λ tg, (0 <= tg_MinMember tg <= MaxInt32)%Z) (a_taskGroups app) →
  (Z.of_nat (size (a_taskMap app)) <= MaxInt32)%Z →
  ∃ l, app_handle a UpdateApplicationReservationEvent w = Some (None, traced w l) ∧
    dispatched l =
    (if decide (Forall (λ tg,
          (tg_MinMember tg <= Z.of_nat (bound_placeholders w app (tg_Name tg)))%Z) (a_taskGroups app))
     then [DApp (a_applicationID app) RunApplicationEvent] else []).
Proof.
  intros Ha Hs Hok Hnd Hmin Hsize.
  destruct (run_onReservationStateChange a w app Ha Hok Hnd Hmin Hsize) as (l & Hr & Hd).
  exists l. split; [by apply (run_update_reservation a w app)|]. rewrite Hd.
  by apply decide_ext.
Qed.

End Gang.

(** ** Closed instance *)

#[local] Existing Instance env_ok.
#[local] Existing Instance si_constants_ref.

(** Two groups; one placeholder of the second is not bound yet. *)
Definition gang_world (s : TaskState) : World :=
  world_ref AReserving [group_ref "g1" 1; group_ref "g2" 2]
    [task_ref "p1" 0 TBound true "g1"; task_ref "p2" 0 TBound true "g2"; task_ref "p3" 0 s true "g2"]
    NewSchedulerCache.

Definition gang_app : Application :=
  app_ref AReserving (<["p1" := 1]> (<["p2" := 2]> (<["p3" := 3]> ∅)))
    [group_ref "g1" 1; group_ref "g2" 2].

Lemma gang_runs_iff_reserved_witness :
  (∃ l, app_handle 0 UpdateApplicationReservationEvent (gang_world TBound) =
     Some (None, traced (gang_world TBound) l) ∧
     dispatched l = [DApp "app-1" RunApplicationEvent]) ∧
  (∃ l, app_handle 0 UpdateApplicationReservationEvent (gang_world TAllocated) =
     Some (None, traced (gang_world TAllocated) l) ∧ dispatched l = []).
Proof.
  assert (Hok : ∀ s, app_refs_ok (gang_world s) gang_app).
  { intros s. split_and!; [|done|by apply Forall_nil]. intros k t Hk. heap_cases Hk; by eexists. }
  assert (Hnd : NoDup (map tg_Name (a_taskGroups gang_app))) by (by apply (bool_decide_unpack _); vm_compute).
  assert (Hmin : Forall (λ tg, (0 <= tg_MinMember tg <= MaxInt32)%Z) (a_taskGroups gang_app)).
  { repeat constructor; simpl; unfold MaxInt32; lia. }
  split.
  - destruct (gang_runs_iff_reserved 0 (gang_world TBound) gang_app) as (l & E & Hd);
      [done|done|apply Hok|done|done|by vm_compute|].
    exists l. split; [exact E|]. rewrite Hd. vm_compute. reflexivity.
  - destruct (gang_runs_iff_reserved 0 (gang_world TAllocated) gang_app) as (l & E & Hd);
      [done|done|apply Hok|done|done|by vm_compute|].
    exists l. split; [exact E|]. rewrite Hd. vm_compute. reflexivity.
Defined.
