(* ===== verification/ScheduleThms.v ===== *)
(** * Scheduling rounds

    A scheduling round of an application submits the new tasks of the right
    kind (placeholders while reserving, the others while running), oldest
    first, skips those whose volume claims are not ready, and drops terminated
    tasks from the application. *)

From S2P Require Import Prelude.
From S2P Require Import GoStrings.
From S2P Require Import K8sApi.
From S2P Require Import K8sInstances.
From S2P Require Import Constants.
From S2P Require Import Resource.
From S2P Require Import PodUtils.
From S2P Require Import SiHelper.
From S2P Require Import TaskGroups.
From S2P Require Import SchedulerCache.
From S2P Require Import World.
From S2P Require Import Logic.
From S2P Require Import Fsm.
From S2P Require Import ContextPods.
From S2P Require Import Task.
From S2P Require Import Application.
From S2P Require Import Examples.
From S2P Require Import TaskThms.
From S2P Require Import ApplicationThms.
From S2P Require Import GangThms.

Section Schedule.
Context `{SiConstants} `{QuantityOps} `{NodeInfoOps} `{MO : MapOrder} `{TerminationTypes}.
Context `{PodHelpers} `{Env} `{FE : FsmEngine} `{FL : !FsmLaws} (conf : ShimConf).

(** ** One task *)

Lemma run_checkVolumes ns vols w : ∃ r, checkVolumes ns vols w = Some (r, w).
Proof.
  induction vols as [|v vols IH]; simpl; [by exists None|].
  destruct (vol_PersistentVolumeClaim v) as [pvc|]; [|apply IH]. rewrite run_bind. unfold ask.
  destruct (pvc_Get _ _ _) as [[name deleted]|err]; [|by eexists].
  destruct deleted; [by eexists|apply IH].
Qed.

Lemma checkVolumes_none ns vols w :
  Forall (λ v, vol_PersistentVolumeClaim v = None) vols → checkVolumes ns vols w = Some (None, w).
Proof. induction 1 as [|v vols Hv Hvs IH]; simpl; [done|]. by rewrite Hv. Qed.

Definition scheduling_event (e : Effect) : Prop :=
  ∃ p, e = RecordEvent p EventTypeWarning "Scheduling" "Scheduling".

Lemma run_checkPodMetadata t w o :
  w_tasks w !! t = Some o →
  ∃ l, checkPodMetadataBeforeScheduling conf t w = Some (tt, traced w l) ∧ Forall scheduling_event l.
Proof.
  intros Ho. unfold checkPodMetadataBeforeScheduling, logIgnoredPodMetadata. run.
  destruct (GetIgnoredLabelAnnotationInPod _ _ AppIdLabelKeys _) as [l1 a1].
  destruct (GetIgnoredLabelAnnotationInPod _ _ QueueLabelKeys _) as [l2 a2].
  assert (Hif : ∀ (b : bool) w, ∃ l,
    (if b then record (t_pod o) EventTypeWarning "Scheduling" "Scheduling" else mret tt) w
      = Some (tt, traced w l) ∧ Forall scheduling_event l).
  { intros [] w0; [eexists; split; [done|]; repeat constructor; by eexists|].
    exists []. by rewrite traced_nil. }
  rewrite run_bind. edestruct Hif as (x1 & -> & Hx1).
  edestruct Hif as (x2 & E2 & Hx2). rewrite E2. rewrite traced_traced. eexists. split; [done|].
  by apply Forall_app.
Qed.

Definition submit_event (o : Task) : SchedEvent :=
  DTask (t_applicationID o) (t_taskID o) SubmitTaskEvent.

Lemma run_init t w o :
  w_tasks w !! t = Some o → t_state o = TNew →
  task_handle conf t (SimpleTaskEvent InitTask) w = Some (None,
    traced (with_task w t (t_set_state TPending o)) [Dispatch (submit_event o)]).
Proof.
  intros Ho Hs. unfold task_handle. rewrite run_bind, fsm_Event_spec. unfold fsm_run, task_machine.
  cbn [m_Current m_before m_after m_enter m_SetState task_event task_event_args]. run.
  rewrite Hs. change (fsm_dst eventDesc TNew InitTask) with (Some TPending). cbn [task_before].
  run. rewrite bool_decide_eq_false_2 by done. cbn [task_enter]. unfold postTaskPending. run.
  cbn [task_after]. run. done.
Qed.

(** The event on a pod whose claims are not ready. *)
Definition not_ready_event (o : Task) : Effect :=
  RecordEvent (pod_UID (t_pod o)) EventTypeWarning "FailedScheduling" "FailedScheduling".

Lemma run_scheduleTask cond t w o :
  w_tasks w !! t = Some o → t_state o = TNew →
  (cond o = false ∧ scheduleTask conf cond t w = Some (tt, w)) ∨
  (cond o = true ∧ ∃ l, Forall scheduling_event l ∧
     scheduleTask conf cond t w = Some (tt, traced (with_task w t (t_set_state TPending o))
       (l ++ [Dispatch (submit_event o)]))) ∨
  (cond o = true ∧ Exists (λ v, is_Some (vol_PersistentVolumeClaim v)) (spec_Volumes (pod_Spec (t_pod o))) ∧
     scheduleTask conf cond t w = Some (tt, traced w [not_ready_event o])).
Proof.
  intros Ho Hs. unfold scheduleTask. run. destruct (cond o); [right|by left].
  unfold sanityCheckBeforeScheduling, checkPodPVCs. run.
  destruct (run_checkVolumes (pod_Namespace (t_pod o)) (spec_Volumes (pod_Spec (t_pod o))) w)
    as [r Hr].
  destruct r as [err|].
  - right. split_and!; [done| |by rewrite Hr; run].
    destruct (decide (Forall (λ v, vol_PersistentVolumeClaim v = None)
      (spec_Volumes (pod_Spec (t_pod o))))) as [Hn|Hn].
    + by rewrite checkVolumes_none in Hr.
    + apply not_Forall_Exists in Hn; [|apply _]. eapply Exists_impl; [exact Hn|].
      intros v. simpl. by destruct (vol_PersistentVolumeClaim v).
  - left. split; [done|]. rewrite Hr. run.
    destruct (run_checkPodMetadata t w o Ho) as (l & -> & Hl). run.
    rewrite (run_init t (traced w l) o) by done. run. exists l. split; [done|].
    by rewrite with_task_traced, traced_traced.
Qed.

(** ** A round *)

(** The world with the tasks [ts] moved to a state. *)
Definition marked (s : TaskState) (ts : list TaskRef) (w : World) : World :=
  mkWorld (mark_all s ts (w_tasks w)) (w_apps w) (w_applications w) (w_cache w) (w_next w)
    (w_trace w).

Definition has_claims (o : Task) : Prop :=
  Exists (λ v, is_Some (vol_PersistentVolumeClaim v)) (spec_Volumes (pod_Spec (t_pod o))).

(** What a round did to the new tasks [ts]: [moved] were submitted. *)
Record round (cond : Task → bool) (w : World) (ts moved : list TaskRef) (l : list Effect) : Prop := {
  rd_order : moved `sublist_of` ts;
  rd_dispatched : dispatched l = map (λ x : TaskRef * Task, submit_event x.2) (deref w moved);
  rd_silent : Forall (λ e, match e with RecordEvent _ _ _ _ | Dispatch _ => True | _ => False end) l;
  rd_cond t o : t ∈ moved → w_tasks w !! t = Some o → cond o = true;
  rd_skipped t o : t ∈ ts → w_tasks w !! t = Some o → cond o = true → (t ∉ moved) →
    has_claims o ∧ not_ready_event o ∈ l
}.

Definition new_task (w : World) (t : TaskRef) : Prop :=
  ∃ o, w_tasks w !! t = Some o ∧ t_state o = TNew.

Lemma scheduling_events_silent l :
  Forall scheduling_event l → dispatched l = [] ∧
  Forall (λ e, match e with RecordEvent _ _ _ _ | Dispatch _ => True | _ => False end) l.
Proof.
  intros Hl. split; [by eapply dispatched_records|]. eapply Forall_impl; [exact Hl|].
  by intros e [p ->].
Qed.

Lemma deref_marked_other s t o w moved :
  (t ∉ moved) → deref (with_task w t (t_set_state s o)) moved = deref w moved.
Proof.
  intros Hni. unfold deref. induction moved as [|x moved IH]; [done|]. cbn [omap list_omap].
  apply not_elem_of_cons in Hni as [Hne Hni].
  rewrite IH by done. simpl. by rewrite lookup_insert_ne by done.
Qed.

(** The first task is submitted, the rest is the round of the others. *)
Lemma round_moved cond w t ts moved l l' o :
  w_tasks w !! t = Some o → (t ∉ ts) → cond o = true → Forall scheduling_event l →
  round cond (traced (with_task w t (t_set_state TPending o)) (l ++ [Dispatch (submit_event o)]))
    ts moved l' →
  round cond w (t :: ts) (t :: moved) ((l ++ [Dispatch (submit_event o)]) ++ l').
Proof.
  intros Ho Hni Hc Hl [Hord Hdis Hsil Hcond Hskip].
  destruct (scheduling_events_silent l Hl) as [Hd Hs].
  assert (Hmni : t ∉ moved) by (intros Hin; apply Hni; by eapply elem_of_sublist).
  split.
  - by apply sublist_skip.
  - rewrite !dispatched_app, Hd, Hdis. simpl. unfold deref at 2. cbn [omap list_omap].
    rewrite Ho. simpl. f_equal. f_equal.
    by apply (deref_marked_other TPending t o w moved).
  - apply Forall_app. split; [|done]. apply Forall_app. split; [done|by repeat constructor].
  - intros x ox [->|Hin]%elem_of_cons Hox; [congruence|]. apply (Hcond x ox Hin). simpl.
    rewrite lookup_insert_ne; [done|]. by intros ->.
  - intros x ox [->|Hin]%elem_of_cons Hox Hcx Hnm; [set_solver|].
    destruct (Hskip x ox Hin) as [? ?]; [|done|set_solver|].
    + simpl. rewrite lookup_insert_ne; [done|]. by intros ->.
    + split; [done|]. apply elem_of_app. by right.
Qed.

Lemma round_kept cond w t ts moved l l' o :
  w_tasks w !! t = Some o → (t ∉ ts) → dispatched l = [] →
  Forall (λ e, match e with RecordEvent _ _ _ _ | Dispatch _ => True | _ => False end) l →
  (cond o = true → has_claims o ∧ not_ready_event o ∈ l) →
  round cond (traced w l) ts moved l' → round cond w (t :: ts) moved (l ++ l').
Proof.
  intros Ho Hni Hd Hs Hc [Hord Hdis Hsil Hcond Hskip]. split.
  - by apply sublist_cons.
  - by rewrite dispatched_app, Hd, Hdis.
  - by apply Forall_app.
  - done.
  - intros x ox [->|Hin]%elem_of_cons Hox Hcx Hnm.
    + assert (ox = o) as -> by congruence. destruct (Hc Hcx). split; [done|].
      apply elem_of_app. by left.
    + destruct (Hskip x ox Hin Hox Hcx Hnm). split; [done|]. apply elem_of_app. by right.
Qed.

Lemma run_schedule_list cond ts w :
  NoDup ts → Forall (new_task w) ts →
  ∃ moved l, for_each ts (scheduleTask conf cond) w = Some (tt, traced (marked TPending moved w) l) ∧
    round cond w ts moved l.
Proof.
  revert w. induction ts as [|t ts IH]; intros w Hnd Hnew.
  { exists [], []. simpl. rewrite traced_nil. split; [by destruct w|]. split; set_solver. }
  apply NoDup_cons in Hnd as [Hni Hnd]. apply Forall_cons in Hnew as [(o & Ho & Hs) Hnew].
  cbn [for_each]. rewrite run_bind.
  destruct (run_scheduleTask cond t w o Ho Hs) as [[Hc ->]|[(Hc & l & Hl & ->)|(Hc & Hcl & ->)]].
  - destruct (IH w Hnd Hnew) as (moved & l & -> & Hr). exists moved, l. split; [done|].
    apply (round_kept cond w t ts moved [] l o); try done; [by rewrite Hc|by rewrite traced_nil].
  - set (w1 := traced (with_task w t (t_set_state TPending o)) (l ++ [Dispatch (submit_event o)])).
    destruct (IH w1 Hnd) as (moved & l' & E & Hr).
    { rewrite Forall_forall in *. intros x Hx. destruct (Hnew x Hx) as (ox & Hox & Hsx).
      exists ox. simpl. rewrite lookup_insert_ne; [done|]. by intros ->. }
    rewrite E. exists (t :: moved), ((l ++ [Dispatch (submit_event o)]) ++ l').
    split; [|by apply round_moved]. f_equal. f_equal. unfold marked, traced, w1. simpl.
    rewrite (alter_as_insert _ _ _ _ Ho). by rewrite !app_assoc.
  - destruct (IH (traced w [not_ready_event o]) Hnd Hnew) as (moved & l & E & Hr). rewrite E.
    exists moved, ([not_ready_event o] ++ l). split.
    + f_equal. f_equal. unfold marked, traced. simpl. by rewrite <- app_assoc.
    + apply (round_kept cond w t ts moved [not_ready_event o] l o); try done.
      * by repeat constructor.
      * intros _. split; [done|]. by left.
Qed.

(** ** Dropping terminated tasks *)

Definition drop_terminated (w : World) (m : gmap string TaskRef) (kt : string * TaskRef) :
    gmap string TaskRef :=
  match w_tasks w !! kt.2 with
  | Some o => if isTerminated o then delete kt.1 m else m
  | None => m
  end.

Lemma drop_terminated_lookup w l m k :
  foldl (drop_terminated w) m l !! k =
  if bool_decide (Exists (λ kt, kt.1 = k ∧ isTerminated <$> w_tasks w !! kt.2 = Some true) l)
  then None else m !! k.
Proof.
  revert m. induction l as [|[k' t] l IH]; intros m; [done|]. cbn [foldl]. rewrite IH.
  unfold drop_terminated at 1. cbn [fst snd].
  rewrite (bool_decide_ext (Exists _ ((k', t) :: l)) _ (Exists_cons _ _ _)). cbn [fst snd].
  destruct (bool_decide_reflect (Exists (λ kt, kt.1 = k ∧
    isTerminated <$> w_tasks w !! kt.2 = Some true) l)) as [He|He].
  - by rewrite bool_decide_eq_true_2 by (by right).
  - destruct (w_tasks w !! t) as [o|]; simpl; [destruct (isTerminated o)|].
    + destruct (decide (k' = k)) as [->|Hne].
      * rewrite lookup_delete_eq, bool_decide_eq_true_2 by (by left). done.
      * rewrite lookup_delete_ne, bool_decide_eq_false_2 by naive_solver. done.
    + by rewrite bool_decide_eq_false_2 by naive_solver.
    + by rewrite bool_decide_eq_false_2 by naive_solver.
Qed.

Lemma run_drop_loop a w app l m :
  NoDup l.*1 → (∀ k t, (k, t) ∈ l → m !! k = Some t ∧
     ∃ o, w_tasks w !! t = Some o ∧ t_taskID o = k) →
  for_each l (λ kt,
    app ← get_app a;
    match a_taskMap app !! kt.1 with
    | None => mret tt
    | Some t =>
        task ← get_task t;
        if isTerminated task then removeTask a (t_taskID task) else mret tt
    end) (with_app w a (a_set_taskMap m app)) =
  Some (tt, with_app w a (a_set_taskMap (foldl (drop_terminated w) m l) app)).
Proof.
  revert m. induction l as [|[k t] l IH]; intros m Hnd Hl; [done|]. cbn [for_each foldl].
  apply NoDup_cons in Hnd as [Hni Hnd]. destruct (Hl k t ltac:(left)) as (Hm & o & Ho & Hid).
  run. cbn [fst]. replace (a_taskMap (a_set_taskMap m app) !! k) with (Some t) by done.
  run. unfold drop_terminated at 2. cbn [fst snd]. rewrite Ho.
  destruct (isTerminated o); cycle 1.
  { run. apply IH; [done|]. intros k' t' Hin. apply Hl. by right. }
  unfold removeTask. run. rewrite Hid.
  replace (a_taskMap (a_set_taskMap m app) !! k) with (Some t) by done. run.
  assert (Hww : ∀ x y, with_app (with_app w a x) a y = with_app w a y)
    by (intros; unfold with_app; simpl; by rewrite insert_insert_eq).
  rewrite Hww. apply (IH (delete k m) Hnd). intros k' t' Hin.
  destruct (Hl k' t' ltac:(by right)) as [Hm' Ho']. split; [|done].
  rewrite lookup_delete_ne; [done|]. intros ->. apply Hni. apply list_elem_of_fmap.
  by exists (k', t').
Qed.

Lemma run_removeCompletedTasks a w app :
  w_apps w !! a = Some app → app_ids_ok w app →
  ∃ m, removeCompletedTasks a w = Some (tt, with_app w a (a_set_taskMap m app)) ∧
    ∀ k t, m !! k = Some t ↔ a_taskMap app !! k = Some t ∧
      ∃ o, w_tasks w !! t = Some o ∧ isTerminated o = false.
Proof.
  intros Ha Hids. unfold removeCompletedTasks. run.
  exists (foldl (drop_terminated w) (a_taskMap app) (go_range (a_taskMap app))). split.
  - assert (Hw : w = with_app w a (a_set_taskMap (a_taskMap app) app)).
    { destruct w, app. unfold with_app, a_set_taskMap. simpl in *. by rewrite insert_id. }
    rewrite Hw at 1. apply run_drop_loop; [apply NoDup_go_range|].
    intros k t Hin%elem_of_go_range. split; [done|]. by apply Hids.
  - intros k t. rewrite drop_terminated_lookup. case_bool_decide as He.
    + split; [done|]. intros [Hk (o & Ho & Ht)]. apply Exists_exists in He as ([k' t'] & Hin & Hk' & Hterm).
      apply elem_of_go_range in Hin. simpl in *. subst k'. assert (t' = t) as -> by congruence.
      rewrite Ho in Hterm. simpl in Hterm. congruence.
    + split; [|tauto]. intros Hk. split; [done|]. destruct (Hids k t Hk) as (o & Ho & _).
      exists o. split; [done|]. destruct (isTerminated o) eqn:Et; [|done]. exfalso. apply He.
      apply Exists_exists. exists (k, t). rewrite elem_of_go_range. simpl. rewrite Ho. simpl.
      by rewrite Et.
Qed.

(** ** [Schedule] *)

(** The tasks a round may submit, by the state of the application. *)
Definition round_condition (s : AppState) : option (Task → bool) :=
  match s with
  | AReserving => Some (λ t, t_placeholder t)
  | ARunning => Some (λ t, negb (t_placeholder t))
  | _ => None
  end.

Lemma mark_lookup w s moved t o :
  w_tasks w !! t = Some o → ∃ o', mark_all s moved (w_tasks w) !! t = Some o' ∧
    t_taskID o' = t_taskID o ∧ (t_state o' = s ∨ o' = o).
Proof.
  intros Ho. rewrite mark_all_lookup, Ho. eexists. split; [done|].
  case_bool_decide; simpl; auto.
Qed.

Lemma marked_ids_ok w s moved l app :
  app_ids_ok w app → app_ids_ok (traced (marked s moved w) l) app.
Proof.
  intros Hids k t Hk. destruct (Hids k t Hk) as (o & Ho & Hid).
  destruct (mark_lookup w s moved t o Ho) as (o' & Ho' & Hid' & _). exists o'. simpl. by rewrite Hid'.
Qed.

Lemma tasks_in_empty w app s :
  bool_decide (length (tasks_in w app s) = 0) = false ↔
  ∃ k t o, a_taskMap app !! k = Some t ∧ w_tasks w !! t = Some o ∧ t_state o = s.
Proof.
  rewrite bool_decide_eq_false. split.
  - destruct (tasks_in w app s) as [|t l] eqn:E; [done|]. intros _.
    assert (Hin : t ∈ tasks_in w app s) by (rewrite E; left).
    apply elem_of_tasks_in in Hin as [[k Hk] (o & Ho & Hs)]. by exists k, t, o.
  - intros (k & t & o & Hk & Ho & Hs) Hlen. apply nil_length_inv in Hlen.
    assert (Hin : t ∈ tasks_in w app s) by (apply elem_of_tasks_in; eauto). rewrite Hlen in Hin.
    set_solver.
Qed.

Lemma Schedule_unfold cond a w app :
  w_apps w !! a = Some app → round_condition (a_state app) = Some cond →
  Schedule conf a w =
  (scheduleTasks conf a cond;; removeCompletedTasks a;; news ← getTasks a TNew;
   mret (negb (bool_decide (length news = 0)))) w.
Proof.
  intros Ha Hc. unfold Schedule. rewrite run_bind, (run_get_app _ _ _ Ha).
  destruct (a_state app); try done; by injection Hc as <-.
Qed.

Lemma marked_refs_ok w s moved l app m :
  app_refs_ok w app → (∀ k t, m !! k = Some t → a_taskMap app !! k = Some t) →
  app_refs_ok (traced (marked s moved w) l) (a_set_taskMap m app).
Proof.
  assert (Hin : ∀ t, is_Some (w_tasks w !! t) → is_Some (mark_all s moved (w_tasks w) !! t)).
  { intros t [o Ho]. destruct (mark_lookup w s moved t o Ho) as (o' & Ho' & _). eauto. }
  intros (Hmap & Horig & Hrel) Hm. split_and!; simpl; [eauto..|].
  eapply Forall_impl; [exact Hrel|]. auto.
Qed.

(** Submitting tasks does not change which tasks are terminated. *)
Lemma live_marked cond w app moved l t :
  round cond w (tasks_in w app TNew) moved l →
  (∃ o, mark_all TPending moved (w_tasks w) !! t = Some o ∧ isTerminated o = false) ↔
  (∃ o, w_tasks w !! t = Some o ∧ isTerminated o = false).
Proof.
  intros Hr. rewrite mark_all_lookup. case_bool_decide as Hmv; [|by rewrite option_fmap_id].
  pose proof (elem_of_sublist _ _ _ Hmv (rd_order _ _ _ _ _ Hr)) as Hin.
  apply elem_of_tasks_in in Hin as [_ (o & Ho & Hs)]. rewrite Ho. simpl.
  split; intros (o1 & [= <-] & Ht); eexists; (split; [done|]); [|done].
  unfold isTerminated. by rewrite Hs.
Qed.

Lemma run_Schedule cond a w app :
  w_apps w !! a = Some app → app_refs_ok w app → app_ids_ok w app →
  round_condition (a_state app) = Some cond →
  ∃ moved l m again, Schedule conf a w = Some (again,
      with_app (traced (marked TPending moved w) l) a (a_set_taskMap m app)) ∧
    round cond w (tasks_in w app TNew) moved l ∧
    (∀ k t, m !! k = Some t ↔ a_taskMap app !! k = Some t ∧
       ∃ o, w_tasks w !! t = Some o ∧ isTerminated o = false) ∧
    (again = true ↔ ∃ k t o, a_taskMap app !! k = Some t ∧ w_tasks w !! t = Some o ∧
       t_state o = TNew ∧ t ∉ moved).
Proof.
  intros Ha Hok Hids Hc. rewrite (Schedule_unfold cond a w app Ha Hc).
  unfold scheduleTasks. rewrite !run_bind, (run_getTasks a w app TNew Ha Hok).
  destruct (run_schedule_list cond (tasks_in w app TNew) w) as (moved & l & -> & Hr).
  { by apply NoDup_tasks_in. }
  { apply Forall_forall. intros t Ht. by apply elem_of_tasks_in in Ht as [_ ?]. }
  rewrite run_bind. set (w1 := traced (marked TPending moved w) l).
  destruct (run_removeCompletedTasks a w1 app Ha (marked_ids_ok _ _ _ _ _ Hids)) as (m & -> & Hm).
  rewrite run_bind. set (app' := a_set_taskMap m app).
  assert (Hok' : app_refs_ok (with_app w1 a app') app').
  { apply (marked_refs_ok w TPending moved l app m Hok). intros k t Hk. by apply Hm in Hk as [? _]. }
  rewrite (run_getTasks a _ app' TNew (with_app_lookup _ _ _) Hok'). rewrite run_ret.
  exists moved, l, m. eexists. split_and!; [done|done| |].
  - intros k t. rewrite Hm. by rewrite <- (live_marked _ _ _ _ _ t Hr).
  - rewrite negb_true_iff, tasks_in_empty. simpl. split.
    + intros (k & t & o & Hk & Ho & Hs). apply Hm in Hk as [Hk _]. exists k, t.
      rewrite mark_all_lookup in Ho. destruct (w_tasks w !! t) as [o0|] eqn:Ho0; [|done].
      simpl in Ho. injection Ho as <-. case_bool_decide as Hmv; [done|]. by exists o0.
    + intros (k & t & o & Hk & Ho & Hs & Hni). exists k, t, o.
      assert (Ho' : mark_all TPending moved (w_tasks w) !! t = Some o)
        by (by rewrite mark_all_lookup, Ho, bool_decide_eq_false_2).
      split_and!; [|done..]. apply Hm. split; [done|]. exists o. split; [done|].
      unfold isTerminated. by rewrite Hs.
Qed.

(** ** Properties *)

(** C16: a scheduling round submits the right tasks, oldest first.  For a
    reserving (running) application, the round moves to Pending and submits only
    new tasks that are placeholders (are not placeholders), in the order of
    creation time and task ID; a new task of the right kind is left out only if
    it uses volume claims, and its pod then gets a warning event; nothing else is
    sent.  Terminated tasks are dropped from the application and no others, and
    the round asks for another one exactly when new tasks are left. *)
Theorem schedule_round cond a w app :
  w_apps w !! a = Some app → app_refs_ok w app → app_ids_ok w app →
  round_condition (a_state app) = Some cond →
  ∃ moved l m again w', Schedule conf a w = Some (again, w') ∧
    w' = with_app (traced (marked TPending moved w) l) a (a_set_taskMap m app) ∧
    round cond w (tasks_in w app TNew) moved l ∧
    StronglySorted task_le (merge_sort task_le
      (filter (λ x : TaskRef * Task, t_state x.2 = TNew) (tasks_of w app))) ∧
    (∀ k t, m !! k = Some t ↔ a_taskMap app !! k = Some t ∧
       ∃ o, w_tasks w !! t = Some o ∧ isTerminated o = false) ∧
    (again = true ↔ ∃ k t o, a_taskMap app !! k = Some t ∧ w_tasks w !! t = Some o ∧
       t_state o = TNew ∧ t ∉ moved).
Proof.
  intros Ha Hok Hids Hc.
  destruct (run_Schedule cond a w app Ha Hok Hids Hc) as (moved & l & m & again & E & Hr & Hm & Hag).
  eexists moved, l, m, again, _. split_and!; [exact E|done|done| |done|done].
  apply Sorted_StronglySorted; [apply _|apply Sorted_merge_sort; apply _].
Qed.

End Schedule.

(** ** Closed instance *)

#[local] Existing Instance env_ok.
#[local] Existing Instance si_constants_ref.

Definition round_world : World :=
  world_ref AReserving [group_ref "g1" 1]
    [task_ref "p1" 0 TNew true "g1"; task_ref "t1" 0 TNew false "g1";
     task_ref "t2" 0 TCompleted false "g1"] NewSchedulerCache.

Definition round_app : Application :=
  app_ref AReserving (<["p1" := 1]> (<["t1" := 2]> (<["t2" := 3]> ∅))) [group_ref "g1" 1].

Lemma schedule_round_witness :
  ∃ again w', Schedule conf_ref 0 round_world = Some (again, w') ∧
    dispatched (w_trace w') = [DTask "app-1" "p1" SubmitTaskEvent] ∧ again = true.
Proof.
  destruct (schedule_round conf_ref (λ t, t_placeholder t) 0 round_world round_app)
    as (moved & l & m & again & w' & E & _ & _ & _ & _ & Hag); [done| | |done|].
  - split_and!; [|done|by apply Forall_nil]. intros k t Hk. heap_cases Hk; by eexists.
  - intros k t Hk. heap_cases Hk; by eexists.
  - assert (Hrun : (λ r, (r.1, dispatched (w_trace r.2))) <$> Schedule conf_ref 0 round_world =
      Some (true, [DTask "app-1" "p1" SubmitTaskEvent])) by (vm_compute; reflexivity).
    rewrite E in Hrun. injection Hrun as Hagain Hd. exists again, w'. split_and!; [exact E|exact Hd|].
    exact Hagain.
Defined.
