(* ===== verification/LifecycleThms.v ===== *)
(** * The life of an application

    Which state an event leads to, and that the final states are final. *)

From S2P Require Import Prelude.
From S2P Require Import GoStrings.
From S2P Require Import K8sApi.
From S2P Require Import K8sInstances.
From S2P Require Import Constants.
From S2P Require Import Resource.
From S2P Require Import PodUtils.
From S2P Require Import SiHelper.
From S2P Require Import TaskGroups.
From S2P Require Import SchedulerCache.
From S2P Require Import World.
From S2P Require Import Logic.
From S2P Require Import Fsm.
From S2P Require Import ContextPods.
From S2P Require Import Task.
From S2P Require Import Application.
From S2P Require Import Examples.
From S2P Require Import TaskThms.
From S2P Require Import ApplicationThms.

Definition same_app_states (w w' : World) : Prop :=
  ∀ a, a_state <$> w_apps w !! a = a_state <$> w_apps w' !! a.

#[export] Instance same_app_states_preorder : PreOrder same_app_states.
Proof. split; [done|]. intros w1 w2 w3 H12 H23 a. by rewrite H12. Qed.

(** Computations that leave the application heap alone. *)
Definition keeps_apps (w w' : World) : Prop := w_apps w = w_apps w'.

#[export] Instance keeps_apps_preorder : PreOrder keeps_apps.
Proof. split; unfold keeps_apps; [done|]. intros w1 w2 w3. congruence. Qed.

Lemma keeps_apps_same {A} (m : M A) : preserves keeps_apps m → preserves same_app_states m.
Proof. intros Hm w x w' E a. by rewrite (Hm w x w' E). Qed.

Create HintDb kapps.

Lemma kapps_emit e : preserves keeps_apps (emit e).
Proof. by intros w a w' [= _ <-]. Qed.
Lemma kapps_record p x y z : preserves keeps_apps (record p x y z).
Proof. apply kapps_emit. Qed.
Lemma kapps_dispatch ev : preserves keeps_apps (dispatch ev).
Proof. apply kapps_emit. Qed.
Lemma kapps_call `{Env} e : preserves keeps_apps (call e).
Proof. by intros w a w' [= _ <-]. Qed.
Lemma kapps_put_applications m : preserves keeps_apps (put_applications m).
Proof. by intros w x w' [= _ <-]. Qed.
Lemma kapps_put_task t o : preserves keeps_apps (put_task t o).
Proof. by intros w x w' [= _ <-]. Qed.
Lemma kapps_upd_task t f : preserves keeps_apps (upd_task t f).
Proof. unfold upd_task. preserves_tac ltac:(apply kapps_put_task). Qed.

#[export] Hint Resolve kapps_emit kapps_record kapps_dispatch kapps_call kapps_put_applications
  kapps_put_task kapps_upd_task : kapps.

Lemma states_upd_app a f :
  (∀ o, a_state (f o) = a_state o) → preserves same_app_states (upd_app a f).
Proof.
  intros Hf w x w' E a'. unfold upd_app in E. rewrite run_bind in E. unfold get_app in E.
  destruct (w_apps w !! a) as [o|] eqn:Ea; [|done].
  injection E as _ <-. simpl. destruct (decide (a = a')) as [->|Hne].
  - rewrite Ea, lookup_insert_eq. simpl. by rewrite Hf.
  - by rewrite lookup_insert_ne.
Qed.

Section Lifecycle.
Context `{SiConstants} `{QuantityOps} `{NodeInfoOps} `{MO : MapOrder} `{TerminationTypes}.
Context `{PodHelpers} `{Env} `{FE : FsmEngine} `{FL : !FsmLaws}.

Lemma kapps_load_tasks l : preserves keeps_apps (load_tasks l).
Proof. induction l; simpl; preserves_tac fail. done. Qed.

Lemma kapps_all_tasks a : preserves keeps_apps (all_tasks a).
Proof. unfold all_tasks. preserves_tac ltac:(apply kapps_load_tasks). Qed.

Lemma kapps_getTasks a s : preserves keeps_apps (getTasks a s).
Proof. unfold getTasks. preserves_tac ltac:(apply kapps_all_tasks). Qed.

Lemma kapps_record_originating a x y z : preserves keeps_apps (record_originating a x y z).
Proof. unfold record_originating. preserves_tac ltac:(solve [auto with kapps]). Qed.

Hint Resolve kapps_load_tasks kapps_all_tasks kapps_getTasks kapps_record_originating : kapps.

Lemma kapps_release_forced t : preserves keeps_apps (releaseAllocation t true).
Proof. unfold releaseAllocation. cbn [negb]. preserves_tac ltac:(solve [auto with kapps]). Qed.

Lemma states_flush a : preserves same_app_states (flushReleaseableTasks a).
Proof.
  unfold flushReleaseableTasks, AreAllTasksTerminated, getNonTerminatedTaskAlias,
    removeFromSchedulerCore, removeApplication.
  preserves_tac ltac:(first [ by apply states_upd_app
    | apply keeps_apps_same; solve [auto with kapps]
    | apply keeps_apps_same, kapps_release_forced ]).
Qed.

Lemma states_app_enter a s : preserves same_app_states (app_enter a s).
Proof.
  destruct s; cbn [app_enter]; try (apply preserves_ret; apply _); [apply states_flush| |].
  - apply keeps_apps_same. unfold onReserving, getPlaceHolderTasks.
    preserves_tac ltac:(solve [auto with kapps]).
  - apply keeps_apps_same. unfold onResuming. auto with kapps.
Qed.

Lemma states_app_after a args ev : preserves same_app_states (app_after a args ev).
Proof.
  assert (Hc : preserves same_app_states (clearReleaseableTasks a)) by (by apply states_upd_app).
  assert (Hk : ∀ A (m : M A), preserves keeps_apps m → preserves same_app_states m)
    by (intros; by apply keeps_apps_same).
  unfold app_after, handleSubmitApplicationEvent, handleRejectApplicationEvent,
    handleCompleteApplicationEvent, handleFailApplicationEvent, failUnallocated,
    failTaskPodWithReasonAndMsg, UpdateTaskPodStatus, onReservationStateChange,
    handleReleaseAppAllocationEvent, setTaskTerminationType, publishPlaceholderTimeoutEvents,
    DeleteTaskPod, handleAppTaskCompletedEvent.
  destruct ev;
  preserves_tac ltac:(first [ apply Hc | apply Hk; solve [auto with kapps] ]).
Qed.

(** The application states after an event. *)
Definition app_states_after (w : World) (a : AppRef) (s : AppState) (w' : World) : Prop :=
  ∀ a', a_state <$> w_apps w' !! a' =
        if decide (a' = a) then Some s else a_state <$> w_apps w !! a'.

Lemma app_states_after_same w a o w' :
  w_apps w !! a = Some o → same_app_states w w' → app_states_after w a (a_state o) w'.
Proof. intros Ho Hs a'. rewrite <- Hs. case_decide as E; [|done]. by rewrite E, Ho. Qed.

Lemma app_fsm_run_states a args ev w o err w' :
  w_apps w !! a = Some o →
  fsm_run app_events (app_machine a args) ev w = Some (err, w') →
  app_states_after w a (default (a_state o) (fsm_dst app_events (a_state o) ev)) w' ∧
  (err = Some InvalidEventError ↔ fsm_dst app_events (a_state o) ev = None).
Proof.
  intros Ho. unfold fsm_run, app_machine. cbn [m_Current m_before m_after m_enter m_SetState].
  rewrite !run_bind, (run_get_app _ _ _ Ho), run_ret.
  destruct (fsm_dst app_events (a_state o) ev) as [dst|] eqn:Hdst; simpl default.
  2:{ intros [= <- <-]. split; [by apply app_states_after_same|done]. }
  rewrite run_bind, run_ret. case_bool_decide as Heq.
  - rewrite run_bind.
    destruct (app_after a args ev w) as [[e w2]|] eqn:E2; [|done]. intros [= <- <-].
    apply states_app_after in E2. split; [|done]. subst dst. by apply app_states_after_same.
  - rewrite run_bind, (run_upd_app _ _ _ _ Ho), run_bind.
    destruct (app_enter a dst _) as [[[] w2]|] eqn:E2; [|done]. apply states_app_enter in E2.
    rewrite run_bind. destruct (app_after a args ev w2) as [[e w3]|] eqn:E3; [|done].
    intros [= <- <-]. apply states_app_after in E3.
    split; [|by destruct e].
    intros a'. rewrite <- E3, <- E2. simpl. case_decide as Ea.
    + subst. by rewrite lookup_insert_eq.
    + by rewrite lookup_insert_ne.
Qed.

Lemma app_handle_states a ev w o err w' :
  w_apps w !! a = Some o → app_handle a ev w = Some (err, w') →
  app_states_after w a (default (a_state o) (fsm_dst app_events (a_state o) (app_event ev))) w' ∧
  (err = Some InvalidEventError ↔ fsm_dst app_events (a_state o) (app_event ev) = None).
Proof.
  intros Ho. unfold app_handle. rewrite run_bind, fsm_Event_spec.
  destruct (fsm_run _ _ _ w) as [[e w1]|] eqn:E; [|done].
  destruct (app_fsm_run_states _ _ _ _ _ _ _ Ho E) as [Hs He].
  destruct e as [[| [?|] |?]|]; simpl; intros [= <- <-]; (split; [done|]);
    rewrite <- He; split; congruence.
Qed.

(** ** Properties *)

(** A sequence of events to one application. *)
Definition run_app_events (a : AppRef) (evs : list AppEvent) : M unit :=
  for_each evs (λ ev, _ ← app_handle a ev; mret tt).

(** The state the transition table leads to. *)
Definition table_state (s : AppState) (evs : list AppEvent) : AppState :=
  foldl (λ s ev, default s (fsm_dst app_events s (app_event ev))) s evs.

Lemma run_app_events_state evs a w app w' :
  w_apps w !! a = Some app → run_app_events a evs w = Some (tt, w') →
  a_state <$> w_apps w' !! a = Some (table_state (a_state app) evs).
Proof.
  revert w app. induction evs as [|ev evs IH]; intros w app Ha E.
  - injection E as <-. by rewrite Ha.
  - unfold run_app_events in E. cbn [for_each] in E. rewrite !run_bind in E.
    destruct (app_handle a ev w) as [[err w1]|] eqn:E1; [|done]. rewrite run_ret in E.
    destruct (app_handle_states a ev w app err w1 Ha E1) as [Hs _]. specialize (Hs a).
    rewrite decide_True in Hs by done.
    destruct (w_apps w1 !! a) as [app1|] eqn:Ha1; [|done]. injection Hs as Hs.
    rewrite (IH w1 app1 Ha1 E), Hs. done.
Qed.

(** States an application only reaches after the core accepted it. *)
Definition needs_acceptance (s : AppState) : bool :=
  match s with
  | AAccepted | AReserving | ARunning | AResuming | ACompleted | AKilling | AKilled => true
  | _ => false
  end.

Definition final (s : AppState) : bool :=
  match s with ACompleted | AKilled | AFailed => true | _ => false end.

Lemma table_accepts evs s :
  needs_acceptance s = false → needs_acceptance (table_state s evs) = true →
  AcceptApplication ∈ map app_event evs.
Proof.
  revert s. induction evs as [|ev evs IH]; intros s Hs Ht; [simpl in Ht; congruence|].
  cbn [map]. apply elem_of_cons. change (table_state s (ev :: evs)) with
    (table_state (default s (fsm_dst app_events s (app_event ev))) evs) in Ht.
  destruct (needs_acceptance (default s (fsm_dst app_events s (app_event ev)))) eqn:E.
  - left. destruct s, (app_event ev); try done; vm_compute in E; done.
  - right. by eapply IH.
Qed.

Lemma table_final evs s : final s = true → table_state s evs = s.
Proof.
  intros Hs. induction evs as [|ev evs IH]; [done|].
  change (table_state s (ev :: evs)) with
    (table_state (default s (fsm_dst app_events s (app_event ev))) evs).
  assert (Hd : default s (fsm_dst app_events s (app_event ev)) = s)
    by (by destruct s, (app_event ev)). by rewrite Hd.
Qed.

(** C31: an application runs only after the core accepted it, and ends once.  Of
    a new application, no sequence of events without the core's acceptance
    leads to a state in which it reserves, runs, resumes or completes; and no
    event takes an application out of Completed, Killed or Failed. *)
Theorem application_life a w app evs w' :
  w_apps w !! a = Some app → run_app_events a evs w = Some (tt, w') →
  ∃ app', w_apps w' !! a = Some app' ∧
    (a_state app = ANew → needs_acceptance (a_state app') = true →
       AcceptApplication ∈ map app_event evs) ∧
    (final (a_state app) = true → a_state app' = a_state app).
Proof.
  intros Ha E. pose proof (run_app_events_state evs a w app w' Ha E) as Hs.
  destruct (w_apps w' !! a) as [app'|]; [|done]. injection Hs as Hs. exists app'. rewrite Hs.
  split_and!; [done| |].
  - intros ->. by apply table_accepts.
  - intros Hf. by apply table_final.
Qed.

End Lifecycle.

(** ** Closed instance *)

#[local] Existing Instance env_ok.
#[local] Existing Instance si_constants_ref.

Definition life_events : list AppEvent :=
  [SubmitApplicationEvent; SimpleApplicationEvent AcceptApplication; RunApplicationEvent;
   SimpleApplicationEvent CompleteApplication].

Definition life_world : World := world_ref ANew [] [] NewSchedulerCache.

Lemma application_life_witness :
  ∃ w' app', run_app_events 0 life_events life_world = Some (tt, w') ∧
    w_apps w' !! 0 = Some app' ∧ a_state app' = ACompleted.
Proof.
  assert (Hrun : (λ r, a_state <$> w_apps r.2 !! 0) <$> run_app_events 0 life_events life_world =
    Some (Some ACompleted)) by (vm_compute; reflexivity).
  destruct (run_app_events 0 life_events life_world) as [[[] w']|] eqn:E; [|done].
  destruct (application_life 0 life_world (app_ref ANew ∅ []) life_events w') as (app' & Ha & _);
    [done|exact E|].
  exists w', app'. split_and!; [done|exact Ha|]. simpl in Hrun. rewrite Ha in Hrun.
  by injection Hrun.
Defined.
