(* ===== verification/Safety.v ===== *)
(** * Well-formed worlds

    The invariant that ties the heaps of tasks and applications, the table of
    applications and the scheduler cache together, and what keeps it.  A
    computation is [safe] when it returns (no panic) in a well-formed world that
    still has every object of the old one. *)

From S2P Require Import Prelude.
From S2P Require Import GoStrings.
From S2P Require Import K8sApi.
From S2P Require Import K8sInstances.
From S2P Require Import Constants.
From S2P Require Import Resource.
From S2P Require Import PodUtils.
From S2P Require Import SiHelper.
From S2P Require Import TaskGroups.
From S2P Require Import SchedulerCache.
From S2P Require Import SchedulerCacheInv.
From S2P Require Import SchedulerCacheOps.
From S2P Require Import World.
From S2P Require Import Logic.
From S2P Require Import Fsm.
From S2P Require Import ContextPods.
From S2P Require Import Task.
From S2P Require Import Application.
From S2P Require Import TaskThms.
From S2P Require Import ApplicationThms.
From S2P Require Import DeferThms.
From S2P Require Import BindThms.

(** The tags of a pod can be built: no required node affinity of a DaemonSet pod
    selects a node by an empty list of values. *)
Definition tags_ok `{SiConstants} (p : Pod) : Prop := is_Some (CreateTagsForTask p).

Record app_ok (w : World) (a : AppRef) (app : Application) : Prop := {
  ao_tasks k t : a_taskMap app !! k = Some t →
    ∃ o, w_tasks w !! t = Some o ∧ t_taskID o = k ∧ t_application o = a;
  ao_orig t : a_originatingTask app = Some t → is_Some (w_tasks w !! t);
  ao_released : belong w a (a_releaseableTasks app)
}.

Record world_ok `{SiConstants} (w : World) : Prop := {
  wo_cache : wf (w_cache w);
  wo_pods k p : podsMap (w_cache w) !! k = Some p → tags_ok p;
  wo_ids id a : w_applications w !! id = Some a →
    ∃ app, w_apps w !! a = Some app ∧ a_applicationID app = id;
  wo_app a app : w_apps w !! a = Some app → app_ok w a app;
  wo_task t o : w_tasks w !! t = Some o →
    tags_ok (t_pod o) ∧
    ∃ app, w_apps w !! t_application o = Some app ∧ a_applicationID app = t_applicationID o;
  wo_fresh k : w_next w <= k → w_tasks w !! k = None ∧ w_apps w !! k = None
}.

(** What never changes of an object once it exists. *)
Definition same_task (o o' : Task) : Prop :=
  t_taskID o' = t_taskID o ∧ t_application o' = t_application o ∧
  t_applicationID o' = t_applicationID o.

Record grows (w w' : World) : Prop := {
  gr_tasks t o : w_tasks w !! t = Some o → ∃ o', w_tasks w' !! t = Some o' ∧ same_task o o';
  gr_apps a app : w_apps w !! a = Some app →
    ∃ app', w_apps w' !! a = Some app' ∧ a_applicationID app' = a_applicationID app
}.

#[export] Instance grows_preorder : PreOrder grows.
Proof.
  split.
  - intros w. split; eauto. intros t o Ho. exists o. by split_and!.
  - intros w1 w2 w3 [T1 A1] [T2 A2]. split.
    + intros t o Ho. destruct (T1 t o Ho) as (o2 & Ho2 & ? & ? & ?).
      destruct (T2 t o2 Ho2) as (o3 & Ho3 & ? & ? & ?). exists o3. split; [done|].
      split_and!; congruence.
    + intros a app Ha. destruct (A1 a app Ha) as (a2 & Ha2 & ?).
      destruct (A2 a a2 Ha2) as (a3 & Ha3 & ?). exists a3. split; [done|congruence].
Qed.

Section Ok.
Context `{SC : SiConstants}.

Definition safe {A} (w : World) (m : M A) (Q : A → World → Prop) : Prop :=
  ∃ a w', m w = Some (a, w') ∧ world_ok w' ∧ grows w w' ∧ Q a w'.

Lemma safe_ret {A} w (a : A) (Q : A → World → Prop) : world_ok w → Q a w → safe w (mret a) Q.
Proof. intros Hw HQ. by exists a, w. Qed.

Lemma safe_bind {A B} w (m : M A) (f : A → M B) Q Q' :
  safe w m Q → (∀ a w', world_ok w' → grows w w' → Q a w' → safe w' (f a) Q') →
  safe w (m ≫= f) Q'.
Proof.
  intros (a & w1 & E & Hw1 & Hg & HQ) Hf. destruct (Hf a w1 Hw1 Hg HQ) as (b & w2 & E2 & Hw2 & Hg2 & HQ').
  exists b, w2. rewrite run_bind, E. split_and!; [done..| |done]. by etrans.
Qed.

Lemma safe_weaken {A} w (m : M A) (Q Q' : A → World → Prop) :
  safe w m Q → (∀ a w', world_ok w' → grows w w' → Q a w' → Q' a w') → safe w m Q'.
Proof. intros (a & w1 & E & Hw1 & Hg & HQ) HQQ. exists a, w1. split_and!; auto. Qed.

Lemma safe_run {A B} w (m : M A) (f : A → M B) a w' Q :
  m w = Some (a, w') → grows w w' → safe w' (f a) Q → safe w (m ≫= f) Q.
Proof.
  intros E Hg (b & w2 & E2 & Hw2 & Hg2 & HQ). exists b, w2. rewrite run_bind, E.
  split_and!; [done..| |done]. by etrans.
Qed.

(** ** Steps that keep the invariant *)

Lemma grows_app_ok w w' a app : grows w w' → app_ok w a app → app_ok w' a app.
Proof.
  intros [Ht _] [H1 H2 H3]. split.
  - intros k t Hk. destruct (H1 k t Hk) as (o & Ho & ? & ?).
    destruct (Ht t o Ho) as (o' & Ho' & ? & ? & _). exists o'. split_and!; congruence.
  - intros t Hk. destruct (H2 t Hk) as [o Ho]. destruct (Ht t o Ho) as (o' & Ho' & _). eauto.
  - eapply Forall_impl; [exact H3|]. intros t (o & Ho & Happ).
    destruct (Ht t o Ho) as (o' & Ho' & _ & ? & _). exists o'. split; congruence.
Qed.

Lemma grows_traced w l : grows w (traced w l).
Proof. split; simpl; eauto. intros t o Ho. exists o. by split_and!. Qed.

Lemma world_ok_traced w l : world_ok w → world_ok (traced w l).
Proof.
  intros [Hc Hp Hi Ha Ht Hf]. split; try done. intros a app Happ.
  eapply grows_app_ok; [apply grows_traced|]. by apply Ha.
Qed.

(** Computations that only send. *)
Definition emits {A} (w : World) (m : M A) : Prop := ∃ a l, m w = Some (a, traced w l).

Lemma emits_ret {A} w (a : A) : emits w (mret a).
Proof. exists a, []. by rewrite traced_nil. Qed.

Lemma emits_bind {A B} w (m : M A) (f : A → M B) :
  emits w m → (∀ a l, m w = Some (a, traced w l) → emits (traced w l) (f a)) → emits w (m ≫= f).
Proof.
  intros (a & l & E) Hf. destruct (Hf a l E) as (b & l' & E'). exists b, (l ++ l').
  by rewrite run_bind, E, E', traced_traced.
Qed.

Lemma emits_safe {A} w (m : M A) : world_ok w → emits w m → safe w m (λ _ _, True).
Proof.
  intros Hw (a & l & E). exists a, (traced w l).
  split_and!; auto using world_ok_traced, grows_traced.
Qed.

Lemma emits_for_each {A} (l : list A) (body : A → M unit) w :
  (∀ x l', x ∈ l → emits (traced w l') (body x)) → emits w (for_each l body).
Proof.
  revert w. induction l as [|x l IH]; intros w Hb; [apply emits_ret|]. cbn [for_each].
  apply emits_bind; [rewrite <- (traced_nil w); apply Hb; left|].
  intros _ l1 _. apply IH. intros y l2 Hy. rewrite traced_traced. apply Hb. by right.
Qed.

Lemma emits_emit w e : emits w (emit e).
Proof. by exists tt, [e]. Qed.
Lemma emits_record w p x y z : emits w (record p x y z).
Proof. apply emits_emit. Qed.
Lemma emits_dispatch w ev : emits w (dispatch ev).
Proof. apply emits_emit. Qed.
Lemma emits_call `{Env} w e : emits w (call e).
Proof. by eexists _, [e]. Qed.
Lemma emits_ask {A} w (f : list Effect → A) : emits w (ask f).
Proof. eexists _, []. by rewrite traced_nil. Qed.
Lemma emits_get_task w t o : w_tasks w !! t = Some o → emits w (get_task t).
Proof. intros Ho. exists o, []. rewrite traced_nil. by apply run_get_task. Qed.
Lemma emits_get_app w a o : w_apps w !! a = Some o → emits w (get_app a).
Proof. intros Ho. exists o, []. rewrite traced_nil. by apply run_get_app. Qed.

Lemma grows_with_task w t o o' :
  w_tasks w !! t = Some o → same_task o o' → grows w (with_task w t o').
Proof.
  intros Ho Hs. split; simpl; eauto. intros x ox Hx. destruct (decide (t = x)) as [->|Hne].
  - exists o'. rewrite lookup_insert_eq. split; [done|]. by assert (ox = o) as -> by congruence.
  - exists ox. rewrite lookup_insert_ne by done. by split_and!.
Qed.

Lemma world_ok_with_task w t o o' :
  world_ok w → w_tasks w !! t = Some o → same_task o o' → tags_ok (t_pod o') →
  world_ok (with_task w t o').
Proof.
  intros Hw Ho Hs Htags. pose proof (grows_with_task w t o o' Ho Hs) as Hg.
  destruct Hw as [Hc Hp Hi Ha Ht Hf]. split; simpl; [done..| | |].
  - intros a app Happ. eapply grows_app_ok; [exact Hg|]. by apply Ha.
  - intros x ox. rewrite lookup_insert_Some. intros [[<- <-]|[Hne Hx]]; [|by apply Ht in Hx].
    split; [done|]. destruct (Ht t o Ho) as [_ (app & Happ & Hid)]. exists app.
    destruct Hs as (_ & -> & ->). done.
  - intros k Hk. destruct (Hf k Hk) as [Hkt Hka]. split; [|done].
    rewrite lookup_insert_ne; [done|]. by intros ->; rewrite Hkt in Ho.
Qed.

Lemma grows_with_app w a app app' :
  w_apps w !! a = Some app → a_applicationID app' = a_applicationID app →
  grows w (with_app w a app').
Proof.
  intros Ha Hid. split; simpl; [intros t o Ho; exists o; by split_and!|].
  intros x ax Hx. destruct (decide (a = x)) as [->|Hne].
  - exists app'. rewrite lookup_insert_eq. split; [done|congruence].
  - exists ax. by rewrite lookup_insert_ne.
Qed.

Lemma world_ok_with_app w a app app' :
  world_ok w → w_apps w !! a = Some app → a_applicationID app' = a_applicationID app →
  app_ok w a app' → world_ok (with_app w a app').
Proof.
  intros Hw Happ Hid Hok. pose proof (grows_with_app w a app app' Happ Hid) as Hg.
  destruct Hw as [Hc Hp Hi Ha Ht Hf].
  assert (Hlook : ∀ x ax, w_apps w !! x = Some ax →
    ∃ ax', <[a := app']> (w_apps w) !! x = Some ax' ∧ a_applicationID ax' = a_applicationID ax)
    by (intros x ax Hx; by apply (gr_apps _ _ Hg)).
  split; simpl; [done..| | | |].
  - intros id x Hx. destruct (Hi id x Hx) as (ax & Hax & <-). apply Hlook, Hax.
  - intros x ax. rewrite lookup_insert_Some. intros [[<- <-]|[_ Hx]].
    + by eapply grows_app_ok.
    + eapply grows_app_ok; [exact Hg|]. by apply Ha.
  - intros t o Ho. destruct (Ht t o Ho) as [Htags (ax & Hax & Hidx)]. split; [done|].
    destruct (Hlook _ _ Hax) as (ax' & Hax' & ?). exists ax'. split; [done|congruence].
  - intros k Hk. destruct (Hf k Hk) as [Hkt Hka]. split; [done|].
    rewrite lookup_insert_ne; [done|]. by intros ->; rewrite Hka in Happ.
Qed.

Lemma grows_with_cache w c : grows w (with_cache w c).
Proof. split; simpl; eauto. intros t o Ho. exists o. by split_and!. Qed.

Lemma world_ok_with_cache w c :
  world_ok w → wf c → (∀ k p, podsMap c !! k = Some p → tags_ok p) → world_ok (with_cache w c).
Proof.
  intros [Hc Hp Hi Ha Ht Hf] Hc' Hp'. split; try done. intros a app Happ.
  eapply grows_app_ok; [apply grows_with_cache|]. by apply Ha.
Qed.

(** What the reading lemmas need. *)
Lemma app_ok_refs w a app : app_ok w a app → app_refs_ok w app.
Proof.
  intros [H1 H2 H3]. split_and!; [|done|by eapply belong_refs_ok].
  intros k t Hk. destruct (H1 k t Hk) as (o & Ho & _). eauto.
Qed.

Lemma world_ok_task_app w t o :
  world_ok w → w_tasks w !! t = Some o → ∃ app, w_apps w !! t_application o = Some app.
Proof. intros Hw Ho. destruct (wo_task w Hw t o Ho) as [_ (app & Happ & _)]. eauto. Qed.

End Ok.
