(* ===== verification/SafetyTasks.v ===== *)
(** * Tasks and applications keep the invariant

    Every event to a task or an application, a scheduling round and a binding
    return in a well-formed world. *)

From S2P Require Import Prelude.
From S2P Require Import GoStrings.
From S2P Require Import K8sApi.
From S2P Require Import K8sInstances.
From S2P Require Import Constants.
From S2P Require Import Resource.
From S2P Require Import PodUtils.
From S2P Require Import SiHelper.
From S2P Require Import TaskGroups.
From S2P Require Import SchedulerCache.
From S2P Require Import SchedulerCacheInv.
From S2P Require Import SchedulerCacheOps.
From S2P Require Import World.
From S2P Require Import Logic.
From S2P Require Import Fsm.
From S2P Require Import ContextPods.
From S2P Require Import Task.
From S2P Require Import Application.
From S2P Require Import TaskThms.
From S2P Require Import ApplicationThms.
From S2P Require Import GangThms.
From S2P Require Import ScheduleThms.
From S2P Require Import DeferThms.
From S2P Require Import BindThms.
From S2P Require Import Safety.

Section Tasks.
Context `{SC : SiConstants} `{QO : QuantityOps} `{NIO : NodeInfoOps} `{NIL : !NodeInfoLaws}.
Context `{MO : MapOrder} `{TT : TerminationTypes} `{PH : PodHelpers}.
Context `{EV : Env} `{VL : !VolumeBinderLaws} `{FE : FsmEngine} `{FL : !FsmLaws}.
Context `{RE : RetryEngine} `{RL : !RetryLaws} (conf : ShimConf).

Local Abbreviation anything := (λ _ _, True).

Definition has_task (w : World) (t : TaskRef) : Prop := is_Some (w_tasks w !! t).
Definition has_app (w : World) (a : AppRef) : Prop := is_Some (w_apps w !! a).

Lemma grows_has_task w w' t : grows w w' → has_task w t → has_task w' t.
Proof. intros Hg [o Ho]. destruct (gr_tasks _ _ Hg t o Ho) as (o' & Ho' & _). by exists o'. Qed.

Lemma grows_has_app w w' a : grows w w' → has_app w a → has_app w' a.
Proof. intros Hg [o Ho]. destruct (gr_apps _ _ Hg a o Ho) as (o' & Ho' & _). by exists o'. Qed.

Lemma has_task_traced w l t : has_task w t → has_task (traced w l) t.
Proof. done. Qed.

(** ** Messages about a task *)

Lemma run_isPreemptSelfAllowed o w : ∃ b, isPreemptSelfAllowed o w = Some (b, w).
Proof.
  unfold isPreemptSelfAllowed.
  destruct (bool_decide (GetPodAnnotationValue (t_pod o) AnnotationAllowPreemption = True_));
    [by eexists|].
  destruct (bool_decide (GetPodAnnotationValue (t_pod o) AnnotationAllowPreemption = False_));
    [by eexists|].
  unfold IsPreemptSelfAllowed. rewrite run_bind. cbn [get_world].
  destruct (GetPriorityClass _ _) as [pc|]; [|by eexists].
  destruct (pc_Annotations pc !! AnnotationAllowPreemption); by eexists.
Qed.

Lemma emits_updateAllocation w t : world_ok w → has_task w t → emits w (updateAllocation t).
Proof.
  intros Hw [o Ho]. destruct (wo_task w Hw t o Ho) as [[tags Htags] _].
  unfold updateAllocation, emits. run.
  destruct (run_isPreemptSelfAllowed o w) as [b ->]. run.
  unfold CreateAllocationForTask. rewrite Htags. cbn [must]. run. by eexists _, _.
Qed.

Lemma emits_task_enter w t s : has_task w t → emits w (task_enter t s).
Proof.
  intros [o Ho]. destruct s; cbn [task_enter]; try apply emits_ret;
    unfold postTaskPending, postTaskAllocated, postTaskRejected, postTaskBound, emits; run;
    try destruct (t_placeholder o); run; rewrite ?traced_traced; try by eexists _, _.
  exists tt, []. by rewrite traced_nil.
Qed.

Lemma emits_task_after w t ev : world_ok w → has_task w t → emits w (task_after conf t ev).
Proof.
  intros Hw Ht. destruct ev; cbn [task_after]; try apply emits_ret.
  apply emits_bind; [|intros; apply emits_ret].
  unfold handleSubmitTaskEvent. apply emits_bind; [by apply emits_updateAllocation|].
  intros _ l _. destruct Ht as [o Ho]. apply emits_bind; [by eapply emits_get_task|].
  intros o' l' _. destruct (negb _); [|apply emits_ret].
  apply emits_bind; [apply emits_record|]. intros _ l2 _.
  destruct (_ && _); [apply emits_record|apply emits_ret].
Qed.

(** ** Releases *)

Lemma app_ok_releaseable w a app l :
  app_ok w a app → belong w a l → app_ok w a (a_set_releaseableTasks l app).
Proof. by intros [? ? ?] Hl. Qed.

Lemma safe_releaseAllocation w t force :
  world_ok w → has_task w t → safe w (releaseAllocation t force) anything.
Proof.
  intros Hw [o Ho]. destruct (world_ok_task_app w t o Hw Ho) as [app Ha].
  destruct (decide (force = true ∨ unaccepted app = false)) as [Hs|Hs].
  { apply emits_safe; [done|]. eexists _, _. by eapply run_release_sent. }
  assert (force = false ∧ unaccepted app = true) as [-> Hun]
    by (destruct force, (unaccepted app); naive_solver).
  pose proof (wo_app w Hw _ _ Ha) as Hok.
  pose proof (run_release_deferred t w o app Ho Ha Hun (belong_refs_ok _ _ _ (ao_released _ _ _ Hok)))
    as E.
  destruct (id_listed w (a_releaseableTasks app) (t_taskID o)).
  { exists tt, w. by split_and!. }
  eexists _, _. split_and!; [exact E| |by eapply grows_with_app|done].
  eapply world_ok_with_app; [done..|]. apply app_ok_releaseable; [done|].
  apply Forall_app. split; [apply (ao_released _ _ _ Hok)|]. apply Forall_cons. eauto.
Qed.

Lemma safe_upd_task w t f :
  world_ok w → has_task w t →
  (∀ o, same_task o (f o)) → (∀ o, tags_ok (t_pod o) → tags_ok (t_pod (f o))) →
  safe w (upd_task t f) anything.
Proof.
  intros Hw [o Ho] Hs Htags. exists tt, (with_task w t (f o)).
  split_and!; [by apply run_upd_task| |by eapply grows_with_task|done].
  eapply world_ok_with_task; [done..|]. apply Htags. by apply (wo_task w Hw t o).
Qed.

Lemma safe_task_before w t args src ev :
  world_ok w → has_task w t → safe w (task_before t args src ev) anything.
Proof.
  intros Hw Ht. unfold task_before.
  destruct ev; try (by apply safe_ret).
  - destruct (GetEventArgsAsStrings 2 args) as [[|k [|n [|? ?]]]|]; try (by apply safe_ret).
    unfold beforeTaskAllocated. eapply safe_bind; [by apply safe_upd_task|].
    intros _ w' Hw' Hg _. destruct (bool_decide _); [|by apply safe_ret].
    apply safe_releaseAllocation; [done|]. by eapply grows_has_task.
  - unfold beforeTaskCompleted. eapply safe_bind; [by apply safe_releaseAllocation|].
    intros _ w' Hw' Hg _. destruct (grows_has_task _ _ _ Hg Ht) as [o Ho].
    apply emits_safe; [done|]. apply emits_bind; [by eapply emits_get_task|].
    intros; apply emits_record.
  - unfold beforeTaskFail. destruct Ht as [o Ho].
    eapply safe_run; [by apply run_get_task|reflexivity|].
    eapply safe_run; [apply run_record|apply grows_traced|].
    apply safe_releaseAllocation; [by apply world_ok_traced|]. by exists o.
Qed.

Lemma safe_task_handle w t ev :
  world_ok w → has_task w t → safe w (task_handle conf t ev) anything.
Proof.
  intros Hw Ht. pose proof Ht as [o Ho]. unfold task_handle.
  assert (Hrun : safe w (fsm_run eventDesc (task_machine conf t (task_event_args ev)) (task_event ev))
    anything).
  { unfold fsm_run, task_machine. cbn [m_Current m_before m_after m_enter m_SetState].
    eapply safe_run; [by rewrite run_bind, (run_get_task _ _ _ Ho), run_ret|reflexivity|].
    destruct (fsm_dst eventDesc (t_state o) (task_event ev)) as [dst|]; [|by apply safe_ret].
    eapply safe_bind; [by apply safe_task_before|]. intros _ w1 Hw1 Hg1 _.
    pose proof (grows_has_task _ _ _ Hg1 Ht) as Ht1. destruct (bool_decide _).
    - eapply safe_bind; [by apply emits_safe, emits_task_after|]. intros. by apply safe_ret.
    - eapply safe_bind; [by apply safe_upd_task|]. intros _ w2 Hw2 Hg2 _.
      pose proof (grows_has_task _ _ _ Hg2 Ht1) as Ht2.
      eapply safe_bind; [by apply emits_safe, emits_task_enter|]. intros _ w3 Hw3 Hg3 _.
      pose proof (grows_has_task _ _ _ Hg3 Ht2) as Ht3.
      eapply safe_bind; [by apply emits_safe, emits_task_after|]. intros. by apply safe_ret. }
  destruct Hrun as (e & w' & E & Hw' & Hg & _).
  eapply safe_run; [by rewrite fsm_Event_spec|done|].
  destruct e as [e|]; [destruct (is_no_transition e)|]; by apply safe_ret.
Qed.

(** ** Applications *)

Lemma world_app_refs w a app : world_ok w → w_apps w !! a = Some app → app_refs_ok w app.
Proof. intros Hw Ha. eapply app_ok_refs. by apply (wo_app w Hw). Qed.

Lemma emits_record_originating w a x y z :
  world_ok w → has_app w a → emits w (record_originating a x y z).
Proof.
  intros Hw [app Ha].
  destruct (run_record_originating a w app x y z Ha (world_app_refs _ _ _ Hw Ha)) as (l & E & _).
  by exists tt, l.
Qed.

Lemma emits_all_tasks w a : world_ok w → has_app w a → emits w (all_tasks a).
Proof.
  intros Hw [app Ha]. eexists _, []. rewrite traced_nil.
  apply run_all_tasks; [done|]. by eapply world_app_refs.
Qed.

Lemma emits_getTasks w a s : world_ok w → has_app w a → emits w (getTasks a s).
Proof.
  intros Hw Ha. apply emits_bind; [by apply emits_all_tasks|]. intros. apply emits_ret.
Qed.

Lemma emits_load_tasks w l : refs_ok w l → emits w (load_tasks l).
Proof. intros Hl. eexists _, []. rewrite traced_nil. by apply run_load_tasks. Qed.

Lemma getTasks_refs w a s l l' :
  world_ok w → has_app w a → getTasks a s w = Some (l, traced w l') → refs_ok w l.
Proof.
  intros Hw [app Ha] E. rewrite (run_getTasks a w app s Ha (world_app_refs _ _ _ Hw Ha)) in E.
  injection E as <- _. apply Forall_forall. intros t Ht.
  apply elem_of_tasks_in in Ht as [_ (o & Ho & _)]. eauto.
Qed.

Lemma emits_onReserving w a : world_ok w → has_app w a → emits w (onReserving a).
Proof.
  intros Hw [app Ha]. unfold onReserving.
  apply emits_bind; [by eapply emits_get_app|]. intros app' l0 _.
  apply emits_bind.
  { apply emits_bind; [|intros; apply emits_ret].
    apply emits_all_tasks; [by apply world_ok_traced|by exists app]. }
  intros ph l1 _. destruct (bool_decide _).
  { apply emits_bind; [apply emits_dispatch|]. intros. apply emits_emit. }
  apply emits_bind; [apply emits_ask|]. intros now l2 _. rewrite !traced_traced.
  destruct (isPlaceholderTimeoutElapsed _ _).
  - apply emits_bind; [apply emits_record_originating; [by apply world_ok_traced|by exists app]|].
    intros _ l3 _. destruct (bool_decide _); apply emits_dispatch.
  - apply emits_bind; [apply emits_record_originating; [by apply world_ok_traced|by exists app]|].
    intros. apply emits_emit.
Qed.

Lemma emits_onReservationStateChange w a :
  world_ok w → has_app w a → emits w (onReservationStateChange a).
Proof.
  intros Hw Ha. unfold onReservationStateChange.
  apply emits_bind; [by apply emits_record_originating|]. intros _ l1 _.
  pose proof (world_ok_traced w l1 Hw) as Hw1. destruct Ha as [app Ha].
  apply emits_bind; [by eapply emits_get_app|]. intros app' l2 _. rewrite traced_traced.
  apply emits_bind; [apply emits_getTasks; [by apply world_ok_traced|by exists app]|].
  intros bound l3 E3.
  apply getTasks_refs in E3; [|by apply world_ok_traced|by exists app].
  apply emits_bind; [by apply emits_load_tasks|]. intros tasks l4 _. rewrite !traced_traced.
  destruct (existsb _ _); [apply emits_ret|].
  apply emits_bind; [apply emits_record_originating; [by apply world_ok_traced|by exists app]|].
  intros. apply emits_dispatch.
Qed.

Lemma emits_handleAppTaskCompletedEvent w a :
  world_ok w → has_app w a → emits w (handleAppTaskCompletedEvent a).
Proof.
  intros Hw Ha. apply emits_bind; [by apply emits_all_tasks|]. intros tasks l _.
  destruct (existsb _ _); [apply emits_ret|]. destruct Ha as [app Ha].
  apply emits_bind; [by eapply emits_get_app|]. intros. apply emits_dispatch.
Qed.

Lemma emits_handleSubmit w a : has_app w a → emits w (handleSubmitApplicationEvent a).
Proof.
  intros [app Ha]. apply emits_bind; [by eapply emits_get_app|]. intros app' l _.
  apply emits_bind; [apply emits_call|]. intros [e|] l' _; [|apply emits_ret].
  apply emits_bind; [apply emits_dispatch|]. intros. apply emits_ret.
Qed.

(** The message of a failure event: a rejection carries its reason after a colon. *)
Definition fail_message_ok (msg : string) : Prop :=
  Contains msg ApplicationInsufficientResourcesFailure = true ∨
  Contains msg ApplicationRejectedFailure = false ∨
  is_Some (Split msg (Ascii.ascii_of_nat 58) !! 1).

Lemma emits_failUnallocated w msg t :
  fail_message_ok msg → has_task w t → emits w (failUnallocated msg t).
Proof.
  intros Hm [o Ho]. unfold failUnallocated.
  assert (Hf : ∀ r m, emits w (failTaskPodWithReasonAndMsg t r m)).
  { intros r m. apply emits_bind; [by eapply emits_get_task|]. intros o' l _.
    apply emits_bind; [apply emits_call|]. intros. apply emits_ret. }
  apply emits_bind.
  - destruct (Contains msg ApplicationInsufficientResourcesFailure) eqn:E1; [apply Hf|].
    destruct (Contains msg ApplicationRejectedFailure) eqn:E2; [|apply emits_ret].
    destruct Hm as [|[|[m Hm]]]; [congruence..|]. rewrite Hm. cbn [must].
    apply emits_bind; [apply emits_ret|]. intros m' l E. injection E as <- E.
    assert (l = []) as ->.
    { apply (f_equal (λ w, length (w_trace w))) in E. simpl in E. rewrite length_app in E.
      apply nil_length_inv. lia. }
    rewrite traced_nil. apply Hf.
  - intros _ l _. apply emits_bind; [by eapply emits_get_task|]. intros. apply emits_record.
Qed.

Lemma safe_upd_app w a f :
  world_ok w → has_app w a → (∀ o, a_applicationID (f o) = a_applicationID o) →
  (∀ o, app_ok w a o → app_ok w a (f o)) → safe w (upd_app a f) anything.
Proof.
  intros Hw [app Ha] Hid Hok. exists tt, (with_app w a (f app)).
  split_and!; [by apply run_upd_app| |by eapply grows_with_app|done].
  eapply world_ok_with_app; [done..|]. apply Hok. by apply (wo_app w Hw).
Qed.

Lemma safe_clearReleaseableTasks w a :
  world_ok w → has_app w a → safe w (clearReleaseableTasks a) anything.
Proof.
  intros Hw Ha. apply safe_upd_app; [done..|]. intros o Ho.
  apply app_ok_releaseable; [done|]. by apply Forall_nil.
Qed.

Lemma safe_handleFail w a msg :
  world_ok w → has_app w a → fail_message_ok msg → safe w (handleFailApplicationEvent a msg) anything.
Proof.
  intros Hw Ha Hm. unfold handleFailApplicationEvent.
  eapply safe_run; [apply run_emit|apply grows_traced|].
  eapply safe_bind; [apply safe_clearReleaseableTasks; [by apply world_ok_traced|done]|].
  intros _ w1 Hw1 Hg1 _. assert (Ha1 : has_app w1 a) by (by eapply grows_has_app).
  apply emits_safe; [done|].
  apply emits_bind; [by apply emits_getTasks|]. intros l1 t1 E1.
  pose proof (getTasks_refs _ _ _ _ _ Hw1 Ha1 E1) as Hr1.
  apply emits_bind; [apply emits_getTasks; [by apply world_ok_traced|done]|]. intros l2 t2 E2.
  pose proof (getTasks_refs _ _ _ _ _ (world_ok_traced _ _ Hw1) Ha1 E2) as Hr2. rewrite traced_traced.
  apply emits_bind; [apply emits_getTasks; [by apply world_ok_traced|done]|]. intros l3 t3 E3.
  pose proof (getTasks_refs _ _ _ _ _ (world_ok_traced _ _ Hw1) Ha1 E3) as Hr3.
  apply emits_for_each. intros x l' Hx. apply emits_failUnallocated; [done|].
  unfold refs_ok in *. rewrite !Forall_forall in *.
  apply elem_of_app in Hx as [Hx|[Hx|Hx]%elem_of_app]; unfold has_task; simpl.
  - apply (Hr1 x Hx).
  - apply (Hr2 x Hx).
  - apply (Hr3 x Hx).
Qed.

Lemma safe_handleRelease w a taskID ty :
  world_ok w → has_app w a → safe w (handleReleaseAppAllocationEvent a taskID ty) anything.
Proof.
  intros Hw Ha. pose proof Ha as [app Happ]. unfold handleReleaseAppAllocationEvent.
  eapply safe_run; [by apply run_get_app|reflexivity|].
  destruct (a_taskMap app !! taskID) as [t|] eqn:Ht; [|by apply safe_ret].
  destruct (ao_tasks _ _ _ (wo_app w Hw a app Happ) _ _ Ht) as (o & Ho & _).
  assert (Htask : has_task w t) by (by exists o).
  eapply safe_bind; [by apply safe_upd_task|]. intros _ w1 Hw1 Hg1 _.
  pose proof (grows_has_task _ _ _ Hg1 Htask) as Ht1.
  pose proof (grows_has_app _ _ _ Hg1 Ha) as Ha1.
  apply emits_safe; [done|]. destruct Ht1 as [o1 Ho1].
  apply emits_bind.
  { unfold publishPlaceholderTimeoutEvents. apply emits_bind; [by eapply emits_get_task|].
    intros o2 l _. destruct (_ && _); [|apply emits_ret].
    apply emits_record_originating; [by apply world_ok_traced|done]. }
  intros _ l _. apply emits_bind; [|intros; apply emits_ret].
  apply emits_bind; [by eapply emits_get_task|]. intros. apply emits_call.
Qed.

(** The events an application can be given: failure messages are well-formed. *)
Definition app_event_ok (ev : AppEvent) : Prop :=
  app_event ev = FailApplication →
  ∀ msg, GetEventArgsAsStrings 1 (app_event_args ev) = Some [msg] → fail_message_ok msg.

Lemma safe_app_after w a ev :
  world_ok w → has_app w a → app_event_ok ev →
  safe w (app_after a (app_event_args ev) (app_event ev)) anything.
Proof.
  intros Hw Ha Hev. unfold app_event_ok in Hev. set (args := app_event_args ev) in *.
  destruct (app_event ev); cbn [app_after]; try (by apply safe_ret).
  - by apply emits_safe, emits_handleSubmit.
  - eapply safe_bind; [by apply emits_safe, emits_onReservationStateChange|].
    intros. by apply safe_ret.
  - destruct (GetEventArgsAsStrings 1 args) as [[|reason [|? ?]]|]; try (by apply safe_ret).
    eapply safe_bind; [|intros; by apply safe_ret].
    unfold handleRejectApplicationEvent. eapply safe_bind; [by apply safe_clearReleaseableTasks|].
    intros _ w1 Hw1 Hg1 _. destruct (grows_has_app _ _ _ Hg1 Ha) as [app1 Ha1].
    apply emits_safe; [done|]. apply emits_bind; [by eapply emits_get_app|].
    intros. apply emits_dispatch.
  - eapply safe_bind; [apply emits_safe; [done|apply emits_emit]|]. intros. by apply safe_ret.
  - destruct (GetEventArgsAsStrings 1 args) as [[|msg [|? ?]]|]; try (by apply safe_ret).
    eapply safe_bind; [|intros; by apply safe_ret]. apply safe_handleFail; auto.
  - destruct (GetEventArgsAsStrings 2 args) as [[|x [|y [|? ?]]]|]; try (by apply safe_ret).
    eapply safe_bind; [|intros; by apply safe_ret]. by apply safe_handleRelease.
  - eapply safe_bind; [by apply emits_safe, emits_handleAppTaskCompletedEvent|].
    intros. by apply safe_ret.
Qed.

Lemma world_ok_fewer_applications w m :
  world_ok w → (∀ id a, m !! id = Some a → w_applications w !! id = Some a) →
  world_ok (mkWorld (w_tasks w) (w_apps w) m (w_cache w) (w_next w) (w_trace w)).
Proof.
  intros [Hc Hp Hi Ha Ht Hf] Hm. split; simpl; try done.
  - intros id a Hid. by apply Hi, Hm.
  - intros a app Happ. destruct (Ha a app Happ) as [H1 H2 H3]. by split.
Qed.

Lemma safe_flush w a : world_ok w → has_app w a → safe w (flushReleaseableTasks a) anything.
Proof.
  intros Hw [app Ha]. pose proof (wo_app w Hw a app Ha) as Hok.
  destruct (decide (a_releaseableTasks app = [])) as [He|Hne].
  { exists tt, w. split_and!; try done. unfold flushReleaseableTasks. run. by rewrite He. }
  pose proof (run_flush w a app Ha (app_ok_refs _ _ _ Hok) Hne (ao_released _ _ _ Hok)) as E.
  cbv zeta in E. eexists _, _. split_and!; [exact E| | |done]; clear E.
  - assert (Hw1 : world_ok (with_app w a (a_set_releaseableTasks [] app))).
    { eapply world_ok_with_app; [done..|]. apply app_ok_releaseable; [done|]. by apply Forall_nil. }
    destruct (all_terminated w app); [|by apply world_ok_traced].
    apply (world_ok_fewer_applications (traced (with_app w a (a_set_releaseableTasks [] app)) _)).
    + by apply world_ok_traced.
    + intros id x. simpl. destruct (a_hasContext app); [|done]. by intros [_ ?]%lookup_delete_Some.
  - destruct (all_terminated w app).
    + assert (Hg : grows w (with_app w a (a_set_releaseableTasks [] app))) by (by eapply grows_with_app).
      destruct Hg as [Hg1 Hg2]. by split.
    + etrans; [|apply grows_traced]. by eapply grows_with_app.
Qed.

Lemma safe_app_handle w a ev :
  world_ok w → has_app w a → app_event_ok ev → safe w (app_handle a ev) anything.
Proof.
  intros Hw Ha Hev. pose proof Ha as [app Happ]. unfold app_handle.
  assert (Hrun : safe w (fsm_run app_events (app_machine a (app_event_args ev)) (app_event ev)) anything).
  { unfold fsm_run, app_machine. cbn [m_Current m_before m_after m_enter m_SetState].
    eapply safe_run; [by rewrite run_bind, (run_get_app _ _ _ Happ), run_ret|reflexivity|].
    destruct (fsm_dst app_events (a_state app) (app_event ev)) as [dst|]; [|by apply safe_ret].
    eapply safe_run; [done|reflexivity|]. destruct (bool_decide _).
    - eapply safe_bind; [by apply safe_app_after|]. intros. by apply safe_ret.
    - eapply safe_bind; [apply safe_upd_app; [done..|by intros o [? ? ?]]|].
      intros _ w2 Hw2 Hg2 _. pose proof (grows_has_app _ _ _ Hg2 Ha) as Ha2.
      eapply (safe_bind _ _ _ anything).
      { destruct dst; cbn [app_enter]; try (by apply safe_ret).
        - by apply safe_flush.
        - by apply emits_safe, emits_onReserving.
        - by apply emits_safe, emits_record_originating. }
      intros _ w3 Hw3 Hg3 _. pose proof (grows_has_app _ _ _ Hg3 Ha2) as Ha3.
      eapply safe_bind; [by apply safe_app_after|]. intros. by apply safe_ret. }
  destruct Hrun as (e & w' & E & Hw' & Hg & _).
  eapply safe_run; [by rewrite fsm_Event_spec|done|].
  destruct e as [e|]; [destruct (is_no_transition e)|]; by apply safe_ret.
Qed.

(** ** Scheduling rounds *)

Lemma marked_same w s moved t o :
  w_tasks w !! t = Some o →
  ∃ o', mark_all s moved (w_tasks w) !! t = Some o' ∧ same_task o o' ∧ t_pod o' = t_pod o.
Proof.
  intros Ho. rewrite mark_all_lookup, Ho. eexists. split; [done|]. by case_bool_decide.
Qed.

Lemma grows_marked w s moved : grows w (marked s moved w).
Proof.
  split; simpl; eauto. intros t o Ho.
  destruct (marked_same w s moved t o Ho) as (o' & Ho' & Hs & _). by exists o'.
Qed.

Lemma world_ok_marked w s moved : world_ok w → world_ok (marked s moved w).
Proof.
  intros Hw. pose proof (grows_marked w s moved) as Hg. destruct Hw as [Hc Hp Hi Ha Ht Hf].
  split; simpl; try done.
  - intros a app Happ. eapply grows_app_ok; [exact Hg|]. by apply Ha.
  - intros t o'. rewrite mark_all_lookup. destruct (w_tasks w !! t) as [o|] eqn:Ho; [|done].
    simpl. intros [= <-]. specialize (Ht t o Ho). by case_bool_decide.
  - intros k Hk. destruct (Hf k Hk) as [Hkt Hka]. by rewrite mark_all_lookup, Hkt.
Qed.

Lemma app_ids_ok_of w a app : app_ok w a app → app_ids_ok w app.
Proof. intros Hok k t Hk. destruct (ao_tasks _ _ _ Hok k t Hk) as (o & ? & ? & _). eauto. Qed.

Lemma safe_round w a app cond :
  world_ok w → w_apps w !! a = Some app → round_condition (a_state app) = Some cond →
  safe w (Schedule conf a) anything.
Proof.
  intros Hw Ha Hc. pose proof (wo_app w Hw a app Ha) as Hok.
  destruct (run_Schedule conf cond a w app Ha (app_ok_refs _ _ _ Hok) (app_ids_ok_of _ _ _ Hok) Hc)
    as (moved & l & m & again & E & _ & Hm & _).
  assert (Hw1 : world_ok (traced (marked TPending moved w) l)) by (by apply world_ok_traced, world_ok_marked).
  assert (Hg1 : grows w (traced (marked TPending moved w) l))
    by (etrans; [apply grows_marked|apply grows_traced]).
  eexists _, _. split_and!; [exact E| | |done].
  - eapply world_ok_with_app; [done|done|done|].
    pose proof (grows_app_ok _ _ _ _ Hg1 Hok) as [H1 H2 H3]. split; simpl; [|done..].
    intros k t Hk. apply Hm in Hk as [Hk _]. by apply H1.
  - etrans; [exact Hg1|]. by eapply grows_with_app.
Qed.

Lemma emits_postAppAccepted w a : world_ok w → has_app w a → emits w (postAppAccepted a).
Proof.
  intros Hw Ha. pose proof Ha as [app Happ].
  apply emits_bind; [by eapply emits_get_app|]. intros app' l _.
  apply emits_bind; [|intros; apply emits_dispatch].
  apply emits_bind; [by eapply emits_get_app|]. intros app2 l2 _.
  destruct (bool_decide _); [apply emits_ret|]. rewrite traced_traced.
  apply emits_bind; [apply emits_all_tasks; [by apply world_ok_traced|done]|].
  intros. apply emits_ret.
Qed.

Lemma safe_Schedule w a : world_ok w → has_app w a → safe w (Schedule conf a) anything.
Proof.
  intros Hw Ha. pose proof Ha as [app Happ].
  destruct (round_condition (a_state app)) as [cond|] eqn:Hc; [by eapply safe_round|].
  unfold Schedule. eapply safe_run; [by apply run_get_app|reflexivity|].
  destruct (a_state app); try done; try (by apply safe_ret).
  - eapply safe_bind; [by apply safe_app_handle|]. intros. by apply safe_ret.
  - eapply safe_bind; [by apply emits_safe, emits_postAppAccepted|]. intros. by apply safe_ret.
Qed.

End Tasks.
