(* ===== verification/SafetyCache.v ===== *)
(** * The scheduler cache inside the world

    How the operations of the cache act on a well-formed world: which pods the
    cache holds afterwards, and that pods handed to later operations stay
    acceptable. *)

From S2P Require Import Prelude.
From S2P Require Import GoStrings.
From S2P Require Import K8sApi.
From S2P Require Import K8sInstances.
From S2P Require Import Constants.
From S2P Require Import Resource.
From S2P Require Import PodUtils.
From S2P Require Import SiHelper.
From S2P Require Import TaskGroups.
From S2P Require Import SchedulerCache.
From S2P Require Import SchedulerCacheInv.
From S2P Require Import SchedulerCacheOps.
From S2P Require Import SchedulerCacheNodes.
From S2P Require Import SchedulerCacheThms.
From S2P Require Import World.
From S2P Require Import Logic.
From S2P Require Import Fsm.
From S2P Require Import ContextPods.
From S2P Require Import Task.
From S2P Require Import Application.
From S2P Require Import ShimContext.
From S2P Require Import TaskThms.
From S2P Require Import ApplicationThms.
From S2P Require Import GangThms.
From S2P Require Import ScheduleThms.
From S2P Require Import DeferThms.
From S2P Require Import BindThms.
From S2P Require Import Safety.
From S2P Require Import SafetyTasks.

(** A pod that differs from [q] in its node at most. *)
Definition variant (p q : Pod) : Prop := p = pod_with_NodeName q (pod_NodeName p).

Lemma variant_refl p : variant p p.
Proof. unfold variant. by rewrite pod_with_NodeName_id. Qed.

Lemma variant_rename q n : variant (pod_with_NodeName q n) q.
Proof. done. Qed.

Lemma variant_trans p q r : variant p q → variant q r → variant p r.
Proof. unfold variant. intros -> ->. done. Qed.

(** The pods after a cache operation: variants of pods that were there, or of
    the pod handed in. *)
Definition pods_from (extra : option Pod) (P P' : gmap string Pod) : Prop :=
  ∀ k p, P' !! k = Some p →
    ∃ q, variant p q ∧ (P !! k = Some q ∨ extra = Some q ∧ pod_UID q = k).

Lemma pods_from_refl extra P : pods_from extra P P.
Proof. intros k p Hk. exists p. split; [apply variant_refl|by left]. Qed.

Lemma pods_from_delete extra P k : pods_from extra P (delete k P).
Proof. intros k' p [_ Hk]%lookup_delete_Some. exists p. split; [apply variant_refl|by left]. Qed.

Lemma pods_from_insert P p q : variant q p → pods_from (Some p) P (<[pod_UID p := q]> P).
Proof.
  intros Hv k r. rewrite lookup_insert_Some. intros [[<- <-]|[_ Hk]].
  - exists p. by auto.
  - exists r. split; [apply variant_refl|by left].
Qed.

Lemma pods_from_trans extra P P' P'' :
  pods_from None P P' → pods_from extra P' P'' → pods_from extra P P''.
Proof.
  intros H1 H2 k p Hk. destruct (H2 k p Hk) as (q & Hv & [Hq|He]); [|by exists q; auto].
  destruct (H1 k q Hq) as (r & Hv' & [Hr|[? _]]); [|done]. exists r.
  split; [by eapply variant_trans|by left].
Qed.

(** A pod handed in that is a variant of the cached one brings nothing new. *)
Lemma pods_from_known P P' p q :
  P !! pod_UID p = Some q → variant p q → pods_from (Some p) P P' → pods_from None P P'.
Proof.
  intros Hp Hv Hf k r Hk. destruct (Hf k r Hk) as (s & Hvs & [Hs|[[= <-] Hu]]).
  - exists s. auto.
  - exists q. split; [by eapply variant_trans|]. left. by rewrite <- Hu.
Qed.

Lemma spec_kept_variant a pod : variant (spec_kept a pod) pod.
Proof.
  unfold spec_kept. destruct (a_pods a !! pod_UID pod); [|apply variant_refl].
  destruct (decide _); [apply variant_rename|apply variant_refl].
Qed.

Lemma spec_updatePod_from pod a : pods_from (Some pod) (a_pods a) (a_pods (spec_updatePod pod a).1).
Proof.
  unfold spec_updatePod. destruct (IsPodTerminated pod); simpl; [apply pods_from_delete|].
  apply pods_from_insert, spec_kept_variant.
Qed.

Lemma spec_forgetPod_from pod a :
  a_pods a !! pod_UID pod = Some pod → pods_from None (a_pods a) (a_pods (spec_forgetPod pod a)).
Proof.
  intros Hp. unfold spec_forgetPod.
  set (pod' := if decide _ then pod_with_NodeName pod "" else pod).
  assert (Hv : variant pod' pod ∧ pod_UID pod' = pod_UID pod).
  { subst pod'. destruct (decide _); [done|]. split; [apply variant_refl|done]. }
  destruct Hv as [Hv Hu]. eapply (pods_from_known _ _ pod' pod); [by rewrite Hu|done|].
  apply (spec_updatePod_from pod' (mkAbsCache _ _ _ _)).
Qed.

Lemma spec_removeNode_from node a : pods_from None (a_pods a) (a_pods (spec_removeNode node a)).
Proof.
  unfold spec_removeNode. destruct (decide _); [|apply pods_from_refl]. simpl. intros k p.
  rewrite map_lookup_imap. destruct (a_pods a !! k) as [q|]; simpl; [|done]. intros [= <-].
  exists q. split; [|by left]. destruct (decide _); [apply variant_rename|apply variant_refl].
Qed.

Section Cache.
Context `{SC : SiConstants} `{NIO : NodeInfoOps} `{NIL : !NodeInfoLaws} `{MO : MapOrder}.

Lemma tags_variant p q : variant p q → tags_ok q → tags_ok p.
Proof. by intros ->. Qed.

Lemma pods_from_tags extra P P' :
  pods_from extra P P' → (∀ k p, P !! k = Some p → tags_ok p) →
  (∀ p, extra = Some p → tags_ok p) → ∀ k p, P' !! k = Some p → tags_ok p.
Proof.
  intros Hf HP He k p Hk. destruct (Hf k p Hk) as (q & Hv & [Hq|[Hq _]]);
    eapply tags_variant; eauto.
Qed.

Lemma pods_from_valid extra c c' p :
  pods_from extra (podsMap c) (podsMap c') → pod_valid c p →
  (∀ q, extra = Some q → pod_UID q = pod_UID p → same_identity p q) → pod_valid c' p.
Proof.
  intros Hf [Hne Hv] He. split; [done|]. intros cur Hcur.
  destruct (Hf _ _ Hcur) as (q & -> & [Hq|[Hq Hu]]).
  - apply (Hv q Hq).
  - apply (He q Hq Hu).
Qed.

(** The result of a cache operation in the world. *)
Definition cached (w : World) (extra : option Pod) (w' : World) : Prop :=
  w' = with_cache w (w_cache w') ∧ pods_from extra (podsMap (w_cache w)) (podsMap (w_cache w')).

Lemma safe_cache_result {B} w (m : M B) b c' extra :
  world_ok w → m w = Some (b, with_cache w c') → wf c' →
  pods_from extra (podsMap (w_cache w)) (podsMap c') → (∀ p, extra = Some p → tags_ok p) →
  safe w m (λ b' w', b' = b ∧ cached w extra w').
Proof.
  intros Hw E Hwf Hf He. exists b, (with_cache w c').
  split_and!; [done| |apply grows_with_cache|done|done].
  apply world_ok_with_cache; [done..|]. eapply pods_from_tags; [done| |done]. apply (wo_pods w Hw).
Qed.

Lemma safe_updatePod w pod :
  world_ok w → pod_valid (w_cache w) pod → tags_ok pod →
  safe w (on_cache_with (updatePod pod)) (λ b w',
    b = (spec_updatePod pod (abs (w_cache w))).2 ∧
    cached w (Some pod) w' ∧ abs (w_cache w') = (spec_updatePod pod (abs (w_cache w))).1).
Proof.
  intros Hw Hv Htags.
  destruct (updatePod_refines (w_cache w) pod (wo_cache w Hw) Hv) as (c' & b & E & Hwf & Hs).
  assert (Hp : podsMap c' = a_pods (spec_updatePod pod (abs (w_cache w))).1) by (by rewrite Hs).
  destruct (safe_cache_result w (on_cache_with (updatePod pod)) b c' (Some pod))
    as (b' & w' & E' & Hw' & Hg & -> & Hc); try done.
  - unfold on_cache_with. by rewrite E.
  - rewrite Hp. apply (spec_updatePod_from pod (abs (w_cache w))).
  - by intros p [= <-].
  - exists b, w'. split_and!; [done..|by rewrite Hs|done|].
    unfold on_cache_with in E'. rewrite E in E'. injection E' as <-. by rewrite Hs.
Qed.

Lemma safe_removePod w pod :
  world_ok w → pod_valid (w_cache w) pod →
  safe w (on_cache (removePod pod)) (λ _ w', cached w None w').
Proof.
  intros Hw Hv.
  destruct (removePod_refines (w_cache w) pod (wo_cache w Hw) Hv) as (c' & E & Hwf & Habs).
  assert (Hp : podsMap c' = a_pods (spec_removePod pod (abs (w_cache w)))) by (by rewrite <- Habs).
  eapply safe_weaken; [apply (safe_cache_result w _ tt c' None); try done|].
  - unfold on_cache. by rewrite E.
  - rewrite Hp. apply pods_from_delete.
  - by intros [] w' _ _ [_ ?].
Qed.

End Cache.
