(* ===== verification/SafetyContext.v ===== *)
(** * The handlers of the context keep the invariant *)

From S2P Require Import Prelude.
From S2P Require Import GoStrings.
From S2P Require Import K8sApi.
From S2P Require Import K8sInstances.
From S2P Require Import Constants.
From S2P Require Import Resource.
From S2P Require Import PodUtils.
From S2P Require Import SiHelper.
From S2P Require Import TaskGroups.
From S2P Require Import SchedulerCache.
From S2P Require Import SchedulerCacheInv.
From S2P Require Import SchedulerCacheOps.
From S2P Require Import SchedulerCacheNodes.
From S2P Require Import SchedulerCacheThms.
From S2P Require Import World.
From S2P Require Import Logic.
From S2P Require Import Fsm.
From S2P Require Import ContextPods.
From S2P Require Import Task.
From S2P Require Import Application.
From S2P Require Import ShimContext.
From S2P Require Import TaskThms.
From S2P Require Import ApplicationThms.
From S2P Require Import GangThms.
From S2P Require Import ScheduleThms.
From S2P Require Import DeferThms.
From S2P Require Import BindThms.
From S2P Require Import Safety.
From S2P Require Import SafetyTasks.
From S2P Require Import SafetyCache.

(** Computations that leave the scheduler cache alone. *)
Definition keeps_cache (w w' : World) : Prop := w_cache w = w_cache w'.

#[export] Instance keeps_cache_preorder : PreOrder keeps_cache.
Proof. split; unfold keeps_cache; [done|]. intros w1 w2 w3. congruence. Qed.

Create HintDb kcache.

Lemma kcache_emit e : preserves keeps_cache (emit e).
Proof. by intros w a w' [= _ <-]. Qed.
Lemma kcache_record p x y z : preserves keeps_cache (record p x y z).
Proof. apply kcache_emit. Qed.
Lemma kcache_dispatch ev : preserves keeps_cache (dispatch ev).
Proof. apply kcache_emit. Qed.
Lemma kcache_call `{Env} e : preserves keeps_cache (call e).
Proof. by intros w a w' [= _ <-]. Qed.
Lemma kcache_put_task t o : preserves keeps_cache (put_task t o).
Proof. by intros w a w' [= _ <-]. Qed.
Lemma kcache_upd_task t f : preserves keeps_cache (upd_task t f).
Proof. unfold upd_task. preserves_tac ltac:(apply kcache_put_task). Qed.

#[export] Hint Resolve kcache_emit kcache_record kcache_dispatch kcache_call kcache_put_task
  kcache_upd_task : kcache.

(** What the shim relies on when it registers nodes: the core answers for every
    node of the request. *)
Class CoreLaws `{Env} : Prop := {
  core_answers tr req n : n ∈ nr_Nodes req → sn_NodeID n ∈ (node_answers tr req).*1
}.

Section Context.
Context `{SC : SiConstants} `{QO : QuantityOps} `{NIO : NodeInfoOps} `{NIL : !NodeInfoLaws}.
Context `{MO : MapOrder} `{TT : TerminationTypes} `{PH : PodHelpers} `{JO : JsonOps}.
Context `{TG : TaskGroupJson} `{EV : Env} `{VL : !VolumeBinderLaws} `{FE : FsmEngine}.
Context `{FL : !FsmLaws} `{RE : RetryEngine} `{RL : !RetryLaws} (conf : ShimConf).

Local Abbreviation anything := (λ _ _, True).

Lemma safe_keeps {A} w (m : M A) Q (R : World → World → Prop) :
  safe w m Q → preserves R m → safe w m (λ a w', Q a w' ∧ R w w').
Proof. intros (a & w' & E & Hw' & Hg & HQ) HR. exists a, w'. split_and!; eauto. Qed.

Lemma kcache_updateAllocation t : preserves keeps_cache (updateAllocation t).
Proof.
  unfold updateAllocation, isPreemptSelfAllowed, IsPreemptSelfAllowed.
  preserves_tac ltac:(solve [auto with kcache]).
Qed.

(** ** New objects *)

Lemma safe_alloc_task w o app :
  world_ok w → w_apps w !! t_application o = Some app → a_applicationID app = t_applicationID o →
  tags_ok (t_pod o) →
  safe w (alloc_task o) (λ t w', w_tasks w' !! t = Some o ∧ w_cache w' = w_cache w).
Proof.
  intros Hw Ha Hid Htags. pose proof Hw as [Hc Hp Hi Hao Ht Hf].
  destruct (Hf (w_next w) ltac:(lia)) as [Hnt Hna].
  set (w' := mkWorld (<[w_next w := o]> (w_tasks w)) (w_apps w) (w_applications w) (w_cache w)
               (S (w_next w)) (w_trace w)).
  assert (Hg : grows w w').
  { split; simpl; [|eauto]. intros x ox Hx. exists ox.
    rewrite lookup_insert_ne by (intros <-; congruence). by split_and!. }
  exists (w_next w), w'. split_and!; [done| |done| |done]; [|apply lookup_insert_eq].
  split; simpl; try done.
  - intros a app' Happ'. eapply grows_app_ok; [exact Hg|]. by apply Hao.
  - intros x ox. rewrite lookup_insert_Some. intros [[<- <-]|[_ Hx]]; [|by apply Ht in Hx].
    split; [done|]. by exists app.
  - intros k Hk. destruct (Hf k ltac:(lia)) as [? ?]. rewrite lookup_insert_ne by lia. done.
Qed.

Lemma safe_alloc_app w app :
  world_ok w → a_taskMap app = ∅ → a_originatingTask app = None → a_releaseableTasks app = [] →
  safe w (alloc_app app) (λ a w', w_apps w' !! a = Some app ∧ w_cache w' = w_cache w ∧
    w_applications w' = w_applications w).
Proof.
  intros Hw Hm Ho Hr. pose proof Hw as [Hc Hp Hi Hao Ht Hf].
  destruct (Hf (w_next w) ltac:(lia)) as [Hnt Hna].
  set (w' := mkWorld (w_tasks w) (<[w_next w := app]> (w_apps w)) (w_applications w) (w_cache w)
               (S (w_next w)) (w_trace w)).
  assert (Hg : grows w w').
  { split; simpl; [intros t o Hto; exists o; by split_and!|]. intros x ax Hx. exists ax.
    by rewrite lookup_insert_ne by (intros <-; congruence). }
  assert (Hlook : ∀ x ax, w_apps w !! x = Some ax → <[w_next w := app]> (w_apps w) !! x = Some ax).
  { intros x ax Hx. by rewrite lookup_insert_ne by (intros <-; congruence). }
  exists (w_next w), w'. split_and!; [done| |done| |done|done]; [|apply lookup_insert_eq].
  split; simpl; try done.
  - intros id x Hx. destruct (Hi id x Hx) as (ax & Hax & Hid). exists ax. auto.
  - intros x ax. rewrite lookup_insert_Some. intros [[<- <-]|[_ Hx]].
    + split; [by intros k t; rewrite Hm|by rewrite Ho|rewrite Hr; by apply Forall_nil].
    + eapply grows_app_ok; [exact Hg|]. by apply Hao.
  - intros t o Hto. destruct (Ht t o Hto) as [? (ax & Hax & ?)]. split; [done|]. exists ax. auto.
  - intros k Hk. destruct (Hf k ltac:(lia)) as [? ?]. rewrite lookup_insert_ne by lia. done.
Qed.

Lemma world_ok_put_applications w id a app :
  world_ok w → w_apps w !! a = Some app → a_applicationID app = id →
  world_ok (mkWorld (w_tasks w) (w_apps w) (<[id := a]> (w_applications w)) (w_cache w) (w_next w)
              (w_trace w)).
Proof.
  intros [Hc Hp Hi Hao Ht Hf] Ha Hid. split; simpl; try done.
  - intros id' x. rewrite lookup_insert_Some. intros [[<- <-]|[_ Hx]]; [by exists app|auto].
  - intros x ax Hx. destruct (Hao x ax Hx) as [H1 H2 H3]. by split.
Qed.

(** ** Applications *)

Lemma kcache_updateApplicationTags tags ns : preserves keeps_cache (Ctx.updateApplicationTags tags ns).
Proof.
  unfold Ctx.updateApplicationTags, Ctx.getNamespaceObject. preserves_tac ltac:(solve [auto with kcache]).
Qed.

Lemma emits_updateApplicationTags w tags ns : emits w (Ctx.updateApplicationTags tags ns).
Proof.
  unfold Ctx.updateApplicationTags, Ctx.getNamespaceObject. apply emits_bind.
  - destruct (bool_decide _); [apply emits_ret|]. apply emits_bind; [apply emits_ask|].
    intros [?|?] l _; apply emits_ret.
  - intros [?|] l _; apply emits_ret.
Qed.

(** An application object with this ID. *)
Definition app_with_id (w : World) (a : AppRef) (id : string) : Prop :=
  ∃ app, w_apps w !! a = Some app ∧ a_applicationID app = id.

Lemma grows_app_with_id w w' a id : grows w w' → app_with_id w a id → app_with_id w' a id.
Proof.
  intros Hg (app & Ha & <-). destruct (gr_apps _ _ Hg a app Ha) as (app' & ? & ?). by exists app'.
Qed.

Lemma app_with_id_has w a id : app_with_id w a id → has_app w a.
Proof. intros (app & Ha & _). by exists app. Qed.

(** Assignments that only touch plain data of an application. *)
Lemma safe_set_data w a f id :
  world_ok w → app_with_id w a id → (∀ o, a_applicationID (f o) = a_applicationID o) →
  (∀ o, a_taskMap (f o) = a_taskMap o ∧ a_originatingTask (f o) = a_originatingTask o ∧
        a_releaseableTasks (f o) = a_releaseableTasks o) →
  safe w (upd_app a f) (λ _ w', app_with_id w' a id ∧ w_cache w' = w_cache w).
Proof.
  intros Hw Hid Hf Hd.
  destruct (safe_upd_app w a f Hw (app_with_id_has _ _ _ Hid) Hf) as (x & w' & E & Hw' & Hg & _).
  { intros o [H1 H2 H3]. destruct (Hd o) as (E1 & E2 & E3). by split; rewrite ?E1, ?E2, ?E3. }
  exists x, w'. split_and!; [done..| |].
  - by eapply grows_app_with_id.
  - destruct Hid as (app & Ha & _). rewrite (run_upd_app a f w app Ha) in E. by injection E as _ <-.
Qed.

Lemma safe_addApplication w metadata :
  world_ok w →
  safe w (Ctx.addApplication metadata) (λ a w', app_with_id w' a (am_ApplicationID metadata) ∧
    w_cache w' = w_cache w).
Proof.
  intros Hw. unfold Ctx.addApplication. eapply safe_run; [done|reflexivity|].
  destruct (w_applications w !! am_ApplicationID metadata) as [a|] eqn:Hex.
  { apply safe_ret; [done|]. split; [|done]. by apply (wo_ids w Hw). }
  eapply (safe_bind _ _ _ (λ _ w', w_cache w' = w_cache w)).
  { destruct (am_Tags metadata !! AppTagNamespace) as [ns|]; [|by apply safe_ret].
    eapply safe_weaken; [apply safe_keeps; [by apply emits_safe, emits_updateApplicationTags|
      apply kcache_updateApplicationTags]|]. by intros ? ? _ _ [_ ?]. }
  intros tags w1 Hw1 Hg1 Hc1. cbv zeta.
  eapply safe_bind; [by apply safe_alloc_app|]. intros a w2 Hw2 Hg2 (Ha2 & Hc2 & _).
  assert (Hid : app_with_id w2 a (am_ApplicationID metadata)) by (by eexists).
  assert (Hc : w_cache w2 = w_cache w) by congruence. clear Ha2 Hc1 Hc2 Hg1 Hg2 Hw1.
  unfold setContext, setTaskGroupsDefinition, setSchedulingParamsDefinition, SetPlaceholderTimeout,
    setSchedulingStyle, setPlaceholderOwnerReferences.
  eapply safe_bind; [by apply safe_set_data|]. intros [] w3 Hw3 _ [Hid3 Hc3].
  eapply (safe_bind _ _ _ (λ _ w', app_with_id w' a (am_ApplicationID metadata) ∧
    w_cache w' = w_cache w3)).
  { unfold setTaskGroups. eapply safe_bind; [by apply safe_set_data|].
    intros [] w4 Hw4 _ [Hid4 Hc4]. eapply safe_weaken; [by apply safe_set_data|].
    intros [] w5 _ _ [Hid5 Hc5]. exact (conj Hid5 (eq_trans Hc5 Hc4)). }
  intros [] w4 Hw4 _ [Hid4 Hc4].
  eapply safe_bind; [by apply safe_set_data|]. intros [] w5 Hw5 _ [Hid5 Hc5].
  eapply safe_bind; [by apply safe_set_data|]. intros [] w6 Hw6 _ [Hid6 Hc6].
  eapply safe_bind; [by apply safe_set_data|]. intros [] w7 Hw7 _ [Hid7 Hc7].
  eapply safe_bind; [by apply safe_set_data|]. intros [] w8 Hw8 _ [Hid8 Hc8].
  eapply safe_bind; [by apply safe_set_data|]. intros [] w9 Hw9 _ [Hid9 Hc9].
  eapply safe_run; [done|reflexivity|]. destruct Hid9 as (app & Ha & Happ).
  eexists _, _. split_and!; [done| | | |].
  - by eapply world_ok_put_applications.
  - split; simpl; eauto. intros t o Ho. exists o. by split_and!.
  - by exists app.
  - simpl. congruence.
Qed.

(** ** Tasks *)

Lemma initialize_same o : same_task o (initialize o) ∧ t_pod (initialize o) = t_pod o.
Proof. unfold initialize. by destruct (IsPodTerminated _). Qed.

Lemma safe_NewFromTaskMeta w a tid metadata originator :
  world_ok w → has_app w a → tags_ok (tm_Pod metadata) →
  safe w (NewFromTaskMeta tid a metadata originator) (λ t w',
    (∃ o, w_tasks w' !! t = Some o ∧ t_taskID o = tid ∧ t_application o = a) ∧
    w_cache w' = w_cache w).
Proof.
  intros Hw [app Ha] Htags. unfold NewFromTaskMeta, createTaskInternal.
  eapply safe_run; [by apply run_get_app|reflexivity|]. cbv zeta.
  set (o := if GetTaskGroupFromPodSpec _ <>s "" then _ else _).
  assert (Hs : t_taskID o = tid ∧ t_application o = a ∧ t_applicationID o = a_applicationID app ∧
    t_pod o = tm_Pod metadata) by (subst o; by destruct (negb _)).
  destruct Hs as (H1 & H2 & H3 & H4), (initialize_same o) as [(I1 & I2 & I3) I4].
  eapply safe_weaken; [apply (safe_alloc_task w (initialize o) app); [done|..]|].
  - by rewrite I2, H2.
  - by rewrite I3, H3.
  - by rewrite I4, H4.
  - intros t w' _ _ [Ho Hc]. split; [|done]. exists (initialize o). split_and!; congruence.
Qed.

Lemma safe_app_addTask w a t o :
  world_ok w → has_app w a → w_tasks w !! t = Some o → t_application o = a →
  safe w (addTask a t) (λ _ w', w_cache w' = w_cache w ∧ w_tasks w' = w_tasks w).
Proof.
  intros Hw [app Ha] Ho Happ. unfold addTask.
  eapply safe_run; [by apply run_get_app|reflexivity|].
  eapply safe_run; [by apply run_get_task|reflexivity|].
  destruct (a_taskMap app !! t_taskID o) eqn:Hm; [by apply safe_ret|].
  eexists _, _. split_and!; [by apply run_put_app| |by eapply grows_with_app|done|done].
  eapply world_ok_with_app; [done..|]. destruct (wo_app w Hw a app Ha) as [H1 H2 H3].
  split; simpl; [|done..]. intros k t'. rewrite lookup_insert_Some.
  intros [[<- <-]|[_ Hk]]; [by exists o|by apply H1].
Qed.

Lemma safe_ctx_addTask w metadata :
  world_ok w → tags_ok (tm_Pod metadata) →
  safe w (Ctx.addTask metadata) (λ _ w', w_cache w' = w_cache w).
Proof.
  intros Hw Htags. unfold Ctx.addTask. eapply safe_run; [done|reflexivity|].
  destruct (w_applications w !! tm_ApplicationID metadata) as [a|] eqn:Hid; [|by apply safe_ret].
  destruct (wo_ids w Hw _ _ Hid) as (app & Ha & _).
  eapply safe_run; [by apply run_get_app|reflexivity|].
  destruct (a_taskMap app !! tm_TaskID metadata) as [t|]; [by apply safe_ret|]. cbv zeta.
  eapply safe_bind; [apply safe_NewFromTaskMeta; [done|by exists app|done]|].
  intros t w1 Hw1 Hg1 [(o & Ho & _ & Happ) Hc1].
  assert (Ha1 : has_app w1 a) by (eapply grows_has_app; [done|by exists app]).
  eapply safe_bind; [by apply (safe_app_addTask w1 a t o)|]. intros [] w2 Hw2 Hg2 [Hc2 Ht2].
  assert (Ha2 : has_app w2 a) by (by eapply grows_has_app).
  assert (Ho2 : is_Some (w_tasks w2 !! t)) by (rewrite Ht2; eauto).
  eapply (safe_bind _ _ _ (λ _ w', w_cache w' = w_cache w2)); cycle 1.
  { intros [] w3 Hw3 _ Hc3. apply safe_ret; [done|congruence]. }
  destruct (_ && _); [|by apply safe_ret]. destruct Ha2 as [app2 Ha2].
  eexists _, _. split_and!; [by apply run_upd_app| |by eapply grows_with_app|done].
  eapply world_ok_with_app; [done..|]. destruct (wo_app w2 Hw2 a app2 Ha2) as [H1 H2 H3].
  split; simpl; [done| |done]. by intros ? [= <-].
Qed.

Lemma getTaskMetadata_pod pod m : getTaskMetadata conf pod = Some m → tm_Pod m = pod.
Proof. unfold getTaskMetadata. destruct (bool_decide _); [done|]. by intros [= <-]. Qed.

Lemma safe_ensure w pod app :
  world_ok w → tags_ok pod → (∀ a, app = Some a → has_app w a) →
  safe w (Ctx.ensureAppAndTaskCreated conf pod app) (λ _ w', w_cache w' = w_cache w).
Proof.
  intros Hw Htags Happ. unfold Ctx.ensureAppAndTaskCreated.
  eapply (safe_bind _ _ _ (λ r w', (∀ a, r = Some a → has_app w' a) ∧ w_cache w' = w_cache w)).
  { destruct app as [a|]; [by apply safe_ret|].
    destruct (getAppMetadata conf pod) as [[appMeta bad]|]; [|by apply safe_ret].
    eapply (safe_bind _ _ _ (λ _ w', w_cache w' = w_cache w)).
    { destruct bad; [|by apply safe_ret]. eexists _, _.
      split_and!; [apply run_record|by apply world_ok_traced|apply grows_traced|done]. }
    intros [] w1 Hw1 _ Hc1. eapply safe_bind; [by apply safe_addApplication|].
    intros a w2 Hw2 _ [Ha2 Hc2]. apply safe_ret; [done|]. split; [|congruence].
    intros ? [= <-]. by eapply app_with_id_has. }
  intros [a|] w1 Hw1 _ [Ha1 Hc1]; [|by apply safe_ret].
  destruct (getTaskMetadata conf pod) as [meta|] eqn:Hmeta; [|by apply safe_ret].
  destruct (Ha1 a eq_refl) as [o Ho]. eapply safe_run; [by apply run_get_app|reflexivity|].
  destruct (a_taskMap o !! pod_UID pod); [by apply safe_ret|].
  eapply safe_bind; [apply safe_ctx_addTask; [done|by rewrite (getTaskMetadata_pod _ _ Hmeta)]|].
  intros t w2 Hw2 _ Hc2. apply safe_ret; [done|congruence].
Qed.

Lemma safe_SetTaskPod w t pod :
  world_ok w → has_task w t → tags_ok pod →
  safe w (SetTaskPod t pod) (λ _ w', w_cache w' = w_cache w).
Proof.
  intros Hw Ht Htags. eapply safe_weaken; [apply (safe_keeps w _ anything keeps_cache)|].
  - unfold SetTaskPod. eapply safe_bind; [by apply safe_upd_task|]. intros [] w1 Hw1 Hg1 _.
    destruct (grows_has_task _ _ _ Hg1 Ht) as [o1 Ho1].
    eapply safe_run; [by apply run_get_task|reflexivity|]. cbv zeta.
    destruct (negb _); [|by apply safe_ret].
    eapply safe_bind; [by apply safe_upd_task; [|by exists o1|..]|]. intros [] w2 Hw2 Hg2 _.
    apply emits_safe; [done|]. apply emits_updateAllocation; [done|].
    eapply grows_has_task; [done|by exists o1].
  - unfold SetTaskPod. preserves_tac ltac:(first [apply kcache_updateAllocation
      | solve [auto with kcache]]).
  - by intros [] w' _ _ [_ ?].
Qed.

(** ** Pods *)

(** A pod an informer may hand to the context. *)
Definition pod_acceptable (w : World) (pod : Pod) : Prop :=
  pod_valid (w_cache w) pod ∧ tags_ok pod.

Definition cache_from (w : World) (extra : option Pod) (w' : World) : Prop :=
  pods_from extra (podsMap (w_cache w)) (podsMap (w_cache w')).

Lemma pods_from_more extra P P' : pods_from None P P' → pods_from extra P P'.
Proof. intros Hf k p Hk. destruct (Hf k p Hk) as (q & ? & [?|[? _]]); [eauto|done]. Qed.

Lemma emits_notifyTaskComplete w app tid :
  (∀ a, app = Some a → has_app w a) → emits w (notifyTaskComplete app tid).
Proof.
  intros Ha. destruct app as [a|]; [|apply emits_ret]. destruct (Ha a eq_refl) as [o Ho].
  apply emits_bind; [by eapply emits_get_app|]. intros o' l _.
  apply emits_bind; [apply emits_dispatch|]. intros _ l' _.
  destruct (bool_decide _); [apply emits_dispatch|apply emits_ret].
Qed.

Lemma kcache_notifyTaskComplete app tid : preserves keeps_cache (notifyTaskComplete app tid).
Proof. unfold notifyTaskComplete. preserves_tac ltac:(solve [auto with kcache]). Qed.

Lemma applications_has_app w id a : world_ok w → w_applications w !! id = Some a → has_app w a.
Proof. intros Hw Hid. destruct (wo_ids w Hw id a Hid) as (app & Ha & _). by exists app. Qed.

Lemma safe_updateYuniKornPod w appID old pod :
  world_ok w → pod_acceptable w pod →
  safe w (Ctx.updateYuniKornPod conf appID old pod) (λ _ w', cache_from w (Some pod) w').
Proof.
  intros Hw [Hv Htags]. unfold Ctx.updateYuniKornPod. cbv zeta.
  eapply safe_run; [done|reflexivity|]. set (app := w_applications w !! appID).
  assert (Happ : ∀ a, app = Some a → has_app w a) by (intros a Ha; by eapply applications_has_app).
  eapply (safe_bind _ _ _ (λ _ w', w_cache w' = w_cache w)).
  { destruct app as [a|]; [|by apply safe_ret]. destruct (Happ a eq_refl) as [o Ho].
    eapply safe_run; [by apply run_get_app|reflexivity|].
    destruct (a_taskMap o !! pod_UID pod) as [t|] eqn:Ht; [|by apply safe_ret].
    apply safe_SetTaskPod; [done| |done].
    destruct (ao_tasks _ _ _ (wo_app w Hw a o Ho) _ _ Ht) as (ot & Hot & _). by exists ot. }
  intros [] w1 Hw1 Hg1 Hc1. rewrite <- Hc1 in Hv.
  assert (Happ1 : ∀ a, app = Some a → has_app w1 a) by (intros a Ha; eapply grows_has_app; eauto).
  destruct (IsPodTerminated pod).
  { eapply safe_bind.
    { apply safe_keeps; [by apply emits_safe, emits_notifyTaskComplete|apply kcache_notifyTaskComplete]. }
    intros [] w2 Hw2 _ [_ Hc2]. unfold keeps_cache in Hc2. rewrite Hc2 in Hv.
    eapply safe_weaken; [by apply safe_removePod|]. intros [] w3 _ _ [_ Hf].
    unfold cache_from. rewrite <- Hc1, Hc2. by apply pods_from_more. }
  eapply (safe_bind _ _ _ (λ _ w', w_cache w' = w_cache w1)).
  { destruct (_ && _); [|by apply safe_ret]. eexists _, _.
    split_and!; [apply run_record|by apply world_ok_traced|apply grows_traced|done]. }
  intros [] w2 Hw2 Hg2 Hc2. rewrite <- Hc2 in Hv.
  eapply safe_bind; [by apply safe_updatePod|]. intros b w3 Hw3 Hg3 (_ & [_ Hf] & _).
  assert (Hf' : cache_from w (Some pod) w3) by (unfold cache_from; by rewrite <- Hc1, <- Hc2).
  destruct (b && _); [|by apply safe_ret].
  eapply safe_weaken; [apply safe_ensure; [done|done|]|].
  - intros a Ha. eapply grows_has_app; [exact Hg3|]. eapply grows_has_app; [exact Hg2|]. auto.
  - intros [] w4 _ _ Hc4. unfold cache_from. by rewrite Hc4.
Qed.

Lemma foreign_allocation pod : tags_ok pod → is_Some (CreateAllocationForForeignPod pod).
Proof. intros [tags Ht]. unfold CreateAllocationForForeignPod. rewrite Ht. eauto. Qed.

Lemma safe_call w e : world_ok w → safe w (call e) (λ _ w', w_cache w' = w_cache w).
Proof.
  intros Hw. eexists _, _. split_and!; [apply run_call|by apply world_ok_traced|apply grows_traced|done].
Qed.

Lemma safe_updateForeignPod w old pod :
  world_ok w → pod_acceptable w pod →
  safe w (Ctx.updateForeignPod old pod) (λ _ w', cache_from w (Some pod) w').
Proof.
  intros Hw [Hv Htags]. unfold Ctx.updateForeignPod. destruct (IsAssignedPod pod && _).
  - eapply safe_bind; [by apply safe_updatePod|]. intros b w1 Hw1 Hg1 (_ & [_ Hf] & _).
    destruct b; [|by apply safe_ret].
    destruct (match old with None => true | Some _ => _ end); [|by apply safe_ret].
    destruct (foreign_allocation pod Htags) as [req ->]. cbn [must].
    eapply safe_run; [done|reflexivity|]. eapply safe_bind; [by apply safe_call|].
    intros r w2 Hw2 _ Hc2. apply safe_ret; [done|]. unfold cache_from. by rewrite Hc2.
  - assert (Hdone : safe w (mret tt) (λ _ w', cache_from w (Some pod) w'))
      by (apply safe_ret; [done|apply pods_from_refl]).
    destruct (_ && _); [|done]. eapply safe_run; [done|reflexivity|].
    destruct (negb _); [|done].
    eapply safe_bind; [by apply safe_removePod|]. intros [] w1 Hw1 Hg1 [_ Hf].
    eapply safe_bind; [by apply safe_call|]. intros r w2 Hw2 _ Hc2. apply safe_ret; [done|].
    unfold cache_from. rewrite Hc2. by apply pods_from_more.
Qed.

Lemma safe_UpdatePod w oldObj newObj :
  world_ok w → (∀ pod, Convert2Pod newObj = Some pod → pod_acceptable w pod) →
  safe w (Ctx.UpdatePod conf oldObj newObj) (λ _ w', cache_from w (Convert2Pod newObj) w').
Proof.
  intros Hw Hacc. unfold Ctx.UpdatePod.
  destruct (Convert2Pod newObj) as [pod|]; [|apply safe_ret; [done|apply pods_from_refl]].
  specialize (Hacc pod eq_refl). eapply safe_run; [done|reflexivity|]. cbv zeta.
  destruct (match oldObj with None => _ | Some _ => _ end) as [oldPod|];
    [|apply safe_ret; [done|apply pods_from_refl]].
  destruct (bool_decide _); [by apply safe_updateForeignPod|by apply safe_updateYuniKornPod].
Qed.

(** The pod of a deletion, also of a missed one. *)
Definition deleted_pod (obj : InformerObject) : option Pod :=
  match obj with ObjPod p | ObjTombstone (ObjPod p) => Some p | _ => None end.

Lemma safe_DeletePod w obj :
  world_ok w → (∀ pod, deleted_pod obj = Some pod → pod_valid (w_cache w) pod) →
  safe w (Ctx.DeletePod conf obj) (λ _ w', cache_from w None w').
Proof.
  intros Hw Hv. unfold Ctx.DeletePod. fold (deleted_pod obj). cbv zeta.
  destruct (deleted_pod obj) as [pod|]; [|apply safe_ret; [done|apply pods_from_refl]]. specialize (Hv pod eq_refl).
  destruct (bool_decide _).
  - eapply safe_bind; [by apply safe_call|]. intros r w1 Hw1 _ Hc1. rewrite <- Hc1 in Hv.
    eapply safe_weaken; [by apply safe_removePod|].
    intros [] w2 _ _ [_ Hf]. unfold cache_from. by rewrite <- Hc1.
  - eapply (safe_bind _ _ _ (λ _ w', keeps_cache w w')).
    { destruct (getTaskMetadata conf pod) as [meta|]; [|by apply safe_ret].
      eapply safe_run; [done|reflexivity|].
      eapply safe_weaken; [apply safe_keeps; [apply emits_safe, emits_notifyTaskComplete|
        apply kcache_notifyTaskComplete]|].
      - done.
      - intros a Ha. by eapply applications_has_app.
      - by intros [] w' _ _ [_ ?]. }
    intros [] w1 Hw1 _ Hc1. unfold keeps_cache in Hc1. rewrite Hc1 in Hv.
    eapply safe_weaken; [by apply safe_removePod|].
    intros [] w2 _ _ [_ Hf]. unfold cache_from. by rewrite Hc1.
Qed.

(** ** Nodes *)

Context `{CL : !CoreLaws}.

Lemma nodeAnswer_pending answers pending acc rej k :
  (foldl Ctx.nodeAnswer (pending, acc, rej) answers).1.1 !! k =
  if bool_decide (k ∈ answers.*1) then None else pending !! k.
Proof.
  revert pending acc rej. induction answers as [|[id ev] answers IH]; intros pending acc rej; [done|].
  cbn [foldl Ctx.nodeAnswer fst snd fmap list_fmap].
  destruct (pending !! id) as [node|] eqn:Hid.
  - assert (Hd : delete id pending !! k = if bool_decide (k = id) then None else pending !! k).
    { destruct (decide (k = id)) as [->|Hne].
      - by rewrite lookup_delete_eq, bool_decide_eq_true_2.
      - by rewrite lookup_delete_ne, bool_decide_eq_false_2. }
    destruct ev; rewrite IH, Hd; repeat case_bool_decide; set_solver.
  - rewrite IH. destruct (decide (k = id)) as [->|Hne].
    + rewrite Hid. by repeat case_bool_decide.
    + repeat case_bool_decide; set_solver.
Qed.

(** A registration waits for nothing but the nodes of its request. *)
Lemma pending_registered (nodes : list Node) (m : gmap string Node) k node :
  foldl (λ m node, <[node_Name node := node]> m) m nodes !! k = Some node →
  m !! k = Some node ∨ k ∈ sn_NodeID <$> map Ctx.registration nodes.
Proof.
  revert m. induction nodes as [|n nodes IH]; intros m; cbn [foldl map]; [by left|].
  intros [Hk|Hk]%IH; [|right; by right].
  apply lookup_insert_Some in Hk as [[<- _]|[_ Hk]]; [|by left]. right. left.
Qed.

Lemma emits_registerNodes w nodes : emits w (Ctx.registerNodes nodes).
Proof.
  unfold Ctx.registerNodes. cbv zeta. apply emits_bind.
  - unfold Ctx.registerNodesInternal.
    set (req := mkNodeRequest (map Ctx.registration nodes)).
    apply emits_bind; [apply emits_ask|]. intros answers l E. unfold ask in E. injection E as <- _.
    apply emits_bind; [apply emits_call|]. intros [e|] l' _; [apply emits_ret|].
    destruct (foldl Ctx.nodeAnswer _ _) as [[pending acc] rej] eqn:Ef.
    rewrite bool_decide_eq_true_2; [apply emits_ret|]. apply map_eq. intros k.
    rewrite lookup_empty.
    pose proof (f_equal (λ r, r.1.1 !! k) Ef) as Hp. cbn [fst] in Hp. rewrite <- Hp.
    rewrite nodeAnswer_pending. case_bool_decide as Hk; [done|].
    destruct (foldl _ ∅ nodes !! k) as [node|] eqn:Hn; [|done]. exfalso.
    apply pending_registered in Hn as [Hn|(r & -> & Hr)%list_elem_of_fmap]; [done|].
    by apply Hk, core_answers.
  - intros [[acc rej]|e] l _; [|apply emits_ret].
    apply emits_bind; [apply emits_for_each; intros; apply emits_emit|]. intros _ l1 _.
    apply emits_bind; [apply emits_for_each; intros; apply emits_emit|]. intros. apply emits_ret.
Qed.

Lemma emits_registerNode w node : emits w (Ctx.registerNode node).
Proof.
  unfold Ctx.registerNode. apply emits_bind; [apply emits_registerNodes|].
  intros [acc|e] l _; [destruct (bool_decide _)|]; apply emits_ret.
Qed.

Lemma kcache_for_each_record (l : list Node) x y :
  preserves keeps_cache (for_each l (λ node, Ctx.record_node node x y)).
Proof. apply preserves_for_each; [apply _|]. intros. unfold Ctx.record_node. auto with kcache. Qed.

Lemma kcache_registerNodes nodes : preserves keeps_cache (Ctx.registerNodes nodes).
Proof.
  unfold Ctx.registerNodes, Ctx.registerNodesInternal.
  preserves_tac ltac:(first [apply kcache_for_each_record | solve [auto with kcache]]).
  all: try by intros ? ? ?.
Qed.

Lemma kcache_registerNode node : preserves keeps_cache (Ctx.registerNode node).
Proof.
  unfold Ctx.registerNode. preserves_tac ltac:(apply kcache_registerNodes).
Qed.

Lemma safe_cache_updateNode w node :
  world_ok w →
  safe w (on_cache_with (Ctx.cache_updateNode node)) (λ r w',
    w' = with_cache w (w_cache w') ∧ podsMap (w_cache w') = podsMap (w_cache w) ∧
    ∀ p, p ∈ r.2 → podsMap (w_cache w) !! pod_UID p = Some p).
Proof.
  intros Hw. pose proof (wo_cache w Hw) as Hwf.
  assert (Hgen : ∀ c' prev adopted, updateNode node (w_cache w) = Some (c', prev, adopted) →
    wf c' → abs c' = spec_updateNode node (abs (w_cache w)) →
    (∀ p, p ∈ adopted → podsMap (w_cache w) !! pod_UID p = Some p) →
    safe w (on_cache_with (Ctx.cache_updateNode node)) (λ r w',
      w' = with_cache w (w_cache w') ∧ podsMap (w_cache w') = podsMap (w_cache w) ∧
      ∀ p, p ∈ r.2 → podsMap (w_cache w) !! pod_UID p = Some p)).
  { intros c' prev adopted E Hwf' Habs Had.
    assert (HP : podsMap c' = podsMap (w_cache w)) by (by rewrite (abs_pods _ _ Habs)).
    exists (prev, adopted), (with_cache w c'). split_and!; [|..|done|done|done].
    - unfold on_cache_with, Ctx.cache_updateNode. by rewrite E.
    - apply world_ok_with_cache; [done..|]. rewrite HP. apply (wo_pods w Hw).
    - apply grows_with_cache. }
  destruct (nodesMap (w_cache w) !! node_Name node) as [ni|] eqn:Hn.
  - destruct (updateNode_known (w_cache w) node ni Hwf Hn) as (c' & E & Hwf' & Habs).
    eapply Hgen; [exact E|done|done|]. set_solver.
  - destruct (updateNode_new (w_cache w) node Hwf Hn) as (c' & E & Hwf' & Habs).
    eapply Hgen; [exact E|done|done|]. destruct Hwf as [Hg _].
    intros p [Ho _]%elem_of_adopted; [|done].
    rewrite (wf_orphaned _ _ _ _ _ _ _ _ _ Hg) in Ho.
    destruct (podsMap (w_cache w) !! pod_UID p) as [q|]; [|done]. simpl in Ho. unfold orphan_of in Ho.
    case_decide; [|done]. by injection Ho as ->.
Qed.

Lemma safe_cache_removeNode w node :
  world_ok w → safe w (on_cache_with (Ctx.cache_removeNode node)) (λ _ w', cache_from w None w').
Proof.
  intros Hw. pose proof (wo_cache w Hw) as Hwf.
  destruct (nodesMap (w_cache w) !! node_Name node) as [ni|] eqn:Hn.
  - destruct (removeNode_refines (w_cache w) node ni Hwf Hn) as (c' & E & Hwf' & Habs).
    eexists _, (with_cache w c').
    assert (Hf : pods_from None (podsMap (w_cache w)) (podsMap c'))
      by (rewrite (abs_pods _ _ Habs); apply (spec_removeNode_from node (abs (w_cache w)))).
    split_and!; [by unfold on_cache_with, Ctx.cache_removeNode; rewrite E| |apply grows_with_cache|done].
    apply world_ok_with_cache; [done..|]. by eapply pods_from_tags; [|apply (wo_pods w Hw)|].
  - eexists _, (with_cache w (w_cache w)). unfold on_cache_with, Ctx.cache_removeNode.
    rewrite removeNode_absent by done.
    split_and!; [done| |apply grows_with_cache|apply pods_from_refl].
    apply world_ok_with_cache; [done..|apply (wo_pods w Hw)].
Qed.

End Context.
