(* ===== verification/SafetyThms.v ===== *)
(** * The shim never panics

    Every handler of the shim, called in a well-formed world with what its
    callers may pass, returns in a well-formed world; so no sequence of informer
    events, core callbacks, dispatched events, scheduling rounds and bindings
    makes the shim panic. *)

From S2P Require Import Prelude.
From S2P Require Import GoStrings.
From S2P Require Import K8sApi.
From S2P Require Import K8sInstances.
From S2P Require Import Constants.
From S2P Require Import Resource.
From S2P Require Import PodUtils.
From S2P Require Import SiHelper.
From S2P Require Import TaskGroups.
From S2P Require Import SchedulerCache.
From S2P Require Import SchedulerCacheInv.
From S2P Require Import SchedulerCacheOps.
From S2P Require Import SchedulerCacheNodes.
From S2P Require Import SchedulerCacheThms.
From S2P Require Import World.
From S2P Require Import Logic.
From S2P Require Import Fsm.
From S2P Require Import ContextPods.
From S2P Require Import Task.
From S2P Require Import Application.
From S2P Require Import ShimContext.
From S2P Require Import Examples.
From S2P Require Import TaskThms.
From S2P Require Import ApplicationThms.
From S2P Require Import GangThms.
From S2P Require Import ScheduleThms.
From S2P Require Import DeferThms.
From S2P Require Import BindThms.
From S2P Require Import Safety.
From S2P Require Import SafetyTasks.
From S2P Require Import SafetyCache.
From S2P Require Import SafetyContext.

Section Handlers.
Context `{SC : SiConstants} `{QO : QuantityOps} `{NIO : NodeInfoOps} `{NIL : !NodeInfoLaws}.
Context `{MO : MapOrder} `{TT : TerminationTypes} `{PH : PodHelpers} `{JO : JsonOps}.
Context `{TG : TaskGroupJson} `{EV : Env} `{VL : !VolumeBinderLaws} `{CL : !CoreLaws}.
Context `{FE : FsmEngine} `{FL : !FsmLaws} `{RE : RetryEngine} `{RL : !RetryLaws} (conf : ShimConf).

Local Abbreviation anything := (λ _ _, True).

(** ** Nodes *)

Lemma safe_adopt w pod :
  world_ok w → pod_acceptable w pod →
  safe w (Ctx.adoptPod conf pod) (λ _ w', cache_from w (Some pod) w').
Proof.
  intros Hw Hp. unfold Ctx.adoptPod. cbv zeta.
  destruct (bool_decide _); [by apply safe_updateForeignPod|by apply safe_updateYuniKornPod].
Qed.

(** Adopting pods of the cache brings no other pods into it. *)
Lemma safe_adopt_all pods w0 w :
  world_ok w0 → world_ok w → cache_from w0 None w →
  Forall (λ p, podsMap (w_cache w0) !! pod_UID p = Some p) pods →
  safe w (for_each pods (Ctx.adoptPod conf)) (λ _ w', cache_from w0 None w').
Proof.
  intros Hw0. revert w. induction pods as [|p pods IH]; intros w Hw Hf Hin; [by apply safe_ret|].
  cbn [for_each]. apply Forall_cons in Hin as [Hp Hin].
  eapply safe_bind.
  { apply safe_adopt; [done|]. split; [|by eapply (wo_pods w0 Hw0)].
    eapply pods_from_valid; [exact Hf| |done]. eapply cached_pod_valid; [apply (wo_cache w0 Hw0)|done]. }
  intros [] w1 Hw1 _ Hf1. apply IH; [done| |done].
  eapply pods_from_known; [exact Hp|apply variant_refl|]. by eapply pods_from_trans.
Qed.

Lemma cache_from_eq w w1 w2 e : w_cache w1 = w_cache w2 → cache_from w e w1 → cache_from w e w2.
Proof. unfold cache_from. by intros ->. Qed.

Lemma safe_updateNodeInternal w node register :
  world_ok w →
  safe w (Ctx.updateNodeInternal conf node register) (λ _ w', cache_from w None w').
Proof.
  intros Hw. unfold Ctx.updateNodeInternal.
  eapply safe_bind; [by apply safe_cache_updateNode|].
  intros [prev adopted] w1 Hw1 _ (_ & HP & Had). cbn [snd] in Had.
  assert (H01 : cache_from w None w1) by (unfold cache_from; rewrite HP; apply pods_from_refl).
  destruct prev as [prevNode|].
  { eapply (safe_bind _ _ _ (λ _ w', w_cache w' = w_cache w1)).
    - destruct (negb _); [|by apply safe_ret].
      eapply safe_bind; [by apply safe_call|]. intros. by apply safe_ret.
    - intros [] w2 Hw2 _ Hc2. eapply (safe_bind _ _ _ (λ _ w', w_cache w' = w_cache w2)).
      + unfold Ctx.updateNodeSchedulability. destruct (bool_decide _); [by apply safe_ret|].
        by apply safe_call.
      + intros r w3 Hw3 _ Hc3. apply safe_ret; [done|]. eapply cache_from_eq; [|exact H01]. congruence. }
  eapply (safe_bind _ _ _ (λ _ w', keeps_cache w1 w')).
  { destruct register; [|by apply safe_ret].
    eapply safe_weaken; [apply safe_keeps; [by apply emits_safe, emits_registerNode|
      apply kcache_registerNode]|]. by intros ? ? _ _ [_ ?]. }
  intros err w2 Hw2 _ Hc2. pose proof (cache_from_eq _ _ _ _ Hc2 H01) as H02.
  destruct err as [err|].
  { eapply safe_bind; [by apply safe_cache_removeNode|]. intros ? w3 Hw3 _ Hf3.
    apply safe_ret; [done|]. eapply pods_from_trans; [exact H02|exact Hf3]. }
  eapply safe_bind; [apply (safe_adopt_all adopted w w2); try done; by apply Forall_forall|].
  intros [] w3 Hw3 _ Hf3. destruct (negb _); [|by apply safe_ret].
  eapply safe_bind; [by apply safe_call|]. intros r w4 Hw4 _ Hc4.
  apply safe_ret; [done|]. eapply cache_from_eq; [symmetry; exact Hc4|exact Hf3].
Qed.

Lemma safe_deleteNodeInternal w node :
  world_ok w → safe w (Ctx.deleteNodeInternal node) (λ _ w', cache_from w None w').
Proof.
  intros Hw. unfold Ctx.deleteNodeInternal. eapply safe_bind; [by apply safe_cache_removeNode|].
  intros [[prev|] orphans] w1 Hw1 _ Hf1; [|by apply safe_ret].
  eapply safe_weaken; [apply (safe_keeps _ _ (λ _ _, True) keeps_cache)|].
  - apply emits_safe; [done|]. apply emits_bind; [apply emits_emit|]. intros _ l _.
    apply emits_bind; [apply emits_call|]. intros. apply emits_ret.
  - unfold Ctx.record_node, Ctx.decommissionNode. preserves_tac ltac:(solve [auto with kcache]).
  - intros [] w2 _ _ [_ Hc]. by eapply cache_from_eq.
Qed.

(** ** Forgotten pods keep their tags *)

Lemma forgetKey_tags w c' key k p :
  world_ok w → abs c' = spec_forgetKey key (abs (w_cache w)) →
  podsMap c' !! k = Some p → tags_ok p.
Proof.
  intros Hw Habs Hk. apply (f_equal a_pods) in Habs. cbn [abs a_pods] in Habs. rewrite Habs in Hk.
  unfold spec_forgetKey in Hk. cbn [abs a_pods] in Hk.
  destruct (podsMap (w_cache w) !! key) as [q|] eqn:Hq; [|by eapply (wo_pods w Hw)].
  destruct (wf_pod _ _ _ _ _ _ _ _ _ (proj1 (wo_cache w Hw)) _ _ Hq) as (Hu & _ & _).
  eapply (pods_from_tags None); [|apply (wo_pods w Hw)|done|exact Hk].
  apply (spec_forgetPod_from q (abs (w_cache w))). cbn [abs a_pods]. by rewrite Hu.
Qed.

(** ** Priority classes *)

Lemma cache_from_pods w w' : podsMap (w_cache w') = podsMap (w_cache w) → cache_from w None w'.
Proof. unfold cache_from. intros ->. apply pods_from_refl. Qed.

Lemma safe_on_pcs w f :
  world_ok w →
  safe w (on_cache (λ c, Some (set_pcMap f c))) (λ _ w', podsMap (w_cache w') = podsMap (w_cache w)).
Proof.
  intros Hw. exists tt, (with_cache w (set_pcMap f (w_cache w))).
  split_and!; [done| |apply grows_with_cache|done].
  apply world_ok_with_cache; [done|apply (wo_cache w Hw)|apply (wo_pods w Hw)].
Qed.

Lemma safe_updatePriorityClassInternal w pc :
  world_ok w →
  safe w (Ctx.updatePriorityClassInternal pc) (λ _ w', podsMap (w_cache w') = podsMap (w_cache w)).
Proof. apply safe_on_pcs. Qed.

Lemma safe_deletePriorityClass w obj :
  world_ok w →
  safe w (Ctx.deletePriorityClass obj) (λ _ w', podsMap (w_cache w') = podsMap (w_cache w)).
Proof.
  intros Hw. unfold Ctx.deletePriorityClass. cbv zeta.
  destruct obj; try by apply safe_ret. all: simpl; by apply safe_ret || by apply safe_on_pcs.
Qed.

(** ** The core *)

Lemma getTask_ok w appID taskID :
  world_ok w → ∃ r, getTask appID taskID w = Some (r, w) ∧ ∀ t, r = Some t → has_task w t.
Proof.
  intros Hw. unfold getTask. rewrite run_bind. unfold getApplication. rewrite run_bind.
  cbn [get_world]. rewrite run_ret.
  destruct (w_applications w !! appID) as [a|] eqn:Hid; [|by exists None].
  destruct (applications_has_app w appID a Hw Hid) as [app Ha]. run.
  exists (a_taskMap app !! taskID). split; [done|]. intros t Ht.
  destruct (ao_tasks _ _ _ (wo_app w Hw a app Ha) _ _ Ht) as (o & Ho & _). by exists o.
Qed.

Lemma safe_PublishEvent w r : world_ok w → safe w (Ctx.PublishEvent r) anything.
Proof.
  intros Hw. unfold Ctx.PublishEvent. apply emits_safe; [done|]. destruct (er_Type r).
  - destruct (getTask_ok w (er_ReferenceID r) (er_ObjectID r) Hw) as (found & E & Hf).
    apply emits_bind; [exists found, []; by rewrite traced_nil|]. intros found' l E'.
    rewrite E in E'. injection E' as <- _. destruct found as [t|]; [|apply emits_ret].
    destruct (Hf t eq_refl) as [o Ho]. apply emits_bind; [by eapply emits_get_task|].
    intros. apply emits_record.
  - destruct (negb _); [apply emits_ret|].
    apply emits_bind; [exists w, []; by rewrite traced_nil|]. intros w' l _.
    destruct (GetNode _ _) as [ni|]; [|apply emits_ret].
    destruct (ni_node ni); [apply emits_emit|apply emits_ret].
  - apply emits_ret.
Qed.

Lemma safe_PublishEvents rs w : world_ok w → safe w (Ctx.PublishEvents rs) anything.
Proof.
  revert w. induction rs as [|r rs IH]; intros w Hw; [by apply safe_ret|].
  unfold Ctx.PublishEvents. cbn [for_each].
  eapply safe_bind; [by apply safe_PublishEvent|]. intros [] w1 Hw1 _ _. by apply IH.
Qed.

Lemma safe_updatePodCondition w t c :
  world_ok w → has_task w t → safe w (Ctx.updatePodCondition t c) anything.
Proof.
  intros Hw Ht. pose proof Ht as [o Ho]. unfold Ctx.updatePodCondition.
  eapply safe_run; [by apply run_get_task|reflexivity|].
  destruct (bool_decide _); [|by apply safe_ret].
  eapply (safe_bind _ _ _ anything).
  - unfold UpdatePodCondition. eapply safe_run; [by apply run_get_task|reflexivity|]. cbv zeta.
    destruct (negb _); [|by apply safe_ret].
    destruct (podutil_UpdatePodCondition _ _) as [st changed].
    eapply safe_bind.
    + eexists _, _. split_and!; [apply run_put_task| |by eapply grows_with_task|instantiate (1 := anything); done].
      eapply world_ok_with_task; [done..|]. simpl. by apply (wo_task w Hw t o).
    + intros [] w1 Hw1 _ _. destruct changed; by apply safe_ret.
  - intros [ok podCopy] w1 Hw1 _ _. destruct ok; [|by apply safe_ret].
    eapply safe_bind; [by apply safe_call|]. intros. by apply safe_ret.
Qed.

Lemma safe_HandleContainerStateUpdate w req :
  world_ok w → safe w (Ctx.HandleContainerStateUpdate req) anything.
Proof.
  intros Hw. unfold Ctx.HandleContainerStateUpdate.
  destruct (getTask_ok w (ucs_ApplicationID req) (ucs_AllocationKey req) Hw) as (found & E & Hf).
  eapply safe_run; [exact E|reflexivity|]. destruct found as [t|]; [|by apply safe_ret].
  specialize (Hf t eq_refl). cbv zeta.
  assert (Hupd : ∀ st reason, safe w (SetTaskSchedulingState t st;;
    updated ← Ctx.updatePodCondition t (mkPodCondition PodScheduled ConditionFalse reason (ucs_Reason req));
    if (updated : bool) then
      task ← get_task t; record (t_pod task) EventTypeNormal "PodUnschedulable" "PodUnschedulable"
    else mret tt) anything).
  { intros st reason. eapply safe_bind; [by apply safe_upd_task|]. intros [] w1 Hw1 Hg1 _.
    pose proof (grows_has_task _ _ _ Hg1 Hf) as Hf1.
    eapply safe_bind; [by apply safe_updatePodCondition|]. intros b w2 Hw2 Hg2 _.
    destruct b; [|by apply safe_ret]. destruct (grows_has_task _ _ _ Hg2 Hf1) as [o2 Ho2].
    apply emits_safe; [done|]. apply emits_bind; [by eapply emits_get_task|]. intros. apply emits_record. }
  destruct (ucs_State req); [apply Hupd..|by apply safe_ret].
Qed.

(** ** Dispatched events *)

Lemma safe_handle_event w ev :
  world_ok w → (∀ id e, ev = DApp id e → app_event_ok e) → safe w (Ctx.handle_event conf ev) anything.
Proof.
  intros Hw Hok. destruct ev as [appID taskID e|appID e|nodeID e]; cbn [Ctx.handle_event]; [| |by apply safe_ret].
  - unfold Ctx.TaskEventHandler. destruct (getTask_ok w appID taskID Hw) as (found & E & Hf).
    eapply safe_run; [exact E|reflexivity|]. destruct found as [t|]; [|by apply safe_ret].
    destruct (Hf t eq_refl) as [o Ho]. unfold task_canHandle.
    eapply safe_run; [by rewrite run_bind, (run_get_task _ _ _ Ho), run_ret|reflexivity|].
    destruct (fsm_Can _ _ _); [|by apply safe_ret].
    eapply safe_bind; [apply safe_task_handle; [done|by exists o]|]. intros. by apply safe_ret.
  - unfold Ctx.ApplicationEventHandler, getApplication. eapply safe_run; [done|reflexivity|].
    destruct (w_applications w !! appID) as [a|] eqn:Hid; [|by apply safe_ret].
    pose proof (applications_has_app w appID a Hw Hid) as Ha. pose proof Ha as [app Happ].
    unfold app_canHandle.
    eapply safe_run; [by rewrite run_bind, (run_get_app _ _ _ Happ), run_ret|reflexivity|].
    destruct (fsm_Can _ _ _); [|by apply safe_ret].
    eapply safe_bind; [apply safe_app_handle; eauto|]. intros. by apply safe_ret.
Qed.

(** ** Assuming, forgetting and binding *)

Lemma safe_ForgetPod w key : world_ok w → safe w (ForgetPod key) anything.
Proof.
  intros Hw. destruct (run_ForgetPod key w (wo_cache w Hw)) as (c' & E & Hwf & Habs).
  exists tt, (with_cache w c'). split_and!; [done| |apply grows_with_cache|done].
  apply world_ok_with_cache; [done..|]. intros k p Hk.
  by eapply forgetKey_tags.
Qed.

Lemma safe_assumePod w pod node allBound :
  world_ok w → podsMap (w_cache w) !! pod_UID pod = Some pod →
  safe w (on_cache (assumePod (pod_with_NodeName pod node) allBound)) anything.
Proof.
  intros Hw Hp. set (pod' := pod_with_NodeName pod node).
  destruct (wf_pod _ _ _ _ _ _ _ _ _ (proj1 (wo_cache w Hw)) _ _ Hp) as (_ & Hne & Hterm).
  assert (Hv : pod_valid (w_cache w) pod').
  { split; [done|]. intros cur Hcur. change (pod_UID pod') with (pod_UID pod) in Hcur.
    rewrite Hp in Hcur. by injection Hcur as <-. }
  destruct (assumePod_refines (w_cache w) pod' allBound (wo_cache w Hw) Hv Hterm)
    as (c' & E & Hwf & Habs).
  eapply safe_weaken; [apply (safe_cache_result w _ tt c' (Some pod')); try done|done].
  - unfold on_cache. by rewrite E.
  - apply (f_equal a_pods) in Habs. cbn [abs a_pods] in Habs. rewrite Habs.
    unfold spec_assumePod. destruct (spec_updatePod pod' (abs (w_cache w))) as [a b] eqn:Es.
    pose proof (spec_updatePod_from pod' (abs (w_cache w))) as Hf. by rewrite Es in Hf.
  - intros p [= <-]. apply (wo_pods w Hw _ _ Hp).
Qed.

Lemma safe_AssumePod w name node : world_ok w → safe w (AssumePod name node) anything.
Proof.
  intros Hw. unfold AssumePod. eapply safe_run; [done|reflexivity|].
  destruct (GetPod (w_cache w) name) as [pod|] eqn:Hpod; [|by apply safe_ret].
  destruct (GetNode (w_cache w) node) as [target|] eqn:Hnode; [|by apply safe_ret].
  eapply safe_run; [done|reflexivity|]. destruct (vb_GetPodVolumeClaims _ _) as [claims|]; [|by apply safe_ret].
  eapply safe_run; [done|reflexivity|].
  destruct (vb_FindPodVolumes _ _ _ _) as [[volumes reasons]|]; [|by apply safe_ret].
  destruct (bool_decide _); [by apply safe_ret|].
  eapply safe_run; [done|reflexivity|].
  eapply (safe_bind _ _ _ (λ _ w', w_cache w' = w_cache w)).
  { eexists _, _. split_and!; [apply run_emit|by apply world_ok_traced|apply grows_traced|done]. }
  intros [] w1 Hw1 _ Hc1. destruct (vb_AssumePodVolumes _ _ _ _) as [allBound|]; [|by apply safe_ret].
  eapply safe_bind; [apply safe_assumePod; [done|]|intros; by apply safe_ret].
  unfold GetPod, GetPodNoLock in Hpod. rewrite Hc1.
  by destruct (wf_pod _ _ _ _ _ _ _ _ _ (proj1 (wo_cache w Hw)) _ _ Hpod) as (-> & _ & _).
Qed.

Lemma safe_bindTask w t pod alias node key :
  world_ok w → has_task w t → safe w (bindTask t pod alias node key) anything.
Proof.
  intros Hw [o Ho]. destruct (world_ok_task_app w t o Hw Ho) as [app Happ].
  destruct (bindTask_outcome t pod alias node key w o app Ho Happ (wo_cache w Hw))
    as (w' & attempts & E & _ & _ & Hout).
  exists tt, w'. split; [done|].
  assert (Hset : ∀ o', same_task o o' → t_pod o' = t_pod o →
    world_ok (with_task w t o') ∧ grows w (with_task w t o')).
  { intros o' Hs Hp. split; [|by eapply grows_with_task].
    eapply world_ok_with_task; [done..|]. rewrite Hp. apply (wo_task w Hw t o Ho). }
  destruct Hout as [(before & _ & _ & ->)|(reason & reverts & c' & -> & _ & _ & Hwf & Habs)].
  - destruct (Hset (t_set_schedulingState TaskSchedAllocated o)) as [Hok Hg]; [by destruct o..|].
    split_and!; [by apply world_ok_traced|etrans; [exact Hg|apply grows_traced]|done].
  - destruct (Hset (rescheduled o)) as [Hok Hg]; [by destruct o..|].
    split_and!; [|etrans; [exact Hg|etrans; [apply grows_traced|apply grows_with_cache]]|done].
    apply world_ok_with_cache; [by apply world_ok_traced|done|].
    intros k p Hk. by eapply forgetKey_tags.
Qed.

(** ** Start-up *)

(** The pods the API server lists, at any time: acceptable, and a UID is of one
    pod. *)
Definition listed (pod : Pod) : Prop := ∃ tr pods, pod_List tr = inl pods ∧ pod ∈ pods.

Record listing_ok (w : World) : Prop := {
  lo_acceptable p : listed p → pod_acceptable w p;
  lo_same p q : listed p → listed q → pod_UID p = pod_UID q → same_identity p q
}.

Lemma listing_stable w w' extra :
  listing_ok w → cache_from w extra w' → (∀ p, extra = Some p → listed p) → listing_ok w'.
Proof.
  intros [Ha Hs] Hf He. split; [|done]. intros p Hp. destruct (Ha p Hp) as [Hv Ht].
  split; [|done]. eapply pods_from_valid; [exact Hf|done|]. intros q Hq Hu.
  apply Hs; [done|by apply He|done].
Qed.

(** A loop over a list whose body needs and keeps the listing. *)
Lemma safe_for_each {A} (I : World → Prop) (S : A → Prop) (l : list A) (body : A → M unit) w :
  (∀ x w, S x → world_ok w → I w → safe w (body x) (λ _, I)) →
  world_ok w → I w → Forall S l → safe w (for_each l body) (λ _, I).
Proof.
  intros Hb. revert w. induction l as [|x l IH]; intros w Hw HI Hl; [by apply safe_ret|].
  apply Forall_cons in Hl as [Hx Hl]. cbn [for_each].
  eapply safe_bind; [by apply Hb|]. intros [] w1 Hw1 _ HI1. by apply IH.
Qed.

Lemma safe_registerPriorityClasses w :
  world_ok w → listing_ok w → safe w Ctx.registerPriorityClasses (λ _, listing_ok).
Proof.
  intros Hw HL. unfold Ctx.registerPriorityClasses. eapply safe_run; [done|reflexivity|].
  destruct (pc_List _) as [pcs|e]; [|by apply safe_ret].
  eapply (safe_bind _ _ _ (λ _, listing_ok)); [|intros [] ? ? _ ?; by apply safe_ret].
  apply (safe_for_each _ (λ _, True)); [|done..|by apply Forall_true].
  intros pc w1 _ Hw1 HL1. eapply safe_weaken; [by apply safe_updatePriorityClassInternal|].
  intros [] w2 _ _ HP. eapply (listing_stable _ _ None); [done| |done].
  by apply cache_from_pods.
Qed.

Lemma safe_finalizePriorityClasses w pcs :
  world_ok w → listing_ok w → safe w (Ctx.finalizePriorityClasses pcs) (λ _, listing_ok).
Proof.
  intros Hw HL. unfold Ctx.finalizePriorityClasses. eapply safe_run; [done|reflexivity|].
  destruct (pc_List _) as [now|e]; [|by apply safe_ret]. cbv zeta.
  eapply (safe_bind _ _ _ (λ _, listing_ok)); [|intros [] ? ? _ ?; by apply safe_ret].
  apply (safe_for_each _ (λ _, True)); [|done..|by apply Forall_true].
  intros pc w1 _ Hw1 HL1. destruct (_ !! _); [by apply safe_ret|].
  eapply safe_weaken; [by apply safe_deletePriorityClass|].
  intros [] w2 _ _ HP. eapply (listing_stable _ _ None); [done| |done].
  by apply cache_from_pods.
Qed.

Lemma safe_addNodesWithoutRegistering w nodes :
  world_ok w → listing_ok w →
  safe w (Ctx.addNodesWithoutRegistering conf nodes) (λ _, listing_ok).
Proof.
  intros Hw HL. apply (safe_for_each _ (λ _, True)); [|done..|by apply Forall_true].
  intros node w1 _ Hw1 HL1. eapply safe_weaken; [by apply safe_updateNodeInternal|].
  intros [] w2 _ _ Hf. by eapply (listing_stable _ _ None).
Qed.

Lemma safe_finalizeNodes w nodes :
  world_ok w → listing_ok w → safe w (Ctx.finalizeNodes nodes) (λ _, listing_ok).
Proof.
  intros Hw HL. unfold Ctx.finalizeNodes. eapply safe_run; [done|reflexivity|].
  destruct (node_List _) as [now|e]; [|by apply safe_ret]. cbv zeta.
  eapply (safe_bind _ _ _ (λ _, listing_ok)); [|intros [] ? ? _ ?; by apply safe_ret].
  apply (safe_for_each _ (λ _, True)); [|done..|by apply Forall_true].
  intros node w1 _ Hw1 HL1. destruct (bool_decide _); [by apply safe_ret|].
  eapply safe_weaken; [by apply safe_deleteNodeInternal|].
  intros [] w2 _ _ Hf. by eapply (listing_stable _ _ None).
Qed.

(** The pods registered at start-up are listed ones. *)
Definition listed_or_none (p : option Pod) : Prop := ∀ pod, p = Some pod → listed pod.

Lemma safe_registerPods w :
  world_ok w → listing_ok w →
  safe w (Ctx.registerPods conf) (λ r w', listing_ok w' ∧ ∀ l, r = inl l → Forall listed_or_none l).
Proof.
  intros Hw HL. unfold Ctx.registerPods. eapply safe_run; [done|reflexivity|].
  destruct (pod_List _) as [pods|e] eqn:Hpods; [|by apply safe_ret]. cbv zeta.
  set (l := map _ (merge_sort _ pods)).
  assert (Hl : Forall listed_or_none l).
  { apply Forall_forall. intros x (p & -> & Hp)%list_elem_of_fmap pod Hx.
    rewrite merge_sort_Permutation in Hp. destruct (IsPodTerminated p); [done|].
    injection Hx as <-. eexists _, _. eauto. }
  eapply (safe_bind _ _ _ (λ _, listing_ok)); [|intros [] w1 Hw1 _ HL1; apply safe_ret; [done|]].
  - apply (safe_for_each _ listed_or_none); [|done..].
    intros [pod|] w1 Hx Hw1 HL1; [|by apply safe_ret]. specialize (Hx pod eq_refl).
    eapply safe_weaken; [apply safe_UpdatePod; [done|]|].
    + intros q [= <-]. by apply HL1.
    + intros [] w2 _ _ Hf. eapply listing_stable; [done|exact Hf|]. by intros q [= <-].
  - split; [exact HL1|]. by intros l' [= <-].
Qed.

Lemma safe_finalizePods w pods :
  world_ok w → listing_ok w → Forall listed_or_none pods →
  safe w (Ctx.finalizePods conf pods) (λ _, listing_ok).
Proof.
  intros Hw HL Hl. unfold Ctx.finalizePods. eapply safe_run; [done|reflexivity|].
  destruct (pod_List _) as [now|e]; [|by apply safe_ret]. cbv zeta.
  eapply (safe_bind _ _ _ (λ _, listing_ok)); [|intros [] ? ? _ ?; by apply safe_ret].
  apply (safe_for_each _ listed_or_none); [|done..].
  intros [pod|] w1 Hx Hw1 HL1; [|by apply safe_ret]. specialize (Hx pod eq_refl).
  destruct (bool_decide _); [by apply safe_ret|].
  eapply safe_weaken; [apply safe_DeletePod; [done|]|].
  - intros q [= <-]. by apply HL1.
  - intros [] w2 _ _ Hf. by eapply (listing_stable _ _ None).
Qed.

Lemma safe_call_listing w e : world_ok w → listing_ok w → safe w (call e) (λ _, listing_ok).
Proof.
  intros Hw HL. eapply safe_weaken; [by apply safe_call|]. intros r w' _ _ Hc.
  eapply (listing_stable _ _ None); [done| |done]. apply cache_from_pods. by rewrite Hc.
Qed.

Lemma safe_InitializeState w :
  world_ok w → listing_ok w → safe w (Ctx.InitializeState conf) anything.
Proof.
  intros Hw HL. unfold Ctx.InitializeState, Ctx.unless_error, Ctx.unless_failed.
  eapply safe_bind; [by apply safe_registerPriorityClasses|]. intros [pcs|e] w1 Hw1 _ HL1; [|by apply safe_ret].
  eapply safe_run; [done|reflexivity|]. destruct (node_List _) as [nodes|e]; [|by apply safe_ret].
  eapply (safe_bind _ _ _ (λ _, listing_ok)).
  { eapply safe_weaken; [apply safe_keeps; [by apply emits_safe, emits_registerNodes|
      apply kcache_registerNodes]|]. intros ? w' _ _ [_ Hc]. unfold keeps_cache in Hc.
    eapply (listing_stable _ _ None); [done| |done]. apply cache_from_pods. by rewrite Hc. }
  intros [accepted|e] w2 Hw2 _ HL2; [|by apply safe_ret].
  eapply safe_bind; [by apply safe_addNodesWithoutRegistering|]. intros [] w3 Hw3 _ HL3.
  eapply safe_bind; [by apply safe_registerPods|].
  intros [pods|e] w4 Hw4 _ [HL4 Hpods]; [|by apply safe_ret].
  eapply safe_bind; [by apply safe_call_listing|]. intros [e|] w5 Hw5 _ HL5; [by apply safe_ret|].
  eapply safe_bind; [by apply safe_call_listing|]. intros [e|] w6 Hw6 _ HL6; [by apply safe_ret|].
  eapply safe_bind; [by apply safe_finalizePriorityClasses|].
  intros [e|] w7 Hw7 _ HL7; [by apply safe_ret|].
  eapply safe_bind; [by apply safe_finalizeNodes|]. intros [e|] w8 Hw8 _ HL8; [by apply safe_ret|].
  eapply safe_weaken; [by apply safe_finalizePods; auto|done].
Qed.

End Handlers.
