(* ===== verification/ShimSafety.v ===== *)
(** * No sequence of operations makes the shim panic

    The entry points of the shim: the informer handlers of pods, nodes and
    priority classes, the callbacks of the core, the events of the dispatcher,
    the iterations of the scheduling loop and the goroutines that bind pods, in
    any order. *)

From S2P Require Import Prelude.
From S2P Require Import GoStrings.
From S2P Require Import K8sApi.
From S2P Require Import K8sInstances.
From S2P Require Import Constants.
From S2P Require Import Resource.
From S2P Require Import PodUtils.
From S2P Require Import SiHelper.
From S2P Require Import TaskGroups.
From S2P Require Import SchedulerCache.
From S2P Require Import SchedulerCacheInv.
From S2P Require Import SchedulerCacheOps.
From S2P Require Import SchedulerCacheNodes.
From S2P Require Import SchedulerCacheThms.
From S2P Require Import World.
From S2P Require Import Logic.
From S2P Require Import Fsm.
From S2P Require Import ContextPods.
From S2P Require Import Task.
From S2P Require Import Application.
From S2P Require Import ShimContext.
From S2P Require Import SchedulerCallback.
From S2P Require Import Examples.
From S2P Require Import TaskThms.
From S2P Require Import ApplicationThms.
From S2P Require Import GangThms.
From S2P Require Import ScheduleThms.
From S2P Require Import DeferThms.
From S2P Require Import BindThms.
From S2P Require Import Safety.
From S2P Require Import SafetyTasks.
From S2P Require Import SafetyCache.
From S2P Require Import SafetyContext.
From S2P Require Import SafetyThms.

Section Callbacks.
Context `{SC : SiConstants} `{QO : QuantityOps} `{NIO : NodeInfoOps} `{NIL : !NodeInfoLaws}.
Context `{MO : MapOrder} `{TT : TerminationTypes} `{PH : PodHelpers} `{JO : JsonOps}.
Context `{TG : TaskGroupJson} `{EV : Env} `{VL : !VolumeBinderLaws} `{CL : !CoreLaws}.
Context `{FE : FsmEngine} `{FL : !FsmLaws} `{RE : RetryEngine} `{RL : !RetryLaws} (conf : ShimConf).

Local Abbreviation anything := (λ _ _, True).

(** ** Allocations *)

Lemma safe_retry_run n waits retriable (fn : M (option string)) w :
  (∀ w, world_ok w → safe w fn anything) → world_ok w →
  safe w (retry_run n waits retriable fn) anything.
Proof.
  intros Hfn. revert waits w. induction n as [|n IH]; intros waits w Hw; [by apply safe_ret|].
  cbn [retry_run]. eapply safe_bind; [by apply Hfn|]. intros [err|] w1 Hw1 _ _; [|by apply safe_ret].
  destruct (retriable err); [|by apply safe_ret].
  eapply (safe_bind _ _ _ anything).
  - apply emits_safe; [done|]. destruct waits; [apply emits_ret|apply emits_emit].
  - intros [] w2 Hw2 _ _. destruct n; [by apply safe_ret|by apply IH].
Qed.

Lemma safe_retry w b retriable (fn : M (option string)) :
  (∀ w, world_ok w → safe w fn anything) → world_ok w →
  safe w (retry_OnError b retriable fn) anything.
Proof.
  intros Hfn Hw. destruct (safe_retry_run
    (backoff_attempts (bo_Steps b) (bo_Duration b) (bo_Factor b) (bo_Cap b))
    (backoff_waits (bo_Steps b) (bo_Duration b) (bo_Factor b) (bo_Cap b)) retriable fn w Hfn Hw)
    as (r & w' & E & Hr). exists r, w'. split; [|done].
  by rewrite retry_OnError_spec.
Qed.

Lemma safe_rollbackAllocation w pod appID partition key node reason :
  world_ok w → safe w (rollbackAllocation pod appID partition key node reason) anything.
Proof.
  intros Hw. unfold rollbackAllocation.
  eapply safe_bind; [apply emits_safe; [done|apply emits_record]|]. intros [] w1 Hw1 _ _.
  eapply (safe_bind _ _ _ anything).
  { apply emits_safe; [done|].
    destruct (run_RevertPodVolumeAssumptions key node w1) as (l & E & _). by exists tt, l. }
  intros [] w2 Hw2 _ _. eapply safe_bind; [by apply safe_ForgetPod|]. intros [] w3 Hw3 _ _.
  eapply safe_bind; [by apply safe_call|]. intros. by apply safe_ret.
Qed.

Lemma safe_newAllocation w alloc : world_ok w → safe w (Callback.newAllocation alloc) anything.
Proof.
  intros Hw. unfold Callback.newAllocation.
  destruct (getTask_ok w (an_ApplicationID alloc) (an_AllocationKey alloc) Hw) as (found & E & Hf).
  eapply safe_run; [exact E|reflexivity|]. destruct found as [t|]; [|by apply safe_ret].
  specialize (Hf t eq_refl).
  eapply safe_bind; [by apply safe_upd_task|]. intros [] w1 Hw1 Hg1 _.
  eapply safe_bind; [apply safe_retry; [intros; by apply safe_AssumePod|done]|].
  intros err w2 Hw2 Hg2 _.
  pose proof (grows_has_task _ _ _ Hg2 (grows_has_task _ _ _ Hg1 Hf)) as Hf2. pose proof Hf2 as [o Ho].
  destruct err as [err|]; (eapply safe_run; [by apply run_get_task|reflexivity|]).
  - destruct (t_placeholder o); cbv zeta.
    + eapply safe_bind; [apply emits_safe; [done|]|intros; by apply safe_ret].
      unfold failWithEvent. apply emits_bind; [by eapply emits_get_task|]. intros task l _.
      apply emits_bind; [apply emits_record|]. intros. apply emits_dispatch.
    + eapply (safe_bind _ _ _ anything); [|intros; by apply safe_ret].
      unfold rollbackOnAssumePodFailure. eapply safe_run; [by apply run_get_task|reflexivity|].
      destruct (world_ok_task_app w2 t o Hw2 Ho) as [app Happ].
      eapply safe_run; [by apply run_get_app|reflexivity|].
      eapply (safe_bind _ _ _ anything).
      * eexists _, _. split_and!; [apply run_put_task| |by eapply grows_with_task|done].
        eapply world_ok_with_task; [done..|]. by apply (wo_task w2 Hw2 t o).
      * intros [] w3 Hw3 _ _. by apply safe_rollbackAllocation.
  - eapply (safe_bind _ _ _ anything); [|intros; by apply safe_ret].
    destruct (IsAssignedPod _); [|apply emits_safe; [done|apply emits_dispatch]].
    unfold MarkPreviouslyAllocated.
    eapply safe_bind; [by apply safe_upd_task|]. intros [] w3 Hw3 Hg3 _.
    eapply safe_bind; [apply safe_upd_task; [done|by eapply grows_has_task|done..]|].
    intros [] w4 Hw4 Hg4 _.
    destruct (grows_has_task _ _ _ Hg4 (grows_has_task _ _ _ Hg3 Hf2)) as [o4 Ho4].
    eapply safe_run; [by apply run_get_task|reflexivity|].
    apply emits_safe; [done|]. destruct (t_placeholder o4); [apply emits_dispatch|apply emits_ret].
Qed.

Lemma safe_for_each_return {A B} (l : list A) (body : A → M (option B)) w :
  (∀ x w, world_ok w → safe w (body x) anything) → world_ok w →
  safe w (for_each_return l body) anything.
Proof.
  intros Hb. revert w. induction l as [|x l IH]; intros w Hw; [by apply safe_ret|].
  cbn [for_each_return]. eapply safe_bind; [by apply Hb|].
  intros [b|] w1 Hw1 _ _; [by apply safe_ret|by apply IH].
Qed.

(** A loop whose body is safe in every well-formed world. *)
Lemma safe_loop {A} (l : list A) (body : A → M unit) w :
  (∀ x w, world_ok w → safe w (body x) anything) → world_ok w → safe w (for_each l body) anything.
Proof.
  intros Hb Hw. eapply safe_weaken; [apply (safe_for_each (λ _, True) (λ _, True))|done]; try done.
  - intros x w1 _ Hw1 _. eapply safe_weaken; [by apply Hb|done].
  - by apply Forall_true.
Qed.

Lemma safe_callback_UpdateAllocation w response :
  world_ok w → safe w (Callback.UpdateAllocation response) anything.
Proof.
  intros Hw. unfold Callback.UpdateAllocation.
  eapply safe_bind; [apply safe_for_each_return; [intros; by apply safe_newAllocation|done]|].
  intros [e|] w1 Hw1 _ _; [by apply safe_ret|].
  eapply safe_bind; [apply safe_loop; [|done]|].
  { intros x w2 Hw2. apply emits_safe; [done|apply emits_dispatch]. }
  intros [] w2 Hw2 _ _. eapply safe_bind; [apply safe_loop; [|done]|intros; by apply safe_ret].
  intros x w3 Hw3. unfold Callback.releasedAllocation.
  eapply safe_bind; [by apply safe_ForgetPod|]. intros [] w4 Hw4 _ _.
  apply emits_safe; [done|]. destruct (bool_decide _); [apply emits_ret|apply emits_dispatch].
Qed.

(** ** Applications *)

(** Looking an application up and reading it. *)
Lemma safe_with_application {B} w appID (f : AppRef → Application → M B) (none : B) :
  world_ok w → (∀ a o, emits w (f a o)) →
  safe w (app ← getApplication appID;
          match app with None => mret none | Some a => o ← get_app a; f a o end) anything.
Proof.
  intros Hw Hf. unfold getApplication. eapply safe_run; [done|reflexivity|].
  destruct (w_applications w !! appID) as [a|] eqn:Hid; [|by apply safe_ret].
  destruct (applications_has_app w appID a Hw Hid) as [o Ho].
  eapply safe_run; [by apply run_get_app|reflexivity|]. by apply emits_safe.
Qed.

Lemma safe_removeApplication w appID : world_ok w → safe w (removeApplication appID) anything.
Proof.
  intros Hw. unfold removeApplication. eapply safe_run; [done|reflexivity|].
  destruct (w_applications w !! appID); [|by apply safe_ret].
  eexists tt, _. split_and!; [done| | |done].
  - apply world_ok_fewer_applications; [done|]. by intros id a [_ ?]%lookup_delete_Some.
  - split; simpl; eauto. intros t o Ho. exists o. by split_and!.
Qed.

Lemma safe_callback_UpdateApplication w response :
  world_ok w → safe w (Callback.UpdateApplication response) anything.
Proof.
  intros Hw. unfold Callback.UpdateApplication.
  eapply safe_bind; [apply safe_loop; [|done]|].
  { intros x w1 Hw1. apply safe_with_application; [done|]. intros. apply emits_dispatch. }
  intros [] w1 Hw1 _ _. eapply safe_bind; [apply safe_loop; [|done]|].
  { intros x w2 Hw2. apply safe_with_application; [done|]. intros. apply emits_dispatch. }
  intros [] w2 Hw2 _ _. apply safe_loop; [|done]. intros x w3 Hw3.
  unfold Callback.updatedApplication. destruct (ua_State x =s _); [by apply safe_removeApplication|].
  destruct (ua_State x =s _).
  - apply safe_with_application; [done|]. intros a o.
    destruct (bool_decide _); [apply emits_dispatch|apply emits_ret].
  - apply emits_safe; [done|]. destruct (_ || _); [apply emits_dispatch|apply emits_ret].
Qed.

Lemma safe_callback_UpdateNode w response :
  world_ok w → safe w (Callback.UpdateNode response) anything.
Proof.
  intros Hw. apply emits_safe; [done|]. unfold Callback.UpdateNode.
  apply emits_bind; [apply emits_for_each; intros; apply emits_dispatch|]. intros [] l _.
  apply emits_for_each. intros. apply emits_dispatch.
Qed.

(** ** The scheduling loop *)

Lemma emits_AreAllTasksTerminated w a :
  world_ok w → has_app w a → emits w (AreAllTasksTerminated a).
Proof.
  intros Hw Ha. unfold AreAllTasksTerminated, getNonTerminatedTaskAlias.
  apply emits_bind; [|intros; apply emits_ret].
  apply emits_bind; [by apply emits_all_tasks|intros; apply emits_ret].
Qed.

Lemma safe_schedule_apps apps w found :
  world_ok w → Forall (has_app w) apps → safe w (Callback.schedule_apps conf apps found) anything.
Proof.
  revert w found. induction apps as [|a apps IH]; intros w found Hw Hall; [by apply safe_ret|].
  apply Forall_cons in Hall as [[app Ha] Hall]. cbn [Callback.schedule_apps].
  assert (Hrest : ∀ w', grows w w' → Forall (has_app w') apps)
    by (intros w' Hg; eapply Forall_impl; [exact Hall|]; intros; by eapply grows_has_app).
  eapply safe_run; [by apply run_get_app|reflexivity|]. destruct (bool_decide _).
  - destruct (emits_AreAllTasksTerminated w a Hw ltac:(by exists app)) as (done' & l & E).
    eapply safe_bind; [apply emits_safe; [done|by exists done', l]|]. intros b w1 Hw1 Hg1 _.
    eapply (safe_bind _ _ _ anything).
    + destruct b; [by apply safe_removeApplication|by apply safe_ret].
    + intros [] w2 Hw2 Hg2 _. apply IH; [done|]. apply Hrest. by etrans.
  - eapply safe_bind; [apply safe_Schedule; [done|by exists app]|]. intros b w1 Hw1 Hg1 _.
    apply IH; [done|by apply Hrest].
Qed.

Lemma safe_schedule w found : world_ok w → safe w (Callback.schedule conf found) anything.
Proof.
  intros Hw. unfold Callback.schedule, Callback.GetAllApplications.
  eapply safe_run; [done|reflexivity|]. apply safe_schedule_apps; [done|].
  apply Forall_forall. intros a ([id a'] & -> & Hin)%list_elem_of_fmap.
  apply elem_of_go_range in Hin. by eapply applications_has_app.
Qed.

(** ** Operations *)

Inductive ShimOp :=
  | OInitializeState
  | OUpdatePod (oldObj : option InformerObject) (newObj : InformerObject)
  | ODeletePod (obj : InformerObject)
  | OUpdateNode (obj : InformerObject)
  | ODeleteNode (obj : InformerObject)
  | OUpdatePriorityClass (obj : InformerObject)
  | ODeletePriorityClass (obj : InformerObject)
  | OUpdateAllocation (response : AllocationResponse)
  | OUpdateApplication (response : ApplicationResponse)
  | ONodeResponse (response : NodeResponse)
  | OSendEvent (records : list EventRecord)
  | OContainerState (request : UpdateContainerSchedulingStateRequest)
  | OHandleEvent (ev : SchedEvent)
  | OSchedule
  | OBind (t : TaskRef) (pod : Pod) (alias nodeName allocationKey : string).

Definition ignore {A} (m : M A) : M unit := _ ← m; mret tt.

Definition exec (op : ShimOp) : M unit :=
  match op with
  | OInitializeState => ignore (Ctx.InitializeState conf)
  | OUpdatePod oldObj newObj => Ctx.UpdatePod conf oldObj newObj
  | ODeletePod obj => Ctx.DeletePod conf obj
  | OUpdateNode obj => Ctx.updateNode conf obj
  | ODeleteNode obj => Ctx.deleteNode obj
  | OUpdatePriorityClass obj => Ctx.updatePriorityClass obj
  | ODeletePriorityClass obj => Ctx.deletePriorityClass obj
  | OUpdateAllocation response => ignore (Callback.UpdateAllocation response)
  | OUpdateApplication response => Callback.UpdateApplication response
  | ONodeResponse response => Callback.UpdateNode response
  | OSendEvent records => Callback.SendEvent records
  | OContainerState request => Callback.UpdateContainerSchedulingState request
  | OHandleEvent ev => Ctx.handle_event conf ev
  | OSchedule => ignore (Callback.schedule conf false)
  | OBind t pod alias nodeName allocationKey => bindTask t pod alias nodeName allocationKey
  end.

(** What a caller may pass: pods have a UID, keep their identity and have tags
    that can be built; the failure message of an application carries its reason;
    the task of a binding exists. *)
Definition op_ok (w : World) (op : ShimOp) : Prop :=
  match op with
  | OInitializeState => listing_ok w
  | OUpdatePod _ newObj => ∀ pod, Convert2Pod newObj = Some pod → pod_acceptable w pod
  | ODeletePod obj => ∀ pod, deleted_pod obj = Some pod → pod_valid (w_cache w) pod
  | OHandleEvent ev => ∀ id e, ev = DApp id e → app_event_ok e
  | OBind t _ _ _ _ => has_task w t
  | _ => True
  end.

Lemma safe_ignore {A} w (m : M A) Q : safe w m Q → safe w (ignore m) anything.
Proof. intros Hm. eapply safe_bind; [exact Hm|]. intros. by apply safe_ret. Qed.

Lemma safe_exec w op : world_ok w → op_ok w op → safe w (exec op) anything.
Proof.
  intros Hw Hop. destruct op; cbn [exec op_ok] in *.
  - by eapply safe_ignore, safe_InitializeState.
  - by eapply safe_weaken; [apply safe_UpdatePod|].
  - by eapply safe_weaken; [apply safe_DeletePod|].
  - unfold Ctx.updateNode. destruct (convertToNode obj); [|by apply safe_ret].
    by eapply safe_weaken; [apply safe_updateNodeInternal|].
  - assert (Hd : ∀ node, safe w (Ctx.deleteNodeInternal node) anything)
      by (intros; by eapply safe_weaken; [apply safe_deleteNodeInternal|]).
    destruct obj as [|node| | | |obj|]; cbn [Ctx.deleteNode]; try by apply safe_ret.
    + apply Hd.
    + destruct obj; try by apply safe_ret. apply Hd.
  - unfold Ctx.updatePriorityClass. destruct (Convert2PriorityClass obj); [|by apply safe_ret].
    by eapply safe_weaken; [apply safe_updatePriorityClassInternal|].
  - by eapply safe_weaken; [apply safe_deletePriorityClass|].
  - by eapply safe_ignore, safe_callback_UpdateAllocation.
  - by apply safe_callback_UpdateApplication.
  - by apply safe_callback_UpdateNode.
  - unfold Callback.SendEvent. destruct (bool_decide _); [by apply safe_PublishEvents|by apply safe_ret].
  - by apply safe_HandleContainerStateUpdate.
  - by apply safe_handle_event.
  - by eapply safe_ignore, safe_schedule.
  - by apply safe_bindTask.
Qed.

(** The shim before it starts. *)
Definition world_init : World := mkWorld ∅ ∅ ∅ NewSchedulerCache 0 [].

Inductive shim_reachable : World → Prop :=
  | shim_init : shim_reachable world_init
  | shim_step w w' op :
      shim_reachable w → op_ok w op → exec op w = Some (tt, w') → shim_reachable w'.

Lemma world_ok_init : world_ok world_init.
Proof. split; try done. apply wf_new. Qed.

Lemma reachable_world_ok w : shim_reachable w → world_ok w.
Proof.
  induction 1 as [|w w' op _ IH Hop E]; [apply world_ok_init|].
  destruct (safe_exec w op IH Hop) as ([] & w1 & E1 & Hw1 & _). congruence.
Qed.


End Callbacks.

(** ** A cluster that starts up

    One node with a pod of another scheduler on it, and a pod of YuniKorn that
    waits. *)

Section Startup.
#[local] Existing Instance si_constants_ref.

#[local] Instance json_none : JsonOps := {
  json_string_map := λ _, None;
  json_user_group := λ _, None
}.

Definition foreign_pod : Pod :=
  mkPod "static" "default" "uid-f" ∅ ∅ 0 []
    (mkPodSpec "n1" "default-scheduler" [] [] None None None "" None None [] [] [] ∅ [] [] "Always"
       (mkPodSecurityContext None None None)) (status_ref PodRunning).

Definition waiting_pod : Pod :=
  pod_ref "work" "uid-w" "" PodPending (<[LabelApplicationID := "app-1"]> ∅) [].

#[local] Instance env_start : Env :=
  env_with (λ _, None) [node_ref "n1"] [foreign_pod; waiting_pod].

#[local] Instance env_start_volumes : VolumeBinderLaws.
Proof. by split. Qed.
#[local] Instance env_start_core : CoreLaws.
Proof. split. intros tr req n Hn. cbn. rewrite <- list_fmap_compose. by apply list_elem_of_fmap_2. Qed.

Definition started : World :=
  match exec conf_ref OInitializeState world_init with Some (_, w) => w | None => world_init end.

(** The nodes a piece of trace enables, and the pods it reports as allocated. *)
Inductive Reported := REnabled (node : string) | RAllocated (key : string).

Definition reports (e : Effect) : list Reported :=
  match e with
  | UpdateNode req =>
      REnabled <$> omap (λ n, match sn_Action n with DRAIN_TO_SCHEDULABLE => Some (sn_NodeID n)
                              | _ => None end) (nr_Nodes req)
  | UpdateAllocation req => RAllocated <$> map AllocationKey (req_Allocations req)
  | _ => []
  end.

(** The node is enabled in the core before the pods that run on it are
    reported, and a second time afterwards. *)
Example startup_enables_nodes_before_pods :
  w_trace started ≫= reports = [REnabled "n1"; RAllocated "uid-f"; REnabled "n1"].
Proof. vm_compute. reflexivity. Qed.

Lemma tags_ok_of p :
  match CreateTagsForTask p with Some _ => true | None => false end = true → tags_ok p.
Proof. unfold tags_ok. destruct (CreateTagsForTask p); [eauto|done]. Qed.

Lemma cluster_pod_acceptable p :
  p = foreign_pod ∨ p = waiting_pod → pod_acceptable world_init p.
Proof.
  intros [-> | ->]; (split; [split; [discriminate|]|apply tags_ok_of; vm_compute; reflexivity]).
  all: intros cur Hcur; cbn [world_init w_cache NewSchedulerCache podsMap] in Hcur;
    by rewrite lookup_empty in Hcur.
Qed.

Lemma cluster_listing_ok : listing_ok world_init.
Proof.
  assert (Hl : ∀ p, listed p → p = foreign_pod ∨ p = waiting_pod).
  { intros p (tr & pods & [= <-] & Hp). set_solver. }
  split.
  - intros p Hp. by apply cluster_pod_acceptable, Hl.
  - intros p q [-> | ->]%Hl [-> | ->]%Hl; try done; intros; by split_and!.
Qed.

Lemma started_reachable : shim_reachable conf_ref started.
Proof.
  apply (shim_step _ world_init _ OInitializeState);
    [apply shim_init|apply cluster_listing_ok|vm_compute; reflexivity].
Qed.


End Startup.
