(* ===== verification/PodIdentity.v ===== *)
(** * Pods keep their identity

    Kubernetes gives every pod a UID that no other pod ever has.  While the
    informers pass on such pods, the scheduler cache knows every UID by one
    namespace, one list of volumes and one affinity, whatever operations run in
    between: also a pod that was deleted and is handed to the cache again later is
    acceptable. *)

From S2P Require Import Prelude.
From S2P Require Import GoStrings.
From S2P Require Import K8sApi.
From S2P Require Import Constants.
From S2P Require Import Resource.
From S2P Require Import PodUtils.
From S2P Require Import SiHelper.
From S2P Require Import TaskGroups.
From S2P Require Import SchedulerCache.
From S2P Require Import SchedulerCacheInv.
From S2P Require Import SchedulerCacheOps.
From S2P Require Import SchedulerCacheNodes.
From S2P Require Import SchedulerCacheThms.
From S2P Require Import World.
From S2P Require Import Logic.
From S2P Require Import Fsm.
From S2P Require Import ContextPods.
From S2P Require Import Task.
From S2P Require Import Application.
From S2P Require Import ShimContext.
From S2P Require Import SchedulerCallback.
From S2P Require Import BindThms.
From S2P Require Import Safety.
From S2P Require Import SafetyTasks.
From S2P Require Import SafetyCache.
From S2P Require Import SafetyContext.
From S2P Require Import SafetyThms.
From S2P Require Import ShimSafety.

Create HintDb known.

Section Identity.
Context `{SC : SiConstants} `{QO : QuantityOps} `{NIO : NodeInfoOps} `{NIL : !NodeInfoLaws}.
Context `{MO : MapOrder} `{TT : TerminationTypes} `{PH : PodHelpers} `{JO : JsonOps}.
Context `{TG : TaskGroupJson} `{EV : Env} `{FE : FsmEngine} `{FL : !FsmLaws}.
Context `{RE : RetryEngine} `{RL : !RetryLaws} (conf : ShimConf).

(** The pod that a UID stands for. *)
Context (ident : string → Pod).

Definition pod_known (p : Pod) : Prop := pod_UID p ≠ "" ∧ same_identity p (ident (pod_UID p)).

Record pods_known (w : World) : Prop := {
  pk_cache : wf (w_cache w);
  pk_pods k p : podsMap (w_cache w) !! k = Some p → same_identity p (ident k)
}.

Definition keeps_known (w w' : World) : Prop := pods_known w → pods_known w'.

#[local] Instance keeps_known_preorder : PreOrder keeps_known.
Proof. unfold keeps_known. split; [by intros w Hw|]. intros w1 w2 w3. auto. Qed.

Lemma known_valid w p : pods_known w → pod_known p → pod_valid (w_cache w) p.
Proof.
  intros [_ Hk] [Hne Hp]. split; [done|]. intros cur Hcur.
  eapply same_identity_trans; [exact Hp|]. apply same_identity_sym. by apply Hk.
Qed.

(** ** Operations on the cache *)

Lemma known_cache w c' extra :
  pods_known w → wf c' → pods_from extra (podsMap (w_cache w)) (podsMap c') →
  (∀ p, extra = Some p → pod_known p) → pods_known (with_cache w c').
Proof.
  intros [_ Hk] Hwf Hf He. split; [done|]. cbn [with_cache w_cache]. intros k p Hp.
  destruct (Hf k p Hp) as (q & -> & [Hq|[Hq <-]]).
  - apply (Hk k q Hq).
  - apply (He q Hq).
Qed.

Lemma known_same_cache w w' : w_cache w' = w_cache w → keeps_known w w'.
Proof. intros Hc [Hwf Hk]. by split; rewrite Hc. Qed.

Lemma known_keeps {A} (m : M A) : preserves keeps_cache m → preserves keeps_known m.
Proof. intros Hm w a w' E. apply known_same_cache. symmetry. by apply (Hm w a w'). Qed.

Lemma known_updatePod p : pod_known p → preserves keeps_known (on_cache_with (updatePod p)).
Proof.
  intros Hp w a w' E Hw.
  destruct (updatePod_refines (w_cache w) p (pk_cache w Hw) (known_valid w p Hw Hp)) as (c' & b & Eu & Hwf & Hs).
  unfold on_cache_with in E. rewrite Eu in E. injection E as _ <-. apply (known_cache w c' (Some p)); [done..| |by intros q [= <-]].
  replace (podsMap c') with (a_pods (spec_updatePod p (abs (w_cache w))).1) by (by rewrite Hs).
  apply (spec_updatePod_from p (abs (w_cache w))).
Qed.

Lemma known_removePod p : pod_known p → preserves keeps_known (on_cache (removePod p)).
Proof.
  intros Hp w a w' E Hw.
  destruct (removePod_refines (w_cache w) p (pk_cache w Hw) (known_valid w p Hw Hp)) as (c' & Eu & Hwf & Hs).
  unfold on_cache in E. rewrite Eu in E. injection E as _ <-. apply (known_cache w c' None); [done..| |done].
  rewrite (abs_pods _ _ Hs). apply pods_from_delete.
Qed.

Lemma known_ForgetPod key : preserves keeps_known (ForgetPod key).
Proof.
  intros w a w' E Hw. destruct (run_ForgetPod key w (pk_cache w Hw)) as (c' & Ef & Hwf & Hs).
  rewrite Ef in E. injection E as _ <-. apply (known_cache w c' None); [done..| |done].
  rewrite (abs_pods _ _ Hs). unfold spec_forgetKey. cbn [abs a_pods].
  destruct (podsMap (w_cache w) !! key) as [q|] eqn:Hq; [|apply pods_from_refl].
  destruct (wf_pod _ _ _ _ _ _ _ _ _ (proj1 (pk_cache w Hw)) _ _ Hq) as (Hu & _ & _).
  apply (spec_forgetPod_from q (abs (w_cache w))). cbn [abs a_pods]. by rewrite Hu.
Qed.

(** The pod that is assumed comes from the cache. *)
Lemma known_assumePod w p n allBound w' :
  pods_known w → podsMap (w_cache w) !! pod_UID p = Some p →
  on_cache (assumePod (pod_with_NodeName p n) allBound) w = Some (tt, w') → pods_known w'.
Proof.
  intros Hw Hp E. set (p' := pod_with_NodeName p n) in *.
  destruct (wf_pod _ _ _ _ _ _ _ _ _ (proj1 (pk_cache w Hw)) _ _ Hp) as (_ & Hne & Hterm).
  assert (Hk : pod_known p') by (split; [done|]; apply (pk_pods w Hw _ _ Hp)).
  destruct (assumePod_refines (w_cache w) p' allBound (pk_cache w Hw) (known_valid w p' Hw Hk) Hterm)
    as (c' & Eu & Hwf & Hs).
  unfold on_cache in E. rewrite Eu in E. injection E as <-.
  apply (known_cache w c' (Some p')); [done..| |by intros q [= <-]].
  rewrite (abs_pods _ _ Hs). unfold spec_assumePod.
  pose proof (spec_updatePod_from p' (abs (w_cache w))) as Hf.
  by destruct (spec_updatePod p' (abs (w_cache w))).
Qed.

Lemma known_AssumePod key node : preserves keeps_known (AssumePod key node).
Proof.
  intros w a w' E Hw. unfold AssumePod in E. rewrite run_bind in E. cbn [get_world] in E.
  destruct (GetPod (w_cache w) key) as [p|] eqn:Hp; [|by injection E as _ <-].
  destruct (GetNode (w_cache w) node); [|by injection E as _ <-].
  rewrite run_bind in E. cbn [ask] in E. destruct (vb_GetPodVolumeClaims _ _); [|by injection E as _ <-].
  rewrite run_bind in E. cbn [ask] in E. destruct (vb_FindPodVolumes _ _ _ _) as [[]|]; [|by injection E as _ <-].
  destruct (bool_decide _); [by injection E as _ <-|].
  rewrite run_bind in E. cbn [ask] in E. rewrite run_bind, run_emit in E. set (w1 := traced w _) in E.
  assert (Hw1 : pods_known w1) by (by apply (known_same_cache w)).
  destruct (vb_AssumePodVolumes _ _ _ _) as [allBound|]; [|by injection E as _ <-].
  rewrite run_bind in E. destruct (on_cache _ w1) as [[[] w2]|] eqn:Ea; [|done]. injection E as _ <-.
  eapply known_assumePod; [exact Hw1| |exact Ea]. unfold GetPod, GetPodNoLock in Hp.
  by destruct (wf_pod _ _ _ _ _ _ _ _ _ (proj1 (pk_cache w Hw)) _ _ Hp) as (-> & _ & _).
Qed.

Lemma known_priority_classes f : preserves keeps_known (on_cache (λ c, Some (set_pcMap f c))).
Proof.
  intros w a w' E Hw. injection E as _ <-. apply (known_cache w _ None); [done| |apply pods_from_refl|done].
  apply (pk_cache w Hw).
Qed.

Lemma known_removeNode node : preserves keeps_known (on_cache_with (Ctx.cache_removeNode node)).
Proof.
  intros w a w' E Hw. unfold on_cache_with, Ctx.cache_removeNode in E.
  destruct (nodesMap (w_cache w) !! node_Name node) as [ni|] eqn:Hn.
  - destruct (removeNode_refines (w_cache w) node ni (pk_cache w Hw) Hn) as (c' & Er & Hwf & Hs).
    rewrite Er in E. injection E as _ <-. apply (known_cache w c' None); [done..| |done].
    rewrite (abs_pods _ _ Hs). apply (spec_removeNode_from node (abs (w_cache w))).
  - rewrite removeNode_absent in E by done. injection E as _ <-. by apply (known_same_cache w).
Qed.

Lemma known_updateNode node : preserves keeps_known (on_cache_with (Ctx.cache_updateNode node)).
Proof.
  intros w a w' E Hw. unfold on_cache_with, Ctx.cache_updateNode in E.
  assert (Hdone : ∀ c', wf c' → abs c' = spec_updateNode node (abs (w_cache w)) → pods_known (with_cache w c')).
  { intros c' Hwf Hs. apply (known_cache w c' None); [done..| |done]. rewrite (abs_pods _ _ Hs). apply pods_from_refl. }
  destruct (nodesMap (w_cache w) !! node_Name node) as [ni|] eqn:Hn.
  - destruct (updateNode_known (w_cache w) node ni (pk_cache w Hw) Hn) as (c' & Eu & Hwf & Hs).
    rewrite Eu in E. injection E as _ <-. by apply Hdone.
  - destruct (updateNode_new (w_cache w) node (pk_cache w Hw) Hn) as (c' & Eu & Hwf & Hs).
    rewrite Eu in E. injection E as _ <-. by apply Hdone.
Qed.

(** ** Primitives *)

Lemma known_emit e : preserves keeps_known (emit e).
Proof. apply known_keeps, kcache_emit. Qed.
Lemma known_record p x y z : preserves keeps_known (record p x y z).
Proof. apply known_emit. Qed.
Lemma known_dispatch ev : preserves keeps_known (dispatch ev).
Proof. apply known_emit. Qed.
Lemma known_call e : preserves keeps_known (call e).
Proof. apply known_keeps, kcache_call. Qed.
Lemma known_put_task t o : preserves keeps_known (put_task t o).
Proof. apply known_keeps, kcache_put_task. Qed.
Lemma known_upd_task t f : preserves keeps_known (upd_task t f).
Proof. apply known_keeps, kcache_upd_task. Qed.
Lemma known_put_app a o : preserves keeps_known (put_app a o).
Proof. intros w x w' [= _ <-]. by apply known_same_cache. Qed.
Lemma known_upd_app a f : preserves keeps_known (upd_app a f).
Proof. unfold upd_app. preserves_tac ltac:(apply known_put_app). Qed.
Lemma known_put_applications m : preserves keeps_known (put_applications m).
Proof. intros w x w' [= _ <-]. by apply known_same_cache. Qed.
Lemma known_alloc_task o : preserves keeps_known (alloc_task o).
Proof. intros w x w' [= _ <-]. by apply known_same_cache. Qed.
Lemma known_alloc_app o : preserves keeps_known (alloc_app o).
Proof. intros w x w' [= _ <-]. by apply known_same_cache. Qed.
Lemma known_panic {A} : preserves keeps_known (panic : M A).
Proof. done. Qed.
Hint Resolve known_updatePod known_removePod known_ForgetPod known_AssumePod known_priority_classes known_removeNode known_updateNode
  known_emit known_record known_dispatch known_call known_put_task known_upd_task known_put_app known_upd_app
  known_put_applications known_alloc_task known_alloc_app known_panic : known.

Ltac known_tac := preserves_tac ltac:(solve [auto with known]).

(** ** Pods and volumes *)

Lemma known_bindPodVolumes pod : preserves keeps_known (bindPodVolumes pod).
Proof. unfold bindPodVolumes. known_tac. Qed.
Lemma known_Revert name node : preserves keeps_known (RevertPodVolumeAssumptions name node).
Proof. unfold RevertPodVolumeAssumptions. known_tac. Qed.
Lemma known_IsPreemptSelfAllowed name : preserves keeps_known (IsPreemptSelfAllowed name).
Proof. unfold IsPreemptSelfAllowed. known_tac. Qed.
Lemma known_getApplication appID : preserves keeps_known (getApplication appID).
Proof. unfold getApplication. known_tac. Qed.
Lemma known_removeApplication appID : preserves keeps_known (removeApplication appID).
Proof. unfold removeApplication. known_tac. Qed.
Hint Resolve known_bindPodVolumes known_Revert known_IsPreemptSelfAllowed known_getApplication known_removeApplication : known.
Lemma known_getTask appID taskID : preserves keeps_known (getTask appID taskID).
Proof. unfold getTask. known_tac. Qed.
Lemma known_notifyTaskComplete app taskID : preserves keeps_known (notifyTaskComplete app taskID).
Proof. unfold notifyTaskComplete. known_tac. Qed.
Hint Resolve known_getTask known_notifyTaskComplete : known.

(** ** Tasks *)

Lemma known_has_task_id l taskID : preserves keeps_known (has_task_id l taskID).
Proof. induction l; cbn [has_task_id]; known_tac. Qed.
Hint Resolve known_has_task_id : known.
Lemma known_tryAddReleasableTask a t : preserves keeps_known (tryAddReleasableTask a t).
Proof. unfold tryAddReleasableTask. known_tac. Qed.
Hint Resolve known_tryAddReleasableTask : known.
Lemma known_NewFromTaskMeta tid app meta orig : preserves keeps_known (NewFromTaskMeta tid app meta orig).
Proof. unfold NewFromTaskMeta, createTaskInternal. known_tac. Qed.
Lemma known_DeleteTaskPod t : preserves keeps_known (DeleteTaskPod t).
Proof. unfold DeleteTaskPod. known_tac. Qed.
Lemma known_UpdateTaskPodStatus pod : preserves keeps_known (UpdateTaskPodStatus pod).
Proof. unfold UpdateTaskPodStatus. known_tac. Qed.
Lemma known_updateAllocation t : preserves keeps_known (updateAllocation t).
Proof. unfold updateAllocation, isPreemptSelfAllowed. known_tac. Qed.
Hint Resolve known_NewFromTaskMeta known_DeleteTaskPod known_UpdateTaskPodStatus known_updateAllocation : known.
Lemma known_MarkPreviouslyAllocated t key node : preserves keeps_known (MarkPreviouslyAllocated t key node).
Proof. unfold MarkPreviouslyAllocated, setAllocationKey. known_tac. Qed.
Lemma known_handleSubmitTaskEvent t : preserves keeps_known (handleSubmitTaskEvent conf t).
Proof. unfold handleSubmitTaskEvent, SetTaskSchedulingState. known_tac. Qed.
Lemma known_releaseAllocation t force : preserves keeps_known (releaseAllocation t force).
Proof. unfold releaseAllocation, shouldAppRelease. known_tac. Qed.
Hint Resolve known_MarkPreviouslyAllocated known_handleSubmitTaskEvent known_releaseAllocation : known.

Lemma known_postTaskAllocated t : preserves keeps_known (postTaskAllocated t).
Proof. unfold postTaskAllocated. known_tac. Qed.
Hint Resolve known_postTaskAllocated : known.
Lemma known_task_before t args src ev : preserves keeps_known (task_before t args src ev).
Proof. unfold task_before, beforeTaskFail, beforeTaskAllocated, beforeTaskCompleted, setAllocationKey. known_tac. Qed.
Lemma known_task_enter t s : preserves keeps_known (task_enter t s).
Proof. unfold task_enter, postTaskPending, postTaskRejected, postTaskBound. known_tac. Qed.
Lemma known_task_after t ev : preserves keeps_known (task_after conf t ev).
Proof. unfold task_after. known_tac. Qed.
Hint Resolve known_task_before known_task_enter known_task_after : known.

Lemma known_task_handle t ev : preserves keeps_known (task_handle conf t ev).
Proof.
  unfold task_handle. apply preserves_bind; [tc_solve| |intros [e|]; [destruct (is_no_transition e)|]; known_tac].
  intros w a w' E. rewrite fsm_Event_spec in E. revert w a w' E.
  change (preserves keeps_known (fsm_run eventDesc (task_machine conf t (task_event_args ev)) (task_event ev))).
  unfold fsm_run, task_machine. cbn [m_Current m_before m_after m_enter m_SetState]. known_tac.
Qed.
Lemma known_task_canHandle t ev : preserves keeps_known (task_canHandle t ev).
Proof. unfold task_canHandle. known_tac. Qed.
Hint Resolve known_task_handle known_task_canHandle : known.

Lemma known_checkVolumes ns volumes : preserves keeps_known (checkVolumes ns volumes).
Proof. induction volumes; cbn [checkVolumes]; known_tac. Qed.
Hint Resolve known_checkVolumes : known.
Lemma known_sanityCheck t : preserves keeps_known (sanityCheckBeforeScheduling t).
Proof. unfold sanityCheckBeforeScheduling, checkPodPVCs. known_tac. Qed.
Lemma known_checkPodMetadata t : preserves keeps_known (checkPodMetadataBeforeScheduling conf t).
Proof. unfold checkPodMetadataBeforeScheduling, logIgnoredPodMetadata. known_tac. Qed.
Lemma known_UpdatePodCondition t c : preserves keeps_known (UpdatePodCondition t c).
Proof. unfold UpdatePodCondition. known_tac. Qed.
Lemma known_failWithEvent t x y : preserves keeps_known (failWithEvent t x y).
Proof. unfold failWithEvent. known_tac. Qed.
Lemma known_rollbackAllocation pod appID p key node reason :
  preserves keeps_known (rollbackAllocation pod appID p key node reason).
Proof. unfold rollbackAllocation. known_tac. Qed.
Hint Resolve known_sanityCheck known_checkPodMetadata known_UpdatePodCondition known_failWithEvent
  known_rollbackAllocation : known.
Lemma known_rollbackOnAssume t key node : preserves keeps_known (rollbackOnAssumePodFailure t key node).
Proof. unfold rollbackOnAssumePodFailure. known_tac. Qed.
Lemma known_reschedule t key node reason : preserves keeps_known (rescheduleOnBindFailure t key node reason).
Proof. unfold rescheduleOnBindFailure. known_tac. Qed.

Lemma known_retry b retriable fn : preserves keeps_known fn → preserves keeps_known (retry_OnError b retriable fn).
Proof.
  intros Hfn. assert (Hr : ∀ n waits, preserves keeps_known (retry_run n waits retriable fn)).
  { induction n as [|n IH]; intros waits; cbn [retry_run]; known_tac. }
  intros w a w' E. rewrite retry_OnError_spec in E. by apply Hr in E.
Qed.
Hint Resolve known_rollbackOnAssume known_reschedule known_retry : known.

Lemma known_bindTask t pod alias node key : preserves keeps_known (bindTask t pod alias node key).
Proof. unfold bindTask. known_tac. Qed.
Hint Resolve known_bindTask : known.

(** ** Applications *)

Lemma known_load_tasks l : preserves keeps_known (load_tasks l).
Proof. induction l; cbn [load_tasks]; known_tac. Qed.
Hint Resolve known_load_tasks : known.
Lemma known_all_tasks a : preserves keeps_known (all_tasks a).
Proof. unfold all_tasks. known_tac. Qed.
Hint Resolve known_all_tasks : known.
Lemma known_getTasks a s : preserves keeps_known (getTasks a s).
Proof. unfold getTasks. known_tac. Qed.
Lemma known_getPlaceHolderTasks a : preserves keeps_known (getPlaceHolderTasks a).
Proof. unfold getPlaceHolderTasks. known_tac. Qed.
Lemma known_AreAllTasksTerminated a : preserves keeps_known (AreAllTasksTerminated a).
Proof. unfold AreAllTasksTerminated, getNonTerminatedTaskAlias. known_tac. Qed.
Lemma known_removeCompletedTasks a : preserves keeps_known (removeCompletedTasks a).
Proof. unfold removeCompletedTasks, removeTask. known_tac. Qed.
Lemma known_record_originating a x y z : preserves keeps_known (record_originating a x y z).
Proof. unfold record_originating. known_tac. Qed.
Hint Resolve known_getTasks known_getPlaceHolderTasks known_AreAllTasksTerminated known_removeCompletedTasks
  known_record_originating : known.

Lemma known_flush a : preserves keeps_known (flushReleaseableTasks a).
Proof. unfold flushReleaseableTasks, removeFromSchedulerCore. known_tac. Qed.
Lemma known_handleSubmit a : preserves keeps_known (handleSubmitApplicationEvent a).
Proof. unfold handleSubmitApplicationEvent. known_tac. Qed.
Lemma known_postAppAccepted a : preserves keeps_known (postAppAccepted a).
Proof. unfold postAppAccepted, skipReservationStage. known_tac. Qed.
Hint Resolve known_flush known_handleSubmit known_postAppAccepted : known.
Lemma known_app_enter a s : preserves keeps_known (app_enter a s).
Proof. unfold app_enter, onReserving, onResuming. known_tac. Qed.
Lemma known_app_after a args ev : preserves keeps_known (app_after a args ev).
Proof.
  unfold app_after, handleRejectApplicationEvent, handleCompleteApplicationEvent, handleFailApplicationEvent,
    failUnallocated, failTaskPodWithReasonAndMsg, onReservationStateChange, handleReleaseAppAllocationEvent,
    setTaskTerminationType, publishPlaceholderTimeoutEvents, handleAppTaskCompletedEvent, clearReleaseableTasks.
  known_tac.
Qed.
Hint Resolve known_app_enter known_app_after : known.
Lemma known_app_handle a ev : preserves keeps_known (app_handle a ev).
Proof.
  unfold app_handle. apply preserves_bind; [tc_solve| |intros [e|]; [destruct (is_no_transition e)|]; known_tac].
  intros w x w' E. rewrite fsm_Event_spec in E. revert w x w' E.
  unfold fsm_run, app_machine. cbn [m_Current m_before m_after m_enter m_SetState].
  match goal with |- ∀ w x w', ?m w = Some (x, w') → _ => change (preserves keeps_known m) end. known_tac.
Qed.
Lemma known_app_canHandle a ev : preserves keeps_known (app_canHandle a ev).
Proof. unfold app_canHandle. known_tac. Qed.
Hint Resolve known_app_handle known_app_canHandle : known.

Lemma known_scheduleTasks a c : preserves keeps_known (scheduleTasks conf a c).
Proof. unfold scheduleTasks, scheduleTask. known_tac. Qed.
Hint Resolve known_scheduleTasks : known.
Lemma known_Schedule a : preserves keeps_known (Schedule conf a).
Proof. unfold Schedule. known_tac. Qed.
Hint Resolve known_Schedule : known.

(** ** The context *)

Lemma known_updateApplicationTags tags ns : preserves keeps_known (Ctx.updateApplicationTags tags ns).
Proof. unfold Ctx.updateApplicationTags, Ctx.getNamespaceObject. known_tac. Qed.
Hint Resolve known_updateApplicationTags : known.
Lemma known_addApplication meta : preserves keeps_known (Ctx.addApplication meta).
Proof.
  unfold Ctx.addApplication, NewApplication, setTaskGroups, setTaskGroupsDefinition, setSchedulingParamsDefinition,
    setPlaceholderOwnerReferences, setSchedulingStyle, setContext, SetPlaceholderTimeout. known_tac.
Qed.
Lemma known_addTask meta : preserves keeps_known (Ctx.addTask meta).
Proof. unfold Ctx.addTask, addTask, setOriginatingTask. known_tac. Qed.
Hint Resolve known_addApplication known_addTask : known.
Lemma known_ensureAppAndTaskCreated pod app : preserves keeps_known (Ctx.ensureAppAndTaskCreated conf pod app).
Proof. unfold Ctx.ensureAppAndTaskCreated. known_tac. Qed.
Hint Resolve known_ensureAppAndTaskCreated : known.

Lemma known_SetTaskPod t pod : preserves keeps_known (SetTaskPod t pod).
Proof. unfold SetTaskPod. known_tac. Qed.
Hint Resolve known_SetTaskPod : known.

Lemma known_updateYuniKornPod appID old pod :
  pod_known pod → preserves keeps_known (Ctx.updateYuniKornPod conf appID old pod).
Proof. intros Hp. unfold Ctx.updateYuniKornPod. known_tac. Qed.
Lemma known_updateForeignPod old pod : pod_known pod → preserves keeps_known (Ctx.updateForeignPod old pod).
Proof. intros Hp. unfold Ctx.updateForeignPod. known_tac. Qed.
Hint Resolve known_updateYuniKornPod known_updateForeignPod : known.
Lemma known_adoptPod pod : pod_known pod → preserves keeps_known (Ctx.adoptPod conf pod).
Proof. intros Hp. unfold Ctx.adoptPod. known_tac. Qed.
Lemma known_UpdatePod old new :
  (∀ pod, Convert2Pod new = Some pod → pod_known pod) → preserves keeps_known (Ctx.UpdatePod conf old new).
Proof.
  intros Hp. unfold Ctx.UpdatePod. destruct (Convert2Pod new) as [pod|]; [|known_tac]. specialize (Hp pod eq_refl). known_tac.
Qed.
Lemma known_DeletePod obj :
  (∀ pod, deleted_pod obj = Some pod → pod_known pod) → preserves keeps_known (Ctx.DeletePod conf obj).
Proof.
  intros Hp. unfold Ctx.DeletePod. fold (deleted_pod obj). cbv zeta. destruct (deleted_pod obj) as [pod|]; [|known_tac].
  specialize (Hp pod eq_refl). unfold Ctx.deleteYuniKornPod, Ctx.deleteForeignPod. known_tac.
Qed.
Hint Resolve known_adoptPod known_UpdatePod known_DeletePod : known.

Lemma known_updateNodeResources node cap : preserves keeps_known (Ctx.updateNodeResources node cap).
Proof. unfold Ctx.updateNodeResources. known_tac. Qed.
Lemma known_updateNodeSchedulability prev node : preserves keeps_known (Ctx.updateNodeSchedulability prev node).
Proof. unfold Ctx.updateNodeSchedulability. known_tac. Qed.
Lemma known_enableNode node : preserves keeps_known (Ctx.enableNode node).
Proof. unfold Ctx.enableNode, Ctx.enableNodes. known_tac. Qed.
Lemma known_deleteNodeInternal node : preserves keeps_known (Ctx.deleteNodeInternal node).
Proof. unfold Ctx.deleteNodeInternal, Ctx.decommissionNode, Ctx.record_node. known_tac. Qed.
Lemma known_deletePriorityClass obj : preserves keeps_known (Ctx.deletePriorityClass obj).
Proof. unfold Ctx.deletePriorityClass, removePriorityClass. known_tac. Qed.
Lemma known_updatePriorityClass obj : preserves keeps_known (Ctx.updatePriorityClass obj).
Proof.
  unfold Ctx.updatePriorityClass, Ctx.updatePriorityClassInternal, SchedulerCache.updatePriorityClass. known_tac.
Qed.
Lemma known_PublishEvents records : preserves keeps_known (Ctx.PublishEvents records).
Proof. unfold Ctx.PublishEvents, Ctx.PublishEvent, Ctx.record_node. known_tac. Qed.
Lemma known_HandleContainerStateUpdate req : preserves keeps_known (Ctx.HandleContainerStateUpdate req).
Proof. unfold Ctx.HandleContainerStateUpdate, Ctx.updatePodCondition, SetTaskSchedulingState. known_tac. Qed.
Lemma known_handle_event ev : preserves keeps_known (Ctx.handle_event conf ev).
Proof. unfold Ctx.handle_event, Ctx.ApplicationEventHandler, Ctx.TaskEventHandler. known_tac. Qed.
Hint Resolve known_updateNodeResources known_updateNodeSchedulability known_enableNode known_deleteNodeInternal
  known_deletePriorityClass known_updatePriorityClass known_PublishEvents known_HandleContainerStateUpdate
  known_handle_event : known.

(** ** Callbacks and rounds *)

Lemma known_newAllocation alloc : preserves keeps_known (Callback.newAllocation alloc).
Proof. unfold Callback.newAllocation. known_tac. Qed.
Hint Resolve known_newAllocation : known.
Lemma known_for_each_return {A B} (l : list A) (body : A → M (option B)) :
  (∀ x, preserves keeps_known (body x)) → preserves keeps_known (for_each_return l body).
Proof. intros Hb. induction l; cbn [for_each_return]; known_tac. Qed.
Hint Resolve known_for_each_return : known.
Lemma known_UpdateAllocation resp : preserves keeps_known (Callback.UpdateAllocation resp).
Proof. unfold Callback.UpdateAllocation, Callback.rejectedAllocation, Callback.releasedAllocation. known_tac. Qed.
Lemma known_UpdateApplication resp : preserves keeps_known (Callback.UpdateApplication resp).
Proof.
  unfold Callback.UpdateApplication, Callback.acceptedApplication, Callback.rejectedApplication,
    Callback.updatedApplication. known_tac.
Qed.
Lemma known_schedule found : preserves keeps_known (Callback.schedule conf found).
Proof.
  unfold Callback.schedule, Callback.GetAllApplications. known_tac.
  revert found. induction a as [|x l IH]; intros found; cbn [Callback.schedule_apps]; known_tac.
Qed.
Hint Resolve known_UpdateAllocation known_UpdateApplication known_schedule : known.

(** ** Operations *)

(** The pods an operation is called with. *)
Definition op_pod (op : ShimOp) : option Pod :=
  match op with
  | OUpdatePod _ obj => Convert2Pod obj
  | ODeletePod obj => deleted_pod obj
  | _ => None
  end.

(** The operations besides start-up and the handler of a node, which wait for
    the core. *)
Definition waits (op : ShimOp) : bool :=
  match op with OInitializeState | OUpdateNode _ => true | _ => false end.

Lemma known_exec op :
  waits op = false → (∀ pod, op_pod op = Some pod → pod_known pod) → preserves keeps_known (exec conf op).
Proof.
  intros Hw Hp. destruct op as [| | |?|obj| | | | | | | | | |]; try discriminate Hw; cbn [exec op_pod] in *;
    unfold ignore, Callback.UpdateNode, Callback.SendEvent, Callback.UpdateContainerSchedulingState; try solve [known_tac].
  destruct obj as [|node| | | |obj|]; cbn [Ctx.deleteNode]; known_tac.
Qed.

End Identity.
