(* ===== verification/NodeRegistration.v ===== *)
(** * Registering a node while other handlers run

    The handler of a new node asks the core to register it and waits for the
    answer.  It holds the lock of the context, but gives it up while it waits, so
    that every other operation of the shim may run between the two halves of the
    handler.  The answer comes as a node event through the dispatcher to a handler
    that was registered for this one request and that counts a wait group
    down.  ([ShimContext] runs the two halves in one step.) *)

From S2P Require Import Prelude.
From S2P Require Import GoStrings.
From S2P Require Import K8sApi.
From S2P Require Import K8sInstances.
From S2P Require Import Constants.
From S2P Require Import Resource.
From S2P Require Import PodUtils.
From S2P Require Import SiHelper.
From S2P Require Import TaskGroups.
From S2P Require Import SchedulerCache.
From S2P Require Import SchedulerCacheInv.
From S2P Require Import SchedulerCacheOps.
From S2P Require Import SchedulerCacheNodes.
From S2P Require Import SchedulerCacheThms.
From S2P Require Import World.
From S2P Require Import Logic.
From S2P Require Import Fsm.
From S2P Require Import ContextPods.
From S2P Require Import Task.
From S2P Require Import Application.
From S2P Require Import ShimContext.
From S2P Require Import SchedulerCallback.
From S2P Require Import Examples.
From S2P Require Import BindThms.
From S2P Require Import Safety.
From S2P Require Import SafetyTasks.
From S2P Require Import SafetyCache.
From S2P Require Import SafetyContext.
From S2P Require Import SafetyThms.
From S2P Require Import ShimSafety.
From S2P Require Import PodIdentity.

(** ** State *)

(** A handler that waits: its arguments, and the variables that it shares with
    the handler of node events. *)
Record Wait := mkWait {
  nw_node : Node;
  nw_adoptedPods : list Pod;
  nw_pendingNodes : gmap string Node;
  nw_acceptedNodes : list Node;
  nw_rejectedNodes : list Node;
  nw_wg : nat
}.

Record Registrations := mkRegistrations {
  rg_world : World;
  rg_txnID : nat;
  rg_waiting : gmap nat Wait
}.

(** The handler of node events; a wait group panics below zero. *)
Definition wait_handler (ev : string * SchedulerNodeEventType) (wt : Wait) : option Wait :=
  match nw_pendingNodes wt !! ev.1 with
  | None => Some wt
  | Some _ =>
      let '(pendingNodes, acceptedNodes, rejectedNodes) :=
        Ctx.nodeAnswer (nw_pendingNodes wt, nw_acceptedNodes wt, nw_rejectedNodes wt) ev in
      match nw_wg wt with
      | O => None
      | S n => Some (mkWait (nw_node wt) (nw_adoptedPods wt) pendingNodes acceptedNodes rejectedNodes n)
      end
  end.

Definition wait_answers (evs : list (string * SchedulerNodeEventType)) (wt : Wait) : option Wait :=
  foldl (λ o ev, o ≫= wait_handler ev) (Some wt) evs.

(** A node event reaches the handlers of all requests that wait. *)
Definition node_event (ev : string * SchedulerNodeEventType) (waiting : gmap nat Wait) : option (gmap nat Wait) :=
  if decide (map_Forall (λ _ wt, is_Some (wait_handler ev wt)) waiting)
  then Some (omap (wait_handler ev) waiting) else None.

Section Registration.
Context `{SC : SiConstants} `{QO : QuantityOps} `{NIO : NodeInfoOps} `{MO : MapOrder} `{TT : TerminationTypes}.
Context `{PH : PodHelpers} `{JO : JsonOps} `{TG : TaskGroupJson} `{EV : Env} `{FE : FsmEngine} `{RE : RetryEngine}.
Context (conf : ShimConf).

(** ** The two halves of the handler *)

(** A known node: nothing to wait for. *)
Definition update_known_node (prevNode node : Node) : M unit :=
  let prevCapacity := GetNodeResource prevNode in
  let newCapacity := GetNodeResource node in
  (if negb (Equals (Some prevCapacity) (Some newCapacity))
   then _ ← Ctx.updateNodeResources node newCapacity; mret tt else mret tt);;
  _ ← Ctx.updateNodeSchedulability prevNode node; mret tt.

Definition register_request (node : Node) : NodeRequest := mkNodeRequest [Ctx.registration node].

(** Up to the wait for the wait group; [None]: the handler has returned. *)
Definition begin_updateNode (node : Node) : M (option Wait) :=
  '(prev, adoptedPods) ← on_cache_with (Ctx.cache_updateNode node);
  match prev with
  | Some prevNode => update_known_node prevNode node;; mret None
  | None =>
      let pendingNodes := {[ node_Name node := node ]} in
      err ← call (UpdateNode (register_request node));
      match err with
      | Some _ => _ ← on_cache_with (Ctx.cache_removeNode node); mret None
      | None => mret (Some (mkWait node adoptedPods pendingNodes [] [] (size pendingNodes)))
      end
  end.

(** After the wait. *)
Definition finish_updateNode (wt : Wait) : M unit :=
  for_each (nw_acceptedNodes wt) (λ node, Ctx.record_node node EventTypeNormal "NodeAccepted");;
  for_each (nw_rejectedNodes wt) (λ node, Ctx.record_node node EventTypeWarning "NodeRejected");;
  if bool_decide (length (nw_acceptedNodes wt) = 1) then
    for_each (nw_adoptedPods wt) (Ctx.adoptPod conf);;
    if negb (node_Unschedulable (nw_node wt)) then _ ← Ctx.enableNode (nw_node wt); mret tt else mret tt
  else _ ← on_cache_with (Ctx.cache_removeNode (nw_node wt)); mret tt.

(** The handler with nothing in between but the core's answers; it never returns
    when the wait group is not counted down. *)
Definition uninterrupted (node : Node) : M unit :=
  r ← begin_updateNode node;
  match r with
  | None => mret tt
  | Some wt =>
      answers ← ask (λ tr, node_answers tr (register_request node));
      wt ← must (wait_answers answers wt);
      if bool_decide (nw_wg wt = 0) then finish_updateNode wt else panic
  end.

(** ** Steps *)

(** What the informers pass on: pods whose UIDs stand for one pod. *)
Context (ident : string → Pod).

Definition begun (r : option Wait) (w' : World) (s : Registrations) : Registrations :=
  match r with
  | None => mkRegistrations w' (rg_txnID s) (rg_waiting s)
  | Some wt => mkRegistrations w' (S (rg_txnID s)) (<[S (rg_txnID s) := wt]> (rg_waiting s))
  end.

Inductive reg_step : Registrations → Registrations → Prop :=
  | reg_begin node s r w' :
      begin_updateNode node (rg_world s) = Some (r, w') → reg_step s (begun r w' s)
  | reg_answer ev s waiting :
      node_event ev (rg_waiting s) = Some waiting →
      reg_step s (mkRegistrations (rg_world s) (rg_txnID s) waiting)
  | reg_finish id wt s w' :
      rg_waiting s !! id = Some wt → nw_wg wt = 0 →
      finish_updateNode wt (rg_world s) = Some (tt, w') →
      reg_step s (mkRegistrations w' (rg_txnID s) (delete id (rg_waiting s)))
  | reg_other op s w' :
      waits op = false → op_ok (rg_world s) op → (∀ pod, op_pod op = Some pod → pod_known ident pod) →
      exec conf op (rg_world s) = Some (tt, w') →
      reg_step s (mkRegistrations w' (rg_txnID s) (rg_waiting s)).

(** From any state of the shim with the pods of the cluster. *)
Inductive reg_reachable : Registrations → Prop :=
  | reg_init w : shim_reachable conf w → pods_known ident w → reg_reachable (mkRegistrations w 0 ∅)
  | reg_next s s' : reg_reachable s → reg_step s s' → reg_reachable s'.

End Registration.

(** ** The wait group *)

(** The wait group counts the nodes without an answer: the one node of the
    request, or none. *)
Inductive wait_ok (wt : Wait) : Prop :=
  | wait_open :
      nw_pendingNodes wt = {[ node_Name (nw_node wt) := nw_node wt ]} →
      nw_acceptedNodes wt = [] → nw_rejectedNodes wt = [] → nw_wg wt = 1 → wait_ok wt
  | wait_accepted :
      nw_pendingNodes wt = ∅ → nw_acceptedNodes wt = [nw_node wt] → nw_rejectedNodes wt = [] → nw_wg wt = 0 → wait_ok wt
  | wait_rejected :
      nw_pendingNodes wt = ∅ → nw_acceptedNodes wt = [] → nw_rejectedNodes wt = [nw_node wt] → nw_wg wt = 0 → wait_ok wt.

(** What a handler hears first about its node. *)
Fixpoint verdict (name : string) (evs : list (string * SchedulerNodeEventType)) : option SchedulerNodeEventType :=
  match evs with
  | [] => None
  | (id, v) :: evs => if decide (id = name) then Some v else verdict name evs
  end.

Definition settled (v : SchedulerNodeEventType) (wt : Wait) : Wait :=
  let node := nw_node wt in
  match v with
  | NodeAccepted => mkWait node (nw_adoptedPods wt) ∅ [node] [] 0
  | NodeRejected => mkWait node (nw_adoptedPods wt) ∅ [] [node] 0
  end.

Lemma wait_answers_cons ev evs wt : wait_answers (ev :: evs) wt = wait_handler ev wt ≫= wait_answers evs.
Proof.
  unfold wait_answers. cbn [foldl mbind option_bind]. destruct (wait_handler ev wt) as [wt'|]; [done|].
  cbn. induction evs as [|e evs IH]; [done|]. exact IH.
Qed.

Lemma settled_ok v wt : wait_ok (settled v wt).
Proof. destruct v; [by apply wait_accepted|by apply wait_rejected]. Qed.

Lemma handler_done ev wt : nw_pendingNodes wt = ∅ → wait_handler ev wt = Some wt.
Proof. intros Hp. unfold wait_handler. by rewrite Hp, lookup_empty. Qed.

Lemma answers_done evs wt : nw_pendingNodes wt = ∅ → wait_answers evs wt = Some wt.
Proof.
  intros Hp. induction evs as [|ev evs IH]; [done|]. by rewrite wait_answers_cons, handler_done.
Qed.

(** One answer: for the node waited for, or for another one. *)
Lemma handler_open ev wt :
  wait_ok wt → nw_wg wt = 1 →
  wait_handler ev wt = Some (if decide (ev.1 = node_Name (nw_node wt)) then settled ev.2 wt else wt).
Proof.
  intros [Hp Ha Hr Hg|? ? ? Hg|? ? ? Hg] Hone; [|congruence..].
  unfold wait_handler. cbn [Ctx.nodeAnswer]. rewrite Hp, Ha, Hr, Hg. destruct ev as [id v]. cbn [fst snd].
  destruct (decide (id = node_Name (nw_node wt))) as [->|Hne].
  - rewrite lookup_singleton_eq, delete_singleton_eq. by destruct v.
  - by rewrite lookup_singleton_ne by done.
Qed.

Lemma wait_closed wt : wait_ok wt → nw_wg wt ≠ 1 → nw_wg wt = 0 ∧ nw_pendingNodes wt = ∅.
Proof. by intros [|? ? ? ?|? ? ? ?] ?. Qed.

Lemma handler_ok ev wt : wait_ok wt →
  ∃ wt', wait_handler ev wt = Some wt' ∧ wait_ok wt' ∧ nw_node wt' = nw_node wt ∧ nw_adoptedPods wt' = nw_adoptedPods wt.
Proof.
  intros Hok. destruct (decide (nw_wg wt = 1)) as [Hone|Hne].
  - rewrite handler_open by done. eexists. split; [done|].
    destruct (decide _); [|done]. split; [apply settled_ok|]. by destruct (ev.2).
  - destruct (wait_closed wt Hok Hne) as [_ Hp]. exists wt. by rewrite handler_done.
Qed.

(** The handler is released by the first answer for its node, and this answer
    alone decides: answers for other nodes, and further answers for its own, change
    nothing, and the wait group never goes below zero. *)
Lemma first_answer_decides evs wt :
  wait_ok wt → nw_wg wt = 1 →
  wait_answers evs wt =
    Some (match verdict (node_Name (nw_node wt)) evs with Some v => settled v wt | None => wt end).
Proof.
  intros Hok Hone. induction evs as [|[id v] evs IH]; [done|].
  rewrite wait_answers_cons, handler_open by done. cbn [mbind option_bind verdict fst snd].
  destruct (decide (id = node_Name (nw_node wt))); [|exact IH].
  rewrite answers_done; [done|]. by destruct v.
Qed.

(** The event handler keeps the same lists as the handler that runs in one step. *)
Definition collected (wt : Wait) : gmap string Node * list Node * list Node :=
  (nw_pendingNodes wt, nw_acceptedNodes wt, nw_rejectedNodes wt).

Lemma handler_collects ev wt wt' :
  wait_handler ev wt = Some wt' → collected wt' = Ctx.nodeAnswer (collected wt) ev.
Proof.
  unfold wait_handler, collected. cbn [Ctx.nodeAnswer]. destruct (nw_pendingNodes wt !! ev.1); [|by intros [= <-]].
  destruct (ev.2), (nw_wg wt); intros [= <-]; done.
Qed.

Lemma answers_collect evs wt : wait_ok wt →
  ∃ wt', wait_answers evs wt = Some wt' ∧ wait_ok wt' ∧ nw_node wt' = nw_node wt ∧
    nw_adoptedPods wt' = nw_adoptedPods wt ∧ collected wt' = foldl Ctx.nodeAnswer (collected wt) evs.
Proof.
  revert wt. induction evs as [|ev evs IH]; intros wt Hok; [by exists wt|].
  rewrite wait_answers_cons. destruct (handler_ok ev wt Hok) as (wt1 & E & Hok1 & Hn & Ha). rewrite E.
  cbn [mbind option_bind foldl]. rewrite <- (handler_collects _ _ _ E).
  destruct (IH wt1 Hok1) as (wt' & E' & Hok' & Hn' & Ha' & Hc). exists wt'. split_and!; congruence.
Qed.

Lemma all_answered wt : wait_ok wt → bool_decide (nw_wg wt = 0) = bool_decide (nw_pendingNodes wt = ∅).
Proof.
  intros [Hp _ _ -> | -> _ _ -> | -> _ _ ->]; [|done..]. rewrite Hp.
  rewrite !bool_decide_eq_false_2; [done| |done]. apply map_non_empty_singleton.
Qed.

Lemma new_wait_ok node adopted :
  wait_ok (mkWait node adopted {[ node_Name node := node ]} [] [] (size ({[ node_Name node := node ]} : gmap string Node))).
Proof. apply wait_open; try done. apply map_size_singleton. Qed.

Section Equivalence.
Context `{SC : SiConstants} `{QO : QuantityOps} `{NIO : NodeInfoOps} `{MO : MapOrder} `{TT : TerminationTypes}.
Context `{PH : PodHelpers} `{JO : JsonOps} `{TG : TaskGroupJson} `{EV : Env} `{FE : FsmEngine} `{RE : RetryEngine}.
Context (conf : ShimConf).

(** Without other operations in between, the two halves of the handler of a new
    node, with the wait group and the handler of node events between them, do what
    the handler does when it reads the core's answers in one step: duplicates and
    answers for other nodes do not count, and without an answer it never returns. *)
Theorem halves_make_the_handler node w :
  uninterrupted conf node w = Ctx.updateNodeInternal conf node true w.
Proof.
  unfold uninterrupted, begin_updateNode, Ctx.updateNodeInternal. rewrite !run_bind.
  destruct (on_cache_with (Ctx.cache_updateNode node) w) as [[[prev adopted] w1]|]; [|done].
  destruct prev as [prevNode|].
  { unfold update_known_node. cbv zeta. rewrite !run_bind.
    match goal with |- _ = ?rhs => by destruct rhs as [[[] ?]|] end. }
  unfold Ctx.registerNode, Ctx.registerNodes, Ctx.registerNodesInternal.
  rewrite !run_bind. cbn [ask]. rewrite !run_bind, !run_call. fold (register_request node).
  destruct (call_error _ _) as [e|].
  { rewrite !run_bind, !run_ret. rewrite !run_bind. by destruct (on_cache_with _ _) as [[]|]. }
  rewrite run_ret. cbv beta iota zeta. rewrite !run_bind. cbn [ask map foldl traced w_trace].
  set (wt := mkWait _ _ _ _ _ _). rewrite insert_empty. change (mkNodeRequest [Ctx.registration node]) with (register_request node).
  destruct (answers_collect (node_answers (w_trace w1 ++ [UpdateNode (register_request node)]) (register_request node)) wt)
    as (wt' & E & Hok & Hn & Ha & Hc); [apply new_wait_ok|].
  change ({[node_Name node := node]}, [], []) with (collected wt). rewrite <- Hc, E. cbn [must]. rewrite run_bind, run_ret.
  unfold collected. rewrite <- (all_answered wt' Hok). destruct (bool_decide _); [|done].
  unfold finish_updateNode. rewrite Hn, Ha. subst wt. cbn [nw_node nw_adoptedPods]. rewrite run_ret, !run_bind.
  destruct (for_each (nw_acceptedNodes wt') _ _) as [[[] w2]|]; [|done]. rewrite !run_bind.
  destruct (for_each (nw_rejectedNodes wt') _ _) as [[[] w3]|]; [|done]. rewrite run_ret.
  by destruct (bool_decide _).
Qed.

End Equivalence.

(** ** Other operations in between *)

Section Interleaved.
Context `{SC : SiConstants} `{QO : QuantityOps} `{NIO : NodeInfoOps} `{NIL : !NodeInfoLaws}.
Context `{MO : MapOrder} `{TT : TerminationTypes} `{PH : PodHelpers} `{JO : JsonOps}.
Context `{TG : TaskGroupJson} `{EV : Env} `{VL : !VolumeBinderLaws} `{CL : !CoreLaws}.
Context `{FE : FsmEngine} `{FL : !FsmLaws} `{RE : RetryEngine} `{RL : !RetryLaws} (conf : ShimConf).
Context (ident : string → Pod).

Local Abbreviation anything := (λ _ _, True).
#[local] Existing Instance keeps_known_preorder.

Definition adopted_ok (wt : Wait) : Prop := Forall (λ p, pod_known ident p ∧ tags_ok p) (nw_adoptedPods wt).

Lemma known_begin node : preserves (keeps_known ident) (begin_updateNode node).
Proof.
  unfold begin_updateNode, update_known_node.
  preserves_tac ltac:(first [apply known_updateNode | apply known_removeNode | apply known_updateNodeResources
    | apply known_updateNodeSchedulability | apply known_call]).
Qed.

Lemma safe_begin w node :
  world_ok w → pods_known ident w →
  safe w (begin_updateNode node) (λ r _, ∀ wt, r = Some wt → wait_ok wt ∧ adopted_ok wt).
Proof.
  intros Hw Hk. unfold begin_updateNode.
  eapply safe_bind; [by apply safe_cache_updateNode|]. intros [prev adopted] w1 Hw1 _ (_ & _ & Had).
  destruct prev as [prevNode|].
  - unfold update_known_node. cbv zeta. eapply (safe_bind _ _ _ anything); [|intros; by apply safe_ret].
    eapply (safe_bind _ _ _ anything).
    + destruct (negb _); [|by apply safe_ret]. eapply safe_bind; [by apply safe_call|]. intros. by apply safe_ret.
    + intros [] w2 Hw2 _ _. eapply (safe_bind _ _ _ anything); [|intros; by apply safe_ret].
      unfold Ctx.updateNodeSchedulability. destruct (bool_decide _); [by apply safe_ret|].
      eapply safe_weaken; [by apply safe_call|done].
  - eapply safe_bind; [by apply safe_call|]. intros [e|] w2 Hw2 _ _.
    + eapply safe_bind; [by apply safe_cache_removeNode|]. intros. by apply safe_ret.
    + apply safe_ret; [done|]. intros wt [= <-]. split; [apply new_wait_ok|].
      apply Forall_forall. intros p Hp. specialize (Had p Hp).
      destruct (wf_pod _ _ _ _ _ _ _ _ _ (proj1 (wo_cache w Hw)) _ _ Had) as (_ & Hne & _).
      split; [split; [done|by apply (pk_pods _ w Hk)]|by apply (wo_pods w Hw _ _ Had)].
Qed.

Lemma known_finish wt : adopted_ok wt → preserves (keeps_known ident) (finish_updateNode conf wt).
Proof.
  intros Had. unfold finish_updateNode.
  assert (Hadopt : preserves (keeps_known ident) (for_each (nw_adoptedPods wt) (Ctx.adoptPod conf))).
  { unfold adopted_ok in Had. induction Had as [|p pods [Hp _] _ IH]; cbn [for_each].
    - apply preserves_ret, _.
    - apply preserves_bind; [apply _|by apply known_adoptPod|done]. }
  preserves_tac ltac:(first [exact Hadopt | apply known_emit | apply known_enableNode | apply known_removeNode]).
Qed.

Lemma safe_adopt_known w pods :
  world_ok w → pods_known ident w → Forall (λ p, pod_known ident p ∧ tags_ok p) pods →
  safe w (for_each pods (Ctx.adoptPod conf)) anything.
Proof.
  intros Hw Hk Had. revert w Hw Hk. induction Had as [|p pods [Hp Ht] _ IH]; intros w Hw Hk; [by apply safe_ret|].
  cbn [for_each]. eapply safe_bind.
  - apply safe_keeps; [apply safe_adopt; [done|split; [by eapply known_valid|done]]|by apply known_adoptPod].
  - intros [] w1 Hw1 _ [_ Hk1]. by apply IH; [|apply Hk1].
Qed.

Lemma safe_finish w wt :
  world_ok w → pods_known ident w → adopted_ok wt → safe w (finish_updateNode conf wt) anything.
Proof.
  intros Hw Hk Had. unfold finish_updateNode.
  assert (Hrec : ∀ w l x y, world_ok w → pods_known ident w →
    safe w (for_each l (λ node, Ctx.record_node node x y)) (λ _ w', pods_known ident w')).
  { intros w0 l x y Hw0 Hk0. eapply safe_weaken.
    - apply safe_keeps; [apply emits_safe; [done|]|].
      + apply emits_for_each. intros. apply emits_emit.
      + apply known_keeps. by apply kcache_for_each_record.
    - intros [] w' _ _ [_ H]. by apply H. }
  eapply safe_bind; [by apply Hrec|]. intros [] w1 Hw1 _ Hk1.
  eapply safe_bind; [by apply Hrec|]. intros [] w2 Hw2 _ Hk2. destruct (bool_decide _).
  - eapply safe_bind; [by apply safe_adopt_known|]. intros [] w3 Hw3 _ _.
    destruct (negb _); [|by apply safe_ret]. eapply safe_bind; [by apply safe_call|]. intros. by apply safe_ret.
  - eapply safe_bind; [by apply safe_cache_removeNode|]. intros. by apply safe_ret.
Qed.

Record reg_ok (s : Registrations) : Prop := {
  ro_world : world_ok (rg_world s);
  ro_known : pods_known ident (rg_world s);
  ro_waiting : map_Forall (λ _ wt, wait_ok wt ∧ adopted_ok wt) (rg_waiting s)
}.

Lemma node_event_ok ev waiting :
  map_Forall (λ _ wt, wait_ok wt ∧ adopted_ok wt) waiting →
  ∃ waiting', node_event ev waiting = Some waiting' ∧
    map_Forall (λ _ wt, wait_ok wt ∧ adopted_ok wt) waiting' ∧
    ∀ id, waiting' !! id = waiting !! id ≫= wait_handler ev.
Proof.
  intros Hall. unfold node_event. rewrite decide_True.
  - eexists. split_and!; [done| |intros id; apply lookup_omap].
    intros id wt' Hid. rewrite lookup_omap in Hid. destruct (waiting !! id) as [wt|] eqn:Hw; [|done].
    destruct (Hall id wt Hw) as [Hok Had], (handler_ok ev wt Hok) as (wt1 & E & Hok1 & _ & Ha1).
    cbn [mbind option_bind] in Hid. rewrite E in Hid. injection Hid as <-. split; [done|].
    unfold adopted_ok. by rewrite Ha1.
  - intros id wt Hid. destruct (handler_ok ev wt) as (wt' & E & _); [apply (Hall id wt Hid)|]. by rewrite E.
Qed.

Lemma reg_step_ok s s' : reg_ok s → reg_step conf ident s s' → reg_ok s'.
Proof.
  intros [Hw Hk Hall] Hstep. destruct Hstep as [node s r w' E|ev s waiting E|id wt s w' Hid Hg E|op s w' Hop Hok Hp E].
  - destruct (safe_begin (rg_world s) node Hw Hk) as (r' & w1 & E' & Hw1 & _ & Hr).
    rewrite E in E'. injection E' as <- <-. pose proof (known_begin node _ _ _ E Hk) as Hk1.
    destruct r as [wt|]; split; try done. cbn [begun rg_waiting]. apply map_Forall_insert_2; auto.
  - destruct (node_event_ok ev (rg_waiting s) Hall) as (waiting' & E' & Hall' & _).
    rewrite E in E'. injection E' as <-. by split.
  - destruct (Hall id wt Hid) as [_ Had].
    destruct (safe_finish (rg_world s) wt Hw Hk Had) as ([] & w1 & E' & Hw1 & _).
    rewrite E in E'. injection E' as <-. split; [done|by apply (known_finish wt Had _ _ _ E)|].
    by apply map_Forall_delete.
  - destruct (safe_exec conf (rg_world s) op Hw Hok) as ([] & w1 & E' & Hw1 & _).
    rewrite E in E'. injection E' as <-. split; [done| |done]. by apply (known_exec conf ident op Hop Hp _ _ _ E).
Qed.

Lemma reg_reachable_ok s : reg_reachable conf ident s → reg_ok s.
Proof.
  induction 1 as [w Hw Hk|s s' _ IH Hstep]; [|by eapply reg_step_ok].
  split; [by apply (reachable_world_ok conf)|done|apply map_Forall_empty].
Qed.


(** No handler waits longer than for the first answer about its node, and the
    answer is the one it acts on. *)
Theorem answer_releases_the_handler s id wt v :
  reg_reachable conf ident s → rg_waiting s !! id = Some wt → nw_wg wt ≠ 0 →
  ∃ waiting, node_event (node_Name (nw_node wt), v) (rg_waiting s) = Some waiting ∧
    waiting !! id = Some (settled v wt) ∧ nw_wg (settled v wt) = 0.
Proof.
  intros [_ _ Hall]%reg_reachable_ok Hid Hg. destruct (Hall id wt Hid) as [Hok _].
  destruct (node_event_ok (node_Name (nw_node wt), v) (rg_waiting s) Hall) as (waiting & E & _ & Hl).
  exists waiting. split_and!; [done| |by destruct v]. rewrite Hl, Hid. cbn [mbind option_bind].
  destruct (decide (nw_wg wt = 1)) as [Hone|Hne]; [|by destruct (wait_closed wt Hok Hne)].
  rewrite handler_open by done. cbn [fst snd]. by rewrite decide_True.
Qed.

(** ** Runs *)

Inductive RegOp := RBegin (node : Node) | RAnswer (ev : string * SchedulerNodeEventType) | RFinish (id : nat) | ROther (op : ShimOp).

Definition reg_exec (o : RegOp) (s : Registrations) : option Registrations :=
  match o with
  | RBegin node => '(r, w') ← begin_updateNode node (rg_world s); Some (begun r w' s)
  | RAnswer ev => mkRegistrations (rg_world s) (rg_txnID s) <$> node_event ev (rg_waiting s)
  | RFinish id =>
      wt ← rg_waiting s !! id;
      if bool_decide (nw_wg wt = 0) then
        '(_, w') ← finish_updateNode conf wt (rg_world s);
        Some (mkRegistrations w' (rg_txnID s) (delete id (rg_waiting s)))
      else None
  | ROther op =>
      '(_, w') ← exec conf op (rg_world s); Some (mkRegistrations w' (rg_txnID s) (rg_waiting s))
  end.

Definition reg_op_ok (o : RegOp) (s : Registrations) : Prop :=
  match o with
  | ROther op => waits op = false ∧ op_ok (rg_world s) op ∧ ∀ pod, op_pod op = Some pod → pod_known ident pod
  | _ => True
  end.

Lemma reg_run o s s' :
  reg_reachable conf ident s → reg_op_ok o s → reg_exec o s = Some s' → reg_reachable conf ident s'.
Proof.
  intros Hr Hok E. eapply reg_next; [exact Hr|]. destruct o as [node|ev|id|op]; cbn [reg_exec reg_op_ok] in *.
  - destruct (begin_updateNode node _) as [[r w']|] eqn:Eb; [|done]. injection E as <-. by eapply reg_begin.
  - destruct (node_event ev _) as [waiting|] eqn:En; [|done]. injection E as <-. by eapply reg_answer.
  - destruct (rg_waiting s !! id) as [wt|] eqn:Hid; [|done]. cbn [mbind option_bind] in E.
    case_bool_decide; [|done]. destruct (finish_updateNode conf wt _) as [[[] w']|] eqn:Ef; [|done].
    injection E as <-. by eapply reg_finish.
  - destruct Hok as (Hw & Hop & Hp). destruct (exec conf op _) as [[[] w']|] eqn:Ee; [|done]. injection E as <-.
    by eapply reg_other.
Qed.

End Interleaved.

(** ** A pod that is deleted while its node is registered

    A pod of another scheduler runs on a node that the shim does not know yet. *)

Section Race.
#[local] Existing Instance si_constants_ref.

#[local] Instance json_race : JsonOps := {
  json_string_map := λ _, None;
  json_user_group := λ _, None
}.
#[local] Instance env_race : Env := env_with (λ _, None) [] [].
#[local] Instance env_race_volumes : VolumeBinderLaws.
Proof. by split. Qed.
#[local] Instance env_race_core : CoreLaws.
Proof. split. intros tr req n Hn. cbn. rewrite <- list_fmap_compose. by apply list_elem_of_fmap_2. Qed.

Definition race_ident (uid : string) : Pod := foreign_pod.

Definition orphaned : World :=
  match exec conf_ref (OUpdatePod None (ObjPod foreign_pod)) world_init with
  | Some (_, w) => w | None => world_init end.

Definition race_step (o : RegOp) (s : Registrations) : Registrations := default s (reg_exec conf_ref o s).

Definition race_begun : Registrations := race_step (RBegin (node_ref "n1")) (mkRegistrations orphaned 0 ∅).
Definition race_deleted : Registrations := race_step (ROther (ODeletePod (ObjPod foreign_pod))) race_begun.
Definition race_answered : Registrations := race_step (RAnswer ("n1", NodeAccepted)) race_deleted.
Definition race_finished : Registrations := race_step (RFinish 1) race_answered.

Definition cached_pod (s : Registrations) : bool := bool_decide (is_Some (GetPod (w_cache (rg_world s)) "uid-f")).

(** The allocations ([true]) and releases that the core hears of. *)
Definition core_hears (e : Effect) : list (bool * string) :=
  match e with
  | UpdateAllocation req =>
      map (λ a, (true, AllocationKey a)) (req_Allocations req) ++
      map (λ r, (false, rel_AllocationKey r)) (req_Releases req)
  | _ => []
  end.

Lemma race_pod_known : pod_known race_ident foreign_pod.
Proof. split; [done|apply same_identity_refl]. Qed.

Lemma orphaned_reachable : shim_reachable conf_ref orphaned ∧ pods_known race_ident orphaned.
Proof.
  assert (E : exec conf_ref (OUpdatePod None (ObjPod foreign_pod)) world_init = Some (tt, orphaned))
    by (vm_compute; reflexivity).
  split.
  - eapply (shim_step _ world_init); [apply shim_init| |exact E].
    intros pod [= <-]. apply cluster_pod_acceptable. by left.
  - eapply (known_exec conf_ref race_ident (OUpdatePod None (ObjPod foreign_pod))); [done| |exact E|].
    + intros pod [= <-]. apply race_pod_known.
    + split; [apply wf_new|]. intros k p. cbn [world_init w_cache NewSchedulerCache podsMap]. by rewrite lookup_empty.
Qed.

Lemma race_begun_reachable : reg_reachable conf_ref race_ident race_begun.
Proof.
  destruct orphaned_reachable as [Hr Hk].
  apply (reg_run _ _ (RBegin (node_ref "n1")) (mkRegistrations orphaned 0 ∅)); [by apply reg_init|exact I|].
  vm_compute. reflexivity.
Qed.

Lemma race_deleted_reachable : reg_reachable conf_ref race_ident race_deleted.
Proof.
  apply (reg_run _ _ (ROther (ODeletePod (ObjPod foreign_pod))) race_begun);
    [exact race_begun_reachable| |vm_compute; reflexivity].
  split; [exact eq_refl|]. split; intros pod [= <-]; [|exact race_pod_known].
  apply (known_valid race_ident); [|exact race_pod_known].
  apply (ro_known _ _ (reg_reachable_ok _ _ _ race_begun_reachable)).
Qed.

Lemma race_finished_reachable : reg_reachable conf_ref race_ident race_finished.
Proof.
  apply (reg_run _ _ (RFinish 1) race_answered); [|exact I|vm_compute; reflexivity].
  apply (reg_run _ _ (RAnswer ("n1", NodeAccepted)) race_deleted);
    [exact race_deleted_reachable|exact I|vm_compute; reflexivity].
Qed.

(** The handler adopts the pods that it found before it waited: a pod that was
    deleted in the meantime is put back into the cache, and the core is told to
    count it on the node after it was told that the pod is gone.  The deletion has
    been handled by then: no other event is due for the pod. *)
Example deleted_pod_is_adopted :
  reg_reachable conf_ref race_ident race_finished ∧
  map cached_pod [race_begun; race_deleted; race_answered; race_finished] = [true; false; false; true] ∧
  w_trace (rg_world race_finished) ≫= core_hears = [(false, "uid-f"); (true, "uid-f")].
Proof. split; [exact race_finished_reachable|]. split; vm_compute; reflexivity. Qed.


Lemma answer_releases_the_handler_witness :
  ∃ waiting, node_event ("n1", NodeRejected) (rg_waiting race_begun) = Some waiting ∧
    nw_rejectedNodes <$> waiting !! 1 = Some [node_ref "n1"].
Proof.
  destruct (answer_releases_the_handler conf_ref race_ident race_begun 1
    (mkWait (node_ref "n1") [foreign_pod] {[ "n1" := node_ref "n1" ]} [] [] 1) NodeRejected)
    as (waiting & E & Hid & _).
  - exact race_begun_reachable.
  - vm_compute. reflexivity.
  - discriminate.
  - exists waiting. split; [exact E|]. rewrite Hid. reflexivity.
Defined.

End Race.
