(* ===== verification/ApiFactory.v ===== *)
(** * The API factory: informers and their handlers

    pkg/client/apifactory.go and pkg/client/clients.go, and the registration of
    the context's handlers ([AddSchedulingEventHandlers] of pkg/cache/context.go).
    An informer notifies its handlers of objects added, updated and deleted; what
    a handler does is given as the calls of the context that it makes.  The
    handler types of client-go are parameters with their documented behaviour. *)

From S2P Require Import Prelude.
From S2P Require Import GoStrings.
From S2P Require Import K8sApi.
From S2P Require Import PodUtils.
From S2P Require Import ConfigMaps.
From S2P Require Import ShimContext.
From S2P Require Import ShimSafety.

(** ** Informers *)

Inductive InformerType :=
  | PodInformerHandlers | NodeInformerHandlers | ConfigMapInformerHandlers | PVInformerHandlers
  | PVCInformerHandlers | StorageInformerHandlers | CSINodeInformerHandlers
  | CSIDriverInformerHandlers | CSIStorageCapacityInformerHandlers | NamespaceInformerHandlers
  | PriorityClassInformerHandlers | ServiceInformerHandlers | ReplicationControllerInformerHandlers
  | ReplicaSetInformerHandlers | StatefulSetInformerHandlers | VolumeAttachmentInformerHandlers.

#[export] Instance InformerType_eq_dec : EqDecision InformerType.
Proof. solve_decision. Defined.

Definition informerTypes : list string :=
  ["Pod"; "Node"; "ConfigMap"; "PV"; "PVC"; "Storage"; "CSINode"; "CSIDriver"; "CSIStorageCapacity";
   "Namespace"; "PriorityClass"; "Service"; "ReplicationController"; "ReplicaSet"; "StatefulSet";
   "VolumeAttachment"].

Definition all_types : list InformerType :=
  [PodInformerHandlers; NodeInformerHandlers; ConfigMapInformerHandlers; PVInformerHandlers;
   PVCInformerHandlers; StorageInformerHandlers; CSINodeInformerHandlers; CSIDriverInformerHandlers;
   CSIStorageCapacityInformerHandlers; NamespaceInformerHandlers; PriorityClassInformerHandlers;
   ServiceInformerHandlers; ReplicationControllerInformerHandlers; ReplicaSetInformerHandlers;
   StatefulSetInformerHandlers; VolumeAttachmentInformerHandlers].

(** [Type.String]: the constants count from zero. *)
Definition type_String (t : InformerType) : option string :=
  '(i, _) ← list_find (t =.) all_types; informerTypes !! i.

(** [Clients.Run]: the goroutines it starts, in order. *)
Definition Clients_Run : list InformerType :=
  [ConfigMapInformerHandlers; CSIDriverInformerHandlers; CSINodeInformerHandlers;
   CSIStorageCapacityInformerHandlers; NamespaceInformerHandlers; NodeInformerHandlers;
   PodInformerHandlers; PriorityClassInformerHandlers; PVCInformerHandlers; PVInformerHandlers;
   ReplicaSetInformerHandlers; ReplicationControllerInformerHandlers; ServiceInformerHandlers;
   StatefulSetInformerHandlers; StorageInformerHandlers; VolumeAttachmentInformerHandlers].

Section Sync.
(** Whether an informer has synced, at each second. *)
Context (HasSynced : nat → InformerType → bool).

(** The condition of the loop. *)
Definition synced (now : nat) : bool :=
  HasSynced now ConfigMapInformerHandlers && HasSynced now CSIDriverInformerHandlers &&
  HasSynced now CSINodeInformerHandlers && HasSynced now CSIStorageCapacityInformerHandlers &&
  HasSynced now NamespaceInformerHandlers && HasSynced now NodeInformerHandlers &&
  HasSynced now PodInformerHandlers && HasSynced now PriorityClassInformerHandlers &&
  HasSynced now PVCInformerHandlers && HasSynced now PVInformerHandlers &&
  HasSynced now ReplicaSetInformerHandlers && HasSynced now ReplicationControllerInformerHandlers &&
  HasSynced now ServiceInformerHandlers && HasSynced now StatefulSetInformerHandlers &&
  HasSynced now StorageInformerHandlers && HasSynced now VolumeAttachmentInformerHandlers.

(** [Clients.WaitForSync]: the second at which it returns; it logs every ten
    seconds. *)
Fixpoint Clients_WaitForSync (fuel counter : nat) : option nat :=
  match fuel with
  | 0 => None
  | S fuel' => if synced counter then Some counter else Clients_WaitForSync fuel' (S counter)
  end.
End Sync.

(** ** Handlers *)

(** What client-go calls. *)
Record ResourceEventHandler (Obj Call : Type) := mkHandler {
  OnAdd : Obj → list Call;
  OnUpdate : Obj → Obj → list Call;
  OnDelete : Obj → list Call
}.
Arguments mkHandler {Obj Call}.
Arguments OnAdd {Obj Call}.
Arguments OnUpdate {Obj Call}.
Arguments OnDelete {Obj Call}.

(** [cache.ResourceEventHandlerFuncs] and [cache.FilteringResourceEventHandler]. *)
Class HandlerTypes := {
  HandlerFuncs {Obj Call} : (Obj → list Call) → (Obj → Obj → list Call) → (Obj → list Call) →
    ResourceEventHandler Obj Call;
  FilteringHandler {Obj Call} : (Obj → bool) → ResourceEventHandler Obj Call → ResourceEventHandler Obj Call
}.

(** Filtering is documented as: an object that starts to pass the filter on an
    update is an add, one that stops to pass it is a delete. *)
Class HandlerLaws `{HandlerTypes} : Prop := {
  funcs_add {Obj Call} a u d (x : Obj) : OnAdd (HandlerFuncs (Call:=Call) a u d) x = a x;
  funcs_update {Obj Call} a u d (x y : Obj) : OnUpdate (HandlerFuncs (Call:=Call) a u d) x y = u x y;
  funcs_delete {Obj Call} a u d (x : Obj) : OnDelete (HandlerFuncs (Call:=Call) a u d) x = d x;
  filter_add {Obj Call} f (h : ResourceEventHandler Obj Call) x :
    OnAdd (FilteringHandler f h) x = if f x then OnAdd h x else [];
  filter_update {Obj Call} f (h : ResourceEventHandler Obj Call) x y :
    OnUpdate (FilteringHandler f h) x y =
      match f y, f x with
      | true, true => OnUpdate h x y
      | true, false => OnAdd h y
      | false, true => OnDelete h x
      | false, false => []
      end;
  filter_delete {Obj Call} f (h : ResourceEventHandler Obj Call) x :
    OnDelete (FilteringHandler f h) x = if f x then OnDelete h x else []
}.

Section Factory.
Context `{HandlerTypes} {Obj Call : Type}.

Record ResourceEventHandlers := mkResourceEventHandlers {
  Type_ : InformerType;
  FilterFn : option (Obj → bool);
  AddFn : Obj → list Call;
  UpdateFn : Obj → Obj → list Call;
  DeleteFn : Obj → list Call
}.

(** The factory: whether its informers were started, whether its stop channel is
    closed, and the handlers each informer has. *)
Record APIFactory := mkAPIFactory {
  af_testMode : bool;
  af_started : list InformerType;
  af_stopped : bool;
  af_handlers : list (InformerType * ResourceEventHandler Obj Call)
}.

Definition NewAPIFactory (testMode : bool) : APIFactory := mkAPIFactory testMode [] false [].

(** The errors of [AddEventHandler] of the informers. *)
Context (informer_error : InformerType → option string).

Definition newline : string := String (Ascii.ascii_of_nat 10) EmptyString.

(** [errors.Join] separates the messages by newlines. *)
Definition errors_Join (errs : list string) : string := Join errs newline.

(** The informers that [addEventHandlers] knows. *)
Definition has_case (t : InformerType) : bool :=
  match t with
  | PodInformerHandlers | NodeInformerHandlers | ConfigMapInformerHandlers | StorageInformerHandlers
  | PVInformerHandlers | PVCInformerHandlers | PriorityClassInformerHandlers => true
  | _ => false
  end.

Definition addEventHandlers (handlerType : InformerType) (handler : ResourceEventHandler Obj Call)
    (s : APIFactory) : option string * APIFactory :=
  if has_case handlerType then
    match informer_error handlerType with
    | Some err => (Some (errors_Join ["failed to add event handlers: "; err]), s)
    | None => (None, mkAPIFactory (af_testMode s) (af_started s) (af_stopped s)
                       (af_handlers s ++ [(handlerType, handler)]))
    end
  else (None, s).

Definition AddEventHandler (handlers : ResourceEventHandlers) (s : APIFactory) : option string * APIFactory :=
  let fns := HandlerFuncs (AddFn handlers) (UpdateFn handlers) (DeleteFn handlers) in
  let h := match FilterFn handlers with
           | Some filterFn => FilteringHandler filterFn fns
           | None => fns
           end in
  match addEventHandlers (Type_ handlers) h s with
  | (Some err, s) => (Some (errors_Join ["failed to initialize event handlers: "; err]), s)
  | (None, s) => (None, s)
  end.

(** [Start] with the informers' progress; the second at which it returns. *)
Definition af_Start (HasSynced : nat → InformerType → bool) (fuel : nat) (s : APIFactory) :
    option (nat * APIFactory) :=
  if af_testMode s then Some (0, s)
  else
    now ← Clients_WaitForSync HasSynced fuel 0;
    Some (now, mkAPIFactory (af_testMode s) (af_started s ++ Clients_Run) (af_stopped s) (af_handlers s)).

Definition af_WaitForSync (HasSynced : nat → InformerType → bool) (fuel : nat) (s : APIFactory) : option nat :=
  if af_testMode s then Some 0 else Clients_WaitForSync HasSynced fuel 0.

(** Closing a closed channel panics. *)
Definition af_Stop (s : APIFactory) : option APIFactory :=
  if af_testMode s then Some s
  else if af_stopped s then None
  else Some (mkAPIFactory (af_testMode s) (af_started s) true (af_handlers s)).

(** ** Notifications *)

Inductive Notification := NAdd (obj : Obj) | NUpdate (old new : Obj) | NDelete (obj : Obj).

Definition handler_calls (h : ResourceEventHandler Obj Call) (n : Notification) : list Call :=
  match n with
  | NAdd obj => OnAdd h obj
  | NUpdate old new => OnUpdate h old new
  | NDelete obj => OnDelete h obj
  end.

(** The calls that a notification of an informer causes. *)
Definition notify (t : InformerType) (n : Notification) (s : APIFactory) : list Call :=
  filter (λ x, x.1 = t) (af_handlers s) ≫= λ x, handler_calls x.2 n.

End Factory.
Arguments ResourceEventHandlers : clear implicits.
Arguments APIFactory : clear implicits.
Arguments Notification : clear implicits.

(** ** The handlers of the context *)

Section Context.
Context `{HT : HandlerTypes} (namespace : string).
Context (informer_error : InformerType → option string).

(** The calls of the context's handlers: on the shim's state, or on its
    configuration. *)
Inductive ContextCall :=
  | ShimCall (op : ShimOp)
  | ConfigAdd (obj : InformerObject)
  | ConfigUpdate (newObj : InformerObject)
  | ConfigDelete (obj : InformerObject).

Definition configMapHandlers : ResourceEventHandlers InformerObject ContextCall :=
  mkResourceEventHandlers ConfigMapInformerHandlers (Some (filterConfigMaps namespace))
    (λ obj, [ConfigAdd obj]) (λ _ newObj, [ConfigUpdate newObj]) (λ obj, [ConfigDelete obj]).

Definition priorityClassHandlers : ResourceEventHandlers InformerObject ContextCall :=
  mkResourceEventHandlers PriorityClassInformerHandlers (Some Ctx.filterPriorityClasses)
    (λ obj, [ShimCall (OUpdatePriorityClass obj)]) (λ _ newObj, [ShimCall (OUpdatePriorityClass newObj)])
    (λ obj, [ShimCall (ODeletePriorityClass obj)]).

Definition nodeHandlers : ResourceEventHandlers InformerObject ContextCall :=
  mkResourceEventHandlers NodeInformerHandlers None
    (λ obj, [ShimCall (OUpdateNode obj)]) (λ _ obj, [ShimCall (OUpdateNode obj)])
    (λ obj, [ShimCall (ODeleteNode obj)]).

Definition podHandlers : ResourceEventHandlers InformerObject ContextCall :=
  mkResourceEventHandlers PodInformerHandlers None
    (λ obj, [ShimCall (OUpdatePod None obj)]) (λ old new, [ShimCall (OUpdatePod (Some old) new)])
    (λ obj, [ShimCall (ODeletePod obj)]).

(** Registers handlers until one fails. *)
Fixpoint addHandlers (l : list (ResourceEventHandlers InformerObject ContextCall))
    (s : APIFactory InformerObject ContextCall) : option string * APIFactory InformerObject ContextCall :=
  match l with
  | [] => (None, s)
  | h :: l' =>
      match AddEventHandler informer_error h s with
      | (Some err, s) => (Some err, s)
      | (None, s) => addHandlers l' s
      end
  end.

Definition AddSchedulingEventHandlers :
    APIFactory InformerObject ContextCall → option string * APIFactory InformerObject ContextCall :=
  addHandlers [configMapHandlers; priorityClassHandlers; nodeHandlers; podHandlers].

(** ** What reaches the context *)

(** A notification through a filter: an object that starts to pass it is new, and
    one that stops to pass it is gone. *)
Definition through (f : InformerObject → bool) (n : Notification InformerObject) :
    option (Notification InformerObject) :=
  match n with
  | NAdd obj => if f obj then Some n else None
  | NDelete obj => if f obj then Some n else None
  | NUpdate old new =>
      match f old, f new with
      | true, true => Some n
      | false, true => Some (NAdd new)
      | true, false => Some (NDelete old)
      | false, false => None
      end
  end.

(** The calls that a notification of an informer has to cause. *)
Definition expected_calls (t : InformerType) (n : Notification InformerObject) : list ContextCall :=
  match t with
  | PodInformerHandlers =>
      [ShimCall match n with NAdd o => OUpdatePod None o | NUpdate a b => OUpdatePod (Some a) b
                | NDelete o => ODeletePod o end]
  | NodeInformerHandlers =>
      [ShimCall match n with NAdd o | NUpdate _ o => OUpdateNode o | NDelete o => ODeleteNode o end]
  | PriorityClassInformerHandlers =>
      match through Ctx.filterPriorityClasses n with
      | Some (NAdd o) | Some (NUpdate _ o) => [ShimCall (OUpdatePriorityClass o)]
      | Some (NDelete o) => [ShimCall (ODeletePriorityClass o)]
      | None => []
      end
  | ConfigMapInformerHandlers =>
      match through (filterConfigMaps namespace) n with
      | Some (NAdd o) => [ConfigAdd o]
      | Some (NUpdate _ o) => [ConfigUpdate o]
      | Some (NDelete o) => [ConfigDelete o]
      | None => []
      end
  | _ => []
  end.

Context `{HL : !HandlerLaws}.

Lemma handlers_registered api s :
  af_handlers api = [] → AddSchedulingEventHandlers api = (None, s) → ∀ t n, notify t n s = expected_calls t n.
Proof.
  unfold AddSchedulingEventHandlers. cbn [addHandlers]. unfold AddEventHandler, addEventHandlers.
  cbn [Type_ configMapHandlers priorityClassHandlers nodeHandlers podHandlers has_case FilterFn].
  intros Hh. repeat (destruct (informer_error _); [done|]). intros [= <-] t n. unfold notify.
  cbn [af_handlers]. rewrite Hh.
  destruct t; cbn [filter list_filter decide fst app]; try reflexivity.
  all: simpl; rewrite ?app_nil_r; destruct n as [o|o o'|o]; cbn [handler_calls expected_calls through];
    rewrite ?filter_add, ?filter_update, ?filter_delete, ?funcs_add, ?funcs_update, ?funcs_delete; try reflexivity.
  all: repeat match goal with |- context [if ?b then _ else _] => destruct b end; reflexivity.
Qed.

(** The message of a registration that the informer of [t] refuses. *)
Definition handler_error (e : string) : string :=
  errors_Join ["failed to initialize event handlers: "; errors_Join ["failed to add event handlers: "; e]].

Lemma handlers_refused l api err s :
  Forall (λ h, has_case (Type_ h) = true) l → addHandlers l api = (Some err, s) →
  ∃ t e, has_case t = true ∧ informer_error t = Some e ∧ err = handler_error e.
Proof.
  revert api. induction l as [|h l IH]; intros api Hl; [done|]. apply Forall_cons in Hl as [Hc Hl].
  cbn [addHandlers]. unfold AddEventHandler, addEventHandlers. rewrite Hc.
  destruct (informer_error (Type_ h)) as [e|] eqn:E; [|by apply IH]. intros [= <- _]. by exists (Type_ h), e.
Qed.

(** Registering changes the handlers only. *)
Lemma added_keeps l api :
  let s := (addHandlers l api).2 in
  af_stopped s = af_stopped api ∧ af_testMode s = af_testMode api ∧ af_started s = af_started api.
Proof.
  revert api. induction l as [|h l IH]; intros api; [done|]. cbn [addHandlers].
  unfold AddEventHandler, addEventHandlers. destruct (has_case _); [|apply IH].
  destruct (informer_error _); [done|]. apply (IH (mkAPIFactory _ _ _ _)).
Qed.

(** C28: the informers drive the context. When the handlers are registered, every
    notification of the pod, node, priority class and config map informers causes
    exactly the call of the context it stands for, once, config maps and priority
    classes as far as they pass their filters, and no other informer calls
    anything; when one of the informers refuses its handler, the registration
    fails with the informer's error at the end of the message. *)
Theorem informers_drive_the_context api :
  af_handlers api = [] →
  match AddSchedulingEventHandlers api with
  | (None, s) => ∀ t n, notify t n s = expected_calls t n
  | (Some err, _) => ∃ t e, has_case t = true ∧ informer_error t = Some e ∧ err = handler_error e
  end.
Proof.
  intros Hh. destruct (AddSchedulingEventHandlers api) as [[err|] s] eqn:E.
  - eapply handlers_refused; [|exact E]. by repeat constructor.
  - by eapply handlers_registered.
Qed.

(** An informer that has no case: [AddEventHandler] reports success and the
    handlers are never called. *)
Theorem handlers_of_other_informers_are_ignored {Obj Call}
    (h : ResourceEventHandlers Obj Call) (s : APIFactory Obj Call) :
  has_case (Type_ h) = false → AddEventHandler informer_error h s = (None, s).
Proof. intros Hc. unfold AddEventHandler, addEventHandlers. by rewrite Hc. Qed.

End Context.

(** ** Syncing *)

(** Every informer is started, and waited for. *)
Lemma all_informers_run t : t ∈ Clients_Run.
Proof. destruct t; apply (bool_decide_unpack _); vm_compute; exact I. Qed.

Lemma synced_all HasSynced now : synced HasSynced now = true ↔ ∀ t, HasSynced now t = true.
Proof.
  unfold synced. rewrite !andb_true_iff. split; [|by intros Ht; rewrite !Ht].
  intros Ht. by destruct t; destruct_and! Ht.
Qed.

(** Waiting ends at the first second at which every informer has synced. *)
Theorem wait_for_sync_returns HasSynced n :
  (∀ t, HasSynced n t = true) → (∀ m, m < n → ∃ t, HasSynced m t = false) →
  ∀ fuel, n < fuel → Clients_WaitForSync HasSynced fuel 0 = Some n.
Proof.
  intros Hn Hm. enough (∀ fuel k, k <= n → n - k < fuel → Clients_WaitForSync HasSynced fuel k = Some n) as Hw.
  { intros fuel Hf. apply Hw; lia. }
  induction fuel as [|fuel IH]; intros k Hk Hf; [lia|]. cbn [Clients_WaitForSync].
  destruct (decide (k = n)) as [->|Hne].
  - by rewrite (proj2 (synced_all _ _)).
  - destruct (Hm k ltac:(lia)) as [t Ht]. destruct (synced HasSynced k) eqn:E; [|apply IH; lia].
    rewrite synced_all in E. congruence.
Qed.

(** ** Client-go's handlers *)

#[export] Instance handler_types_ref : HandlerTypes := {
  HandlerFuncs Obj Call a u d := mkHandler a u d;
  FilteringHandler Obj Call f h :=
    mkHandler (λ x, if f x then OnAdd h x else [])
      (λ x y, match f y, f x with
              | true, true => OnUpdate h x y
              | true, false => OnAdd h y
              | false, true => OnDelete h x
              | false, false => []
              end)
      (λ x, if f x then OnDelete h x else [])
}.

#[export] Instance handler_laws_ref : HandlerLaws.
Proof. by split. Qed.

(** A config map that is no longer one of the shim's counts as deleted. *)
Definition config_map (name : string) : InformerObject :=
  ObjConfigMap (mkConfigMap name "default" ∅ ∅).

Lemma informers_drive_the_context_witness :
  let s := (AddSchedulingEventHandlers "default" (λ _, None) (NewAPIFactory false)).2 in
  notify ConfigMapInformerHandlers (NUpdate (config_map "yunikorn-configs") (config_map "other")) s =
  [ConfigDelete (config_map "yunikorn-configs")].
Proof.
  pose proof (informers_drive_the_context "default" (λ _, None) (NewAPIFactory false) eq_refl) as Hd.
  destruct (AddSchedulingEventHandlers "default" (λ _, None) (NewAPIFactory false)) as [[e|] s] eqn:E;
    [by vm_compute in E|]. cbn [snd]. rewrite Hd. vm_compute. reflexivity.
Defined.
