(* ===== verification/MockProvider.v ===== *)
(** * The test doubles of the client package

    pkg/client/kubeclient_mock.go and pkg/client/apifactory_mock.go: a client that
    keeps pods in a map and counts bindings, and an API provider whose informers are
    driven by calls.  The provider's goroutine receives handlers and events on
    unbuffered channels: it is a step relation with the callers that block. *)

From S2P Require Import Prelude.
From S2P Require Import GoStrings.
From S2P Require Import K8sApi.
From S2P Require Import K8sInstances.
From S2P Require Import Resource.
From S2P Require Import PodUtils.
From S2P Require Import SiHelper.
From S2P Require Import ConfigMaps.
From S2P Require Import ShimContext.
From S2P Require Import ShimSafety.
From S2P Require Import ApiFactory.

(** ** The client *)

Record BindStats := mkBindStats {
  First : Z;
  Last : Z;
  FirstPod : string;
  LastPod : string;
  Success : Z;
  Errors : Z
}.

Record BoundPod := mkBoundPod { bp_Pod : string; bp_Host : string }.

(** Pods are shared by pointer between the callers and the client. *)
Abbreviation PodRef := nat.
Abbreviation PodHeap := (gmap PodRef Pod).

(** The function [Bind] calls: the one of [NewKubeClientMock], which counts in the
    client, or one that a test has set. *)
Inductive BindFn := DefaultBind (err : bool) | MockedBind (fn : Pod → string → option string).

(** A function on a pod may fail; it returns a pod also then. *)
Abbreviation PodFn := (PodRef → Pod → option PodRef * option string).

Record KubeClientMock := mkKubeClientMock {
  km_err : bool;                         (* captured by [updateFn], which cannot be replaced *)
  km_bindFn : BindFn;
  km_deleteFn : Pod → option string;
  km_createFn : PodFn;
  km_updateStatusFn : PodFn;
  km_getFn : string → option PodRef * option string;
  km_pods : gmap string PodRef;
  km_bindStats : BindStats;
  km_boundPods : list BoundPod
}.

Definition no_stats : BindStats := mkBindStats 0 0 "" "" 0 0.

Definition NewKubeClientMock (err : bool) : KubeClientMock :=
  mkKubeClientMock err (DefaultBind err)
    (λ pod, if err then Some "error deleting pod" else None)
    (λ r _, (Some r, if err then Some "error creating pod" else None))
    (λ r _, (Some r, if err then Some "error updating pod status" else None))
    (λ _, (None, if err then Some "error getting pod" else None))
    ∅ no_stats [].

Definition getPodKey (pod : Pod) : string := pod_Namespace pod +:+ "/" +:+ pod_Name pod.

Definition km_set_pods (f : gmap string PodRef → gmap string PodRef) (c : KubeClientMock) : KubeClientMock :=
  mkKubeClientMock (km_err c) (km_bindFn c) (km_deleteFn c) (km_createFn c) (km_updateStatusFn c) (km_getFn c)
    (f (km_pods c)) (km_bindStats c) (km_boundPods c).
Definition km_set_bindings (stats : BindStats) (bound : list BoundPod) (c : KubeClientMock) : KubeClientMock :=
  mkKubeClientMock (km_err c) (km_bindFn c) (km_deleteFn c) (km_createFn c) (km_updateStatusFn c) (km_getFn c)
    (km_pods c) stats bound.

Definition km_MockBindFn (fn : Pod → string → option string) (c : KubeClientMock) : KubeClientMock :=
  mkKubeClientMock (km_err c) (MockedBind fn) (km_deleteFn c) (km_createFn c) (km_updateStatusFn c) (km_getFn c)
    (km_pods c) (km_bindStats c) (km_boundPods c).
Definition km_MockDeleteFn (fn : Pod → option string) (c : KubeClientMock) : KubeClientMock :=
  mkKubeClientMock (km_err c) (km_bindFn c) fn (km_createFn c) (km_updateStatusFn c) (km_getFn c)
    (km_pods c) (km_bindStats c) (km_boundPods c).
Definition km_MockCreateFn (fn : PodFn) (c : KubeClientMock) : KubeClientMock :=
  mkKubeClientMock (km_err c) (km_bindFn c) (km_deleteFn c) fn (km_updateStatusFn c) (km_getFn c)
    (km_pods c) (km_bindStats c) (km_boundPods c).
Definition km_MockUpdateStatusFn (fn : PodFn) (c : KubeClientMock) : KubeClientMock :=
  mkKubeClientMock (km_err c) (km_bindFn c) (km_deleteFn c) (km_createFn c) fn (km_getFn c)
    (km_pods c) (km_bindStats c) (km_boundPods c).
Definition km_MockGetFn (fn : string → option PodRef * option string) (c : KubeClientMock) : KubeClientMock :=
  mkKubeClientMock (km_err c) (km_bindFn c) (km_deleteFn c) (km_createFn c) (km_updateStatusFn c) fn
    (km_pods c) (km_bindStats c) (km_boundPods c).

(** The function of [NewKubeClientMock] at the time [now]; the counters are
    [int64]. *)
Definition default_bind (err : bool) (now : Z) (pod : Pod) (hostID : string) (c : KubeClientMock) :
    option string * KubeClientMock :=
  let stats := km_bindStats c in
  if err then
    (Some "binding error",
     km_set_bindings (mkBindStats (First stats) (Last stats) (FirstPod stats) (LastPod stats) (Success stats)
                        (Errors stats +i64 1)%go) (km_boundPods c) c)
  else
    let first := bool_decide (FirstPod stats = "") in
    (None,
     km_set_bindings
       (mkBindStats (if first then now else First stats) now
          (if first then pod_Name pod else FirstPod stats) (pod_Name pod) (Success stats +i64 1)%go (Errors stats))
       (km_boundPods c ++ [mkBoundPod (pod_Name pod) hostID]) c).

Definition km_Bind (now : Z) (pod : Pod) (hostID : string) (c : KubeClientMock) : option string * KubeClientMock :=
  match km_bindFn c with
  | DefaultBind err => default_bind err now pod hostID c
  | MockedBind fn => (fn pod hostID, c)
  end.

(** [None]: a nil pod. *)
Definition km_Create (r : PodRef) (h : PodHeap) (c : KubeClientMock) :
    option ((option PodRef * option string) * KubeClientMock) :=
  pod ← h !! r;
  Some (km_createFn c r pod, km_set_pods (insert (getPodKey pod) r) c).

(** The mutator changes the caller's pod, which is also the pod in the map. *)
Definition km_UpdatePod (r : PodRef) (podMutator : Pod → Pod) (h : PodHeap) (c : KubeClientMock) :
    option ((option PodRef * option string) * PodHeap * KubeClientMock) :=
  pod ← h !! r;
  let c := km_set_pods (insert (getPodKey pod) r) c in
  if km_err c then Some ((Some r, Some "error updating pod"), h, c)
  else Some ((Some r, None), <[r := podMutator pod]> h, c).

Definition km_UpdateStatus (r : PodRef) (h : PodHeap) (c : KubeClientMock) :
    option ((option PodRef * option string) * KubeClientMock) :=
  pod ← h !! r;
  Some (km_updateStatusFn c r pod, km_set_pods (insert (getPodKey pod) r) c).

Definition km_Get (podNamespace podName : string) (c : KubeClientMock) : option PodRef * option string :=
  match km_pods c !! (podNamespace +:+ "/" +:+ podName) with
  | Some r => (Some r, None)
  | None => (None, Some ("pod not found: " +:+ podNamespace +:+ "/" +:+ podName))
  end.

Definition km_Delete (r : PodRef) (h : PodHeap) (c : KubeClientMock) : option (option string * KubeClientMock) :=
  pod ← h !! r;
  Some (km_deleteFn c pod, km_set_pods (delete (getPodKey pod)) c).

Definition km_GetConfigMap (namespace name : string) (c : KubeClientMock) : option ConfigMap * option string :=
  (None, None).
Definition km_GetBindStats (c : KubeClientMock) : BindStats := km_bindStats c.
Definition km_GetBoundPods (clear : bool) (c : KubeClientMock) : list BoundPod * KubeClientMock :=
  (km_boundPods c, if clear then km_set_bindings (km_bindStats c) [] c else c).

(** ** The core (pkg/common/test/schedulerapi_mock.go) *)

Record SchedulerAPIMock := mkSchedulerAPIMock {
  sm_registerCount : Z;
  sm_UpdateAllocationCount : Z;
  sm_UpdateApplicationCount : Z;
  sm_UpdateNodeCount : Z;
  sm_UpdateAllocationFn : AllocationRequest → option string;
  sm_UpdateApplicationFn : ApplicationRequest → option string;
  sm_UpdateNodeFn : NodeRequest → option string
}.

Definition NewSchedulerAPIMock : SchedulerAPIMock :=
  mkSchedulerAPIMock 0 0 0 0 (λ _, None) (λ _, None) (λ _, None).

(** A counter is an atomic [int32]. *)
Definition sm_UpdateAllocation (request : AllocationRequest) (a : SchedulerAPIMock) : option string * SchedulerAPIMock :=
  (sm_UpdateAllocationFn a request,
   mkSchedulerAPIMock (sm_registerCount a) (wrap32 (sm_UpdateAllocationCount a + 1)) (sm_UpdateApplicationCount a)
     (sm_UpdateNodeCount a) (sm_UpdateAllocationFn a) (sm_UpdateApplicationFn a) (sm_UpdateNodeFn a)).
Definition sm_UpdateApplication (request : ApplicationRequest) (a : SchedulerAPIMock) : option string * SchedulerAPIMock :=
  (sm_UpdateApplicationFn a request,
   mkSchedulerAPIMock (sm_registerCount a) (sm_UpdateAllocationCount a) (wrap32 (sm_UpdateApplicationCount a + 1))
     (sm_UpdateNodeCount a) (sm_UpdateAllocationFn a) (sm_UpdateApplicationFn a) (sm_UpdateNodeFn a)).
Definition sm_UpdateNode (request : NodeRequest) (a : SchedulerAPIMock) : option string * SchedulerAPIMock :=
  (sm_UpdateNodeFn a request,
   mkSchedulerAPIMock (sm_registerCount a) (sm_UpdateAllocationCount a) (sm_UpdateApplicationCount a)
     (wrap32 (sm_UpdateNodeCount a + 1)) (sm_UpdateAllocationFn a) (sm_UpdateApplicationFn a) (sm_UpdateNodeFn a)).
Definition sm_RegisterResourceManager (a : SchedulerAPIMock) : SchedulerAPIMock :=
  mkSchedulerAPIMock (wrap32 (sm_registerCount a + 1)) (sm_UpdateAllocationCount a) (sm_UpdateApplicationCount a)
    (sm_UpdateNodeCount a) (sm_UpdateAllocationFn a) (sm_UpdateApplicationFn a) (sm_UpdateNodeFn a).

(** ** The clients of the provider *)

(** The informers of kinds that the shim only lists through; a nil lister is
    [false]. *)
Inductive MockedInformerKind :=
  | MockedPersistentVolumeInformer | MockedPersistentVolumeClaimInformer | MockedStorageClassInformer
  | MockedCSINodeInformer | MockedCSIDriverInformer | MockedCSIStorageCapacityInformer | MockedServiceInformer
  | MockedReplicationControllerInformer | MockedReplicaSetInformer | MockedStatefulSetInformer.

Definition mocked_has_lister (k : MockedInformerKind) : bool :=
  match k with
  | MockedCSINodeInformer => true
  | MockedPersistentVolumeInformer | MockedPersistentVolumeClaimInformer | MockedStorageClassInformer
  | MockedCSIDriverInformer | MockedCSIStorageCapacityInformer | MockedServiceInformer
  | MockedReplicationControllerInformer | MockedReplicaSetInformer | MockedStatefulSetInformer => false
  end.

(** An object of the expected type, or one of another type that a test has put in
    its place. *)
Inductive Mocked (A : Type) := OfMock (a : A) | OtherImpl.
Arguments OfMock {A}.
Arguments OtherImpl {A}.

(** The listers of pods and nodes: the mock with what it lists, or another one. *)
Record MockedClients := mkMockedClients {
  mc_KubeClient : Mocked KubeClientMock;
  mc_SchedulerAPI : Mocked SchedulerAPIMock;
  mc_PodInformer : Mocked (Mocked (list Pod));
  mc_NodeInformer : Mocked (Mocked (list Node));
  mc_informers : list MockedInformerKind
}.

Definition new_clients (showError : bool) : MockedClients :=
  mkMockedClients (OfMock (NewKubeClientMock showError)) (OfMock NewSchedulerAPIMock)
    (OfMock (OfMock [])) (OfMock (OfMock []))
    [MockedPersistentVolumeInformer; MockedPersistentVolumeClaimInformer; MockedStorageClassInformer;
     MockedCSINodeInformer].

Definition on_kube (f : KubeClientMock → KubeClientMock) (c : MockedClients) : MockedClients :=
  match mc_KubeClient c with
  | OfMock m => mkMockedClients (OfMock (f m)) (mc_SchedulerAPI c) (mc_PodInformer c) (mc_NodeInformer c) (mc_informers c)
  | OtherImpl => c
  end.
Definition on_api (f : SchedulerAPIMock → SchedulerAPIMock) (c : MockedClients) : MockedClients :=
  match mc_SchedulerAPI c with
  | OfMock m => mkMockedClients (mc_KubeClient c) (OfMock (f m)) (mc_PodInformer c) (mc_NodeInformer c) (mc_informers c)
  | OtherImpl => c
  end.

(** The functions that a test can set. *)
Inductive MockSetter :=
  | MockSchedulerAPIUpdateAllocationFn (fn : AllocationRequest → option string)
  | MockSchedulerAPIUpdateApplicationFn (fn : ApplicationRequest → option string)
  | MockSchedulerAPIUpdateNodeFn (fn : NodeRequest → option string)
  | MockBindFn (fn : Pod → string → option string)
  | MockDeleteFn (fn : Pod → option string)
  | MockCreateFn (fn : PodFn)
  | MockUpdateStatusFn (fn : PodFn)
  | MockGetFn (fn : string → option PodRef * option string).

Definition mock_set (s : MockSetter) : MockedClients → MockedClients :=
  match s with
  | MockSchedulerAPIUpdateAllocationFn fn => on_api (λ a, mkSchedulerAPIMock (sm_registerCount a)
      (sm_UpdateAllocationCount a) (sm_UpdateApplicationCount a) (sm_UpdateNodeCount a)
      fn (sm_UpdateApplicationFn a) (sm_UpdateNodeFn a))
  | MockSchedulerAPIUpdateApplicationFn fn => on_api (λ a, mkSchedulerAPIMock (sm_registerCount a)
      (sm_UpdateAllocationCount a) (sm_UpdateApplicationCount a) (sm_UpdateNodeCount a)
      (sm_UpdateAllocationFn a) fn (sm_UpdateNodeFn a))
  | MockSchedulerAPIUpdateNodeFn fn => on_api (λ a, mkSchedulerAPIMock (sm_registerCount a)
      (sm_UpdateAllocationCount a) (sm_UpdateApplicationCount a) (sm_UpdateNodeCount a)
      (sm_UpdateAllocationFn a) (sm_UpdateApplicationFn a) fn)
  | MockBindFn fn => on_kube (km_MockBindFn fn)
  | MockDeleteFn fn => on_kube (km_MockDeleteFn fn)
  | MockCreateFn fn => on_kube (km_MockCreateFn fn)
  | MockUpdateStatusFn fn => on_kube (km_MockUpdateStatusFn fn)
  | MockGetFn fn => on_kube (km_MockGetFn fn)
  end.

(** The counters that a test can read; zero for another implementation. *)
Inductive MockCounter :=
  SchedulerAPIUpdateAllocation | SchedulerAPIUpdateApplication | SchedulerAPIUpdateNode | SchedulerAPIRegister.

Definition mock_count (k : MockCounter) (c : MockedClients) : Z :=
  match mc_SchedulerAPI c with
  | OfMock a =>
      match k with
      | SchedulerAPIUpdateAllocation => sm_UpdateAllocationCount a
      | SchedulerAPIUpdateApplication => sm_UpdateApplicationCount a
      | SchedulerAPIUpdateNode => sm_UpdateNodeCount a
      | SchedulerAPIRegister => sm_registerCount a
      end
  | OtherImpl => 0
  end.

Definition SetNodeLister (lister : Mocked (list Node)) (c : MockedClients) : MockedClients :=
  match mc_NodeInformer c with
  | OfMock _ => mkMockedClients (mc_KubeClient c) (mc_SchedulerAPI c) (mc_PodInformer c) (OfMock lister) (mc_informers c)
  | OtherImpl => c
  end.
Definition SetPodLister (lister : Mocked (list Pod)) (c : MockedClients) : MockedClients :=
  match mc_PodInformer c with
  | OfMock _ => mkMockedClients (mc_KubeClient c) (mc_SchedulerAPI c) (OfMock lister) (mc_NodeInformer c) (mc_informers c)
  | OtherImpl => c
  end.

(** The lister's mock, or nil. *)
Definition GetPodListerMock (c : MockedClients) : option (list Pod) :=
  match mc_PodInformer c with OfMock (OfMock l) => Some l | _ => None end.
Definition GetNodeListerMock (c : MockedClients) : option (list Node) :=
  match mc_NodeInformer c with OfMock (OfMock l) => Some l | _ => None end.

Definition GetPodBindStats (c : MockedClients) : option BindStats :=
  match mc_KubeClient c with OfMock m => Some (km_GetBindStats m) | OtherImpl => None end.

(** The assertion of the type is not checked: it panics. *)
Definition GetBoundPods (clear : bool) (c : MockedClients) : option (list BoundPod * MockedClients) :=
  match mc_KubeClient c with
  | OfMock m => Some ((km_GetBoundPods clear m).1, on_kube (λ m, (km_GetBoundPods clear m).2) c)
  | OtherImpl => None
  end.

(** ** The events of the provider *)

Inductive operation := Add_ | Update_ | Delete_.

Record informerEvent := mkInformerEvent {
  ie_handlerType : InformerType;
  ie_op : operation;
  ie_obj : InformerObject;
  ie_oldObj : option InformerObject
}.

(** What a test tells the informers. *)
Inductive MockCall :=
  | AddPod (obj : Pod) | UpdatePod (oldObj newObj : Pod) | DeletePod (obj : Pod)
  | AddNode (obj : Node) | DeleteNode (obj : Node) | UpdateNode (oldObj newObj : Node)
  | AddConfigMap (obj : ConfigMap) | DeleteConfigMap (obj : ConfigMap) | UpdateConfigMap (oldObj newObj : ConfigMap)
  | AddPriorityClass (obj : PriorityClass) | DeletePriorityClass (obj : PriorityClass)
  | UpdatePriorityClass (oldObj newObj : PriorityClass).

Definition mock_event (call : MockCall) : informerEvent :=
  match call with
  | AddPod obj => mkInformerEvent PodInformerHandlers Add_ (ObjPod obj) None
  | UpdatePod oldObj newObj => mkInformerEvent PodInformerHandlers Update_ (ObjPod newObj) (Some (ObjPod oldObj))
  | DeletePod obj => mkInformerEvent PodInformerHandlers Delete_ (ObjPod obj) None
  | AddNode obj => mkInformerEvent NodeInformerHandlers Add_ (ObjNode obj) None
  | DeleteNode obj => mkInformerEvent NodeInformerHandlers Delete_ (ObjNode obj) None
  | UpdateNode oldObj newObj => mkInformerEvent NodeInformerHandlers Update_ (ObjNode newObj) (Some (ObjNode oldObj))
  | AddConfigMap obj => mkInformerEvent ConfigMapInformerHandlers Add_ (ObjConfigMap obj) None
  | DeleteConfigMap obj => mkInformerEvent ConfigMapInformerHandlers Delete_ (ObjConfigMap obj) None
  | UpdateConfigMap oldObj newObj =>
      mkInformerEvent NodeInformerHandlers Update_ (ObjConfigMap newObj) (Some (ObjConfigMap oldObj))
  | AddPriorityClass obj => mkInformerEvent PriorityClassInformerHandlers Add_ (ObjPriorityClass obj) None
  | DeletePriorityClass obj => mkInformerEvent PriorityClassInformerHandlers Delete_ (ObjPriorityClass obj) None
  | UpdatePriorityClass oldObj newObj =>
      mkInformerEvent PriorityClassInformerHandlers Update_ (ObjPriorityClass newObj) (Some (ObjPriorityClass oldObj))
  end.

(** ** The goroutine of the provider *)

Section Provider.
Context `{HandlerTypes} {Call : Type}.

Abbreviation Handlers := (list (InformerType * ResourceEventHandler InformerObject Call)).

(** The state: the flag, whether the stop channel is closed, the handlers of each
    goroutine that runs (one per start), the caller that holds the lock and waits for
    a goroutine to receive its handlers, and the calls that the handlers have
    made. *)
Record MockedAPIProvider := mkMockedAPIProvider {
  mp_running : bool;
  mp_stopped : bool;
  mp_loops : list Handlers;
  mp_sending : option (ResourceEventHandlers InformerObject Call);
  mp_calls : list Call
}.

Definition NewMockedAPIProvider : MockedAPIProvider := mkMockedAPIProvider false false [] None [].

(** The handlers a goroutine adds to its map. *)
Definition mock_handler (handlers : ResourceEventHandlers InformerObject Call) :
    InformerType * ResourceEventHandler InformerObject Call :=
  let fns := HandlerFuncs (AddFn handlers) (UpdateFn handlers) (DeleteFn handlers) in
  (Type_ handlers,
   match FilterFn handlers with
   | Some filterFn => FilteringHandler filterFn fns
   | None => fns
   end).

(** An event: the handlers of its type, in the order in which they came.  A nil
    object is an object of no known type. *)
Definition mock_deliver (event : informerEvent) (eventHandlers : Handlers) : list Call :=
  let forType := filter (λ x, x.1 = ie_handlerType event) eventHandlers in
  match ie_op event with
  | Add_ => forType ≫= λ e, OnAdd e.2 (ie_obj event)
  | Delete_ => forType ≫= λ e, OnDelete e.2 (ie_obj event)
  | Update_ => forType ≫= λ e, OnUpdate e.2 (default ObjOther (ie_oldObj event)) (ie_obj event)
  end.

(** Steps of the callers and of the goroutines; a method needs the lock. *)
Inductive mock_step : MockedAPIProvider → MockedAPIProvider → Prop :=
  | ms_run m :
      mp_sending m = None → mp_running m = false →
      mock_step m (mkMockedAPIProvider true (mp_stopped m) (mp_loops m ++ [[]]) None (mp_calls m))
  | ms_run_again m :
      mp_sending m = None → mp_running m = true → mock_step m m
  | ms_add_handler h m :
      mp_sending m = None → mp_running m = true →
      mock_step m (mkMockedAPIProvider true (mp_stopped m) (mp_loops m) (Some h) (mp_calls m))
  | ms_receive_handler i l h m :
      mp_sending m = Some h → mp_loops m !! i = Some l →
      mock_step m (mkMockedAPIProvider (mp_running m) (mp_stopped m) (<[i := l ++ [mock_handler h]]> (mp_loops m))
                     None (mp_calls m))
  | ms_receive_event i l call m :
      mp_loops m !! i = Some l →
      mock_step m (mkMockedAPIProvider (mp_running m) (mp_stopped m) (mp_loops m) (mp_sending m)
                     (mp_calls m ++ mock_deliver (mock_event call) l))
  | ms_stop m :
      mp_sending m = None → mp_stopped m = false →
      mock_step m (mkMockedAPIProvider false true (mp_loops m) None (mp_calls m))
  | ms_exit i m :
      mp_stopped m = true → is_Some (mp_loops m !! i) →
      mock_step m (mkMockedAPIProvider (mp_running m) true (delete i (mp_loops m)) (mp_sending m) (mp_calls m)).

(** [AddEventHandler] of a provider that does not run. *)
Definition mock_AddEventHandler_error (m : MockedAPIProvider) : option string :=
  if mp_running m then None else Some "mocked API provider is not running".

(** [Stop] closes the stop channel: a second time it panics. *)
Definition mock_Stop (m : MockedAPIProvider) : option MockedAPIProvider :=
  if mp_stopped m then None else Some (mkMockedAPIProvider false true (mp_loops m) None (mp_calls m)).

(** ** What a provider delivers *)

(** Runs without [Stop]: the handlers that were registered, and the events that
    were sent, with the calls of each event. *)
Inductive mock_run : list (ResourceEventHandlers InformerObject Call) → MockedAPIProvider → Prop :=
  | mr_new : mock_run [] NewMockedAPIProvider
  | mr_step hs m m' : mock_run hs m → mock_step m m' → mp_stopped m' = false →
      mock_run (match mp_sending m, mp_sending m' with Some h, None => hs ++ [h] | _, _ => hs end) m'.

Lemma mock_run_state hs m :
  mock_run hs m →
  mp_stopped m = false ∧
  mp_loops m = (if mp_running m then [mock_handler <$> hs] else []) ∧
  (mp_running m = false → hs = [] ∧ mp_sending m = None).
Proof.
  induction 1 as [|hs m m' _ (Hs & Hl & Hr) Hstep Hs']; [done|].
  destruct Hstep as [m Hm Hrun|m Hm Hrun|h m Hm Hrun|i l h m Hm Hi|i l call m Hi|m Hm Hst|i m Hst _];
    cbn [mp_sending mp_stopped mp_loops mp_running] in *; try congruence.
  - rewrite Hm, Hl, Hrun. destruct (Hr Hrun) as [-> _]. done.
  - rewrite Hm. by rewrite Hl, Hrun.
  - rewrite Hm, Hl, Hrun. done.
  - rewrite Hm. destruct (mp_running m) eqn:Hrun; [|by rewrite Hl in Hi].
    split_and!; [done| |done]. rewrite Hl in *. destruct i as [|i]; [|done]. injection Hi as <-.
    cbn. by rewrite fmap_app.
  - by destruct (mp_sending m).
Qed.

End Provider.

(** What a call of a test stands for. *)
Definition mock_meaning (call : MockCall) : InformerType * Notification InformerObject :=
  match call with
  | AddPod p => (PodInformerHandlers, NAdd (ObjPod p))
  | UpdatePod p q => (PodInformerHandlers, NUpdate (ObjPod p) (ObjPod q))
  | DeletePod p => (PodInformerHandlers, NDelete (ObjPod p))
  | AddNode n => (NodeInformerHandlers, NAdd (ObjNode n))
  | DeleteNode n => (NodeInformerHandlers, NDelete (ObjNode n))
  | UpdateNode n k => (NodeInformerHandlers, NUpdate (ObjNode n) (ObjNode k))
  | AddConfigMap c => (ConfigMapInformerHandlers, NAdd (ObjConfigMap c))
  | DeleteConfigMap c => (ConfigMapInformerHandlers, NDelete (ObjConfigMap c))
  | UpdateConfigMap c d => (ConfigMapInformerHandlers, NUpdate (ObjConfigMap c) (ObjConfigMap d))
  | AddPriorityClass c => (PriorityClassInformerHandlers, NAdd (ObjPriorityClass c))
  | DeletePriorityClass c => (PriorityClassInformerHandlers, NDelete (ObjPriorityClass c))
  | UpdatePriorityClass c d => (PriorityClassInformerHandlers, NUpdate (ObjPriorityClass c) (ObjPriorityClass d))
  end.

Definition updates_config_map (call : MockCall) : bool :=
  match call with UpdateConfigMap _ _ => true | _ => false end.

Section Refinement.
Context `{HT : HandlerTypes} (informer_error : InformerType → option string).

Lemma factory_handlers (hs : list (ResourceEventHandlers InformerObject ContextCall)) api api' :
  Forall (λ h, has_case (Type_ h) = true) hs → addHandlers informer_error hs api = (None, api') →
  af_handlers api' = af_handlers api ++ (mock_handler <$> hs).
Proof.
  intros Hall. revert api. induction Hall as [|h hs Hc _ IH]; intros api; cbn [addHandlers].
  - intros [= <-]. by rewrite app_nil_r.
  - unfold AddEventHandler, addEventHandlers. rewrite Hc. destruct (informer_error _); [done|].
    intros E. rewrite (IH _ E). cbn [af_handlers fmap list_fmap]. by rewrite <- app_assoc.
Qed.

Lemma mock_deliver_notify hs call (api : APIFactory InformerObject ContextCall) :
  updates_config_map call = false → af_handlers api = mock_handler <$> hs →
  mock_deliver (mock_event call) (mock_handler <$> hs) = notify (mock_meaning call).1 (mock_meaning call).2 api.
Proof. intros Hc Hh. unfold notify. rewrite Hh. by destruct call. Qed.

(** C29: the provider of the tests stands for the factory of the shim: while it was not
    stopped, whatever was registered and sent before and in whatever order the
    goroutine received it, a call for a pod, a node, a priority class or a new or
    deleted config map makes the handlers do what the informers of the factory make
    them do. *)
Theorem mock_refines_the_factory hs m api i l call :
  mock_run hs m → mp_loops m !! i = Some l →
  Forall (λ h, has_case (Type_ h) = true) hs →
  addHandlers informer_error hs (NewAPIFactory true) = (None, api) →
  updates_config_map call = false →
  mock_deliver (mock_event call) l = notify (mock_meaning call).1 (mock_meaning call).2 api.
Proof.
  intros Hrun Hl Hall Hapi Hc. destruct (mock_run_state hs m Hrun) as (_ & Hloops & _).
  rewrite Hloops in Hl. destruct (mp_running m); [|done]. destruct i as [|i]; [|done]. injection Hl as <-.
  apply mock_deliver_notify; [done|]. apply (factory_handlers _ _ _ Hall Hapi).
Qed.

(** Updates of config maps go to the handlers of nodes. *)
Theorem config_map_updates_get_lost `{HL : !HandlerLaws} namespace old new :
  mock_deliver (mock_event (UpdateConfigMap old new))
    (mock_handler <$> [configMapHandlers namespace; priorityClassHandlers; nodeHandlers; podHandlers]) =
  [ShimCall (OUpdateNode (ObjConfigMap new))].
Proof.
  cbn [mock_event mock_deliver ie_op fmap list_fmap]. unfold mock_handler.
  cbn [Type_ FilterFn configMapHandlers priorityClassHandlers nodeHandlers podHandlers].
  cbn [filter list_filter decide fst app]. simpl. by rewrite funcs_update.
Qed.

End Refinement.

(** ** Stopping the provider *)

Section Stopped.
Context `{HT : HandlerTypes} {Call : Type}.

(** A caller that holds the lock of a provider whose goroutines are gone. *)
Definition hung (m : MockedAPIProvider (Call:=Call)) : Prop := is_Some (mp_sending m) ∧ mp_loops m = [].

Lemma hung_for_ever m : hung m → ∀ m', ¬ mock_step m m'.
Proof.
  intros [[h Hs] Hl] m' Hstep.
  destruct Hstep as [? Hm|? Hm|? ? Hm|i ? ? ? _ Hi|i ? ? ? Hi|? Hm|i ? _ [? Hi]];
    first [congruence | rewrite Hl in Hi; by destruct i].
Qed.

(** Steps one after another. *)
Inductive mock_steps : MockedAPIProvider (Call:=Call) → MockedAPIProvider → Prop :=
  | mss_nil m : mock_steps m m
  | mss_cons m1 m2 m3 : mock_step m1 m2 → mock_steps m2 m3 → mock_steps m1 m3.

(** A provider cannot be started again: the stop channel stays closed, so the new
    goroutine returns, and the next registration of handlers waits for ever with the
    lock held. *)
Theorem restarted_provider_hangs (h : ResourceEventHandlers InformerObject Call) :
  ∃ m, mock_steps NewMockedAPIProvider m ∧ hung m ∧ ∀ m', ¬ mock_step m m'.
Proof.
  set (m := mkMockedAPIProvider true true [] (Some h) ([] : list Call)).
  assert (Hm : hung m) by (by split; [exists h|]).
  exists m. split_and!; [|done|by apply hung_for_ever].
  eapply mss_cons; [by apply ms_run|]. eapply mss_cons; [by apply ms_stop|].
  eapply mss_cons; [by eapply (ms_exit 0)|]. eapply mss_cons; [by apply ms_run|].
  eapply mss_cons; [by eapply (ms_exit 0)|]. eapply mss_cons; [by apply (ms_add_handler h)|]. apply mss_nil.
Qed.

End Stopped.

(** ** What the client remembers *)

(** A pod that was created is there, also when the creation was reported as an
    error; one that was deleted is not. *)
Theorem mock_client_roundtrip r h c pod :
  h !! r = Some pod →
  (∃ res c', km_Create r h c = Some (res, c') ∧ km_Get (pod_Namespace pod) (pod_Name pod) c' = (Some r, None)) ∧
  (∃ err c', km_Delete r h c = Some (err, c') ∧ (km_Get (pod_Namespace pod) (pod_Name pod) c').1 = None).
Proof.
  intros Hr. split; unfold km_Create, km_Delete; rewrite Hr; cbn [mbind option_bind]; eexists _, _;
    (split; [done|]); unfold km_Get, km_set_pods, getPodKey; cbn [km_pods].
  - by rewrite lookup_insert_eq.
  - by rewrite lookup_delete_eq.
Qed.

(** An update is seen through every pointer to the pod, also the one in the
    client. *)
Theorem mock_update_is_shared r h c pod f res h' c' :
  h !! r = Some pod → km_err c = false → km_UpdatePod r f h c = Some (res, h', c') →
  res = (Some r, None) ∧ km_Get (pod_Namespace pod) (pod_Name pod) c' = (Some r, None) ∧ h' !! r = Some (f pod).
Proof.
  intros Hr He. unfold km_UpdatePod. rewrite Hr. cbn [mbind option_bind km_set_pods km_err]. rewrite He.
  intros [= <- <- <-]. unfold km_Get, getPodKey, km_set_pods. cbn [km_pods].
  by rewrite lookup_insert_eq, lookup_insert_eq.
Qed.

(** The function set by [MockGetFn] is never called. *)
Theorem mocked_get_is_ignored fn ns name c : km_Get ns name (km_MockGetFn fn c) = km_Get ns name c.
Proof. done. Qed.

(** One binding after another. *)
Definition binds (l : list (Z * Pod * string)) (c : KubeClientMock) : KubeClientMock :=
  foldl (λ c x, (km_Bind x.1.1 x.1.2 x.2 c).2) c l.

Definition bound_by (x : Z * Pod * string) : BoundPod := mkBoundPod (pod_Name x.1.2) x.2.

Lemma binds_snoc l x c : binds (l ++ [x]) c = (km_Bind x.1.1 x.1.2 x.2 (binds l c)).2.
Proof. unfold binds. by rewrite foldl_app. Qed.

Lemma binds_fn err l : km_bindFn (binds l (NewKubeClientMock err)) = DefaultBind err.
Proof.
  induction l as [|x l IH] using rev_ind; [done|]. rewrite binds_snoc. unfold km_Bind. rewrite IH.
  unfold default_bind. by destruct err.
Qed.

(** The client records every binding in order and counts it as a success, or, as a
    client of errors, counts the error and records nothing. *)
Theorem bindings_are_recorded err l :
  let c := binds l (NewKubeClientMock err) in
  let n := wrap64 (Z.of_nat (length l)) in
  if err then km_boundPods c = [] ∧ km_bindStats c = mkBindStats 0 0 "" "" 0 n
  else km_boundPods c = bound_by <$> l ∧ Success (km_bindStats c) = n ∧ Errors (km_bindStats c) = 0%Z ∧
    LastPod (km_bindStats c) = match last l with Some x => pod_Name x.1.2 | None => "" end.
Proof.
  cbv zeta. induction l as [|x l IH] using rev_ind; [by destruct err|].
  rewrite binds_snoc. unfold km_Bind. rewrite binds_fn. unfold default_bind.
  rewrite length_app, Nat2Z.inj_add. cbn [length].
  destruct err; cbn [snd km_set_bindings km_boundPods km_bindStats Success Errors LastPod].
  - destruct IH as [-> ->]. cbn. by rewrite wrap64_add_l.
  - destruct IH as (-> & -> & -> & _). rewrite last_snoc, fmap_app. cbn. by rewrite wrap64_add_l.
Qed.

(** ** A provider in use *)

Section Use.
Definition used_provider : MockedAPIProvider (Call:=ContextCall) :=
  mkMockedAPIProvider true false [[mock_handler (nodeHandlers)]] None [].

Lemma used_provider_run : mock_run [nodeHandlers] used_provider.
Proof.
  apply (mr_step [] (mkMockedAPIProvider true false [[]] (Some nodeHandlers) []) used_provider);
    [|by apply (ms_receive_handler 0 [] nodeHandlers (mkMockedAPIProvider true false [[]] (Some nodeHandlers) []))|done].
  apply (mr_step [] (mkMockedAPIProvider true false [[]] None []));
    [|by apply (ms_add_handler nodeHandlers (mkMockedAPIProvider true false [[]] None []))|done].
  apply (mr_step [] NewMockedAPIProvider); [apply mr_new|by apply (ms_run NewMockedAPIProvider)|done].
Qed.

(** A new node reaches the handler of the context. *)
Lemma mock_refines_the_factory_witness :
  mock_deliver (mock_event (AddNode (node_ref "n1"))) [mock_handler nodeHandlers] =
  [ShimCall (OUpdateNode (ObjNode (node_ref "n1")))].
Proof.
  rewrite (mock_refines_the_factory (λ _, None) [nodeHandlers] used_provider
    (addHandlers (λ _, None) [nodeHandlers] (NewAPIFactory true)).2 0 _ (AddNode (node_ref "n1"))).
  - reflexivity.
  - exact used_provider_run.
  - reflexivity.
  - repeat constructor.
  - reflexivity.
  - reflexivity.
Defined.

End Use.

(** ** The recorder of events: [recorder.go], [recorder_mock.go]

    [OnEventf] of the mock is a function of the test; the other methods of the mock do
    nothing.  A recorder of client-go takes the event. *)
Section Recorder.
Context {Test Event : Type}.

Inductive EventRecorder :=
  | MockedRecorder (OnEventf : Test → Test)
  | ClientRecorder.

Inductive RecorderCall := REvent | REventf (e : Event) | RAnnotatedEventf | RPastEventf.

Definition NewMockedRecorder : EventRecorder := MockedRecorder (λ t, t).

(** The global recorder, the state of the test and the events that were recorded. *)
Record Recording := mkRecording {
  rg_recorder : EventRecorder;
  rg_test : Test;
  rg_events : list Event
}.

(** [init] *)
Definition recorder_init (t : Test) : Recording := mkRecording NewMockedRecorder t [].

Definition GetRecorder (r : Recording) : EventRecorder := rg_recorder r.
Definition SetRecorder (recorder : EventRecorder) (r : Recording) : Recording :=
  mkRecording recorder (rg_test r) (rg_events r).

Definition recorder_call (r : Recording) (call : RecorderCall) : Recording :=
  match GetRecorder r, call with
  | MockedRecorder OnEventf, REventf _ => mkRecording (rg_recorder r) (OnEventf (rg_test r)) (rg_events r)
  | ClientRecorder, REventf e => mkRecording (rg_recorder r) (rg_test r) (rg_events r ++ [e])
  | _, _ => r
  end.

(** Events are recorded from the moment the recorder of client-go is set; those
    before it are dropped. *)
Theorem events_before_the_recorder_are_dropped t before after :
  rg_events (foldl recorder_call (SetRecorder ClientRecorder (foldl recorder_call (recorder_init t) before))
               (REventf <$> after)) = after ∧
  foldl recorder_call (recorder_init t) before = recorder_init t.
Proof.
  assert (foldl recorder_call (recorder_init t) before = recorder_init t) as E.
  { induction before as [|[] before IH]; [done|..]; exact IH. }
  rewrite E. split; [|done]. unfold SetRecorder, recorder_init. cbn [rg_test rg_events].
  change after with ([] ++ after) at 2. generalize (@nil Event) as l. clear E.
  induction after as [|e after IH]; intros l; [by rewrite app_nil_r|]. cbn. by rewrite IH, <- app_assoc.
Qed.
End Recorder.
