(* ===== verification/Sends.v ===== *)
(** * What the shim sends is well-formed

    The events that the shim puts on the dispatcher and the goroutines that it
    starts meet the preconditions of the code that handles them: a failure message
    of an application carries its reason, a binding is for a task that exists, and
    placeholders are created and cleaned up for an application that exists.  This
    closes the loop between the operations of the shim and the operations that
    they cause. *)

From S2P Require Import Prelude.
From S2P Require Import GoStrings.
From S2P Require Import K8sApi.
From S2P Require Import Constants.
From S2P Require Import Resource.
From S2P Require Import PodUtils.
From S2P Require Import SiHelper.
From S2P Require Import TaskGroups.
From S2P Require Import SchedulerCache.
From S2P Require Import World.
From S2P Require Import Logic.
From S2P Require Import Fsm.
From S2P Require Import ContextPods.
From S2P Require Import Task.
From S2P Require Import Application.
From S2P Require Import PlaceholderManager.
From S2P Require Import ShimContext.
From S2P Require Import SchedulerCallback.
From S2P Require Import SafetyTasks.

Definition effect_ok (w : World) (e : Effect) : Prop :=
  match e with
  | Dispatch (DApp _ ev) => app_event_ok ev
  | GoBind t _ _ _ _ => has_task w t
  | GoCreatePlaceholders a | GoCleanUp a => has_app w a
  | _ => True
  end.

(** No object disappears, and what was sent in between is well-formed. *)
Record sends (w w' : World) : Prop := {
  se_tasks t : has_task w t → has_task w' t;
  se_apps a : has_app w a → has_app w' a;
  se_trace : ∃ l, w_trace w' = w_trace w ++ l ∧ Forall (effect_ok w') l
}.

Lemma effect_ok_mono w w' e :
  (∀ t, has_task w t → has_task w' t) → (∀ a, has_app w a → has_app w' a) →
  effect_ok w e → effect_ok w' e.
Proof. intros Ht Ha. destruct e as [[]| | | | | | | | | | | | | | | |]; cbn; auto. Qed.

#[export] Instance sends_preorder : PreOrder sends.
Proof.
  split.
  - intros w. split; [done..|]. exists []. by rewrite app_nil_r.
  - intros w1 w2 w3 [T1 A1 (l1 & E1 & F1)] [T2 A2 (l2 & E2 & F2)]. split; [auto..|].
    exists (l1 ++ l2). rewrite E2, E1, <- app_assoc. split; [done|]. apply Forall_app. split; [|done].
    eapply Forall_impl; [exact F1|]. intros e. by apply effect_ok_mono.
Qed.

Create HintDb sends.

(** ** Primitives *)

Lemma sends_traced w l : Forall (effect_ok w) l → sends w (traced w l).
Proof.
  intros Hl. split; [done..|]. exists l. split; [done|]. eapply Forall_impl; [exact Hl|].
  intros e. by apply effect_ok_mono.
Qed.

Lemma sends_emit_at w e : effect_ok w e → sends w (traced w [e]).
Proof. intros He. apply sends_traced. by repeat constructor. Qed.

Lemma sends_emit e : (∀ w, effect_ok w e) → preserves sends (emit e).
Proof. intros He w a w' [= _ <-]. by apply sends_emit_at. Qed.
Lemma sends_call `{Env} e : (∀ w, effect_ok w e) → preserves sends (call e).
Proof. intros He w a w' [= _ <-]. by apply sends_emit_at. Qed.
Lemma sends_record p x y z : preserves sends (record p x y z).
Proof. by apply sends_emit. Qed.
Lemma sends_dispatch ev : (∀ w, effect_ok w (Dispatch ev)) → preserves sends (dispatch ev).
Proof. apply sends_emit. Qed.

(** Assignments only add objects. *)
Lemma sends_same_trace w w' :
  w_trace w' = w_trace w → (∀ t, has_task w t → has_task w' t) → (∀ a, has_app w a → has_app w' a) → sends w w'.
Proof. intros Ht ? ?. split; [done..|]. exists []. by rewrite Ht, app_nil_r. Qed.

Lemma has_insert {A} (m : gmap nat A) i x k : is_Some (m !! k) → is_Some (<[i := x]> m !! k).
Proof. intros Hk. apply lookup_insert_is_Some. destruct (decide (i = k)); auto. Qed.

Lemma sends_put_task t o : preserves sends (put_task t o).
Proof. intros w a w' [= _ <-]. apply sends_same_trace; [done| |done]. intros k. apply has_insert. Qed.
Lemma sends_put_app a o : preserves sends (put_app a o).
Proof. intros w x w' [= _ <-]. apply sends_same_trace; [done..|]. intros k. apply has_insert. Qed.
Lemma sends_put_applications m : preserves sends (put_applications m).
Proof. intros w x w' [= _ <-]. by apply sends_same_trace. Qed.
Lemma sends_upd_task t f : preserves sends (upd_task t f).
Proof. unfold upd_task. preserves_tac ltac:(apply sends_put_task). Qed.
Lemma sends_upd_app a f : preserves sends (upd_app a f).
Proof. unfold upd_app. preserves_tac ltac:(apply sends_put_app). Qed.
Lemma sends_alloc_task o : preserves sends (alloc_task o).
Proof. intros w a w' [= _ <-]. apply sends_same_trace; [done| |done]. intros k. apply has_insert. Qed.
Lemma sends_alloc_app o : preserves sends (alloc_app o).
Proof. intros w a w' [= _ <-]. apply sends_same_trace; [done..|]. intros k. apply has_insert. Qed.
Lemma sends_on_cache f : preserves sends (on_cache f).
Proof. intros w a w' E. unfold on_cache in E. destruct (f _); [|done]. injection E as _ <-. by apply sends_same_trace. Qed.
Lemma sends_on_cache_with {B} (f : SchedulerCache → option (SchedulerCache * B)) : preserves sends (on_cache_with f).
Proof.
  intros w a w' E. unfold on_cache_with in E. destruct (f _) as [[]|]; [|done]. injection E as _ <-.
  by apply sends_same_trace.
Qed.

Lemma sends_panic {A} : preserves sends (panic : M A).
Proof. done. Qed.

#[export] Hint Resolve sends_panic sends_record sends_put_task sends_put_app sends_put_applications sends_upd_task
  sends_upd_app sends_alloc_task sends_alloc_app sends_on_cache sends_on_cache_with : sends.

(** Events other than failures of applications are well-formed as they are. *)
#[export] Hint Extern 1 (preserves sends (call _)) => apply sends_call; intros ?; exact I : sends.
#[export] Hint Extern 1 (preserves sends (emit _)) => apply sends_emit; intros ?; exact I : sends.
#[export] Hint Extern 1 (preserves sends (dispatch _)) =>
  apply sends_dispatch; intros ?; first [exact I | cbn; unfold app_event_ok; cbn; discriminate] : sends.

Ltac sends_tac := preserves_tac ltac:(solve [auto with sends]).

(** The core's errors on new applications can be reported: a rejection carries its
    reason. *)
Class CoreMessages `{Env} : Prop := {
  core_error_ok tr req msg : call_error tr (UpdateApplication req) = Some msg → fail_message_ok msg
}.

Section Sends.
Context `{SC : SiConstants} `{QO : QuantityOps} `{NIO : NodeInfoOps} `{MO : MapOrder} `{TT : TerminationTypes}.
Context `{PH : PodHelpers} `{JO : JsonOps} `{TG : TaskGroupJson} `{EV : Env} `{CM : !CoreMessages}.
Context `{FE : FsmEngine} `{FL : !FsmLaws} `{RE : RetryEngine} `{RL : !RetryLaws} (conf : ShimConf).

(** ** Pods and volumes *)

Lemma sends_bindPodVolumes pod : preserves sends (bindPodVolumes pod).
Proof. unfold bindPodVolumes. sends_tac. Qed.
Lemma sends_AssumePod name node : preserves sends (AssumePod name node).
Proof. unfold AssumePod. sends_tac. Qed.
Lemma sends_ForgetPod name : preserves sends (ForgetPod name).
Proof. unfold ForgetPod. sends_tac. Qed.
Lemma sends_Revert name node : preserves sends (RevertPodVolumeAssumptions name node).
Proof. unfold RevertPodVolumeAssumptions. sends_tac. Qed.
Lemma sends_IsPreemptSelfAllowed name : preserves sends (IsPreemptSelfAllowed name).
Proof. unfold IsPreemptSelfAllowed. sends_tac. Qed.
Lemma sends_getApplication appID : preserves sends (getApplication appID).
Proof. unfold getApplication. sends_tac. Qed.
Lemma sends_removeApplication appID : preserves sends (removeApplication appID).
Proof. unfold removeApplication. sends_tac. Qed.
Hint Resolve sends_bindPodVolumes sends_AssumePod sends_ForgetPod sends_Revert sends_IsPreemptSelfAllowed
  sends_getApplication sends_removeApplication : sends.
Lemma sends_getTask appID taskID : preserves sends (getTask appID taskID).
Proof. unfold getTask. sends_tac. Qed.
Lemma sends_notifyTaskComplete app taskID : preserves sends (notifyTaskComplete app taskID).
Proof. unfold notifyTaskComplete. sends_tac. Qed.
Hint Resolve sends_getTask sends_notifyTaskComplete : sends.

(** ** Tasks *)

Lemma sends_has_task_id l taskID : preserves sends (has_task_id l taskID).
Proof. induction l; cbn [has_task_id]; sends_tac. Qed.
Hint Resolve sends_has_task_id : sends.
Lemma sends_tryAddReleasableTask a t : preserves sends (tryAddReleasableTask a t).
Proof. unfold tryAddReleasableTask. sends_tac. Qed.
Hint Resolve sends_tryAddReleasableTask : sends.
Lemma sends_NewFromTaskMeta tid app meta orig : preserves sends (NewFromTaskMeta tid app meta orig).
Proof. unfold NewFromTaskMeta, createTaskInternal. sends_tac. Qed.
Lemma sends_DeleteTaskPod t : preserves sends (DeleteTaskPod t).
Proof. unfold DeleteTaskPod. sends_tac. Qed.
Lemma sends_UpdateTaskPodStatus pod : preserves sends (UpdateTaskPodStatus pod).
Proof. unfold UpdateTaskPodStatus. sends_tac. Qed.
Lemma sends_updateAllocation t : preserves sends (updateAllocation t).
Proof. unfold updateAllocation, isPreemptSelfAllowed. sends_tac. Qed.
Hint Resolve sends_NewFromTaskMeta sends_DeleteTaskPod sends_UpdateTaskPodStatus sends_updateAllocation : sends.
Lemma sends_MarkPreviouslyAllocated t key node : preserves sends (MarkPreviouslyAllocated t key node).
Proof. unfold MarkPreviouslyAllocated, setAllocationKey. sends_tac. Qed.
Lemma sends_handleSubmitTaskEvent t : preserves sends (handleSubmitTaskEvent conf t).
Proof. unfold handleSubmitTaskEvent, SetTaskSchedulingState. sends_tac. Qed.
Lemma sends_releaseAllocation t force : preserves sends (releaseAllocation t force).
Proof. unfold releaseAllocation, shouldAppRelease. sends_tac. Qed.
Hint Resolve sends_MarkPreviouslyAllocated sends_handleSubmitTaskEvent sends_releaseAllocation : sends.

(** The goroutine is started for the task at hand. *)
Lemma sends_postTaskAllocated t : preserves sends (postTaskAllocated t).
Proof.
  intros w a w' E. unfold postTaskAllocated in E. rewrite run_bind in E. unfold get_task in E.
  destruct (w_tasks w !! t) as [o|] eqn:Ho; [|done]. injection E as _ <-. apply sends_emit_at. by exists o.
Qed.
Hint Resolve sends_postTaskAllocated : sends.

Lemma sends_task_before t args src ev : preserves sends (task_before t args src ev).
Proof. unfold task_before, beforeTaskFail, beforeTaskAllocated, beforeTaskCompleted, setAllocationKey. sends_tac. Qed.
Lemma sends_task_enter t s : preserves sends (task_enter t s).
Proof. unfold task_enter, postTaskPending, postTaskRejected, postTaskBound. sends_tac. Qed.
Lemma sends_task_after t ev : preserves sends (task_after conf t ev).
Proof. unfold task_after. sends_tac. Qed.
Hint Resolve sends_task_before sends_task_enter sends_task_after : sends.

Lemma sends_task_handle t ev : preserves sends (task_handle conf t ev).
Proof.
  unfold task_handle. apply preserves_bind; [tc_solve| |intros [e|]; [destruct (is_no_transition e)|]; sends_tac].
  intros w a w' E. rewrite fsm_Event_spec in E. revert w a w' E.
  change (preserves sends (fsm_run eventDesc (task_machine conf t (task_event_args ev)) (task_event ev))).
  unfold fsm_run, task_machine. cbn [m_Current m_before m_after m_enter m_SetState]. sends_tac.
Qed.
Lemma sends_task_canHandle t ev : preserves sends (task_canHandle t ev).
Proof. unfold task_canHandle. sends_tac. Qed.
Hint Resolve sends_task_handle sends_task_canHandle : sends.

Lemma sends_checkVolumes ns volumes : preserves sends (checkVolumes ns volumes).
Proof. induction volumes; cbn [checkVolumes]; sends_tac. Qed.
Hint Resolve sends_checkVolumes : sends.
Lemma sends_sanityCheck t : preserves sends (sanityCheckBeforeScheduling t).
Proof. unfold sanityCheckBeforeScheduling, checkPodPVCs. sends_tac. Qed.
Lemma sends_checkPodMetadata t : preserves sends (checkPodMetadataBeforeScheduling conf t).
Proof. unfold checkPodMetadataBeforeScheduling, logIgnoredPodMetadata. sends_tac. Qed.
Lemma sends_UpdatePodCondition t c : preserves sends (UpdatePodCondition t c).
Proof. unfold UpdatePodCondition. sends_tac. Qed.
Lemma sends_failWithEvent t x y : preserves sends (failWithEvent t x y).
Proof. unfold failWithEvent. sends_tac. Qed.
Lemma sends_rollbackAllocation pod appID p key node reason :
  preserves sends (rollbackAllocation pod appID p key node reason).
Proof. unfold rollbackAllocation. sends_tac. Qed.
Hint Resolve sends_sanityCheck sends_checkPodMetadata sends_UpdatePodCondition sends_failWithEvent
  sends_rollbackAllocation : sends.
Lemma sends_rollbackOnAssume t key node : preserves sends (rollbackOnAssumePodFailure t key node).
Proof. unfold rollbackOnAssumePodFailure. sends_tac. Qed.
Lemma sends_reschedule t key node reason : preserves sends (rescheduleOnBindFailure t key node reason).
Proof. unfold rescheduleOnBindFailure. sends_tac. Qed.

Lemma sends_retry b retriable fn : preserves sends fn → preserves sends (retry_OnError b retriable fn).
Proof.
  intros Hfn. assert (Hr : ∀ n waits, preserves sends (retry_run n waits retriable fn)).
  { induction n as [|n IH]; intros waits; cbn [retry_run]; sends_tac. }
  intros w a w' E. rewrite retry_OnError_spec in E. by apply Hr in E.
Qed.
Hint Resolve sends_rollbackOnAssume sends_reschedule sends_retry : sends.

Lemma sends_bindTask t pod alias node key : preserves sends (bindTask t pod alias node key).
Proof. unfold bindTask. sends_tac. Qed.
Hint Resolve sends_bindTask : sends.

(** ** Applications *)

Lemma fail_event_ok w appID msg : fail_message_ok msg → effect_ok w (Dispatch (DApp appID (FailApplicationEvent msg))).
Proof. intros Hm. cbn. intros _ m. cbn. by intros [= <-]. Qed.

Lemma sends_load_tasks l : preserves sends (load_tasks l).
Proof. induction l; cbn [load_tasks]; sends_tac. Qed.
Hint Resolve sends_load_tasks : sends.
Lemma sends_all_tasks a : preserves sends (all_tasks a).
Proof. unfold all_tasks. sends_tac. Qed.
Hint Resolve sends_all_tasks : sends.
Lemma sends_getTasks a s : preserves sends (getTasks a s).
Proof. unfold getTasks. sends_tac. Qed.
Lemma sends_getPlaceHolderTasks a : preserves sends (getPlaceHolderTasks a).
Proof. unfold getPlaceHolderTasks. sends_tac. Qed.
Lemma sends_AreAllTasksTerminated a : preserves sends (AreAllTasksTerminated a).
Proof. unfold AreAllTasksTerminated, getNonTerminatedTaskAlias. sends_tac. Qed.
Lemma sends_removeCompletedTasks a : preserves sends (removeCompletedTasks a).
Proof. unfold removeCompletedTasks, removeTask. sends_tac. Qed.
Lemma sends_record_originating a x y z : preserves sends (record_originating a x y z).
Proof. unfold record_originating. sends_tac. Qed.
Hint Resolve sends_getTasks sends_getPlaceHolderTasks sends_AreAllTasksTerminated sends_removeCompletedTasks
  sends_record_originating : sends.

Lemma sends_handleSubmit a : preserves sends (handleSubmitApplicationEvent a).
Proof.
  unfold handleSubmitApplicationEvent. apply preserves_bind; [tc_solve|sends_tac|]. intros app w r w' E.
  rewrite run_bind, run_call in E. set (req := mkApplicationRequest _ _) in E.
  destruct (call_error (w_trace w) (UpdateApplication req)) as [e|] eqn:He.
  - rewrite run_bind in E. injection E as _ <-. transitivity (traced w [UpdateApplication req]).
    + by apply sends_emit_at.
    + apply (sends_emit_at (traced w [UpdateApplication req])), fail_event_ok. by eapply core_error_ok.
  - injection E as _ <-. by apply (sends_emit_at w (UpdateApplication req)).
Qed.
Hint Resolve sends_handleSubmit : sends.

Lemma sends_flush a : preserves sends (flushReleaseableTasks a).
Proof. unfold flushReleaseableTasks, removeFromSchedulerCore. sends_tac. Qed.
Lemma sends_postAppAccepted a : preserves sends (postAppAccepted a).
Proof.
  unfold postAppAccepted, skipReservationStage. sends_tac; apply sends_dispatch; intros w; cbn; unfold app_event_ok;
    by destruct a1.
Qed.
Hint Resolve sends_flush sends_postAppAccepted : sends.

(** Goroutines for an application are started by its own methods. *)
Definition sends_for (a : AppRef) (w w' : World) : Prop := has_app w a → sends w w'.

#[local] Instance sends_for_preorder a : PreOrder (sends_for a).
Proof.
  unfold sends_for. split; [by intros w _|]. intros w1 w2 w3 Ha Hb Happ. specialize (Ha Happ).
  etrans; [exact Ha|]. apply Hb. by apply (se_apps _ _ Ha).
Qed.

Lemma sends_for_of {A} a (m : M A) : preserves sends m → preserves (sends_for a) m.
Proof. intros Hm w x w' E _. by eapply Hm. Qed.

Lemma sends_for_go a e :
  e = GoCreatePlaceholders a ∨ e = GoCleanUp a → preserves (sends_for a) (emit e).
Proof. intros He w x w' [= _ <-] Ha. apply (sends_emit_at w). by destruct He as [-> | ->]. Qed.

Ltac sends_for_tac := preserves_tac ltac:(first [apply sends_for_go; tauto | apply sends_for_of; solve [auto with sends]]).

Lemma sends_for_app_enter a s : preserves (sends_for a) (app_enter a s).
Proof.
  unfold app_enter, onReserving, onResuming. sends_for_tac.
  apply sends_for_of, sends_dispatch. intros w. by apply fail_event_ok; left.
Qed.

Lemma Split_second s c t : is_Some (Split (s +:+ String c t) c !! 1).
Proof.
  induction s as [|d s IH]; [|rewrite string_app_cons]; cbn [Split].
  - change ("" +:+ String c t) with (String c t). cbn [Split]. rewrite decide_True by done.
    pose proof (Split_not_nil t c). destruct (Split t c); [done|]. cbn. eauto.
  - pose proof (Split_not_nil (s +:+ String c t) c). destruct (Split (s +:+ String c t) c); [done|].
    destruct (decide (d = c)); cbn in *; eauto.
Qed.

Lemma rejected_message_ok reason : fail_message_ok (ApplicationRejectedFailure +:+ ": " +:+ reason).
Proof.
  right. right. change (": " +:+ reason) with (String (Ascii.ascii_of_nat 58) (" " +:+ reason)). apply Split_second.
Qed.

Lemma sends_for_app_after a args ev : preserves (sends_for a) (app_after a args ev).
Proof.
  unfold app_after, handleRejectApplicationEvent, handleCompleteApplicationEvent, handleFailApplicationEvent,
    failUnallocated, failTaskPodWithReasonAndMsg, onReservationStateChange, handleReleaseAppAllocationEvent,
    setTaskTerminationType, publishPlaceholderTimeoutEvents, handleAppTaskCompletedEvent, clearReleaseableTasks.
  sends_for_tac. apply sends_for_of, sends_dispatch. intros w. apply fail_event_ok, rejected_message_ok.
Qed.

Lemma sends_app_handle a ev : preserves sends (app_handle a ev).
Proof.
  unfold app_handle. apply preserves_bind; [tc_solve| |intros [e|]; [destruct (is_no_transition e)|]; sends_tac].
  intros w x w' E. rewrite fsm_Event_spec in E. revert E. unfold fsm_run, app_machine.
  cbn [m_Current m_before m_after m_enter m_SetState].
  rewrite !run_bind. unfold get_app at 1. destruct (w_apps w !! a) as [app|] eqn:Ha; [|done]. rewrite run_ret.
  intros E. assert (Hfor : sends_for a w w'); [|by apply Hfor; exists app].
  revert E. match goal with |- ?m w = Some _ → _ => assert (Hm : preserves (sends_for a) m) end; [|apply Hm].
  preserves_tac ltac:(first [apply sends_for_app_enter|apply sends_for_app_after|apply sends_for_of; solve [auto with sends]]).
Qed.
Lemma sends_app_canHandle a ev : preserves sends (app_canHandle a ev).
Proof. unfold app_canHandle. sends_tac. Qed.
Hint Resolve sends_app_handle sends_app_canHandle : sends.

Lemma sends_scheduleTasks a c : preserves sends (scheduleTasks conf a c).
Proof. unfold scheduleTasks, scheduleTask. sends_tac. Qed.
Hint Resolve sends_scheduleTasks : sends.
Lemma sends_Schedule a : preserves sends (Schedule conf a).
Proof. unfold Schedule. sends_tac. Qed.
Hint Resolve sends_Schedule : sends.

(** ** The placeholder manager *)

Context (intn : list Effect → nat → nat).

Lemma sends_createPlaceholder a tg : preserves sends (createPlaceholder conf intn a tg).
Proof. unfold createPlaceholder, placeholder_app. sends_tac. Qed.
Hint Resolve sends_createPlaceholder : sends.
Lemma sends_createMissing a tg n : preserves sends (createMissing conf intn a tg n).
Proof. induction n; cbn [createMissing]; sends_tac. Qed.
Hint Resolve sends_createMissing : sends.
Lemma sends_createGroups a counts groups : preserves sends (createGroups conf intn a counts groups).
Proof. induction groups; cbn [createGroups]; sends_tac. Qed.
Hint Resolve sends_createGroups : sends.
Lemma sends_cleanTasks orphans l : preserves sends (cleanTasks orphans l).
Proof. revert orphans. induction l; intros orphans; cbn [cleanTasks]; unfold cleanTask; sends_tac. Qed.
Hint Resolve sends_cleanTasks : sends.
Lemma sends_cleanUp orphans a : preserves sends (cleanUp orphans a).
Proof. unfold cleanUp. sends_tac. Qed.
Lemma sends_cleanOrphans orphans l : preserves sends (cleanOrphans orphans l).
Proof. revert orphans. induction l as [|[] l IH]; intros orphans; cbn [cleanOrphans]; sends_tac. Qed.
Hint Resolve sends_cleanUp sends_cleanOrphans : sends.
Lemma sends_reserve orphans a : preserves sends (reserve conf intn orphans a).
Proof. unfold reserve, createAppPlaceholders. sends_tac. Qed.

(** ** The context *)

Lemma sends_updateApplicationTags tags ns : preserves sends (Ctx.updateApplicationTags tags ns).
Proof. unfold Ctx.updateApplicationTags, Ctx.getNamespaceObject. sends_tac. Qed.
Hint Resolve sends_updateApplicationTags : sends.
Lemma sends_addApplication meta : preserves sends (Ctx.addApplication meta).
Proof.
  unfold Ctx.addApplication, NewApplication, setTaskGroups, setTaskGroupsDefinition, setSchedulingParamsDefinition,
    setPlaceholderOwnerReferences, setSchedulingStyle, setContext, SetPlaceholderTimeout. sends_tac.
Qed.
Lemma sends_addTask meta : preserves sends (Ctx.addTask meta).
Proof. unfold Ctx.addTask, addTask, setOriginatingTask. sends_tac. Qed.
Hint Resolve sends_addApplication sends_addTask : sends.
Lemma sends_ensureAppAndTaskCreated pod app : preserves sends (Ctx.ensureAppAndTaskCreated conf pod app).
Proof. unfold Ctx.ensureAppAndTaskCreated. sends_tac. Qed.
Hint Resolve sends_ensureAppAndTaskCreated : sends.

Lemma sends_SetTaskPod t pod : preserves sends (SetTaskPod t pod).
Proof. unfold SetTaskPod. sends_tac. Qed.
Hint Resolve sends_SetTaskPod : sends.
Lemma sends_updateYuniKornPod appID old pod : preserves sends (Ctx.updateYuniKornPod conf appID old pod).
Proof. unfold Ctx.updateYuniKornPod. sends_tac. Qed.
Lemma sends_updateForeignPod old pod : preserves sends (Ctx.updateForeignPod old pod).
Proof. unfold Ctx.updateForeignPod. sends_tac. Qed.
Hint Resolve sends_updateYuniKornPod sends_updateForeignPod : sends.
Lemma sends_UpdatePod old new : preserves sends (Ctx.UpdatePod conf old new).
Proof. unfold Ctx.UpdatePod. sends_tac. Qed.
Lemma sends_DeletePod obj : preserves sends (Ctx.DeletePod conf obj).
Proof. unfold Ctx.DeletePod, Ctx.deleteYuniKornPod, Ctx.deleteForeignPod. sends_tac. Qed.
Hint Resolve sends_UpdatePod sends_DeletePod : sends.

Lemma sends_registerNodes nodes : preserves sends (Ctx.registerNodes nodes).
Proof. unfold Ctx.registerNodes, Ctx.registerNodesInternal, Ctx.record_node. sends_tac. Qed.
Hint Resolve sends_registerNodes : sends.
Lemma sends_decommissionNode node : preserves sends (Ctx.decommissionNode node).
Proof. unfold Ctx.decommissionNode. sends_tac. Qed.
Lemma sends_updateNodeResources node cap : preserves sends (Ctx.updateNodeResources node cap).
Proof. unfold Ctx.updateNodeResources. sends_tac. Qed.
Lemma sends_enableNodes nodes : preserves sends (Ctx.enableNodes nodes).
Proof. unfold Ctx.enableNodes. sends_tac. Qed.
Hint Resolve sends_decommissionNode sends_updateNodeResources sends_enableNodes : sends.
Lemma sends_updateNodeInternal node register : preserves sends (Ctx.updateNodeInternal conf node register).
Proof.
  unfold Ctx.updateNodeInternal, Ctx.adoptPod, Ctx.registerNode, Ctx.enableNode, Ctx.updateNodeSchedulability, Ctx.record_node.
  sends_tac.
Qed.
Hint Resolve sends_updateNodeInternal : sends.
Lemma sends_deleteNodeInternal node : preserves sends (Ctx.deleteNodeInternal node).
Proof. unfold Ctx.deleteNodeInternal, Ctx.record_node. sends_tac. Qed.
Lemma sends_updatePriorityClassInternal pc : preserves sends (Ctx.updatePriorityClassInternal pc).
Proof. unfold Ctx.updatePriorityClassInternal. sends_tac. Qed.
Lemma sends_deletePriorityClass obj : preserves sends (Ctx.deletePriorityClass obj).
Proof. unfold Ctx.deletePriorityClass. sends_tac. Qed.
Hint Resolve sends_deleteNodeInternal sends_updatePriorityClassInternal sends_deletePriorityClass : sends.

Lemma sends_PublishEvents records : preserves sends (Ctx.PublishEvents records).
Proof. unfold Ctx.PublishEvents, Ctx.PublishEvent, Ctx.record_node. sends_tac. Qed.
Lemma sends_HandleContainerStateUpdate req : preserves sends (Ctx.HandleContainerStateUpdate req).
Proof. unfold Ctx.HandleContainerStateUpdate, Ctx.updatePodCondition, SetTaskSchedulingState. sends_tac. Qed.
Lemma sends_handle_event ev : preserves sends (Ctx.handle_event conf ev).
Proof. unfold Ctx.handle_event, Ctx.ApplicationEventHandler, Ctx.TaskEventHandler. sends_tac. Qed.

Lemma sends_InitializeState : preserves sends (Ctx.InitializeState conf).
Proof.
  unfold Ctx.InitializeState, Ctx.unless_error, Ctx.unless_failed, Ctx.registerPriorityClasses,
    Ctx.finalizePriorityClasses, Ctx.loadNodes, Ctx.finalizeNodes, Ctx.registerPods, Ctx.finalizePods,
    Ctx.AddSchedulingEventHandlers, Ctx.addNodesWithoutRegistering, Ctx.AddPod.
  sends_tac.
Qed.

(** A computation that only returns without an error after it has registered the
    informer handlers. *)
Definition registers (m : M (option string)) : Prop :=
  ∀ w w', m w = Some (None, w') → ∃ l tr, w_trace w' = w_trace w ++ l ∧ AddEventHandlers ∈ l ∧
    call_error tr AddEventHandlers = None.

Lemma registers_bind {A} (m : M A) (f : A → M (option string)) :
  preserves sends m → (∀ a, registers (f a)) → registers (m ≫= f).
Proof.
  intros Hm Hf w w' E. rewrite run_bind in E. destruct (m w) as [[a w1]|] eqn:Em; [|done].
  destruct (se_trace _ _ (Hm _ _ _ Em)) as (l1 & E1 & _), (Hf a _ _ E) as (l2 & tr & E2 & Hin & Hok).
  exists (l1 ++ l2), tr. rewrite E2, E1, app_assoc. split_and!; [done| |done]. apply elem_of_app. by right.
Qed.

Lemma registers_here (k : M (option string)) :
  preserves sends k → registers (err ← Ctx.AddSchedulingEventHandlers; Ctx.unless_failed err k).
Proof.
  intros Hk w w' E. unfold Ctx.AddSchedulingEventHandlers in E. rewrite run_bind, run_call in E.
  destruct (call_error _ _) eqn:Hc; [done|]. destruct (se_trace _ _ (Hk _ _ _ E)) as (l & El & _).
  exists (AddEventHandlers :: l), (w_trace w). rewrite El. simpl. rewrite <- app_assoc.
  split_and!; [done|left|done].
Qed.

Lemma registers_InitializeState : registers (Ctx.InitializeState conf).
Proof.
  unfold Ctx.InitializeState, Ctx.unless_error.
  repeat first [apply registers_here | apply registers_bind; [|intros []]];
    try (intros ? ? [=]).
  all: unfold Ctx.unless_failed, Ctx.registerPriorityClasses, Ctx.finalizePriorityClasses, Ctx.loadNodes,
    Ctx.finalizeNodes, Ctx.registerPods, Ctx.finalizePods, Ctx.addNodesWithoutRegistering, Ctx.AddPod; sends_tac.
Qed.

(** ** Callbacks and rounds *)

Lemma sends_newAllocation alloc : preserves sends (Callback.newAllocation alloc).
Proof. unfold Callback.newAllocation. sends_tac. Qed.
Hint Resolve sends_newAllocation : sends.
Lemma sends_for_each_return {A B} (l : list A) (body : A → M (option B)) :
  (∀ x, preserves sends (body x)) → preserves sends (for_each_return l body).
Proof. intros Hb. induction l; cbn [for_each_return]; sends_tac. Qed.
Hint Resolve sends_for_each_return : sends.
Lemma sends_UpdateAllocation resp : preserves sends (Callback.UpdateAllocation resp).
Proof. unfold Callback.UpdateAllocation, Callback.rejectedAllocation, Callback.releasedAllocation. sends_tac. Qed.

Lemma sends_schedule found : preserves sends (Callback.schedule conf found).
Proof.
  unfold Callback.schedule, Callback.GetAllApplications. sends_tac.
  revert found. induction a as [|x l IH]; intros found; cbn [Callback.schedule_apps]; sends_tac.
Qed.

(** The core gives the reason of a failure with the failure. *)
Definition updates_ok (response : ApplicationResponse) : Prop :=
  ∀ u, u ∈ ap_Updated response → ua_State u = "Failing" ∨ ua_State u = "Failed" →
    fail_message_ok (ua_Message u).

Lemma sends_for_each_in {A} (l : list A) (body : A → M unit) :
  (∀ x, x ∈ l → preserves sends (body x)) → preserves sends (for_each l body).
Proof.
  induction l as [|x l IH]; intros Hb; cbn [for_each]; [sends_tac|].
  apply preserves_bind; [apply _|apply Hb; left|]. intros []. apply IH. intros y Hy. apply Hb. by right.
Qed.

Lemma sends_UpdateApplication response :
  updates_ok response → preserves sends (Callback.UpdateApplication response).
Proof.
  intros Hok. unfold Callback.UpdateApplication, Callback.acceptedApplication, Callback.rejectedApplication.
  do 2 (apply preserves_bind; [apply _|sends_tac|intros _]). apply sends_for_each_in. intros u Hu. specialize (Hok u Hu). unfold Callback.updatedApplication.
  destruct (ua_State u =s "Completed"); [unfold removeApplication; sends_tac|].
  destruct (ua_State u =s "Resuming"); [sends_tac|].
  destruct ((ua_State u =s "Failing") || (ua_State u =s "Failed")) eqn:E; [|sends_tac].
  apply sends_dispatch. intros w. apply fail_event_ok, Hok.
  apply orb_true_iff in E as [E|E]; [left|right]; by apply bool_decide_eq_true in E.
Qed.

End Sends.
