(* ===== verification/System.v ===== *)
(** * The running shim

    The parts of the shim together: the operations that informers, the core and
    the scheduling loop call, the goroutines that they start, the placeholder
    manager, and the dispatcher that carries events from the operations to the
    handlers.  A call runs in one step on the shared state (the locks of the
    context, the applications and the tasks serialise them) and then has the
    events it dispatches to hand over to the dispatcher, one at a time, with
    the steps of everything else in between. *)

From S2P Require Import Prelude.
From S2P Require Import GoStrings.
From S2P Require Import K8sApi.
From S2P Require Import K8sInstances.
From S2P Require Import Constants.
From S2P Require Import Resource.
From S2P Require Import PodUtils.
From S2P Require Import SiHelper.
From S2P Require Import TaskGroups.
From S2P Require Import SchedulerCache.
From S2P Require Import World.
From S2P Require Import Logic.
From S2P Require Import Dispatcher.
From S2P Require Import DispatcherThms.
From S2P Require Import Fsm.
From S2P Require Import ContextPods.
From S2P Require Import Task.
From S2P Require Import Application.
From S2P Require Import PlaceholderManager.
From S2P Require Import ShimContext.
From S2P Require Import SchedulerCallback.
From S2P Require Import Examples.
From S2P Require Import ApplicationThms.
From S2P Require Import PlaceholderThms.
From S2P Require Import Safety.
From S2P Require Import SafetyTasks.
From S2P Require Import SafetyContext.
From S2P Require Import SafetyThms.
From S2P Require Import ShimSafety.
From S2P Require Import Sends.

(** ** What a run leaves to do *)

Definition events_in (l : list Effect) : list SchedEvent :=
  omap (λ e, match e with Dispatch ev => Some ev | _ => None end) l.

Definition is_go (e : Effect) : bool :=
  match e with GoBind _ _ _ _ _ | GoCreatePlaceholders _ | GoCleanUp _ => true | _ => false end.

Definition goroutines_in (l : list Effect) : list Effect := filter is_go l.

(** The effects of a run from [w] to [w']. *)
Definition new_effects (w w' : World) : list Effect := drop (length (w_trace w)) (w_trace w').

Definition AppHandler : string := "ShimAppHandler".
Definition TaskHandler : string := "ShimTaskHandler".

(** ** State *)

Record System := mkSystem {
  sy_world : World;
  sy_orphans : gmap string Pod;              (* of the placeholder manager *)
  sy_dispatcher : Dispatcher;
  sy_calls : list (list SchedEvent);         (* per running call: the events it still dispatches *)
  sy_handler : list SchedEvent;              (* the same of the handler in the event loop *)
  sy_goroutines : list Effect;               (* started, not run yet *)
  sy_refused : list SchedEvent               (* history: refused by a dispatcher that does not run *)
}.

Section System.
Context `{SC : SiConstants} `{QO : QuantityOps} `{NIO : NodeInfoOps}.
Context `{MO : MapOrder} `{TT : TerminationTypes} `{PH : PodHelpers} `{JO : JsonOps}.
Context `{TG : TaskGroupJson} `{EV : Env} `{FE : FsmEngine} `{RE : RetryEngine} (conf : ShimConf).
Context (intn : list Effect → nat → nat).

(** [newShimSchedulerInternal]: the handlers the shim registers. *)
Definition shim_handlers (d : Dispatcher) : Dispatcher :=
  let d := d_set_handlers (RegisterEventHandler AppHandler EventTypeApp (d_handlers d)) d in
  d_set_handlers (RegisterEventHandler TaskHandler EventTypeTask (d_handlers d)) d.

Definition system_init (capacity : nat) (timeout now : Z) : System :=
  mkSystem world_init ∅ (shim_handlers (initDispatcher capacity timeout now)) [] [] [] [].

(** The handlers with the given ids; those of node events only wait for an
    answer of the core. *)
Definition run_handlers (ids : gset string) (ev : SchedEvent) : M unit :=
  match ev with
  | DTask _ _ _ => if bool_decide (TaskHandler ∈ ids) then Ctx.handle_event conf ev else mret tt
  | DApp _ _ => if bool_decide (AppHandler ∈ ids) then Ctx.handle_event conf ev else mret tt
  | DNode _ _ => mret tt
  end.

Definition run_goroutine (orphans : gmap string Pod) (e : Effect) : M (gmap string Pod) :=
  match e with
  | GoBind t pod alias nodeName key => bindTask t pod alias nodeName key;; mret orphans
  | GoCreatePlaceholders a => reserve conf intn orphans a
  | GoCleanUp a => cleanUp orphans a
  | _ => mret orphans
  end.

(** The operations of informers, the core and the scheduling loop. *)
Definition external (op : ShimOp) : bool :=
  match op with OHandleEvent _ | OBind _ _ _ _ _ => false | _ => true end.

(** What these callers promise. *)
Definition request_ok (w : World) (op : ShimOp) : Prop :=
  op_ok w op ∧ match op with OUpdateApplication response => updates_ok response | _ => True end.

(** A call, or a goroutine, has run: its events are still to be dispatched. *)
Definition ran (w' : World) (orphans : gmap string Pod) (s : System) : System :=
  let l := new_effects (sy_world s) w' in
  mkSystem w' orphans (sy_dispatcher s) (sy_calls s ++ [events_in l]) (sy_handler s)
    (sy_goroutines s ++ goroutines_in l) (sy_refused s).

Definition set_goroutines (l : list Effect) (s : System) : System :=
  mkSystem (sy_world s) (sy_orphans s) (sy_dispatcher s) (sy_calls s) (sy_handler s) l (sy_refused s).
Definition set_dispatcher (d : Dispatcher) (s : System) : System :=
  mkSystem (sy_world s) (sy_orphans s) d (sy_calls s) (sy_handler s) (sy_goroutines s) (sy_refused s).
Definition set_calls (l : list (list SchedEvent)) (s : System) : System :=
  mkSystem (sy_world s) (sy_orphans s) (sy_dispatcher s) l (sy_handler s) (sy_goroutines s) (sy_refused s).
Definition set_handler (l : list SchedEvent) (s : System) : System :=
  mkSystem (sy_world s) (sy_orphans s) (sy_dispatcher s) (sy_calls s) l (sy_goroutines s) (sy_refused s).

(** The event loop has run the handler of an event. *)
Definition handled (w' : World) (s : System) : System :=
  let l := new_effects (sy_world s) w' in
  mkSystem w' (sy_orphans s) (sy_dispatcher s) (sy_calls s) (events_in l)
    (sy_goroutines s ++ goroutines_in l) (sy_refused s).

(** [Dispatch]: an error is logged and the event is gone. *)
Definition dispatched (ev : SchedEvent) (r : option string) (d' : Dispatcher) (s : System) : System :=
  mkSystem (sy_world s) (sy_orphans s) d' (sy_calls s) (sy_handler s) (sy_goroutines s)
    (match r with Some _ => sy_refused s ++ [ev] | None => sy_refused s end).

(** Steps of the dispatcher alone: its goroutines, the clock, start and stop, and
    the handlers of node registrations. *)
Inductive dispatcher_alone : Dispatcher → Dispatcher → Prop :=
  | da_register id d :
      dispatcher_alone d (d_set_handlers (RegisterEventHandler id EventTypeNode (d_handlers d)) d)
  | da_unregister id d :
      dispatcher_alone d (d_set_handlers (UnregisterEventHandler id EventTypeNode (d_handlers d)) d)
  | da_send i a d :
      d_async d !! i = Some a → full d = false →
      dispatcher_alone d (end_async i (d_set_chan (d_chan d ++ [as_event a]) d))
  | da_give_up i a d :
      d_async d !! i = Some a → (d_timeout d <= d_now d - as_begin a)%Z →
      dispatcher_alone d (end_async i (d_drop (as_event a) (TimedOut (d_now d - as_begin a)) d))
  | da_abandon i a d :
      d_async d !! i = Some a → stop_closed d a = true ∨ d_running d = false →
      dispatcher_alone d (end_async i (d_drop (as_event a) Stopped d))
  | da_start d : dispatcher_alone d (Start d)
  | da_stop d : dispatcher_alone d (Stop d)
  | da_exit d : d_loop d = true → d_closed d = true → dispatcher_alone d (loop_exit d)
  | da_tick n d : (0 <= n)%Z → dispatcher_alone d (d_set_now (d_now d + n) d).

(** ** Steps *)

Inductive sys_step : System → System → Prop :=
  | sys_call op s w' :
      external op = true → request_ok (sy_world s) op → exec conf op (sy_world s) = Some (tt, w') →
      sys_step s (ran w' (sy_orphans s) s)
  | sys_goroutine i e s w' orphans :
      sy_goroutines s !! i = Some e → run_goroutine (sy_orphans s) e (sy_world s) = Some (orphans, w') →
      sys_step s (ran w' orphans (set_goroutines (delete i (sy_goroutines s)) s))
  | sys_retry_orphans s w' orphans :
      cleanOrphanPlaceholders (sy_orphans s) (sy_world s) = Some (orphans, w') →
      sys_step s (ran w' orphans s)
  | sys_receive ev rest s d' w' :
      (* the event loop is done with the previous event *)
      sy_handler s = [] → d_loop (sy_dispatcher s) = true → d_chan (sy_dispatcher s) = ev :: rest →
      deliver (sy_dispatcher s) = Some d' →
      run_handlers (getEventHandler (event_type ev) (d_handlers (sy_dispatcher s))) ev (sy_world s)
        = Some (tt, w') →
      sys_step s (handled w' (set_dispatcher d' s))
  | sys_dispatch i ev rest s r d' :
      sy_calls s !! i = Some (ev :: rest) → dispatch_event ev (sy_dispatcher s) = Some (r, d') →
      sys_step s (dispatched ev r d' (set_calls (<[i := rest]> (sy_calls s)) s))
  | sys_handler_dispatch ev rest s r d' :
      sy_handler s = ev :: rest → dispatch_event ev (sy_dispatcher s) = Some (r, d') →
      sys_step s (dispatched ev r d' (set_handler rest s))
  | sys_dispatcher s d' :
      dispatcher_alone (sy_dispatcher s) d' → sys_step s (set_dispatcher d' s).

Inductive sys_reachable : System → Prop :=
  | sys_init capacity timeout now : sys_reachable (system_init capacity timeout now)
  | sys_next s s' : sys_reachable s → sys_step s s' → sys_reachable s'.

(** The steps that work off what the shim has started, without new requests. *)
Inductive sys_work : System → System → Prop :=
  | wk_goroutine i e s w' orphans :
      sy_goroutines s !! i = Some e → run_goroutine (sy_orphans s) e (sy_world s) = Some (orphans, w') →
      sys_work s (ran w' orphans (set_goroutines (delete i (sy_goroutines s)) s))
  | wk_receive ev rest s d' w' :
      sy_handler s = [] → d_loop (sy_dispatcher s) = true → d_chan (sy_dispatcher s) = ev :: rest →
      deliver (sy_dispatcher s) = Some d' →
      run_handlers (getEventHandler (event_type ev) (d_handlers (sy_dispatcher s))) ev (sy_world s)
        = Some (tt, w') →
      sys_work s (handled w' (set_dispatcher d' s))
  | wk_dispatch i ev rest s r d' :
      sy_calls s !! i = Some (ev :: rest) → dispatch_event ev (sy_dispatcher s) = Some (r, d') →
      sys_work s (dispatched ev r d' (set_calls (<[i := rest]> (sy_calls s)) s))
  | wk_handler_dispatch ev rest s r d' :
      sy_handler s = ev :: rest → dispatch_event ev (sy_dispatcher s) = Some (r, d') →
      sys_work s (dispatched ev r d' (set_handler rest s))
  | wk_dispatcher s d' :
      work (sy_dispatcher s) d' → d_delivered d' = d_delivered (sy_dispatcher s) →
      sys_work s (set_dispatcher d' s).

End System.
