(* ===== verification/SystemThms.v ===== *)
(** * The running shim neither panics nor loses events

    The invariant of the running shim over every interleaving of its calls,
    goroutines, handlers and the dispatcher. *)

From S2P Require Import Prelude.
From S2P Require Import GoStrings.
From S2P Require Import K8sApi.
From S2P Require Import K8sInstances.
From S2P Require Import Constants.
From S2P Require Import Resource.
From S2P Require Import PodUtils.
From S2P Require Import SiHelper.
From S2P Require Import TaskGroups.
From S2P Require Import SchedulerCache.
From S2P Require Import World.
From S2P Require Import Logic.
From S2P Require Import Dispatcher.
From S2P Require Import DispatcherThms.
From S2P Require Import Fsm.
From S2P Require Import ContextPods.
From S2P Require Import Task.
From S2P Require Import Application.
From S2P Require Import PlaceholderManager.
From S2P Require Import ShimContext.
From S2P Require Import SchedulerCallback.
From S2P Require Import Examples.
From S2P Require Import ApplicationThms.
From S2P Require Import BindThms.
From S2P Require Import PlaceholderThms.
From S2P Require Import Safety.
From S2P Require Import SafetyTasks.
From S2P Require Import SafetyContext.
From S2P Require Import SafetyThms.
From S2P Require Import ShimSafety.
From S2P Require Import Sends.
From S2P Require Import System.

(** ** Traces *)

Lemma events_in_app l l' : events_in (l ++ l') = events_in l ++ events_in l'.
Proof. apply omap_app. Qed.

Lemma new_effects_eq w w' l : w_trace w' = w_trace w ++ l → new_effects w w' = l.
Proof. intros E. unfold new_effects. by rewrite E, drop_app_length. Qed.

Lemma elem_of_events_in ev l : ev ∈ events_in l ↔ Dispatch ev ∈ l.
Proof.
  unfold events_in. rewrite list_elem_of_omap. split.
  - intros (e & He & Hev). destruct e; try done. by injection Hev as ->.
  - intros Hev. by exists (Dispatch ev).
Qed.

(** ** The dispatcher *)

Lemma dispatcher_alone_dstep d d' : dispatcher_alone d d' → dstep d d'.
Proof. destruct 1; eauto using dstep. Qed.

(** The handlers of other types stay when one is registered or taken away. *)
Lemma getEventHandler_register id ty ty' h : ty ≠ ty' →
  getEventHandler ty (RegisterEventHandler id ty' h) = getEventHandler ty h.
Proof.
  intros Hne. unfold getEventHandler, RegisterEventHandler.
  destruct (h !! ty'); by rewrite ?lookup_insert_ne by done.
Qed.
Lemma getEventHandler_unregister id ty ty' h : ty ≠ ty' →
  getEventHandler ty (UnregisterEventHandler id ty' h) = getEventHandler ty h.
Proof.
  intros Hne. unfold getEventHandler, UnregisterEventHandler. destruct (h !! ty'); [|done].
  destruct (bool_decide _); by rewrite ?lookup_delete_ne, ?lookup_insert_ne by done.
Qed.

Lemma dispatcher_alone_keeps d d' : dispatcher_alone d d' →
  d_accepted d' = d_accepted d ∧ d_delivered d' = d_delivered d ∧
  ∀ ty, ty ≠ EventTypeNode → getEventHandler ty (d_handlers d') = getEventHandler ty (d_handlers d).
Proof.
  destruct 1; simpl; try done; split_and!; try done; intros.
  - by apply getEventHandler_register.
  - by apply getEventHandler_unregister.
  - unfold Start. by destruct (d_running d).
  - unfold Start. by destruct (d_running d).
  - unfold Start. by destruct (d_running d).
  - unfold Stop. by destruct (d_closed d).
  - unfold Stop. by destruct (d_closed d).
  - unfold Stop. by destruct (d_closed d).
Qed.

Lemma dispatch_event_keeps ev r d d' : dispatch_event ev d = Some (r, d') →
  d_delivered d' = d_delivered d ∧ d_handlers d' = d_handlers d ∧
  d_accepted d' = d_accepted d ++ match r with Some _ => [] | None => [ev] end.
Proof.
  unfold dispatch_event, asyncDispatch. destruct (d_running d); simpl.
  - destruct (full d); [case_bool_decide; [done|]|]; by intros [= <- <-].
  - intros [= <- <-]. by rewrite app_nil_r.
Qed.

(** A dispatcher that panics is full and at its limit. *)
Definition at_limit (d : Dispatcher) : Prop :=
  d_running d = true ∧ full d = true ∧ (d_limit d <= d_count d)%Z.

Lemma dispatch_event_panics ev d : dispatch_event ev d = None → at_limit d.
Proof.
  unfold dispatch_event, asyncDispatch, at_limit. destruct (d_running d); [|done]. simpl.
  destruct (full d); [|done]. case_bool_decide; [|done]. intros _. split_and!; [done..|lia].
Qed.

Section Thms.
Context `{SC : SiConstants} `{QO : QuantityOps} `{NIO : NodeInfoOps} `{NIL : !NodeInfoLaws}.
Context `{MO : MapOrder} `{TT : TerminationTypes} `{PH : PodHelpers} `{JO : JsonOps}.
Context `{TG : TaskGroupJson} `{EV : Env} `{VL : !VolumeBinderLaws} `{CL : !CoreLaws} `{CM : !CoreMessages}.
Context `{FE : FsmEngine} `{FL : !FsmLaws} `{RE : RetryEngine} `{RL : !RetryLaws} (conf : ShimConf).
Context (intn : list Effect → nat → nat).

Local Abbreviation anything := (λ _ _, True).

(** ** Goroutines and handlers *)

Lemma emits_cleanTasks w orphans l : Forall (has_task w) l → emits w (cleanTasks orphans l).
Proof.
  revert w orphans. induction l as [|t l IH]; intros w orphans Hl; [apply emits_ret|].
  apply Forall_cons in Hl as [[o Ho] Hl]. cbn [cleanTasks]. apply emits_bind.
  - destruct (run_cleanTask w orphans t o Ho) as (orphans1 & E & _). by exists orphans1, [KubeDelete (t_pod o)].
  - intros orphans1 l1 _. apply IH. eapply Forall_impl; [exact Hl|]. intros. by apply has_task_traced.
Qed.

Lemma emits_cleanUp w orphans a : world_ok w → has_app w a → emits w (cleanUp orphans a).
Proof.
  intros Hw [app Ha]. unfold cleanUp, getPlaceHolderTasks.
  pose proof (world_app_refs _ _ _ Hw Ha) as Hok. apply emits_bind.
  { eexists _, []. by rewrite run_bind, (run_all_tasks _ _ _ Ha Hok), run_ret, traced_nil. }
  intros phs l E. rewrite run_bind, (run_all_tasks _ _ _ Ha Hok), run_ret in E. injection E as <- _.
  apply emits_cleanTasks, Forall_forall. intros t ([t' o] & -> & [_ Ho]%list_elem_of_filter)%list_elem_of_fmap.
  apply elem_of_deref in Ho as [_ Ho]. apply has_task_traced. by exists o.
Qed.

Lemma emits_createAppPlaceholders w a :
  world_ok w → has_app w a → emits w (createAppPlaceholders conf intn a).
Proof.
  intros Hw [app Ha]. pose proof (world_app_refs _ _ _ Hw Ha) as Hok.
  unfold createAppPlaceholders, getPlaceHolderTasks.
  unfold emits. rewrite !run_bind, (run_all_tasks _ _ _ Ha Hok), run_ret.
  unfold tasks_of. rewrite run_bind, run_load_filtered, run_bind, (run_get_app _ _ _ Ha).
  match goal with |- context [createGroups _ _ _ ?c ?g] =>
    destruct (run_createGroups conf intn a c g w app Ha Hok) as (r & pods & E & _) end.
  exists r, (KubeCreate <$> pods). exact E.
Qed.

Lemma emits_reserve w orphans a : world_ok w → has_app w a → emits w (reserve conf intn orphans a).
Proof.
  intros Hw Ha. unfold reserve. apply emits_bind; [by apply emits_createAppPlaceholders|].
  intros [e|] l _; [|apply emits_ret]. pose proof (world_ok_traced w l Hw) as Hw1. destruct Ha as [app Ha].
  apply emits_bind; [apply emits_cleanUp; [done|by exists app]|]. intros orphans1 l1 _.
  apply emits_bind; [by eapply emits_get_app|]. intros app' l2 _.
  apply emits_bind; [apply emits_dispatch|]. intros _ l3 _. rewrite !traced_traced.
  apply emits_bind; [apply emits_record_originating; [by apply world_ok_traced|by exists app]|].
  intros. apply emits_ret.
Qed.

Lemma emits_cleanOrphanPlaceholders w orphans : emits w (cleanOrphanPlaceholders orphans).
Proof.
  unfold cleanOrphanPlaceholders. generalize (go_range orphans). intros l. revert w orphans.
  induction l as [|[taskID pod] l IH]; intros w orphans; [apply emits_ret|]. cbn [cleanOrphans].
  apply emits_bind; [apply emits_call|]. intros. apply IH.
Qed.

Lemma safe_run_goroutine w orphans e :
  world_ok w → effect_ok w e → safe w (run_goroutine conf intn orphans e) anything.
Proof.
  intros Hw He. destruct e; cbn [run_goroutine effect_ok] in *; try by apply safe_ret.
  - eapply safe_bind; [by apply safe_bindTask|]. intros. by apply safe_ret.
  - by apply emits_safe, emits_reserve.
  - by apply emits_safe, emits_cleanUp.
Qed.

Lemma safe_run_handlers w ids ev :
  world_ok w → effect_ok w (Dispatch ev) → safe w (run_handlers conf ids ev) anything.
Proof.
  intros Hw He. destruct ev; cbn [run_handlers]; [| |by apply safe_ret];
    (destruct (bool_decide _); [|by apply safe_ret]);
    (apply safe_handle_event; [done|]; intros ? ? Heq; simplify_eq); done.
Qed.

(** ** What they send *)

Lemma sends_exec op w w' :
  request_ok w op → exec conf op w = Some (tt, w') → sends w w'.
Proof.
  intros [_ Hok]. enough (Hp : preserves sends (exec conf op)) by apply Hp.
  assert (Hig : ∀ A (m : M A), preserves sends m → preserves sends (ignore m))
    by (intros; unfold ignore; apply preserves_bind; [apply _|done|intros; apply preserves_ret; apply _]).
  destruct op; cbn [exec]; try apply Hig.
  - apply sends_InitializeState.
  - apply sends_UpdatePod.
  - apply sends_DeletePod.
  - unfold Ctx.updateNode. destruct (convertToNode obj); [apply sends_updateNodeInternal|].
    apply preserves_ret. apply _.
  - destruct obj as [|node| | | |obj|]; cbn [Ctx.deleteNode]; try apply sends_deleteNodeInternal;
      try (apply preserves_ret; apply _).
    destruct obj; try apply sends_deleteNodeInternal; apply preserves_ret; apply _.
  - unfold Ctx.updatePriorityClass. destruct (Convert2PriorityClass obj);
      [apply sends_updatePriorityClassInternal|apply preserves_ret; apply _].
  - apply sends_deletePriorityClass.
  - apply sends_UpdateAllocation.
  - by apply sends_UpdateApplication.
  - unfold Callback.UpdateNode. sends_tac.
  - unfold Callback.SendEvent. destruct (bool_decide _); [apply sends_PublishEvents|apply preserves_ret; apply _].
  - apply sends_HandleContainerStateUpdate.
  - apply sends_handle_event.
  - apply sends_schedule.
  - apply sends_bindTask.
Qed.

Lemma sends_run_goroutine orphans e : preserves sends (run_goroutine conf intn orphans e).
Proof.
  destruct e; cbn [run_goroutine]; try (apply preserves_ret; apply _).
  - apply preserves_bind; [apply _|apply sends_bindTask|intros; apply preserves_ret; apply _].
  - apply sends_reserve.
  - apply sends_cleanUp.
Qed.

Lemma sends_run_handlers ids ev : preserves sends (run_handlers conf ids ev).
Proof.
  destruct ev; cbn [run_handlers]; [| |apply preserves_ret; apply _];
    (destruct (bool_decide _); [apply sends_handle_event|apply preserves_ret; apply _]).
Qed.

(** ** The invariant *)

(** The handlers of the shim among those an event was given to. *)
Definition to_shim (x : SchedEvent * gset string) : Prop :=
  match event_type x.1 with
  | EventTypeApp => AppHandler ∈ x.2
  | EventTypeTask => TaskHandler ∈ x.2
  | EventTypeNode => True
  end.

Record sys_ok (s : System) : Prop := {
  so_world : world_ok (sy_world s);
  so_trace : Forall (effect_ok (sy_world s)) (w_trace (sy_world s));
  so_goroutines : sy_goroutines s ⊆ w_trace (sy_world s);
  so_dispatcher : dispatcher_ok (sy_dispatcher s);
  so_registered ev ids : getEventHandler (event_type ev) (d_handlers (sy_dispatcher s)) = ids → to_shim (ev, ids);
  so_delivered : Forall to_shim (d_delivered (sy_dispatcher s));
  so_conserved : events_in (w_trace (sy_world s)) ≡ₚ
    d_accepted (sy_dispatcher s) ++ sy_refused s ++ sy_handler s ++ concat (sy_calls s)
}.

Lemma trace_sends w w' : sends w w' → Forall (effect_ok w) (w_trace w) → Forall (effect_ok w') (w_trace w').
Proof.
  intros [Ht Ha (l & E & Hl)] Hw. rewrite E. apply Forall_app. split; [|done].
  eapply Forall_impl; [exact Hw|]. intros e. by apply effect_ok_mono.
Qed.

Lemma goroutines_sends w w' l0 : sends w w' → l0 ⊆ w_trace w →
  l0 ++ goroutines_in (new_effects w w') ⊆ w_trace w'.
Proof.
  intros [_ _ (l & E & _)] Hl e. rewrite (new_effects_eq w w' l E), E.
  rewrite !elem_of_app. intros [He|He]; [left; by apply Hl|right]. by apply list_elem_of_filter in He as [_ ?].
Qed.

Lemma events_sends w w' : sends w w' →
  events_in (w_trace w') = events_in (w_trace w) ++ events_in (new_effects w w').
Proof. intros [_ _ (l & E & _)]. by rewrite (new_effects_eq w w' l E), E, events_in_app. Qed.

Lemma sys_ok_ran s w' orphans :
  sys_ok s → world_ok w' → sends (sy_world s) w' → sys_ok (ran w' orphans s).
Proof.
  intros [H1 H2 H3 H4 H5 H6 H7] Hw Hs. split; simpl; try done.
  - by eapply trace_sends.
  - by apply goroutines_sends.
  - rewrite (events_sends _ _ Hs), H7, concat_app. simpl. solve_Permutation.
Qed.

Lemma sys_ok_init capacity timeout now : sys_ok (system_init capacity timeout now).
Proof.
  split; simpl; try done.
  - apply world_ok_init.
  - apply ok_set_handlers, ok_set_handlers, dispatcher_ok_init.
  - intros [] ids <-; unfold to_shim; cbn [fst snd event_type]; [| |done]; vm_compute; reflexivity.
Qed.

(** What is on its way was sent by the shim, so its handler can run. *)
Lemma on_its_way s ev :
  sys_ok s → ev ∈ d_chan (sy_dispatcher s) → effect_ok (sy_world s) (Dispatch ev).
Proof.
  intros Hok Hev. eapply Forall_forall; [apply (so_trace s Hok)|]. apply elem_of_events_in.
  rewrite (so_conserved s Hok), (do_conserved _ (so_dispatcher s Hok)), !elem_of_app. auto.
Qed.

Lemma sys_ok_goroutine s e :
  sys_ok s → e ∈ sy_goroutines s → effect_ok (sy_world s) e.
Proof. intros Hok He. eapply Forall_forall; [apply (so_trace s Hok)|]. by apply (so_goroutines s Hok). Qed.

Lemma safe_result {A} w (m : M A) a w' : safe w m anything → m w = Some (a, w') → world_ok w'.
Proof. intros (a1 & w1 & E1 & Hw1 & _) E. congruence. Qed.

Lemma sys_ok_receive s ev rest d' w' :
  sys_ok s → sy_handler s = [] → d_chan (sy_dispatcher s) = ev :: rest →
  deliver (sy_dispatcher s) = Some d' →
  run_handlers conf (getEventHandler (event_type ev) (d_handlers (sy_dispatcher s))) ev (sy_world s)
    = Some (tt, w') →
  sys_ok (handled w' (set_dispatcher d' s)).
Proof.
  intros Hok Hh Hc Hd E. pose proof (on_its_way s ev Hok ltac:(rewrite Hc; left)) as He.
  pose proof (sends_run_handlers _ _ _ _ _ E) as Hs.
  pose proof (safe_result _ _ _ _ (safe_run_handlers _ _ _ (so_world s Hok) He) E) as Hw'.
  destruct Hok as [H1 H2 H3 H4 H5 H6 H7]. pose proof (ok_deliver _ _ H4 Hd) as Hd4.
  unfold deliver in Hd. rewrite Hc in Hd. injection Hd as <-. split; simpl; try done.
  - by eapply trace_sends.
  - by apply goroutines_sends.
  - apply Forall_app. split; [done|]. apply Forall_singleton. by apply H5.
  - rewrite (events_sends _ _ Hs), H7, Hh. solve_Permutation.
Qed.

(** Handing an event over moves it from the caller to the dispatcher. *)
Lemma sys_ok_dispatched s ev r d' calls handler :
  sys_ok s → dispatch_event ev (sy_dispatcher s) = Some (r, d') →
  sy_handler s ++ concat (sy_calls s) ≡ₚ ev :: handler ++ concat calls →
  sys_ok (dispatched ev r d' (set_handler handler (set_calls calls s))).
Proof.
  intros [H1 H2 H3 H4 H5 H6 H7] E Hp. destruct (dispatch_event_keeps _ _ _ _ E) as (Hd & Hh & Ha).
  split; simpl; try done; rewrite ?Hh, ?Hd; try done; [by eapply ok_dispatch|].
  rewrite H7, Ha, Hp. destruct r; solve_Permutation.
Qed.

Lemma concat_take_head {A} (l : list (list A)) i x rest :
  l !! i = Some (x :: rest) → concat l ≡ₚ x :: concat (<[i := rest]> l).
Proof.
  intros Hi. rewrite <- (take_drop_middle _ _ _ Hi) at 1. rewrite insert_take_drop by (by eapply lookup_lt_Some).
  rewrite !concat_app. simpl. solve_Permutation.
Qed.

Lemma sys_ok_step s s' : sys_step conf intn s s' → sys_ok s → sys_ok s'.
Proof.
  destruct 1 as [op s w' Hx Hr E|i e s w' orphans Hi E|s w' orphans E|ev rest s d' w' Hh Hl Hc Hd E
    |i ev rest s r d' Hi E|ev rest s r d' Hh E|s d' Hd]; intros Hok.
  - apply sys_ok_ran; [done| |by eapply sends_exec].
    eapply safe_result; [|exact E]. apply safe_exec; [apply Hok|apply Hr].
  - pose proof (sys_ok_goroutine s e Hok (list_elem_of_lookup_2 _ _ _ Hi)) as He.
    apply sys_ok_ran; [|eapply safe_result; [apply safe_run_goroutine; [apply Hok|exact He]|exact E]|].
    + destruct Hok as [H1 H2 H3 H4 H5 H6 H7]. split; simpl; try done.
      intros e' He'. apply H3. eapply elem_of_submseteq; [exact He'|]. apply sublist_submseteq, sublist_delete.
    + simpl. by eapply sends_run_goroutine.
  - apply sys_ok_ran; [done|eapply safe_result; [|exact E]; apply emits_safe; [apply Hok|]|].
    + apply emits_cleanOrphanPlaceholders.
    + by eapply sends_cleanOrphans.
  - by eapply sys_ok_receive.
  - apply (sys_ok_dispatched s ev r d' _ (sy_handler s) Hok E). rewrite (concat_take_head _ _ _ _ Hi).
    solve_Permutation.
  - apply (sys_ok_dispatched s ev r d' (sy_calls s) rest Hok E). by rewrite Hh.
  - destruct (dispatcher_alone_keeps _ _ Hd) as (Ha & Hdl & Hh).
    pose proof (dispatcher_ok_step _ _ (dispatcher_alone_dstep _ _ Hd)) as Hstep.
    destruct Hok as [H1 H2 H3 H4 H5 H6 H7]. split; simpl; try done; [by apply Hstep| |by rewrite Hdl|by rewrite Ha].
    intros ev ids <-. destruct ev; [..|done]; rewrite Hh by done; by apply H5.
Qed.

Lemma sys_reachable_ok s : sys_reachable conf intn s → sys_ok s.
Proof. induction 1; [apply sys_ok_init|by eapply sys_ok_step]. Qed.

(** ** Safety *)


(** C3: every event the shim sends is accounted for. The events that operations,
    handlers and goroutines have dispatched are, exactly once each: given to the
    handlers (those of applications and tasks to the shim's own handler), in the
    channel, held by a goroutine that retries, dropped after the timeout or at a
    stop, refused by a dispatcher that was not running, or about to be dispatched
    by the call that produced them. *)
Theorem every_event_is_accounted_for s :
  sys_reachable conf intn s →
  let d := sy_dispatcher s in
  events_in (w_trace (sy_world s)) ≡ₚ
    (d_delivered d).*1 ++ d_chan d ++ pending d ++ (d_dropped d).*1 ++
    sy_refused s ++ sy_handler s ++ concat (sy_calls s) ∧
  Forall to_shim (d_delivered d) ∧ Forall (drop_ok d) (d_dropped d).
Proof.
  intros Hok%sys_reachable_ok d. split_and!.
  - rewrite (so_conserved s Hok), (do_conserved _ (so_dispatcher s Hok)). solve_Permutation.
  - apply Hok.
  - apply (do_dropped _ (so_dispatcher s Hok)).
Qed.

(** ** Progress *)

Lemma concat_nonempty {A} (l : list (list A)) : concat l = [] ∨ ∃ i x rest, l !! i = Some (x :: rest).
Proof.
  induction l as [|[|x rest] l IH]; simpl; [by left| |right; by exists 0, x, rest].
  destruct IH as [?|(i & x & rest & ?)]; [by left|right; by exists (S i), x, rest].
Qed.

Lemma idle_dispatcher s :
  sys_ok s → d_loop (sy_dispatcher s) = true → 0 < d_capacity (sy_dispatcher s) →
  sy_handler s = [] → nf (sys_work conf intn) s →
  d_chan (sy_dispatcher s) = [] ∧ d_async (sy_dispatcher s) = [].
Proof.
  intros Hok Hl Hc Hh Hnf. apply work_progress; [done..|]. intros [d' Hwork]. apply Hnf.
  inversion Hwork as [d1 d2 _ Hd|i a d1 Hi Hf]; subst; [|eexists; by apply wk_dispatcher].
  destruct (d_chan (sy_dispatcher s)) as [|ev rest] eqn:E; [unfold deliver in Hd; by rewrite E in Hd|].
  destruct (safe_run_handlers (sy_world s)
    (getEventHandler (event_type ev) (d_handlers (sy_dispatcher s))) ev (so_world s Hok)
    (on_its_way s ev Hok ltac:(rewrite E; left))) as ([] & w' & Ew & _).
  eexists. by eapply wk_receive.
Qed.

(** C4: the running shim only stops working when it is done. While the event
    loop runs, if no part of the shim can do anything more on its own, then every
    goroutine has run and every event that was ever sent has been handled, dropped
    or refused; the one exception is the limit on retrying goroutines, where the
    dispatcher panics on purpose. *)
Theorem running_shim_stops_when_done s :
  sys_reachable conf intn s →
  d_loop (sy_dispatcher s) = true → 0 < d_capacity (sy_dispatcher s) → nf (sys_work conf intn) s →
  at_limit (sy_dispatcher s) ∨
  sy_goroutines s = [] ∧
  events_in (w_trace (sy_world s)) ≡ₚ
    (d_delivered (sy_dispatcher s)).*1 ++ (d_dropped (sy_dispatcher s)).*1 ++ sy_refused s.
Proof.
  intros Hok%sys_reachable_ok Hl Hc Hnf.
  destruct (sy_handler s) as [|ev rest] eqn:Hh; cycle 1.
  { destruct (dispatch_event ev (sy_dispatcher s)) as [[r d']|] eqn:E;
      [|left; by eapply dispatch_event_panics].
    exfalso. apply Hnf. eexists. by eapply wk_handler_dispatch. }
  assert (Hcalls : at_limit (sy_dispatcher s) ∨ concat (sy_calls s) = []).
  { destruct (concat_nonempty (sy_calls s)) as [?|(i & ev' & rest & Hi)]; [by right|left].
    destruct (dispatch_event ev' (sy_dispatcher s)) as [[r d']|] eqn:E; [|by eapply dispatch_event_panics].
    exfalso. apply Hnf. eexists. by eapply wk_dispatch. }
  destruct Hcalls as [?|Hcalls]; [by left|right].
  destruct (idle_dispatcher s Hok Hl Hc Hh Hnf) as [Hch Has]. split.
  - destruct (sy_goroutines s) as [|e l] eqn:Hg; [done|]. exfalso. apply Hnf.
    destruct (safe_run_goroutine (sy_world s) (sy_orphans s) e (so_world s Hok)
      (sys_ok_goroutine s e Hok ltac:(rewrite Hg; left))) as (orphans & w' & E & _).
    eexists. eapply (wk_goroutine _ _ 0); [by rewrite Hg|exact E].
  - rewrite (so_conserved s Hok), (do_conserved _ (so_dispatcher s Hok)), Hh, Hcalls, Hch.
    unfold pending. rewrite Has. simpl. solve_Permutation.
Qed.

(** ** Executions

    The moves of the parts, as a function. *)

Inductive Move := MGoroutine (i : nat) | MReceive | MDispatch (i : nat) | MHandlerDispatch.

Definition perform (m : Move) (s : System) : option System :=
  match m with
  | MGoroutine i =>
      e ← sy_goroutines s !! i;
      '(orphans, w') ← run_goroutine conf intn (sy_orphans s) e (sy_world s);
      Some (ran w' orphans (set_goroutines (delete i (sy_goroutines s)) s))
  | MReceive =>
      match sy_handler s, d_loop (sy_dispatcher s), d_chan (sy_dispatcher s), deliver (sy_dispatcher s) with
      | [], true, ev :: _, Some d' =>
          '(_, w') ← run_handlers conf (getEventHandler (event_type ev) (d_handlers (sy_dispatcher s)))
                       ev (sy_world s);
          Some (handled w' (set_dispatcher d' s))
      | _, _, _, _ => None
      end
  | MDispatch i =>
      match sy_calls s !! i with
      | Some (ev :: rest) =>
          '(r, d') ← dispatch_event ev (sy_dispatcher s);
          Some (dispatched ev r d' (set_calls (<[i := rest]> (sy_calls s)) s))
      | _ => None
      end
  | MHandlerDispatch =>
      match sy_handler s with
      | ev :: rest =>
          '(r, d') ← dispatch_event ev (sy_dispatcher s);
          Some (dispatched ev r d' (set_handler rest s))
      | [] => None
      end
  end.

Lemma perform_work m s s' : perform m s = Some s' → sys_work conf intn s s'.
Proof.
  destruct m as [i| |i|]; cbn [perform].
  - intros (e & He & ([orphans w'] & E & [= <-])%bind_Some)%bind_Some. by eapply wk_goroutine.
  - destruct (sy_handler s) eqn:Hh; [|done]. destruct (d_loop _) eqn:Hl; [|done].
    destruct (d_chan _) as [|ev rest] eqn:Hc; [done|]. destruct (deliver _) as [d'|] eqn:Hd; [|done].
    intros ([[] w'] & E & [= <-])%bind_Some. by eapply wk_receive.
  - destruct (sy_calls s !! i) as [[|ev rest]|] eqn:Hi; [done| |done].
    intros ([r d'] & E & [= <-])%bind_Some. by eapply wk_dispatch.
  - destruct (sy_handler s) as [|ev rest] eqn:Hh; [done|].
    intros ([r d'] & E & [= <-])%bind_Some. by eapply wk_handler_dispatch.
Qed.

Lemma sys_work_step s s' : sys_work conf intn s s' → sys_step conf intn s s'.
Proof.
  destruct 1 as [| | | |s d' Hw Hd]; eauto using sys_step. apply sys_dispatcher.
  destruct Hw as [d d' _ E|]; [|by eapply da_send].
  unfold deliver in E. destruct (d_chan d); [done|]. injection E as <-. simpl in Hd.
  apply (f_equal length) in Hd. rewrite length_app in Hd. simpl in Hd. lia.
Qed.

(** A sequence of moves; those that are not possible are skipped. *)
Definition performs (ms : list Move) (s : System) : System :=
  foldl (λ s m, default s (perform m s)) s ms.

Lemma performs_reachable ms s : sys_reachable conf intn s → sys_reachable conf intn (performs ms s).
Proof.
  revert s. induction ms as [|m ms IH]; intros s Hs; [done|]. cbn [performs foldl]. apply IH.
  destruct (perform m s) as [s'|] eqn:E; [|done]. eapply sys_next; [done|]. by apply sys_work_step, (perform_work m).
Qed.

(** The request [op], if it returns. *)
Definition request (op : ShimOp) (s : System) : System :=
  match exec conf op (sy_world s) with Some (_, w') => ran w' (sy_orphans s) s | None => s end.

Lemma request_reachable op s :
  sys_reachable conf intn s → external op = true → request_ok (sy_world s) op →
  sys_reachable conf intn (request op s).
Proof.
  intros Hs Hx Hr. unfold request. destruct (exec conf op (sy_world s)) as [[[] w']|] eqn:E; [|done].
  eapply sys_next; [done|]. by eapply sys_call.
Qed.

(** Nothing is left to do. *)
Definition idle (s : System) : bool :=
  bool_decide (sy_goroutines s = []) && bool_decide (concat (sy_calls s) = []) &&
  bool_decide (sy_handler s = []) && bool_decide (d_chan (sy_dispatcher s) = []) &&
  bool_decide (pending (sy_dispatcher s) = []).

Lemma idle_nf s : idle s = true → nf (sys_work conf intn) s.
Proof.
  unfold idle. rewrite !andb_true_iff, !bool_decide_eq_true. intros ((((Hg & Hcs) & Hh) & Hc) & Hp) [s' Hs].
  destruct Hs as [i e s w' orphans Hi _|ev rest s d' w' _ _ Hc' _ _|i ev rest s r d' Hi _|ev rest s r d' Hh' _|s d' Hw _];
    [by rewrite Hg in Hi|by rewrite Hc in Hc'| |by rewrite Hh in Hh'|].
  - apply concat_take_head in Hi. rewrite Hcs in Hi. by apply Permutation_nil_cons in Hi.
  - destruct Hw as [d d' _ E|i a d Hi _]; [unfold deliver in E; by rewrite Hc in E|].
    apply fmap_nil_inv in Hp. by rewrite Hp in Hi.
Qed.

End Thms.

(** ** A pod is scheduled

    The cluster of [ShimSafety]: the shim starts and initialises its state, a
    round of scheduling submits the application of the waiting pod, the core
    accepts it, two more rounds ask for the pod, and the core allocates it. *)

Section Run.
#[local] Existing Instance si_constants_ref.
#[local] Existing Instance json_none.
#[local] Existing Instance env_start.
#[local] Existing Instance env_start_volumes.
#[local] Existing Instance env_start_core.

#[local] Instance env_start_messages : CoreMessages.
Proof. by split. Qed.

Definition nonce0 (_ : list Effect) (_ : nat) : nat := 0.

Definition shim_up : System :=
  let s := system_init 10 300 0 in
  request conf_ref OInitializeState (set_dispatcher (Start (sy_dispatcher s)) s).
Definition submitted : System := request conf_ref OSchedule shim_up.
Definition accepted : System :=
  performs conf_ref nonce0 [MDispatch 2; MReceive]
    (request conf_ref (OUpdateApplication (mkApplicationResponse ["app-1"] [] [])) submitted).
Definition running : System :=
  performs conf_ref nonce0 [MDispatch 3; MReceive] (request conf_ref OSchedule accepted).
Definition asked : System :=
  performs conf_ref nonce0 [MDispatch 4; MReceive] (request conf_ref OSchedule running).
Definition allocated : System :=
  performs conf_ref nonce0 [MDispatch 5; MReceive]
    (request conf_ref (OUpdateAllocation
       (mkAllocationResponse [mkAllocationNew "uid-w" "app-1" "n1"] [] [])) asked).
Definition bound : System :=
  performs conf_ref nonce0 [MGoroutine 0; MDispatch 6; MReceive] allocated.

Lemma shim_up_reachable : sys_reachable conf_ref nonce0 shim_up.
Proof.
  unfold shim_up. apply request_reachable; [|reflexivity|split; [apply cluster_listing_ok|exact I]].
  eapply sys_next; [apply sys_init|]. apply sys_dispatcher, da_start.
Qed.

Lemma running_reachable : sys_reachable conf_ref nonce0 running.
Proof.
  unfold running. apply performs_reachable, request_reachable; [|reflexivity|split; exact I].
  unfold accepted. apply performs_reachable, request_reachable;
    [|reflexivity|split; [exact I|]; intros u Hu; by apply not_elem_of_nil in Hu].
  unfold submitted. apply request_reachable; [apply shim_up_reachable|reflexivity|split; exact I].
Qed.

Lemma allocated_reachable : sys_reachable conf_ref nonce0 allocated.
Proof.
  unfold allocated. apply performs_reachable, request_reachable; [|reflexivity|split; exact I].
  unfold asked. apply performs_reachable, request_reachable; [|reflexivity|split; exact I].
  apply running_reachable.
Qed.

Lemma bound_reachable : sys_reachable conf_ref nonce0 bound.
Proof. unfold bound. apply performs_reachable, allocated_reachable. Qed.

(** The events of the run, in the order in which they were handled, and the pods
    that were bound. *)
Example the_pod_is_bound :
  (d_delivered (sy_dispatcher bound)).*1 =
    [DApp "app-1" (SimpleApplicationEvent AcceptApplication); DApp "app-1" RunApplicationEvent;
     DTask "app-1" "uid-w" SubmitTaskEvent; DTask "app-1" "uid-w" (AllocatedTaskEvent "uid-w" "n1");
     DTask "app-1" "uid-w" BindTaskEvent] ∧
  omap (λ e, match e with KubeBind p n => Some (pod_Name p, n) | _ => None end)
    (w_trace (sy_world bound)) = [("work", "n1")] ∧
  idle bound = true.
Proof. vm_compute. split_and!; reflexivity. Qed.


Lemma every_event_is_accounted_for_witness :
  Forall to_shim (d_delivered (sy_dispatcher bound)).
Proof. apply (every_event_is_accounted_for conf_ref nonce0 bound bound_reachable). Defined.

Lemma running_shim_stops_when_done_witness :
  at_limit (sy_dispatcher bound) ∨
  sy_goroutines bound = [] ∧
  events_in (w_trace (sy_world bound)) ≡ₚ
    (d_delivered (sy_dispatcher bound)).*1 ++ (d_dropped (sy_dispatcher bound)).*1 ++ sy_refused bound.
Proof.
  apply (running_shim_stops_when_done conf_ref nonce0 bound bound_reachable);
    [vm_compute; reflexivity|vm_compute; lia|]. apply idle_nf. vm_compute. reflexivity.
Defined.

End Run.
