(* ===== verification/ShimRun.v ===== *)
(** * Start and stop of the shim: [pkg/shim/scheduler.go]

    [Run] starts the dispatcher, the placeholder manager and the informers,
    registers with the core, initialises the state and starts the scheduling
    loops; on an error it stops what it has started.  The parts are those of the
    other files.  The result is [None] when a call panics or never returns. *)

From S2P Require Import Prelude.
From S2P Require Import GoStrings.
From S2P Require Import K8sApi.
From S2P Require Import K8sInstances.
From S2P Require Import Constants.
From S2P Require Import Resource.
From S2P Require Import PodUtils.
From S2P Require Import SiHelper.
From S2P Require Import Logger.
From S2P Require Import TaskGroups.
From S2P Require Import Conf.
From S2P Require Import ConfigMaps.
From S2P Require Import ConfThms.
From S2P Require Import SchedulerCache.
From S2P Require Import World.
From S2P Require Import Logic.
From S2P Require Import Dispatcher.
From S2P Require Import DispatcherThms.
From S2P Require Import Fsm.
From S2P Require Import ContextPods.
From S2P Require Import Task.
From S2P Require Import Application.
From S2P Require Import PlaceholderLife.
From S2P Require Import ShimContext.
From S2P Require Import SchedulerCallback.
From S2P Require Import Examples.
From S2P Require Import BindThms.
From S2P Require Import Safety.
From S2P Require Import SafetyTasks.
From S2P Require Import SafetyContext.
From S2P Require Import SafetyThms.
From S2P Require Import ShimSafety.
From S2P Require Import ApiFactory.
From S2P Require Import Sends.
From S2P Require Import System.
From S2P Require Import SystemThms.

(** ** The placeholder manager, called from one goroutine *)

Definition ph_Start (m : PhManager) : PhManager :=
  if pm_running m then m else mkPhManager true (S (pm_loops m)) (pm_leaving m) (pm_threads m).

(** The send waits for a goroutine that receives. *)
Definition ph_Stop (m : PhManager) : option PhManager :=
  if pm_running m then
    match pm_loops m with
    | S n => Some (mkPhManager (pm_running m) n (S (pm_leaving m)) (pm_threads m))
    | 0 => None
    end
  else Some m.

(** ** State *)

Record KubernetesShim := mkShim {
  ss_apiFactory : APIFactory InformerObject ContextCall;
  ss_world : World;                          (* of the context *)
  ss_config : ConfigState;
  ss_phManager : PhManager;
  ss_dispatcher : Dispatcher;
  ss_stopChan : bool;                        (* closed *)
  ss_stopOnce : bool;                        (* done *)
  ss_scheduling : bool;                      (* the loops of doScheduling were started *)
  ss_outstandingAppsFound : bool;
  ss_registered : list RegisterRequest       (* what the core was sent *)
}.

Section Run.
Context `{SC : SiConstants} `{QO : QuantityOps} `{NIO : NodeInfoOps}.
Context `{MO : MapOrder} `{TT : TerminationTypes} `{PH : PodHelpers} `{JO : JsonOps}.
Context `{TG : TaskGroupJson} `{EV : Env} `{FE : FsmEngine} `{RE : RetryEngine} (conf : ShimConf).
Context `{CE : ConfEnv} `{ZL : ZapLevels} `{HT : HandlerTypes} (namespace : string).

(** The outside: config maps in the API server, the core's answer to the
    registration, the informers' errors and their progress, and how long [Run] is
    willing to be observed waiting for them. *)
Context (get : string → option ConfigMap + string) (core_Register : RegisterRequest → option string).
Context (informer_error : InformerType → option string).
Context (HasSynced : nat → InformerType → bool) (fuel : nat).

(** [newShimSchedulerInternal] *)
Definition newShimSchedulerInternal (api : APIFactory InformerObject ContextCall) (w : World)
    (config : ConfigState) (d : Dispatcher) : KubernetesShim :=
  mkShim api w config (NewPlaceholderManager []) (shim_handlers d) false false false false [].

Definition ss_set_services (api : APIFactory InformerObject ContextCall) (m : PhManager) (d : Dispatcher)
    (ss : KubernetesShim) : KubernetesShim :=
  mkShim api (ss_world ss) (ss_config ss) m d (ss_stopChan ss) (ss_stopOnce ss) (ss_scheduling ss)
    (ss_outstandingAppsFound ss) (ss_registered ss).

(** The rest of [registerShimLayer]: the request is sent to the core. *)
Definition ss_registerShimLayer (ss : KubernetesShim) : option string * KubernetesShim :=
  match registerShimLayer get (ss_config ss) with
  | inr err => (Some err, ss)
  | inl request =>
      (core_Register request,
       mkShim (ss_apiFactory ss) (ss_world ss) (ss_config ss) (ss_phManager ss) (ss_dispatcher ss)
         (ss_stopChan ss) (ss_stopOnce ss) (ss_scheduling ss) (ss_outstandingAppsFound ss)
         (ss_registered ss ++ [request]))
  end.

(** The handlers that the initialisation registered. *)
Definition registered_handlers (l : list Effect) (api : APIFactory InformerObject ContextCall) :
    APIFactory InformerObject ContextCall :=
  if existsb (λ e, match e with AddEventHandlers => true | _ => false end) l
  then (AddSchedulingEventHandlers namespace informer_error api).2 else api.

Definition initSchedulerState (ss : KubernetesShim) : option (option string * KubernetesShim) :=
  '(err, w') ← Ctx.InitializeState conf (ss_world ss);
  Some (err, mkShim (registered_handlers (new_effects (ss_world ss) w') (ss_apiFactory ss)) w'
               (ss_config ss) (ss_phManager ss) (ss_dispatcher ss) (ss_stopChan ss) (ss_stopOnce ss)
               (ss_scheduling ss) (ss_outstandingAppsFound ss) (ss_registered ss)).

Definition doScheduling (ss : KubernetesShim) : KubernetesShim :=
  mkShim (ss_apiFactory ss) (ss_world ss) (ss_config ss) (ss_phManager ss) (ss_dispatcher ss)
    (ss_stopChan ss) (ss_stopOnce ss) true (ss_outstandingAppsFound ss) (ss_registered ss).

Definition ss_Stop (ss : KubernetesShim) : option KubernetesShim :=
  if ss_stopOnce ss then Some ss
  else
    api ← af_Stop (ss_apiFactory ss);
    m ← ph_Stop (ss_phManager ss);
    Some (mkShim api (ss_world ss) (ss_config ss) m (Stop (ss_dispatcher ss)) true true
            (ss_scheduling ss) (ss_outstandingAppsFound ss) (ss_registered ss)).

Definition ss_Run (ss : KubernetesShim) : option (option string * KubernetesShim) :=
  let d := Start (ss_dispatcher ss) in
  let m := ph_Start (ss_phManager ss) in
  '(_, api) ← af_Start HasSynced fuel (ss_apiFactory ss);
  let ss := ss_set_services api m d ss in
  match ss_registerShimLayer ss with
  | (Some err, ss) => ss ← ss_Stop ss; Some (Some err, ss)
  | (None, ss) =>
      '(err, ss) ← initSchedulerState ss;
      match err with
      | Some err => ss ← ss_Stop ss; Some (Some err, ss)
      | None => Some (None, doScheduling ss)
      end
  end.

(** ** The process: [pkg/cmd/shim/main.go] *)

(** [NewContextWithBootstrapConfigMaps]: nothing when dynamic resource allocation
    is enabled and its tracker cannot be started. *)
Definition NewContextWithBootstrapConfigMaps (draEnabled : bool) (trackerError : option string)
    (bootstrapConfigMaps : list (option ConfigMap)) (config : ConfigState) : option (World * ConfigState) :=
  match draEnabled, trackerError with
  | true, Some _ => None
  | _, _ => Some (world_init, mkConfigState (cs_conf config) (cs_log config) bootstrapConfigMaps (cs_requests config))
  end.

Inductive Ending := Fatal (message : string) | NoScheduler | Stopped (ss : KubernetesShim).

(** What the process is given: the volume binder's and the tracker's errors. *)
Context (volumeBinderError : option string) (draEnabled : bool) (trackerError : option string).

Definition NewShimScheduler (configMaps : list (option ConfigMap)) (config : ConfigState) (d : Dispatcher) :
    KubernetesShim + string :=
  match volumeBinderError with
  | Some _ => inr "problem in creating the api factory"
  | None =>
      match NewContextWithBootstrapConfigMaps draEnabled trackerError configMaps config with
      | None => inr "problem in creating the context"
      | Some (w, config) => inl (newShimSchedulerInternal (NewAPIFactory false) w config d)
      end
  end.

(** [main], with the result of [LoadBootstrapConfigMaps], whether the core has
    started, and a signal to terminate at the end. *)
Definition shim_main (bootstrap : list (option ConfigMap) + string) (rmProxy : bool) (d : Dispatcher) :
    option Ending :=
  match bootstrap with
  | inr _ => Some (Fatal "Unable to bootstrap configuration")
  | inl configMaps =>
      match reload configMaps true (mkConfigState None None [] []) with
      | (_, Some _) => Some (Fatal "Unable to load initial configmaps")
      | (config, None) =>
          if rmProxy then
            match NewShimScheduler configMaps config d with
            | inr msg => Some (Fatal msg)
            | inl ss =>
                '(err, ss) ← ss_Run ss;
                match err with
                | Some _ => Some (Fatal "Unable to start scheduler")
                | None => ss ← ss_Stop ss; Some (Stopped ss)
                end
            end
          else Some NoScheduler
      end
  end.

(** ** The loops *)

Definition ss_set_round (w : World) (found : bool) (ss : KubernetesShim) : KubernetesShim :=
  mkShim (ss_apiFactory ss) w (ss_config ss) (ss_phManager ss) (ss_dispatcher ss) (ss_stopChan ss)
    (ss_stopOnce ss) (ss_scheduling ss) found (ss_registered ss).

(** The result is whether the message that no outstanding applications were
    found is logged. *)
Definition checkOutstandingApps (ss : KubernetesShim) : bool * KubernetesShim :=
  if negb (ss_outstandingAppsFound ss) then (true, ss) else (false, ss_set_round (ss_world ss) false ss).

Definition ss_schedule (ss : KubernetesShim) : option KubernetesShim :=
  '(found, w') ← Callback.schedule conf (ss_outstandingAppsFound ss) (ss_world ss);
  Some (ss_set_round w' found ss).

Inductive Tick := TSchedule | TCheck.

(** [wait.Until]: a tick runs while the stop channel is open.  The result are
    the checks that logged. *)
Definition tick (t : Tick) (ss : KubernetesShim) : option (list bool * KubernetesShim) :=
  if ss_scheduling ss && negb (ss_stopChan ss) then
    match t with
    | TSchedule => ss ← ss_schedule ss; Some ([], ss)
    | TCheck => let '(logged, ss) := checkOutstandingApps ss in Some ([logged], ss)
    end
  else Some ([], ss).

Fixpoint ticks (ts : list Tick) (ss : KubernetesShim) : option (list bool * KubernetesShim) :=
  match ts with
  | [] => Some ([], ss)
  | t :: ts' =>
      '(l, ss) ← tick t ss;
      '(l', ss) ← ticks ts' ss;
      Some (l ++ l', ss)
  end.

End Run.

(** ** Up and down *)

(** Everything [Run] starts is running, except for the scheduling loops. *)
Record services_up (ss : KubernetesShim) : Prop := {
  up_dispatcher : d_running (ss_dispatcher ss) = true ∧ d_loop (ss_dispatcher ss) = true ∧
    d_closed (ss_dispatcher ss) = false;
  up_phManager : pm_running (ss_phManager ss) = true ∧ pm_loops (ss_phManager ss) = 1;
  up_informers : af_stopped (ss_apiFactory ss) = false ∧
    (af_testMode (ss_apiFactory ss) = false → ∀ t, t ∈ af_started (ss_apiFactory ss));
  up_open : ss_stopChan ss = false ∧ ss_stopOnce ss = false
}.

(** Everything has been told to stop, and no goroutine of the placeholder manager
    waits for orphans. *)
Record services_down (ss : KubernetesShim) : Prop := {
  down_dispatcher : d_closed (ss_dispatcher ss) = true;
  down_phManager : pm_loops (ss_phManager ss) = 0;
  down_informers : af_testMode (ss_apiFactory ss) = false → af_stopped (ss_apiFactory ss) = true;
  down_closed : ss_stopChan ss = true ∧ ss_stopOnce ss = true
}.

Lemma stop_services ss : services_up ss →
  ∃ ss', ss_Stop ss = Some ss' ∧ services_down ss' ∧ ss_scheduling ss' = ss_scheduling ss ∧
    ss_world ss' = ss_world ss.
Proof.
  intros [(Hr & Hl & Hc) (Hp & Hn) (Ha & _) (Hs & Ho)]. unfold ss_Stop, af_Stop, ph_Stop.
  rewrite Ho, Hp, Hn, Ha. destruct (af_testMode (ss_apiFactory ss)) eqn:Ht; eexists; (split; [reflexivity|]);
    (split; [split|split]); simpl; try done; try (unfold Stop; by rewrite Hc). by rewrite Ht.
Qed.

(** A stopped shim stays as it is. *)
Lemma stop_again ss : services_down ss → ss_Stop ss = Some ss.
Proof. intros [_ _ _ [_ Ho]]. unfold ss_Stop. by rewrite Ho. Qed.

Section Thms.
Context `{SC : SiConstants} `{QO : QuantityOps} `{NIO : NodeInfoOps} `{NIL : !NodeInfoLaws}.
Context `{MO : MapOrder} `{TT : TerminationTypes} `{PH : PodHelpers} `{JO : JsonOps}.
Context `{TG : TaskGroupJson} `{EV : Env} `{VL : !VolumeBinderLaws} `{CL : !CoreLaws} `{CM : !CoreMessages}.
Context `{FE : FsmEngine} `{FL : !FsmLaws} `{RE : RetryEngine} `{RL : !RetryLaws} (conf : ShimConf).
Context `{CE : ConfEnv} `{ZL : ZapLevels} `{HT : HandlerTypes} `{HL : !HandlerLaws} (namespace : string).
Context (get : string → option ConfigMap + string) (core_Register : RegisterRequest → option string).
Context (informer_error : InformerType → option string).
Context (HasSynced : nat → InformerType → bool) (fuel : nat).

(** The registration of handlers that the initialisation asks for is the one of
    the API factory. *)
Definition handlers_agree : Prop :=
  ∀ tr api, call_error tr AddEventHandlers = (AddSchedulingEventHandlers namespace informer_error api).1.

Lemma af_Start_returns (api : APIFactory InformerObject ContextCall) n :
  (∀ t, HasSynced n t = true) → n < fuel →
  ∃ now api', af_Start HasSynced fuel api = Some (now, api') ∧
    af_stopped api' = af_stopped api ∧ af_testMode api' = af_testMode api ∧
    af_handlers api' = af_handlers api ∧ (af_testMode api' = false → ∀ t, t ∈ af_started api').
Proof.
  intros Hn Hf. unfold af_Start. destruct (af_testMode api) eqn:Ht.
  { exists 0, api. split_and!; try done. by rewrite Ht. }
  enough (∃ now, Clients_WaitForSync HasSynced fuel 0 = Some now) as [now ->].
  { eexists now, _. split; [reflexivity|]. simpl. split_and!; try done. intros _ t. apply elem_of_app.
    right. apply all_informers_run. }
  enough (∀ fuel k, k <= n → n - k < fuel → ∃ now, Clients_WaitForSync HasSynced fuel k = Some now) as Hw
    by (apply Hw; lia).
  clear Hf. intros f. induction f as [|f IH]; intros k Hk Hf; [lia|]. cbn [Clients_WaitForSync].
  destruct (synced HasSynced k) eqn:E; [by eexists|].
  destruct (decide (k = n)) as [->|]; [|apply IH; lia].
  apply (proj2 (synced_all HasSynced n)) in Hn. congruence.
Qed.

(** The initialisation: it returns, and when it succeeds the informers drive the
    context. *)
Lemma initSchedulerState_returns ss :
  handlers_agree → world_ok (ss_world ss) → listing_ok (ss_world ss) → af_handlers (ss_apiFactory ss) = [] →
  ∃ err ss', initSchedulerState conf namespace informer_error ss = Some (err, ss') ∧
    world_ok (ss_world ss') ∧ (services_up ss → services_up ss') ∧ ss_scheduling ss' = ss_scheduling ss ∧
    (err = None → ∀ t n, notify t n (ss_apiFactory ss') = expected_calls namespace t n).
Proof.
  intros Hag Hw HL0 Hh. unfold initSchedulerState.
  destruct (safe_InitializeState conf (ss_world ss) Hw HL0) as (err & w' & E & Hw' & _). rewrite E.
  eexists err, _. split; [reflexivity|]. simpl. split_and!; try done.
  - intros [H1 H2 [H3 H4] H5]. split; simpl; try done. unfold registered_handlers.
    destruct (existsb _ _); [|done]. unfold AddSchedulingEventHandlers.
    destruct (added_keeps informer_error
      [configMapHandlers namespace; priorityClassHandlers; nodeHandlers; podHandlers] (ss_apiFactory ss)) as (-> & -> & ->). done.
  - intros ->. apply registers_InitializeState in E as (l & tr & El & Hin & Hok).
    unfold registered_handlers. rewrite (proj2 (existsb_exists _ _)).
    + rewrite (Hag tr (ss_apiFactory ss)) in Hok.
      destruct (AddSchedulingEventHandlers _ _ _) as [e s] eqn:Es. simpl in *. subst e. by eapply handlers_registered.
    + exists AddEventHandlers. split; [|done]. apply list_elem_of_In. by rewrite (new_effects_eq _ _ l El).
Qed.

Lemma run_outcome testMode w config d n :
  handlers_agree → world_ok w → listing_ok w → (∀ t, HasSynced n t = true) → n < fuel →
  d_running d = false →
  ∃ err ss', ss_Run conf namespace get core_Register informer_error HasSynced fuel
               (newShimSchedulerInternal (NewAPIFactory testMode) w config d) = Some (err, ss') ∧
    world_ok (ss_world ss') ∧
    match err with
    | None => services_up ss' ∧ ss_scheduling ss' = true ∧
        (∃ request, registerShimLayer get config = inl request ∧ core_Register request = None) ∧
        ∀ t nt, notify t nt (ss_apiFactory ss') = expected_calls namespace t nt
    | Some _ => services_down ss' ∧ ss_scheduling ss' = false
    end.
Proof.
  intros Hag Hw HL0 Hn Hf Hd. unfold ss_Run.
  destruct (af_Start_returns (NewAPIFactory testMode) n Hn Hf) as (now & api & E & Hs & Ht & Hh & Hall).
  cbn [ss_apiFactory newShimSchedulerInternal ss_dispatcher ss_phManager]. rewrite E. cbn [mbind option_bind].
  set (ss := ss_set_services _ _ _ _).
  assert (Hup : services_up ss).
  { split; simpl; try done. unfold Start. simpl. by rewrite Hd. }
  unfold ss_registerShimLayer. change (ss_config ss) with config.
  destruct (registerShimLayer get config) as [request|err] eqn:Hreq.
  2:{ destruct (stop_services ss Hup) as (ss' & -> & Hdown & Hsch & Hws).
      exists (Some err), ss'. split_and!; [done|by rewrite Hws|done|by rewrite Hsch]. }
  set (ss1 := mkShim _ _ _ _ _ _ _ _ _ _). assert (Hup1 : services_up ss1) by by destruct Hup.
  destruct (core_Register request) as [err|] eqn:Hcore.
  { destruct (stop_services ss1 Hup1) as (ss' & -> & Hdown & Hsch & Hws).
    exists (Some err), ss'. split_and!; [done|by rewrite Hws|done|by rewrite Hsch]. }
  destruct (initSchedulerState_returns ss1 Hag Hw HL0 Hh) as (err & ss2 & -> & Hw2 & Hup2 & Hsch2 & Hnot).
  cbn [mbind option_bind]. destruct err as [err|].
  - destruct (stop_services ss2 (Hup2 Hup1)) as (ss' & -> & Hdown & Hsch & Hws).
    exists (Some err), ss'. split_and!; [done|by rewrite Hws|done|by rewrite Hsch, Hsch2].
  - exists None, (doScheduling ss2). destruct (Hup2 Hup1). split_and!; [done..| |by eauto|by apply Hnot]. done.
Qed.

(** C19: starting the shim is all or nothing. From a new shim, once the informers
    sync, [Run] returns. Without an error, the dispatcher, the placeholder manager,
    all informers and the scheduling loops run, the core has accepted the
    registration, and notifications of the informers cause the calls of the context
    they stand for. With an error, no scheduling loop was started and everything
    that was started has been stopped. The state stays well-formed either way. *)
Theorem run_is_all_or_nothing testMode w config d n :
  handlers_agree → world_ok w → listing_ok w → (∀ t, HasSynced n t = true) → n < fuel →
  d_running d = false →
  ∃ err ss', ss_Run conf namespace get core_Register informer_error HasSynced fuel
               (newShimSchedulerInternal (NewAPIFactory testMode) w config d) = Some (err, ss') ∧
    world_ok (ss_world ss') ∧
    match err with
    | None => services_up ss' ∧ ss_scheduling ss' = true ∧
        (∃ request, registerShimLayer get config = inl request ∧ core_Register request = None) ∧
        ∀ t nt, notify t nt (ss_apiFactory ss') = expected_calls namespace t nt
    | Some _ => services_down ss' ∧ ss_scheduling ss' = false
    end.
Proof. apply run_outcome. Qed.

(** Stopping the shim works and can be repeated. [Stop] on a shim that runs
    returns: it closes no channel twice and waits for nobody; afterwards all parts
    have been told to stop, further calls of [Stop] change nothing, and the
    scheduling loops do nothing more. *)
Theorem stop_is_idempotent ss ts :
  services_up ss →
  ∃ ss', ss_Stop ss = Some ss' ∧ services_down ss' ∧ ss_Stop ss' = Some ss' ∧
    ticks conf ts ss' = Some ([], ss').
Proof.
  intros Hup. destruct (stop_services ss Hup) as (ss' & E & Hdown & _ & _). exists ss'.
  split_and!; [done..|by apply stop_again|]. destruct Hdown as [_ _ _ [Hc _]].
  induction ts as [|t ts IH]; [done|]. cbn [ticks]. unfold tick. rewrite Hc, andb_false_r.
  cbn [mbind option_bind]. by rewrite IH.
Qed.

(** The process ends: with a message when something could not be started, or
    with everything stopped on a signal. *)
Theorem main_stops_everything volumeBinderError draEnabled trackerError bootstrap rmProxy d n :
  handlers_agree → listing_ok world_init → (∀ t, HasSynced n t = true) → n < fuel → d_running d = false →
  ∃ e, shim_main conf namespace get core_Register informer_error HasSynced fuel volumeBinderError
         draEnabled trackerError bootstrap rmProxy d = Some e ∧
    match e with Stopped ss => services_down ss | _ => True end.
Proof.
  intros Hag HL0 Hn Hf Hd. unfold shim_main. destruct bootstrap as [configMaps|err]; [|by eexists].
  destruct (reload _ _ _) as [config [e|]]; [by eexists|]. destruct rmProxy; [|by eexists].
  unfold NewShimScheduler. destruct volumeBinderError; [by eexists|].
  destruct (NewContextWithBootstrapConfigMaps _ _ _ _) as [[w config']|] eqn:Ec; [|by eexists].
  assert (w = world_init) as -> by (by destruct draEnabled, trackerError; simplify_eq/=).
  destruct (run_outcome false world_init config' d n Hag world_ok_init HL0 Hn Hf Hd)
    as (err & ss & -> & _ & Hout). cbn [mbind option_bind].
  destruct err as [err|]; [by eexists|]. destruct Hout as (Hup & _).
  destruct (stop_services ss Hup) as (ss' & -> & Hdown & _). by eexists.
Qed.

(** ** The message about outstanding applications *)

(** [k] iterations of the scheduling loop: whether one of them found an
    application with outstanding requests. *)
Fixpoint rounds (k : nat) (w : World) : option (bool * World) :=
  match k with
  | 0 => Some (false, w)
  | S k' =>
      '(found, w) ← Callback.schedule conf false w;
      '(found', w) ← rounds k' w;
      Some (found || found', w)
  end.

Lemma schedule_accumulates found w :
  Callback.schedule conf found w =
  '(found', w') ← Callback.schedule conf false w; Some (found || found', w').
Proof.
  unfold Callback.schedule, Callback.GetAllApplications. rewrite !run_bind. cbn.
  generalize (go_range (w_applications w)).*2. intros apps.
  enough (∀ b w, Callback.schedule_apps conf apps (found || b) w =
    '(found', w') ← Callback.schedule_apps conf apps b w; Some (found || found', w')) as Hgen
    by (specialize (Hgen false w); by rewrite orb_false_r in Hgen).
  induction apps as [|a apps IH]; intros b w0; cbn [Callback.schedule_apps]; [done|].
  rewrite !run_bind. destruct (get_app a w0) as [[app w1]|]; [|done]. destruct (bool_decide _).
  - rewrite !run_bind. destruct (AreAllTasksTerminated a w1) as [[dn w2]|]; [|done].
    rewrite !run_bind. destruct dn; [|apply IH].
    destruct (removeApplication _ w2) as [[[] w3]|]; [|done]. apply IH.
  - rewrite !run_bind. destruct (Schedule conf a w1) as [[f w2]|]; [|done]. by rewrite <- IH, orb_assoc.
Qed.

Lemma ticks_rounds k ss found w :
  ss_scheduling ss = true → ss_stopChan ss = false → rounds k (ss_world ss) = Some (found, w) →
  ticks conf (replicate k TSchedule ++ [TCheck]) ss =
  Some ([negb (ss_outstandingAppsFound ss || found)], ss_set_round w false ss).
Proof.
  intros Hs Hc. revert ss found Hs Hc. induction k as [|k IH]; intros ss found Hs Hc; cbn [rounds].
  - intros [= <- <-]. cbn. unfold tick, checkOutstandingApps. rewrite Hs, Hc, orb_false_r. cbn.
    destruct (ss_outstandingAppsFound ss) eqn:Ho; cbn; [done|]. destruct ss; simpl in *. by subst.
  - intros ([f1 w1] & E1 & ([f2 w2] & E2 & [= <- <-])%bind_Some)%bind_Some.
    cbn [replicate app ticks]. unfold tick at 1. rewrite Hs, Hc. cbn [andb negb]. unfold ss_schedule.
    rewrite schedule_accumulates, E1. cbn [mbind option_bind].
    rewrite (IH (ss_set_round w1 (ss_outstandingAppsFound ss || f1) ss) f2 Hs Hc E2).
    cbn. by rewrite orb_assoc.
Qed.

(** The message that no outstanding applications were found is logged at a check
    exactly when no iteration since the previous check has found one. *)
Theorem message_iff_nothing_outstanding k ss found w :
  ss_scheduling ss = true → ss_stopChan ss = false → rounds k (ss_world ss) = Some (found, w) →
  ∃ logged ss', ticks conf (TCheck :: replicate k TSchedule ++ [TCheck]) ss = Some ([logged; negb found], ss').
Proof.
  intros Hs Hc Hr. cbn [ticks]. unfold tick at 1, checkOutstandingApps. rewrite Hs, Hc. cbn [andb negb].
  destruct (ss_outstandingAppsFound ss) eqn:Ho; cbn [negb mbind option_bind].
  - rewrite (ticks_rounds k (ss_set_round (ss_world ss) false ss) found w Hs Hc Hr). by eexists _, _.
  - rewrite (ticks_rounds k ss found w Hs Hc Hr), Ho. by eexists _, _.
Qed.

End Thms.

(** ** The cluster of [ShimSafety] *)

Section Startup.
#[local] Existing Instance si_constants_ref.
#[local] Existing Instance json_none.
#[local] Existing Instance env_start.
#[local] Existing Instance env_start_volumes.
#[local] Existing Instance env_start_core.
#[local] Existing Instance env_start_messages.
#[local] Existing Instance conf_env_ref.
#[local] Existing Instance zap_none.

Definition empty_config : ConfigState := mkConfigState None None [] [].

(** The informers have synced after two seconds. *)
Definition two_seconds (now : nat) (_ : InformerType) : bool := bool_decide (2 <= now).

Definition new_shim : KubernetesShim :=
  newShimSchedulerInternal (NewAPIFactory false) world_init empty_config (initDispatcher 10 300 0).

Definition run_shim (core_Register : RegisterRequest → option string) :=
  ss_Run conf_ref "default" (λ _, inl None) core_Register (λ _, None) two_seconds 3 new_shim.

Lemma start_agrees : handlers_agree "default" (λ _, None).
Proof. by intros tr api. Qed.

(** With a core that accepts the registration the shim starts, with one that
    refuses it the shim is stopped. *)
Example run_outcomes :
  (match run_shim (λ _, None) with Some (None, ss) => ss_scheduling ss | _ => false end,
   match run_shim (λ _, Some "refused") with
   | Some (Some err, ss) => (err, ss_scheduling ss, ss_stopOnce ss) | _ => ("", true, false) end)
  = (true, ("refused", false, true)).
Proof. vm_compute. reflexivity. Qed.

Lemma run_is_all_or_nothing_witness :
  ∃ err ss', run_shim (λ _, Some "refused") = Some (err, ss') ∧ world_ok (ss_world ss').
Proof.
  destruct (run_is_all_or_nothing conf_ref "default" (λ _, inl None) (λ _, Some "refused") (λ _, None)
    two_seconds 3 false world_init empty_config (initDispatcher 10 300 0) 2) as (err & ss' & E & Hw & _).
  - apply start_agrees.
  - apply world_ok_init.
  - apply cluster_listing_ok.
  - reflexivity.
  - lia.
  - reflexivity.
  - exists err, ss'. by split.
Defined.

(** A shim whose services run. *)
Definition running_shim : KubernetesShim :=
  mkShim (mkAPIFactory false Clients_Run false []) world_init empty_config (mkPhManager true 1 0 [])
    (Start (initDispatcher 10 300 0)) false false true false [].

Lemma running_shim_up : services_up running_shim.
Proof. split; simpl; try done. split; [done|]. intros _ t. apply all_informers_run. Qed.

Lemma stop_is_idempotent_witness :
  ∃ ss', ss_Stop running_shim = Some ss' ∧ services_down ss' ∧ ss_Stop ss' = Some ss' ∧
    ticks conf_ref [TSchedule; TCheck] ss' = Some ([], ss').
Proof. apply (stop_is_idempotent conf_ref running_shim [TSchedule; TCheck] running_shim_up). Defined.

End Startup.
