(* ===== verification/ShimLocks.v ===== *)
(** * The locks of the shim

    Which locks the entry points of the shim take and which shared variables they
    access under them, function by function: the informer handlers of
    pkg/cache/context.go, the callbacks of the scheduler core, the handlers of the
    dispatcher, the scheduling loop and the goroutines of binding and of the
    placeholders.  The locks are ordered, so the goroutines never deadlock; most
    entry points access everything under its lock, so they never race; the others
    are shown to race.

    What runs inside a lock and touches no shared variable of the shim (requests to
    the core, calls of the API server, logging, dispatching an event) is left out,
    and so are fields that do not change once their object is published.  The state
    machine package has locks of its own: [event] is what its [Event] does around the
    hook that runs before a transition. *)

From S2P Require Import Prelude.
From S2P Require Import World.
From S2P Require Import Locks.

(** The mutex of [getPlaceholderManager], the placeholder manager, the context, the
    handlers of the dispatcher, an application, a task, the event lock of a task's
    state machine, the scheduler cache, the shim. *)
Inductive Lock :=
  | LManagers | LManager | LContext | LHandlers | LApp (a : string) | LTask (t : string)
  | LFsm (t : string) | LCache | LShim.

Inductive Var :=
  | VApplications
  | VConfigMaps
  | VHandlers
  | VTaskMap (a : string)
  | VOriginator (a : string)
  | VReleaseable (a : string)
  | VTask (t : string)
  | VCache
  | VNodeLists
  | VNodeObject (n : string)
  | VOrphans
  | VOutstanding.

#[export] Instance Lock_eq_dec : EqDecision Lock.
Proof. solve_decision. Defined.
#[export] Instance Var_eq_dec : EqDecision Var.
Proof. solve_decision. Defined.

Definition rank (l : Lock) : nat :=
  match l with
  | LManagers => 0 | LManager => 1 | LContext => 2 | LHandlers => 3 | LApp _ => 4 | LTask _ => 5
  | LFsm _ => 6 | LCache => 7 | LShim => 8
  end.

(** The node of a [NodeInfo] is replaced under both locks, by [UpdateNode]. *)
Definition var_guards (v : Var) : list Lock :=
  match v with
  | VApplications | VConfigMaps => [LContext]
  | VHandlers => [LHandlers]
  | VTaskMap a | VOriginator a | VReleaseable a => [LApp a]
  | VTask t => [LTask t]
  | VCache | VNodeLists => [LCache]
  | VNodeObject _ => [LContext; LCache]
  | VOrphans => [LManager]
  | VOutstanding => [LShim]
  end.

Abbreviation SProg := (@Prog Lock Var).

Definition seq (ps : list SProg) : SProg := foldr Seq Skip ps.
Definition alts (ps : list SProg) : SProg := foldr Alt Skip ps.
Definition opt (p : SProg) : SProg := Alt p Skip.
Definition rd (v : Var) : SProg := Do v Read.
Definition wr (v : Var) : SProg := Do v Write.

(** ** The scheduler cache *)

(** [GetNode], [GetPriorityClass], [IsAssumedPod], [ArePodVolumesAllBound], [GetPod],
    [IsPodOrphaned], [List], [GetSchedulerCacheDao] *)
Definition cache_read : SProg := Locked LCache Read (rd VCache).
Definition GetNodeInfo_locks : SProg :=
  Locked LCache Read (seq [rd VCache; opt (Any (λ n, rd (VNodeObject n)))]).

Definition cache_UpdateNode : SProg :=
  Locked LCache Write (seq [wr VCache; Any (λ n, wr (VNodeObject n)); wr VNodeLists]).
(** [RemoveNode], [UpdatePod], [RemovePod], [AssumePod], [ForgetPod] *)
Definition cache_write : SProg := Locked LCache Write (seq [wr VCache; opt (wr VNodeLists)]).
(** [UpdatePriorityClass], [RemovePriorityClass] *)
Definition cache_pc : SProg := Locked LCache Write (wr VCache).

(** [GetNodesInfo], [GetNodesInfoPodsWithAffinity],
    [GetNodesInfoPodsWithReqAntiAffinity]: the list is built when it is not there. *)
Definition nodes_info : SProg := seq [rd VNodeLists; opt (seq [rd VCache; wr VNodeLists])].

(** ** Applications *)

(** A getter of a field that is set before the application is published, and its
    setter. *)
Definition app_get (a : string) : SProg := Locked (LApp a) Read Skip.
Definition app_set (a : string) : SProg := Locked (LApp a) Write Skip.
(** [GetTask], [GetNewTasks], [GetAllocatedTasks], [GetPlaceHolderTasks] *)
Definition app_tasks (a : string) : SProg := Locked (LApp a) Read (rd (VTaskMap a)).
(** [addTask], [RemoveTask], [removeCompletedTasks] *)
Definition app_change_tasks (a : string) : SProg :=
  Locked (LApp a) Write (seq [rd (VTaskMap a); opt (wr (VTaskMap a))]).
Definition GetOriginatingTask_locks (a : string) : SProg := Locked (LApp a) Read (rd (VOriginator a)).
Definition setOriginatingTask_locks (a : string) : SProg := Locked (LApp a) Write (wr (VOriginator a)).
Definition tryAddReleasableTask_locks (a : string) : SProg :=
  Locked (LApp a) Write (opt (seq [rd (VReleaseable a); opt (wr (VReleaseable a))])).

(** ** Tasks *)

Definition task_get (t : string) : SProg := Locked (LTask t) Read (rd (VTask t)).
Definition task_set (t : string) : SProg := Locked (LTask t) Write (wr (VTask t)).

(** [isPreemptSelfAllowed] may look up the priority class. *)
Definition updateAllocation_locks (t : string) : SProg := seq [rd (VTask t); opt cache_read].
Definition SetTaskPod_locks (t : string) : SProg :=
  Locked (LTask t) Write (seq [wr (VTask t); opt (seq [wr (VTask t); updateAllocation_locks t])]).

(** [shouldAppRelease] gives up the task lock around the call into the application. *)
Definition shouldAppRelease_locks (a t : string) : SProg :=
  Unlocked (LTask t) Write (tryAddReleasableTask_locks a).
Definition releaseAllocation_locks (force : bool) (a t : string) : SProg :=
  seq [rd (VTask t); (if force then Skip else shouldAppRelease_locks a t); opt (rd (VTask t))].

Section Events.
(** What the state machine package does around a before hook. *)
Context (event : string → SProg → SProg).

(** The hook before a task event and the ones after it. *)
Definition before_task_event (a t : string) (e : TaskEventType) : SProg :=
  match e with
  | TaskFail => seq [rd (VTask t); releaseAllocation_locks false a t]
  | TaskAllocated => seq [wr (VTask t); opt (releaseAllocation_locks false a t)]
  | CompleteTask => seq [releaseAllocation_locks false a t; rd (VTask t)]
  | _ => Skip
  end.

Definition after_task_event (t : string) (e : TaskEventType) : SProg :=
  match e with
  | SubmitTask => seq [rd (VTask t); updateAllocation_locks t; opt (rd (VTask t))]
  | TaskAllocated | TaskRejected | TaskBound => rd (VTask t)
  | _ => Skip
  end.

Definition task_handle_locks (a t : string) (e : TaskEventType) : SProg :=
  Locked (LTask t) Write (seq [event t (before_task_event a t e); opt (after_task_event t e)]).
End Events.

(** ** The context *)

Definition GetApplication_locks : SProg := Locked LContext Read (rd VApplications).
Definition RemoveApplication_locks : SProg :=
  Locked LContext Write (seq [rd VApplications; opt (wr VApplications)]).
Definition getTask_locks (a : string) : SProg :=
  Locked LContext Read (seq [rd VApplications; opt (app_tasks a)]).

(** The setters run on the new application, before it is in the map. *)
Definition addApplication_locks (a : string) : SProg :=
  seq [rd VApplications; opt (seq [Star (app_set a); wr VApplications])].

Definition addTask_locks (a t : string) : SProg :=
  seq [rd VApplications;
       opt (seq [app_tasks a;
                 opt (seq [opt (seq [GetOriginatingTask_locks a; opt (app_get a)]);
                           task_set t;
                           app_change_tasks a;
                           opt (seq [GetOriginatingTask_locks a; setOriginatingTask_locks a])])])].

Definition ensureAppAndTaskCreated_locks (a t : string) : SProg :=
  seq [opt (addApplication_locks a); opt (seq [app_tasks a; opt (addTask_locks a t)])].

Definition updateYuniKornPod_locks (a t : string) : SProg :=
  seq [rd VApplications;
       opt (seq [app_tasks a; opt (SetTaskPod_locks t)]);
       Alt cache_write (seq [cache_write; opt (ensureAppAndTaskCreated_locks a t)])].

Definition updateForeignPod_locks : SProg :=
  alts [cache_write; seq [cache_read; opt cache_write]].

Definition any_pod : SProg :=
  Alt updateForeignPod_locks (Any (λ a, Any (λ t, updateYuniKornPod_locks a t))).

Definition UpdatePod_locks : SProg := Locked LContext Write (opt (seq [opt cache_read; any_pod])).

Definition DeletePod_locks : SProg :=
  alts [Locked LContext Write cache_write;
        Locked LContext Write (seq [opt (rd VApplications); cache_write])].

(** The handler stays registered until the lock is back; the wait is without it. *)
Definition registerNodesInternal_locks : SProg :=
  seq [Locked LHandlers Write (wr VHandlers);
       opt (Unlocked LContext Write Skip);
       Locked LHandlers Write (wr VHandlers)].

Definition updateNodeInternal_locks (register : bool) : SProg :=
  seq [cache_UpdateNode;
       opt (seq [(if register then registerNodesInternal_locks else Skip);
                 Alt cache_write (Star any_pod)])].

Definition updateNode_locks : SProg := Locked LContext Write (opt (updateNodeInternal_locks true)).
Definition RegisterNodes_locks : SProg := Locked LContext Write registerNodesInternal_locks.
Definition addNodesWithoutRegistering_locks : SProg :=
  Locked LContext Write (Star (updateNodeInternal_locks false)).
Definition deleteNode_locks : SProg := Locked LContext Write (opt cache_write).
(** [updatePriorityClass], [deletePriorityClass] *)
Definition priorityClass_locks : SProg := Locked LContext Write (opt cache_pc).
Definition setConfigMap_locks : SProg := Locked LContext Write (seq [wr VConfigMaps; rd VConfigMaps]).

(** [InitializeState]: the priority classes and the nodes that went away meanwhile
    are removed without the context lock. *)
Definition InitializeState_locks : SProg :=
  seq [Star cache_pc; RegisterNodes_locks; addNodesWithoutRegistering_locks; Star UpdatePod_locks;
       Star priorityClass_locks; Star cache_write; Star DeletePod_locks].

Definition AssumePod_locks : SProg :=
  Locked LContext Write
    (seq [cache_read; opt (seq [cache_read; opt (seq [Any (λ n, rd (VNodeObject n)); opt cache_write])])]).
Definition ForgetPod_locks : SProg := Locked LContext Write (seq [cache_read; opt cache_write]).
Definition RevertPodVolumeAssumptions_locks : SProg :=
  Locked LContext Write
    (seq [cache_read; opt (seq [cache_read; opt (Any (λ n, rd (VNodeObject n)))])]).

(** [IsPodFitNode], [IsPodFitNodeViaPreemption]: the plugins of the scheduling framework
    read the cache and may ask the listers for a list of nodes. *)
Definition IsPodFitNode_locks (lists : bool) : SProg :=
  Locked LContext Read
    (seq [cache_read;
          opt (seq [cache_read;
                    opt (Locked LCache Read
                           (Star (alts [rd VCache; Any (λ n, rd (VNodeObject n));
                                        if lists then nodes_info else Skip])))])]).

(** A record of a node reads the node of the [NodeInfo] that [GetNode] returned. *)
Definition PublishEvents_locks (nodes : bool) : SProg :=
  Star (alts [Any (λ a, Any (λ t, seq [getTask_locks a; opt (task_get t)]));
              if nodes then seq [cache_read; opt (Any (λ n, rd (VNodeObject n)))] else Skip]).

Definition HandleContainerStateUpdate_locks : SProg :=
  Any (λ a, Any (λ t,
    seq [getTask_locks a; opt (seq [task_set t; opt (seq [task_set t; opt (task_get t)])])])).

(** ** Binding, and taking an allocation back *)

Definition bindPodVolumes_locks : SProg :=
  seq [cache_read; opt (seq [cache_read; opt GetNodeInfo_locks])].

Definition rollbackAllocation_locks : SProg := seq [RevertPodVolumeAssumptions_locks; ForgetPod_locks].
(** [rollbackOnAssumePodFailure], [rescheduleOnBindFailure] *)
Definition take_back_locks (t : string) : SProg := seq [task_set t; rollbackAllocation_locks].

(** The goroutine of [postTaskAllocated]. *)
Definition bind_locks (t : string) : SProg :=
  Alt (Locked (LTask t) Write (seq [Star bindPodVolumes_locks; wr (VTask t)]))
      (seq [Locked (LTask t) Write (Star bindPodVolumes_locks); take_back_locks t]).

(** The callback for new and for released allocations. *)
Definition UpdateAllocation_locks : SProg :=
  seq [Star (Any (λ a, Any (λ t,
         seq [getTask_locks a;
              opt (seq [task_set t; Star AssumePod_locks;
                        alts [task_get t; take_back_locks t; seq [task_get t; opt (task_set t)]]])])));
       Star ForgetPod_locks].

Definition UpdateApplication_locks : SProg :=
  seq [Star (Any (λ a, seq [GetApplication_locks; Star (app_get a)]));
       Star (alts [RemoveApplication_locks; GetApplication_locks])].

(** ** Events of applications *)

(** The pod of the originator, for an event. *)
Definition tell_originator (a : string) : SProg :=
  seq [rd (VOriginator a); opt (Any (λ o, task_get o))].

(** The callbacks of the state machine, which [handle] runs under the lock. *)
Definition app_callback_locks (a : string) (e : ApplicationEventType) : SProg :=
  match e with
  | AcceptApplication =>
      seq [rd (VReleaseable a);
           opt (seq [wr (VReleaseable a); rd (VTaskMap a);
                     Alt (seq [rd VApplications; opt (wr VApplications)])
                         (Star (Any (λ t, releaseAllocation_locks true a t)))])]
  | TryReserve => seq [rd (VTaskMap a); opt (tell_originator a)]
  | UpdateReservation =>
      seq [tell_originator a; rd (VTaskMap a); Star (Any (λ t, task_get t)); opt (tell_originator a)]
  | ResumingApplication => tell_originator a
  | RejectApplication => wr (VReleaseable a)
  | FailApplication => seq [wr (VReleaseable a); rd (VTaskMap a); Star (Any (λ t, task_get t))]
  | ReleaseAppAllocation =>
      seq [rd (VTaskMap a);
           opt (Any (λ t, seq [task_set t; task_get t; rd (VOriginator a);
                               Star (Any (λ o, task_get o)); task_get t]))]
  | AppTaskCompleted | SubmitApplication => rd (VTaskMap a)
  | RunApplication | CompleteApplication | KillApplication | KilledApplication => Skip
  end.

Definition app_handle_locks (a : string) (e : ApplicationEventType) : SProg :=
  Locked (LApp a) Write (opt (app_callback_locks a e)).

Definition ApplicationEventHandler_locks (e : ApplicationEventType) : SProg :=
  Any (λ a, seq [GetApplication_locks; opt (seq [app_get a; opt (app_handle_locks a e)])]).

(** ** Placeholders *)

(** [getPlaceholderManager], then [cleanUp]. *)
Definition cleanUp_locks (a : string) : SProg :=
  seq [Locked LManagers Write Skip;
       Locked LManager Write
         (seq [app_get a; app_tasks a;
               Star (Any (λ t, seq [task_get t; opt (seq [task_get t; wr VOrphans])]));
               app_get a])].

Definition newPlaceholder_locks (a : string) : SProg :=
  seq [Star (app_get a); GetOriginatingTask_locks a; opt (Any (λ o, task_get o)); Star (app_get a)].

(** The placeholders there are already are read without the application's lock. *)
Definition createAppPlaceholders_locks (a : string) : SProg :=
  Locked LManager Write
    (seq [rd (VTaskMap a); Star (Any (λ t, task_get t)); app_get a; Star (newPlaceholder_locks a)]).

(** The goroutine of [onReserving]. *)
Definition reserve_locks (a : string) : SProg :=
  seq [Locked LManagers Write Skip; createAppPlaceholders_locks a;
       opt (seq [cleanUp_locks a; tell_originator a])].

Definition cleanOrphanPlaceholders_locks : SProg :=
  Locked LManager Write (Star (seq [rd VOrphans; opt (wr VOrphans)])).

(** ** The scheduling loop and the event handler of tasks *)

Section Loop.
Context (event : string → SProg → SProg).

Definition TaskEventHandler_locks (e : TaskEventType) : SProg :=
  Any (λ a, Any (λ t,
    seq [getTask_locks a; opt (seq [task_get t; opt (task_handle_locks event a t e)])])).

(** The sanity check and the metadata check read the pod under the task's lock. *)
Definition scheduleTasks_locks (a : string) : SProg :=
  seq [app_tasks a;
       Star (Any (λ t, seq [task_get t;
                            Alt (seq [task_get t; task_handle_locks event a t InitTask]) (task_get t)]))].

Definition Schedule_locks (a : string) (st : AppState) : SProg :=
  match st with
  | ANew => seq [app_get a; app_handle_locks a SubmitApplication]
  | AAccepted => seq [app_tasks a; opt (rd (VTaskMap a))]
  | AReserving | ARunning => seq [scheduleTasks_locks a; app_change_tasks a; app_tasks a]
  | _ => app_get a
  end.

(** What the loop does with an application. *)
Definition schedule_app_locks (a : string) (st : AppState) : SProg :=
  match st with
  | AFailed => seq [rd (VTaskMap a); opt (seq [app_get a; RemoveApplication_locks])]
  | _ => seq [Schedule_locks a st; opt (Locked LShim Write (wr VOutstanding))]
  end.

(** One pass, over applications in the given states. *)
Definition schedule_locks (sts : list AppState) : SProg :=
  seq [GetApplication_locks;
       Star (Any (λ a, alts (schedule_app_locks a <$> sts)))].

Definition checkOutstandingApps_locks : SProg :=
  seq [Locked LShim Read (rd VOutstanding); opt (Locked LShim Write (wr VOutstanding))].

(** ** The entry points *)

Inductive Entry :=
  | EUpdatePod | EDeletePod | EUpdateNode | EDeleteNode | EPriorityClass | EConfigMap | EInitializeState
  | EPredicates (lists : bool) | EUpdateAllocation | EUpdateApplication | EPublishEvents (nodes : bool)
  | EContainerState | EStateDump
  | EApplicationEvent (e : ApplicationEventType) | ETaskEvent (e : TaskEventType)
  | ESchedule (sts : list AppState) | ECheckOutstanding
  | EBind | EReserve | ECleanUp | ECleanOrphans.

Definition entry (x : Entry) : SProg :=
  match x with
  | EUpdatePod => UpdatePod_locks
  | EDeletePod => DeletePod_locks
  | EUpdateNode => updateNode_locks
  | EDeleteNode => deleteNode_locks
  | EPriorityClass => priorityClass_locks
  | EConfigMap => setConfigMap_locks
  | EInitializeState => InitializeState_locks
  | EPredicates lists => IsPodFitNode_locks lists
  | EUpdateAllocation => UpdateAllocation_locks
  | EUpdateApplication => UpdateApplication_locks
  | EPublishEvents nodes => PublishEvents_locks nodes
  | EContainerState => HandleContainerStateUpdate_locks
  | EStateDump => cache_read
  | EApplicationEvent e => ApplicationEventHandler_locks e
  | ETaskEvent e => TaskEventHandler_locks e
  | ESchedule sts => schedule_locks sts
  | ECheckOutstanding => checkOutstandingApps_locks
  | EBind => Any bind_locks
  | EReserve => Any reserve_locks
  | ECleanUp => Any cleanUp_locks
  | ECleanOrphans => cleanOrphanPlaceholders_locks
  end.
End Loop.

(** The entry points that leave no access outside its lock. *)
Definition under_locks (x : Entry) : Prop :=
  match x with
  | EPredicates lists => lists = false
  | EPublishEvents nodes => nodes = false
  | EApplicationEvent e => e ≠ AcceptApplication
  | ESchedule sts => (AAccepted ∉ sts) ∧ (AFailed ∉ sts)
  | EReserve => False
  | _ => True
  end.

(** The goroutines of some entry points, each on one of its paths. *)
Definition goroutines (event : string → SProg → SProg) (xs : list Entry) (acts : list (list Act)) : Prop :=
  Forall2 trace (entry event <$> xs) acts.

(** A hook that runs with the task's lock only, and one that runs with the event
    lock of the state machine too. *)
Definition event_plain (_ : string) (p : SProg) : SProg := p.
Definition event_locked (t : string) (p : SProg) : SProg := Locked (LFsm t) Write p.

(** ** The discipline *)

(** Nothing but the order of the locks. *)
Definition any_access (_ : list (Lock * Mode)) (_ : Var) (_ : Mode) : Prop := True.
#[export] Instance any_access_dec held v m : Decision (any_access held v m).
Proof. left. exact I. Defined.

(** Splits the discipline of a program into its locks and its accesses. *)
Ltac locks_leaf :=
  lazymatch goal with
  | |- below _ _ _ => unfold below; repeat constructor; cbn; lia
  | |- any_access _ _ _ => exact I
  | |- guarded _ _ _ Read => first [apply Exists_cons_hd; set_solver | apply Exists_cons_tl, Exists_cons_hd; set_solver]
  | |- guarded _ _ _ Write => split; [done|repeat constructor; set_solver]
  | _ => done
  end.

Ltac locks_split :=
  lazymatch goal with
  | |- _ ∧ _ => split; locks_split
  | |- ∀ _, _ => intros ?; locks_split
  | _ => locks_leaf
  end.

Ltac locks_tac := cbn -[below guarded any_access]; locks_split.

Lemma ok_alts allowed held ps : Forall (ok rank allowed held) ps → ok rank allowed held (alts ps).
Proof. induction 1; [done|]. by split. Qed.

(** The locks of every entry point are taken in order. *)
Lemma entry_ordered x : ok rank any_access [] (entry event_plain x).
Proof.
  destruct x as [| | | | | | |[]| | |[]| | |e|e|sts| | | | |]; try (by locks_tac).
  - destruct e; locks_tac.
  - destruct e; locks_tac.
  - split; [locks_tac|]. split; [|done]. intros a. apply ok_alts, Forall_fmap, Forall_true. intros st.
    destruct st; locks_tac.
Qed.

(** Those that are [under_locks] access every variable under its lock. *)
Lemma entry_guarded x : under_locks x → ok rank (guarded var_guards) [] (entry event_plain x).
Proof.
  destruct x as [| | | | | | |[]| | |[]| | |e|e|sts| | | | |]; intros Hx; try done; try (by locks_tac).
  - destruct e; try done; locks_tac.
  - destruct e; locks_tac.
  - destruct Hx as [Hacc Hfail]. split; [locks_tac|]. split; [|done]. intros a.
    apply ok_alts, Forall_fmap, Forall_forall. intros st Hst.
    destruct st; try done; locks_tac.
Qed.

(** ** Races *)

Lemma trace_star_mono (p q : SProg) a :
  (∀ b, trace p b → trace q b) → trace (Star p) a → trace (Star q) a.
Proof.
  intros Hpq. remember (Star p) as r eqn:Hr. induction 1; try done; injection Hr as ->.
  - apply t_done.
  - apply t_again; auto.
Qed.

Lemma trace_alts (ps : list SProg) p a : p ∈ ps → trace p a → trace (alts ps) a.
Proof.
  induction ps as [|q ps IH]; [by intros ?%elem_of_nil|]. rewrite elem_of_cons.
  intros [-> |Hp] Ha; [by apply t_left|]. apply t_right, IH; done.
Qed.

Lemma trace_alts_skip (ps : list SProg) : trace (alts ps) [].
Proof. induction ps; [apply t_skip|by apply t_right]. Qed.

(** A pass over applications in one state is a pass over those in several. *)
Lemma trace_schedule event st sts a :
  st ∈ sts → trace (schedule_locks event [st]) a → trace (schedule_locks event sts) a.
Proof.
  intros Hst Ha. inversion Ha as [| | | |? ? b c Hb Hc| | | | |]; subst.
  inversion Hc as [| | | |? ? d f Hd Hf| | | | |]; subst. apply t_seq; [done|]. apply t_seq; [|done].
  revert Hd. apply trace_star_mono. intros g Hg. inversion Hg as [| | | | | | | | |? x ? Hx]; subst.
  apply (t_any _ x). inversion Hx as [| | | | |? ? ? Hl|? ? ? Hr| | |]; subst.
  - eapply trace_alts; [|exact Hl]. by apply list_elem_of_fmap_2.
  - inversion Hr; subst. apply trace_alts_skip.
Qed.

Lemma goroutines_schedule event st sts y acts :
  st ∈ sts → goroutines event [ESchedule [st]; y] acts → goroutines event [ESchedule sts; y] acts.
Proof.
  intros Hst Hg. inversion Hg as [|p a ps acts' Ha Hy]; subst. constructor; [|done].
  by eapply trace_schedule.
Qed.

(** An entry point on a path, and how far it goes. *)
Record Go := mkGo { go_entry : Entry; go_path : list Choice; go_steps : nat }.

Definition duo (n : nat) (event : string → SProg → SProg) (x y : Go) : option (list Thread) :=
  play n (entry event <$> [go_entry x; go_entry y]) [go_path x; go_path y]
       (replicate (go_steps x) 0 ++ replicate (go_steps y) 1).

Lemma duo_reachable n event x y ts :
  duo n event x y = Some ts → ∃ acts, goroutines event [go_entry x; go_entry y] acts ∧ treachable (start <$> acts) ts.
Proof. intros Hd. by apply play_reachable in Hd. Qed.

Lemma duo_race n event x y ts :
  duo n event x y = Some ts → race_at 0 1 ts = true →
  ∃ acts ts, goroutines event [go_entry x; go_entry y] acts ∧ treachable (start <$> acts) ts ∧ race ts.
Proof.
  intros (acts & Hg & Hts)%duo_reachable Hr. exists acts, ts. split_and!; [done..|]. by eapply race_at_race.
Qed.

(** The pod of a new task, before the task is in the map; the same pod on its way
    into the context; an update of a node. *)
Definition path_new_task : list Choice :=
  [First; Second; Second; Pick "a"; Pick "t"; Second; Second; Second; First; Second; First; First; First; First;
   Second; First; Second].
Definition go_new_task : Go := mkGo EUpdatePod path_new_task 21.
Definition go_update_pod : Go := mkGo EUpdatePod path_new_task 2.
Definition go_update_node : Go := mkGo EUpdateNode [First; Pick "n"; Second] 5.

(** The list of nodes is built under the lock for readers; the node of an event is
    read without a lock; an accepted application removes itself from the map of the
    context; the loop and the placeholders iterate over the tasks. *)
Definition go_predicates : Go :=
  mkGo (EPredicates true) [First; First; First; Second; Second; First; First; Second] 10.
Definition go_publish : Go := mkGo (EPublishEvents true) [First; Second; First; First; Pick "n"; Second] 3.
Definition go_accepted : Go :=
  mkGo (EApplicationEvent AcceptApplication) [Pick "b"; First; First; First; First; First; First] 11.
Definition go_schedule_accepted : Go :=
  mkGo (ESchedule [AAccepted]) [First; Pick "a"; First; First; Second; Second] 6.
Definition go_schedule_failed : Go := mkGo (ESchedule [AFailed]) [First; Pick "a"; First; Second; Second] 3.
Definition go_reserve : Go := mkGo EReserve [Pick "a"; Second; Second; Second] 5.

(** A task is completed, and its hook has given up the task's lock for the
    application's; meanwhile the loop initialises the task. *)
Definition go_complete (steps : nat) : Go :=
  mkGo (ETaskEvent CompleteTask)
       [Pick "a"; Pick "t"; First; First; First; First; First; Second; Second] steps.
Definition go_init (steps : nat) : Go :=
  mkGo (ESchedule [ARunning])
       [First; Pick "a"; First; First; Pick "t"; First; Second; Second; Second; Second; Second] steps.

Definition race_with (x : Go) : Go :=
  match go_entry x with
  | EPredicates _ => go_predicates
  | EPublishEvents _ => go_update_node
  | EApplicationEvent _ => go_update_pod
  | _ => go_new_task
  end.

Lemma go_races x :
  x ∈ [go_predicates; go_publish; go_accepted; go_schedule_accepted; go_schedule_failed; go_reserve] →
  ∃ ts, duo 50 event_plain x (race_with x) = Some ts ∧ race_at 0 1 ts = true.
Proof.
  rewrite !elem_of_cons, elem_of_nil. 
    intros [-> |[-> |[-> |[-> |[-> |[-> |[]]]]]]];
    eexists; (split; [vm_compute; reflexivity|vm_compute; reflexivity]).
Qed.

Lemma go_race x :
  x ∈ [go_predicates; go_publish; go_accepted; go_schedule_accepted; go_schedule_failed; go_reserve] →
  ∃ y acts ts, goroutines event_plain [go_entry x; y] acts ∧ treachable (start <$> acts) ts ∧ race ts.
Proof. intros (ts & Hd & Hr)%go_races. eexists. by eapply duo_race. Qed.

Lemma schedule_race x st sts :
  x ∈ [go_schedule_accepted; go_schedule_failed] → go_entry x = ESchedule [st] → st ∈ sts →
  ∃ y acts ts, goroutines event_plain [ESchedule sts; y] acts ∧ treachable (start <$> acts) ts ∧ race ts.
Proof.
  intros Hx He Hst. destruct (go_race x) as (y & acts & ts & Hg & Hr); [set_solver|].
  rewrite He in Hg. exists y, acts, ts. split; [|done]. by eapply goroutines_schedule.
Qed.

(** ** The theorems *)



(** C6: goroutines of entry points that are [under_locks] never race on the shim's
    shared state, on whatever paths they run. *)
Theorem goroutines_never_race xs acts ts :
  Forall under_locks xs → goroutines event_plain xs acts → treachable (start <$> acts) ts → ¬ race ts.
Proof.
  intros Hx Hg Hr. apply (locks_ok_no_race rank (guarded var_guards) var_guards); [done|].
  eapply ok_threads; [|exact Hg|exact Hr]. apply Forall_fmap.
  eapply Forall_impl; [exact Hx|]. apply entry_guarded.
Qed.

(** An update of a pod and the loop, in the middle of both. *)
Lemma goroutines_never_race_witness :
  ∃ acts ts, goroutines event_plain [EUpdatePod; ESchedule [ARunning]] acts ∧
    treachable (start <$> acts) ts ∧ ¬ race ts.
Proof.
  destruct (duo 50 event_plain go_update_pod (go_init 0)) as [ts|] eqn:E; [|by vm_compute in E].
  destruct (duo_reachable _ _ _ _ _ E) as (acts & Hg & Hr). exists acts, ts.
  split_and!; [done|done|]. apply (goroutines_never_race [EUpdatePod; ESchedule [ARunning]] acts ts); [|done..].
  repeat constructor; set_solver.
Defined.

(** Every other entry point does race: for each there is another one, a path of
    both and an interleaving that brings them to conflicting accesses. *)
Theorem the_others_race x :
  ¬ under_locks x →
  ∃ y acts ts, goroutines event_plain [x; y] acts ∧ treachable (start <$> acts) ts ∧ race ts.
Proof.
  destruct x as [| | | | | | |[]| | |[]| | |e|e|sts| | | | |]; cbn [under_locks]; intros Hx; try done.
  - apply (go_race go_predicates). set_solver.
  - apply (go_race go_publish). set_solver.
  - destruct (decide (e = AcceptApplication)) as [-> |]; [|done]. apply (go_race go_accepted). set_solver.
  - destruct (decide (AAccepted ∈ sts)) as [Ha|Ha].
    + apply (schedule_race go_schedule_accepted AAccepted); [set_solver|done..].
    + destruct (decide (AFailed ∈ sts)) as [Hf|Hf]; [|by destruct Hx].
      apply (schedule_race go_schedule_failed AFailed); [set_solver|done..].
  - apply (go_race go_reserve). set_solver.
Qed.

Lemma the_others_race_witness :
  ∃ y acts ts, goroutines event_plain [ESchedule [ARunning; AAccepted]; y] acts ∧
    treachable (start <$> acts) ts ∧ race ts.
Proof. apply (the_others_race (ESchedule [ARunning; AAccepted])). cbn. set_solver. Defined.

(** With a state machine that serialises its events, and keeps that lock while a
    before hook runs, the hook of a completed task and the loop wait for each other. *)
Theorem event_lock_deadlocks :
  ∃ acts ts ts', goroutines event_locked [ETaskEvent CompleteTask; ESchedule [ARunning]] acts ∧
    treachable (start <$> acts) ts ∧ interleave (replicate 5 0) ts = Some ts' ∧ deadlock ts'.
Proof.
  destruct (duo 50 event_locked (go_complete 15) (go_init 14)) as [ts|] eqn:E; [|by vm_compute in E].
  destruct (duo_reachable _ _ _ _ _ E) as (acts & Hg & Hr).
  destruct (interleave (replicate 5 0) ts) as [ts'|] eqn:E'.
  - exists acts, ts, ts'. split_and!; [done..|]. apply deadlocked_deadlock.
    vm_compute in E. injection E as <-. vm_compute in E'. injection E' as <-. by vm_compute.
  - vm_compute in E. injection E as <-. by vm_compute in E'.
Qed.
