(* ===== verification/CacheLock.v ===== *)
(** * Operations under a lock are atomic

    A lock, threads that change a shared state in small steps while they hold it for
    writing, and threads that look at the state while they hold it for reading.  What
    the readers see are states between whole operations.  For the scheduler cache
    (pkg/cache/external/scheduler_cache.go) it follows that predicates, which run under
    [LockForReads], see a consistent cache, into whatever steps its operations are
    split and however the threads interleave.

    Readers of the cache also store the node lists that they build; such a store is one
    step here, that is, the memory is sequentially consistent ([ShimLocks.the_others_race]
    shows that two of them can happen at the same time). *)

From S2P Require Import Prelude.
From S2P Require Import GoStrings.
From S2P Require Import K8sApi.
From S2P Require Import K8sInstances.
From S2P Require Import PodUtils.
From S2P Require Import SchedulerCache.
From S2P Require Import SchedulerCacheInv.
From S2P Require Import SchedulerCacheOps.
From S2P Require Import SchedulerCacheNodes.
From S2P Require Import SchedulerCacheThms.
From S2P Require Import SafetyCache.
From S2P Require Import Locks.
From S2P Require Import PodIdentity.

Section Atomic.
(** The state; steps have numbers. *)
Context {S : Type} (sem : nat → S → S).

Definition exec (vs : list nat) (s : S) : S := foldl (λ s v, sem v s) s vs.

(** A critical section: the write lock around some steps, or the read lock
    ([LockForReads], [UnlockForReads]) around some looks at the state, each of which may
    fill in what it finds missing. *)
Inductive Critical := Writing (vs : list nat) | Reading (vs : list nat).

Definition critical_acts (k : Critical) : list (@Act unit nat) :=
  match k with
  | Writing vs => Acquire tt Write :: ((λ v, Access v Write) <$> vs) ++ [Release tt Write]
  | Reading vs => Acquire tt Read :: ((λ v, Access v Read) <$> vs) ++ [Release tt Read]
  end.

Definition program (ks : list Critical) : list (@Act unit nat) := concat (critical_acts <$> ks).

(** The threads, the state, and what readers have seen. *)
Record Shared := mkShared {
  sh_threads : list (@Thread unit nat);
  sh_state : S;
  sh_seen : list S
}.

Definition dstep (i : nat) (d : Shared) : option Shared :=
  t ← sh_threads d !! i;
  ts ← tstep i (sh_threads d);
  Some (match accessing t with
        | Some (v, Write) => mkShared ts (sem v (sh_state d)) (sh_seen d)
        | Some (v, Read) => mkShared ts (sem v (sh_state d)) (sh_seen d ++ [sh_state d])
        | None => mkShared ts (sh_state d) (sh_seen d)
        end).

Inductive dreachable (d0 : Shared) : Shared → Prop :=
  | dr_start : dreachable d0 d0
  | dr_step i d d' : dreachable d0 d → dstep i d = Some d' → dreachable d0 d'.

Context (Inv : S → Prop).

(** Whole operations preserve the invariant; a step under the read lock is one. *)
Definition whole (k : Critical) : Prop :=
  match k with
  | Writing vs => ∀ s, Inv s → Inv (exec vs s)
  | Reading vs => ∀ v s, v ∈ vs → Inv s → Inv (sem v s)
  end.

(** Where a thread is; a writer has done a part of its section, from a state that
    satisfied the invariant. *)
Inductive phase (s : S) : @Thread unit nat → Prop :=
  | ph_out b ks : Forall whole ks → phase s (mkThread [] b (program ks))
  | ph_write s0 dn rest ks :
      Inv s0 → s = exec dn s0 → whole (Writing (dn ++ rest)) → Forall whole ks →
      phase s (mkThread [(tt, Write)] false
                 (((λ v, Access v Write) <$> rest) ++ Release tt Write :: program ks))
  | ph_read rest ks :
      whole (Reading rest) → Forall whole ks →
      phase s (mkThread [(tt, Read)] false
                 (((λ v, Access v Read) <$> rest) ++ Release tt Read :: program ks)).

Record data_ok (d : Shared) : Prop := {
  do_phase i t : sh_threads d !! i = Some t → phase (sh_state d) t;
  do_exclusive : exclusive (sh_threads d);
  do_inv : (∀ i t, sh_threads d !! i = Some t → (tt, Write) ∉ th_held t) → Inv (sh_state d);
  do_seen : Forall Inv (sh_seen d)
}.

Lemma exec_snoc vs v s : exec (vs ++ [v]) s = sem v (exec vs s).
Proof. unfold exec. by rewrite foldl_app. Qed.

(** Only the phase of a writer depends on the state. *)
Lemma phase_other s s' t : phase s t → (tt, Write) ∉ th_held t → phase s' t.
Proof.
  intros [b ks Hk|s0 dn rest ks H0 Hs Hw Hk|rest ks Hr Hk] Hn; [by constructor| |by constructor].
  cbn in Hn. by destruct Hn; left.
Qed.

(** A thread without the lock announces itself or takes the lock. *)
Lemma enter ts b ks t' s :
  Forall whole ks → next ts (mkThread [] b (program ks)) = Some t' →
  ((∀ j t, ts !! j = Some t → (tt, Write) ∉ th_held t) → Inv s) → phase s t'.
Proof.
  intros Hk Hn Hinv. unfold next in Hn. destruct ks as [|[vs|vs] ks]; [done|..];
    apply Forall_cons in Hk as [Hw Hk]; cbn [th_acts th_announced th_held] in Hn.
  - change (program (Writing vs :: ks))
      with (Acquire tt Write :: ((((λ v, Access v Write) <$> vs) ++ [Release tt Write]) ++ program ks)) in Hn.
    cbn iota in Hn. destruct b.
    + destruct (nobody tt ts) eqn:Hb; [|done]. injection Hn as <-.
      rewrite <- app_assoc. apply (ph_write s s []); [|done..]. apply Hinv. intros j t Hj Hin.
      eapply nobody_holds; [exact Hb|exact Hj|]. by apply (list_elem_of_fmap_2 fst) in Hin.
    + destruct (no_writer tt ts) eqn:Hb; [|done]. injection Hn as <-.
      apply (ph_out s true (Writing vs :: ks)). by constructor.
  - change (program (Reading vs :: ks))
      with (Acquire tt Read :: ((((λ v, Access v Read) <$> vs) ++ [Release tt Read]) ++ program ks)) in Hn.
    cbn iota in Hn. destruct (no_writer tt ts) eqn:Hb; [|done]. injection Hn as <-.
    rewrite <- app_assoc. by apply ph_read.
Qed.

(** What a step does to the data, by the mode of its access. *)
Lemma dstep_inv i d d' :
  dstep i d = Some d' →
  ∃ t t', sh_threads d !! i = Some t ∧ next (sh_threads d) t = Some t' ∧
    tstep i (sh_threads d) = Some (sh_threads d') ∧ sh_threads d' = <[i := t']> (sh_threads d) ∧
    sh_state d' = match accessing t with Some (v, _) => sem v (sh_state d) | None => sh_state d end ∧
    sh_seen d' = match accessing t with Some (_, Read) => sh_seen d ++ [sh_state d] | _ => sh_seen d end.
Proof.
  unfold dstep. destruct (sh_threads d !! i) as [t|] eqn:Hi; [|done]. cbn [mbind option_bind].
  destruct (tstep i (sh_threads d)) as [ts|] eqn:Ht; [|done]. cbn [mbind option_bind].
  destruct (tstep_inv _ _ _ Ht) as (t1 & t' & Hi' & Hn & ->). rewrite Hi in Hi'. injection Hi' as <-.
  intros [= <-]. exists t, t'. destruct (accessing t) as [[v [|]]|]; cbn; auto 10.
Qed.

(** While a thread holds the lock, no other thread writes. *)
Lemma others_read (ts : list (@Thread unit nat)) i t m :
  exclusive ts → ts !! i = Some t → (tt, m) ∈ th_held t →
  ∀ j u, ts !! j = Some u → j ≠ i → (tt, Write) ∉ th_held u.
Proof.
  intros Hex Hi Hm j u Hj Hne Hw. eapply (Hex j i u t tt); [done..|].
  by apply (list_elem_of_fmap_2 fst) in Hm.
Qed.

(** A step of a thread that holds the lock. *)
Lemma step_inside ts i t t' s :
  exclusive ts → ts !! i = Some t → phase s t → next ts t = Some t' → th_held t ≠ [] →
  ((∀ j u, ts !! j = Some u → (tt, Write) ∉ th_held u) → Inv s) →
  let s' := match accessing t with Some (v, _) => sem v s | None => s end in
  phase s' t' ∧ ((tt, Write) ∉ th_held t' → Inv s') ∧
  (∀ v, accessing t = Some (v, Read) → Inv s) ∧ (∃ m, (tt, m) ∈ th_held t).
Proof.
  intros Hex Hi Hp Hn Hne Hinv.
  destruct Hp as [b ks Hk|s0 dn rest ks H0 Hs Hw Hk|rest ks Hr Hk]; [done|..].
  - split_and!; [..|exists Write; left]; destruct rest as [|v rest]; cbn in Hn |- *; try done;
      injection Hn as <-; cbn.
    + by apply ph_out.
    + apply (ph_write _ s0 (dn ++ [v])); [done|by rewrite exec_snoc, Hs|by rewrite <- app_assoc|done].
    + intros _. rewrite Hs. rewrite app_nil_r in Hw. by apply Hw.
    + intros []. by left.
  - assert (Inv s) as Hs.
    { apply Hinv. intros j u Hj. destruct (decide (j = i)) as [->|Hji].
      - rewrite Hi in Hj. injection Hj as <-. cbn. by intros [?|?%elem_of_nil]%elem_of_cons.
      - eapply others_read; [exact Hex|exact Hi| |exact Hj|done]. by left. }
    split_and!; [..|done|exists Read; left]; destruct rest as [|v rest]; cbn in Hn |- *;
      injection Hn as <-; cbn.
    + by apply ph_out.
    + apply ph_read; [|done]. intros v' s' Hv. apply Hr. by right.
    + done.
    + intros _. apply Hr; [by left|done].
Qed.

(** The phases of the threads after a step of one of them. *)
Lemma phases_step (ts : list (@Thread unit nat)) i t' s s' :
  (∀ j u, ts !! j = Some u → phase s u) → phase s' t' →
  s' = s ∨ (∀ j u, ts !! j = Some u → j ≠ i → (tt, Write) ∉ th_held u) →
  ∀ j u, <[i := t']> ts !! j = Some u → phase s' u.
Proof.
  intros Hph Ht' Hs j u [(-> & <- & _)|[Hne Hj]]%list_lookup_insert_Some; [done|].
  destruct Hs as [->|Hw]; [by eapply Hph|]. eapply phase_other; [by eapply Hph|by eapply Hw].
Qed.

Lemma outside_idle ks (t : @Thread unit nat) b : t = mkThread [] b (program ks) → accessing t = None.
Proof. intros ->. by destruct ks as [|[vs|vs] ks]. Qed.

Lemma data_ok_step i d d' : data_ok d → dstep i d = Some d' → data_ok d'.
Proof.
  intros [Hph Hex Hinv Hseen] (t & t' & Hi & Hn & Ht & Hts & Hs & Hv)%dstep_inv.
  pose proof (Hph i t Hi) as Hp. pose proof (tstep_exclusive _ _ _ Hex Ht) as Hex'.
  assert (Hi' : sh_threads d' !! i = Some t').
  { rewrite Hts. apply list_lookup_insert_eq. by eapply lookup_lt_Some. }
  destruct (decide (th_held t = [])) as [Hh|Hh].
  - destruct Hp as [b ks Hk|s0 dn rest ks H0 Hs0 Hw Hk|rest ks Hr Hk]; [|done..].
    rewrite (outside_idle ks _ b eq_refl) in Hs, Hv. rewrite Hts in *. split; rewrite ?Hs, ?Hv, ?Hts; [|done|..|done].
    + apply (phases_step _ i t' (sh_state d)); [done| |by left]. by eapply enter.
    + intros Hno. apply Hinv. intros j u Hj. destruct (decide (i = j)) as [<-|Hij].
      * rewrite Hi in Hj. injection Hj as <-. apply not_elem_of_nil.
      * apply (Hno j u). by rewrite list_lookup_insert_ne.
  - destruct (step_inside _ i t t' (sh_state d) Hex Hi Hp Hn Hh Hinv) as (Hp' & Hi1 & Hr & m & Hm).
    rewrite <- Hs in Hp', Hi1. split; [|done|by intros Hno; eapply Hi1, Hno|].
    + rewrite Hts. eapply (phases_step _ i); [exact Hph|exact Hp'|]. right. by eapply others_read.
    + rewrite Hv. destruct (accessing t) as [[v [|]]|]; [|done..]. apply Forall_app. split; [done|].
      constructor; [|done]. by eapply Hr.
Qed.

(** Readers see the state between whole operations. *)
Lemma readers_see_whole kss s0 d :
  Inv s0 → Forall (Forall whole) kss →
  dreachable (mkShared (start <$> (program <$> kss)) s0 []) d → Forall Inv (sh_seen d).
Proof.
  intros H0 Hk Hd. apply do_seen. induction Hd as [|i d d' _ IH Hstep]; [|by eapply data_ok_step].
  rewrite <- list_fmap_compose. split; cbn [sh_threads sh_state sh_seen]; [..|done|by constructor].
  - intros i t (ks & -> & Hi)%list_lookup_fmap_Some. apply ph_out. by eapply (Forall_lookup_1 _ _ _ _ Hk).
  - intros i j t u l (ks & -> & _)%list_lookup_fmap_Some _ _ ?%elem_of_nil. done.
Qed.

(** A schedule names the threads that step. *)
Definition dplay (sched : list nat) (d : Shared) : option Shared := foldl (λ o i, o ≫= dstep i) (Some d) sched.

Lemma dplay_reachable sched d d' : dplay sched d = Some d' → dreachable d d'.
Proof.
  unfold dplay. revert d'. induction sched as [|i sched IH] using rev_ind; intros d'; [intros [= <-]; apply dr_start|].
  rewrite foldl_app. cbn [foldl]. destruct (foldl _ _ sched) as [d1|]; [|done].
  intros E. eapply dr_step; [by apply IH|exact E].
Qed.
End Atomic.

(** ** The scheduler cache *)

Section CacheAtomic.
Context `{NIO : NodeInfoOps} `{NIL : !NodeInfoLaws} `{MO : MapOrder}.

(** The pod that a UID stands for. *)
Context (ident : string → Pod).

(** The cache between operations. *)
Record cache_known (c : SchedulerCache) : Prop := {
  ck_reachable : reachable c;
  ck_wf : wf c;
  ck_pods k p : podsMap c !! k = Some p → same_identity p (ident k)
}.

Definition cache_op_pod (op : CacheOp) : option Pod :=
  match op with
  | OpUpdatePod pod | OpRemovePod pod | OpForgetPod pod | OpAssumePod pod _ => Some pod
  | _ => None
  end.

(** The callers hand in versions of known pods, and assume no pod that has ended. *)
Definition op_known (op : CacheOp) : Prop :=
  (∀ pod, cache_op_pod op = Some pod → pod_known ident pod) ∧
  match op with OpAssumePod pod _ => IsPodTerminated pod = false | _ => True end.

(** What runs under [LockForReads]. *)
Definition lists_nodes (op : CacheOp) : bool :=
  match op with
  | OpGetNodesInfo | OpGetNodesInfoPodsWithAffinity | OpGetNodesInfoPodsWithReqAntiAffinity => true
  | _ => false
  end.

Lemma pods_from_variant p q P P' :
  variant q p → pod_UID q = pod_UID p → pods_from (Some q) P P' → pods_from (Some p) P P'.
Proof.
  intros Hv Hu Hf k r Hr. destruct (Hf k r Hr) as (x & Hx & [Hin|[[= <-] Hk]]); [by eauto|].
  exists p. split; [by eapply variant_trans|]. right. by rewrite <- Hu.
Qed.

Lemma spec_op_from op a : pods_from (cache_op_pod op) (a_pods a) (a_pods (spec_op op a)).
Proof.
  destruct op as [node|node|pod|pod|pod b|pod|pc|pc| | |]; cbn [cache_op_pod spec_op];
    try apply pods_from_refl.
  - apply spec_removeNode_from.
  - apply spec_updatePod_from.
  - apply pods_from_delete.
  - apply spec_updatePod_from.
  - unfold spec_forgetPod. destruct (decide _);
      [apply (pods_from_variant pod (pod_with_NodeName pod "")); [apply variant_rename|done|]|];
      apply (spec_updatePod_from _ (mkAbsCache _ _ _ _)).
Qed.

Lemma known_op_valid c op : cache_known c → op_known op → op_valid c op.
Proof.
  intros [_ _ Hp] [Hk Ha]. assert (∀ pod, cache_op_pod op = Some pod → pod_valid c pod) as Hv.
  { intros pod Hpod. destruct (Hk pod Hpod) as [Hne Hid]. split; [done|]. intros cur Hcur.
    eapply same_identity_trans; [exact Hid|]. by apply same_identity_sym, Hp. }
  destruct op; cbn [op_valid]; auto.
Qed.

Lemma cache_known_op c op : cache_known c → op_known op → ∃ c', run_op op c = Some c' ∧ cache_known c'.
Proof.
  intros Hc Hop. pose proof (known_op_valid c op Hc Hop) as Hv. destruct Hc as [Hr Hwf Hp].
  destruct (run_op_refines c op Hwf Hv) as (c' & Hrun & Hwf' & Habs). exists c'. split; [done|].
  split; [by eapply reach_op|done|]. rewrite (abs_pods _ _ Habs). intros k p Hk.
  destruct (spec_op_from op (abs c) k p Hk) as (q & -> & [Hq|[Hq <-]]).
  - apply (Hp k q Hq).
  - apply (proj1 Hop q Hq).
Qed.

(** The steps of the operations. *)
Context (sem : nat → SchedulerCache → SchedulerCache).

(** A client of the cache: it calls an operation, which takes its steps under the write
    lock, or it looks at the cache between [LockForReads] and [UnlockForReads]. *)
Inductive Client := Mutate (op : CacheOp) (vs : list nat) | Look (vs : list nat).

Definition client_section (k : Client) : Critical :=
  match k with Mutate _ vs => Writing vs | Look vs => Reading vs end.

(** The steps make up the operation; a look changes nothing, or stores a list of nodes. *)
Definition client_ok (k : Client) : Prop :=
  match k with
  | Mutate op vs => op_known op ∧ ∀ c c', run_op op c = Some c' → exec sem vs c = c'
  | Look vs => ∀ v, v ∈ vs →
      (∀ c, sem v c = c) ∨ ∃ op, lists_nodes op = true ∧ ∀ c, run_op op c = Some (sem v c)
  end.

Lemma client_whole k : client_ok k → whole sem cache_known (client_section k).
Proof.
  destruct k as [op vs|vs]; cbn [client_ok client_section whole].
  - intros [Hop Hvs] c Hc. destruct (cache_known_op c op Hc Hop) as (c' & Hrun & Hc').
    by rewrite (Hvs c c' Hrun).
  - intros Hvs v c Hv Hc. destruct (Hvs v Hv) as [->|(op & Hl & Hrun)]; [done|].
    destruct (cache_known_op c op Hc) as (c' & Hrun' & Hc'); [by destruct op|].
    rewrite Hrun in Hrun'. by injection Hrun' as ->.
Qed.

Definition sections (ks : list Client) : list Critical := client_section <$> ks.

Definition clients (kss : list (list Client)) (c : SchedulerCache) : Shared :=
  mkShared (start <$> (program <$> (sections <$> kss))) c [].

End CacheAtomic.

(** ** [removePod] in its steps *)

(** The statements of [removePod], in order; then a step that only looks, and one that
    stores the list of nodes. *)
Definition removePod_steps (pod : Pod) (v : nat) (c : SchedulerCache) : SchedulerCache :=
  let key := pod_UID pod in
  match v with
  | 0 => match assignedPods c !! key with
         | Some nodeName =>
             let '(nodeInfo, c) :=
               match nodesMap c !! nodeName with
               | Some nodeInfo =>
                   let nodeInfo := (RemovePod nodeInfo pod).1 in
                   (Some nodeInfo, set_nodesMap (insert nodeName nodeInfo) c)
               | None => (None, c)
               end in
             default c (updatePVCRefCounts nodeInfo false c)
         | None => c
         end
  | 1 => set_podsMap (delete key) c
  | 2 => set_assignedPods (delete key) c
  | 3 => set_assumedPods (delete key) c
  | 4 => set_orphanedPods (delete key) c
  | 5 => set_nodesInfoPodsWithAffinity None c
  | 6 => set_nodesInfoPodsWithReqAntiAffinity None c
  | 7 => (GetNodesInfo c).2
  | _ => c
  end.

Lemma removePod_in_steps pod c c' :
  run_op (OpRemovePod pod) c = Some c' → exec (removePod_steps pod) [0; 1; 2; 3; 4; 5; 6] c = c'.
Proof.
  cbn [run_op]. unfold removePod. cbn [exec foldl removePod_steps].
  destruct (assignedPods c !! pod_UID pod) as [n|]; [|by intros [= <-]].
  destruct (nodesMap c !! n) as [ni|]; [|done].
  destruct (updatePVCRefCounts (Some _) false _) as [c1|]; [|done]. by intros [= <-].
Qed.

(** ** An example *)

Definition example_ident (uid : string) : Pod :=
  if uid =s "uid-a" then pod_a else if uid =s "uid-b" then pod_b else pod_c.

Lemma example_known : cache_known example_ident example_cache.
Proof.
  split; [apply example_reachable|apply example_wf|].
  apply (bool_decide_eq_true_1 (map_Forall (λ k p, same_identity p (example_ident k)) (podsMap example_cache))).
  vm_compute. reflexivity.
Qed.

Definition example_clients : list (list Client) :=
  [[Mutate (OpRemovePod pod_b) [0; 1; 2; 3; 4; 5; 6]]; [Look [8; 7; 8]]].

Lemma example_clients_ok : Forall (Forall (client_ok example_ident (removePod_steps pod_b))) example_clients.
Proof.
  unfold example_clients. rewrite !Forall_cons, !Forall_nil. cbn [client_ok]. split_and!; [| |done| |done..].
  - split; [|done]. intros pod [= <-]. apply (bool_decide_eq_true_1 (_ ∧ same_identity _ _)). vm_compute. reflexivity.
  - apply removePod_in_steps.
  - intros v Hv. rewrite !elem_of_cons in Hv.
    destruct Hv as [->|[->|[->|?%elem_of_nil]]]; [by left| |by left|done].
    right. by exists OpGetNodesInfo.
Qed.

(** Assigned, but not there. *)
Definition half_removed (k : string) (c : SchedulerCache) : bool :=
  bool_decide (is_Some (assignedPods c !! k)) && bool_decide (podsMap c !! k = None).

Lemma half_removed_not_wf k c : half_removed k c = true → ¬ wf c.
Proof.
  intros [[n Hn]%bool_decide_eq_true_1 Hp%bool_decide_eq_true_1]%andb_prop [Hwf _].
  pose proof (wf_assigned _ _ _ _ _ _ _ _ _ Hwf (k : string)) as Ha. by rewrite Hn, Hp in Ha.
Qed.

Definition example_play (sched : list nat) : option Shared :=
  dplay (removePod_steps pod_b) sched (clients example_clients example_cache).

(** While the pod is half removed the maps of the cache disagree, but the reader waits. *)
Lemma reader_waits :
  ∃ d, example_play [0; 0; 0; 0] = Some d ∧ ¬ wf (sh_state d) ∧ dstep (removePod_steps pod_b) 1 d = None.
Proof.
  assert (H : ((λ d, (half_removed "uid-b" (sh_state d), bool_decide (is_Some (dstep (removePod_steps pod_b) 1 d))))
               <$> example_play [0; 0; 0; 0]) = Some (true, false)) by (vm_compute; reflexivity).
  destruct (example_play _) as [d|]; [|done]. injection H as Hh Hs. exists d. split_and!; [done| |].
  - by eapply half_removed_not_wf.
  - apply bool_decide_eq_false_1 in Hs. by apply eq_None_not_Some.
Qed.

